(* ===== verification/_CoqProject ===== *)
-Q . S2P
Prelude.v
Text.v
Glob.v
Containers.v
ContainerInstance.v
Double.v
RedisObject.v
Binlog.v
HashSlot.v
Engine.v
Sweeper.v
Response.v
Command.v
KeyCmd.v
StringCmd.v
HashCmd.v
SetCmd.v
ZSetCmd.v
ZSetOrder.v
ScanCmd.v
Dispatcher.v
ReadOnly.v
Replay.v
Resp.v
RespInstance.v
ReplFrame.v
SnapshotCodec.v
Slave.v
Convergence.v
Interference.v
Master.v
Background.v
Shipping.v
Socket.v
Server.v
Worker.v
Link.v
Startup.v
Process.v
Clients.v
Round.v
Polling.v
Sessions.v
CatchUp.v
System.v
Limits.v
EndToEnd.v
Demo.v
CommandTheorems.v
TypeTheorems.v
ReplicationTheorems.v
TextTheorems.v
WorkerTheorems.v
SystemTheorems.v
ProgramTheorems.v
