(* ===== verification/Prelude.v ===== *)
(** * Verification of cache_server: a Redis-compatible, replicated cache

    cache_server is a multi-threaded cache of strings, hashes, sets and sorted
    sets behind the RESP protocol. A primary executes commands, expires keys,
    logs its writes and serves replicas that poll it; a replica applies what
    the polls bring and serves reads. This library models the program in
    src/src as pure functions and step relations and proves what the parts,
    and the program as a whole, promise.

    ** The parts and how they interact

    A connection's bytes go to a codec (Resp.v), which cuts them into command
    lines; the server (Server.v) hands each to the dispatcher (Dispatcher.v) of
    a primary or to the replicator of a replica (Slave.v). A command
    (KeyCmd.v .. ScanCmd.v) works on the engine (Engine.v), the vector of
    100003 slots (HashSlot.v), each with its objects (RedisObject.v), its
    sequence numbers and its log (Binlog.v). The primary's replicator
    (Master.v) answers the HELLO of a replica with frames (ReplFrame.v) made
    of snapshots (SnapshotCodec.v) and log records, which travel over the link
    (Link.v) to the replica's replicator. Background threads sweep and maintain
    a primary (Sweeper.v, Background.v) or poll it for a replica. The program's
    entry reads the options and sets all of this going (Startup.v, Process.v).

    ** Files

    - Prelude.v: notations, 64-bit integers, automation, lemmas on lists and
      strings, [std_sort]; the option and state monads.
    - Text.v: common/parse_utils, common/hash.h. Glob.v: common/glob_match.
      Double.v: the scores, IEEE doubles and their text.
    - Containers.v: the interface [ImmutableContainer] and its laws, for
      the containers of thirdparty/cpp_util; ContainerInstance.v: an instance.
    - RedisObject.v, Binlog.v, HashSlot.v, Engine.v: cache/*. Engine.v has
      the module [ExpireSweeper] (expire/expire_sweeper), Sweeper.v its theory.
    - Response.v, Resp.v: protocol/*; RespInstance.v: an instance of the
      interface [RespLib] of the RESP library.
    - Command.v: command/redis_cmd.h, and the contract [implements] between a
      write command and its specification on the abstract cache. KeyCmd.v,
      StringCmd.v, HashCmd.v, SetCmd.v, ZSetCmd.v, ScanCmd.v: command/*_cmd,
      one definition per command class; ZSetOrder.v: the orders of sorted sets.
      Dispatcher.v: command/command_dispatcher. ReadOnly.v: what the reads of
      a replica depend on. Replay.v: what a logged command does again.
    - ReplFrame.v, SnapshotCodec.v, Slave.v, Master.v, Link.v: repl/*.
    - Convergence.v, Interference.v, Shipping.v, Round.v, Polling.v, Sessions.v,
      CatchUp.v: the theory between primary and replica: runs of a slot, what
      other threads do to it, what a batch carries, one poll, the names of
      sessions, many polls. System.v: a primary, its replicas, their polls and
      their restarts as a step relation.
      Limits.v: answers that fit the link. EndToEnd.v: a poll over its two
      sockets, and that it is a step of System.v.
    - Socket.v: what system calls return. Server.v, Worker.v: net/server.cpp,
      connections and threads. Startup.v: main.cpp and net/server.h.
      Background.v: the primary's loop of main.cpp. Process.v, Clients.v: the
      process that main.cpp starts, and what its clients see.
    - Demo.v: small concrete states. CommandTheorems.v, TypeTheorems.v,
      ReplicationTheorems.v, TextTheorems.v, WorkerTheorems.v,
      SystemTheorems.v, ProgramTheorems.v: the claims, each with an instance
      at a concrete input where it has hypotheses.

    ** How the code is modelled

    - State is passed explicitly: an operation of a slot is a function on
      [HashSlot], of the engine a state monad whose failure is undefined
      behaviour or an exception of the code ([None]). That no command line
      gets there is the first claim ([Execute_safe]).
    - 64-bit integers are [Z] with their wrap-around written out ([u64],
      [+u]); bytes are Rocq strings; a [double] is a value of [SpecFloat].
    - An operation under a slot's mutex is one step. What other threads do
      between two steps is a sequence of commits (Interference.v); a poll reads
      a slot up to five times, and every read may find a later state
      ([view] in Master.v).
    - The clock, the random engine and the results of system calls are
      arguments; no theorem restricts them, beyond 64 bits for the clock.
    - Abstraction: [abs_object] forgets the containers' representation,
      [engine_live] is the keyspace a reader sees at a time, [in_sync] compares
      a slot of the primary with one of a replica.

    ** What the theorems show

    - Commands (CommandTheorems.v, TypeTheorems.v): no command line leaves
      defined behaviour or breaks the invariant; every write command refines
      its specification; errors change nothing; types are kept and checked;
      ranges, ranks, counters, deadlines and SCAN are what they should be.
    - Replication (ReplicationTheorems.v, SystemTheorems.v): the log says what
      was written; replaying it, or a snapshot, converges; a poll may break
      anywhere; in every reachable state a readable slot of a replica is
      a past state of the primary's, and enough polls reach the present one,
      restarts of both sides included, down to the bytes of the sockets;
      garbage collection and the budget drop no more than they may.
    - The server (WorkerTheorems.v, ProgramTheorems.v): connections are not
      lost; the command line means what it says; whatever clients and
      primaries send, the process goes on within defined behaviour; clients
      are served one after another, each in its order; what expired goes.
    - Text (TextTheorems.v): patterns and numbers.

    ** Bounds and fuel

    Recursion that is not structural takes fuel, and enough of it is given
    where the function is used: [ProcessInput] and [drain_frames] get the
    length of the stream plus one (a command takes a byte or more),
    [decode_objects] the number of texts, the glob matcher
    a bound on its positions, the scan the number of slots. Theorems about
    writes ask for room in the sequence numbers ([engine_room]): a byte received
    or a key removed uses at most one ([events_cost]), out of [2 ^ 64 - 1]. In
    System.v numbers stay below [2 ^ 63]. The sweeper visits 1000 slots per
    turn, so 101 turns go around; a visit removes up to 64 keys.

    ** What is not modelled

    - common/time.h (the clock) and the headers that only declare classes.
    - The containers, the RESP parser and packers, coroutines and endpoints of
      the third-party libraries: classes with laws ([ImmutableContainer],
      [RespLib], [EndpointLib]), and coroutine scheduling as the order of steps.
    - Tests for null pointers of an engine, which [main] never passes.
    - Memory is unbounded; [std::shuffle] and the distributions draw positions
      from a given stream of numbers.
    - Signals and the end of the process. A primary that restarts draws an
      epoch at random: that no replica remembers it is a hypothesis of the step.
    - In Process.v connections of different workers take turns between reads;
      that they interleave inside a command is Interference.v and System.v. *)

From Stdlib Require Export ZArith Lia Ascii Sorted.
From stdpp Require Export prelude list option strings gmap fin_maps.

#[global] Unset Program Cases.
#[export] Set Warnings "-clear-no-such-hyp,-register-all".

(** ** Notations of the development *)

Declare Scope cache_scope.
Delimit Scope cache_scope with cache.
#[global] Open Scope Z_scope.

(** Machine-width integers are [Z] with their bounds written out. *)
Definition UINT64_MAX : Z := 18446744073709551615.
Definition INT64_MAX : Z := 9223372036854775807.
Definition INT64_MIN : Z := -9223372036854775808.

(** Unsigned 64-bit arithmetic wraps. *)
Definition u64 (z : Z) : Z := z mod 18446744073709551616.

Definition is_u64 (z : Z) : Prop := 0 <= z <= UINT64_MAX.
Definition is_i64 (z : Z) : Prop := INT64_MIN <= z <= INT64_MAX.

Notation "a +u b" := (u64 (a + b)) (at level 50, left associativity) : cache_scope.
Notation "a -u b" := (u64 (a - b)) (at level 50, left associativity) : cache_scope.
Notation "a *u b" := (u64 (a * b)) (at level 40, left associativity) : cache_scope.
#[global] Open Scope cache_scope.

#[export] Instance is_u64_dec z : Decision (is_u64 z).
Proof. unfold is_u64. apply _. Defined.
#[export] Instance is_i64_dec z : Decision (is_i64 z).
Proof. unfold is_i64. apply _. Defined.

(** ** Automation *)

Create HintDb cache.
Create Rewrite HintDb cache.

(** [u64_lia] closes goals about 64-bit quantities: it unfolds the bounds and
    removes wrap-arounds that provably do not happen. *)
Lemma u64_id z : 0 <= z < 18446744073709551616 → u64 z = z.
Proof. apply Z.mod_small. Qed.

Ltac u64_simpl :=
  unfold is_u64, is_i64, UINT64_MAX, INT64_MAX, INT64_MIN in *;
  repeat match goal with
  | |- context [u64 ?z] =>
      rewrite (u64_id z) by lia
  | H : context [u64 ?z] |- _ =>
      rewrite (u64_id z) in H by lia
  end.
Ltac u64_lia := u64_simpl; try lia.

(** Boolean comparisons in the context and the goal become propositions. *)
Ltac bool_prop :=
  repeat match goal with
  | H : andb _ _ = true |- _ => apply andb_true_iff in H; destruct H
  | H : orb _ _ = false |- _ => apply orb_false_iff in H; destruct H
  | H : negb _ = true |- _ => apply negb_true_iff in H
  | H : negb _ = false |- _ => apply negb_false_iff in H
  | H : (_ <? _) = true |- _ => apply Z.ltb_lt in H
  | H : (_ <? _) = false |- _ => apply Z.ltb_ge in H
  | H : (_ <=? _) = true |- _ => apply Z.leb_le in H
  | H : (_ <=? _) = false |- _ => apply Z.leb_gt in H
  | H : (_ >? _) = true |- _ => rewrite Z.gtb_ltb in H; apply Z.ltb_lt in H
  | H : (_ >? _) = false |- _ => rewrite Z.gtb_ltb in H; apply Z.ltb_ge in H
  | H : (_ >=? _) = true |- _ => rewrite Z.geb_leb in H; apply Z.leb_le in H
  | H : (_ >=? _) = false |- _ => rewrite Z.geb_leb in H; apply Z.leb_gt in H
  | H : (_ =? _) = true |- _ => apply Z.eqb_eq in H
  | H : (_ =? _) = false |- _ => apply Z.eqb_neq in H
  | H : bool_decide _ = true |- _ => apply bool_decide_eq_true in H
  | H : bool_decide _ = false |- _ => apply bool_decide_eq_false in H
  end.

(** Case analysis on every [if] and [match] of the goal or the context. *)
Ltac break :=
  repeat (case_match; simplify_eq/=).

(** ** A state monad with partiality

    [None] stands for leaving the defined behaviour of the program: an
    out-of-range element access ([operator[]] or [at] past the end), or a
    null dereference. *)

Definition stM (S A : Type) : Type := S → option (A * S).

#[export] Instance stM_ret S : MRet (stM S) := λ A x s, Some (x, s).
#[export] Instance stM_bind S : MBind (stM S) := λ A B f m s,
  match m s with
  | Some (x, s') => f x s'
  | None => None
  end.

(** A value that may be undefined, lifted into the monad. *)
Definition liftM {S A} (o : option A) : stM S A := λ s, (λ x, (x, s)) <$> o.

Lemma stM_bind_ret {S A B} (x : A) (f : A → stM S B) s :
  (mret x ≫= f : stM S B) s = f x s.
Proof. reflexivity. Qed.

Lemma stM_bind_Some {S A B} (m : stM S A) (f : A → stM S B) s r :
  (m ≫= f) s = Some r ↔ ∃ x s', m s = Some (x, s') ∧ f x s' = Some r.
Proof.
  unfold mbind, stM_bind. split.
  - destruct (m s) as [[x s']|] eqn:E; [|done]. intros H. by exists x, s'.
  - intros (x & s' & -> & H). done.
Qed.

Lemma liftM_bind {S A B} (x : A) (f : A → stM S B) s :
  (liftM (Some x) ≫= f) s = f x s.
Proof. reflexivity. Qed.

(** [for] loops over a list of indices or elements. *)
Fixpoint foldM {S A B} (f : B → A → stM S B) (b : B) (l : list A) : stM S B :=
  match l with
  | [] => mret b
  | a :: l' => b' ← f b a; foldM f b' l'
  end.

(** A loop whose body only reads the state is a fold. *)
Lemma foldM_read {S A B} (f : B → A → stM S B) (g : B → A → B) b l s :
  (∀ b a, f b a s = Some (g b a, s)) → foldM f b l s = Some (foldl g b l, s).
Proof.
  intros Hf. revert b. induction l as [|a l IH]; intros b; cbn; [done|].
  unfold mbind, stM_bind. by rewrite Hf.
Qed.

(** ** Lists *)

Section lists.
Context {A : Type}.
Implicit Types l : list A.

Lemma last_snoc_inv l x : last l = Some x → ∃ l', l = l' ++ [x].
Proof.
  destruct l as [|y l _] using rev_ind; [done|].
  rewrite last_snoc. intros [= ->]. by exists l.
Qed.

Lemma lookup_replicate_Some (n i : nat) (x y : A) :
  replicate n x !! i = Some y → y = x ∧ (i < n)%nat.
Proof. apply lookup_replicate. Qed.
End lists.

(** ** [std::sort]

    The algorithm is the library's; what the program relies on is that a range
    compared by a strict weak order ends up sorted. The model is insertion. *)

Section std_sort.
Context {A : Type} (less : A → A → bool).

Fixpoint sort_insert (x : A) (l : list A) : list A :=
  match l with
  | [] => [x]
  | y :: l' => if less y x then y :: sort_insert x l' else x :: l
  end.

Definition std_sort (l : list A) : list A := foldr sort_insert [] l.

Lemma sort_insert_Permutation x l : sort_insert x l ≡ₚ x :: l.
Proof.
  induction l as [|y l IH]; cbn; [done|]. destruct (less y x); [|done].
  rewrite IH. apply Permutation_swap.
Qed.

Lemma std_sort_Permutation l : std_sort l ≡ₚ l.
Proof.
  induction l as [|x l IH]; cbn; [done|]. rewrite sort_insert_Permutation. by rewrite IH.
Qed.

(** On elements where [less] is a strict total order, the result increases. *)
Context (P : A → Prop) (R : A → A → Prop).
Context (R_less : ∀ x y, P x → P y → less x y = true ↔ R x y).
Context (R_trans : ∀ x y z, R x y → R y z → R x z).
Context (R_total : ∀ x y, P x → P y → x ≠ y → R x y ∨ R y x).

Lemma sort_insert_sorted x l :
  P x → Forall P l → x ∉ l → StronglySorted R l → StronglySorted R (sort_insert x l).
Proof.
  intros Hx Hl Hni Hs. induction Hs as [|y l Hs IH Hy]; cbn; [by repeat constructor|].
  apply Forall_cons in Hl as [Py Hl]. apply not_elem_of_cons in Hni as [Hne Hni].
  destruct (less y x) eqn:E.
  - apply R_less in E; [|done|done]. constructor; [by apply IH|].
    rewrite sort_insert_Permutation. by constructor.
  - assert (R x y) as Hxy.
    { destruct (R_total x y) as [?|H]; [done|done|done|done|].
      apply R_less in H; [congruence|done|done]. }
    constructor; [by constructor|]. constructor; [done|].
    eapply Forall_impl; [exact Hy|]. intros z. by apply R_trans.
Qed.

Lemma std_sort_sorted l : Forall P l → NoDup l → StronglySorted R (std_sort l).
Proof.
  induction l as [|x l IH]; cbn; [constructor|].
  intros [Hx Hl]%Forall_cons [Hni Hnd]%NoDup_cons. apply sort_insert_sorted.
  - done.
  - by rewrite std_sort_Permutation.
  - by rewrite std_sort_Permutation.
  - by apply IH.
Qed.
End std_sort.

(** [std::optional::has_value]. *)
Definition has_value {A} (o : option A) : bool :=
  match o with Some _ => true | None => false end.

Lemma has_value_fmap {A B} (f : A → B) (o : option A) : has_value (f <$> o) = has_value o.
Proof. by destruct o. Qed.

(** Sum of the integers of a list. *)
Definition sumZ {A} (f : A → Z) (l : list A) : Z := foldr (λ x a, f x + a) 0 l.

Lemma sumZ_app {A} (f : A → Z) l k : sumZ f (l ++ k) = sumZ f l + sumZ f k.
Proof. unfold sumZ. induction l as [|x l IH]; cbn; lia. Qed.
Lemma sumZ_nonneg {A} (f : A → Z) l : (∀ x, 0 <= f x) → 0 <= sumZ f l.
Proof.
  unfold sumZ. intros Hf. induction l as [|x l IH]; cbn; [lia|].
  specialize (Hf x). lia.
Qed.
Lemma sumZ_bound {A} (f : A → Z) b l :
  Forall (λ x, f x <= b) l → sumZ f l <= b * Z.of_nat (length l).
Proof. unfold sumZ. induction 1 as [|x l Hx _ IH]; cbn [foldr length]; lia. Qed.

(** A loop that pushes one element per step is a map. *)
Lemma foldl_snoc_fmap {A B} (f : A → B) acc l :
  foldl (λ acc x, acc ++ [f x]) acc l = acc ++ (f <$> l).
Proof.
  revert acc. induction l as [|x l IH]; intros acc; cbn; [by rewrite app_nil_r|].
  by rewrite IH, <-app_assoc.
Qed.

(** A counting loop counts. *)
Lemma foldl_count {A} (p : A → bool) n l :
  foldl (λ n x, if p x then n + 1 else n) n l = n + sumZ (λ x, if p x then 1 else 0) l.
Proof.
  revert n. induction l as [|x l IH]; intros n; cbn; [lia|].
  rewrite IH. unfold sumZ. destruct (p x); lia.
Qed.

(** ** Unsigned arithmetic *)

Lemma u64_range z : is_u64 (u64 z).
Proof.
  unfold is_u64, u64, UINT64_MAX.
  pose proof (Z.mod_pos_bound z 18446744073709551616). lia.
Qed.
Lemma u64_small z : is_u64 z → u64 z = z.
Proof. intros H. apply Z.mod_small. unfold is_u64, UINT64_MAX in H. lia. Qed.
#[export] Hint Resolve u64_range : cache.
