(* ===== verification/Text.v ===== *)
(** * Text: src/common/parse_utils and src/common/hash.h

    Byte strings ([std::string], [std::string_view]) are Rocq strings of
    8-bit characters. The file models the numeric conversions of the C++
    standard library the program uses ([strtoll], [std::from_chars],
    [std::to_string]) as far as it uses them, [common::ParseInt64],
    [common::ToUpperAscii] and the FNV-1a slot hash, and proves the round
    trips between printing and parsing. *)

From S2P Require Import Prelude.

(** ** Bytes *)

(** [static_cast<unsigned char>(ch)]. *)
Definition uchar (c : ascii) : Z := Z.of_N (N_of_ascii c).
Definition chr (z : Z) : ascii := ascii_of_N (Z.to_N z).

(** The bytes of a string, for code that indexes them. *)
Definition bytes_of (s : string) : list ascii := String.list_ascii_of_string s.

(** [std::string::size]. *)
Definition size_of (s : string) : Z := Z.of_nat (String.length s).

Fixpoint string_map (f : ascii → ascii) (s : string) : string :=
  match s with
  | EmptyString => EmptyString
  | String c s' => String (f c) (string_map f s')
  end.

Definition to_upper (ch : ascii) : ascii :=
  if (97 <=? uchar ch) && (uchar ch <=? 122) then chr (uchar ch - 97 + 65) else ch.

Definition ToUpperAscii (text : string) : string := string_map to_upper text.

(** ** Decimal printing: [std::to_string] *)

Definition digit (d : Z) : ascii := chr (48 + d).

Fixpoint show_digits (fuel : nat) (n : Z) : string :=
  match fuel with
  | O => ""
  | S f => if n <? 10 then String (digit n) ""
           else show_digits f (n / 10) +:+ String (digit (n mod 10)) ""
  end.

Definition show_nonneg (n : Z) : string := show_digits (Z.to_nat (Z.log2 n + 1)) n.

Definition to_string (z : Z) : string :=
  if z <? 0 then String "-" (show_nonneg (- z)) else show_nonneg z.

(** ** Decimal scanning: [strtoll] and [std::from_chars] *)

Definition is_digit (c : ascii) : bool := (48 <=? uchar c) && (uchar c <=? 57).
Definition digit_value (c : ascii) : Z := uchar c - 48.

(** The longest run of digits, accumulated, and what follows it. *)
Fixpoint scan_digits (s : string) (acc : Z) : Z * string :=
  match s with
  | EmptyString => (acc, s)
  | String c s' =>
      if is_digit c then scan_digits s' (acc * 10 + digit_value c) else (acc, s)
  end.

(** [isspace] in the C locale: tab, newline, vertical tab, form feed,
    carriage return, space. *)
Definition isspace (c : ascii) : bool :=
  (uchar c =? 32) || ((9 <=? uchar c) && (uchar c <=? 13)).

Fixpoint skip_spaces (s : string) : string :=
  match s with
  | EmptyString => EmptyString
  | String c s' => if isspace c then skip_spaces s' else s
  end.

(** [std::string::c_str] read as a C string: what precedes the first NUL. *)
Fixpoint c_str (s : string) : string :=
  match s with
  | EmptyString => EmptyString
  | String c s' => if uchar c =? 0 then EmptyString else String c (c_str s')
  end.

Definition starts_with_digit (s : string) : bool :=
  match s with String c _ => is_digit c | EmptyString => false end.

Inductive strtoll_result :=
  | NoConversion                          (* end == str *)
  | OutOfRange                            (* errno == ERANGE *)
  | Converted (value : Z) (rest : string). (* *end is the head of rest *)

(** [strtoll(str, &end, 10)]: spaces, an optional sign, digits. *)
Definition strtoll10 (str : string) : strtoll_result :=
  let after_spaces := skip_spaces str in
  let '(negative, digits) :=
    match after_spaces with
    | String "-" s' => (true, s')
    | String "+" s' => (false, s')
    | s' => (false, s')
    end in
  if starts_with_digit digits then
    let '(magnitude, rest) := scan_digits digits 0 in
    let value := if negative : bool then - magnitude else magnitude in
    if bool_decide (is_i64 value) then Converted value rest else OutOfRange
  else NoConversion.

Definition ParseInt64 (text : string) : option Z :=
  match text with
  | EmptyString => None
  | String front _ =>
      if isspace front then None
      else match strtoll10 (c_str text) with
           | Converted value EmptyString => Some value
           | _ => None
           end
  end.

(** [std::from_chars] into an unsigned 64-bit integer, required to consume
    the whole text: [ParseU64] of snapshot_codec.cpp and [Number] of
    repl_frame.cpp. No sign and no leading space is accepted. *)
Definition ParseU64 (text : string) : option Z :=
  if starts_with_digit text then
    match scan_digits text 0 with
    | (value, EmptyString) => if value <=? UINT64_MAX then Some value else None
    | _ => None
    end
  else None.

(** ** The slot hash *)

Definition kSlotCount : Z := 100003.

Fixpoint Fnva64_loop (hash : Z) (value : string) : Z :=
  match value with
  | EmptyString => hash
  | String ch rest =>
      Fnva64_loop (Z.lxor hash (uchar ch) *u 1099511628211) rest
  end.

Definition Fnva64 (value : string) : Z := Fnva64_loop 14695981039346656037 value.

Definition SlotForKey (key : string) : nat := Z.to_nat (Fnva64 key mod kSlotCount).

(** ** Facts about bytes and digits *)

Fixpoint all_chars (f : ascii → bool) (s : string) : bool :=
  match s with EmptyString => true | String c s' => f c && all_chars f s' end.

Lemma string_app_cons c s1 s2 : String c s1 +:+ s2 = String c (s1 +:+ s2).
Proof. reflexivity. Qed.
Lemma string_app_nil_l s : "" +:+ s = s.
Proof. reflexivity. Qed.

(** [String.append] does not reduce under [cbn]; these equations push it in. *)
Ltac str_simpl := cbn; rewrite ?string_app_cons, ?string_app_nil_l; cbn.

Lemma all_chars_app f s1 s2 :
  all_chars f (s1 +:+ s2) = all_chars f s1 && all_chars f s2.
Proof. induction s1 as [|c s IH]; [done|]. str_simpl. rewrite IH. by rewrite andb_assoc. Qed.

Lemma string_app_nil_r s : s +:+ "" = s.
Proof. induction s as [|c s IH]; [done|]. str_simpl. by f_equal. Qed.

Lemma string_app_assoc s1 s2 s3 : (s1 +:+ s2) +:+ s3 = s1 +:+ (s2 +:+ s3).
Proof. induction s1 as [|c s IH]; [done|]. str_simpl. by f_equal. Qed.


Lemma size_of_app s1 s2 : size_of (s1 +:+ s2) = size_of s1 + size_of s2.
Proof. unfold size_of. induction s1 as [|c s IH]; str_simpl; lia. Qed.

Lemma size_of_nonneg s : 0 <= size_of s.
Proof. unfold size_of. lia. Qed.

Lemma uchar_range c : 0 <= uchar c < 256.
Proof. unfold uchar. pose proof (N_ascii_bounded c). lia. Qed.

Lemma uchar_chr z : 0 <= z < 256 → uchar (chr z) = z.
Proof. intros H. unfold uchar, chr. rewrite N_ascii_embedding; lia. Qed.

Lemma chr_uchar c : chr (uchar c) = c.
Proof. unfold uchar, chr. rewrite N2Z.id. apply ascii_N_embedding. Qed.

Lemma uchar_inj c1 c2 : uchar c1 = uchar c2 → c1 = c2.
Proof. intros H. rewrite <-(chr_uchar c1), <-(chr_uchar c2). by rewrite H. Qed.

Lemma uchar_digit d : 0 <= d < 10 → uchar (digit d) = 48 + d.
Proof. intros H. unfold digit. apply uchar_chr. lia. Qed.

Lemma is_digit_digit d : 0 <= d < 10 → is_digit (digit d) = true.
Proof. intros H. unfold is_digit. rewrite uchar_digit by done. lia. Qed.

Lemma digit_value_digit d : 0 <= d < 10 → digit_value (digit d) = d.
Proof. intros H. unfold digit_value. rewrite uchar_digit by done. lia. Qed.

#[export] Hint Rewrite uchar_chr chr_uchar is_digit_digit digit_value_digit
  using lia : cache.

Lemma is_digit_spec c : is_digit c = true ↔ 48 <= uchar c <= 57.
Proof. unfold is_digit. lia. Qed.

(** ** Printing then scanning *)

Lemma scan_digits_snoc s d r acc :
  all_chars is_digit s = true → 0 <= d < 10 →
  scan_digits (s +:+ String (digit d) r) acc
  = scan_digits r ((scan_digits s acc).1 * 10 + d).
Proof.
  intros Hs Hd. revert acc Hs. induction s as [|c s IH]; intros acc; str_simpl.
  - autorewrite with cache. done.
  - intros [Hc Hs]%andb_true_iff. rewrite Hc. by apply IH.
Qed.

Lemma show_digits_digits fuel n :
  0 <= n → all_chars is_digit (show_digits fuel n) = true.
Proof.
  revert n. induction fuel as [|fuel IH]; intros n Hn; cbn; [done|].
  destruct (n <? 10) eqn:E; bool_prop.
  - cbn. autorewrite with cache. done.
  - rewrite all_chars_app, IH by (apply Z.div_pos; lia). cbn.
    pose proof (Z.mod_pos_bound n 10). autorewrite with cache. done.
Qed.

Lemma scan_show_digits fuel n r :
  0 <= n < 10 ^ Z.of_nat fuel → fuel ≠ O →
  scan_digits (show_digits fuel n +:+ r) 0 = scan_digits r n.
Proof.
  revert n r. induction fuel as [|fuel IH]; intros n r Hn Hf; [done|]. cbn.
  destruct (n <? 10) eqn:E; bool_prop.
  - str_simpl. autorewrite with cache. done.
  - assert (1 <= n / 10) by (apply Z.div_le_lower_bound; lia).
    assert (0 <= n / 10 < 10 ^ Z.of_nat fuel).
    { split; [lia|]. apply Z.div_lt_upper_bound; [lia|].
      rewrite Nat2Z.inj_succ, Z.pow_succ_r in Hn; lia. }
    destruct fuel as [|fuel']; [cbn in *; lia|].
    pose proof (Z.mod_pos_bound n 10).
    rewrite string_app_assoc, string_app_cons, string_app_nil_l.
    rewrite scan_digits_snoc by (try apply show_digits_digits; lia).
    specialize (IH (n / 10) "" ltac:(done) ltac:(done)).
    rewrite string_app_nil_r in IH. rewrite IH. cbn [scan_digits fst].
    f_equal. pose proof (Z.div_mod n 10). lia.
Qed.

Lemma show_fuel n : 0 <= n → n < 10 ^ Z.of_nat (Z.to_nat (Z.log2 n + 1)).
Proof.
  intros Hn. pose proof (Z.log2_nonneg n).
  rewrite Z2Nat.id by lia.
  apply Z.lt_le_trans with (2 ^ (Z.log2 n + 1)).
  - destruct (decide (n = 0)) as [->|]; [cbn; lia|].
    rewrite Z.add_1_r. apply Z.log2_spec. lia.
  - apply Z.pow_le_mono_l. lia.
Qed.

Lemma show_nonneg_digits n : 0 <= n → all_chars is_digit (show_nonneg n) = true.
Proof. apply show_digits_digits. Qed.

Lemma scan_show n r :
  0 <= n → scan_digits (show_nonneg n +:+ r) 0 = scan_digits r n.
Proof.
  intros Hn. apply scan_show_digits.
  - split; [done|]. by apply show_fuel.
  - pose proof (Z.log2_nonneg n). lia.
Qed.

Lemma scan_show_end n : 0 <= n → scan_digits (show_nonneg n) 0 = (n, "").
Proof.
  intros Hn. rewrite <-(string_app_nil_r (show_nonneg n)). by rewrite scan_show.
Qed.

Lemma show_nonneg_starts n r :
  0 <= n → ∃ c s, show_nonneg n +:+ r = String c s ∧ is_digit c = true.
Proof.
  intros Hn. pose proof (show_nonneg_digits n Hn) as Hd. unfold show_nonneg in *.
  pose proof (Z.log2_nonneg n).
  destruct (Z.to_nat (Z.log2 n + 1)) as [|fuel] eqn:E; [lia|]. revert Hd. cbn.
  destruct (n <? 10) eqn:E'.
  - str_simpl. rewrite andb_true_r. intros Hc. by exists (digit n), r.
  - destruct (show_digits fuel (n / 10)) as [|c s]; str_simpl; intros [Hc _]%andb_true_iff;
      eexists _, _; (split; [reflexivity|done]).
Qed.

Lemma c_str_id s : all_chars (λ c, negb (uchar c =? 0)) s = true → c_str s = s.
Proof.
  induction s as [|c s IH]; cbn; [done|].
  intros [Hc Hs]%andb_true_iff. rewrite negb_true_iff in Hc. rewrite Hc. by rewrite IH.
Qed.

Lemma all_chars_impl (f g : ascii → bool) s :
  (∀ c, f c = true → g c = true) → all_chars f s = true → all_chars g s = true.
Proof.
  intros Hfg. induction s as [|c s IH]; cbn; [done|].
  intros [Hc Hs]%andb_true_iff. by rewrite Hfg, IH.
Qed.

Lemma digits_c_str s : all_chars is_digit s = true → c_str s = s.
Proof.
  intros Hs. apply c_str_id. revert Hs. apply all_chars_impl.
  intros c Hc%is_digit_spec. apply negb_true_iff, Z.eqb_neq. lia.
Qed.

(** A string starting with a digit has no sign and no leading space. *)
Lemma digit_not_space c : is_digit c = true → isspace c = false.
Proof. intros H%is_digit_spec. unfold isspace. lia. Qed.

Lemma strtoll10_digits c s :
  is_digit c = true →
  strtoll10 (String c s) =
  (let '(magnitude, rest) := scan_digits (String c s) 0 in
   if bool_decide (is_i64 magnitude) then Converted magnitude rest else OutOfRange).
Proof.
  intros Hc. unfold strtoll10. cbn [skip_spaces]. rewrite digit_not_space by done.
  destruct c as [[] [] [] [] [] [] [] []]; try discriminate Hc; reflexivity.
Qed.

Lemma strtoll10_minus c s :
  is_digit c = true →
  strtoll10 (String "-" (String c s)) =
  (let '(magnitude, rest) := scan_digits (String c s) 0 in
   if bool_decide (is_i64 (- magnitude)) then Converted (- magnitude) rest
   else OutOfRange).
Proof.
  intros Hc. unfold strtoll10.
  change (skip_spaces (String "-" (String c s))) with (String "-" (String c s)).
  unfold starts_with_digit. by rewrite Hc.
Qed.

Lemma ParseInt64_to_string z : is_i64 z → ParseInt64 (to_string z) = Some z.
Proof.
  intros Hz. unfold to_string. destruct (z <? 0) eqn:E; bool_prop.
  - destruct (show_nonneg_starts (- z) "") as (c & s & Hs & Hc); [lia|].
    rewrite string_app_nil_r in Hs. pose proof (scan_show_end (- z)) as Hscan.
    pose proof (show_nonneg_digits (- z)) as Hd. rewrite Hs in *.
    unfold ParseInt64. cbn -[strtoll10 c_str].
    change (c_str (String "-" (String c s))) with (String "-" (c_str (String c s))).
    rewrite digits_c_str by (apply Hd; lia).
    rewrite strtoll10_minus, Hscan by (done || lia).
    rewrite Z.opp_involutive, bool_decide_true by done. done.
  - destruct (show_nonneg_starts z "") as (c & s & Hs & Hc); [lia|].
    rewrite string_app_nil_r in Hs. pose proof (scan_show_end z) as Hscan.
    pose proof (show_nonneg_digits z) as Hd. rewrite Hs in *.
    unfold ParseInt64. rewrite digit_not_space by done.
    rewrite digits_c_str by (apply Hd; lia).
    rewrite strtoll10_digits, Hscan by (done || lia).
    by rewrite bool_decide_true by done.
Qed.

Lemma ParseInt64_range text z : ParseInt64 text = Some z → is_i64 z.
Proof.
  unfold ParseInt64. destruct text as [|c s]; [done|].
  destruct (isspace c); [done|].
  destruct (strtoll10 _) as [| |v [|]] eqn:E; try done. intros [= ->].
  unfold strtoll10 in E. repeat case_match; simplify_eq; by bool_prop.
Qed.

Lemma ParseU64_show z :
  0 <= z → ParseU64 (to_string z) = if z <=? UINT64_MAX then Some z else None.
Proof.
  intros Hz. unfold to_string. destruct (z <? 0) eqn:E; bool_prop; [lia|].
  unfold ParseU64. rewrite scan_show_end by done.
  destruct (show_nonneg_starts z "") as (c & s & Hs & Hc); [lia|].
  rewrite string_app_nil_r in Hs. rewrite Hs. cbn. by rewrite Hc.
Qed.

Lemma ParseU64_to_string z : is_u64 z → ParseU64 (to_string z) = Some z.
Proof.
  intros [Hz Hm]. rewrite ParseU64_show by done. by rewrite (proj2 (Z.leb_le _ _)).
Qed.

Lemma scan_digits_nonneg s acc : 0 <= acc → 0 <= (scan_digits s acc).1.
Proof.
  revert acc. induction s as [|c s IH]; intros acc Hacc; cbn; [done|].
  destruct (is_digit c) eqn:E; [|done]. apply IH.
  apply is_digit_spec in E. unfold digit_value. lia.
Qed.

Lemma ParseU64_range text z : ParseU64 text = Some z → is_u64 z.
Proof.
  unfold ParseU64. destruct (starts_with_digit text); [|done].
  pose proof (scan_digits_nonneg text 0) as Hn.
  destruct (scan_digits text 0) as [v [|]] eqn:E; [|done].
  destruct (v <=? UINT64_MAX) eqn:Hv; [|done]. intros [= <-]. bool_prop.
  cbn in Hn. unfold is_u64. lia.
Qed.

#[export] Hint Resolve ParseInt64_range ParseU64_range : cache.

(** ** Upper-casing and hashing *)

Lemma to_upper_idemp c : to_upper (to_upper c) = to_upper c.
Proof. destruct c as [[] [] [] [] [] [] [] []]; reflexivity. Qed.

Lemma ToUpperAscii_idemp s : ToUpperAscii (ToUpperAscii s) = ToUpperAscii s.
Proof.
  unfold ToUpperAscii. induction s as [|c s IH]; [done|]. cbn.
  by rewrite to_upper_idemp, IH.
Qed.

Lemma SlotForKey_lt key : (SlotForKey key < Z.to_nat kSlotCount)%nat.
Proof.
  unfold SlotForKey, kSlotCount.
  pose proof (Z.mod_pos_bound (Fnva64 key) 100003). lia.
Qed.

Lemma Fnva64_range key : is_u64 (Fnva64 key).
Proof.
  unfold Fnva64.
  assert (∀ h, is_u64 h → is_u64 (Fnva64_loop h key)) as H.
  { induction key as [|c s IH]; intros h Hh; cbn; [done|]. auto with cache. }
  apply H. done.
Qed.
