(* ===== verification/Glob.v ===== *)
(** * Glob matching: src/common/glob_match.cpp

    The matcher of [SCAN ... MATCH]: an index-based scanner with one
    backtracking point (the last star). The definitions follow the C++
    line by line; the specification reads the pattern once into tokens and
    gives the declarative meaning of a token list, and [GlobMatch_spec] says
    that the single backtracking point is enough. *)

From S2P Require Import Prelude Text.

Module Glob.

Abbreviation bytes := (list ascii).

(** ** The scanner, by index *)

(** [ParseClassAtom]: the atom, whether it was escaped, and the next index. *)
Definition ParseClassAtom (pattern : bytes) (first_member_index pattern_index : nat)
    (allow_closing_bracket : bool) : option (ascii * bool * nat) :=
  match pattern !! pattern_index with
  | None => None
  | Some c =>
      if Ascii.eqb c "]" && negb (pattern_index =? first_member_index)%nat
         && negb allow_closing_bracket
      then None
      else if Ascii.eqb c "\" then
        match pattern !! S pattern_index with
        | Some c' => Some (c', true, S (S pattern_index))
        | None => Some (c, false, S pattern_index)
        end
      else Some (c, false, S pattern_index)
  end.

(** [first <= value && value <= last] after the swap of reversed bounds. *)
Definition in_range (first last value : ascii) : bool :=
  let '(lo, hi) :=
    if uchar last <? uchar first then (last, first) else (first, last) in
  (uchar lo <=? uchar value) && (uchar value <=? uchar hi).

(** The member loop of [MatchClass]: [Some (index, matched)] when the class
    is closed, [None] when the pattern ends first. [fuel] bounds the number
    of members; a pattern has fewer members than bytes. *)
Fixpoint MatchClass_loop (fuel : nat) (pattern : bytes) (first_member_index : nat)
    (value : ascii) (index : nat) (matched : bool) : option (nat * bool) :=
  match fuel with
  | O => None
  | S fuel' =>
      match pattern !! index with
      | None => None
      | Some c =>
          if Ascii.eqb c "]" && negb (index =? first_member_index)%nat
          then Some (S index, matched)
          else
            match ParseClassAtom pattern first_member_index index false with
            | None => None
            | Some (first, first_escaped, index1) =>
                let single :=
                  MatchClass_loop fuel' pattern first_member_index value index1
                    (matched || Ascii.eqb first value) in
                if negb first_escaped
                   && bool_decide (pattern !! index1 = Some "-"%char)
                   && (S index1 <? length pattern)%nat
                then
                  match ParseClassAtom pattern first_member_index (S index1) true with
                  | Some (last, last_escaped, range_end_index) =>
                      let matched' := matched || in_range first last value in
                      (* the swap leaves in [last] the larger bound *)
                      let last' := if uchar last <? uchar first then first else last in
                      if negb last_escaped && Ascii.eqb last' "]"
                      then Some (range_end_index, matched')
                      else MatchClass_loop fuel' pattern first_member_index value
                             range_end_index matched'
                  | None => single
                  end
                else single
            end
      end
  end.

(** [MatchClass]: [None] when the class is not closed. *)
Definition MatchClass (pattern : bytes) (pattern_index : nat) (value : ascii)
    : option (nat * bool) :=
  let negate := bool_decide (pattern !! pattern_index = Some "^"%char) in
  let index := if negate then S pattern_index else pattern_index in
  match MatchClass_loop (S (length pattern)) pattern index value index false with
  | Some (index', matched) => Some (index', if negate then negb matched else matched)
  | None => None
  end.

(** [MatchOne]: the next pattern index when the token at [pattern_index]
    accepts [value]. *)
Definition MatchOne (pattern : bytes) (pattern_index : nat) (value : ascii)
    : option nat :=
  match pattern !! pattern_index with
  | None => None
  | Some token =>
      if Ascii.eqb token "*" then None
      else if Ascii.eqb token "?" then Some (S pattern_index)
      else if Ascii.eqb token "[" then
        match MatchClass pattern (S pattern_index) value with
        | Some (range_index, true) => Some range_index
        | _ => None
        end
      else
        let '(literal, next_pattern_index) :=
          if Ascii.eqb token "\" then
            match pattern !! S pattern_index with
            | Some c => (c, S pattern_index)
            | None => (token, pattern_index)
            end
          else (token, pattern_index) in
        if Ascii.eqb literal value then Some (S next_pattern_index) else None
  end.

(** [while (pattern[pattern_index] == '*') ++pattern_index;] *)
Fixpoint skip_stars (fuel : nat) (pattern : bytes) (pattern_index : nat) : nat :=
  match fuel with
  | O => pattern_index
  | S fuel' =>
      if bool_decide (pattern !! pattern_index = Some "*"%char)
      then skip_stars fuel' pattern (S pattern_index) else pattern_index
  end.

(** The main loop of [MatchAt]; [star] is [(star_pattern_index,
    star_value_index)], [None] for [kNoStar]. [None] as a result is an
    exhausted fuel. *)
Fixpoint MatchAt_loop (fuel : nat) (pattern value : bytes)
    (pattern_index value_index : nat) (star : option (nat * nat)) : option bool :=
  match fuel with
  | O => None
  | S fuel' =>
      match value !! value_index with
      | None =>
          Some (skip_stars (length pattern) pattern pattern_index =? length pattern)%nat
      | Some c =>
          if bool_decide (pattern !! pattern_index = Some "*"%char) then
            let pattern_index' := skip_stars (length pattern) pattern pattern_index in
            MatchAt_loop fuel' pattern value pattern_index' value_index
              (Some (pattern_index', value_index))
          else
            match MatchOne pattern pattern_index c with
            | Some next_pattern_index =>
                MatchAt_loop fuel' pattern value next_pattern_index (S value_index) star
            | None =>
                match star with
                | None => Some false
                | Some (star_pattern_index, star_value_index) =>
                    MatchAt_loop fuel' pattern value star_pattern_index
                      (S star_value_index)
                      (Some (star_pattern_index, S star_value_index))
                end
            end
      end
  end.

(** Each backtrack moves the star's value index, and between two backtracks
    the pattern or the value index advances. *)
Definition MatchAt_fuel (pattern value : bytes) : nat :=
  S ((length value + 2) * (length value + length pattern + 2)).

Definition MatchAt (pattern value : bytes) : option bool :=
  MatchAt_loop (MatchAt_fuel pattern value) pattern value 0 0 None.

Definition GlobMatch (pattern value : string) : bool :=
  default false (MatchAt (bytes_of pattern) (bytes_of value)).

(** ** The specification: tokens and their meaning *)

Inductive token :=
  | TStar
  | TAny
  | TLit (c : ascii)
  | TClass (negate : bool) (members : list (ascii * ascii))
  | TBad. (* an unclosed class: accepts nothing *)

(** One member of a class: a single byte or a range, and how to go on. *)
Inductive class_step :=
  | CEnd (rest : bytes)                                  (* the closing bracket *)
  | CMember (first last : ascii) (rest : bytes)          (* go on *)
  | CLast (first last : ascii) (rest : bytes)            (* a range that closes *)
  | CUnclosed.

Definition class_atom (s : bytes) : option (ascii * bool * bytes) :=
  match s with
  | [] => None
  | "\"%char :: c :: s' => Some (c, true, s')
  | c :: s' => Some (c, false, s')
  end.

(** The first member of a class may be a closing bracket ([fresh]). *)
Definition class_next (fresh : bool) (s : bytes) : class_step :=
  match s with
  | [] => CUnclosed
  | c :: s' =>
      if Ascii.eqb c "]" && negb fresh then CEnd s'
      else match class_atom s with
           | None => CUnclosed
           | Some (first, first_escaped, s1) =>
               match s1 with
               | "-"%char :: (_ :: _) as s2 =>
                   if first_escaped then CMember first first s1
                   else match class_atom (tail s1) with
                        | Some (last, last_escaped, s3) =>
                            let last' := if uchar last <? uchar first
                                         then first else last in
                            if negb last_escaped && Ascii.eqb last' "]"
                            then CLast first last s3 else CMember first last s3
                        | None => CMember first first s1
                        end
               | _ => CMember first first s1
               end
           end
  end.

Fixpoint class_members (fuel : nat) (fresh : bool) (s : bytes)
    : option (list (ascii * ascii) * bytes) :=
  match fuel with
  | O => None
  | S fuel' =>
      match class_next fresh s with
      | CUnclosed => None
      | CEnd rest => Some ([], rest)
      | CLast first last rest => Some ([(first, last)], rest)
      | CMember first last rest =>
          match class_members fuel' false rest with
          | Some (ms, rest') => Some ((first, last) :: ms, rest')
          | None => None
          end
      end
  end.

Definition class_token (s : bytes) : option (token * bytes) :=
  let negate := bool_decide (head s = Some "^"%char) in
  let body := if negate then tail s else s in
  match class_members (S (length body)) true body with
  | Some (ms, rest) => Some (TClass negate ms, rest)
  | None => None
  end.

Definition next_token (s : bytes) : option (token * bytes) :=
  match s with
  | [] => None
  | "*"%char :: s' => Some (TStar, s')
  | "?"%char :: s' => Some (TAny, s')
  | "["%char :: s' => Some (default (TBad, []) (class_token s'))
  | "\"%char :: c :: s' => Some (TLit c, s')
  | c :: s' => Some (TLit c, s')
  end.

Fixpoint tokens_fuel (fuel : nat) (s : bytes) : list token :=
  match fuel with
  | O => []
  | S fuel' =>
      match next_token s with
      | None => []
      | Some (t, s') => t :: tokens_fuel fuel' s'
      end
  end.

Definition tokens (s : bytes) : list token := tokens_fuel (length s) s.

Definition accepts (t : token) (c : ascii) : bool :=
  match t with
  | TStar | TBad => false
  | TAny => true
  | TLit c' => Ascii.eqb c' c
  | TClass negate ms =>
      xorb negate (existsb (λ '(first, last), in_range first last c) ms)
  end.

(** A star stands for any bytes, every other token for one accepted byte. *)
Inductive glob : list token → bytes → Prop :=
  | glob_nil : glob [] []
  | glob_star_skip ts v : glob ts v → glob (TStar :: ts) v
  | glob_star_eat ts c v : glob (TStar :: ts) v → glob (TStar :: ts) (c :: v)
  | glob_one t ts c v : accepts t c = true → glob ts v → glob (t :: ts) (c :: v).

Definition GlobSpec (pattern value : string) : Prop :=
  glob (tokens (bytes_of pattern)) (bytes_of value).

(** ** Indices as suffixes

    The code walks indices into one string; the specification walks
    suffixes. [at_of p s] is the index of the suffix [s] of [p]. *)

Definition at_of (p s : bytes) : nat := length p - length s.

Section suffixes.
Implicit Types p s : bytes.

Lemma at_lookup p s n : s `suffix_of` p → p !! (at_of p s + n)%nat = s !! n.
Proof.
  intros [pre ->]. unfold at_of. rewrite length_app.
  rewrite lookup_app_r by lia. f_equal. lia.
Qed.

Lemma at_lookup_0 p s : s `suffix_of` p → p !! at_of p s = head s.
Proof.
  intros Hs. rewrite <-(Nat.add_0_r (at_of p s)), at_lookup by done.
  by destruct s.
Qed.

Lemma at_lookup_1 p s : s `suffix_of` p → p !! S (at_of p s) = s !! 1%nat.
Proof. intros Hs. rewrite <-(at_lookup p s 1) by done. f_equal. lia. Qed.

Lemma at_cons p c s : c :: s `suffix_of` p → at_of p s = S (at_of p (c :: s)).
Proof.
  intros [pre ->]. unfold at_of. rewrite !length_app. cbn. lia.
Qed.

Lemma at_nil p : at_of p [] = length p.
Proof. unfold at_of. cbn. lia. Qed.

Lemma at_self p : at_of p p = 0%nat.
Proof. unfold at_of. lia. Qed.

Lemma at_inj p s1 s2 :
  s1 `suffix_of` p → s2 `suffix_of` p → at_of p s1 = at_of p s2 → s1 = s2.
Proof.
  intros [k1 ->] [k2 H]. unfold at_of. rewrite H, !length_app.
  intros Hl. assert (length s1 = length s2).
  { apply (f_equal length) in H. rewrite !length_app in H. lia. }
  symmetry in H. apply app_inj_2 in H; [by destruct H|done].
Qed.

Lemma at_lt p s1 s2 :
  s1 `suffix_of` p → s2 `suffix_of` p → (length s2 < length s1)%nat →
  (at_of p s1 < at_of p s2)%nat.
Proof.
  intros [k1 ->] [k2 H]. unfold at_of. apply (f_equal length) in H.
  rewrite !length_app in *. lia.
Qed.

Lemma suffix_cons_tail c s p : c :: s `suffix_of` p → s `suffix_of` p.
Proof. apply suffix_cons_l. Qed.
End suffixes.

Create HintDb glob.
#[export] Hint Resolve suffix_cons_tail : glob.
#[export] Hint Resolve suffix_nil : glob.

(** ** Classes *)

Lemma class_atom_shorter s c e s' :
  class_atom s = Some (c, e, s') → s' `suffix_of` s ∧ (length s' < length s)%nat.
Proof.
  unfold class_atom. intros H.
  destruct s as [|a [|b s]]; try done; repeat case_match; simplify_eq;
    (split; [eexists [_; _] + eexists [_]; reflexivity|cbn; lia]).
Qed.

Lemma ParseClassAtom_suffix p first s allow :
  s `suffix_of` p →
  (head s = Some "]"%char → at_of p s = first ∨ allow = true) →
  ParseClassAtom p first (at_of p s) allow =
  match class_atom s with
  | Some (c, e, s') => Some (c, e, at_of p s')
  | None => None
  end.
Proof.
  intros Hs Hclose. unfold ParseClassAtom. rewrite at_lookup_0, at_lookup_1 by done.
  destruct s as [|c s]; [done|]. cbn [head]. cbn in Hclose.
  destruct (Ascii.eqb c "]" && negb (at_of p (c :: s) =? first)%nat && negb allow) eqn:E.
  { rewrite !andb_true_iff, !negb_true_iff in E. destruct E as [[Ec Ef] Ea].
    apply Ascii.eqb_eq in Ec. apply Nat.eqb_neq in Ef. subst.
    destruct Hclose; done. }
  destruct (Ascii.eqb_spec c "\") as [->|Hc].
  - destruct s as [|c' s]; cbn.
    + by rewrite <-(at_cons p "\").
    + rewrite (at_cons p c' s), (at_cons p "\" (c' :: s)) by eauto with glob. done.
  - rewrite <-(at_cons p c) by done. unfold class_atom.
    destruct c as [[] [] [] [] [] [] [] []]; done.
Qed.

Lemma in_range_single c v : in_range c c v = Ascii.eqb c v.
Proof.
  unfold in_range. rewrite Z.ltb_irrefl.
  destruct (Ascii.eqb_spec c v) as [->|Hne]; [lia|].
  assert (uchar c ≠ uchar v) by (intros ?%uchar_inj; done). lia.
Qed.

Lemma class_next_shorter fresh s :
  match class_next fresh s with
  | CEnd r | CMember _ _ r | CLast _ _ r =>
      r `suffix_of` s ∧ (length r < length s)%nat
  | CUnclosed => True
  end.
Proof.
  unfold class_next. destruct s as [|c s]; [done|].
  destruct (Ascii.eqb c "]" && negb fresh).
  { split; [by exists [c]|cbn; lia]. }
  destruct (class_atom (c :: s)) as [[[a e] s1]|] eqn:E; [|done].
  apply class_atom_shorter in E.
  assert (∀ b e' s3, class_atom (tail s1) = Some (b, e', s3) →
            s3 `suffix_of` (c :: s) ∧ (length s3 < length (c :: s))%nat) as Htail.
  { intros b e' s3 [Hs3 Hl]%class_atom_shorter. destruct E as [Hs1 Hl1].
    destruct s1 as [|x s1]; cbn in *; [lia|]. split; [|lia].
    etrans; [done|]. by eapply suffix_cons_tail. }
  repeat case_match; simplify_eq/=; eauto.
Qed.

Lemma class_members_shorter fuel fresh s ms r :
  class_members fuel fresh s = Some (ms, r) →
  r `suffix_of` s ∧ (length r < length s)%nat.
Proof.
  revert fresh s ms r. induction fuel as [|fuel IH]; intros fresh s ms r; [done|].
  cbn. pose proof (class_next_shorter fresh s) as Hn.
  destruct (class_next fresh s) as [rest|a b rest|a b rest|]; [by intros [= <- <-]| |by intros [= <- <-]|done].
  destruct (class_members fuel false rest) as [[ms' r']|] eqn:E; [|done].
  intros [= <- <-]. apply IH in E. destruct E, Hn. split; [by etrans|lia].
Qed.

Lemma class_members_fuel f1 f2 fresh s :
  (length s < f1)%nat → (length s < f2)%nat →
  class_members f1 fresh s = class_members f2 fresh s.
Proof.
  revert f2 fresh s. induction f1 as [|f1 IH]; intros f2 fresh s H1 H2; [lia|].
  destruct f2 as [|f2]; [lia|]. cbn. pose proof (class_next_shorter fresh s) as Hn.
  destruct (class_next fresh s); try done.
  rewrite (IH f2) by lia. done.
Qed.

(** One iteration of the member loop reads what [class_next] reads. *)
Lemma MatchClass_loop_step fuel p first v s m :
  s `suffix_of` p → (first <= at_of p s)%nat →
  MatchClass_loop (S fuel) p first v (at_of p s) m =
  match class_next (at_of p s =? first)%nat s with
  | CUnclosed => None
  | CEnd r => Some (at_of p r, m)
  | CLast a b r => Some (at_of p r, m || in_range a b v)
  | CMember a b r =>
      MatchClass_loop fuel p first v (at_of p r) (m || in_range a b v)
  end.
Proof.
  intros Hs Hf. cbn [MatchClass_loop]. rewrite at_lookup_0 by done.
  destruct s as [|c s]; [done|]. cbn [head class_next].
  destruct (Ascii.eqb c "]" && negb (at_of p (c :: s) =? first)%nat) eqn:Eend.
  { by rewrite <-(at_cons p c). }
  rewrite ParseClassAtom_suffix; [|done|].
  2:{ cbn. intros [= ->]. left. cbn in Eend. apply negb_false_iff, Nat.eqb_eq in Eend.
      done. }
  destruct (class_atom (c :: s)) as [[[a e] s1]|] eqn:E; [|done].
  apply class_atom_shorter in E. destruct E as [Hs1 Hl1].
  assert (s1 `suffix_of` p) as Hs1p by (by etrans).
  rewrite at_lookup_0 by done. rewrite <-(in_range_single a v).
  destruct s1 as [|d [|d' s2]].
  - rewrite bool_decide_false by done. by rewrite andb_false_r.
  - replace (S (at_of p [d]) <? length p)%nat with false.
    2:{ symmetry. apply Nat.ltb_ge. rewrite <-at_cons by done. rewrite at_nil. lia. }
    rewrite andb_false_r.
    destruct d as [[] [] [] [] [] [] [] []]; done.
  - cbn [head].
    replace (S (at_of p (d :: d' :: s2)) <? length p)%nat with true.
    2:{ symmetry. apply Nat.ltb_lt. rewrite <-at_cons by done.
        rewrite <-(at_nil p). apply at_lt; eauto with glob. cbn. lia. }
    rewrite andb_true_r.
    destruct (decide (d = "-"%char)) as [->|Hd].
    2:{ rewrite bool_decide_false by congruence. rewrite andb_false_r.
        destruct d as [[] [] [] [] [] [] [] []]; done. }
    rewrite bool_decide_true, andb_true_r by done.
    destruct e; cbn [negb]; [done|].
    rewrite <-(at_cons p "-") by done.
    rewrite ParseClassAtom_suffix by eauto with glob. cbn [tail].
    destruct (class_atom (d' :: s2)) as [[[b e] s3]|]; [|done].
    by repeat case_match.
Qed.

Lemma MatchClass_loop_spec fuel p first v s m :
  s `suffix_of` p → (first <= at_of p s)%nat →
  MatchClass_loop fuel p first v (at_of p s) m =
  match class_members fuel (at_of p s =? first)%nat s with
  | Some (ms, r) =>
      Some (at_of p r, m || existsb (λ '(a, b), in_range a b v) ms)
  | None => None
  end.
Proof.
  revert s m. induction fuel as [|fuel IH]; intros s m Hs Hf; [done|].
  rewrite MatchClass_loop_step by done. cbn [class_members].
  pose proof (class_next_shorter (at_of p s =? first)%nat s) as Hn.
  destruct (class_next _ s) as [r|a b r|a b r|]; cbn [existsb].
  - by rewrite orb_false_r.
  - destruct Hn as [Hr Hl]. assert (r `suffix_of` p) by (by etrans).
    assert (at_of p s < at_of p r)%nat by (by apply at_lt).
    rewrite IH by (done || lia).
    replace (at_of p r =? first)%nat with false by (symmetry; apply Nat.eqb_neq; lia).
    destruct (class_members fuel false r) as [[ms r']|]; [|done].
    cbn [existsb]. by rewrite orb_assoc.
  - by rewrite orb_false_r.
  - done.
Qed.

Lemma MatchClass_spec p s v :
  s `suffix_of` p →
  MatchClass p (at_of p s) v =
  match class_token s with
  | Some (t, r) => Some (at_of p r, accepts t v)
  | None => None
  end.
Proof.
  intros Hs. unfold MatchClass, class_token. rewrite at_lookup_0 by done.
  set (negate := bool_decide (head s = Some "^"%char)).
  assert (∃ body, body = (if negate then tail s else s) ∧ body `suffix_of` p ∧
            (if negate then S (at_of p s) else at_of p s) = at_of p body)
    as (body & -> & Hb & ->).
  { eexists. split; [done|]. subst negate. case_bool_decide as Hh; [|done].
    destruct s as [|c s]; [done|]. cbn. split; [eauto with glob|].
    by rewrite <-at_cons. }
  rewrite MatchClass_loop_spec, Nat.eqb_refl by (done || lia).
  assert (length (if negate then tail s else s) <= length p)%nat
    by (apply suffix_length in Hb; done).
  rewrite (class_members_fuel _ (S (length (if negate then tail s else s)))) by lia.
  destruct (class_members _ _ _) as [[ms r]|]; [|done]. cbn.
  by destruct negate; destruct (existsb _ ms).
Qed.

(** ** Tokens *)

Lemma next_token_shorter s t r :
  next_token s = Some (t, r) → r `suffix_of` s ∧ (length r < length s)%nat.
Proof.
  assert (∀ (c : ascii) (s' : bytes), s' `suffix_of` (c :: s') ∧ (length s' < length (c :: s'))%nat) as Hc.
  { intros c s'. split; [by exists [c]|cbn; lia]. }
  assert (∀ (c c' : ascii) (s' : bytes), s' `suffix_of` (c :: c' :: s') ∧
            (length s' < length (c :: c' :: s'))%nat) as Hcc.
  { intros c c' s'. split; [by exists [c; c']|cbn; lia]. }
  assert (∀ s' t' r', class_token s' = Some (t', r') → r' `suffix_of` s') as Hcl.
  { intros s' t' r'. unfold class_token.
    destruct (class_members _ _ _) as [[ms r0]|] eqn:E; [|done].
    intros [= _ <-]. apply class_members_shorter in E as [E _].
    case_bool_decide; [|done]. destruct s' as [|c s']; [done|].
    etrans; [done|]. by exists [c]. }
  unfold next_token. intros H.
  destruct s as [|c s]; [done|].
  destruct (decide (c = "["%char)) as [->|Hb].
  - injection H as H. destruct (class_token s) as [[t' r']|] eqn:E; cbn in H; simplify_eq.
    + apply Hcl in E. split; [etrans; [done|by exists ["["%char]]|].
      apply suffix_length in E. cbn. lia.
    + split; [by eexists; rewrite app_nil_r|cbn; lia].
  - destruct c as [[] [] [] [] [] [] [] []]; simplify_eq; eauto;
      destruct s; simplify_eq; eauto.
Qed.

Lemma tokens_fuel_indep f1 f2 s :
  (length s <= f1)%nat → (length s <= f2)%nat → tokens_fuel f1 s = tokens_fuel f2 s.
Proof.
  revert f2 s. induction f1 as [|f1 IH]; intros f2 s H1 H2.
  - destruct s; [by destruct f2|cbn in H1; lia].
  - destruct f2 as [|f2]; [by destruct s; [|cbn in H2; lia]|]. cbn.
    destruct (next_token s) as [[t r]|] eqn:E; [|done].
    apply next_token_shorter in E as [_ E]. f_equal. apply IH; lia.
Qed.

Lemma tokens_eq s :
  tokens s = match next_token s with Some (t, r) => t :: tokens r | None => [] end.
Proof.
  unfold tokens at 1. destruct (length s) as [|n] eqn:El; [by destruct s|]. cbn.
  destruct (next_token s) as [[t r]|] eqn:E; [|done]. f_equal.
  apply next_token_shorter in E as [_ E]. apply tokens_fuel_indep; lia.
Qed.

Lemma next_token_None s : next_token s = None → s = [].
Proof.
  destruct s as [|c s]; [done|]. unfold next_token.
  destruct c as [[] [] [] [] [] [] [] []]; try done; by destruct s.
Qed.

Lemma next_token_star s r : next_token s = Some (TStar, r) ↔ s = "*"%char :: r.
Proof.
  split; [|by intros ->]. unfold next_token. destruct s as [|c s]; [done|].
  assert (class_token s = Some (TStar, r) → False) as Hcl.
  { unfold class_token. by repeat case_match. }
  destruct c as [[] [] [] [] [] [] [] []]; try (by intros [= ->]); try done;
    try (by destruct s).
  intros [= H]. destruct (class_token s); cbn in H; simplify_eq.
Qed.

Lemma MatchOne_spec p s v :
  s `suffix_of` p →
  MatchOne p (at_of p s) v =
  match next_token s with
  | Some (t, r) => if accepts t v then Some (at_of p r) else None
  | None => None
  end.
Proof.
  intros Hs. unfold MatchOne. rewrite at_lookup_0, at_lookup_1 by done.
  destruct s as [|c s]; [done|]. cbn [head].
  destruct (Ascii.eqb_spec c "*") as [->|H1]; [done|].
  destruct (Ascii.eqb_spec c "?") as [->|H2]; [by rewrite <-at_cons|].
  destruct (Ascii.eqb_spec c "[") as [->|H3].
  { rewrite <-at_cons, MatchClass_spec by eauto with glob. cbn.
    by destruct (class_token s) as [[t r]|]. }
  destruct (Ascii.eqb_spec c "\") as [->|H4].
  - destruct s as [|c' s]; cbn [next_token accepts].
    + change (["\"%char] !! 1%nat) with (@None ascii). cbn.
      by rewrite <-(at_cons p "\" []).
    + change ((("\"%char :: c' :: s) !! 1%nat)) with (Some c').
      rewrite <-(at_cons p "\" (c' :: s)), <-(at_cons p c' s) by eauto with glob. done.
  - rewrite <-at_cons by done. unfold next_token.
    destruct c as [[] [] [] [] [] [] [] []]; done.
Qed.

(** ** Stars *)

Fixpoint drop_stars (s : bytes) : bytes :=
  match s with
  | c :: s' => if Ascii.eqb c "*" then drop_stars s' else s
  | [] => []
  end.

Lemma drop_stars_suffix s : drop_stars s `suffix_of` s.
Proof.
  induction s as [|c s IH]; [done|]. cbn. destruct (Ascii.eqb c "*"); [|done].
  by apply suffix_cons_r.
Qed.

Lemma skip_stars_spec fuel p s :
  s `suffix_of` p → (length s <= fuel)%nat →
  skip_stars fuel p (at_of p s) = at_of p (drop_stars s).
Proof.
  revert s. induction fuel as [|fuel IH]; intros s Hs Hf.
  - destruct s; [done|cbn in Hf; lia].
  - cbn. rewrite at_lookup_0 by done. destruct s as [|c s]; [done|]. cbn.
    destruct (Ascii.eqb_spec c "*") as [->|Hc].
    + rewrite bool_decide_true by done. rewrite <-at_cons by done.
      apply IH; [eauto with glob|]. cbn in Hf. lia.
    + rewrite bool_decide_false by congruence. done.
Qed.

Lemma glob_star_iff ts v :
  glob (TStar :: ts) v ↔ ∃ k, glob ts (drop k v).
Proof.
  split.
  - remember (TStar :: ts) as ts' eqn:E. induction 1; simplify_eq.
    + by exists 0%nat.
    + destruct IHglob as [k Hk]; [done|]. by exists (S k).
  - intros [k Hk]. revert v Hk. induction k as [|k IH]; intros v Hk.
    + apply glob_star_skip. done.
    + destruct v as [|c v].
      * rewrite drop_nil in Hk. by apply glob_star_skip.
      * apply glob_star_eat. by apply IH.
Qed.

Lemma glob_star_drop ts j v : glob (TStar :: ts) (drop j v) → glob (TStar :: ts) v.
Proof. rewrite !glob_star_iff. intros [k Hk]. rewrite drop_drop in Hk. eauto. Qed.

Lemma glob_star_idem ts v : glob (TStar :: TStar :: ts) v ↔ glob (TStar :: ts) v.
Proof.
  rewrite glob_star_iff. split.
  - intros [k Hk]. by eapply glob_star_drop.
  - intros H. by exists 0%nat.
Qed.

Lemma glob_star_step ts v :
  glob (TStar :: ts) v ↔
  glob ts v ∨ ∃ c v', v = c :: v' ∧ glob (TStar :: ts) v'.
Proof.
  split.
  - inversion 1; subst; eauto. done.
  - intros [H|(c & v' & -> & H)]; eauto using glob.
Qed.

Lemma glob_one_iff t ts c v :
  t ≠ TStar → glob (t :: ts) (c :: v) ↔ accepts t c = true ∧ glob ts v.
Proof.
  intros Ht. split.
  - inversion 1; subst; done.
  - intros [H1 H2]. by apply glob_one.
Qed.

(** A star-free segment consumes exactly one byte per token. *)
Lemma glob_seg seg ts w :
  Forall (λ t, t ≠ TStar) seg → glob (seg ++ ts) w →
  (length seg <= length w)%nat ∧ glob ts (drop (length seg) w).
Proof.
  intros Hseg. revert w. induction Hseg as [|t seg Ht Hseg IH]; intros w Hg; cbn in *.
  - split; [lia|done].
  - inversion Hg; subst; try done. apply IH in H3 as [Hl Hr]. cbn. split; [lia|done].
Qed.

Lemma drop_stars_glob s v :
  glob (tokens ("*"%char :: s)) v ↔ glob (TStar :: tokens (drop_stars s)) v.
Proof.
  revert v. induction s as [|c s IH]; intros v; rewrite tokens_eq; cbn [next_token drop_stars].
  - done.
  - destruct (Ascii.eqb_spec c "*") as [->|Hc]; [|done].
    rewrite <-(glob_star_idem (tokens (drop_stars s))).
    rewrite (glob_star_iff (tokens _)), (glob_star_iff (TStar :: tokens _)).
    by setoid_rewrite IH.
Qed.

Lemma glob_nil_tokens s : glob (tokens s) [] ↔ drop_stars s = [].
Proof.
  induction s as [|c s IH].
  - split; [done|]. intros _. constructor.
  - rewrite tokens_eq. cbn [drop_stars]. destruct (Ascii.eqb_spec c "*") as [->|Hc].
    + cbn [next_token]. rewrite glob_star_step, IH. split; [|by left].
      intros [?|(?&?&?&?)]; done.
    + split; [|done]. destruct (next_token (c :: s)) as [[t r]|] eqn:E.
      * inversion 1; subst. apply next_token_star in E. congruence.
      * by apply next_token_None in E.
Qed.

(** ** The matcher *)

(** What a backtrack to the last star can still find: the tokens after the
    star match at some later byte. *)
Definition later (star : option (bytes * bytes)) : Prop :=
  match star with
  | None => False
  | Some (sp, sv) => ∃ c w, sv = c :: w ∧ glob (TStar :: tokens sp) w
  end.

(** The current attempt has consumed a star-free segment since the star. *)
Definition attempt (star : option (bytes * bytes)) (ps vs : bytes) : Prop :=
  match star with
  | None => True
  | Some (sp, sv) =>
      ∃ seg pre, Forall (λ t, t ≠ TStar) seg ∧ tokens sp = seg ++ tokens ps ∧
        sv = pre ++ vs ∧ length pre = length seg
  end.

Definition star_suffix (p v : bytes) (star : option (bytes * bytes)) : Prop :=
  match star with
  | None => True
  | Some (sp, sv) => sp `suffix_of` p ∧ sv `suffix_of` v
  end.

Definition star_at (p v : bytes) : option (bytes * bytes) → option (nat * nat) :=
  fmap (λ '(sp, sv), (at_of p sp, at_of v sv)).

(** An attempt that reached the end of the value leaves no later match. *)
Lemma later_end star ps : attempt star ps [] → ¬ later star.
Proof.
  destruct star as [[sp sv]|]; [|by intros _ []].
  intros (seg & pre & Hseg & Hsp & -> & Hl) (c & w & Hw & Hg).
  rewrite app_nil_r in Hw. subst. rewrite Hsp in Hg.
  apply glob_star_iff in Hg as [k Hg]. apply glob_seg in Hg as [Hlen _]; [|done].
  rewrite length_drop in Hlen. cbn in Hl. lia.
Qed.

(** When the attempt meets a new star, the old one is not needed: any later
    match of the old star is a match of the new one. *)
Lemma later_new_star star ps ts vs :
  attempt star ps vs → (∀ w, glob (tokens ps) w ↔ glob (TStar :: ts) w) →
  later star → glob (TStar :: ts) vs.
Proof.
  destruct star as [[sp sv]|]; [|by intros _ _ []].
  intros (seg & pre & Hseg & Hsp & -> & Hl) Hps (c & w & Hw & Hg).
  rewrite Hsp in Hg. apply glob_star_iff in Hg as [k Hg].
  apply glob_seg in Hg as [_ Hg]; [|done]. rewrite Hps in Hg.
  rewrite drop_drop in Hg.
  replace (drop (k + length seg) w) with (drop (S k) vs) in Hg; [by eapply glob_star_drop|].
  transitivity (drop (S k + length pre) (pre ++ vs)).
  - rewrite drop_app_ge by lia. f_equal. lia.
  - rewrite Hw, Hl. done.
Qed.

Lemma glob_star_next sp w :
  glob (TStar :: tokens sp) w ↔ glob (tokens sp) w ∨ later (Some (sp, w)).
Proof. apply glob_star_step. Qed.

Definition pending (p v ps vs : bytes) (star : option (bytes * bytes)) : nat :=
  match star with None => S (length v) | Some (_, sv) => length sv end
    * (length v + length p + 2) + length vs + length ps.

(** One iteration of the loop that does not finish makes progress and keeps
    the answer; by induction on the fuel, the loop answers. *)
Lemma MatchAt_loop_spec p v fuel ps vs star :
  ps `suffix_of` p → vs `suffix_of` v → star_suffix p v star → attempt star ps vs →
  (pending p v ps vs star < fuel)%nat →
  ∃ b, MatchAt_loop fuel p v (at_of p ps) (at_of v vs) (star_at p v star) = Some b ∧
    (b = true ↔ glob (tokens ps) vs ∨ later star).
Proof.
  revert ps vs star. induction fuel as [|fuel IH]; [lia|].
  intros ps vs star Hps Hvs Hstar Hatt Hfuel. cbn [MatchAt_loop].
  rewrite (at_lookup_0 v vs), (at_lookup_0 p ps) by done.
  pose proof (suffix_length _ _ Hps) as Hlp. pose proof (suffix_length _ _ Hvs) as Hlv.
  destruct vs as [|c vs].
  { eexists. split; [reflexivity|]. rewrite Nat.eqb_eq, skip_stars_spec by done.
    rewrite glob_nil_tokens. pose proof (later_end star ps Hatt).
    pose proof (drop_stars_suffix ps).
    rewrite <-(at_nil p). split; [|intros [->|?]; done].
    intros E. left. eapply at_inj in E; eauto with glob. by etrans. }
  cbn [head]. case_bool_decide as Hs.
  - destruct ps as [|c' ps]; [done|]. injection Hs as ->.
    rewrite skip_stars_spec by done. cbn [drop_stars]. change (Ascii.eqb "*" "*") with true.
    cbn iota. pose proof (drop_stars_suffix ps) as Hds.
    edestruct (IH (drop_stars ps) (c :: vs) (Some (drop_stars ps, c :: vs)))
      as (b & Hb & Hspec).
    + etrans; [done|]. eauto with glob.
    + done.
    + split; [|done]. etrans; [done|]. eauto with glob.
    + by exists [], [].
    + unfold pending in *. apply suffix_length in Hds. cbn in *.
      destruct star as [[sp sv]|]; cbn in *; [|nia].
      destruct Hatt as (seg & pre & _ & _ & -> & _). rewrite length_app in Hfuel. cbn in *. nia.
    + exists b. split; [done|]. rewrite Hspec, drop_stars_glob. cbn.
      rewrite (glob_star_step _ (c :: vs)).
      pose proof (later_new_star star _ _ _ Hatt (drop_stars_glob ps)) as Hnew.
      rewrite glob_star_step in Hnew. tauto.
  - assert (¬ glob (tokens ps) (c :: vs) → ∃ b,
        match star_at p v star with
        | Some (i, j) => MatchAt_loop fuel p v i (S j) (Some (i, S j))
        | None => Some false
        end = Some b ∧ (b = true ↔ glob (tokens ps) (c :: vs) ∨ later star)) as Hback.
    { intros Hno. destruct star as [[sp sv]|]; [|by exists false; intuition].
      destruct Hatt as (seg & pre & _ & _ & -> & _). cbn in Hstar.
      assert (∃ d w, pre ++ c :: vs = d :: w) as (d & w & E) by (destruct pre; eauto).
      rewrite E in *. destruct Hstar as [Hsp Hsv].
      edestruct (IH sp w (Some (sp, w))) as (b & Hb & Hspec); eauto with glob.
      - split; eauto with glob.
      - by exists [], [].
      - unfold pending in *. apply suffix_length in Hsp, Hsv. cbn in *. nia.
      - exists b. cbn. rewrite <-(at_cons v d) by done. split; [done|].
        rewrite Hspec, <-glob_star_next. cbn.
        split; [by eauto|]. intros [?|(?&?&[= <- <-]&?)]; done. }
    rewrite MatchOne_spec by done.
    destruct (next_token ps) as [[t r]|] eqn:Et.
    + pose proof (next_token_shorter _ _ _ Et) as [Hr Hrl].
      assert (t ≠ TStar) as Ht.
      { intros ->. apply next_token_star in Et. by subst. }
      destruct (accepts t c) eqn:Ea.
      * edestruct (IH r vs star) as (b & Hb & Hspec); try done.
        -- by etrans.
        -- eauto with glob.
        -- destruct star as [[sp sv]|]; [|done].
           destruct Hatt as (seg & pre & Hseg & Hsp & -> & Hl).
           exists (seg ++ [t]), (pre ++ [c]).
           rewrite <-!app_assoc, !length_app, Forall_app. cbn.
           rewrite Hsp, tokens_eq, Et, Hl. repeat split; eauto.
        -- unfold pending in *. cbn in *. lia.
        -- exists b. rewrite <-(at_cons v c) by done. split; [done|].
           rewrite Hspec, (tokens_eq ps), Et, glob_one_iff by done. tauto.
      * apply Hback. rewrite tokens_eq, Et, glob_one_iff, Ea by done. by intros [].
    + apply Hback. rewrite tokens_eq, Et. inversion 1.
Qed.

Theorem GlobMatch_spec pattern value :
  GlobMatch pattern value = true ↔ GlobSpec pattern value.
Proof.
  unfold GlobMatch, MatchAt, GlobSpec.
  set (p := bytes_of pattern). set (v := bytes_of value).
  destruct (MatchAt_loop_spec p v (MatchAt_fuel p v) p v None) as (b & Hb & Hspec); try done.
  { unfold pending, MatchAt_fuel. cbn. nia. }
  cbn [star_at fmap option_fmap option_map] in Hb. rewrite !at_self in Hb. rewrite Hb. cbn.
  rewrite Hspec. cbn. tauto.
Qed.

(** The closing test of a range looks at the larger bound after the swap,
    not at the second atom: with a first bound above the bracket, [a-] is not
    closed by the bracket that ends it and the pattern accepts nothing. *)
Theorem range_close_after_swap value :
  GlobMatch "[0-]" ":" = true ∧ GlobMatch "[a-]" value = false.
Proof.
  split; [by vm_compute|]. apply not_true_iff_false. rewrite GlobMatch_spec.
  unfold GlobSpec. change (tokens (bytes_of "[a-]")) with [TBad].
  by inversion 1.
Qed.

End Glob.
