(* ===== verification/Containers.v ===== *)
(** * Interface of the immutable containers

    [immutable_container::PackedString], [ImtMap] and [ImtSet] come from the
    git submodule thirdparty/cpp_util, which is not part of the repository.
    The class [ImmutableContainer] lists the operations the program calls,
    and [ContainerLaws] states what it relies on: finite maps and sets over
    packed strings, with persistent update. The order in which [ForEach] and
    [ToVector] visit the elements is left open.

    [to_gmap] and [to_gset] abstract a container to a finite map (a finite
    set) of byte strings; the lemmas of this file say that every operation
    acts on the abstraction as its name says. *)

From S2P Require Import Prelude Text.

Class ImmutableContainer := {
  PackedString : Type;
  pack : string → PackedString;        (* PackedString(std::string_view) *)
  ToString : PackedString → string;    (* ToString(), View() *)
  PackedSize : PackedString → Z;       (* Size() *)
  ImtMap : Type → Type;
  map_new {V} : ImtMap V;              (* ImtMap() *)
  map_Find {V} : ImtMap V → PackedString → option V;
  map_Set {V} : ImtMap V → PackedString → V → ImtMap V;
  map_Erase {V} : ImtMap V → PackedString → option (ImtMap V);
  map_ForEach {V} : ImtMap V → list (PackedString * V);  (* visits in order *)
  map_Size {V} : ImtMap V → Z;
  map_Empty {V} : ImtMap V → bool;
  ImtSet : Type;
  set_new : ImtSet;
  set_Contains : ImtSet → PackedString → bool;
  set_Add : ImtSet → PackedString → ImtSet;
  set_Erase : ImtSet → PackedString → option ImtSet;
  set_ToVector : ImtSet → list PackedString;             (* also ForEach *)
  set_Size : ImtSet → Z;
  set_Empty : ImtSet → bool;
}.

Class ContainerLaws (IC : ImmutableContainer) : Prop := {
  ToString_pack s : ToString (pack s) = s;
  pack_ToString p : pack (ToString p) = p;
  PackedSize_spec p : PackedSize p = size_of (ToString p);
  Find_new {V} k : map_Find (map_new : ImtMap V) k = None;
  Find_Set {V} (m : ImtMap V) k v k' :
    map_Find (map_Set m k v) k' =
    if decide (ToString k = ToString k') then Some v else map_Find m k';
  Erase_None {V} (m : ImtMap V) k : map_Erase m k = None ↔ map_Find m k = None;
  Find_Erase {V} (m m' : ImtMap V) k k' :
    map_Erase m k = Some m' →
    map_Find m' k' = if decide (ToString k = ToString k') then None else map_Find m k';
  ForEach_Find {V} (m : ImtMap V) k v : (k, v) ∈ map_ForEach m ↔ map_Find m k = Some v;
  ForEach_NoDup {V} (m : ImtMap V) : NoDup (map_ForEach m).*1;
  Size_ForEach {V} (m : ImtMap V) : map_Size m = Z.of_nat (length (map_ForEach m));
  Empty_ForEach {V} (m : ImtMap V) : map_Empty m = true ↔ map_ForEach m = [];
  Contains_new k : set_Contains set_new k = false;
  Contains_Add s k k' :
    set_Contains (set_Add s k) k' = bool_decide (ToString k = ToString k') || set_Contains s k';
  set_Erase_None s k : set_Erase s k = None ↔ set_Contains s k = false;
  Contains_Erase s s' k k' :
    set_Erase s k = Some s' →
    set_Contains s' k' = negb (bool_decide (ToString k = ToString k')) && set_Contains s k';
  ToVector_Contains s k : k ∈ set_ToVector s ↔ set_Contains s k = true;
  ToVector_NoDup s : NoDup (set_ToVector s);
  set_Size_ToVector s : set_Size s = Z.of_nat (length (set_ToVector s));
  set_Empty_ToVector s : set_Empty s = true ↔ set_ToVector s = [];
}.

(** ** Abstraction to finite maps and sets *)

Section abstraction.
Context {IC : ImmutableContainer}.

Definition to_gmap {V} (m : ImtMap V) : gmap string V :=
  list_to_map (prod_map ToString id <$> map_ForEach m).

Definition to_gset (s : ImtSet) : gset string :=
  list_to_set (ToString <$> set_ToVector s).

Context {CL : ContainerLaws IC}.

#[export] Instance ToString_inj : Inj (=) (=) ToString.
Proof. intros p q E. by rewrite <-(pack_ToString p), E, pack_ToString. Qed.

#[export] Instance pack_inj : Inj (=) (=) pack.
Proof. intros p q E. by rewrite <-(ToString_pack p), E, ToString_pack. Qed.

Section maps.
Context {V : Type}.
Implicit Types (m : ImtMap V) (v : V) (k : PackedString) (s : string).

Lemma ForEach_keys_NoDup m : NoDup (prod_map ToString id <$> map_ForEach m).*1.
Proof.
  rewrite <-list_fmap_compose.
  replace (fst ∘ prod_map ToString (@id V) <$> map_ForEach m)
    with (ToString <$> (map_ForEach m).*1).
  - apply NoDup_fmap; [apply _|]. apply ForEach_NoDup.
  - rewrite <-list_fmap_compose. by apply list_fmap_ext.
Qed.

Lemma to_gmap_lookup m s : to_gmap m !! s = map_Find m (pack s).
Proof.
  apply option_eq. intros v. unfold to_gmap.
  rewrite <-elem_of_list_to_map by apply ForEach_keys_NoDup.
  rewrite <-ForEach_Find, list_elem_of_fmap. split.
  - intros ([k v'] & [= -> ->] & H). by rewrite pack_ToString.
  - intros H. exists (pack s, v). cbn. by rewrite ToString_pack.
Qed.

Lemma to_gmap_Find m k : map_Find m k = to_gmap m !! ToString k.
Proof. by rewrite to_gmap_lookup, pack_ToString. Qed.

Lemma to_gmap_new : to_gmap (map_new : ImtMap V) = ∅.
Proof. apply map_eq. intros s. by rewrite to_gmap_lookup, Find_new, lookup_empty. Qed.

Lemma to_gmap_Set m k v : to_gmap (map_Set m k v) = <[ToString k := v]> (to_gmap m).
Proof.
  apply map_eq. intros s.
  rewrite to_gmap_lookup, Find_Set, ToString_pack, lookup_insert, <-to_gmap_lookup.
  done.
Qed.

Lemma to_gmap_Erase m k :
  match map_Erase m k with
  | Some m' => to_gmap m' = delete (ToString k) (to_gmap m) ∧
               is_Some (to_gmap m !! ToString k)
  | None => to_gmap m !! ToString k = None
  end.
Proof.
  destruct (map_Erase m k) as [m'|] eqn:E.
  - split.
    + apply map_eq. intros s.
      rewrite to_gmap_lookup, (Find_Erase _ _ _ _ E), ToString_pack, lookup_delete.
      by rewrite <-to_gmap_lookup.
    + rewrite <-to_gmap_Find. destruct (map_Find m k) eqn:E'; [by eexists|].
      by apply Erase_None in E'; rewrite E' in E.
  - rewrite <-to_gmap_Find. by apply Erase_None.
Qed.

Lemma to_gmap_ForEach m :
  (prod_map ToString id <$> map_ForEach m) ≡ₚ map_to_list (to_gmap m).
Proof. symmetry. apply map_to_list_to_map, ForEach_keys_NoDup. Qed.

Lemma to_gmap_Size m : map_Size m = Z.of_nat (size (to_gmap m)).
Proof.
  rewrite Size_ForEach, <-length_map_to_list, <-to_gmap_ForEach. by rewrite length_fmap.
Qed.

Lemma to_gmap_Empty m : map_Empty m = bool_decide (to_gmap m = ∅).
Proof.
  apply eq_true_iff_eq. rewrite Empty_ForEach, bool_decide_eq_true.
  rewrite <-map_to_list_empty_iff. pose proof (to_gmap_ForEach m) as P. split.
  - intros E. rewrite E in P. symmetry in P. by apply Permutation_nil_r in P.
  - intros E. rewrite E in P. apply Permutation_nil_r in P. by apply fmap_nil_inv in P.
Qed.

Lemma to_gmap_elem m k v :
  (k, v) ∈ map_ForEach m ↔ to_gmap m !! ToString k = Some v.
Proof. by rewrite ForEach_Find, to_gmap_Find. Qed.
End maps.

Implicit Types (S : ImtSet) (k : PackedString).

Lemma to_gset_elem S s : s ∈ to_gset S ↔ set_Contains S (pack s) = true.
Proof.
  unfold to_gset. rewrite elem_of_list_to_set, list_elem_of_fmap.
  rewrite <-ToVector_Contains. split.
  - intros (p & -> & H). by rewrite pack_ToString.
  - intros H. exists (pack s). by rewrite ToString_pack.
Qed.

Lemma to_gset_Contains S k : set_Contains S k = bool_decide (ToString k ∈ to_gset S).
Proof.
  apply eq_true_iff_eq. rewrite bool_decide_eq_true, to_gset_elem. by rewrite pack_ToString.
Qed.

Lemma to_gset_new : to_gset set_new = ∅.
Proof.
  apply set_eq. intros s. rewrite to_gset_elem, Contains_new. set_solver.
Qed.

Lemma to_gset_Add S k : to_gset (set_Add S k) = {[ToString k]} ∪ to_gset S.
Proof.
  apply set_eq. intros s. rewrite elem_of_union, elem_of_singleton, !to_gset_elem.
  rewrite Contains_Add, ToString_pack, orb_true_iff, bool_decide_eq_true.
  intuition congruence.
Qed.

Lemma to_gset_Erase S k :
  match set_Erase S k with
  | Some S' => to_gset S' = to_gset S ∖ {[ToString k]} ∧ ToString k ∈ to_gset S
  | None => ToString k ∉ to_gset S
  end.
Proof.
  destruct (set_Erase S k) as [S'|] eqn:E.
  - split.
    + apply set_eq. intros s.
      rewrite elem_of_difference, elem_of_singleton, !to_gset_elem.
      rewrite (Contains_Erase _ _ _ _ E), ToString_pack, andb_true_iff, negb_true_iff.
      rewrite bool_decide_eq_false. intuition congruence.
    + rewrite to_gset_elem, pack_ToString. apply not_false_iff_true.
      intros E'%set_Erase_None. congruence.
  - apply set_Erase_None in E. rewrite to_gset_elem, pack_ToString. congruence.
Qed.

Lemma to_gset_ToVector S : (ToString <$> set_ToVector S) ≡ₚ elements (to_gset S).
Proof.
  apply NoDup_Permutation.
  - apply NoDup_fmap; [apply _|]. apply ToVector_NoDup.
  - apply NoDup_elements.
  - intros s. rewrite elem_of_elements. unfold to_gset. by rewrite elem_of_list_to_set.
Qed.

Lemma to_gset_Size S : set_Size S = Z.of_nat (size (to_gset S)).
Proof.
  rewrite set_Size_ToVector. change (size (to_gset S)) with (length (elements (to_gset S))).
  rewrite <-(Permutation_length (to_gset_ToVector S)). by rewrite length_fmap.
Qed.

Lemma to_gset_Empty S : set_Empty S = bool_decide (to_gset S = ∅).
Proof.
  apply eq_true_iff_eq. rewrite set_Empty_ToVector, bool_decide_eq_true. split.
  - intros E. unfold to_gset. by rewrite E.
  - intros E. pose proof (to_gset_ToVector S) as P. rewrite E, elements_empty in P.
    apply Permutation_nil_r in P. by apply fmap_nil_inv in P.
Qed.
End abstraction.
