(* ===== verification/ContainerInstance.v ===== *)
(** * The container interface is inhabited

    An implementation of [ImmutableContainer] by finite maps and sets that
    satisfies [ContainerLaws]: the hypotheses of the theorems about the cache
    can hold, and their witnesses evaluate. *)

From S2P Require Import Prelude Text Containers.

Definition gmap_container : ImmutableContainer := {|
  PackedString := string;
  pack s := s;
  ToString p := p;
  PackedSize := size_of;
  ImtMap V := gmap string V;
  map_new V := ∅;
  map_Find V m k := m !! k;
  map_Set V m k v := <[k := v]> m;
  map_Erase V m k := if decide (is_Some (m !! k)) then Some (delete k m) else None;
  map_ForEach V m := map_to_list m;
  map_Size V m := Z.of_nat (size m);
  map_Empty V m := (size m =? 0)%nat;
  ImtSet := gset string;
  set_new := ∅;
  set_Contains s k := bool_decide (k ∈ s);
  set_Add s k := {[k]} ∪ s;
  set_Erase s k := if decide (k ∈ s) then Some (s ∖ {[k]}) else None;
  set_ToVector s := elements s;
  set_Size s := Z.of_nat (size s);
  set_Empty s := (size s =? 0)%nat;
|}.

Lemma gmap_container_laws : ContainerLaws gmap_container.
Proof.
  constructor; cbn; try done.
  - intros V m k v k'. by rewrite lookup_insert.
  - intros V m k. case_decide as H; [|split; [intros _; by apply eq_None_not_Some|done]].
    split; [done|]. intros E. rewrite E in H. by apply is_Some_None in H.
  - intros V m m' k k' E. case_decide; [|done]. injection E as <-. by rewrite lookup_delete.
  - intros V m k v. apply elem_of_map_to_list.
  - intros V m. apply NoDup_fst_map_to_list.
  - intros V m. by rewrite length_map_to_list.
  - intros V m. rewrite Nat.eqb_eq, map_size_empty_iff. symmetry. apply map_to_list_empty_iff.
  - intros s k k'. apply eq_true_iff_eq. rewrite orb_true_iff, !bool_decide_eq_true. set_solver.
  - intros s k. case_decide as H.
    + split; [done|]. intros E. by apply bool_decide_eq_false in E.
    + split; [|done]. intros _. by apply bool_decide_eq_false.
  - intros s s' k k' E. case_decide; [|done]. injection E as <-.
    apply eq_true_iff_eq. rewrite andb_true_iff, negb_true_iff, bool_decide_eq_false,
      !bool_decide_eq_true. set_solver.
  - intros s k. by rewrite elem_of_elements, bool_decide_eq_true.
  - intros s. apply NoDup_elements.
  - intros s. rewrite Nat.eqb_eq, size_empty_iff. symmetry. rewrite elements_empty_iff. done.
Qed.
