(* ===== verification/Double.v ===== *)
(** * Double: IEEE 754 scores and their text

    The scores of sorted sets are [double]s: binary64 values of the Standard
    Library's [SpecFloat] (53-bit significands, round to nearest even). The
    file models the conversions the program uses: [strtod] with the errors
    [common::ParseFiniteDouble] looks at, and the [ostream] output with
    [setprecision(17)] in the classic locale (printf's %.17g) that
    [FormatScore] starts from. Both are computed exactly, on integers. *)

From Stdlib Require Import SpecFloat.
From S2P Require Import Prelude Text.

Abbreviation double := spec_float.

Definition prec : Z := 53.
Definition emax : Z := 1024.

#[export] Instance double_eq_dec : EqDecision double.
Proof. unfold EqDecision, Decision. repeat decide equality. Defined.

Definition dzero : double := S754_zero false.
Definition dinfinity (negative : bool) : double := S754_infinity negative.

Definition dadd (x y : double) : double := SFadd prec emax x y.
Definition dlt (x y : double) : bool := SFltb x y.
Definition dle (x y : double) : bool := SFleb x y.
Definition deq (x y : double) : bool := SFeqb x y.

(** [std::isfinite]. *)
Definition isfinite (x : double) : bool :=
  match x with S754_zero _ | S754_finite _ _ _ => true | _ => false end.

(** ** Correct rounding of a ratio *)

(** The double nearest to [num / den], for [num >= 0], [den > 0]. *)
Definition round_ratio (negative : bool) (num den : Z) : double :=
  if num =? 0 then S754_zero negative
  else
    let '(q, e, l) := SFdiv_core_binary prec emax num 0 den 0 in
    binary_round_aux prec emax negative q e l.

(** [m * 2 ^ e] as a ratio. *)
Definition scaled (m e : Z) : Z * Z :=
  if 0 <=? e then (m * 2 ^ e, 1) else (m, 2 ^ (- e)).

(** The result of a conversion is below the smallest normal number and is not
    the exact value: [strtod] reports ERANGE. *)
Definition underflow (num den : Z) (d : double) : bool :=
  match d with
  | S754_zero _ => negb (num =? 0)
  | S754_finite _ m e =>
      let '(n, k) := scaled (Zpos m) e in
      (n * 2 ^ 1022 <? k) && negb (n * den =? num * k)
  | _ => false
  end.

(** ** [strtod] *)

Inductive strtod_result :=
  | SNoConversion
  | SRange                                   (* errno == ERANGE *)
  | SConverted (value : double) (rest : string).

Definition round_checked (negative : bool) (num den : Z) (rest : string)
    : strtod_result :=
  let d := round_ratio negative num den in
  if isfinite d && negb (underflow num den d) then SConverted d rest else SRange.

Definition hex_value (c : ascii) : option Z :=
  let z := uchar c in
  if is_digit c then Some (z - 48)
  else if (97 <=? z) && (z <=? 102) then Some (z - 87)
  else if (65 <=? z) && (z <=? 70) then Some (z - 55)
  else None.

Definition dec_value (c : ascii) : option Z :=
  if is_digit c then Some (digit_value c) else None.

(** Digits with an optional point: value without the point, number of digits
    after it, whether a digit was seen, and the rest. *)
Fixpoint scan_mantissa (digit_of : ascii → option Z) (base : Z) (s : string)
    (acc frac : Z) (point seen : bool) : Z * Z * bool * string :=
  match s with
  | EmptyString => (acc, frac, seen, s)
  | String c s' =>
      match digit_of c with
      | Some d =>
          scan_mantissa digit_of base s' (acc * base + d)
            (if point then frac + 1 else frac) point true
      | None =>
          if Ascii.eqb c "." && negb point
          then
            let '(a, f, sn, r) := scan_mantissa digit_of base s' acc frac true seen in
            if sn then (a, f, sn, r) else (acc, frac, seen, s)
          else (acc, frac, seen, s)
      end
  end.

(** An exponent part [e[+-]digits], taken only when it has a digit. *)
Definition scan_exponent (letter : ascii) (s : string) : Z * string :=
  match s with
  | String c s' =>
      if Ascii.eqb (to_upper c) letter then
        let '(negative, digits) :=
          match s' with
          | String "-" t => (true, t)
          | String "+" t => (false, t)
          | t => (false, t)
          end in
        if starts_with_digit digits then
          let '(v, rest) := scan_digits digits 0 in
          (if negative : bool then - v else v, rest)
        else (0, s)
      else (0, s)
  | EmptyString => (0, s)
  end.

(** Number of decimal digits, at least 1. *)
Definition dec_digits (m : Z) : Z := size_of (show_nonneg m).

(** [m * 10 ^ e]; exponents far outside the range of a double do not need
    the power. *)
Definition decimal (negative : bool) (m e : Z) (rest : string) : strtod_result :=
  if m =? 0 then SConverted (S754_zero negative) rest
  else if 400 <? dec_digits m + e then SRange
  else if dec_digits m + e <? -400 then SRange
  else if 0 <=? e then round_checked negative (m * 10 ^ e) 1 rest
  else round_checked negative m (10 ^ (- e)) rest.

Definition hexadecimal (negative : bool) (m e : Z) (rest : string) : strtod_result :=
  if m =? 0 then SConverted (S754_zero negative) rest
  else if 2000 <? Z.log2 m + e then SRange
  else if Z.log2 m + e <? -2000 then SRange
  else let '(num, den) := scaled m e in round_checked negative num den rest.

Fixpoint drop_prefix_upper (prefix s : string) : option string :=
  match prefix, s with
  | EmptyString, _ => Some s
  | String p prefix', String c s' =>
      if Ascii.eqb (to_upper c) p then drop_prefix_upper prefix' s' else None
  | _, EmptyString => None
  end.

(** The subject sequence after the sign. An infinity or a NaN is a conversion
    (the caller refuses the value whatever follows it). *)
Definition strtod_unsigned (negative : bool) (s : string) : strtod_result :=
  match drop_prefix_upper "INFINITY" s, drop_prefix_upper "INF" s,
        drop_prefix_upper "NAN" s with
  | Some rest, _, _ => SConverted (dinfinity negative) rest
  | None, Some rest, _ => SConverted (dinfinity negative) rest
  | None, None, Some rest => SConverted S754_nan rest
  | None, None, None =>
      let hex :=
        match s with
        | String "0" (String x s') =>
            if Ascii.eqb (to_upper x) "X" then
              let '(m, frac, seen, r) := scan_mantissa hex_value 16 s' 0 0 false false in
              if seen : bool then Some (m, frac, r) else None
            else None
        | _ => None
        end in
      match hex with
      | Some (m, frac, r) =>
          let '(e, rest) := scan_exponent "P" r in
          hexadecimal negative m (e - 4 * frac) rest
      | None =>
          let '(m, frac, seen, r) := scan_mantissa dec_value 10 s 0 0 false false in
          if seen : bool then
            let '(e, rest) := scan_exponent "E" r in
            decimal negative m (e - frac) rest
          else SNoConversion
      end
  end.

Definition strtod (str : string) : strtod_result :=
  match skip_spaces str with
  | String "-" s => strtod_unsigned true s
  | String "+" s => strtod_unsigned false s
  | s => strtod_unsigned false s
  end.

(** [common::ParseFiniteDouble]. *)
Definition ParseFiniteDouble (text : string) : option double :=
  match text with
  | EmptyString => None
  | _ =>
      match strtod (c_str text) with
      | SConverted value EmptyString => if isfinite value then Some value else None
      | _ => None
      end
  end.

(** ** Output with 17 significant digits *)

(** [num / den] rounded to an integer, ties to even. *)
Definition round_half_even (num den : Z) : Z :=
  let q := num / den in
  let r := num mod den in
  if 2 * r <? den then q
  else if den <? 2 * r then q + 1
  else if Z.even q then q else q + 1.

(** The decimal exponent of [num / den]: [10 ^ x <= num / den < 10 ^ (x + 1)].
    The logarithm gives an estimate that is at most one too small. *)
Definition pow10_le (x num den : Z) : bool :=
  if 0 <=? x then 10 ^ x * den <=? num else den <=? num * 10 ^ (- x).

Definition dec_exponent (num den : Z) : Z :=
  let est := ((Z.log2 num - Z.log2 den - 1) * 30103) / 100000 in
  if pow10_le (est + 2) num den then est + 2
  else if pow10_le (est + 1) num den then est + 1
  else if pow10_le est num den then est
  else est - 1.

(** The 17 significant digits, as an integer, and the decimal exponent. *)
Definition digits17 (num den : Z) : Z * Z :=
  let x := dec_exponent num den in
  let n := if 0 <=? 16 - x then round_half_even (num * 10 ^ (16 - x)) den
           else round_half_even num (den * 10 ^ (x - 16)) in
  if n =? 10 ^ 17 then (10 ^ 16, x + 1) else (n, x).

Fixpoint drop_trailing_zeros (s : string) : string :=
  match s with
  | EmptyString => EmptyString
  | String c s' =>
      match drop_trailing_zeros s' with
      | EmptyString => if Ascii.eqb c "0" then EmptyString else String c EmptyString
      | t => String c t
      end
  end.

Fixpoint zeros (n : nat) : string :=
  match n with O => "" | S n' => String "0" (zeros n') end.

(** At least two exponent digits. *)
Definition show_exponent (x : Z) : string :=
  (if x <? 0 then "e-" else "e+") +:+
  (if Z.abs x <? 10 then "0" else "") +:+ show_nonneg (Z.abs x).

(** Significant digits without trailing zeros, laid out as %g does. *)
Definition layout_g (n x : Z) : string :=
  let all := show_nonneg n in
  if (x <? -4) || (17 <=? x) then
    let head := String.substring 0 1 all in
    let frac := drop_trailing_zeros (String.substring 1 16 all) in
    head +:+ (if decide (frac = "") then "" else "." +:+ frac) +:+ show_exponent x
  else if x <? 0 then
    "0." +:+ zeros (Z.to_nat (- x - 1)) +:+ drop_trailing_zeros all
  else
    let k := Z.to_nat (x + 1) in
    let frac := drop_trailing_zeros (String.substring k (17 - k) all) in
    String.substring 0 k all +:+ (if decide (frac = "") then "" else "." +:+ frac).

(** [out << std::setprecision(17) << score]. *)
Definition ostream17 (score : double) : string :=
  match score with
  | S754_zero s => if s then "-0" else "0"
  | S754_infinity s => if s then "-inf" else "inf"
  | S754_nan => "nan"
  | S754_finite s m e =>
      let '(num, den) := scaled (Zpos m) e in
      let '(n, x) := digits17 num den in
      (if s then "-" else "") +:+ layout_g n x
  end.

(** [while (text.back() == '0') text.pop_back(); if (text.back() == '.') ...]:
    what [FormatScore] does to a text that has a point. *)
Definition drop_point (s : string) : string :=
  let n := String.length s in
  if decide (String.get (n - 1) s = Some "."%char)
  then String.substring 0 (n - 1) s else s.

Fixpoint has_point (s : string) : bool :=
  match s with
  | EmptyString => false
  | String c s' => Ascii.eqb c "." || has_point s'
  end.

Definition strip_text (text : string) : string :=
  if has_point text then drop_point (drop_trailing_zeros text) else text.

(** [FormatScore] of src/repl/snapshot_codec.cpp and src/cache/hash_slot.cpp. *)
Definition FormatScore (score : double) : string := strip_text (ostream17 score).

(** [NormalizeZero] of src/command/zset_cmd.cpp: no negative zero. *)
Definition NormalizeZero (value : double) : double :=
  if deq value dzero then dzero else value.

Definition finite (x : double) : Prop := isfinite x = true.

Lemma ParseFiniteDouble_finite text x : ParseFiniteDouble text = Some x → finite x.
Proof.
  unfold ParseFiniteDouble, finite. destruct text as [|c text]; [done|].
  destruct (strtod _) as [| |v [|? ?]]; try done.
  destruct (isfinite v) eqn:E; [|done]. by intros [= <-].
Qed.
