(* ===== verification/RedisObject.v ===== *)
(** * RedisObject: src/cache/redis_object

    The tagged values the cache stores, with their expiry deadline, and the
    abstraction of an object to plain finite maps and sets ([abs_object]),
    in which the specifications of the commands are written. *)

From S2P Require Import Prelude Text Containers Double.

(** ** Data *)

Inductive Status := kOk | kNotFound | kWrongType | kInvalidArgument.

Record WriteResult := mkWriteResult {
  wr_status : Status;
  wr_changed : bool;
  wr_created : bool;
  wr_seq : Z;
}.

Inductive RedisObjectType := kString | kHash | kSet | kZSet.

#[export] Instance RedisObjectType_eq_dec : EqDecision RedisObjectType.
Proof. solve_decision. Defined.

Section object.
Context {IC : ImmutableContainer}.

Definition HashValue : Type := ImtMap PackedString.
Definition SetValue : Type := ImtSet.
Definition ZSetValue : Type := ImtMap double.

(** [std::variant<PackedString, HashValue, SetValue, ZSetValue>]. *)
Inductive object_value :=
  | VString (value : PackedString)
  | VHash (value : HashValue)
  | VSet (value : SetValue)
  | VZSet (value : ZSetValue).

Record RedisObject := mkRedisObject {
  type_ : RedisObjectType;
  deadline_us_ : Z;
  value_ : object_value;
}.

(** [RedisObject object;]: the members' default initialisers. *)
Definition RedisObject_default : RedisObject :=
  mkRedisObject kString 0 (VString (pack "")).

Definition MakeString (value : string) : RedisObject :=
  mkRedisObject kString 0 (VString (pack value)).
Definition MakeHash (value : HashValue) : RedisObject :=
  mkRedisObject kHash 0 (VHash value).
Definition MakeSet (value : SetValue) : RedisObject :=
  mkRedisObject kSet 0 (VSet value).
Definition MakeZSet (value : ZSetValue) : RedisObject :=
  mkRedisObject kZSet 0 (VZSet value).

Definition IsExpired (o : RedisObject) (now_us : Z) : bool :=
  negb (deadline_us_ o =? 0) && (now_us >=? deadline_us_ o).

Definition WithDeadline (o : RedisObject) (deadline_us : Z) : RedisObject :=
  mkRedisObject (type_ o) deadline_us (value_ o).
Definition ClearDeadline (o : RedisObject) : RedisObject :=
  mkRedisObject (type_ o) 0 (value_ o).

(** [std::get_if]: a null pointer is [None]. *)
Definition StringValue (o : RedisObject) : option PackedString :=
  match value_ o with VString v => Some v | _ => None end.
Definition Hash (o : RedisObject) : option HashValue :=
  match value_ o with VHash v => Some v | _ => None end.
Definition Set_ (o : RedisObject) : option SetValue :=
  match value_ o with VSet v => Some v | _ => None end.
Definition ZSet (o : RedisObject) : option ZSetValue :=
  match value_ o with VZSet v => Some v | _ => None end.

(** ** Abstraction *)

Inductive aval :=
  | AString (s : string)
  | AHash (h : gmap string string)
  | ASet (s : gset string)
  | AZSet (z : gmap string double).

Record aobj := mkAObj { a_deadline : Z; a_val : aval }.

Definition abs_value (v : object_value) : aval :=
  match v with
  | VString p => AString (ToString p)
  | VHash h => AHash (ToString <$> to_gmap h)
  | VSet s => ASet (to_gset s)
  | VZSet z => AZSet (to_gmap z)
  end.

Definition abs_object (o : RedisObject) : aobj :=
  mkAObj (deadline_us_ o) (abs_value (value_ o)).

Definition a_expired (a : aobj) (now_us : Z) : bool :=
  negb (a_deadline a =? 0) && (now_us >=? a_deadline a).

(** ** Well-formed objects: the tag names the alternative that is stored,
    the deadline is a 64-bit time, no empty collection is stored, and every
    score is finite. *)

Definition type_of_value (v : object_value) : RedisObjectType :=
  match v with
  | VString _ => kString | VHash _ => kHash | VSet _ => kSet | VZSet _ => kZSet
  end.

Definition aval_ok (a : aval) : Prop :=
  match a with
  | AString _ => True
  | AHash h => h ≠ ∅
  | ASet s => s ≠ ∅
  | AZSet z => z ≠ ∅ ∧ map_Forall (λ _ score, isfinite score = true) z
  end.

(** No empty collection. *)
Definition aval_full (a : aval) : Prop :=
  match a with
  | AString _ => True
  | AHash h => h ≠ ∅
  | ASet s => s ≠ ∅
  | AZSet z => z ≠ ∅
  end.

Lemma aval_ok_full a : aval_ok a → aval_full a.
Proof. destruct a; cbn; tauto. Qed.

Record object_ok (o : RedisObject) : Prop := {
  ok_type : type_ o = type_of_value (value_ o);
  ok_deadline : is_u64 (deadline_us_ o);
  ok_value : aval_ok (abs_value (value_ o));
}.

#[export] Instance aval_ok_dec a : Decision (aval_ok a).
Proof. destruct a; cbn; apply _. Defined.

#[export] Instance object_ok_dec o : Decision (object_ok o).
Proof.
  refine (cast_if (decide (type_ o = type_of_value (value_ o) ∧ is_u64 (deadline_us_ o) ∧
                           aval_ok (abs_value (value_ o)))));
    [by destruct a as (H1 & H2 & H3); constructor|by intros [H1 H2 H3]; apply n].
Defined.

Lemma IsExpired_abs o now_us : a_expired (abs_object o) now_us = IsExpired o now_us.
Proof. reflexivity. Qed.

Lemma IsExpired_spec o now_us :
  IsExpired o now_us = true ↔ deadline_us_ o ≠ 0 ∧ deadline_us_ o <= now_us.
Proof. unfold IsExpired. lia. Qed.

Lemma abs_WithDeadline o d :
  abs_object (WithDeadline o d) = mkAObj d (a_val (abs_object o)).
Proof. reflexivity. Qed.

Lemma WithDeadline_same o : WithDeadline o (deadline_us_ o) = o.
Proof. by destruct o. Qed.

Lemma WithDeadline_ok o d : object_ok o → is_u64 d → object_ok (WithDeadline o d).
Proof. intros [] Hd. by constructor. Qed.

Lemma MakeString_ok s : object_ok (MakeString s).
Proof. by constructor. Qed.

(** An object of type [kHash] has a hash, and so on: the null checks after
    the type tests of the commands never fail on a well-formed object. *)
Lemma object_ok_alt o :
  object_ok o →
  match type_ o with
  | kString => ∃ v, value_ o = VString v ∧ StringValue o = Some v
  | kHash => ∃ v, value_ o = VHash v ∧ Hash o = Some v
  | kSet => ∃ v, value_ o = VSet v ∧ Set_ o = Some v
  | kZSet => ∃ v, value_ o = VZSet v ∧ ZSet o = Some v
  end.
Proof.
  intros [Ht _ _]. unfold StringValue, Hash, Set_, ZSet. rewrite Ht.
  destruct (value_ o); cbn; eauto.
Qed.

(** The abstraction of freshly made objects. *)
Lemma abs_MakeHash h : abs_object (MakeHash h) = mkAObj 0 (AHash (ToString <$> to_gmap h)).
Proof. reflexivity. Qed.
Lemma abs_MakeSet s : abs_object (MakeSet s) = mkAObj 0 (ASet (to_gset s)).
Proof. reflexivity. Qed.
Lemma abs_MakeZSet z : abs_object (MakeZSet z) = mkAObj 0 (AZSet (to_gmap z)).
Proof. reflexivity. Qed.

Context {CL : ContainerLaws IC}.

Lemma abs_MakeString s : abs_object (MakeString s) = mkAObj 0 (AString s).
Proof. unfold abs_object. cbn. by rewrite ToString_pack. Qed.
End object.

#[export] Hint Rewrite @abs_WithDeadline @abs_MakeHash @abs_MakeSet @abs_MakeZSet : cache.
#[export] Hint Rewrite @abs_MakeString using typeclasses eauto : cache.
#[export] Hint Resolve MakeString_ok WithDeadline_ok : cache.

(** [Set] is a keyword; [Set_] is [RedisObject::Set]. *)
Arguments mkRedisObject {IC}.
