(* ===== verification/Binlog.v ===== *)
(** * Binlog: src/cache/binlog

    The retained write log of a slot: records in sequence order, with the
    running byte count that the budget of the primary is charged with. Byte
    counts of data held in memory are far below [2 ^ 64] and are plain
    integers. *)

From S2P Require Import Prelude Text.

Record BinlogRecord := mkBinlogRecord {
  rec_seq : Z;
  rec_args : list string;
  rec_written_at_us : Z;
  rec_deadline_us : Z;
}.

#[export] Instance BinlogRecord_eq_dec : EqDecision BinlogRecord.
Proof. solve_decision. Defined.

(** [BinlogRecord record; record.args = args;] *)
Definition record_of_args (args : list string) : BinlogRecord :=
  mkBinlogRecord 0 args 0 0.

(** Sizes of the LP64 libstdc++ ABI: three words and a vector (three words);
    a string is a pointer, a length and a 16-byte buffer. *)
Definition sizeof_BinlogRecord : Z := 48.
Definition sizeof_string : Z := 32.

Definition EstimateBinlogRecordBytes (record : BinlogRecord) : Z :=
  foldl (λ bytes arg, bytes + (sizeof_string + size_of arg))
    sizeof_BinlogRecord (rec_args record).

Module BinlogBuffer.

Record t := mk {
  records_ : list BinlogRecord;   (* a deque, oldest first *)
  retained_bytes_ : Z;
}.

Definition new : t := mk [] 0.

Definition Append (b : t) (record : BinlogRecord) : t :=
  mk (records_ b ++ [record]) (retained_bytes_ b + EstimateBinlogRecordBytes record).

Definition Clear (b : t) : t := mk [] 0.

Fixpoint CopyAfter_loop (records : list BinlogRecord) (seq : Z) (limit : nat)
    (max_bytes : Z) (result : list BinlogRecord) (copied_bytes : Z)
    : list BinlogRecord :=
  match records with
  | [] => result
  | record :: rest =>
      if rec_seq record >? seq then
        let bytes := EstimateBinlogRecordBytes record in
        if negb (length result =? 0)%nat && (bytes >? max_bytes - copied_bytes)
        then result
        else
          let result' := result ++ [record] in
          let copied_bytes' := copied_bytes + bytes in
          if (length result' =? limit)%nat || (copied_bytes' >=? max_bytes)
          then result'
          else CopyAfter_loop rest seq limit max_bytes result' copied_bytes'
      else CopyAfter_loop rest seq limit max_bytes result copied_bytes
  end.

Definition CopyAfter (b : t) (seq : Z) (limit : nat) (max_bytes : Z)
    : list BinlogRecord :=
  if (limit =? 0)%nat then []
  else CopyAfter_loop (records_ b) seq limit max_bytes [] 0.

Fixpoint Ack_loop (records : list BinlogRecord) (seq removed : Z)
    : list BinlogRecord * Z :=
  match records with
  | [] => ([], removed)
  | record :: rest =>
      if rec_seq record <=? seq
      then Ack_loop rest seq (removed + EstimateBinlogRecordBytes record)
      else (records, removed)
  end.

Definition AckThroughAndCountBytes (b : t) (seq : Z) : Z * t :=
  let '(records', removed) := Ack_loop (records_ b) seq 0 in
  (removed,
   mk records' (if removed >=? retained_bytes_ b then 0
                else retained_bytes_ b - removed)).

Definition AckThrough (b : t) (seq : Z) : t := (AckThroughAndCountBytes b seq).2.

Definition MinSeq (b : t) : Z :=
  match records_ b with [] => 0 | r :: _ => rec_seq r end.

Definition MaxSeq (b : t) : Z :=
  match last (records_ b) with None => 0 | Some r => rec_seq r end.

Definition RetainedBytes (b : t) : Z := retained_bytes_ b.

Definition Empty (b : t) : bool := match records_ b with [] => true | _ => false end.

(** ** Byte accounting *)

Definition total_bytes (l : list BinlogRecord) : Z := sumZ EstimateBinlogRecordBytes l.
Arguments total_bytes : simpl never.

Lemma Estimate_sum r :
  EstimateBinlogRecordBytes r =
  sizeof_BinlogRecord + sumZ (λ a, sizeof_string + size_of a) (rec_args r).
Proof.
  unfold EstimateBinlogRecordBytes. generalize sizeof_BinlogRecord as z.
  induction (rec_args r) as [|a l IH]; intros z; cbn; [lia|]. rewrite IH.
  unfold sumZ. cbn. lia.
Qed.

(** What the arguments of a record count for. *)
Lemma Estimate_args r :
  sumZ size_of (rec_args r) + 32 * Z.of_nat (length (rec_args r)) <= EstimateBinlogRecordBytes r.
Proof.
  rewrite Estimate_sum. unfold sizeof_BinlogRecord, sizeof_string, sumZ.
  induction (rec_args r) as [|a l IH]; cbn [foldr length]; lia.
Qed.

Lemma Estimate_pos r : 0 < EstimateBinlogRecordBytes r.
Proof.
  rewrite Estimate_sum. unfold sizeof_BinlogRecord.
  pose proof (sumZ_nonneg (λ a, sizeof_string + size_of a) (rec_args r)) as H.
  cbn in H. assert (∀ a, 0 <= sizeof_string + size_of a).
  { intros a. pose proof (size_of_nonneg a). unfold sizeof_string. lia. }
  specialize (H H0). lia.
Qed.

Lemma total_bytes_nonneg l : 0 <= total_bytes l.
Proof. apply sumZ_nonneg. intros r. pose proof (Estimate_pos r). lia. Qed.

Lemma total_bytes_app l k : total_bytes (l ++ k) = total_bytes l + total_bytes k.
Proof. apply sumZ_app. Qed.

Lemma total_bytes_cons r l :
  total_bytes (r :: l) = EstimateBinlogRecordBytes r + total_bytes l.
Proof. reflexivity. Qed.

Lemma total_bytes_one r : total_bytes [r] = EstimateBinlogRecordBytes r.
Proof. unfold total_bytes, sumZ. cbn. lia. Qed.

(** The running count is the byte size of what is retained. *)
Definition bytes_ok (b : t) : Prop := retained_bytes_ b = total_bytes (records_ b).

(** ** Acknowledgement *)

Lemma Ack_loop_spec l seq removed :
  ∃ dropped kept,
    Ack_loop l seq removed = (kept, removed + total_bytes dropped) ∧
    l = dropped ++ kept ∧
    Forall (λ r, rec_seq r <= seq) dropped ∧
    (∀ r, head kept = Some r → seq < rec_seq r).
Proof.
  revert removed. induction l as [|r l IH]; intros removed; cbn.
  - exists [], []. unfold total_bytes. cbn. rewrite Z.add_0_r. by repeat split.
  - destruct (rec_seq r <=? seq) eqn:E; bool_prop.
    + destruct (IH (removed + EstimateBinlogRecordBytes r)) as (d & k & -> & -> & Hd & Hk).
      exists (r :: d), k. rewrite total_bytes_cons. repeat split; [f_equal; lia| |done].
      by constructor.
    + exists [], (r :: l). unfold total_bytes. cbn. rewrite Z.add_0_r.
      repeat split; [constructor|]. by intros ? [= <-].
Qed.

(** What [AckThrough] does: it drops the longest prefix of records with a
    sequence number up to [seq], returns its size and keeps the count exact. *)
Lemma AckThrough_spec b seq :
  bytes_ok b →
  ∃ dropped,
    records_ b = dropped ++ records_ (AckThrough b seq) ∧
    Forall (λ r, rec_seq r <= seq) dropped ∧
    (∀ r, head (records_ (AckThrough b seq)) = Some r → seq < rec_seq r) ∧
    (AckThroughAndCountBytes b seq).1 = total_bytes dropped ∧
    bytes_ok (AckThrough b seq).
Proof.
  intros Hb. unfold AckThrough, AckThroughAndCountBytes.
  destruct (Ack_loop_spec (records_ b) seq 0) as (d & k & -> & Hl & Hd & Hk).
  exists d. cbn. repeat split; try done.
  unfold bytes_ok in *. cbn. rewrite Hb, Hl, total_bytes_app.
  pose proof (total_bytes_nonneg k). destruct (_ >=? _) eqn:E; bool_prop; lia.
Qed.

Lemma Append_ok b r : bytes_ok b → bytes_ok (Append b r).
Proof.
  unfold bytes_ok. cbn. intros ->. rewrite total_bytes_app, total_bytes_one. lia.
Qed.

Lemma Clear_ok b : bytes_ok (Clear b).
Proof. reflexivity. Qed.

(** ** Copying *)

Definition newer (seq : Z) (l : list BinlogRecord) : list BinlogRecord :=
  filter (λ r, seq < rec_seq r) l.

(** The copy extends [result] by a prefix of the newer records. *)
Lemma CopyAfter_loop_spec l seq limit max_bytes result copied :
  copied = total_bytes result → (length result < limit)%nat → copied < max_bytes ∨ result = [] →
  ∃ k rest,
    CopyAfter_loop l seq limit max_bytes result copied = result ++ k ∧
    newer seq l = k ++ rest ∧
    (length (result ++ k) <= limit)%nat ∧
    (total_bytes (result ++ k) <= max_bytes ∨ (length (result ++ k) <= 1)%nat) ∧
    (result = [] → newer seq l ≠ [] → k ≠ []) ∧
    (rest = [] ∨ length (result ++ k) = limit ∨
     ∃ r, head rest = Some r ∧
       max_bytes < total_bytes (result ++ k) + EstimateBinlogRecordBytes r).
Proof.
  revert result copied. induction l as [|r l IH]; intros result copied Hc Hlim Hmax.
  - exists [], []. cbn. rewrite app_nil_r.
    repeat split; try lia; [|done|by left].
    destruct Hmax as [?| ->]; [left; lia|right; cbn; lia].
  - cbn [CopyAfter_loop newer]. unfold newer. rewrite filter_cons.
    destruct (rec_seq r >? seq) eqn:Es; bool_prop.
    2:{ rewrite decide_False by lia. by apply IH. }
    rewrite decide_True by lia. fold (newer seq l).
    pose proof (Estimate_pos r) as Hpos.
    assert (total_bytes (result ++ [r]) = copied + EstimateBinlogRecordBytes r) as Ht.
    { rewrite total_bytes_app, total_bytes_one, Hc. lia. }
    destruct (negb _ && _) eqn:Estop.
    { bool_prop. apply Nat.eqb_neq in H.
      exists [], (r :: newer seq l). rewrite app_nil_r. cbn.
      repeat split; try lia.
      - left. destruct Hmax as [?| ->]; [lia|done].
      - intros ->. done.
      - right. right. exists r. split; [done|]. lia. }
    assert (total_bytes (result ++ [r]) <= max_bytes ∨ (length (result ++ [r]) <= 1)%nat) as Hfit.
    { apply andb_false_iff in Estop as [E|E].
      - apply negb_false_iff, Nat.eqb_eq in E. right. rewrite length_app. cbn. lia.
      - bool_prop. left. lia. }
    destruct (_ || _) eqn:Eend.
    + exists [r], (newer seq l). cbn. repeat split; try done.
      * rewrite length_app. cbn. lia.
      * apply orb_true_iff in Eend as [E|E].
        -- apply Nat.eqb_eq in E. by right; left.
        -- bool_prop. destruct (newer seq l) as [|r' rest]; [by left|].
           right. right. exists r'. split; [done|]. pose proof (Estimate_pos r'). lia.
    + apply orb_false_iff in Eend as [E1 E2]. apply Nat.eqb_neq in E1. bool_prop.
      rewrite length_app in E1. cbn in E1.
      destruct (IH (result ++ [r]) (copied + EstimateBinlogRecordBytes r))
        as (k & rest & -> & Hk & Hl & Hm & _ & Hr); [lia|rewrite length_app; cbn; lia|lia|].
      exists (r :: k), rest. rewrite <-app_assoc in *. cbn in *.
      rewrite Hk. repeat split; try done.
Qed.

Theorem CopyAfter_spec b seq limit max_bytes :
  ∃ rest,
    newer seq (records_ b) = CopyAfter b seq limit max_bytes ++ rest ∧
    (length (CopyAfter b seq limit max_bytes) <= limit)%nat ∧
    (total_bytes (CopyAfter b seq limit max_bytes) <= max_bytes ∨
     (length (CopyAfter b seq limit max_bytes) <= 1)%nat) ∧
    (limit ≠ 0%nat → newer seq (records_ b) ≠ [] → CopyAfter b seq limit max_bytes ≠ []) ∧
    (rest = [] ∨ length (CopyAfter b seq limit max_bytes) = limit ∨
     ∃ r, head rest = Some r ∧
       max_bytes < total_bytes (CopyAfter b seq limit max_bytes) + EstimateBinlogRecordBytes r).
Proof.
  unfold CopyAfter. destruct (limit =? 0)%nat eqn:E; [apply Nat.eqb_eq in E|apply Nat.eqb_neq in E].
  - exists (newer seq (records_ b)). cbn. repeat split; auto with lia.
  - destruct (CopyAfter_loop_spec (records_ b) seq limit max_bytes [] 0)
      as (k & rest & -> & Hk & Hl & Hm & Hp & Hr); [done|cbn; lia|by right|].
    exists rest. cbn in *. repeat split; auto.
Qed.

Lemma CopyAfter_elem b seq limit max_bytes r :
  r ∈ CopyAfter b seq limit max_bytes → r ∈ records_ b.
Proof.
  intros Hr. destruct (CopyAfter_spec b seq limit max_bytes) as (rest & E & _).
  assert (r ∈ newer seq (records_ b)) as H by (rewrite E; apply elem_of_app; by left).
  unfold newer in H. by apply list_elem_of_filter in H as [_ H].
Qed.

(** A record list in sequence order, without gaps, ending at [hi]. *)
Fixpoint consecutive (l : list BinlogRecord) (hi : Z) : Prop :=
  match l with
  | [] => True
  | r :: l' => rec_seq r = hi - Z.of_nat (length l') ∧ consecutive l' hi
  end.

Lemma consecutive_snoc l r hi :
  consecutive l hi → rec_seq r = hi + 1 → consecutive (l ++ [r]) (hi + 1).
Proof.
  intros Hl Hr. induction l as [|r' l IH]; cbn in *; [split; [lia|done]|].
  destruct Hl as [H1 H2]. split; [|by apply IH]. rewrite length_app. cbn. lia.
Qed.

Lemma consecutive_suffix d k hi : consecutive (d ++ k) hi → consecutive k hi.
Proof. induction d as [|r d IH]; [done|]. intros [_ H]. by apply IH. Qed.

Lemma consecutive_lookup l hi i r :
  consecutive l hi → l !! i = Some r → rec_seq r = hi - Z.of_nat (length l) + 1 + Z.of_nat i.
Proof.
  revert i. induction l as [|r' l IH]; intros i; [done|]. cbn. intros [H1 H2].
  destruct i as [|i]; cbn; [intros [= <-]; lia|]. intros E. rewrite (IH _ H2 E). lia.
Qed.

Lemma consecutive_min b hi r l :
  records_ b = r :: l → consecutive (records_ b) hi →
  MinSeq b = hi - Z.of_nat (length (records_ b)) + 1.
Proof. unfold MinSeq. intros E. rewrite E. cbn. intros [-> _]. lia. Qed.

Lemma consecutive_max b hi :
  records_ b ≠ [] → consecutive (records_ b) hi → MaxSeq b = hi.
Proof.
  unfold MaxSeq. intros Hne Hc.
  destruct (last (records_ b)) as [r|] eqn:E; [|by apply last_None in E].
  apply last_snoc_inv in E as [l' E].
  pose proof (consecutive_lookup _ _ (length l') r Hc) as H.
  rewrite E, length_app in H. cbn in H. rewrite H by (by rewrite list_lookup_middle). lia.
Qed.

(** In a consecutive log, the newer records are the last [hi - seq] ones. *)
Lemma consecutive_newer l hi seq :
  consecutive l hi → newer seq l = drop (Z.to_nat (seq - hi + Z.of_nat (length l))) l.
Proof.
  unfold newer. induction l as [|r l IH]; cbn [length]; [by rewrite drop_nil|].
  intros [H1 H2]. rewrite filter_cons. case_decide as Hd.
  - replace (Z.to_nat _) with 0%nat by lia. cbn. f_equal. rewrite IH by done.
    by replace (Z.to_nat _) with 0%nat by lia.
  - rewrite IH by done.
    replace (Z.to_nat (seq - hi + Z.of_nat (S (length l))))
      with (S (Z.to_nat (seq - hi + Z.of_nat (length l)))) by lia.
    done.
Qed.

Lemma newer_consecutive l hi seq : consecutive l hi → consecutive (newer seq l) hi.
Proof.
  intros Hc. rewrite (consecutive_newer _ hi) by done.
  eapply consecutive_suffix. by rewrite take_drop.
Qed.

End BinlogBuffer.
