(* ===== verification/HashSlot.v ===== *)
(** * HashSlot: src/cache/hash_slot

    One of the 100003 slots of the cache: the object map, the retained write
    log, and the two sequence numbers. Each public operation runs under the
    slot's mutexes; here it is one function from slot state to slot state
    (the interleaving of its critical sections with readers is not part of
    this file).

    [slot_map] abstracts the state to a finite map of abstract objects; the
    specification of every operation is given on that map. *)

From S2P Require Import Prelude Text Containers Double RedisObject Binlog.

Section slot.
Context {IC : ImmutableContainer}.

Definition ObjectMap : Type := ImtMap RedisObject.

(** What a mutator decides under the slot lock. *)
Record MutationResult := mkMutationResult {
  mr_changed : bool;
  mr_object : option RedisObject;
  mr_record : option BinlogRecord;
}.

Record HashSlot := mkHashSlot {
  redis_obj_map_ : ObjectMap;
  binlog_buffer_ : BinlogBuffer.t;
  slot_seq_ : Z;
  published_seq_ : Z;
  log_writes_ : bool;
}.

Definition HashSlot_new : HashSlot := mkHashSlot map_new BinlogBuffer.new 0 0 true.

Record SlotSnapshot := mkSlotSnapshot { snap_map : ObjectMap; snap_published_seq : Z }.

(** ** Time arithmetic *)

Definition kMicrosPerSecond : Z := 1000000.

Definition SaturatingTtlUs (seconds : Z) : Z :=
  let seconds_u := u64 seconds in
  if seconds_u >? UINT64_MAX / kMicrosPerSecond then UINT64_MAX
  else seconds_u *u kMicrosPerSecond.

Definition SaturatingDeadlineUs (now_us ttl_us : Z) : Z :=
  if ttl_us >? UINT64_MAX -u now_us then UINT64_MAX else now_us +u ttl_us.

(** ** Reads *)

Definition Get (s : HashSlot) (key : string) (now_us : Z) : option RedisObject :=
  match map_Find (redis_obj_map_ s) (pack key) with
  | None => None
  | Some found => if IsExpired found now_us then None else Some found
  end.

(** The pairs the visitor is called on, in order. *)
Definition ForEachLiveObject (s : HashSlot) (now_us : Z)
    : list (PackedString * RedisObject) :=
  List.filter (λ '(_, object), negb (IsExpired object now_us))
    (map_ForEach (redis_obj_map_ s)).

Definition Ttl (s : HashSlot) (key : string) (now_us : Z) : Z :=
  match map_Find (redis_obj_map_ s) (pack key) with
  | None => -2
  | Some object =>
      if IsExpired object now_us then -2
      else if deadline_us_ object =? 0 then -1
      else (deadline_us_ object -u now_us) / 1000000
  end.

Definition Snapshot (s : HashSlot) : SlotSnapshot :=
  mkSlotSnapshot (redis_obj_map_ s) (published_seq_ s).

(** ** Writes *)

Definition AppendLog (s : HashSlot) (record : BinlogRecord) (now_us deadline_us : Z)
    : HashSlot :=
  if negb (log_writes_ s) then s
  else
    let record' :=
      mkBinlogRecord (rec_seq record) (rec_args record) now_us deadline_us in
    mkHashSlot (redis_obj_map_ s) (BinlogBuffer.Append (binlog_buffer_ s) record')
      (slot_seq_ s) (published_seq_ s) (log_writes_ s).

Definition with_seq (record : BinlogRecord) (seq : Z) : BinlogRecord :=
  mkBinlogRecord seq (rec_args record) (rec_written_at_us record)
    (rec_deadline_us record).

(** How every write ends: [slot_seq_ = next_seq; redis_obj_map_ = next_map;
    published_seq_ = next_seq;]. *)
Definition Publish (s : HashSlot) (next_map : ObjectMap) (next_seq : Z) : HashSlot :=
  mkHashSlot next_map (binlog_buffer_ s) next_seq next_seq (log_writes_ s).

Definition Set' (s : HashSlot) (key : string) (obj : RedisObject)
    (record : BinlogRecord) (now_us : Z) : WriteResult * HashSlot :=
  let deadline_us := deadline_us_ obj in
  let packed_key := pack key in
  let created :=
    negb (has_value (map_Find (redis_obj_map_ s) packed_key)) in
  let next_map := map_Set (redis_obj_map_ s) packed_key obj in
  let next_seq := slot_seq_ s +u 1 in
  let s1 := AppendLog s (with_seq record next_seq) now_us deadline_us in
  (mkWriteResult kOk true created next_seq, Publish s1 next_map next_seq).

(** [Mutate]: the mutator runs once; [X] is what it leaves in the variables
    it captures by reference. *)
Definition Mutate {X} (s : HashSlot) (key : string)
    (mutator : option RedisObject → MutationResult * X)
    (record : BinlogRecord) (now_us : Z) : WriteResult * X * HashSlot :=
  let packed_key := pack key in
  let current_map := redis_obj_map_ s in
  let existing :=
    match map_Find (redis_obj_map_ s) packed_key with
    | Some found => if negb (IsExpired found now_us) then Some found else None
    | None => None
    end in
  let had_existing := has_value existing in
  let '(mutation, captured) := mutator existing in
  let unchanged := (mkWriteResult kOk false false (slot_seq_ s), captured, s) in
  if negb (mr_changed mutation) then unchanged
  else
    let next_seq := slot_seq_ s +u 1 in
    let deadline_us :=
      match mr_object mutation with Some o => deadline_us_ o | None => 0 end in
    let record1 := default record (mr_record mutation) in
    let commit (next_map : ObjectMap) :=
      let s1 := AppendLog s (with_seq record1 next_seq) now_us deadline_us in
      (mkWriteResult kOk true
         (negb had_existing && has_value (mr_object mutation))
         next_seq, captured, Publish s1 next_map next_seq) in
    match mr_object mutation with
    | Some object => commit (map_Set current_map packed_key object)
    | None =>
        if negb had_existing then unchanged
        else match map_Erase current_map packed_key with
             | None => unchanged
             | Some erased => commit erased
             end
    end.

Definition Update {X} (s : HashSlot) (key : string)
    (updater : option RedisObject → option RedisObject * X)
    (record : BinlogRecord) (now_us : Z) : WriteResult * X * HashSlot :=
  Mutate s key
    (λ existing,
       let '(next, captured) := updater existing in
       (mkMutationResult (has_value next) next None,
        captured))
    record now_us.

(** The erasing write shared by [Del] and the loop of [DeleteExpired]. *)
Definition erase_write (s : HashSlot) (key : string) (now_us : Z)
    (next_map : ObjectMap) : HashSlot :=
  let next_seq := slot_seq_ s +u 1 in
  let record := with_seq (record_of_args ["DEL"; key]) next_seq in
  Publish (AppendLog s record now_us 0) next_map next_seq.

Definition Del (s : HashSlot) (key : string) (now_us : Z) : WriteResult * HashSlot :=
  let packed_key := pack key in
  let next_seq := slot_seq_ s +u 1 in
  let unchanged := (mkWriteResult kOk false false (slot_seq_ s), s) in
  match map_Find (redis_obj_map_ s) packed_key with
  | None => unchanged
  | Some found =>
      if IsExpired found now_us then unchanged
      else match map_Erase (redis_obj_map_ s) packed_key with
           | None => unchanged
           | Some next_map =>
               (mkWriteResult kOk true false next_seq, erase_write s key now_us next_map)
           end
  end.

(** The first [max_keys] expired keys of the snapshot, in visiting order. *)
Definition expired_keys (m : ObjectMap) (max_keys : nat) (now_us : Z) : list string :=
  take max_keys
    (omap (λ '(key, object),
             if IsExpired object now_us then Some (ToString key) else None)
       (map_ForEach m)).

Definition DeleteExpired_step (now_us : Z) (acc : nat * HashSlot) (key : string)
    : nat * HashSlot :=
  let '(deleted, s) := acc in
  match map_Find (redis_obj_map_ s) (pack key) with
  | None => acc
  | Some found =>
      if negb (IsExpired found now_us) then acc
      else match map_Erase (redis_obj_map_ s) (pack key) with
           | None => acc
           | Some next_map => (S deleted, erase_write s key now_us next_map)
           end
  end.

Definition DeleteExpired (s : HashSlot) (max_keys : nat) (now_us : Z) : nat * HashSlot :=
  if (max_keys =? 0)%nat then (0%nat, s)
  else foldl (DeleteExpired_step now_us) (0%nat, s)
         (expired_keys (redis_obj_map_ s) max_keys now_us).

Definition Expire (s : HashSlot) (key : string) (seconds now_us : Z) : bool * HashSlot :=
  if seconds <=? 0 then
    let '(w, s') := Del s key now_us in (wr_changed w, s')
  else
    let packed_key := pack key in
    let ttl_us := SaturatingTtlUs seconds in
    let deadline_us := SaturatingDeadlineUs now_us ttl_us in
    let next_seq := slot_seq_ s +u 1 in
    match map_Find (redis_obj_map_ s) packed_key with
    | None => (false, s)
    | Some found =>
        if IsExpired found now_us then (false, s)
        else
          let next_map :=
            map_Set (redis_obj_map_ s) packed_key (WithDeadline found deadline_us) in
          let record :=
            with_seq (record_of_args ["EXPIRE"; key; to_string seconds]) next_seq in
          (true, Publish (AppendLog s record now_us deadline_us) next_map next_seq)
    end.

(** ** Replication hooks *)

Definition InstallReplicaSnapshot (s : HashSlot) (map : ObjectMap) (seq : Z) : HashSlot :=
  mkHashSlot map (BinlogBuffer.Clear (binlog_buffer_ s)) seq seq (log_writes_ s).

Definition MarkReplicaAppliedSeq (s : HashSlot) (seq : Z) : HashSlot :=
  if seq <=? slot_seq_ s then s
  else
    mkHashSlot (redis_obj_map_ s) (binlog_buffer_ s) seq
      (if seq >? published_seq_ s then seq else published_seq_ s) (log_writes_ s).

Definition SetLogWrites (s : HashSlot) (enabled : bool) : HashSlot :=
  mkHashSlot (redis_obj_map_ s)
    (if negb enabled then BinlogBuffer.Clear (binlog_buffer_ s) else binlog_buffer_ s)
    (slot_seq_ s) (published_seq_ s) enabled.

Definition SetReplicaDeadline (s : HashSlot) (key : string) (deadline_us : Z) : HashSlot :=
  let packed := pack key in
  match map_Find (redis_obj_map_ s) packed with
  | Some object =>
      mkHashSlot (map_Set (redis_obj_map_ s) packed (WithDeadline object deadline_us))
        (binlog_buffer_ s) (slot_seq_ s) (published_seq_ s) (log_writes_ s)
  | None => s
  end.

Definition CopyLogsAfter (s : HashSlot) (seq : Z) (limit : nat) (max_bytes : Z)
    : list BinlogRecord := BinlogBuffer.CopyAfter (binlog_buffer_ s) seq limit max_bytes.
Definition MinRetainedLogSeq (s : HashSlot) : Z := BinlogBuffer.MinSeq (binlog_buffer_ s).
Definition MaxRetainedLogSeq (s : HashSlot) : Z := BinlogBuffer.MaxSeq (binlog_buffer_ s).
Definition RetainedLogBytes (s : HashSlot) : Z :=
  BinlogBuffer.RetainedBytes (binlog_buffer_ s).

Definition with_binlog (s : HashSlot) (b : BinlogBuffer.t) : HashSlot :=
  mkHashSlot (redis_obj_map_ s) b (slot_seq_ s) (published_seq_ s) (log_writes_ s).

Definition AckLogsThroughAndCountBytes (s : HashSlot) (seq : Z) : Z * HashSlot :=
  let '(removed, b) := BinlogBuffer.AckThroughAndCountBytes (binlog_buffer_ s) seq in
  (removed, with_binlog s b).
Definition AckLogsThrough (s : HashSlot) (seq : Z) : HashSlot :=
  with_binlog s (BinlogBuffer.AckThrough (binlog_buffer_ s) seq).

(** ** The abstract slot *)

Definition slot_map (s : HashSlot) : gmap string aobj :=
  abs_object <$> to_gmap (redis_obj_map_ s).

(** What a reader at time [now_us] sees of a map. *)
Definition live (m : gmap string aobj) (now_us : Z) (key : string) : option aobj :=
  match m !! key with
  | Some a => if a_expired a now_us then None else Some a
  | None => None
  end.

(** A committed write: the entry is replaced or removed, the sequence moves
    on, and, when logging is on, one record goes to the end of the log. *)
Record committed (s s' : HashSlot) (key : string) (entry : option RedisObject)
    (args : list string) (now_us : Z) : Prop := {
  co_objects :
    to_gmap (redis_obj_map_ s') =
    partial_alter (λ _, entry) key (to_gmap (redis_obj_map_ s));
  co_seq : slot_seq_ s' = slot_seq_ s +u 1;
  co_published : published_seq_ s' = slot_seq_ s';
  co_log_writes : log_writes_ s' = log_writes_ s;
  co_log : binlog_buffer_ s' =
    if log_writes_ s then
      BinlogBuffer.Append (binlog_buffer_ s)
        (mkBinlogRecord (slot_seq_ s') args now_us
           (match entry with Some o => deadline_us_ o | None => 0 end))
    else binlog_buffer_ s;
}.

(** A run of committed writes. *)
Record write_event := mkWrite {
  we_key : string;
  we_entry : option RedisObject;
  we_args : list string;
  we_now : Z;
}.

Definition commits_event (s : HashSlot) (e : write_event) (s' : HashSlot) : Prop :=
  committed s s' (we_key e) (we_entry e) (we_args e) (we_now e).

Inductive commits : HashSlot → list write_event → HashSlot → Prop :=
  | commits_nil s : commits s [] s
  | commits_cons s e s1 es s2 :
      commits_event s e s1 → commits s1 es s2 → commits s (e :: es) s2.

(** A log record of slot [id]: a command, then a key of the slot. *)
Definition record_ok (id : nat) (r : BinlogRecord) : Prop :=
  ∃ key, rec_args r !! 1%nat = Some key ∧ SlotForKey key = id.

(** The invariant of slot number [id] between operations. *)
Record slot_ok (id : nat) (s : HashSlot) : Prop := {
  so_objects : map_Forall (λ key o, object_ok o ∧ SlotForKey key = id)
                 (to_gmap (redis_obj_map_ s));
  so_seq : is_u64 (slot_seq_ s);
  so_published : published_seq_ s = slot_seq_ s;
  so_bytes : BinlogBuffer.bytes_ok (binlog_buffer_ s);
  so_consecutive :
    BinlogBuffer.consecutive (BinlogBuffer.records_ (binlog_buffer_ s)) (slot_seq_ s);
  so_log_length : Z.of_nat (length (BinlogBuffer.records_ (binlog_buffer_ s))) <= slot_seq_ s;
  so_records : Forall (record_ok id) (BinlogBuffer.records_ (binlog_buffer_ s));
  so_no_log : log_writes_ s = false → BinlogBuffer.records_ (binlog_buffer_ s) = [];
}.

(** ** Theorems *)

Context {CL : ContainerLaws IC}.

Lemma slot_map_lookup s k :
  slot_map s !! k = abs_object <$> map_Find (redis_obj_map_ s) (pack k).
Proof. unfold slot_map. by rewrite lookup_fmap, to_gmap_lookup. Qed.

Lemma committed_map s s' key entry args now_us :
  committed s s' key entry args now_us →
  slot_map s' = partial_alter (λ _, abs_object <$> entry) key (slot_map s).
Proof.
  intros []. unfold slot_map. rewrite co_objects0.
  apply map_eq. intros k. rewrite lookup_fmap, !lookup_partial_alter.
  case_decide; [done|]. by rewrite lookup_fmap.
Qed.

Lemma HashSlot_new_ok id : slot_ok id HashSlot_new.
Proof.
  constructor; cbn; try done.
  rewrite to_gmap_new. apply map_Forall_empty.
Qed.

(** Every committed write of a well-formed entry preserves the invariant,
    until the 64-bit sequence number runs out. *)
Lemma committed_ok id s s' key entry args now_us :
  slot_ok id s → slot_seq_ s < UINT64_MAX →
  committed s s' key entry args now_us →
  SlotForKey key = id → args !! 1%nat = Some key →
  (∀ o, entry = Some o → object_ok o) →
  slot_ok id s'.
Proof.
  intros [] Hroom [] Hid Hargs Hentry.
  assert (slot_seq_ s' = slot_seq_ s + 1) as Hseq.
  { rewrite co_seq0. u64_lia. }
  constructor.
  - rewrite co_objects0. intros k o. rewrite lookup_partial_alter. case_decide; [|apply so_objects0].
    subst k. intros ->. auto.
  - rewrite Hseq. u64_lia.
  - done.
  - rewrite co_log0. destruct (log_writes_ s); [|done]. by apply BinlogBuffer.Append_ok.
  - rewrite co_log0. destruct (log_writes_ s).
    + rewrite Hseq. cbn. by apply BinlogBuffer.consecutive_snoc.
    + by rewrite so_no_log0.
  - rewrite co_log0, Hseq. destruct (log_writes_ s); cbn; rewrite ?length_app; cbn; lia.
  - rewrite co_log0. destruct (log_writes_ s); [|done]. cbn.
    apply Forall_app. split; [done|]. constructor; [|done]. by exists key.
  - rewrite co_log_writes0, co_log0. intros E. rewrite E. auto.
Qed.

(** *** Reads *)

Lemma Get_live s key now_us :
  abs_object <$> Get s key now_us = live (slot_map s) now_us key.
Proof.
  unfold Get, live. rewrite slot_map_lookup.
  destruct (map_Find _ _) as [o|]; [cbn|done].
  rewrite IsExpired_abs. by destruct (IsExpired o now_us).
Qed.

Lemma Get_Some s key now_us o :
  Get s key now_us = Some o ↔
  to_gmap (redis_obj_map_ s) !! key = Some o ∧ IsExpired o now_us = false.
Proof.
  unfold Get. rewrite to_gmap_lookup. destruct (map_Find _ _) as [o'|].
  - destruct (IsExpired o' now_us) eqn:E.
    + split; [done|]. intros [[= <-] ?]. congruence.
    + split; [by intros [= <-]|]. by intros [[= <-] _].
  - split; [done|]. by intros [? _].
Qed.

(** *** Writes *)

Lemma AppendLog_publish s record now_us deadline_us next_map seq :
  let s' := Publish (AppendLog s (with_seq record seq) now_us deadline_us) next_map seq in
  redis_obj_map_ s' = next_map ∧ slot_seq_ s' = seq ∧ published_seq_ s' = seq ∧
  log_writes_ s' = log_writes_ s ∧
  binlog_buffer_ s' =
    if log_writes_ s then
      BinlogBuffer.Append (binlog_buffer_ s)
        (mkBinlogRecord seq (rec_args record) now_us deadline_us)
    else binlog_buffer_ s.
Proof. cbn. unfold AppendLog. destruct (log_writes_ s) eqn:E; cbn; auto. Qed.

(** The block that ends every write is a committed write. *)
Lemma publish_committed s key entry record now_us next_map :
  to_gmap next_map = partial_alter (λ _, entry) key (to_gmap (redis_obj_map_ s)) →
  committed s
    (Publish (AppendLog s (with_seq record (slot_seq_ s +u 1)) now_us
                (match entry with Some o => deadline_us_ o | None => 0 end))
       next_map (slot_seq_ s +u 1))
    key entry (rec_args record) now_us.
Proof.
  intros Hmap. edestruct (AppendLog_publish s record now_us) as (E1 & E2 & E3 & E4 & E5).
  by constructor; rewrite ?E1, ?E2, ?E3, ?E4, ?E5.
Qed.

Lemma to_gmap_Set_alter (m : ObjectMap) key o :
  to_gmap (map_Set m (pack key) o) = partial_alter (λ _, Some o) key (to_gmap m).
Proof. by rewrite to_gmap_Set, ToString_pack. Qed.

Lemma to_gmap_Erase_alter (m m' : ObjectMap) key :
  map_Erase m (pack key) = Some m' →
  to_gmap m' = partial_alter (λ _, None) key (to_gmap m).
Proof.
  intros E. pose proof (to_gmap_Erase m (pack key)) as H. rewrite E, ToString_pack in H.
  by destruct H.
Qed.

Lemma map_Erase_found (m : ObjectMap) key o :
  map_Find m (pack key) = Some o → ∃ m', map_Erase m (pack key) = Some m'.
Proof.
  intros Hf. destruct (map_Erase m (pack key)) as [m'|] eqn:E; [by eexists|].
  apply Erase_None in E. congruence.
Qed.

Lemma Set_spec s key obj record now_us :
  let '(w, s') := Set' s key obj record now_us in
  committed s s' key (Some obj) (rec_args record) now_us ∧
  w = mkWriteResult kOk true
        (negb (has_value (slot_map s !! key))) (slot_seq_ s').
Proof.
  unfold Set'. split.
  - apply (publish_committed s key (Some obj)). apply to_gmap_Set_alter.
  - by rewrite slot_map_lookup, has_value_fmap.
Qed.

(** [Mutate]: the mutator sees the live object; when it asks for a change
    that makes sense the write is committed, otherwise nothing happens. *)
Lemma Mutate_spec {X} s key (mutator : option RedisObject → MutationResult * X)
    record now_us :
  let existing := Get s key now_us in
  let '(mutation, x) := mutator existing in
  let '(w, x', s') := Mutate s key mutator record now_us in
  x' = x ∧
  if mr_changed mutation && (has_value (mr_object mutation) || has_value existing)
  then
    committed s s' key (mr_object mutation)
      (rec_args (default record (mr_record mutation))) now_us ∧
    w = mkWriteResult kOk true
          (negb (has_value existing) && has_value (mr_object mutation))
          (slot_seq_ s')
  else s' = s ∧ w = mkWriteResult kOk false false (slot_seq_ s).
Proof.
  intros existing. unfold Mutate. fold (Get s key now_us).
  replace (match map_Find (redis_obj_map_ s) (pack key) with
           | Some found => if negb (IsExpired found now_us) then Some found else None
           | None => None
           end) with existing.
  2:{ subst existing. unfold Get. destruct (map_Find _ _) as [o|]; [|done].
      by destruct (IsExpired o now_us). }
  destruct (mutator existing) as [[changed object orec] x]. cbn.
  destruct changed; [|done]. cbn.
  destruct object as [o|].
  - split; [done|]. split; [|done].
    apply (publish_committed s key (Some o) (default record orec)). apply to_gmap_Set_alter.
  - destruct existing as [o|] eqn:Eex; cbn; [|done].
    subst existing. apply Get_Some in Eex as [Ef _]. rewrite to_gmap_lookup in Ef.
    destruct (map_Erase_found _ _ _ Ef) as [m' Em]. rewrite Em. split; [done|]. split; [|done].
    apply (publish_committed s key None (default record orec)). by apply to_gmap_Erase_alter.
Qed.

(** [Del]: a live key is erased and logged, nothing happens otherwise. *)
Lemma erase_write_committed s key now_us m' :
  map_Erase (redis_obj_map_ s) (pack key) = Some m' →
  committed s (erase_write s key now_us m') key None ["DEL"; key] now_us.
Proof.
  intros E. apply (publish_committed s key None (record_of_args ["DEL"; key])).
  by apply to_gmap_Erase_alter.
Qed.

Lemma Del_spec s key now_us :
  let '(w, s') := Del s key now_us in
  if has_value (Get s key now_us) then
    committed s s' key None ["DEL"; key] now_us ∧
    w = mkWriteResult kOk true false (slot_seq_ s')
  else s' = s ∧ w = mkWriteResult kOk false false (slot_seq_ s).
Proof.
  unfold Del, Get. destruct (map_Find (redis_obj_map_ s) (pack key)) as [o|] eqn:Ef; [|done].
  destruct (IsExpired o now_us); [done|]. cbn.
  destruct (map_Erase_found _ _ _ Ef) as [m' Em]. rewrite Em.
  split; [by apply erase_write_committed|done].
Qed.

(** *** Expiry *)

Lemma SaturatingTtlUs_spec seconds :
  0 <= seconds <= INT64_MAX →
  SaturatingTtlUs seconds = Z.min (seconds * kMicrosPerSecond) UINT64_MAX.
Proof.
  intros Hs. unfold SaturatingTtlUs. rewrite (u64_id seconds) by (u64_lia).
  unfold kMicrosPerSecond. destruct (_ >? _) eqn:E; bool_prop.
  - unfold UINT64_MAX in *. change (18446744073709551615 / 1000000) with 18446744073709 in E. lia.
  - unfold UINT64_MAX in *. change (18446744073709551615 / 1000000) with 18446744073709 in E.
    rewrite u64_id by lia. lia.
Qed.

Lemma SaturatingDeadlineUs_spec now_us ttl_us :
  is_u64 now_us → is_u64 ttl_us →
  SaturatingDeadlineUs now_us ttl_us = Z.min (now_us + ttl_us) UINT64_MAX.
Proof.
  intros Hn Ht. unfold SaturatingDeadlineUs.
  rewrite (u64_id (UINT64_MAX - now_us)) by (u64_lia).
  destruct (_ >? _) eqn:E; bool_prop; [u64_lia|]. rewrite u64_id by (u64_lia). u64_lia.
Qed.

(** The deadline [EXPIRE] sets: [seconds] from now, at most the largest
    64-bit time. *)
Definition deadline_after (now_us seconds : Z) : Z :=
  Z.min (now_us + seconds * kMicrosPerSecond) UINT64_MAX.

Lemma deadline_after_spec now_us seconds :
  is_u64 now_us → 0 <= seconds <= INT64_MAX →
  SaturatingDeadlineUs now_us (SaturatingTtlUs seconds) = deadline_after now_us seconds.
Proof.
  intros Hn Hs. rewrite SaturatingTtlUs_spec, SaturatingDeadlineUs_spec by
    (done || (rewrite ?SaturatingTtlUs_spec by done; unfold kMicrosPerSecond; u64_lia)).
  unfold deadline_after, kMicrosPerSecond. u64_lia.
Qed.

Lemma Expire_spec s key seconds now_us :
  is_u64 now_us → is_i64 seconds →
  let '(b, s') := Expire s key seconds now_us in
  match Get s key now_us with
  | None => b = false ∧ s' = s
  | Some o =>
      b = true ∧
      if seconds <=? 0 then committed s s' key None ["DEL"; key] now_us
      else committed s s' key (Some (WithDeadline o (deadline_after now_us seconds)))
             ["EXPIRE"; key; to_string seconds] now_us
  end.
Proof.
  intros Hn Hs. unfold Expire. destruct (seconds <=? 0) eqn:E; bool_prop.
  - pose proof (Del_spec s key now_us) as H. destruct (Del s key now_us) as [w s'].
    destruct (Get s key now_us) as [o|]; cbn in H; destruct H as [H ->]; done.
  - unfold Get. destruct (map_Find (redis_obj_map_ s) (pack key)) as [o|] eqn:Ef; [|done].
    destruct (IsExpired o now_us); [done|]. split; [done|].
    rewrite deadline_after_spec by (u64_lia).
    apply (publish_committed s key (Some (WithDeadline o (deadline_after now_us seconds)))
             (record_of_args ["EXPIRE"; key; to_string seconds])).
    apply to_gmap_Set_alter.
Qed.

Lemma Ttl_spec s key now_us :
  Ttl s key now_us =
  match live (slot_map s) now_us key with
  | None => -2
  | Some a => if a_deadline a =? 0 then -1
              else (a_deadline a -u now_us) / 1000000
  end.
Proof.
  unfold Ttl, live. rewrite slot_map_lookup.
  destruct (map_Find _ _) as [o|]; [cbn|done].
  rewrite IsExpired_abs. by destruct (IsExpired o now_us).
Qed.

(** *** Sweeping *)

Lemma expired_keys_spec (m : ObjectMap) max_keys now_us :
  NoDup (expired_keys m max_keys now_us) ∧
  (length (expired_keys m max_keys now_us) <= max_keys)%nat ∧
  (∀ k, k ∈ expired_keys m max_keys now_us →
     ∃ o, to_gmap m !! k = Some o ∧ IsExpired o now_us = true) ∧
  ((length (expired_keys m max_keys now_us) < max_keys)%nat →
   ∀ k o, to_gmap m !! k = Some o → IsExpired o now_us = true →
     k ∈ expired_keys m max_keys now_us).
Proof.
  unfold expired_keys.
  set (f := λ '(key, object), if IsExpired object now_us then Some (ToString key) else None).
  assert (∀ k, k ∈ omap f (map_ForEach m) ↔
            ∃ o, to_gmap m !! k = Some o ∧ IsExpired o now_us = true) as Hin.
  { intros k. rewrite list_elem_of_omap. split.
    - intros ([p o] & Hp & Hf). cbn in Hf. destruct (IsExpired o now_us) eqn:E; [|done].
      injection Hf as <-. exists o. split; [|done]. by apply to_gmap_elem.
    - intros (o & Hk & He). exists (pack k, o). rewrite to_gmap_elem, ToString_pack.
      split; [done|]. cbn. by rewrite He, ToString_pack. }
  assert (NoDup (omap f (map_ForEach m))) as Hnd.
  { clear Hin. pose proof (ForEach_NoDup m) as Hk. induction (map_ForEach m) as [|[p o] l IH]; cbn; [constructor|].
    cbn in Hk. apply NoDup_cons in Hk as [Hp Hk]. destruct (IsExpired o now_us); [|by apply IH].
    apply NoDup_cons. split; [|by apply IH]. intros Hx.
    apply list_elem_of_omap in Hx as ([q o'] & Hq & Hf). cbn in Hf.
    destruct (IsExpired o' now_us); [|done]. injection Hf as E. apply ToString_inj in E. subst.
    apply Hp, list_elem_of_fmap. by exists (p, o'). }
  repeat split.
  - eapply sublist_NoDup; [done|apply sublist_take].
  - rewrite length_take. lia.
  - intros k Hk. apply Hin. apply elem_of_take in Hk as (i & Hi & _). by eapply list_elem_of_lookup_2.
  - intros Hlen k o Hk He. rewrite length_take in Hlen.
    rewrite take_ge by lia. apply Hin. by eexists.
Qed.

Definition expiry_event (now_us : Z) (key : string) : write_event :=
  mkWrite key None ["DEL"; key] now_us.

Lemma sweep_foldl now_us keys n s :
  NoDup keys →
  (∀ k, k ∈ keys → ∃ o, to_gmap (redis_obj_map_ s) !! k = Some o ∧ IsExpired o now_us = true) →
  let '(n', s') := foldl (DeleteExpired_step now_us) (n, s) keys in
  n' = (n + length keys)%nat ∧ commits s (expiry_event now_us <$> keys) s'.
Proof.
  revert n s. induction keys as [|k keys IH]; intros n s Hnd Hex; cbn.
  - split; [lia|constructor].
  - apply NoDup_cons in Hnd as [Hk Hnd].
    destruct (Hex k) as (o & Hf & He); [set_solver|]. rewrite to_gmap_lookup in Hf.
    destruct (map_Erase_found _ _ _ Hf) as [m' Em]. rewrite Hf, He, Em. cbn.
    pose proof (erase_write_committed s k now_us m' Em) as Hc.
    specialize (IH (S n) (erase_write s k now_us m') Hnd).
    destruct (foldl _ _ keys) as [n' s']. destruct IH as [-> Hcs].
    + intros k' Hk'. destruct (Hex k') as (o' & Hf' & He'); [set_solver|].
      exists o'. split; [|done]. rewrite (co_objects _ _ _ _ _ _ Hc).
      rewrite lookup_partial_alter_ne; [done|]. intros ->. done.
    + split; [lia|]. by econstructor.
Qed.

Lemma commits_erase_lookup now_us keys s s' k :
  commits s (expiry_event now_us <$> keys) s' →
  to_gmap (redis_obj_map_ s') !! k =
  if decide (k ∈ keys) then None else to_gmap (redis_obj_map_ s) !! k.
Proof.
  revert s. induction keys as [|k' keys IH]; intros s H; inversion H as [|? ? s1 ? ? Hc Hcs]; subst.
  - by rewrite decide_False by set_solver.
  - rewrite (IH s1 Hcs). apply co_objects in Hc. cbn in Hc. rewrite Hc.
    rewrite lookup_partial_alter. repeat case_decide; set_solver.
Qed.

(** [DeleteExpired] removes expired entries only, at most [max_keys] of
    them, one logged deletion each; when it removes fewer, none is left. *)
Theorem DeleteExpired_spec s max_keys now_us :
  let '(deleted, s') := DeleteExpired s max_keys now_us in
  ∃ keys, deleted = length keys ∧ NoDup keys ∧ (deleted <= max_keys)%nat ∧
    commits s (expiry_event now_us <$> keys) s' ∧
    (∀ k, k ∈ keys → ∃ o, to_gmap (redis_obj_map_ s) !! k = Some o ∧ IsExpired o now_us = true) ∧
    (∀ k, live (slot_map s') now_us k = live (slot_map s) now_us k) ∧
    ((deleted < max_keys)%nat → map_Forall (λ _ a, a_expired a now_us = false) (slot_map s')).
Proof.
  unfold DeleteExpired. destruct (max_keys =? 0)%nat eqn:E0.
  { apply Nat.eqb_eq in E0. subst. exists []. cbn.
    repeat split; try done; [constructor|constructor|set_solver|lia]. }
  destruct (expired_keys_spec (redis_obj_map_ s) max_keys now_us) as (Hnd & Hlen & Hex & Hall).
  set (keys := expired_keys (redis_obj_map_ s) max_keys now_us) in *.
  pose proof (sweep_foldl now_us keys 0 s Hnd Hex) as H.
  destruct (foldl _ _ keys) as [n s']. destruct H as [-> Hc].
  pose proof (λ k, commits_erase_lookup now_us keys s s' k Hc) as Hl.
  exists keys. cbn. repeat split; try done.
  - intros k. unfold live, slot_map. rewrite !lookup_fmap, Hl.
    case_decide as Hk; [|done]. destruct (Hex k Hk) as (o & -> & He). cbn.
    by rewrite IsExpired_abs, He.
  - intros Hlt k a. unfold slot_map. rewrite lookup_fmap, Hl. case_decide as Hk; [done|].
    intros (o & Ho & ->)%fmap_Some. rewrite IsExpired_abs.
    apply not_true_iff_false. intros He. apply Hk. by eapply Hall.
Qed.

(** *** The invariant, operation by operation *)

Lemma commits_ok id s es s' :
  slot_ok id s → slot_seq_ s + Z.of_nat (length es) <= UINT64_MAX →
  commits s es s' →
  Forall (λ e, SlotForKey (we_key e) = id ∧ we_args e !! 1%nat = Some (we_key e) ∧
               ∀ o, we_entry e = Some o → object_ok o) es →
  slot_ok id s'.
Proof.
  intros Hok Hroom Hc. induction Hc as [|s e s1 es s2 He Hes IH]; [done|].
  intros [(Hk & Ha & Ho) Hf]%Forall_cons. cbn in Hroom.
  apply IH; [| |done].
  - eapply committed_ok; try done. lia.
  - rewrite (co_seq _ _ _ _ _ _ He). pose proof (so_seq _ _ Hok). u64_lia.
Qed.

Lemma keys_in_slot id s k o :
  slot_ok id s → to_gmap (redis_obj_map_ s) !! k = Some o →
  SlotForKey k = id ∧ object_ok o.
Proof. intros Hok Hk. apply (so_objects _ _ Hok) in Hk as [? ?]. done. Qed.

Lemma Get_ok id s key now_us o :
  slot_ok id s → Get s key now_us = Some o → object_ok o ∧ SlotForKey key = id.
Proof. intros Hok [Hk _]%Get_Some. by destruct (keys_in_slot _ _ _ _ Hok Hk). Qed.

Lemma DeleteExpired_ok id s max_keys now_us :
  slot_ok id s → slot_seq_ s + Z.of_nat max_keys <= UINT64_MAX →
  slot_ok id (DeleteExpired s max_keys now_us).2.
Proof.
  intros Hok Hroom. pose proof (DeleteExpired_spec s max_keys now_us) as H.
  destruct (DeleteExpired s max_keys now_us) as [n s'].
  destruct H as (keys & -> & _ & Hle & Hc & Hex & _).
  eapply commits_ok; [done| |exact Hc|]; [rewrite length_fmap; lia|].
  apply Forall_fmap, Forall_forall. intros k Hk. cbn.
  destruct (Hex k Hk) as (o & Ho & _). destruct (keys_in_slot _ _ _ _ Hok Ho). done.
Qed.

Lemma Del_ok id s key now_us :
  slot_ok id s → slot_seq_ s < UINT64_MAX → slot_ok id (Del s key now_us).2.
Proof.
  intros Hok Hroom. pose proof (Del_spec s key now_us) as H.
  destruct (Del s key now_us) as [w s']. cbn.
  destruct (Get s key now_us) as [o|] eqn:Eg; cbn in H; [|by destruct H as [-> _]].
  destruct H as [Hc _]. eapply Get_ok in Eg as [_ Hk]; [|done].
  by eapply committed_ok.
Qed.

Lemma deadline_after_u64 now_us seconds :
  is_u64 now_us → 0 <= seconds → is_u64 (deadline_after now_us seconds).
Proof. unfold deadline_after, kMicrosPerSecond. intros ? ?. u64_lia. Qed.

Lemma Expire_ok id s key seconds now_us :
  slot_ok id s → slot_seq_ s < UINT64_MAX → is_u64 now_us → is_i64 seconds →
  slot_ok id (Expire s key seconds now_us).2.
Proof.
  intros Hok Hroom Hn Hs. pose proof (Expire_spec s key seconds now_us Hn Hs) as H.
  destruct (Expire s key seconds now_us) as [b s']. cbn.
  destruct (Get s key now_us) as [o|] eqn:Eg; [|by destruct H as [_ ->]].
  destruct (Get_ok _ _ _ _ _ Hok Eg) as [Ho Hk]. destruct H as [_ H].
  destruct (seconds <=? 0) eqn:E; [by eapply committed_ok|]. bool_prop.
  eapply committed_ok; try done. intros o' [= <-].
  apply WithDeadline_ok, deadline_after_u64; try done; lia.
Qed.

Lemma Mutate_ok {X} id s key (mutator : option RedisObject → MutationResult * X)
    record now_us :
  slot_ok id s → slot_seq_ s < UINT64_MAX → SlotForKey key = id →
  (let '(mutation, _) := mutator (Get s key now_us) in
   (∀ o, mr_object mutation = Some o → object_ok o) ∧
   rec_args (default record (mr_record mutation)) !! 1%nat = Some key) →
  slot_ok id (Mutate s key mutator record now_us).2.
Proof.
  intros Hok Hroom Hk Hm. pose proof (Mutate_spec s key mutator record now_us) as H. cbn in H.
  destruct (mutator (Get s key now_us)) as [mutation x]. destruct Hm as [Ho Ha].
  destruct (Mutate s key mutator record now_us) as [[w x'] s']. cbn. destruct H as [_ H].
  destruct (_ && _); [|by destruct H as [-> _]]. destruct H as [Hc _].
  by eapply committed_ok.
Qed.

Lemma AckLogsThrough_ok id s seq : slot_ok id s → slot_ok id (AckLogsThrough s seq).
Proof.
  intros []. destruct (BinlogBuffer.AckThrough_spec _ seq so_bytes0)
    as (d & Hd & _ & _ & _ & Hb).
  constructor; cbn; try done.
  - rewrite Hd in so_consecutive0. by eapply BinlogBuffer.consecutive_suffix.
  - rewrite Hd, length_app in so_log_length0. lia.
  - rewrite Hd in so_records0. by apply Forall_app in so_records0 as [_ ?].
  - intros E. specialize (so_no_log0 E). rewrite Hd in so_no_log0.
    by apply app_eq_nil in so_no_log0 as [_ ?].
Qed.

Lemma InstallReplicaSnapshot_ok id s m seq :
  map_Forall (λ key o, object_ok o ∧ SlotForKey key = id) (to_gmap m) → is_u64 seq →
  slot_ok id (InstallReplicaSnapshot s m seq).
Proof. intros Hm Hs. constructor; try done. apply Hs. Qed.

Lemma SetLogWrites_ok id s : slot_ok id s → slot_ok id (SetLogWrites s false).
Proof. intros []. constructor; try done. apply so_seq0. Qed.

Lemma SetReplicaDeadline_ok id s key deadline_us :
  slot_ok id s → is_u64 deadline_us → slot_ok id (SetReplicaDeadline s key deadline_us).
Proof.
  intros Hok Hd. unfold SetReplicaDeadline.
  destruct (map_Find _ _) as [o|] eqn:Ef; [|done]. rewrite <-to_gmap_lookup in Ef.
  destruct (keys_in_slot _ _ _ _ Hok Ef) as [Hk Ho]. destruct Hok. constructor; try done.
  cbn. rewrite to_gmap_Set, ToString_pack.
  apply map_Forall_insert_2; [|done]. split; [by apply WithDeadline_ok|done].
Qed.
End slot.
