(* ===== verification/Engine.v ===== *)
(** * CacheEngine and the expiry sweeper: src/cache/cache_engine, src/expire

    The engine is the vector of 100003 slots; every operation picks the slot
    of its key by hash and runs the slot's operation. The operations live in
    the state monad of the engine, where [None] is the [std::out_of_range]
    of [slots_.at]. [engine_wf] is the invariant that rules it out. *)

From S2P Require Import Prelude Text Containers Double RedisObject Binlog HashSlot.

Section engine.
Context {IC : ImmutableContainer}.

Record CacheEngine := mkEngine { slots_ : list HashSlot }.

Definition CacheEngine_new : CacheEngine :=
  mkEngine (replicate (Z.to_nat kSlotCount) HashSlot_new).

Definition SlotCount (e : CacheEngine) : nat := length (slots_ e).

(** Programs that use the engine. *)
Definition engineM : Type → Type := stM CacheEngine.

(** [*slots_.at(slot_id)], read and written back. *)
Definition SlotById {A} (slot_id : nat) (f : HashSlot → A * HashSlot) : engineM A :=
  λ e, match slots_ e !! slot_id with
       | None => None
       | Some s => let '(a, s') := f s in Some (a, mkEngine (<[slot_id := s']> (slots_ e)))
       end.

Definition read_slot {A} (f : HashSlot → A) (s : HashSlot) : A * HashSlot := (f s, s).
Definition write_slot (f : HashSlot → HashSlot) (s : HashSlot) : unit * HashSlot := (tt, f s).

Definition engine_Get (key : string) (now_us : Z) : engineM (option RedisObject) :=
  SlotById (SlotForKey key) (read_slot (λ s, Get s key now_us)).

Definition ForEachLiveObjectInSlot (slot_id : nat) (now_us : Z)
    : engineM (list (PackedString * RedisObject)) :=
  SlotById slot_id (read_slot (λ s, ForEachLiveObject s now_us)).

Definition engine_Set (key : string) (obj : RedisObject) (record : BinlogRecord)
    (now_us : Z) : engineM WriteResult :=
  SlotById (SlotForKey key) (λ s, Set' s key obj record now_us).

Definition engine_Update {X} (key : string)
    (updater : option RedisObject → option RedisObject * X)
    (record : BinlogRecord) (now_us : Z) : engineM (WriteResult * X) :=
  SlotById (SlotForKey key) (λ s, Update s key updater record now_us).

Definition engine_Mutate {X} (key : string)
    (mutator : option RedisObject → MutationResult * X)
    (record : BinlogRecord) (now_us : Z) : engineM (WriteResult * X) :=
  SlotById (SlotForKey key) (λ s, Mutate s key mutator record now_us).

Definition engine_Del (key : string) (now_us : Z) : engineM WriteResult :=
  SlotById (SlotForKey key) (λ s, Del s key now_us).

Definition DeleteExpiredInSlot (slot_id max_keys : nat) (now_us : Z) : engineM nat :=
  SlotById slot_id (λ s, DeleteExpired s max_keys now_us).

Definition engine_Expire (key : string) (seconds now_us : Z) : engineM bool :=
  SlotById (SlotForKey key) (λ s, Expire s key seconds now_us).

Definition engine_Ttl (key : string) (now_us : Z) : engineM Z :=
  SlotById (SlotForKey key) (read_slot (λ s, Ttl s key now_us)).

Definition InstallSlotReplicaSnapshot (slot_id : nat) (map : ObjectMap) (seq : Z)
    : engineM unit :=
  SlotById slot_id (write_slot (λ s, InstallReplicaSnapshot s map seq)).

Definition MarkSlotReplicaAppliedSeq (slot_id : nat) (seq : Z) : engineM unit :=
  SlotById slot_id (write_slot (λ s, MarkReplicaAppliedSeq s seq)).

Definition DisableBinlog (e : CacheEngine) : CacheEngine :=
  mkEngine ((λ s, SetLogWrites s false) <$> slots_ e).

(** ** The invariant *)

Record engine_wf (e : CacheEngine) : Prop := {
  ew_count : length (slots_ e) = Z.to_nat kSlotCount;
}.

Record engine_ok (e : CacheEngine) : Prop := {
  eo_wf : engine_wf e;
  eo_slots : ∀ i s, slots_ e !! i = Some s → slot_ok i s;
}.

(** [n] more writes fit in every slot's sequence number. *)
Definition engine_room (e : CacheEngine) (n : Z) : Prop :=
  ∀ i s, slots_ e !! i = Some s → slot_seq_ s + n <= UINT64_MAX.

Lemma engine_room_le e n m : m <= n → engine_room e n → engine_room e m.
Proof. intros Hle Hr i s Hs. specialize (Hr i s Hs). lia. Qed.

(** ** The slot of a key *)

Definition slot_of (e : CacheEngine) (key : string) : HashSlot :=
  default HashSlot_new (slots_ e !! SlotForKey key).

Definition set_slot (e : CacheEngine) (id : nat) (s : HashSlot) : CacheEngine :=
  mkEngine (<[id := s]> (slots_ e)).

(** The cache as one map: what a key holds, and what a reader sees. *)
Definition engine_lookup (e : CacheEngine) (key : string) : option aobj :=
  slot_map (slot_of e key) !! key.
Definition engine_live (e : CacheEngine) (now_us : Z) (key : string) : option aobj :=
  live (slot_map (slot_of e key)) now_us key.

Lemma slot_of_lookup e key :
  engine_wf e → slots_ e !! SlotForKey key = Some (slot_of e key).
Proof.
  intros [Hc]. unfold slot_of.
  destruct (lookup_lt_is_Some_2 (slots_ e) (SlotForKey key)) as [s Hs].
  { rewrite Hc. apply SlotForKey_lt. }
  by rewrite Hs.
Qed.

Lemma set_slot_wf e id s : engine_wf e → engine_wf (set_slot e id s).
Proof. intros [Hc]. constructor. cbn. by rewrite length_insert. Qed.

Lemma CacheEngine_new_wf : engine_wf CacheEngine_new.
Proof. constructor. unfold CacheEngine_new. cbn [slots_]. apply length_replicate. Qed.

(** Running a slot operation through the engine. *)
Lemma SlotById_key {A} e key (f : HashSlot → A * HashSlot) :
  engine_wf e →
  SlotById (SlotForKey key) f e =
  Some ((f (slot_of e key)).1, set_slot e (SlotForKey key) (f (slot_of e key)).2).
Proof.
  intros Hw. unfold SlotById. rewrite slot_of_lookup by done.
  by destruct (f (slot_of e key)) as [a s'].
Qed.

Lemma set_slot_same e key : engine_wf e → set_slot e (SlotForKey key) (slot_of e key) = e.
Proof.
  intros Hw. unfold set_slot. rewrite list_insert_id by (by apply slot_of_lookup).
  by destruct e.
Qed.

Lemma SlotById_read {A} e key (f : HashSlot → A) :
  engine_wf e →
  SlotById (SlotForKey key) (read_slot f) e = Some (f (slot_of e key), e).
Proof. intros Hw. rewrite SlotById_key by done. cbn. by rewrite set_slot_same. Qed.

Lemma engine_Get_run e key now_us :
  engine_wf e → engine_Get key now_us e = Some (Get (slot_of e key) key now_us, e).
Proof. intros Hw. by apply SlotById_read. Qed.

Lemma slot_of_set_slot_eq e key s :
  engine_wf e → slot_of (set_slot e (SlotForKey key) s) key = s.
Proof.
  intros Hw. unfold slot_of, set_slot. cbn. rewrite list_lookup_insert_eq; [done|].
  destruct Hw as [->]. apply SlotForKey_lt.
Qed.

Lemma slot_of_set_slot_ne e id key s :
  SlotForKey key ≠ id → slot_of (set_slot e id s) key = slot_of e key.
Proof.
  intros Hne. unfold slot_of, set_slot. cbn. by rewrite list_lookup_insert_ne.
Qed.

Context {CL : ContainerLaws IC}.

Lemma CacheEngine_new_ok : engine_ok CacheEngine_new.
Proof.
  constructor; [apply CacheEngine_new_wf|]. intros i s. unfold CacheEngine_new. cbn [slots_].
  intros [-> _]%lookup_replicate_Some. apply HashSlot_new_ok.
Qed.

Lemma new_room n : n <= UINT64_MAX → engine_room CacheEngine_new n.
Proof.
  intros Hn i s. unfold CacheEngine_new. cbn [slots_].
  intros [-> _]%lookup_replicate_Some. cbn. lia.
Qed.

Lemma new_engine_slot i s : slots_ CacheEngine_new !! i = Some s → s = HashSlot_new.
Proof. unfold CacheEngine_new. cbn [slots_]. by intros [-> _]%lookup_replicate_Some. Qed.

Lemma new_engine_lookup i :
  (i < SlotCount CacheEngine_new)%nat → slots_ CacheEngine_new !! i = Some HashSlot_new.
Proof.
  intros Hi. destruct (slots_ CacheEngine_new !! i) as [t|] eqn:Ht.
  - by rewrite (new_engine_slot i t Ht).
  - apply lookup_ge_None in Ht. unfold SlotCount in Hi. lia.
Qed.

Lemma engine_ok_slot e key : engine_ok e → slot_ok (SlotForKey key) (slot_of e key).
Proof. intros [Hw Hs]. eapply Hs. by apply slot_of_lookup. Qed.

Lemma set_slot_ok e id s :
  engine_ok e → slot_ok id s → engine_ok (set_slot e id s).
Proof.
  intros [Hw Hs] Ho. constructor; [by apply set_slot_wf|]. intros i s'. cbn.
  rewrite list_lookup_insert. case_decide as Hd; [|apply Hs].
  destruct Hd as [-> _]. by intros [= <-].
Qed.

Lemma engine_room_slot e n key :
  engine_wf e → engine_room e n → slot_seq_ (slot_of e key) + n <= UINT64_MAX.
Proof. intros Hw Hr. eapply Hr. by apply slot_of_lookup. Qed.

(** [Get] through the engine reads the abstract cache. *)
Lemma engine_Get_live e key now_us :
  engine_wf e →
  ∃ o, engine_Get key now_us e = Some (o, e) ∧ abs_object <$> o = engine_live e now_us key.
Proof.
  intros Hw. eexists. rewrite engine_Get_run by done. split; [done|]. apply Get_live.
Qed.

(** A committed write through the engine changes one entry of the cache. *)
Lemma engine_committed e key k entry args now_us s' :
  engine_wf e → committed (slot_of e key) s' key entry args now_us →
  engine_lookup (set_slot e (SlotForKey key) s') k =
  if decide (k = key) then abs_object <$> entry else engine_lookup e k.
Proof.
  intros Hw Hc%committed_map. unfold engine_lookup.
  case_decide as Hk; [subst k|].
  - rewrite slot_of_set_slot_eq by done. rewrite Hc. by rewrite lookup_partial_alter_eq.
  - destruct (decide (SlotForKey k = SlotForKey key)) as [E|E].
    + assert (slot_of (set_slot e (SlotForKey key) s') k = s') as ->.
      { rewrite <-E. by apply slot_of_set_slot_eq. }
      assert (slot_of e k = slot_of e key) as -> by (unfold slot_of; by rewrite E).
      rewrite Hc. by rewrite lookup_partial_alter_ne.
    + by rewrite slot_of_set_slot_ne.
Qed.
End engine.

(** ** The expiry sweeper *)

Module ExpireSweeper.
Section sweeper.
Context {IC : ImmutableContainer}.

Definition kMaxExpiredKeysPerSlot : nat := 64.

Record t := mk { slots_per_tick_ : nat; next_slot_ : nat }.

Definition new (slots_per_tick : nat) : t := mk slots_per_tick 0.

(** The loop of [SweepOnce]: [n] slots from [next_slot]. *)
Fixpoint sweep_loop (n slot_count : nat) (now_us : Z) (next_slot deleted : nat)
    : engineM (nat * nat) :=
  match n with
  | O => mret (deleted, next_slot)
  | S n' =>
      d ← DeleteExpiredInSlot next_slot kMaxExpiredKeysPerSlot now_us;
      sweep_loop n' slot_count now_us ((next_slot + 1) mod slot_count)%nat (deleted + d)%nat
  end.

Definition SweepOnce (sw : t) (now_us : Z) : engineM (nat * t) := λ e,
  if (slots_per_tick_ sw =? 0)%nat || (SlotCount e =? 0)%nat then Some ((0%nat, sw), e)
  else
    match sweep_loop (slots_per_tick_ sw) (SlotCount e) now_us (next_slot_ sw) 0 e with
    | Some ((deleted, next_slot), e') =>
        Some ((deleted, mk (slots_per_tick_ sw) next_slot), e')
    | None => None
    end.
End sweeper.
End ExpireSweeper.
