(* ===== verification/Sweeper.v ===== *)
(** * What the expiry sweeper does: src/expire/expire_sweeper

    Theorems about [ExpireSweeper.SweepOnce]: a sweep removes expired entries
    only, so no reader notices it; it visits the next slots in order, around and
    around; and every visit removes as many expired entries as its limit
    allows, so that enough visits leave none ([cleaned]). *)

From S2P Require Import Prelude Text Containers Double RedisObject Binlog HashSlot Engine.

Section sweeper.
Context {IC : ImmutableContainer} {CL : ContainerLaws IC}.

Definition no_expired (s : HashSlot) (now_us : Z) : Prop :=
  map_Forall (λ _ a, a_expired a now_us = false) (slot_map s).

(** The expired entries of a slot. *)
Definition expired_entries (s : HashSlot) (now_us : Z) : gmap string aobj :=
  filter (λ '(_, a), a_expired a now_us = true) (slot_map s).

Lemma a_expired_later a t t' : t <= t' → a_expired a t = true → a_expired a t' = true.
Proof.
  unfold a_expired. rewrite !andb_true_iff, !Z.geb_le. intros Ht [H1 H2]. split; [done|lia].
Qed.

Lemma no_expired_earlier s t t' : t <= t' → no_expired s t' → no_expired s t.
Proof.
  intros Ht Hn k a Ha. specialize (Hn k a Ha). cbn in *.
  destruct (a_expired a t) eqn:E; [|done]. by rewrite (a_expired_later a t t' Ht E) in Hn.
Qed.

Lemma expired_entries_sub s s' t :
  slot_map s' ⊆ slot_map s → expired_entries s' t ⊆ expired_entries s t.
Proof.
  intros Hs. unfold expired_entries. apply map_subseteq_spec. intros k a.
  rewrite !map_lookup_filter_Some. intros [Ha He]. split; [by eapply lookup_weaken|done].
Qed.

Lemma expired_entries_size s s' t :
  slot_map s' ⊆ slot_map s → (size (expired_entries s' t) <= size (expired_entries s t))%nat.
Proof. intros Hs. by apply map_subseteq_size, expired_entries_sub. Qed.

(** [s'] is [s] without some expired entries. *)
Record swept (now_us : Z) (s s' : HashSlot) : Prop := {
  sw_sub : slot_map s' ⊆ slot_map s;
  sw_live k : live (slot_map s') now_us k = live (slot_map s) now_us k;
}.

Lemma swept_refl now_us s : swept now_us s s.
Proof. by split. Qed.

Lemma swept_trans now_us s1 s2 s3 : swept now_us s1 s2 → swept now_us s2 s3 → swept now_us s1 s3.
Proof.
  intros [H1 H2] [H3 H4]. split; [by etrans|]. intros k. by rewrite H4, H2.
Qed.

Lemma swept_clean now_us s s' : swept now_us s s' → no_expired s now_us → no_expired s' now_us.
Proof. intros [H _] Hn. intros k a Ha. apply (Hn k). by eapply lookup_weaken. Qed.

(** What [n] removals among the entries that expire by [t] leave behind: no
    entry that had expired by [t0], unless they were not enough. *)
Definition cleaned (t0 t : Z) (n : nat) (s s' : HashSlot) : Prop :=
  no_expired s' t0 ∨ (size (expired_entries s' t) + n <= size (expired_entries s t))%nat.

Lemma cleaned_none t0 t s s' : slot_map s' ⊆ slot_map s → cleaned t0 t 0 s s'.
Proof. intros Hs. right. rewrite Nat.add_0_r. by apply expired_entries_size. Qed.

Lemma cleaned_trans t0 t n m s1 s2 s3 :
  slot_map s3 ⊆ slot_map s2 →
  cleaned t0 t n s1 s2 → cleaned t0 t m s2 s3 → cleaned t0 t (n + m) s1 s3.
Proof.
  intros Hs [H1|H1] [H2|H2]; [by left|left|by left|right; lia].
  intros k a Ha. apply (H1 k). by eapply lookup_weaken.
Qed.

Lemma cleaned_earlier t0 t0' t n s s' : t0 <= t0' → cleaned t0' t n s s' → cleaned t0 t n s s'.
Proof. intros Ht [H|H]; [left; by eapply no_expired_earlier|by right]. Qed.

Lemma cleaned_all t0 t n s s' :
  cleaned t0 t n s s' → (size (expired_entries s t) < n)%nat → no_expired s' t0.
Proof. intros [H|H] Hn; [done|lia]. Qed.

Lemma DeleteExpired_swept s max_keys now_us :
  let '(deleted, s') := DeleteExpired s max_keys now_us in
  swept now_us s s' ∧ (∀ t, now_us <= t → cleaned now_us t max_keys s s') ∧
  (∀ n, 0 <= n → slot_seq_ s + Z.of_nat max_keys + n <= UINT64_MAX → is_u64 (slot_seq_ s) → 
     slot_seq_ s' + n <= UINT64_MAX).
Proof.
  pose proof (DeleteExpired_spec s max_keys now_us) as H.
  destruct (DeleteExpired s max_keys now_us) as [deleted s'].
  destruct H as (keys & -> & Hnd & Hle & Hc & Hex & Hlive & Hclean).
  assert (∀ k, slot_map s' !! k = if decide (k ∈ keys) then None else slot_map s !! k) as Hl.
  { intros k. unfold slot_map. rewrite !lookup_fmap, (commits_erase_lookup now_us keys s s' k Hc).
    by case_decide. }
  assert (slot_map s' ⊆ slot_map s) as Hsub.
  { apply map_subseteq_spec. intros k a. rewrite Hl. by case_decide. }
  split; [by split|split].
  - intros t Ht. destruct (decide (length keys < max_keys)%nat) as [Hlt|Hge]; [by left; apply Hclean|].
    right. assert (max_keys = length keys) as -> by lia.
    rewrite <-(size_list_to_set (C := gset string) keys) by done.
    rewrite <-!(size_dom (D := gset string)), <-size_union.
    + apply subseteq_size, union_subseteq. split.
      { apply subseteq_dom, expired_entries_sub, Hsub. }
      intros k Hk. rewrite elem_of_list_to_set in Hk. destruct (Hex k Hk) as (o & Ho & He).
      apply elem_of_dom. exists (abs_object o). apply map_lookup_filter_Some.
      split; [|by eapply a_expired_later]. unfold slot_map. by rewrite lookup_fmap, Ho.
    + intros k [a [Ha _]%map_lookup_filter_Some]%elem_of_dom Hk%elem_of_list_to_set.
      rewrite Hl in Ha. by rewrite decide_True in Ha.
  - intros n Hn Hroom Hu. remember (expiry_event now_us <$> keys) as evs eqn:Eevs.
    assert (length evs <= max_keys)%nat as Hlen by (by rewrite Eevs, length_fmap).
    clear Eevs Hex Hlive Hclean Hle Hnd Hl Hsub. revert max_keys Hroom Hlen.
    induction Hc as [s|s ev s1 evs s2 He Hes IH]; intros m Hroom Hlen; [lia|].
    cbn in Hlen. pose proof (co_seq _ _ _ _ _ _ He) as Hseq.
    assert (slot_seq_ s1 = slot_seq_ s + 1) as E by (rewrite Hseq; destruct m; u64_lia).
    destruct m as [|m]; [lia|]. apply (IH ltac:(u64_lia) m); [lia|lia].
Qed.

Import ExpireSweeper.

(** The engine, slot by slot. *)
Definition engine_swept (now_us : Z) (e e' : CacheEngine) : Prop :=
  length (slots_ e') = length (slots_ e) ∧
  ∀ i s, slots_ e !! i = Some s → ∃ s', slots_ e' !! i = Some s' ∧ swept now_us s s'.

(** The [i]-th slot a sweep visits. *)
Definition visited (next_slot slot_count i : nat) : nat := ((next_slot + i) mod slot_count)%nat.

Lemma visited_succ next count i :
  count ≠ 0%nat → visited ((next + 1) mod count) count i = visited next count (S i).
Proof.
  intros Hc. unfold visited. rewrite Nat.Div0.add_mod_idemp_l.
  f_equal. lia.
Qed.

Lemma length_filter_fmap {A B} (P : B → Prop) (Q : A → Prop)
    `{!∀ x, Decision (P x), !∀ x, Decision (Q x)} (f : A → B) l :
  (∀ x, P (f x) ↔ Q x) → length (filter P (f <$> l)) = length (filter Q l).
Proof.
  intros HPQ. induction l as [|x l IH]; [done|]. rewrite fmap_cons, !filter_cons.
  specialize (HPQ x). repeat case_decide; cbn; try tauto; by rewrite IH.
Qed.

(** How often a sweep of [n] slots comes by slot [i]. *)
Definition visits (next_slot slot_count n i : nat) : nat :=
  length (filter (λ j, visited next_slot slot_count j = i) (seq 0 n)).

Lemma visits_succ next count n i :
  (next < count)%nat →
  visits next count (S n) i =
  ((if decide (next = i) then 1 else 0) + visits ((next + 1) mod count) count n i)%nat.
Proof.
  intros Hn. unfold visits. cbn [seq]. rewrite filter_cons, <-fmap_S_seq.
  assert (visited next count 0 = next) as -> by (unfold visited; rewrite Nat.add_0_r; by apply Nat.mod_small).
  assert (length (filter (λ j, visited next count j = i) (S <$> seq 0 n)) =
    length (filter (λ j, visited ((next + 1) mod count) count j = i) (seq 0 n))) as Hl.
  { apply length_filter_fmap. intros j. by rewrite <-visited_succ by lia. }
  case_decide; cbn; by rewrite Hl.
Qed.

Lemma visits_add next count n m i :
  visits next count (n + m) i = (visits next count n i + visits (visited next count n) count m i)%nat.
Proof.
  unfold visits. rewrite seq_app, filter_app, length_app. f_equal. cbn.
  rewrite <-(Nat.add_0_r n) at 1. rewrite <-fmap_add_seq. apply length_filter_fmap.
  intros j. unfold visited. by rewrite Nat.Div0.add_mod_idemp_l, Nat.add_assoc.
Qed.

(** Every slot is visited once a round. *)
Lemma visits_round next count i : (next < count)%nat → (i < count)%nat → (1 <= visits next count count i)%nat.
Proof.
  intros Hn Hi. unfold visits.
  assert (((i + (count - next)) mod count)%nat ∈
    filter (λ j, visited next count j = i) (seq 0 count)) as H.
  { apply list_elem_of_filter. split.
    - unfold visited. rewrite Nat.Div0.add_mod_idemp_r.
      replace (next + (i + (count - next)))%nat with (i + 1 * count)%nat by lia.
      rewrite Nat.Div0.mod_add. by apply Nat.mod_small.
    - apply elem_of_seq. split; [lia|]. apply Nat.mod_upper_bound. lia. }
  destruct (filter _ _); [by apply not_elem_of_nil in H|cbn; lia].
Qed.

Lemma visits_rounds rounds next count n i :
  (next < count)%nat → (i < count)%nat → (rounds * count <= n)%nat →
  (rounds <= visits next count n i)%nat.
Proof.
  revert next n. induction rounds as [|rounds IH]; intros next n Hn Hi Hr; [lia|].
  replace n with (count + (n - count))%nat by lia. rewrite visits_add.
  pose proof (visits_round next count i Hn Hi).
  assert (visited next count count < count)%nat by (apply Nat.mod_upper_bound; lia).
  specialize (IH (visited next count count) (n - count)%nat). lia.
Qed.

Lemma sweep_loop_run n now_us next deleted e :
  engine_ok e → SlotCount e ≠ 0%nat → (next < SlotCount e)%nat →
  engine_room e (Z.of_nat (n * kMaxExpiredKeysPerSlot)) →
  ∃ deleted' e', sweep_loop n (SlotCount e) now_us next deleted e =
      Some ((deleted', visited next (SlotCount e) n), e') ∧
    engine_ok e' ∧ engine_swept now_us e e' ∧
    (∀ k, 0 <= k → engine_room e (k + Z.of_nat (n * kMaxExpiredKeysPerSlot)) → engine_room e' k) ∧
    ∀ t i s s', now_us <= t → slots_ e !! i = Some s → slots_ e' !! i = Some s' →
      cleaned now_us t (visits next (SlotCount e) n i * kMaxExpiredKeysPerSlot) s s'.
Proof.
  revert next deleted e. induction n as [|n IH]; intros next deleted e He Hc Hn Hr.
  { exists deleted, e. unfold visited. rewrite Nat.add_0_r, Nat.mod_small by done.
    split; [done|]. split; [done|]. split; [|split].
    - split; [done|]. intros i s Hs. exists s. split; [done|apply swept_refl].
    - intros k _ Hk. eapply engine_room_le; [|exact Hk]. lia.
    - intros t i s s' _ Hs Hs'. assert (s' = s) as -> by congruence. by apply cleaned_none. }
  cbn [sweep_loop]. unfold mbind, stM_bind, DeleteExpiredInSlot, SlotById.
  destruct (lookup_lt_is_Some_2 (slots_ e) next) as [s Hs]; [done|]. rewrite Hs.
  pose proof (eo_slots _ He _ _ Hs) as Hok.
  pose proof (DeleteExpired_swept s kMaxExpiredKeysPerSlot now_us) as Hsw.
  pose proof (DeleteExpired_ok next s kMaxExpiredKeysPerSlot now_us Hok) as Hok1.
  pose proof (Hr _ _ Hs) as Hroom. destruct (DeleteExpired s _ now_us) as [d s1].
  destruct Hsw as (Hsw & Hclean & Hseq). cbn [snd] in Hok1.
  set (e1 := mkEngine (<[next := s1]> (slots_ e))).
  assert (engine_ok e1) as He1.
  { apply (set_slot_ok e next s1 He), Hok1. unfold kMaxExpiredKeysPerSlot in *. lia. }
  assert (SlotCount e1 = SlotCount e) as Hc1 by (unfold SlotCount; cbn; apply length_insert).
  destruct (IH ((next + 1) mod SlotCount e)%nat (deleted + d)%nat e1) as (d' & e' & E & He' & [Hl' Hs'] & Hrm & Hcl).
  - done.
  - by rewrite Hc1.
  - rewrite Hc1. by apply Nat.mod_upper_bound.
  - intros j sj. cbn. rewrite list_lookup_insert. case_decide as Hdj.
    + destruct Hdj as [<- _]. intros [= <-]. apply Hseq; [lia|unfold kMaxExpiredKeysPerSlot in *; lia|apply Hok].
    + intros Hj. specialize (Hr j sj Hj). unfold kMaxExpiredKeysPerSlot in *. lia.
  - rewrite Hc1 in E, Hcl. rewrite visited_succ in E by done. exists d', e'.
    split; [exact E|]. split; [done|]. split; [|split].
    + split; [rewrite Hl'; apply length_insert|]. intros i si Hi.
      destruct (decide (next = i)) as [<-|Hne].
      * assert (si = s) as -> by congruence.
        destruct (Hs' next s1) as (s2 & Hs2 & Hsw2).
        { cbn. apply list_lookup_insert_eq. by eapply lookup_lt_Some. }
        exists s2. split; [done|]. by eapply swept_trans.
      * destruct (Hs' i si) as (s2 & Hs2 & Hsw2); [cbn; by rewrite list_lookup_insert_ne|].
        by exists s2.
    + intros k Hk Hr'. apply Hrm; [done|]. intros j sj. cbn. rewrite list_lookup_insert. case_decide as Hdj.
      * destruct Hdj as [<- _]. intros [= <-]. apply Hseq; [lia| |apply Hok].
        specialize (Hr' _ _ Hs). unfold kMaxExpiredKeysPerSlot in *. lia.
      * intros Hj. specialize (Hr' j sj Hj). unfold kMaxExpiredKeysPerSlot in *. lia.
    + intros t i si si' Ht Hsi Hsi'. rewrite visits_succ, Nat.mul_add_distr_r by done.
      destruct (decide (next = i)) as [<-|Hne].
      * assert (si = s) as -> by congruence.
        assert (slots_ e1 !! next = Some s1) as Hs1
          by (cbn; apply list_lookup_insert_eq; by eapply lookup_lt_Some).
        destruct (Hs' next s1 Hs1) as (s2 & Hs2 & Hsw2).
        assert (si' = s2) as -> by congruence. rewrite Nat.mul_1_l.
        eapply cleaned_trans; [apply Hsw2|by apply Hclean|by apply Hcl].
      * apply (Hcl t i si si'); [done| |done]. cbn. by rewrite list_lookup_insert_ne.
Qed.

Lemma SweepOnce_run sw now_us e :
  engine_ok e → (next_slot_ sw < SlotCount e)%nat →
  engine_room e (Z.of_nat (slots_per_tick_ sw * kMaxExpiredKeysPerSlot)) →
  ∃ deleted e', SweepOnce sw now_us e =
      Some ((deleted, mk (slots_per_tick_ sw)
               (visited (next_slot_ sw) (SlotCount e) (slots_per_tick_ sw))), e') ∧
    engine_ok e' ∧ engine_swept now_us e e' ∧
    (∀ k, 0 <= k → engine_room e (k + Z.of_nat (slots_per_tick_ sw * kMaxExpiredKeysPerSlot)) →
       engine_room e' k) ∧
    (∀ key, engine_live e' now_us key = engine_live e now_us key) ∧
    (∀ key a, engine_lookup e' key = Some a → engine_lookup e key = Some a) ∧
    ∀ t i s s', now_us <= t → slots_ e !! i = Some s → slots_ e' !! i = Some s' →
      cleaned now_us t
        (visits (next_slot_ sw) (SlotCount e) (slots_per_tick_ sw) i * kMaxExpiredKeysPerSlot) s s'.
Proof.
  intros He Hn Hr. unfold SweepOnce.
  destruct (slots_per_tick_ sw =? 0)%nat eqn:E0.
  { apply Nat.eqb_eq in E0. cbn [orb]. exists 0%nat, e. rewrite E0. unfold visited.
    rewrite Nat.add_0_r, Nat.mod_small by done. split; [by destruct sw; cbn in *; subst|].
    split; [done|]. split; [split; [done|intros i s Hs; exists s; split; [done|apply swept_refl]]|].
    split; [intros k _ Hk; eapply engine_room_le; [|exact Hk]; lia|].
    split; [done|]. split; [done|].
    intros t i s s' _ Hs Hs'. assert (s' = s) as -> by congruence. by apply cleaned_none. }
  rewrite (proj2 (Nat.eqb_neq (SlotCount e) 0)) by lia. cbn [orb].
  destruct (sweep_loop_run (slots_per_tick_ sw) now_us (next_slot_ sw) 0 e He ltac:(lia) Hn Hr)
    as (d & e' & -> & He' & [Hl Hs] & Hrm & Hcl).
  exists d, e'. split; [done|]. split; [done|]. split; [done|]. split; [done|].
  assert (∀ key, swept now_us (slot_of e key) (slot_of e' key)) as Hkey.
  { intros key. destruct (Hs _ _ (slot_of_lookup e key (eo_wf _ He))) as (s' & Hs' & Hsw).
    rewrite slot_of_lookup in Hs' by apply He'. by injection Hs' as ->. }
  split; [|split; [|done]].
  - intros key. apply (sw_live _ _ _ (Hkey key)).
  - intros key a Ha. eapply lookup_weaken; [exact Ha|apply (Hkey key)].
Qed.
End sweeper.
