(* ===== verification/Response.v ===== *)
(** * Responses: src/protocol/response.h, the constructors of resp_codec.cpp

    A reply is a tagged value; the constructors below are the static
    functions of [protocol::Response], one per tag of [ResponseType]. *)

From S2P Require Import Prelude Text.

Inductive ResponseType :=
  | kSimpleString | kError | kInteger | kBulkString | kNullBulkString | kArray.

Inductive Response :=
  | SimpleString (text : string)
  | Error (text : string)
  | Integer (integer : Z)
  | BulkString (text : string)
  | NullBulk
  | Array (elements : list Response).

#[export] Instance ResponseType_eq_dec : EqDecision ResponseType.
Proof. solve_decision. Defined.

(** The member [type]. *)
Definition resp_type (r : Response) : ResponseType :=
  match r with
  | SimpleString _ => kSimpleString
  | Error _ => kError
  | Integer _ => kInteger
  | BulkString _ => kBulkString
  | NullBulk => kNullBulkString
  | Array _ => kArray
  end.

Definition is_error (r : Response) : bool := bool_decide (resp_type r = kError).

(** [static_cast<int64_t>] of a boolean flag in a reply: [flag ? 1 : 0]. *)
Definition flag_reply (b : bool) : Response := Integer (if b then 1 else 0).

(** The reply for an optional byte string. *)
Definition bulk_or_null (o : option string) : Response :=
  match o with Some s => BulkString s | None => NullBulk end.
