(* ===== verification/Command.v ===== *)
(** * Commands and what it means to implement one

    [RedisCmd] is the interface src/command/redis_cmd.h: an arity check and
    an execution step over the engine. Reads of [args] past the end are
    undefined in C++ and [None] here; [rnd] is the stream of numbers the
    random engine of the set commands returns.

    [implements] is the contract between a write command and the cache: a
    specification is a function of the live abstract entry of the key, giving
    the write to commit (with the arguments it logs) and the reply. *)

From S2P Require Import Prelude Text Containers Double RedisObject Binlog HashSlot Engine Response.

(** What a command does to the entry of its key: nothing, or one committed
    write that stores or removes the entry and logs [args]. *)
Inductive effect :=
  | Keep
  | Write (entry : option aobj) (args : list string).

Definition kWrongTypeError : string :=
  "WRONGTYPE Operation against a key holding the wrong kind of value".
Definition kSyntaxError : string := "ERR syntax error".
Definition kIntegerError : string := "ERR value is not an integer or out of range".
Definition kOverflowError : string := "ERR increment or decrement would overflow".

(** [MakeRecord(command, args)] of string_cmd.cpp and set_cmd.cpp. *)
Definition MakeRecord (command : string) (args : list string) : BinlogRecord :=
  record_of_args (ToUpperAscii command :: drop 1 args).

(** ["ERR wrong number of arguments for '" + command + "' command"]. *)
Definition WrongArity (command : string) : string :=
  String.append "ERR wrong number of arguments for '" (String.append command "' command").

(** The arity checks: a test on the number of arguments. *)
Definition arity_check (bad : nat → bool) (command : string) (args : list string)
    : option string :=
  if bad (length args) then Some (WrongArity command) else None.
Definition CheckExactArity (args : list string) (expected : nat) (command : string)
    : option string := arity_check (λ n, negb (n =? expected)%nat) command args.
Definition CheckMinArity (args : list string) (minimum : nat) (command : string)
    : option string := arity_check (λ n, n <? minimum)%nat command args.

(** An entry seen as a value of one type: missing, of another type, or the
    value with its deadline. *)
Inductive view (A : Type) :=
  | VMissing
  | VWrong
  | VHas (x : A) (deadline : Z).
Arguments VMissing {A}.
Arguments VWrong {A}.
Arguments VHas {A} x deadline.

Definition view_with {A} (f : aval → option A) (o : option aobj) : view A :=
  match o with
  | None => VMissing
  | Some a => match f (a_val a) with Some x => VHas x (a_deadline a) | None => VWrong end
  end.
Definition view_string : option aobj → view string :=
  view_with (λ v, match v with AString s => Some s | _ => None end).
Definition view_hash : option aobj → view (gmap string string) :=
  view_with (λ v, match v with AHash h => Some h | _ => None end).
Definition view_set : option aobj → view (gset string) :=
  view_with (λ v, match v with ASet s => Some s | _ => None end).
Definition view_zset : option aobj → view (gmap string double) :=
  view_with (λ v, match v with AZSet z => Some z | _ => None end).

(** Storing a value with a deadline, and storing a collection, which removes
    the key when nothing is left. *)
Definition store (v : aval) (deadline : Z) (args : list string) : effect :=
  Write (Some (mkAObj deadline v)) args.

Section command.
Context {IC : ImmutableContainer}.

Record RedisCmd := mkRedisCmd {
  CheckArity : list string → option string;
  ExecCmd : (nat → nat) → list string → Z → engineM Response;
}.

(** [args[i]]. *)
Definition arg (args : list string) (i : nat) : engineM string := liftM (args !! i).

(** ** Contracts *)

Definition opt_ok (o : option RedisObject) : Prop := ∀ x, o = Some x → object_ok x.

(** [e'] is [e] after [eff] on [key]. *)
Definition engine_writes (e : CacheEngine) (key : string) (now_us : Z) (eff : effect)
    (e' : CacheEngine) : Prop :=
  match eff with
  | Keep => e' = e
  | Write entry args =>
      ∃ o s', abs_object <$> o = entry ∧ opt_ok o ∧ args !! 1%nat = Some key ∧
        committed (slot_of e key) s' key o args now_us ∧
        e' = set_slot e (SlotForKey key) s'
  end.

(** On every well-formed engine [m] runs to completion, replies and writes as
    [spec] says. *)
Definition implements (m : engineM Response) (key : string) (now_us : Z)
    (spec : option aobj → effect * Response) : Prop :=
  ∀ e, engine_ok e →
    ∃ e', m e = Some ((spec (engine_live e now_us key)).2, e') ∧
          engine_writes e key now_us (spec (engine_live e now_us key)).1 e'.

(** The same when the container or the random engine has a choice: the
    write and the reply are among those [R] allows. *)
Definition implements_rel (m : engineM Response) (key : string) (now_us : Z)
    (R : option aobj → effect → Response → Prop) : Prop :=
  ∀ e, engine_ok e →
    ∃ r eff e', m e = Some (r, e') ∧ R (engine_live e now_us key) eff r ∧
                engine_writes e key now_us eff e'.

(** [m] reads: it never changes the engine, and its reply is right for the
    stored object (not only its abstraction: the order in which a
    collection is listed is the container's). *)
Definition reads (m : engineM Response) (key : string) (now_us : Z)
    (good : option RedisObject → Response → Prop) : Prop :=
  ∀ e, engine_ok e →
    ∃ r, m e = Some (r, e) ∧ good (Get (slot_of e key) key now_us) r.

(** The effect of a mutation of a slot. *)
Definition mutation_effect (had_existing : bool) (m : MutationResult)
    (record : BinlogRecord) : effect :=
  if mr_changed m && (has_value (mr_object m) || had_existing)
  then Write (abs_object <$> mr_object m) (rec_args (default record (mr_record m)))
  else Keep.

(** [mutator] does what [R] allows, [reply] being what the command answers
    from the flags the mutator leaves. *)
Definition mutator_rel {X} (key : string) (record : BinlogRecord)
    (mutator : option RedisObject → MutationResult * X) (reply : X → Response)
    (R : option aobj → effect → Response → Prop) : Prop :=
  ∀ o, opt_ok o →
    R (abs_object <$> o) (mutation_effect (has_value o) (mutator o).1 record)
      (reply (mutator o).2) ∧
    opt_ok (mr_object (mutator o).1) ∧
    rec_args (default record (mr_record (mutator o).1)) !! 1%nat = Some key.

Definition mutator_ok {X} (key : string) (record : BinlogRecord)
    (mutator : option RedisObject → MutationResult * X) (reply : X → Response)
    (spec : option aobj → effect * Response) : Prop :=
  mutator_rel key record mutator reply (λ o eff r, (eff, r) = spec o).

Definition updater_mutator {X} (updater : option RedisObject → option RedisObject * X)
    : option RedisObject → MutationResult * X :=
  λ o, (mkMutationResult (has_value (updater o).1) (updater o).1 None, (updater o).2).

(** [deadline_us ? obj.WithDeadline(deadline_us) : obj], on a fresh object. *)
Lemma preserve_deadline (o : RedisObject) (d : Z) :
  deadline_us_ o = 0 → (if negb (d =? 0) then WithDeadline o d else o) = WithDeadline o d.
Proof.
  intros H0. destruct (d =? 0) eqn:E; cbn; [|done]. bool_prop. subst d.
  rewrite <-H0. symmetry. apply WithDeadline_same.
Qed.

Context {CL : ContainerLaws IC}.

Lemma Get_opt_ok e key now_us : engine_ok e → opt_ok (Get (slot_of e key) key now_us).
Proof.
  intros He o Ho. eapply Get_ok in Ho; [by destruct Ho|]. by apply engine_ok_slot.
Qed.

Lemma implements_rel_Mutate {X} key record
    (mutator : option RedisObject → MutationResult * X) reply R now_us :
  mutator_rel key record mutator reply R →
  implements_rel ('(_, x) ← engine_Mutate key mutator record now_us; mret (reply x))
    key now_us R.
Proof.
  intros Hm e He. destruct (Hm _ (Get_opt_ok e key now_us He)) as (Hs & Ho & Ha).
  unfold engine_live. rewrite <-Get_live.
  pose proof (Mutate_spec (slot_of e key) key mutator record now_us) as H. cbn zeta in H.
  unfold mbind, stM_bind, engine_Mutate. rewrite SlotById_key by apply He.
  destruct (mutator (Get (slot_of e key) key now_us)) as [mu x].
  destruct (Mutate (slot_of e key) key mutator record now_us) as [[w x'] s'].
  destruct H as [-> H]. cbn [fst snd] in *.
  eexists _, _, (set_slot e (SlotForKey key) s').
  split; [done|]. split; [exact Hs|]. unfold mutation_effect. destruct (_ && _).
  - destruct H as [Hc _]. by exists (mr_object mu), s'.
  - destruct H as [-> _]. cbn. apply set_slot_same, He.
Qed.

Lemma implements_rel_fun m key now_us spec :
  implements_rel m key now_us (λ o eff r, (eff, r) = spec o) ↔
  implements m key now_us spec.
Proof.
  split; intros Hm e He.
  - destruct (Hm e He) as (r & eff & e' & E & Hs & Hw). exists e'. by rewrite <-Hs.
  - destruct (Hm e He) as (e' & E & Hw).
    exists (spec (engine_live e now_us key)).2, (spec (engine_live e now_us key)).1, e'.
    split; [exact E|]. split; [by destruct (spec _)|exact Hw].
Qed.

Lemma implements_rel_mono m key now_us (R R' : option aobj → effect → Response → Prop) :
  (∀ o eff r, R o eff r → R' o eff r) →
  implements_rel m key now_us R → implements_rel m key now_us R'.
Proof.
  intros HR Hm e He. destruct (Hm e He) as (r & eff & e' & E & H & Hw).
  exists r, eff, e'. auto.
Qed.

Lemma engine_Update_Mutate {X} key (updater : option RedisObject → option RedisObject * X)
    record now_us e :
  engine_Update key updater record now_us e =
  engine_Mutate key (updater_mutator updater) record now_us e.
Proof.
  unfold engine_Update, engine_Mutate, SlotById. destruct (_ !! _) as [s|]; [|done].
  unfold Update, updater_mutator, Mutate.
  replace (match map_Find (redis_obj_map_ s) (pack key) with
           | Some found => if negb (IsExpired found now_us) then Some found else None
           | None => None end) with (Get s key now_us).
  2:{ unfold Get. destruct (map_Find _ _) as [o|]; [|done]. by destruct (IsExpired o now_us). }
  by destruct (updater (Get s key now_us)) as [next x].
Qed.

(** The two shapes of a write command. *)
Lemma implements_Mutate {X} key record (mutator : option RedisObject → MutationResult * X)
    reply spec now_us :
  mutator_ok key record mutator reply spec →
  implements ('(_, x) ← engine_Mutate key mutator record now_us; mret (reply x))
    key now_us spec.
Proof. intros Hm. by apply implements_rel_fun, implements_rel_Mutate. Qed.

Lemma implements_Update {X} key record (updater : option RedisObject → option RedisObject * X)
    reply spec now_us :
  mutator_ok key record (updater_mutator updater) reply spec →
  implements ('(_, x) ← engine_Update key updater record now_us; mret (reply x))
    key now_us spec.
Proof.
  intros Hm e He. unfold mbind, stM_bind. rewrite engine_Update_Mutate.
  by apply (implements_Mutate key record (updater_mutator updater) reply).
Qed.

(** Reading an argument that is there. *)
Lemma implements_arg {A} (x : A) (f : A → engineM Response) key now_us spec :
  implements (f x) key now_us spec → implements (liftM (Some x) ≫= f) key now_us spec.
Proof. exact id. Qed.

(** A command that answers without touching the cache. *)
Lemma implements_ret r key now_us spec :
  (∀ o, spec o = (Keep, r)) → implements (mret r) key now_us spec.
Proof. intros Hs e _. exists e. by rewrite Hs. Qed.

Lemma reads_Get (f : option RedisObject → Response) key now_us
    (good : option RedisObject → Response → Prop) :
  (∀ o, opt_ok o → good o (f o)) →
  reads (o ← engine_Get key now_us; mret (f o)) key now_us good.
Proof.
  intros Hg e He. eexists. unfold mbind, stM_bind. rewrite engine_Get_run by apply He.
  split; [done|]. apply Hg. by apply Get_opt_ok.
Qed.

(** *** Consequences of a write *)

Lemma engine_writes_ok_slot e key now_us eff e' :
  engine_ok e → slot_seq_ (slot_of e key) < UINT64_MAX → engine_writes e key now_us eff e' →
  engine_ok e'.
Proof.
  intros He Hr. destruct eff as [|entry args]; [by intros ->|].
  intros (o & s' & _ & Ho & Ha & Hc & ->). apply set_slot_ok; [done|].
  eapply committed_ok; try done. by apply engine_ok_slot.
Qed.

Lemma engine_writes_ok e key now_us eff e' :
  engine_ok e → engine_room e 1 → engine_writes e key now_us eff e' → engine_ok e'.
Proof.
  intros He Hr. apply engine_writes_ok_slot; [done|].
  pose proof (engine_room_slot e 1 key (eo_wf _ He) Hr). lia.
Qed.

Lemma engine_writes_lookup e key now_us eff e' k :
  engine_ok e → engine_writes e key now_us eff e' →
  engine_lookup e' k =
  match eff with
  | Keep => engine_lookup e k
  | Write entry _ => if decide (k = key) then entry else engine_lookup e k
  end.
Proof.
  intros He. destruct eff as [|entry args]; [by intros ->|].
  intros (o & s' & <- & Ho & Ha & Hc & ->). by eapply engine_committed; [apply He|].
Qed.

Lemma engine_writes_room e key now_us eff e' n :
  engine_ok e → 0 <= n → engine_room e (n + 1) →
  engine_writes e key now_us eff e' → engine_room e' n.
Proof.
  intros He Hn Hr. destruct eff as [|entry args].
  - intros -> i s Hs. specialize (Hr i s Hs). lia.
  - intros (o & s' & _ & _ & _ & Hc & ->) i s. cbn. rewrite list_lookup_insert.
    case_decide as Hd; [|intros Hs; specialize (Hr i s Hs); lia].
    destruct Hd as [<- _]. intros [= <-]. rewrite (co_seq _ _ _ _ _ _ Hc).
    pose proof (so_seq _ _ (engine_ok_slot e key He)) as Hs.
    pose proof (engine_room_slot e (n + 1) key (eo_wf _ He) Hr). u64_lia.
Qed.

Lemma implements_rel_ok m key now_us R e :
  implements_rel m key now_us R → engine_ok e → engine_room e 1 →
  ∃ r e', m e = Some (r, e') ∧ engine_ok e' ∧
    (∀ n, 0 <= n → engine_room e (n + 1) → engine_room e' n).
Proof.
  intros Hm He Hr. destruct (Hm e He) as (r & eff & e' & E & _ & Hw).
  exists r, e'. split; [done|].
  split; [by eapply engine_writes_ok|]. intros. by eapply engine_writes_room.
Qed.
End command.

(** Case analysis on the object a mutator receives: missing, or a
    well-formed object of one of the four types. *)
Ltac obj_cases :=
  let o := fresh "o" in
  let Hok := fresh "Hok" in
  intros o Hok;
  destruct o as [[? ?d ?v]|];
  [ let Ht := fresh "Ht" in
    destruct (Hok _ eq_refl) as [Ht ?Hd ?Hne]; cbn in Ht; subst;
    match goal with v : object_value |- _ => destruct v as [?v|?v|?v|?v] end
  | ];
  clear Hok.

(** Simplification of the effect of a concrete mutation. *)
Ltac effect_simpl :=
  unfold mutation_effect, updater_mutator, opt_ok, view_string, view_hash, view_set, view_zset,
    view_with, store in *; cbn; autorewrite with cache; cbn.
