(* ===== verification/KeyCmd.v ===== *)
(** * Key commands: src/command/key_cmd

    EXISTS, TYPE, PTTL, DEL, EXPIRE and TTL, with their specifications on the
    abstract cache. *)

From S2P Require Import Prelude Text Containers Double RedisObject Binlog HashSlot Engine Response Command.

Definition kMicrosPerMillisecond : Z := 1000.

Definition RelativeMillisecondsFromTtl (remaining_ttl_us : Z) : Z :=
  let milliseconds := remaining_ttl_us / kMicrosPerMillisecond in
  if milliseconds >? INT64_MAX then INT64_MAX else milliseconds.

Definition TypeName (type : RedisObjectType) : string :=
  match type with
  | kString => "string" | kHash => "hash" | kSet => "set" | kZSet => "zset"
  end.

Section key_cmd.
Context {IC : ImmutableContainer}.

(** The loop of EXISTS: one lookup per key. *)
Definition exists_loop (now_us : Z) (count : Z) (key : string) : engineM Z :=
  o ← engine_Get key now_us;
  mret (if has_value o then count + 1 else count).

Definition ExistsCmd : RedisCmd := {|
  CheckArity args := CheckMinArity args 2 "exists";
  ExecCmd _ args now_us :=
    count ← foldM (exists_loop now_us) 0 (drop 1 args);
    mret (Integer count);
|}.

Definition TypeCmd : RedisCmd := {|
  CheckArity args := CheckExactArity args 2 "type";
  ExecCmd _ args now_us :=
    key ← arg args 1;
    object ← engine_Get key now_us;
    match object with
    | None => mret (SimpleString "none")
    | Some o => mret (SimpleString (TypeName (type_ o)))
    end;
|}.

Definition PTtlCmd : RedisCmd := {|
  CheckArity args := CheckExactArity args 2 "pttl";
  ExecCmd _ args now_us :=
    key ← arg args 1;
    object ← engine_Get key now_us;
    match object with
    | None => mret (Integer (-2))
    | Some o =>
        if deadline_us_ o =? 0 then mret (Integer (-1))
        else mret (Integer (RelativeMillisecondsFromTtl (deadline_us_ o -u now_us)))
    end;
|}.

(** The loop of DEL: one write per key. *)
Definition del_loop (now_us : Z) (deleted : Z) (key : string) : engineM Z :=
  w ← engine_Del key now_us;
  mret (if wr_changed w then deleted + 1 else deleted).

Definition DelCmd : RedisCmd := {|
  CheckArity args := CheckMinArity args 2 "del";
  ExecCmd _ args now_us :=
    deleted ← foldM (del_loop now_us) 0 (drop 1 args);
    mret (Integer deleted);
|}.

Definition ExpireCmd : RedisCmd := {|
  CheckArity args := CheckExactArity args 3 "expire";
  ExecCmd _ args now_us :=
    text ← arg args 2;
    match ParseInt64 text with
    | None => mret (Error kIntegerError)
    | Some seconds =>
        key ← arg args 1;
        b ← engine_Expire key seconds now_us;
        mret (flag_reply b)
    end;
|}.

Definition TtlCmd : RedisCmd := {|
  CheckArity args := CheckExactArity args 2 "ttl";
  ExecCmd _ args now_us :=
    key ← arg args 1;
    ttl ← engine_Ttl key now_us;
    mret (Integer ttl);
|}.

(** ** Specifications *)

(** EXPIRE: a missing key is left alone; otherwise the deadline moves, or
    the key goes when the time is not positive. *)
Definition expire_spec (now_us : Z) (key text : string) (o : option aobj)
    : effect * Response :=
  match ParseInt64 text with
  | None => (Keep, Error kIntegerError)
  | Some seconds =>
      match o with
      | None => (Keep, Integer 0)
      | Some a =>
          if seconds <=? 0 then (Write None ["DEL"; key], Integer 1)
          else
            (Write (Some (mkAObj (deadline_after now_us seconds) (a_val a)))
               ["EXPIRE"; key; to_string seconds], Integer 1)
      end
  end.

(** What is left of a time to live, in units of [unit] microseconds. *)
Definition ttl_spec (unit now_us : Z) (o : option aobj) : Z :=
  match o with
  | None => -2
  | Some a => if a_deadline a =? 0 then -1 else (a_deadline a - now_us) / unit
  end.

Definition type_name_of (a : aval) : string :=
  match a with
  | AString _ => "string" | AHash _ => "hash" | ASet _ => "set" | AZSet _ => "zset"
  end.

(** ** Theorems *)

Context {CL : ContainerLaws IC}.

Lemma engine_Expire_spec key seconds now_us e :
  engine_ok e → is_u64 now_us → is_i64 seconds →
  ∃ b e', engine_Expire key seconds now_us e = Some (b, e') ∧
    match Get (slot_of e key) key now_us with
    | None => b = false ∧ e' = e
    | Some o =>
        b = true ∧
        engine_writes e key now_us
          (if seconds <=? 0 then Write None ["DEL"; key]
           else Write (Some (mkAObj (deadline_after now_us seconds) (a_val (abs_object o))))
                  ["EXPIRE"; key; to_string seconds]) e'
    end.
Proof.
  intros He Hn Hs. pose proof (Expire_spec (slot_of e key) key seconds now_us Hn Hs) as H.
  unfold engine_Expire. rewrite SlotById_key by apply He.
  destruct (Expire (slot_of e key) key seconds now_us) as [b s']. cbn.
  exists b, (set_slot e (SlotForKey key) s'). split; [done|].
  destruct (Get (slot_of e key) key now_us) as [o|] eqn:Eg.
  - destruct H as [-> H]. split; [done|].
    destruct (Get_ok _ _ _ _ _ (engine_ok_slot e key He) Eg) as [Ho _].
    destruct (seconds <=? 0) eqn:E; bool_prop; [by exists None, s'|].
    exists (Some (WithDeadline o (deadline_after now_us seconds))), s'.
    split; [done|]. split; [|done]. intros x [= <-].
    apply WithDeadline_ok, deadline_after_u64; try done; lia.
  - destruct H as [-> ->]. split; [done|]. apply set_slot_same, He.
Qed.

Lemma Expire_implements rnd name key text now_us :
  is_u64 now_us →
  implements (ExecCmd ExpireCmd rnd [name; key; text] now_us) key now_us
    (expire_spec now_us key text).
Proof.
  intros Hn. cbn. unfold arg. cbn. unfold expire_spec.
  destruct (ParseInt64 text) as [seconds|] eqn:E.
  - intros e He. unfold mbind, stM_bind, liftM. cbn. rewrite E.
    destruct (engine_Expire_spec key seconds now_us e He Hn (ParseInt64_range _ _ E))
      as (b & e' & Hx & H). rewrite Hx.
    unfold engine_live. rewrite <-Get_live.
    destruct (Get (slot_of e key) key now_us) as [o|]; cbn in *.
    + destruct H as [-> H]. exists e'. by destruct (seconds <=? 0).
    + destruct H as [-> ->]. by exists e.
  - intros e He. exists e. unfold mbind, stM_bind, liftM. cbn. by rewrite E.
Qed.

Lemma RelativeMilliseconds_exact t :
  is_u64 t → RelativeMillisecondsFromTtl t = t / 1000.
Proof.
  intros Ht. unfold RelativeMillisecondsFromTtl, kMicrosPerMillisecond.
  destruct (_ >? _) eqn:E; [|done]. bool_prop. exfalso.
  assert (t / 1000 <= UINT64_MAX / 1000) by (apply Z.div_le_mono; unfold is_u64 in *; lia).
  unfold UINT64_MAX, INT64_MAX in *. change (18446744073709551615 / 1000) with 18446744073709551 in *.
  lia.
Qed.

(** A live deadline lies in the future, so the subtraction does not wrap. *)
Lemma remaining_exact (d now_us : Z) :
  is_u64 d → 0 <= now_us → negb (d =? 0) && (now_us >=? d) = false → d ≠ 0 →
  d -u now_us = d - now_us ∧ is_u64 (d - now_us).
Proof.
  intros Hd Hn Hl H0. assert (now_us < d).
  { rewrite andb_false_iff in Hl. destruct Hl as [Hl|Hl]; bool_prop; [congruence|lia]. }
  split; u64_lia.
Qed.

Lemma live_not_expired m now_us key a :
  live m now_us key = Some a → a_expired a now_us = false.
Proof.
  unfold live. destruct (m !! key) as [b|]; [|done].
  destruct (a_expired b now_us) eqn:E; [done|]. by intros [= <-].
Qed.

Lemma engine_live_ok e now_us key a :
  engine_ok e → engine_live e now_us key = Some a →
  is_u64 (a_deadline a) ∧ a_expired a now_us = false ∧ aval_ok (a_val a).
Proof.
  intros He Ha. unfold engine_live in Ha. pose proof (live_not_expired _ _ _ _ Ha) as Hx.
  rewrite <-Get_live in Ha. apply fmap_Some in Ha as (o & Ho & ->).
  destruct (Get_opt_ok e key now_us He o Ho). done.
Qed.

Lemma Ttl_run rnd name key now_us e :
  engine_ok e → is_u64 now_us →
  ExecCmd TtlCmd rnd [name; key] now_us e =
  Some (Integer (ttl_spec 1000000 now_us (engine_live e now_us key)), e).
Proof.
  intros He Hn. cbn. unfold mbind, stM_bind, arg, liftM. cbn.
  unfold engine_Ttl. rewrite SlotById_read by apply He.
  rewrite Ttl_spec. fold (engine_live e now_us key). unfold ttl_spec.
  destruct (engine_live e now_us key) as [a|] eqn:Ea; [|done].
  destruct (engine_live_ok _ _ _ _ He Ea) as (Hd & Hx & _).
  destruct (a_deadline a =? 0) eqn:E0; [done|]. bool_prop.
  destruct (remaining_exact _ now_us Hd) as [-> _]; [unfold is_u64 in Hn; lia|done|done|].
  done.
Qed.

Lemma PTtl_run rnd name key now_us e :
  engine_ok e → is_u64 now_us →
  ExecCmd PTtlCmd rnd [name; key] now_us e =
  Some (Integer (ttl_spec 1000 now_us (engine_live e now_us key)), e).
Proof.
  intros He Hn. cbn. unfold mbind, stM_bind, arg, liftM. cbn.
  rewrite engine_Get_run by apply He. unfold ttl_spec.
  destruct (engine_live e now_us key) as [a|] eqn:Ea.
  - destruct (engine_live_ok _ _ _ _ He Ea) as (Hd & Hx & _).
    unfold engine_live in Ea. rewrite <-Get_live in Ea.
    apply fmap_Some in Ea as (o & -> & ->).
    change (a_deadline (abs_object o)) with (deadline_us_ o) in *.
    destruct (deadline_us_ o =? 0) eqn:E0; [done|]. bool_prop.
    destruct (remaining_exact _ now_us Hd) as [-> Hr]; [unfold is_u64 in Hn; lia|done|done|].
    by rewrite RelativeMilliseconds_exact.
  - unfold engine_live in Ea. rewrite <-Get_live in Ea. by apply fmap_None in Ea as ->.
Qed.

Lemma Type_run rnd name key now_us e :
  engine_ok e →
  ExecCmd TypeCmd rnd [name; key] now_us e =
  Some (SimpleString (from_option (λ a, type_name_of (a_val a)) "none"
                        (engine_live e now_us key)), e).
Proof.
  intros He. cbn. unfold mbind, stM_bind, arg, liftM. cbn.
  rewrite engine_Get_run by apply He. unfold engine_live. rewrite <-Get_live.
  destruct (Get _ _ _) as [o|] eqn:Eg; cbn; [|done].
  destruct (Get_opt_ok e key now_us He o Eg) as [Ht _ _]. rewrite Ht.
  by destruct (value_ o).
Qed.

Lemma Exists_run rnd name keys now_us e :
  engine_ok e →
  ExecCmd ExistsCmd rnd (name :: keys) now_us e =
  Some (Integer (sumZ (λ k, if has_value (engine_live e now_us k) then 1 else 0) keys), e).
Proof.
  intros He. cbn. unfold mbind, stM_bind. rewrite skipn_0.
  erewrite (foldM_read (exists_loop now_us)
    (λ n k, if has_value (engine_live e now_us k) then n + 1 else n)).
  2:{ intros n k. unfold exists_loop, mbind, stM_bind. rewrite engine_Get_run by apply He.
      unfold engine_live. by rewrite <-Get_live, has_value_fmap. }
  rewrite (foldl_count (λ k, has_value (engine_live e now_us k))). done.
Qed.

(** *** DEL *)

Lemma engine_Del_spec key now_us e :
  engine_ok e →
  ∃ w e', engine_Del key now_us e = Some (w, e') ∧
    wr_changed w = has_value (engine_live e now_us key) ∧
    engine_writes e key now_us
      (if has_value (engine_live e now_us key) then Write None ["DEL"; key] else Keep) e'.
Proof.
  intros He. pose proof (Del_spec (slot_of e key) key now_us) as H.
  unfold engine_Del. rewrite SlotById_key by apply He.
  destruct (Del (slot_of e key) key now_us) as [w s']. cbn.
  exists w, (set_slot e (SlotForKey key) s'). split; [done|].
  unfold engine_live. rewrite <-Get_live, has_value_fmap.
  destruct (has_value (Get _ _ _)).
  - destruct H as [Hc ->]. split; [done|]. by exists None, s'.
  - destruct H as [-> ->]. split; [done|]. apply set_slot_same, He.
Qed.

(** The keys of a list that a reader sees, each once. *)
Definition live_keys (e : CacheEngine) (now_us : Z) (keys : list string) : gset string :=
  filter (λ k, has_value (engine_live e now_us k) = true) (list_to_set keys).

Lemma engine_live_lookup e now_us key :
  engine_live e now_us key =
  match engine_lookup e key with
  | Some a => if a_expired a now_us then None else Some a
  | None => None
  end.
Proof. reflexivity. Qed.

Lemma elem_of_live_keys e now_us keys k :
  k ∈ live_keys e now_us keys ↔ has_value (engine_live e now_us k) = true ∧ k ∈ keys.
Proof. unfold live_keys. by rewrite elem_of_filter, elem_of_list_to_set. Qed.

Lemma live_after_delete e now_us key e1 k :
  engine_ok e → engine_writes e key now_us (Write None ["DEL"; key]) e1 →
  has_value (engine_live e1 now_us k) = true ↔
  k ≠ key ∧ has_value (engine_live e now_us k) = true.
Proof.
  intros He Hw. rewrite !engine_live_lookup.
  rewrite (engine_writes_lookup _ _ _ _ _ k He Hw). case_decide; [|tauto]. subst.
  split; [done|]. by intros [? _].
Qed.

Lemma del_loop_spec keys now_us e n :
  engine_ok e → engine_room e (Z.of_nat (length keys)) →
  ∃ e', foldM (del_loop now_us) n keys e =
          Some (n + Z.of_nat (size (live_keys e now_us keys)), e') ∧
    engine_ok e' ∧
    (∀ k, engine_lookup e' k =
         if decide (k ∈ live_keys e now_us keys) then None else engine_lookup e k) ∧
    ∀ m, 0 <= m → engine_room e (m + Z.of_nat (length keys)) → engine_room e' m.
Proof.
  revert e n. induction keys as [|key keys IH]; intros e n He Hr.
  { exists e. cbn. replace (live_keys e now_us []) with (∅ : gset string) by set_solver.
    rewrite size_empty. split; [cbn; unfold mret, stM_ret; by rewrite Z.add_0_r|].
    split; [done|]. split; [done|]. intros m _ Hm. by rewrite Z.add_0_r in Hm. }
  cbn [length] in Hr |- *. rewrite Nat2Z.inj_succ in Hr.
  destruct (engine_Del_spec key now_us e He) as (w & e1 & E & Hc & Hw).
  assert (engine_room e 1) as Hr1 by (intros i s Hs; specialize (Hr i s Hs); lia).
  pose proof (engine_writes_ok _ _ _ _ _ He Hr1 Hw) as He1.
  assert (engine_room e1 (Z.of_nat (length keys))) as Hr'.
  { eapply engine_writes_room; [exact He|lia| |exact Hw].
    intros i s Hs; specialize (Hr i s Hs); lia. }
  assert (foldM (del_loop now_us) n (key :: keys) e =
          foldM (del_loop now_us) (if wr_changed w then n + 1 else n) keys e1) as ->.
  { cbn. unfold mbind at 1, stM_bind at 1, del_loop at 1, mbind, stM_bind. by rewrite E. }
  destruct (IH e1 (if wr_changed w then n + 1 else n) He1 Hr') as (e' & -> & He' & Hl & Hroom).
  assert (∀ m, 0 <= m → engine_room e (m + Z.of_nat (S (length keys))) → engine_room e' m) as Hroom'.
  { intros m Hm Hrm. apply Hroom; [done|]. eapply engine_writes_room; [exact He|lia| |exact Hw].
    eapply engine_room_le; [|exact Hrm]. lia. }
  exists e'. rewrite Hc. destruct (has_value (engine_live e now_us key)) eqn:El.
  - assert (live_keys e now_us (key :: keys) = {[key]} ∪ live_keys e1 now_us keys) as ->.
    { apply set_eq. intros k. rewrite elem_of_union, elem_of_singleton, !elem_of_live_keys.
      rewrite (live_after_delete _ _ _ _ k He Hw), elem_of_cons.
      destruct (decide (k = key)); [subst|]; tauto. }
    rewrite size_union, size_singleton.
    2:{ rewrite disjoint_singleton_l, elem_of_live_keys, (live_after_delete _ _ _ _ _ He Hw). tauto. }
    split; [do 2 f_equal; lia|]. split; [done|]. split; [|done]. intros k. rewrite Hl.
    rewrite (engine_writes_lookup _ _ _ _ _ k He Hw).
    repeat case_decide; try done; exfalso; rewrite elem_of_union, elem_of_singleton in *; tauto.
  - cbn in Hw. subst e1.
    assert (live_keys e now_us (key :: keys) = live_keys e now_us keys) as ->; [|done].
    apply set_eq. intros k. rewrite !elem_of_live_keys, elem_of_cons.
    split; [|tauto]. intros [Hk [->|?]]; [congruence|done].
Qed.

Lemma Del_run rnd name keys now_us e :
  engine_ok e → engine_room e (Z.of_nat (length keys)) →
  ∃ e', ExecCmd DelCmd rnd (name :: keys) now_us e =
          Some (Integer (Z.of_nat (size (live_keys e now_us keys))), e') ∧
    engine_ok e' ∧
    (∀ k, engine_lookup e' k =
         if decide (k ∈ live_keys e now_us keys) then None else engine_lookup e k) ∧
    ∀ m, 0 <= m → engine_room e (m + Z.of_nat (length keys)) → engine_room e' m.
Proof.
  intros He Hr. destruct (del_loop_spec keys now_us e 0 He Hr) as (e' & E & H).
  exists e'. split; [|done]. cbn. rewrite skipn_0. unfold mbind, stM_bind. by rewrite E.
Qed.
End key_cmd.
