(* ===== verification/StringCmd.v ===== *)
(** * String commands: src/command/string_cmd

    SET with its options, GET, MGET, SETNX, GETSET, STRLEN, APPEND and the
    integer counters, with their specifications on the abstract cache. The
    variables a mutator captures by reference are its second result. *)

From S2P Require Import Prelude Text Containers Double RedisObject Binlog HashSlot Engine Response Command KeyCmd.

Definition kInvalidExpireError : string := "ERR invalid expire time in set".

Inductive StringReadStatus := kMissing | kWrongTypeRead | kOkRead.

Record StringRead := mkStringRead {
  sr_status : StringReadStatus;
  sr_value : string;
  sr_deadline_us : Z;
}.

Record SetOptions := mkSetOptions {
  opt_nx : bool;
  opt_xx : bool;
  opt_get : bool;
  opt_keep_ttl : bool;
  opt_deadline_us : Z;
}.

Definition SetOptions_default : SetOptions := mkSetOptions false false false false 0.

Inductive IntegerMutationMode := kAdd | kSubtract.

(** ** Checked arithmetic *)

Definition CheckedAddInt64 (left right : Z) : option Z :=
  if (right >? 0) && (left >? INT64_MAX - right) then None
  else if (right <? 0) && (left <? INT64_MIN - right) then None
  else Some (left + right).

Definition CheckedSubtractInt64 (left right : Z) : option Z :=
  if (right >? 0) && (left <? INT64_MIN + right) then None
  else if (right <? 0) && (left >? INT64_MAX + right) then None
  else Some (left - right).

Definition CheckedMultiply (value multiplier : Z) : option Z :=
  if value >? UINT64_MAX / multiplier then None else Some (value *u multiplier).

Definition CheckedAdd (left right : Z) : option Z :=
  if right >? UINT64_MAX -u left then None else Some (left +u right).

(** ** Options of SET *)

Definition ParsePositiveExpiration (text : string) : option Z :=
  match ParseInt64 text with
  | Some parsed => if parsed <=? 0 then None else Some (u64 parsed)
  | None => None
  end.

(** [None] is [kInvalidExpireError]. *)
Definition ComputeDeadline (option : string) (amount now_us : Z) : Datatypes.option Z :=
  if decide (option = "EX") then
    duration_us ← CheckedMultiply amount kMicrosPerSecond; CheckedAdd now_us duration_us
  else if decide (option = "PX") then
    duration_us ← CheckedMultiply amount kMicrosPerMillisecond; CheckedAdd now_us duration_us
  else if decide (option = "EXAT") then CheckedMultiply amount kMicrosPerSecond
  else CheckedMultiply amount kMicrosPerMillisecond.

(** The loop over [args] from index 3, on what is left of them. *)
Fixpoint ParseSetOptions_loop (rest : list string) (now_us : Z) (options : SetOptions)
    (has_expiration_option : bool) : string + SetOptions :=
  let '(mkSetOptions nx xx get keep_ttl deadline_us) := options in
  match rest with
  | [] => if nx && get then inl kSyntaxError else inr options
  | arg :: rest1 =>
      let option := ToUpperAscii arg in
      if decide (option = "NX") then
        if nx || xx then inl kSyntaxError
        else ParseSetOptions_loop rest1 now_us
               (mkSetOptions true xx get keep_ttl deadline_us) has_expiration_option
      else if decide (option = "XX") then
        if nx || xx then inl kSyntaxError
        else ParseSetOptions_loop rest1 now_us
               (mkSetOptions nx true get keep_ttl deadline_us) has_expiration_option
      else if decide (option = "GET") then
        if get then inl kSyntaxError
        else ParseSetOptions_loop rest1 now_us
               (mkSetOptions nx xx true keep_ttl deadline_us) has_expiration_option
      else if decide (option = "KEEPTTL") then
        if has_expiration_option then inl kSyntaxError
        else ParseSetOptions_loop rest1 now_us
               (mkSetOptions nx xx get true deadline_us) true
      else if bool_decide (option = "EX") || bool_decide (option = "PX") ||
              bool_decide (option = "EXAT") || bool_decide (option = "PXAT") then
        match has_expiration_option, rest1 with
        | true, _ | _, [] => inl kSyntaxError
        | false, text :: rest2 =>
            match ParsePositiveExpiration text with
            | None => inl kInvalidExpireError
            | Some amount =>
                match ComputeDeadline option amount now_us with
                | None => inl kInvalidExpireError
                | Some deadline =>
                    ParseSetOptions_loop rest2 now_us
                      (mkSetOptions nx xx get keep_ttl deadline) true
                end
            end
        end
      else inl kSyntaxError
  end.

Definition ParseSetOptions (args : list string) (now_us : Z) : string + SetOptions :=
  ParseSetOptions_loop (drop 3 args) now_us SetOptions_default false.

(** The variables the mutators of this file capture. *)
Record set_flags := mkSetFlags {
  sf_wrong_type : bool;
  sf_wrote : bool;
  sf_condition_failed : bool;
  sf_old_value : option string;
}.

Record int_flags := mkIntFlags {
  if_wrong_type : bool;
  if_invalid_integer : bool;
  if_overflow : bool;
  if_next_value : Z;
}.

Section string_cmd.
Context {IC : ImmutableContainer}.

Definition ReadStringObject (object : option RedisObject) : StringRead :=
  match object with
  | None => mkStringRead kMissing "" 0
  | Some o =>
      match type_ o, StringValue o with
      | kString, Some value => mkStringRead kOkRead (ToString value) (deadline_us_ o)
      | _, _ => mkStringRead kWrongTypeRead "" (deadline_us_ o)
      end
  end.

Definition ReadString (key : string) (now_us : Z) : engineM StringRead :=
  o ← engine_Get key now_us; mret (ReadStringObject o).

Definition ApplyStringDeadline (object : RedisObject) (deadline_us : Z)
    (keep_ttl : bool) (existing_deadline : Z) : RedisObject :=
  if negb (deadline_us =? 0) then WithDeadline object deadline_us
  else if keep_ttl && negb (existing_deadline =? 0)
       then WithDeadline object existing_deadline
       else ClearDeadline object.

(** ** The mutators *)

Definition integer_updater (operand : Z) (mode : IntegerMutationMode)
    (existing : option RedisObject) : option RedisObject * int_flags :=
  let continue_ (current deadline_us : Z) :=
    let result :=
      match mode with
      | kAdd => CheckedAddInt64 current operand
      | kSubtract => CheckedSubtractInt64 current operand
      end in
    match result with
    | None => (None, mkIntFlags false false true 0)
    | Some next_value =>
        let object := MakeString (to_string next_value) in
        (Some (if negb (deadline_us =? 0) then WithDeadline object deadline_us else object),
         mkIntFlags false false false next_value)
    end in
  match existing with
  | None => continue_ 0 0
  | Some _ =>
      let read := ReadStringObject existing in
      match sr_status read with
      | kWrongTypeRead => (None, mkIntFlags true false false 0)
      | _ =>
          match ParseInt64 (sr_value read) with
          | None => (None, mkIntFlags false true false 0)
          | Some current => continue_ current (sr_deadline_us read)
          end
      end
  end.

Definition integer_reply (f : int_flags) : Response :=
  if if_wrong_type f then Error kWrongTypeError
  else if if_invalid_integer f then Error kIntegerError
  else if if_overflow f then Error kOverflowError
  else Integer (if_next_value f).

Definition ExecIntegerMutation (args : list string) (now_us operand : Z)
    (mode : IntegerMutationMode) : engineM Response :=
  key ← arg args 1;
  name ← arg args 0;
  '(_, flags) ← engine_Update key (integer_updater operand mode)
                  (MakeRecord name args) now_us;
  mret (integer_reply flags).

Definition set_updater (options : SetOptions) (value : string)
    (existing : option RedisObject) : option RedisObject * set_flags :=
  let exists_ := has_value existing in
  let continue_ (old_value : option string) :=
    if (opt_nx options && exists_) || (opt_xx options && negb exists_)
    then (None, mkSetFlags false false true old_value)
    else
      let existing_deadline :=
        match existing with Some o => deadline_us_ o | None => 0 end in
      (Some (ApplyStringDeadline (MakeString value) (opt_deadline_us options)
               (opt_keep_ttl options) existing_deadline),
       mkSetFlags false true false old_value) in
  if opt_get options && exists_ then
    let read := ReadStringObject existing in
    match sr_status read with
    | kWrongTypeRead => (None, mkSetFlags true false false None)
    | _ => continue_ (Some (sr_value read))
    end
  else continue_ None.

Definition set_reply (options : SetOptions) (f : set_flags) : Response :=
  if sf_wrong_type f then Error kWrongTypeError
  else if opt_get options then
    match sf_condition_failed f, sf_old_value f with
    | false, Some old_value => BulkString old_value
    | _, _ => NullBulk
    end
  else if negb (sf_wrote f) then NullBulk
  else SimpleString "OK".

Definition SetCmd : RedisCmd := {|
  CheckArity args := CheckMinArity args 3 "set";
  ExecCmd _ args now_us :=
    match ParseSetOptions args now_us with
    | inl error => mret (Error error)
    | inr options =>
        key ← arg args 1;
        value ← arg args 2;
        '(_, flags) ← engine_Update key (set_updater options value)
                        (MakeRecord "SET" args) now_us;
        mret (set_reply options flags)
    end;
|}.

Definition GetCmd : RedisCmd := {|
  CheckArity args := CheckExactArity args 2 "get";
  ExecCmd _ args now_us :=
    key ← arg args 1;
    read ← ReadString key now_us;
    match sr_status read with
    | kMissing => mret NullBulk
    | kWrongTypeRead => mret (Error kWrongTypeError)
    | kOkRead => mret (BulkString (sr_value read))
    end;
|}.

Definition mget_loop (now_us : Z) (elements : list Response) (key : string)
    : engineM (list Response) :=
  read ← ReadString key now_us;
  mret (elements ++ [match sr_status read with
                     | kOkRead => BulkString (sr_value read)
                     | _ => NullBulk
                     end]).

Definition MGetCmd : RedisCmd := {|
  CheckArity args := CheckMinArity args 2 "mget";
  ExecCmd _ args now_us :=
    elements ← foldM (mget_loop now_us) [] (drop 1 args);
    mret (Array elements);
|}.

Definition setnx_updater (value : string) (existing : option RedisObject)
    : option RedisObject * bool :=
  match existing with
  | Some _ => (None, false)
  | None => (Some (MakeString value), true)
  end.

Definition SetNxCmd : RedisCmd := {|
  CheckArity args := CheckExactArity args 3 "setnx";
  ExecCmd _ args now_us :=
    key ← arg args 1;
    value ← arg args 2;
    '(_, set) ← engine_Update key (setnx_updater value) (MakeRecord "SETNX" args) now_us;
    mret (flag_reply set);
|}.

(** The flags of GETSET: [wrong_type] and [old_value]. *)
Definition getset_updater (value : string) (existing : option RedisObject)
    : option RedisObject * (bool * option string) :=
  match existing with
  | None => (Some (MakeString value), (false, None))
  | Some _ =>
      let read := ReadStringObject existing in
      match sr_status read with
      | kWrongTypeRead => (None, (true, None))
      | _ => (Some (MakeString value), (false, Some (sr_value read)))
      end
  end.

Definition getset_reply (f : bool * option string) : Response :=
  if f.1 then Error kWrongTypeError else bulk_or_null f.2.

Definition GetSetCmd : RedisCmd := {|
  CheckArity args := CheckExactArity args 3 "getset";
  ExecCmd _ args now_us :=
    key ← arg args 1;
    value ← arg args 2;
    '(_, flags) ← engine_Update key (getset_updater value) (MakeRecord "GETSET" args) now_us;
    mret (getset_reply flags);
|}.

Definition StrLenCmd : RedisCmd := {|
  CheckArity args := CheckExactArity args 2 "strlen";
  ExecCmd _ args now_us :=
    key ← arg args 1;
    read ← ReadString key now_us;
    match sr_status read with
    | kMissing => mret (Integer 0)
    | kWrongTypeRead => mret (Error kWrongTypeError)
    | kOkRead => mret (Integer (size_of (sr_value read)))
    end;
|}.

(** The flags of APPEND: [wrong_type] and [length]. *)
Definition append_updater (value : string) (existing : option RedisObject)
    : option RedisObject * (bool * Z) :=
  let continue_ (current : string) (deadline_us : Z) :=
    let next := String.append current value in
    let object := MakeString next in
    (Some (if negb (deadline_us =? 0) then WithDeadline object deadline_us else object),
     (false, size_of next)) in
  match existing with
  | None => continue_ "" 0
  | Some _ =>
      let read := ReadStringObject existing in
      match sr_status read with
      | kWrongTypeRead => (None, (true, 0))
      | _ => continue_ (sr_value read) (sr_deadline_us read)
      end
  end.

Definition count_reply (f : bool * Z) : Response :=
  if f.1 then Error kWrongTypeError else Integer f.2.

Definition AppendCmd : RedisCmd := {|
  CheckArity args := CheckExactArity args 3 "append";
  ExecCmd _ args now_us :=
    key ← arg args 1;
    value ← arg args 2;
    '(_, flags) ← engine_Update key (append_updater value) (MakeRecord "APPEND" args) now_us;
    mret (count_reply flags);
|}.

Definition IncrCmd : RedisCmd := {|
  CheckArity args := CheckExactArity args 2 "incr";
  ExecCmd _ args now_us := ExecIntegerMutation args now_us 1 kAdd;
|}.

Definition DecrCmd : RedisCmd := {|
  CheckArity args := CheckExactArity args 2 "decr";
  ExecCmd _ args now_us := ExecIntegerMutation args now_us 1 kSubtract;
|}.

Definition exec_by (mode : IntegerMutationMode) (args : list string) (now_us : Z)
    : engineM Response :=
  text ← arg args 2;
  match ParseInt64 text with
  | None => mret (Error kIntegerError)
  | Some amount => ExecIntegerMutation args now_us amount mode
  end.

Definition IncrByCmd : RedisCmd := {|
  CheckArity args := CheckExactArity args 3 "incrby";
  ExecCmd _ args now_us := exec_by kAdd args now_us;
|}.

Definition DecrByCmd : RedisCmd := {|
  CheckArity args := CheckExactArity args 3 "decrby";
  ExecCmd _ args now_us := exec_by kSubtract args now_us;
|}.

(** ** Specifications *)

(** A counter: the stored integer (0 when the key is missing) becomes
    [f n], when that fits in 64 bits. *)
Definition integer_spec (largs : list string) (f : Z → Z) (o : option aobj)
    : effect * Response :=
  let apply (n d : Z) :=
    if decide (is_i64 (f n))
    then (store (AString (to_string (f n))) d largs, Integer (f n))
    else (Keep, Error kOverflowError) in
  match view_string o with
  | VWrong => (Keep, Error kWrongTypeError)
  | VMissing => apply 0 0
  | VHas s d => match ParseInt64 s with
                | None => (Keep, Error kIntegerError)
                | Some n => apply n d
                end
  end.

Definition by_spec (largs : list string) (text : string) (f : Z → Z → Z)
    (o : option aobj) : effect * Response :=
  match ParseInt64 text with
  | None => (Keep, Error kIntegerError)
  | Some amount => integer_spec largs (λ n, f n amount) o
  end.

(** SET with parsed options. *)
Definition set_options_spec (largs : list string) (value : string) (options : SetOptions)
    (o : option aobj) : effect * Response :=
  let exists_ := has_value o in
  let deadline :=
    if negb (opt_deadline_us options =? 0) then opt_deadline_us options
    else if opt_keep_ttl options then from_option a_deadline 0 o else 0 in
  let refused := (opt_nx options && exists_) || (opt_xx options && negb exists_) in
  let eff := if refused then Keep else store (AString value) deadline largs in
  if opt_get options then
    match view_string o with
    | VWrong => (Keep, Error kWrongTypeError)
    | VMissing => (eff, NullBulk)
    | VHas old _ => (eff, if refused then NullBulk else BulkString old)
    end
  else (eff, if refused then NullBulk else SimpleString "OK").

Definition set_spec (now_us : Z) (key value : string) (opts : list string)
    (o : option aobj) : effect * Response :=
  match ParseSetOptions_loop opts now_us SetOptions_default false with
  | inl error => (Keep, Error error)
  | inr options => set_options_spec ("SET" :: key :: value :: opts) value options o
  end.

Definition setnx_spec (key value : string) (o : option aobj) : effect * Response :=
  match o with
  | Some _ => (Keep, Integer 0)
  | None => (store (AString value) 0 ["SETNX"; key; value], Integer 1)
  end.

Definition getset_spec (key value : string) (o : option aobj) : effect * Response :=
  let eff := store (AString value) 0 ["GETSET"; key; value] in
  match view_string o with
  | VWrong => (Keep, Error kWrongTypeError)
  | VMissing => (eff, NullBulk)
  | VHas old _ => (eff, BulkString old)
  end.

Definition append_spec (key value : string) (o : option aobj) : effect * Response :=
  let apply (s : string) (d : Z) :=
    let next := String.append s value in
    (store (AString next) d ["APPEND"; key; value], Integer (size_of next)) in
  match view_string o with
  | VWrong => (Keep, Error kWrongTypeError)
  | VMissing => apply "" 0
  | VHas s d => apply s d
  end.

(** GET, STRLEN and MGET answer from the view. *)
Definition get_spec (o : option aobj) : Response :=
  match view_string o with
  | VMissing => NullBulk | VWrong => Error kWrongTypeError | VHas s _ => BulkString s
  end.
Definition strlen_spec (o : option aobj) : Response :=
  match view_string o with
  | VMissing => Integer 0 | VWrong => Error kWrongTypeError | VHas s _ => Integer (size_of s)
  end.
Definition mget_spec (o : option aobj) : Response :=
  match view_string o with VHas s _ => BulkString s | _ => NullBulk end.

(** ** Checked arithmetic is exact *)

Lemma CheckedAddInt64_spec x y :
  is_i64 x → is_i64 y →
  CheckedAddInt64 x y = if decide (is_i64 (x + y)) then Some (x + y) else None.
Proof.
  unfold CheckedAddInt64, is_i64, INT64_MAX, INT64_MIN. intros Hx Hy.
  case_decide; repeat case_match; bool_prop; try done; lia.
Qed.

Lemma CheckedSubtractInt64_spec x y :
  is_i64 x → is_i64 y →
  CheckedSubtractInt64 x y = if decide (is_i64 (x - y)) then Some (x - y) else None.
Proof.
  unfold CheckedSubtractInt64, is_i64, INT64_MAX, INT64_MIN. intros Hx Hy.
  case_decide; repeat case_match; bool_prop; try done; lia.
Qed.

Lemma CheckedMultiply_spec x m :
  is_u64 x → 0 < m <= UINT64_MAX →
  CheckedMultiply x m = if decide (is_u64 (x * m)) then Some (x * m) else None.
Proof.
  unfold CheckedMultiply. intros Hx Hm. destruct (_ >? _) eqn:E; bool_prop.
  - rewrite decide_False; [done|]. intros Hf.
    pose proof (Z.mul_succ_div_gt UINT64_MAX m). unfold is_u64 in *. nia.
  - assert (is_u64 (x * m)) as Hf.
    { pose proof (Z.mul_div_le UINT64_MAX m). unfold is_u64 in *. nia. }
    by rewrite decide_True, u64_small.
Qed.

Lemma CheckedAdd_spec x y :
  is_u64 x → is_u64 y →
  CheckedAdd x y = if decide (is_u64 (x + y)) then Some (x + y) else None.
Proof.
  unfold CheckedAdd. intros Hx Hy.
  rewrite (u64_small (UINT64_MAX - x)) by (unfold is_u64, UINT64_MAX in *; lia).
  destruct (_ >? _) eqn:E; bool_prop.
  - rewrite decide_False; [done|]. unfold is_u64 in *. lia.
  - assert (is_u64 (x + y)) as Hf by (unfold is_u64 in *; lia).
    by rewrite decide_True, u64_small.
Qed.

(** ** Every mutator implements its specification *)

Lemma update_string_ok s d :
  is_u64 d → object_ok (if negb (d =? 0) then WithDeadline (MakeString s) d else MakeString s).
Proof. intros Hd. rewrite preserve_deadline by done. by apply WithDeadline_ok. Qed.

Definition mode_fun (mode : IntegerMutationMode) (x y : Z) : Z :=
  match mode with kAdd => x + y | kSubtract => x - y end.

Lemma checked_spec mode x y :
  is_i64 x → is_i64 y →
  match mode with
  | kAdd => CheckedAddInt64 x y
  | kSubtract => CheckedSubtractInt64 x y
  end = if decide (is_i64 (mode_fun mode x y)) then Some (mode_fun mode x y) else None.
Proof.
  intros Hx Hy. destruct mode; [by apply CheckedAddInt64_spec|by apply CheckedSubtractInt64_spec].
Qed.

Context {CL : ContainerLaws IC}.

Lemma integer_updater_ok key record mode operand :
  is_i64 operand → rec_args record !! 1%nat = Some key →
  mutator_ok key record (updater_mutator (integer_updater operand mode)) integer_reply
    (integer_spec (rec_args record) (λ n, mode_fun mode n operand)).
Proof.
  intros Hop Hkey. obj_cases; effect_simpl; unfold integer_updater, integer_spec; cbn.
  - destruct (ParseInt64 (ToString v)) as [n|] eqn:E; cbn; [|by repeat split].
    apply ParseInt64_range in E. rewrite checked_spec by done.
    case_decide; cbn; [|by repeat split].
    rewrite preserve_deadline by done. autorewrite with cache. split; [done|].
    split; [|done]. intros x [= <-]. by apply WithDeadline_ok.
  - by repeat split.
  - by repeat split.
  - by repeat split.
  - rewrite checked_spec by done. case_decide; cbn; [|by repeat split].
    autorewrite with cache. split; [done|]. split; [|done]. intros x [= <-]. done.
Qed.

Lemma integer_implements name rest key mode operand now_us :
  is_i64 operand →
  implements (ExecIntegerMutation (name :: key :: rest) now_us operand mode) key now_us
    (integer_spec (ToUpperAscii name :: key :: rest) (λ n, mode_fun mode n operand)).
Proof.
  intros Hop. unfold ExecIntegerMutation, arg. cbn.
  apply (implements_Update key (MakeRecord name (name :: key :: rest))
           (integer_updater operand mode)).
  by apply integer_updater_ok.
Qed.

Lemma ApplyStringDeadline_abs value d keep d' :
  abs_object (ApplyStringDeadline (MakeString value) d keep d') =
  mkAObj (if negb (d =? 0) then d else if keep then d' else 0) (AString value).
Proof.
  unfold ApplyStringDeadline, abs_object.
  destruct (d =? 0), keep; cbn; try by rewrite ToString_pack.
  destruct (d' =? 0) eqn:E; cbn; rewrite ToString_pack; bool_prop; by subst.
Qed.

Lemma ApplyStringDeadline_ok value d keep d' :
  is_u64 d → is_u64 d' → object_ok (ApplyStringDeadline (MakeString value) d keep d').
Proof.
  intros Hd Hd'. unfold ApplyStringDeadline. repeat case_match; try by apply WithDeadline_ok.
Qed.

Lemma set_updater_ok key value options record :
  is_u64 (opt_deadline_us options) → rec_args record !! 1%nat = Some key →
  mutator_ok key record (updater_mutator (set_updater options value)) (set_reply options)
    (set_options_spec (rec_args record) value options).
Proof.
  intros Hopt Hkey. destruct options as [nx xx get keep dl].
  obj_cases; effect_simpl; unfold set_updater, set_options_spec, set_reply;
    cbn in *; destruct get; cbn; rewrite ?andb_true_r, ?andb_false_r, ?orb_false_r; cbn;
    try (by repeat split); destruct nx, xx; cbn; try (by repeat split);
    rewrite ?ApplyStringDeadline_abs;
    (split; [done|split; [|done]]); intros x [= <-]; by apply ApplyStringDeadline_ok.
Qed.

Lemma CheckedMultiply_u64 x m d : CheckedMultiply x m = Some d → is_u64 d.
Proof. unfold CheckedMultiply. case_match; [done|]. intros [= <-]. apply u64_range. Qed.
Lemma CheckedAdd_u64 x y d : CheckedAdd x y = Some d → is_u64 d.
Proof. unfold CheckedAdd. case_match; [done|]. intros [= <-]. apply u64_range. Qed.

Lemma ComputeDeadline_u64 option amount now_us d :
  ComputeDeadline option amount now_us = Some d → is_u64 d.
Proof.
  unfold ComputeDeadline. repeat case_decide.
  - intros (x & _ & Hd)%bind_Some. by eapply CheckedAdd_u64.
  - intros (x & _ & Hd)%bind_Some. by eapply CheckedAdd_u64.
  - apply CheckedMultiply_u64.
  - apply CheckedMultiply_u64.
Qed.

Lemma ParseSetOptions_loop_u64 opts now_us o b o' :
  is_u64 (opt_deadline_us o) → ParseSetOptions_loop opts now_us o b = inr o' →
  is_u64 (opt_deadline_us o').
Proof.
  revert o b. induction opts as [opts IH] using (induction_ltof1 _ length).
  unfold ltof in IH. intros [nx xx get keep d] b Hd.
  destruct opts as [|x opts]; cbn.
  { case_match; [done|]. by intros [= <-]. }
  repeat (case_decide; [case_match; [done|]; apply IH; cbn; done || lia|]).
  case_match; [|done]. case_match; [done|]. case_match; [done|].
  case_match; [|done]. case_match; [|done].
  apply IH; [subst; cbn; lia|]. cbn. by eapply ComputeDeadline_u64.
Qed.

Lemma Set_implements rnd name key value opts now_us :
  implements (ExecCmd SetCmd rnd (name :: key :: value :: opts) now_us) key now_us
    (set_spec now_us key value opts).
Proof.
  cbn. unfold ParseSetOptions, set_spec, arg. cbn. rewrite skipn_0.
  destruct (ParseSetOptions_loop _ _ _ _) as [error|options] eqn:E.
  - by apply implements_ret.
  - apply (implements_Update key (MakeRecord "SET" (name :: key :: value :: opts))
             (set_updater options value)).
    apply set_updater_ok; [|done]. by eapply (ParseSetOptions_loop_u64 _ _ SetOptions_default) in E.
Qed.

Lemma SetNx_implements rnd name key value now_us :
  implements (ExecCmd SetNxCmd rnd [name; key; value] now_us) key now_us
    (setnx_spec key value).
Proof.
  cbn. unfold arg. cbn.
  apply (implements_Update key (MakeRecord "SETNX" [name; key; value]) (setnx_updater value)).
  obj_cases; effect_simpl; try (by repeat split).
  split; [done|]. split; [|done]. intros x [= <-]. done.
Qed.

Lemma GetSet_implements rnd name key value now_us :
  implements (ExecCmd GetSetCmd rnd [name; key; value] now_us) key now_us
    (getset_spec key value).
Proof.
  cbn. unfold arg. cbn.
  apply (implements_Update key (MakeRecord "GETSET" [name; key; value]) (getset_updater value)).
  obj_cases; unfold getset_spec; effect_simpl; try (by repeat split);
    (split; [done|]); (split; [|done]); intros x [= <-]; done.
Qed.

Lemma Append_implements rnd name key value now_us :
  implements (ExecCmd AppendCmd rnd [name; key; value] now_us) key now_us
    (append_spec key value).
Proof.
  cbn. unfold arg. cbn.
  apply (implements_Update key (MakeRecord "APPEND" [name; key; value]) (append_updater value)).
  obj_cases; unfold append_spec, append_updater; effect_simpl; try (by repeat split);
    rewrite ?preserve_deadline by done; autorewrite with cache;
    (split; [done|]); (split; [|done]); intros x [= <-]; [|done].
  by apply WithDeadline_ok.
Qed.

Lemma exec_by_implements name key text mode now_us :
  implements (exec_by mode [name; key; text] now_us) key now_us
    (by_spec [ToUpperAscii name; key; text] text (mode_fun mode)).
Proof.
  unfold exec_by, by_spec, arg. cbn. destruct (ParseInt64 text) as [n|] eqn:E.
  - intros e He. unfold mbind, stM_bind, liftM. cbn. rewrite E.
    apply integer_implements; [by eapply ParseInt64_range|done].
  - intros e He. unfold mbind, stM_bind, liftM. cbn. rewrite E. by exists e.
Qed.

(** The deadline an expiration option stands for, over the integers. *)
Definition deadline_of (option : string) (amount now_us : Z) : Z :=
  if decide (option = "EX") then now_us + amount * 1000000
  else if decide (option = "PX") then now_us + amount * 1000
  else if decide (option = "EXAT") then amount * 1000000
  else amount * 1000.

Lemma ComputeDeadline_exact option amount now_us :
  is_u64 amount → is_u64 now_us →
  ComputeDeadline option amount now_us =
  if decide (is_u64 (deadline_of option amount now_us))
  then Some (deadline_of option amount now_us) else None.
Proof.
  intros Ha Hn.
  assert (∀ m, 0 < m <= 1000000 →
    (d ← CheckedMultiply amount m; CheckedAdd now_us d) =
    if decide (is_u64 (now_us + amount * m)) then Some (now_us + amount * m) else None) as Hrel.
  { intros m Hm. rewrite CheckedMultiply_spec by (done || (unfold UINT64_MAX; lia)).
    case_decide as H1; cbn; [by rewrite CheckedAdd_spec|].
    rewrite decide_False; [done|]. unfold is_u64 in *. nia. }
  unfold ComputeDeadline, deadline_of.
  destruct (decide (option = "EX")); [by apply Hrel|].
  destruct (decide (option = "PX")); [by apply Hrel|].
  by destruct (decide (option = "EXAT")); apply CheckedMultiply_spec.
Qed.

(** *** Reads *)

Lemma ReadString_view e key now_us :
  engine_ok e →
  ∃ read, ReadString key now_us e = Some (read, e) ∧
    match view_string (engine_live e now_us key) with
    | VMissing => sr_status read = kMissing
    | VWrong => sr_status read = kWrongTypeRead
    | VHas s _ => sr_status read = kOkRead ∧ sr_value read = s
    end.
Proof.
  intros He. eexists. unfold ReadString, mbind, stM_bind.
  rewrite engine_Get_run by apply He. split; [done|].
  unfold engine_live. rewrite <-Get_live.
  pose proof (Get_opt_ok e key now_us He) as Hok. revert Hok.
  generalize (Get (slot_of e key) key now_us). by obj_cases.
Qed.

Lemma Get_run rnd name key now_us e :
  engine_ok e →
  ExecCmd GetCmd rnd [name; key] now_us e = Some (get_spec (engine_live e now_us key), e).
Proof.
  intros He. destruct (ReadString_view e key now_us He) as (read & E & H).
  cbn. unfold mbind, stM_bind, arg, liftM. cbn. rewrite E. unfold get_spec.
  destruct (view_string _); [by rewrite H|by rewrite H|by destruct H as [-> ->]].
Qed.

Lemma StrLen_run rnd name key now_us e :
  engine_ok e →
  ExecCmd StrLenCmd rnd [name; key] now_us e = Some (strlen_spec (engine_live e now_us key), e).
Proof.
  intros He. destruct (ReadString_view e key now_us He) as (read & E & H).
  cbn. unfold mbind, stM_bind, arg, liftM. cbn. rewrite E. unfold strlen_spec.
  destruct (view_string _); [by rewrite H|by rewrite H|by destruct H as [-> ->]].
Qed.

Lemma MGet_run rnd name keys now_us e :
  engine_ok e →
  ExecCmd MGetCmd rnd (name :: keys) now_us e =
  Some (Array ((λ k, mget_spec (engine_live e now_us k)) <$> keys), e).
Proof.
  intros He. cbn. unfold mbind at 1, stM_bind at 1. rewrite skipn_0.
  rewrite (foldM_read (mget_loop now_us)
    (λ l k, l ++ [mget_spec (engine_live e now_us k)])).
  2:{ intros l k. destruct (ReadString_view e k now_us He) as (read & E & H).
      unfold mget_loop, mbind, stM_bind. rewrite E. unfold mget_spec.
      destruct (view_string _); [by rewrite H|by rewrite H|by destruct H as [-> ->]]. }
  by rewrite foldl_snoc_fmap.
Qed.
End string_cmd.
