(* ===== verification/HashCmd.v ===== *)
(** * Hash commands: src/command/hash_cmd

    HSET, HMSET, HGET, HMGET, HDEL, HEXISTS, HLEN, HSTRLEN, HGETALL, HKEYS,
    HVALS and HINCRBY. On the abstract cache a hash is a finite map from byte
    strings to byte strings, and the counts the commands answer are
    differences of its size. *)

From S2P Require Import Prelude Text Containers Double RedisObject Binlog HashSlot Engine Response Command KeyCmd StringCmd.

Definition CheckFieldValueArity (args : list string) (command : string) : option string :=
  arity_check (λ n, (n <? 4)%nat || negb (n mod 2 =? 0)%nat) command args.

Definition AddWouldOverflow (value increment : Z) : bool :=
  if increment >? 0 then value >? INT64_MAX - increment
  else if increment <? 0 then value <? INT64_MIN - increment
  else false.

(** The reads [args[index], args[index + 1]] of a loop in steps of two;
    [None] when the last one is past the end. *)
Fixpoint field_value_pairs (rest : list string) : option (list (string * string)) :=
  match rest with
  | [] => Some []
  | [_] => None
  | field :: value :: rest' => cons (field, value) <$> field_value_pairs rest'
  end.

Section hash_cmd.
Context {IC : ImmutableContainer}.

(** [MakeRecord(args, command)] of hash_cmd.cpp. *)
Definition HashMakeRecord (args : list string) (command : string) : BinlogRecord :=
  record_of_args (command :: drop 1 args).

Definition HashObjectWithDeadline (hash : HashValue) (deadline_us : Z) : RedisObject :=
  let obj := MakeHash hash in
  if negb (deadline_us =? 0) then WithDeadline obj deadline_us else obj.

#[local] Arguments HashObjectWithDeadline _ _ : simpl never.

(** The hash, if there is one, and the flag [wrong_type]. *)
Definition HashOrWrongType (obj : option RedisObject) : option HashValue * bool :=
  match obj with
  | None => (None, false)
  | Some o =>
      match type_ o with
      | kHash => match Hash o with Some h => (Some h, false) | None => (None, true) end
      | _ => (None, true)
      end
  end.

(** The body and the loop of [ApplyFieldValuePairs]. *)
Definition hset_step (acc : Z * HashValue) (pair : string * string) : Z * HashValue :=
  let '(added, hash) := acc in
  let field := pack pair.1 in
  (if has_value (map_Find hash field) then added else added + 1,
   map_Set hash field (pack pair.2)).

Definition ApplyFieldValuePairs (pairs : list (string * string)) (hash : HashValue)
    : Z * HashValue := foldl hset_step (0, hash) pairs.

(** The flags of HSET and HMSET: [wrong_type] and [added]. *)
Definition hset_updater (pairs : list (string * string)) (existing : option RedisObject)
    : option RedisObject * (bool * Z) :=
  let continue_ (hash : HashValue) (deadline_us : Z) :=
    let '(added, hash') := ApplyFieldValuePairs pairs hash in
    (Some (HashObjectWithDeadline hash' deadline_us), (false, added)) in
  match existing with
  | None => continue_ map_new 0
  | Some o =>
      match type_ o, Hash o with
      | kHash, Some h => continue_ h (deadline_us_ o)
      | _, _ => (None, (true, 0))
      end
  end.

Definition HSetCmd : RedisCmd := {|
  CheckArity args := CheckFieldValueArity args "hset";
  ExecCmd _ args now_us :=
    key ← arg args 1;
    pairs ← liftM (field_value_pairs (drop 2 args));
    '(_, flags) ← engine_Update key (hset_updater pairs) (HashMakeRecord args "HSET") now_us;
    mret (count_reply flags);
|}.

Definition hmset_reply (flags : bool * Z) : Response :=
  if flags.1 then Error kWrongTypeError else SimpleString "OK".

Definition HMSetCmd : RedisCmd := {|
  CheckArity args := CheckFieldValueArity args "hmset";
  ExecCmd _ args now_us :=
    key ← arg args 1;
    pairs ← liftM (field_value_pairs (drop 2 args));
    '(_, flags) ← engine_Update key (hset_updater pairs) (HashMakeRecord args "HMSET") now_us;
    mret (hmset_reply flags);
|}.

(** The loop of HDEL. *)
Definition hdel_step (acc : Z * HashValue) (field : string) : Z * HashValue :=
  let '(removed, hash) := acc in
  match map_Find hash (pack field) with
  | None => acc
  | Some _ =>
      match map_Erase hash (pack field) with
      | None => acc
      | Some next => (removed + 1, next)
      end
  end.

(** The flags of HDEL: [wrong_type] and [removed]. *)
Definition hdel_mutator (fields : list string) (existing : option RedisObject)
    : MutationResult * (bool * Z) :=
  match existing with
  | None => (mkMutationResult false None None, (false, 0))
  | Some o =>
      match type_ o, Hash o with
      | kHash, Some h =>
          let '(removed, hash) := foldl hdel_step (0, h) fields in
          (if removed =? 0 then mkMutationResult false None None
           else if map_Empty hash then mkMutationResult true None None
           else mkMutationResult true
                  (Some (HashObjectWithDeadline hash (deadline_us_ o))) None,
           (false, removed))
      | _, _ => (mkMutationResult false None None, (true, 0))
      end
  end.

Definition HDelCmd : RedisCmd := {|
  CheckArity args := CheckMinArity args 3 "hdel";
  ExecCmd _ args now_us :=
    key ← arg args 1;
    '(_, flags) ← engine_Mutate key (hdel_mutator (drop 2 args))
                    (HashMakeRecord args "HDEL") now_us;
    mret (count_reply flags);
|}.

(** How every read command starts: the error reply or the hash. *)
Definition with_hash (key : string) (now_us : Z)
    (reader : option HashValue → engineM Response) : engineM Response :=
  obj ← engine_Get key now_us;
  let '(hash, wrong_type) := HashOrWrongType obj in
  if wrong_type : bool then mret (Error kWrongTypeError) else reader hash.

Definition find_in (hash : option HashValue) (field : string) : option PackedString :=
  h ← hash; map_Find h (pack field).

Definition HGetCmd : RedisCmd := {|
  CheckArity args := CheckExactArity args 3 "hget";
  ExecCmd _ args now_us :=
    key ← arg args 1;
    with_hash key now_us (λ hash,
      match hash with
      | None => mret NullBulk
      | Some h =>
          field ← arg args 2;
          mret (bulk_or_null (ToString <$> map_Find h (pack field)))
      end);
|}.

Definition HExistsCmd : RedisCmd := {|
  CheckArity args := CheckExactArity args 3 "hexists";
  ExecCmd _ args now_us :=
    key ← arg args 1;
    with_hash key now_us (λ hash,
      field ← arg args 2;
      mret (flag_reply (has_value (find_in hash field))));
|}.

Definition HLenCmd : RedisCmd := {|
  CheckArity args := CheckExactArity args 2 "hlen";
  ExecCmd _ args now_us :=
    key ← arg args 1;
    with_hash key now_us (λ hash, mret (Integer (from_option map_Size 0 hash)));
|}.

Definition HStrLenCmd : RedisCmd := {|
  CheckArity args := CheckExactArity args 3 "hstrlen";
  ExecCmd _ args now_us :=
    key ← arg args 1;
    with_hash key now_us (λ hash,
      match hash with
      | None => mret (Integer 0)
      | Some h =>
          field ← arg args 2;
          mret (Integer (from_option PackedSize 0 (map_Find h (pack field))))
      end);
|}.

Definition HMGetCmd : RedisCmd := {|
  CheckArity args := CheckMinArity args 3 "hmget";
  ExecCmd _ args now_us :=
    key ← arg args 1;
    with_hash key now_us (λ hash,
      mret (Array ((λ field, bulk_or_null (ToString <$> find_in hash field))
                     <$> drop 2 args)));
|}.

(** The pairs [ForEach] visits, in its order. *)
Definition entries_of (hash : option HashValue) : list (PackedString * PackedString) :=
  from_option map_ForEach [] hash.

Definition HGetAllCmd : RedisCmd := {|
  CheckArity args := CheckExactArity args 2 "hgetall";
  ExecCmd _ args now_us :=
    key ← arg args 1;
    with_hash key now_us (λ hash,
      mret (Array (entries_of hash ≫=
        λ '(field, value), [BulkString (ToString field); BulkString (ToString value)])));
|}.

Definition HKeysCmd : RedisCmd := {|
  CheckArity args := CheckExactArity args 2 "hkeys";
  ExecCmd _ args now_us :=
    key ← arg args 1;
    with_hash key now_us (λ hash,
      mret (Array ((λ '(field, _), BulkString (ToString field)) <$> entries_of hash)));
|}.

Definition HValsCmd : RedisCmd := {|
  CheckArity args := CheckExactArity args 2 "hvals";
  ExecCmd _ args now_us :=
    key ← arg args 1;
    with_hash key now_us (λ hash,
      mret (Array ((λ '(_, value), BulkString (ToString value)) <$> entries_of hash)));
|}.

(** The end of the mutator of HINCRBY, on the hash found or a new one. *)
Definition hincrby_apply (field : string) (increment : Z) (hash : HashValue)
    (deadline_us : Z) : option RedisObject * int_flags :=
  let field := pack field in
  let parsed :=
    match map_Find hash field with
    | None => Some 0
    | Some found => ParseInt64 (ToString found)
    end in
  match parsed with
  | None => (None, mkIntFlags false true false 0)
  | Some current =>
      if AddWouldOverflow current increment then (None, mkIntFlags false false true 0)
      else
        let result := current + increment in
        (Some (HashObjectWithDeadline (map_Set hash field (pack (to_string result)))
                 deadline_us),
         mkIntFlags false false false result)
  end.

Definition hincrby_updater (field : string) (increment : Z) (existing : option RedisObject)
    : option RedisObject * int_flags :=
  match existing with
  | None => hincrby_apply field increment map_new 0
  | Some o =>
      match type_ o, Hash o with
      | kHash, Some h => hincrby_apply field increment h (deadline_us_ o)
      | _, _ => (None, mkIntFlags true false false 0)
      end
  end.

Definition HIncrByCmd : RedisCmd := {|
  CheckArity args := CheckExactArity args 4 "hincrby";
  ExecCmd _ args now_us :=
    text ← arg args 3;
    match ParseInt64 text with
    | None => mret (Error kIntegerError)
    | Some increment =>
        key ← arg args 1;
        field ← arg args 2;
        '(_, flags) ← engine_Update key (hincrby_updater field increment)
                        (HashMakeRecord args "HINCRBY") now_us;
        mret (integer_reply flags)
    end;
|}.

(** ** Specifications *)

Definition set_pairs (pairs : list (string * string)) (h : gmap string string)
    : gmap string string := foldl (λ h '(field, value), <[field := value]> h) h pairs.

Definition hset_spec (largs : list string) (pairs : list (string * string))
    (reply : Z → Response) (o : option aobj) : effect * Response :=
  let apply (h : gmap string string) (d : Z) :=
    let h' := set_pairs pairs h in
    (store (AHash h') d largs, reply (Z.of_nat (size h') - Z.of_nat (size h))) in
  match view_hash o with
  | VWrong => (Keep, Error kWrongTypeError)
  | VMissing => apply ∅ 0
  | VHas h d => apply h d
  end.

Definition hdel_spec (largs fields : list string) (o : option aobj) : effect * Response :=
  match view_hash o with
  | VWrong => (Keep, Error kWrongTypeError)
  | VMissing => (Keep, Integer 0)
  | VHas h d =>
      let h' := foldl (λ h field, delete field h) h fields in
      let removed := Z.of_nat (size h) - Z.of_nat (size h') in
      (if bool_decide (h' = h) then Keep
       else if bool_decide (h' = ∅) then Write None largs
       else store (AHash h') d largs,
       Integer removed)
  end.

Definition hincrby_apply_spec (largs : list string) (field : string) (increment : Z)
    (h : gmap string string) (d : Z) : effect * Response :=
  match from_option ParseInt64 (Some 0) (h !! field) with
  | None => (Keep, Error kIntegerError)
  | Some n =>
      if decide (is_i64 (n + increment)) then
        (store (AHash (<[field := to_string (n + increment)]> h)) d largs,
         Integer (n + increment))
      else (Keep, Error kOverflowError)
  end.

Definition hincrby_spec (key field text : string) (o : option aobj) : effect * Response :=
  match ParseInt64 text with
  | None => (Keep, Error kIntegerError)
  | Some increment =>
      let apply := hincrby_apply_spec ["HINCRBY"; key; field; text] field increment in
      match view_hash o with
      | VWrong => (Keep, Error kWrongTypeError)
      | VMissing => apply ∅ 0
      | VHas h d => apply h d
      end
  end.

(** A read of the hash of a key: nothing there is the empty hash. *)
Definition hash_read_spec (f : gmap string string → Response) (o : option aobj) : Response :=
  match view_hash o with
  | VWrong => Error kWrongTypeError
  | VMissing => f ∅
  | VHas h _ => f h
  end.

(** ** Theorems *)

Lemma AddWouldOverflow_spec x y :
  is_i64 x → is_i64 y → AddWouldOverflow x y = negb (bool_decide (is_i64 (x + y))).
Proof.
  unfold AddWouldOverflow, is_i64, INT64_MAX, INT64_MIN. intros Hx Hy.
  case_bool_decide; repeat case_match; bool_prop; cbn; lia.
Qed.

(** The abstract value of a hash. *)
Definition hash_abs (h : HashValue) : gmap string string := ToString <$> to_gmap h.

Lemma set_pairs_nonempty pairs h : pairs ≠ [] → set_pairs pairs h ≠ ∅.
Proof.
  intros Hp. destruct pairs as [|[f v] pairs _] using rev_ind; [done|].
  unfold set_pairs. rewrite foldl_app. cbn. apply insert_non_empty.
Qed.

Lemma foldl_delete_subseteq fields (h : gmap string string) :
  foldl (λ h field, delete field h) h fields ⊆ h.
Proof.
  revert h. induction fields as [|f fields IH]; intros h; cbn; [done|].
  transitivity (delete f h); [apply IH|apply delete_subseteq].
Qed.

Context {CL : ContainerLaws IC}.

Lemma hash_abs_new : hash_abs map_new = ∅.
Proof. unfold hash_abs. by rewrite to_gmap_new, fmap_empty. Qed.

Lemma hash_abs_Set h f v : hash_abs (map_Set h (pack f) (pack v)) = <[f := v]> (hash_abs h).
Proof. unfold hash_abs. by rewrite to_gmap_Set, fmap_insert, !ToString_pack. Qed.

Lemma hash_abs_Find h f : ToString <$> map_Find h (pack f) = hash_abs h !! f.
Proof. unfold hash_abs. by rewrite lookup_fmap, to_gmap_lookup. Qed.

Lemma hash_abs_Size h : map_Size h = Z.of_nat (size (hash_abs h)).
Proof. unfold hash_abs. by rewrite to_gmap_Size, map_size_fmap. Qed.

Lemma hash_abs_Empty h : map_Empty h = bool_decide (hash_abs h = ∅).
Proof.
  rewrite to_gmap_Empty. unfold hash_abs. apply bool_decide_ext. symmetry.
  apply fmap_empty_iff.
Qed.

Lemma hash_object_abs h d : abs_object (HashObjectWithDeadline h d) = mkAObj d (AHash (hash_abs h)).
Proof.
  unfold HashObjectWithDeadline. rewrite preserve_deadline by done. by autorewrite with cache.
Qed.

Lemma hash_object_ok h d : hash_abs h ≠ ∅ → is_u64 d → object_ok (HashObjectWithDeadline h d).
Proof.
  intros Hh Hd. unfold HashObjectWithDeadline. rewrite preserve_deadline by done.
  by constructor.
Qed.

Lemma ApplyFieldValuePairs_spec pairs h :
  let '(added, h') := ApplyFieldValuePairs pairs h in
  hash_abs h' = set_pairs pairs (hash_abs h) ∧
  added = Z.of_nat (size (set_pairs pairs (hash_abs h))) - Z.of_nat (size (hash_abs h)).
Proof.
  unfold ApplyFieldValuePairs.
  enough (∀ n, let '(n', h') := foldl hset_step (n, h) pairs in
    hash_abs h' = set_pairs pairs (hash_abs h) ∧
    n' = n + Z.of_nat (size (set_pairs pairs (hash_abs h))) - Z.of_nat (size (hash_abs h)))
    as Hn.
  { specialize (Hn 0). destruct (foldl _ _ _) as [n' h']. destruct Hn as [-> ->].
    split; [done|lia]. }
  revert h. induction pairs as [|[f v] pairs IH]; intros h n; cbn; [split; [done|lia]|].
  specialize (IH (map_Set h (pack f) (pack v))
                (if has_value (map_Find h (pack f)) then n else n + 1)).
  destruct (foldl _ _ pairs) as [n' h']. destruct IH as [-> ->]. rewrite hash_abs_Set.
  split; [done|]. fold (set_pairs pairs (<[f := v]> (hash_abs h))).
  rewrite (map_size_insert f v (hash_abs h)), <-hash_abs_Find.
  destruct (map_Find h (pack f)); cbn; lia.
Qed.

Lemma hset_updater_ok key pairs record reply :
  pairs ≠ [] → rec_args record !! 1%nat = Some key →
  mutator_ok key record (updater_mutator (hset_updater pairs))
    (λ f, if f.1 then Error kWrongTypeError else reply f.2)
    (hset_spec (rec_args record) pairs reply).
Proof.
  intros Hp Hkey.
  obj_cases; effect_simpl; unfold hset_updater, hset_spec; effect_simpl; try (by repeat split).
  - pose proof (ApplyFieldValuePairs_spec pairs v) as H.
    destruct (ApplyFieldValuePairs pairs v) as [added h']. destruct H as [Hh ->].
    cbn. rewrite hash_object_abs, Hh. fold (hash_abs v). split; [done|]. split; [|done].
    intros x [= <-]. apply hash_object_ok; [|done]. rewrite Hh. by apply set_pairs_nonempty.
  - pose proof (ApplyFieldValuePairs_spec pairs map_new) as H.
    destruct (ApplyFieldValuePairs pairs map_new) as [added h']. rewrite hash_abs_new in H.
    destruct H as [Hh ->].
    cbn. rewrite hash_object_abs, Hh. split; [done|]. split; [|done].
    intros x [= <-]. apply hash_object_ok; [|done]. rewrite Hh. by apply set_pairs_nonempty.
Qed.

Lemma field_value_pairs_nonempty rest pairs :
  field_value_pairs rest = Some pairs → rest ≠ [] → pairs ≠ [].
Proof.
  destruct rest as [|f [|v rest]]; [done|done|]. cbn. intros (p & _ & ->)%fmap_Some. done.
Qed.

Lemma field_value_pairs_even rest :
  (S (S (length rest)) mod 2 = 0)%nat → ∃ pairs, field_value_pairs rest = Some pairs.
Proof.
  assert (∀ n rest, (length rest <= n)%nat → (length rest mod 2 = 0)%nat →
    ∃ pairs, field_value_pairs rest = Some pairs) as H.
  { clear rest. induction n as [|n IH]; intros [|f [|v rest]] Hl He; cbn in Hl;
      try done; try lia; try by eexists.
    destruct (IH rest) as [pairs Hp]; [lia| |].
    - change (S (S (length rest)) mod 2 = 0)%nat in He.
      rewrite <-(Nat.Div0.mod_add _ 1 2). by replace (length rest + 1 * 2)%nat
        with (S (S (length rest))) by lia.
    - exists ((f, v) :: pairs). cbn. by rewrite Hp. }
  intros He. apply (H (length rest)); [done|].
  rewrite <-(Nat.Div0.mod_add _ 1 2). by replace (length rest + 1 * 2)%nat
    with (S (S (length rest))) by lia.
Qed.

Lemma HSet_implements rnd name key rest pairs now_us :
  field_value_pairs rest = Some pairs → rest ≠ [] →
  implements (ExecCmd HSetCmd rnd (name :: key :: rest) now_us) key now_us
    (hset_spec ("HSET" :: key :: rest) pairs Integer).
Proof.
  intros Hp Hr. cbn. unfold arg. cbn. rewrite skipn_0, Hp.
  apply (implements_Update key (HashMakeRecord (name :: key :: rest) "HSET")
           (hset_updater pairs) count_reply).
  apply hset_updater_ok; [by eapply field_value_pairs_nonempty|done].
Qed.

Lemma HMSet_implements rnd name key rest pairs now_us :
  field_value_pairs rest = Some pairs → rest ≠ [] →
  implements (ExecCmd HMSetCmd rnd (name :: key :: rest) now_us) key now_us
    (hset_spec ("HMSET" :: key :: rest) pairs (λ _, SimpleString "OK")).
Proof.
  intros Hp Hr. cbn. unfold arg. cbn. rewrite skipn_0, Hp.
  apply (implements_Update key (HashMakeRecord (name :: key :: rest) "HMSET")
           (hset_updater pairs) hmset_reply).
  apply (hset_updater_ok key pairs (HashMakeRecord (name :: key :: rest) "HMSET")
           (λ _, SimpleString "OK"));
    [by eapply field_value_pairs_nonempty|done].
Qed.

Lemma hdel_step_spec n h f :
  let '(n', h') := hdel_step (n, h) f in
  hash_abs h' = delete f (hash_abs h) ∧
  n' = n + Z.of_nat (size (hash_abs h)) - Z.of_nat (size (hash_abs h')).
Proof.
  unfold hdel_step. pose proof (to_gmap_Erase h (pack f)) as H. rewrite ToString_pack in H.
  rewrite to_gmap_Find, ToString_pack.
  destruct (map_Erase h (pack f)) as [h'|].
  - destruct H as [Hh [v Hv]]. rewrite Hv.
    assert (hash_abs h' = delete f (hash_abs h)) as Ha.
    { unfold hash_abs. by rewrite Hh, fmap_delete. }
    split; [done|]. rewrite Ha, map_size_delete. unfold hash_abs at 2.
    rewrite lookup_fmap, Hv. cbn.
    assert (size (hash_abs h) ≠ 0%nat).
    { rewrite map_size_ne_0_lookup. exists f. unfold hash_abs. rewrite lookup_fmap, Hv. by eexists. }
    lia.
  - rewrite H. split; [|lia]. rewrite delete_id; [done|]. unfold hash_abs.
    by rewrite lookup_fmap, H.
Qed.

Lemma hdel_loop_spec fields n h :
  let '(n', h') := foldl hdel_step (n, h) fields in
  hash_abs h' = foldl (λ h field, delete field h) (hash_abs h) fields ∧
  n' = n + Z.of_nat (size (hash_abs h)) - Z.of_nat (size (hash_abs h')).
Proof.
  revert n h. induction fields as [|f fields IH]; intros n h; cbn [foldl]; [split; [done|lia]|].
  pose proof (hdel_step_spec n h f) as H1. destruct (hdel_step (n, h) f) as [n1 h1].
  destruct H1 as [Hh1 ->]. specialize (IH (n + Z.of_nat (size (hash_abs h)) - Z.of_nat (size (hash_abs h1))) h1).
  destruct (foldl _ _ fields) as [n' h']. destruct IH as [Hh' ->].
  rewrite Hh1 in Hh'. split; [done|lia].
Qed.

(** Deleting keys one by one shrinks a map exactly when it changes it. *)
Lemma shrunk (h h' : gmap string string) :
  h' ⊆ h → (Z.of_nat (size h) - Z.of_nat (size h') =? 0) = bool_decide (h' = h).
Proof.
  intros Hs. case_bool_decide as E; [subst; lia|].
  apply Z.eqb_neq. intros E'. apply E. apply map_subseteq_size_eq; [done|lia].
Qed.

Lemma hdel_mutator_ok key fields record :
  rec_args record !! 1%nat = Some key →
  mutator_ok key record (hdel_mutator fields) count_reply
    (hdel_spec (rec_args record) fields).
Proof.
  intros Hkey.
  obj_cases; effect_simpl; unfold hdel_mutator, hdel_spec; effect_simpl; try (by repeat split).
  pose proof (hdel_loop_spec fields 0 v) as H. destruct (foldl hdel_step _ _) as [n h'].
  destruct H as [Hh ->]. fold (hash_abs v). rewrite Z.add_0_l. cbn.
  rewrite hash_abs_Empty, shrunk by (rewrite Hh; apply foldl_delete_subseteq).
  rewrite <-Hh. case_bool_decide as E1; cbn; [by repeat split|].
  case_bool_decide as E2; cbn; [by repeat split|].
  rewrite hash_object_abs. split; [done|]. split; [|done].
  intros x [= <-]. by apply hash_object_ok.
Qed.

Lemma HDel_implements rnd name key fields now_us :
  implements (ExecCmd HDelCmd rnd (name :: key :: fields) now_us) key now_us
    (hdel_spec ("HDEL" :: key :: fields) fields).
Proof.
  cbn. unfold arg. cbn. rewrite skipn_0.
  apply (implements_Mutate key (HashMakeRecord (name :: key :: fields) "HDEL")
           (hdel_mutator fields) count_reply).
  by apply hdel_mutator_ok.
Qed.

Lemma hincrby_apply_ok record field increment h d b :
  is_i64 increment → is_u64 d →
  let '(next, x) := hincrby_apply field increment h d in
  (mutation_effect b (mkMutationResult (has_value next) next None) record, integer_reply x) =
    hincrby_apply_spec (rec_args record) field increment (hash_abs h) d ∧
  opt_ok next.
Proof.
  intros Hi Hd. unfold hincrby_apply, hincrby_apply_spec. rewrite <-hash_abs_Find.
  assert (∀ o : option PackedString, match o with
          | Some found => ParseInt64 (ToString found)
          | None => Some 0
          end = from_option ParseInt64 (Some 0) (ToString <$> o)) as Hm by (by intros []).
  rewrite Hm. destruct (from_option _ _ _) as [n|] eqn:E; [|done].
  assert (is_i64 n) as Hn.
  { destruct (map_Find _ _); cbn in E; [by eapply ParseInt64_range|]. by injection E as <-. }
  rewrite AddWouldOverflow_spec by done. case_bool_decide as Ho; cbn.
  - rewrite decide_True by done. effect_simpl. rewrite hash_object_abs, hash_abs_Set.
    split; [done|]. intros x [= <-]. apply hash_object_ok; [|done].
    rewrite hash_abs_Set. apply insert_non_empty.
  - by rewrite decide_False.
Qed.

Lemma HIncrBy_implements rnd name key field text now_us :
  implements (ExecCmd HIncrByCmd rnd [name; key; field; text] now_us) key now_us
    (hincrby_spec key field text).
Proof.
  apply implements_arg. cbn. unfold hincrby_spec.
  destruct (ParseInt64 text) as [n|] eqn:E; [|by apply implements_ret].
  pose proof (ParseInt64_range _ _ E) as Hn. do 2 apply implements_arg.
  apply (implements_Update key (HashMakeRecord [name; key; field; text] "HINCRBY")
           (hincrby_updater field n) integer_reply).
  obj_cases; unfold updater_mutator, hincrby_updater, view_hash, view_with; cbn;
    try (by repeat split).
  - pose proof (hincrby_apply_ok (HashMakeRecord [name; key; field; text] "HINCRBY")
                  field n v d true Hn Hd) as H.
    destruct (hincrby_apply field n v d) as [next x]. destruct H as [H Hok].
    split; [exact H|done].
  - pose proof (hincrby_apply_ok (HashMakeRecord [name; key; field; text] "HINCRBY")
                  field n map_new 0 false Hn) as H.
    destruct (hincrby_apply field n map_new 0) as [next x].
    rewrite hash_abs_new in H. destruct H as [H Hok]; [done|]. split; [exact H|done].
Qed.

(** *** Reads *)

Lemma with_hash_run key now_us reader f e :
  engine_ok e →
  (∀ hash, reader hash e = Some (f (from_option hash_abs ∅ hash), e)) →
  with_hash key now_us reader e = Some (hash_read_spec f (engine_live e now_us key), e).
Proof.
  intros He Hf. unfold with_hash, mbind, stM_bind. rewrite engine_Get_run by apply He.
  unfold engine_live. rewrite <-Get_live.
  pose proof (Get_opt_ok e key now_us He) as Hok. revert Hok.
  generalize (Get (slot_of e key) key now_us).
  obj_cases; unfold hash_read_spec; effect_simpl; try done; by rewrite Hf.
Qed.

Lemma find_in_abs hash field :
  ToString <$> find_in hash field = from_option hash_abs ∅ hash !! field.
Proof.
  destruct hash as [h|]; cbn; [apply hash_abs_Find|]. by rewrite lookup_empty.
Qed.

Ltac read_args := cbn; unfold mbind at 1, stM_bind at 1; unfold arg at 1, liftM at 1; cbn.

Lemma HGet_run rnd name key field now_us e :
  engine_ok e →
  ExecCmd HGetCmd rnd [name; key; field] now_us e =
  Some (hash_read_spec (λ h, bulk_or_null (h !! field)) (engine_live e now_us key), e).
Proof.
  intros He. read_args. apply (with_hash_run key now_us _ (λ h, bulk_or_null (h !! field)));
    [done|].
  intros [h|]; [|done]. unfold mbind, stM_bind. cbn. by rewrite hash_abs_Find.
Qed.

Lemma HExists_run rnd name key field now_us e :
  engine_ok e →
  ExecCmd HExistsCmd rnd [name; key; field] now_us e =
  Some (hash_read_spec (λ h, flag_reply (has_value (h !! field)))
          (engine_live e now_us key), e).
Proof.
  intros He. read_args.
  apply (with_hash_run key now_us _ (λ h, flag_reply (has_value (h !! field)))); [done|].
  intros hash. unfold mbind, stM_bind. cbn. by rewrite <-find_in_abs, has_value_fmap.
Qed.

Lemma HLen_run rnd name key now_us e :
  engine_ok e →
  ExecCmd HLenCmd rnd [name; key] now_us e =
  Some (hash_read_spec (λ h, Integer (Z.of_nat (size h))) (engine_live e now_us key), e).
Proof.
  intros He. read_args. apply (with_hash_run key now_us _ (λ h, Integer (Z.of_nat (size h)))); [done|].
  intros [h|]; cbn; [by rewrite hash_abs_Size|done].
Qed.

Lemma HStrLen_run rnd name key field now_us e :
  engine_ok e →
  ExecCmd HStrLenCmd rnd [name; key; field] now_us e =
  Some (hash_read_spec (λ h, Integer (from_option size_of 0 (h !! field)))
          (engine_live e now_us key), e).
Proof.
  intros He. read_args.
  apply (with_hash_run key now_us _ (λ h, Integer (from_option size_of 0 (h !! field)))); [done|].
  intros [h|]; [|done]. unfold mbind, stM_bind. cbn. rewrite <-hash_abs_Find.
  destruct (map_Find h _); cbn; [by rewrite PackedSize_spec|done].
Qed.

Lemma HMGet_run rnd name key fields now_us e :
  engine_ok e →
  ExecCmd HMGetCmd rnd (name :: key :: fields) now_us e =
  Some (hash_read_spec (λ h, Array ((λ f, bulk_or_null (h !! f)) <$> fields))
          (engine_live e now_us key), e).
Proof.
  intros He. read_args.
  apply (with_hash_run key now_us _ (λ h, Array ((λ f, bulk_or_null (h !! f)) <$> fields)));
    [done|].
  intros hash. rewrite skipn_0. cbn. unfold mret, stM_ret. do 3 f_equal.
  apply list_fmap_ext. intros _ f _. by rewrite <-find_in_abs.
Qed.

(** The listing commands answer the entries of the hash, in an order of the
    container's choice. *)
Lemma entries_of_abs hash :
  (prod_map ToString ToString <$> entries_of hash) ≡ₚ
  map_to_list (from_option hash_abs ∅ hash).
Proof.
  destruct hash as [h|]; cbn; [|by rewrite map_to_list_empty].
  unfold hash_abs. rewrite map_to_list_fmap, <-to_gmap_ForEach.
  rewrite <-list_fmap_compose. apply reflexive_eq, list_fmap_ext. by intros _ [p q] _.
Qed.

(** The entries of the hash of a key. *)
Definition hash_entries (o : option aobj) : list (string * string) :=
  match view_hash o with VHas h _ => map_to_list h | _ => [] end.

Lemma listing_run key now_us (g : list (PackedString * PackedString) → list Response)
    (g' : list (string * string) → list Response) e :
  engine_ok e →
  (∀ l, g l = g' (prod_map ToString ToString <$> l)) →
  ∃ l, l ≡ₚ hash_entries (engine_live e now_us key) ∧
    with_hash key now_us (λ hash, mret (Array (g (entries_of hash)))) e =
    Some (hash_read_spec (λ _, Array (g' l)) (engine_live e now_us key), e).
Proof.
  intros He Hg. unfold with_hash, mbind, stM_bind. rewrite engine_Get_run by apply He.
  unfold engine_live. rewrite <-Get_live.
  pose proof (Get_opt_ok e key now_us He) as Hok. revert Hok.
  generalize (Get (slot_of e key) key now_us).
  unfold hash_entries, hash_read_spec.
  obj_cases; effect_simpl; try (exists []; split; [done|]; by rewrite ?Hg).
  exists (prod_map ToString ToString <$> map_ForEach v). split.
  - apply (entries_of_abs (Some v)).
  - by rewrite Hg.
Qed.

Lemma HGetAll_run rnd name key now_us e :
  engine_ok e →
  ∃ l, l ≡ₚ hash_entries (engine_live e now_us key) ∧
    ExecCmd HGetAllCmd rnd [name; key] now_us e =
    Some (hash_read_spec (λ _, Array (l ≫= λ '(f, v), [BulkString f; BulkString v]))
            (engine_live e now_us key), e).
Proof.
  intros He. read_args. apply (listing_run key now_us _
    (λ l, l ≫= λ '(f, v), [BulkString f; BulkString v])); [done|].
  intros l. induction l as [|[p q] l IH]; [done|]. cbn. do 2 f_equal. exact IH.
Qed.

Lemma HKeys_run rnd name key now_us e :
  engine_ok e →
  ∃ l, l ≡ₚ hash_entries (engine_live e now_us key) ∧
    ExecCmd HKeysCmd rnd [name; key] now_us e =
    Some (hash_read_spec (λ _, Array (BulkString <$> l.*1)) (engine_live e now_us key), e).
Proof.
  intros He. read_args. apply (listing_run key now_us _ (λ l, BulkString <$> l.*1)); [done|].
  intros l. rewrite <-!list_fmap_compose. apply list_fmap_ext. by intros _ [p q] _.
Qed.

Lemma HVals_run rnd name key now_us e :
  engine_ok e →
  ∃ l, l ≡ₚ hash_entries (engine_live e now_us key) ∧
    ExecCmd HValsCmd rnd [name; key] now_us e =
    Some (hash_read_spec (λ _, Array (BulkString <$> l.*2)) (engine_live e now_us key), e).
Proof.
  intros He. read_args. apply (listing_run key now_us _ (λ l, BulkString <$> l.*2)); [done|].
  intros l. rewrite <-!list_fmap_compose. apply list_fmap_ext. by intros _ [p q] _.
Qed.
End hash_cmd.
