(* ===== verification/SetCmd.v ===== *)
(** * Set commands: src/command/set_cmd

    SADD, SREM, SISMEMBER, SMISMEMBER, SCARD, SMEMBERS, SPOP and SRANDMEMBER.
    The random engine is the stream [rnd] of the numbers it draws;
    [std::shuffle] and [std::uniform_int_distribution] are modelled by
    drawing positions from it. Memory is unbounded, so [reserve] succeeds. *)

From S2P Require Import Prelude Text Containers Double RedisObject Binlog HashSlot Engine Response Command KeyCmd StringCmd.

Definition option_list {A} (o : option A) : list A := from_option (λ x, [x]) [] o.

Definition kOutOfRangeError : string := "ERR value is out of range".

(** A random permutation: every step draws one of the elements left. *)
Fixpoint shuffle {A} (rnd : nat → nat) (n : nat) (l : list A) : list A :=
  match n with
  | O => l
  | S n' =>
      let i := (rnd n mod length l)%nat in
      match l !! i with
      | Some x => x :: shuffle rnd n' (delete i l)
      | None => l
      end
  end.

Section set_cmd.
Context {IC : ImmutableContainer}.

Definition MembersToResponses (members : list PackedString) : list Response :=
  (λ member, BulkString (ToString member)) <$> members.

Definition PickUniqueMembers (rnd : nat → nat) (members : list PackedString) (count : Z)
    : list PackedString :=
  let shuffled := shuffle rnd (length members) members in
  if count <? Z.of_nat (length members) then take (Z.to_nat count) shuffled else shuffled.

Definition PickMembersWithReplacement (rnd : nat → nat) (members : list PackedString)
    (count : Z) : list PackedString :=
  if (length members =? 0)%nat || (count =? 0) then []
  else omap (λ i, members !! (rnd i mod length members)%nat) (seq 0 (Z.to_nat count)).

(** [reader] gets the set, or nothing when the key is missing. *)
Definition ReadSet (key : string) (now_us : Z)
    (reader : option SetValue → engineM Response) : engineM Response :=
  obj ← engine_Get key now_us;
  match obj with
  | None => reader None
  | Some o =>
      match type_ o, Set_ o with
      | kSet, Some set => reader (Some set)
      | _, _ => mret (Error kWrongTypeError)
      end
  end.

(** [deadline_us ? obj.WithDeadline(deadline_us) : obj]. *)
Definition SetObjectWithDeadline (set : SetValue) (deadline_us : Z) : RedisObject :=
  let obj := MakeSet set in
  if negb (deadline_us =? 0) then WithDeadline obj deadline_us else obj.

Definition sadd_step (acc : Z * SetValue) (member : string) : Z * SetValue :=
  let '(added, next) := acc in
  if set_Contains next (pack member) then acc
  else (added + 1, set_Add next (pack member)).

(** The end of the mutator of SADD. *)
Definition sadd_apply (members : list string) (set : SetValue) (deadline_us : Z)
    : option RedisObject * (bool * Z) :=
  let '(added_count, next) := foldl sadd_step (0, set) members in
  (if added_count =? 0 then None else Some (SetObjectWithDeadline next deadline_us),
   (false, added_count)).

Definition sadd_updater (members : list string) (existing : option RedisObject)
    : option RedisObject * (bool * Z) :=
  match existing with
  | None => sadd_apply members set_new 0
  | Some o =>
      match type_ o, Set_ o with
      | kSet, Some set => sadd_apply members set (deadline_us_ o)
      | _, _ => (None, (true, 0))
      end
  end.

Definition SAddCmd : RedisCmd := {|
  CheckArity args := CheckMinArity args 3 "sadd";
  ExecCmd _ args now_us :=
    key ← arg args 1;
    '(_, flags) ← engine_Update key (sadd_updater (drop 2 args)) (MakeRecord "SADD" args) now_us;
    mret (count_reply flags);
|}.

Definition SIsMemberCmd : RedisCmd := {|
  CheckArity args := CheckExactArity args 3 "sismember";
  ExecCmd _ args now_us :=
    key ← arg args 1;
    ReadSet key now_us (λ set,
      match set with
      | None => mret (flag_reply false)
      | Some s => member ← arg args 2; mret (flag_reply (set_Contains s (pack member)))
      end);
|}.

Definition srem_step (acc : Z * SetValue) (member : string) : Z * SetValue :=
  let '(removed, next) := acc in
  if set_Contains next (pack member) then
    match set_Erase next (pack member) with
    | Some erased => (removed + 1, erased)
    | None => acc
    end
  else acc.

Definition srem_mutator (members : list string) (existing : option RedisObject)
    : MutationResult * (bool * Z) :=
  match existing with
  | None => (mkMutationResult false None None, (false, 0))
  | Some o =>
      match type_ o, Set_ o with
      | kSet, Some set =>
          let '(removed_count, next) := foldl srem_step (0, set) members in
          (if removed_count =? 0 then mkMutationResult false None None
           else if set_Empty next then mkMutationResult true None None
           else mkMutationResult true (Some (SetObjectWithDeadline next (deadline_us_ o))) None,
           (false, removed_count))
      | _, _ => (mkMutationResult false None None, (true, 0))
      end
  end.

Definition SRemCmd : RedisCmd := {|
  CheckArity args := CheckMinArity args 3 "srem";
  ExecCmd _ args now_us :=
    key ← arg args 1;
    '(_, flags) ← engine_Mutate key (srem_mutator (drop 2 args)) (MakeRecord "SREM" args) now_us;
    mret (count_reply flags);
|}.

Definition SCardCmd : RedisCmd := {|
  CheckArity args := CheckExactArity args 2 "scard";
  ExecCmd _ args now_us :=
    key ← arg args 1;
    ReadSet key now_us (λ set, mret (Integer (from_option set_Size 0 set)));
|}.

Definition SMembersCmd : RedisCmd := {|
  CheckArity args := CheckExactArity args 2 "smembers";
  ExecCmd _ args now_us :=
    key ← arg args 1;
    ReadSet key now_us (λ set,
      mret (Array (from_option (λ s, MembersToResponses (set_ToVector s)) [] set)));
|}.

Definition SMIsMemberCmd : RedisCmd := {|
  CheckArity args := CheckMinArity args 3 "smismember";
  ExecCmd _ args now_us :=
    key ← arg args 1;
    ReadSet key now_us (λ set,
      mret (Array ((λ member,
              flag_reply (from_option (λ s, set_Contains s (pack member)) false set))
                     <$> drop 2 args)));
|}.

Definition spop_step (next : SetValue) (member : PackedString) : SetValue :=
  default next (set_Erase next member).

(** The flags of SPOP: [wrong_type] and [picked]. *)
Definition spop_mutator (rnd : nat → nat) (key : string) (requested : Z)
    (existing : option RedisObject) : MutationResult * (bool * list PackedString) :=
  match existing with
  | None => (mkMutationResult false None None, (false, []))
  | Some o =>
      match type_ o, Set_ o with
      | kSet, Some set =>
          let members := set_ToVector set in
          if (length members =? 0)%nat then (mkMutationResult false None None, (false, []))
          else
            let picked := PickUniqueMembers rnd members requested in
            let removal := record_of_args ("SREM" :: key :: (ToString <$> picked)) in
            let next := foldl spop_step set picked in
            (mkMutationResult true
               (if set_Empty next then None
                else Some (SetObjectWithDeadline next (deadline_us_ o)))
               (Some removal),
             (false, picked))
      | _, _ => (mkMutationResult false None None, (true, []))
      end
  end.

Definition spop_reply (has_count : bool) (flags : bool * list PackedString) : Response :=
  if flags.1 then Error kWrongTypeError
  else if has_count then Array (MembersToResponses flags.2)
  else match flags.2 with
       | [] => NullBulk
       | picked :: _ => BulkString (ToString picked)
       end.

(** The part of SPOP after the count is known. *)
Definition spop_run (rnd : nat → nat) (has_count : bool) (requested : Z)
    (args : list string) (now_us : Z) : engineM Response :=
  key ← arg args 1;
  '(_, flags) ← engine_Mutate key (spop_mutator rnd key requested)
                  (MakeRecord "SPOP" args) now_us;
  mret (spop_reply has_count flags).

Definition SPopCmd : RedisCmd := {|
  CheckArity := arity_check (λ n, negb (n =? 2)%nat && negb (n =? 3)%nat) "spop";
  ExecCmd rnd args now_us :=
    if (length args =? 3)%nat then
      text ← arg args 2;
      match ParseInt64 text with
      | None => mret (Error kIntegerError)
      | Some parsed_count =>
          if parsed_count <? 0 then mret (Error kIntegerError)
          else if parsed_count =? 0 then
            key ← arg args 1; ReadSet key now_us (λ _, mret (Array []))
          else spop_run rnd true parsed_count args now_us
      end
    else spop_run rnd false 1 args now_us;
|}.

(** The reader of SRANDMEMBER; [count] is [None] without a count. *)
Definition srandmember_reader (rnd : nat → nat) (count : option Z) (set : option SetValue)
    : engineM Response :=
  let members := from_option set_ToVector [] set in
  if negb (has_value set) || from_option set_Empty true set then
    mret (if has_value count then Array [] else NullBulk)
  else
    match count with
    | None =>
        picked ← liftM (head (PickMembersWithReplacement rnd members 1));
        mret (BulkString (ToString picked))
    | Some parsed_count =>
        if parsed_count =? 0 then mret (Array [])
        else if parsed_count >? 0 then
          mret (Array (MembersToResponses (PickUniqueMembers rnd members parsed_count)))
        else
          mret (Array (MembersToResponses
                         (PickMembersWithReplacement rnd members (- parsed_count))))
    end.

Definition SRandMemberCmd : RedisCmd := {|
  CheckArity := arity_check (λ n, negb (n =? 2)%nat && negb (n =? 3)%nat) "srandmember";
  ExecCmd rnd args now_us :=
    if (length args =? 3)%nat then
      text ← arg args 2;
      match ParseInt64 text with
      | None => mret (Error kIntegerError)
      | Some parsed_count =>
          if parsed_count =? INT64_MIN then mret (Error kOutOfRangeError)
          else
            key ← arg args 1;
            ReadSet key now_us (srandmember_reader rnd (Some parsed_count))
      end
    else
      key ← arg args 1; ReadSet key now_us (srandmember_reader rnd None);
|}.

(** ** Specifications *)

Definition sadd_spec (largs members : list string) (o : option aobj) : effect * Response :=
  let apply (s : gset string) (d : Z) :=
    let s' := s ∪ list_to_set members in
    (if bool_decide (s' = s) then Keep else store (ASet s') d largs,
     Integer (Z.of_nat (size s') - Z.of_nat (size s))) in
  match view_set o with
  | VWrong => (Keep, Error kWrongTypeError)
  | VMissing => apply ∅ 0
  | VHas s d => apply s d
  end.

(** Removing members, and the key with its last member. *)
Definition srem_effect (largs members : list string) (s : gset string) (d : Z) : effect :=
  let s' := s ∖ list_to_set members in
  if bool_decide (s' = s) then Keep
  else if bool_decide (s' = ∅) then Write None largs
  else store (ASet s') d largs.

Definition srem_spec (largs members : list string) (o : option aobj) : effect * Response :=
  match view_set o with
  | VWrong => (Keep, Error kWrongTypeError)
  | VMissing => (Keep, Integer 0)
  | VHas s d =>
      (srem_effect largs members s d,
       Integer (Z.of_nat (size s) - Z.of_nat (size (s ∖ list_to_set members : gset string))))
  end.

(** SPOP: some [n] distinct members of the set go, or all of them; the log
    names the members. *)
Definition spop_rel (key : string) (has_count : bool) (requested : Z)
    (o : option aobj) (eff : effect) (r : Response) : Prop :=
  match view_set o with
  | VWrong => eff = Keep ∧ r = Error kWrongTypeError
  | VMissing => eff = Keep ∧ r = if has_count then Array [] else NullBulk
  | VHas s d =>
      ∃ picked, NoDup picked ∧ (∀ m, m ∈ picked → m ∈ s) ∧
        Z.of_nat (length picked) = Z.min requested (Z.of_nat (size s)) ∧
        eff = srem_effect ("SREM" :: key :: picked) picked s d ∧
        r = if has_count then Array (BulkString <$> picked)
            else bulk_or_null (head picked)
  end.

Definition set_read_spec (f : gset string → Response) (o : option aobj) : Response :=
  match view_set o with
  | VWrong => Error kWrongTypeError
  | VMissing => f ∅
  | VHas s _ => f s
  end.

(** ** Theorems *)

Lemma shuffle_Permutation {A} rnd n (l : list A) : shuffle rnd n l ≡ₚ l.
Proof.
  revert l. induction n as [|n IH]; intros l; cbn; [done|].
  destruct (l !! _) as [x|] eqn:E; [|done].
  rewrite IH. symmetry. by apply delete_Permutation.
Qed.

Lemma MembersToResponses_fmap members :
  MembersToResponses members = BulkString <$> (ToString <$> members).
Proof. unfold MembersToResponses. by rewrite <-list_fmap_compose. Qed.

Lemma PickUniqueMembers_spec rnd members count :
  0 <= count →
  ∃ rest, PickUniqueMembers rnd members count ++ rest ≡ₚ members ∧
    Z.of_nat (length (PickUniqueMembers rnd members count)) =
    Z.min count (Z.of_nat (length members)).
Proof.
  intros Hc. unfold PickUniqueMembers. cbn zeta.
  pose proof (shuffle_Permutation rnd (length members) members) as Hp.
  pose proof (Permutation_length Hp) as Hl. destruct (count <? _) eqn:E; bool_prop.
  - exists (drop (Z.to_nat count) (shuffle rnd (length members) members)).
    rewrite take_drop. split; [done|]. rewrite length_take. lia.
  - exists []. rewrite app_nil_r. split; [done|]. lia.
Qed.

Lemma PickMembersWithReplacement_spec rnd members count :
  members ≠ [] → 0 <= count →
  Z.of_nat (length (PickMembersWithReplacement rnd members count)) = count ∧
  ∀ m, m ∈ PickMembersWithReplacement rnd members count → m ∈ members.
Proof.
  intros Hm Hc. unfold PickMembersWithReplacement.
  assert (length members ≠ 0%nat) as Hl by (by destruct members).
  rewrite (proj2 (Nat.eqb_neq _ _) Hl). cbn.
  destruct (count =? 0) eqn:E; bool_prop; [subst; split; [done|set_solver]|].
  split.
  - rewrite <-(Z2Nat.id count) at 2 by done. f_equal.
    generalize 0%nat. induction (Z.to_nat count) as [|n IH]; intros i; cbn; [done|].
    destruct (lookup_lt_is_Some_2 members (rnd i mod length members)) as [x Hx];
      [by apply Nat.mod_upper_bound|].
    rewrite Hx. cbn. by rewrite IH.
  - intros m (i & _ & Hi)%list_elem_of_omap. by eapply list_elem_of_lookup_2.
Qed.

Lemma size_unchanged (s s' : gset string) :
  s ⊆ s' ∨ s' ⊆ s → (Z.of_nat (size s') - Z.of_nat (size s) =? 0) = bool_decide (s' = s).
Proof.
  intros Hs. case_bool_decide as E; [subst; lia|]. apply Z.eqb_neq. intros E'. apply E.
  destruct Hs as [Hs|Hs]; [symmetry|]; (apply set_subseteq_size_eq; [done|lia]).
Qed.

Context {CL : ContainerLaws IC}.

Lemma set_object_abs s d : abs_object (SetObjectWithDeadline s d) = mkAObj d (ASet (to_gset s)).
Proof.
  unfold SetObjectWithDeadline. rewrite preserve_deadline by done. by autorewrite with cache.
Qed.

Lemma set_object_ok s d : to_gset s ≠ ∅ → is_u64 d → object_ok (SetObjectWithDeadline s d).
Proof.
  intros Hs Hd. unfold SetObjectWithDeadline. rewrite preserve_deadline by done.
  by constructor.
Qed.

#[local] Arguments SetObjectWithDeadline _ _ : simpl never.

Lemma sadd_loop_spec members n s :
  let '(n', s') := foldl sadd_step (n, s) members in
  to_gset s' = to_gset s ∪ list_to_set members ∧
  n' = n + Z.of_nat (size (to_gset s')) - Z.of_nat (size (to_gset s)).
Proof.
  revert n s. induction members as [|m members IH]; intros n s; cbn [foldl].
  { split; [set_solver|lia]. }
  unfold sadd_step at 2. rewrite to_gset_Contains, ToString_pack. case_bool_decide as Hm.
  - specialize (IH n s). destruct (foldl _ _ members) as [n' s']. destruct IH as [-> ->].
    split; [set_solver|done].
  - specialize (IH (n + 1) (set_Add s (pack m))). destruct (foldl _ _ members) as [n' s'].
    rewrite to_gset_Add, ToString_pack in IH. rewrite size_union, size_singleton in IH by set_solver.
    destruct IH as [-> ->]. split; [set_solver|lia].
Qed.

Lemma sadd_apply_ok record members s d b :
  is_u64 d →
  let '(next, x) := sadd_apply members s d in
  (mutation_effect b (mkMutationResult (has_value next) next None) record, count_reply x) =
    (if bool_decide (to_gset s ∪ list_to_set members = to_gset s) then Keep
     else store (ASet (to_gset s ∪ list_to_set members)) d (rec_args record),
     Integer (Z.of_nat (size (to_gset s ∪ list_to_set members)) - Z.of_nat (size (to_gset s)))) ∧
  opt_ok next.
Proof.
  intros Hd. unfold sadd_apply. pose proof (sadd_loop_spec members 0 s) as H.
  destruct (foldl sadd_step _ _) as [n s']. destruct H as [Hs ->]. rewrite Hs, Z.add_0_l.
  rewrite size_unchanged by set_solver. case_bool_decide as E; [by effect_simpl|].
  effect_simpl. rewrite set_object_abs, Hs. split; [done|]. intros x [= <-].
  apply set_object_ok; [|done]. rewrite Hs. set_solver.
Qed.

Lemma SAdd_implements rnd name key members now_us :
  implements (ExecCmd SAddCmd rnd (name :: key :: members) now_us) key now_us
    (sadd_spec ("SADD" :: key :: members) members).
Proof.
  apply implements_arg. cbn. rewrite skipn_0.
  apply (implements_Update key (MakeRecord "SADD" (name :: key :: members))
           (sadd_updater members) count_reply).
  obj_cases; unfold sadd_spec, updater_mutator, sadd_updater, view_set, view_with; cbn;
    try (by repeat split).
  - pose proof (sadd_apply_ok (MakeRecord "SADD" (name :: key :: members)) members v d true Hd)
      as H. destruct (sadd_apply members v d) as [next x]. by destruct H as [H ?].
  - pose proof (sadd_apply_ok (MakeRecord "SADD" (name :: key :: members)) members set_new 0 false)
      as H. destruct (sadd_apply members set_new 0) as [next x]. rewrite to_gset_new in H.
    destruct H as [H ?]; [done|]. split; [exact H|done].
Qed.

Lemma srem_loop_spec members n s :
  let '(n', s') := foldl srem_step (n, s) members in
  to_gset s' = to_gset s ∖ list_to_set members ∧
  n' = n + Z.of_nat (size (to_gset s)) - Z.of_nat (size (to_gset s')).
Proof.
  revert n s. induction members as [|m members IH]; intros n s; cbn [foldl].
  { split; [set_solver|lia]. }
  unfold srem_step at 2. pose proof (to_gset_Erase s (pack m)) as He.
  rewrite to_gset_Contains. rewrite ToString_pack in *.
  destruct (set_Erase s (pack m)) as [s1|].
  - destruct He as [Hs1 Hm]. rewrite bool_decide_eq_true_2 by done.
    specialize (IH (n + 1) s1). destruct (foldl _ _ members) as [n' s'].
    destruct IH as [-> ->]. rewrite Hs1. split; [set_solver|].
    rewrite size_difference, size_singleton by set_solver.
    assert (size (to_gset s) ≠ 0%nat); [|lia].
    apply size_non_empty_iff. set_solver.
  - rewrite bool_decide_eq_false_2 by done.
    specialize (IH n s). destruct (foldl _ _ members) as [n' s'].
    destruct IH as [-> ->]. split; [set_solver|done].
Qed.

Lemma SRem_implements rnd name key members now_us :
  implements (ExecCmd SRemCmd rnd (name :: key :: members) now_us) key now_us
    (srem_spec ("SREM" :: key :: members) members).
Proof.
  apply implements_arg. cbn. rewrite skipn_0.
  apply (implements_Mutate key (MakeRecord "SREM" (name :: key :: members))
           (srem_mutator members) count_reply).
  obj_cases; unfold srem_spec, srem_effect, srem_mutator; effect_simpl; try (by repeat split).
  pose proof (srem_loop_spec members 0 v) as H. destruct (foldl srem_step _ _) as [n s'].
  destruct H as [Hs ->]. rewrite Z.add_0_l. cbn.
  assert ((Z.of_nat (size (to_gset v)) - Z.of_nat (size (to_gset s')) =? 0) =
          bool_decide (to_gset s' = to_gset v)) as ->.
  { rewrite size_unchanged by (rewrite Hs; set_solver). by apply bool_decide_ext. }
  rewrite to_gset_Empty, <-Hs. case_bool_decide as E1; cbn; [by repeat split|].
  case_bool_decide as E2; cbn; [by repeat split|].
  rewrite set_object_abs. split; [done|]. split; [|done]. intros x [= <-].
  by apply set_object_ok.
Qed.

(** *** SPOP *)

Lemma spop_fold picked s :
  to_gset (foldl spop_step s picked) = to_gset s ∖ list_to_set (ToString <$> picked).
Proof.
  revert s. induction picked as [|m picked IH]; intros s; cbn; [set_solver|].
  rewrite IH. unfold spop_step. pose proof (to_gset_Erase s m) as He.
  destruct (set_Erase s m) as [s1|]; cbn.
  - destruct He as [-> _]. set_solver.
  - set_solver.
Qed.

Lemma picked_members rnd s requested :
  0 <= requested →
  let picked := ToString <$> PickUniqueMembers rnd (set_ToVector s) requested in
  NoDup picked ∧ (∀ m, m ∈ picked → m ∈ to_gset s) ∧
  Z.of_nat (length picked) = Z.min requested (Z.of_nat (size (to_gset s))).
Proof.
  intros Hr. cbn zeta.
  destruct (PickUniqueMembers_spec rnd (set_ToVector s) requested Hr) as (rest & Hp & Hl).
  assert ((ToString <$> PickUniqueMembers rnd (set_ToVector s) requested) ++ (ToString <$> rest)
          ≡ₚ elements (to_gset s)) as He.
  { by rewrite <-fmap_app, Hp, to_gset_ToVector. }
  pose proof (NoDup_elements (to_gset s)) as Hnd. rewrite <-He in Hnd.
  apply NoDup_app in Hnd as (Hnd & _ & _). split; [done|]. split.
  - intros m Hm. apply elem_of_elements. rewrite <-He. set_solver.
  - rewrite length_fmap, Hl, <-set_Size_ToVector. by rewrite to_gset_Size.
Qed.

Lemma spop_mutator_ok rnd key has_count requested record :
  0 < requested → rec_args record !! 1%nat = Some key →
  mutator_rel key record (spop_mutator rnd key requested) (spop_reply has_count)
    (spop_rel key has_count requested).
Proof.
  intros Hr Hkey.
  obj_cases; unfold spop_rel, spop_mutator; effect_simpl; try (by destruct has_count).
  assert (to_gset v ≠ ∅) as Hv by exact Hne.
  destruct (picked_members rnd v requested) as (Hnd & Hin & Hl); [lia|].
  set (picked := PickUniqueMembers rnd (set_ToVector v) requested) in *.
  destruct (length (set_ToVector v) =? 0)%nat eqn:E0.
  { apply Nat.eqb_eq, length_zero_iff_nil in E0.
    apply set_Empty_ToVector in E0. rewrite to_gset_Empty in E0. by bool_prop. }
  cbn. fold picked. rewrite to_gset_Empty, spop_fold.
  assert ((ToString <$> picked) ≠ []) as Hnil.
  { intros E. rewrite E in Hl. cbn in Hl. apply Hv, leibniz_equiv, size_empty_iff. lia. }
  split; [|split; [|done]].
  - exists (ToString <$> picked). split; [done|]. split; [done|]. split; [done|]. split.
    + unfold srem_effect. rewrite (bool_decide_eq_false_2 (_ = to_gset v)).
      2:{ destruct (ToString <$> picked) as [|m l]; [done|]. intros E.
          assert (m ∈ to_gset v) as Hm by (apply Hin; left).
          rewrite <-E, elem_of_difference, elem_of_list_to_set in Hm. apply Hm. left. }
      case_bool_decide as E; cbn; [done|]. by rewrite set_object_abs, spop_fold.
    + destruct has_count; cbn.
      * unfold MembersToResponses. by rewrite <-list_fmap_compose.
      * by destruct picked.
  - case_bool_decide as E; [done|]. intros x [= <-]. apply set_object_ok; [|done].
    by rewrite spop_fold.
Qed.

Lemma spop_run_implements rnd has_count requested name key rest now_us :
  0 < requested →
  implements_rel (spop_run rnd has_count requested (name :: key :: rest) now_us) key now_us
    (spop_rel key has_count requested).
Proof.
  intros Hr. apply (implements_rel_Mutate key (MakeRecord "SPOP" (name :: key :: rest))
    (spop_mutator rnd key requested) (spop_reply has_count)).
  by apply spop_mutator_ok.
Qed.

Lemma ReadSet_run key now_us reader f e :
  engine_ok e →
  (∀ set, reader set e = Some (f (from_option to_gset ∅ set), e)) →
  ReadSet key now_us reader e = Some (set_read_spec f (engine_live e now_us key), e).
Proof.
  intros He Hf. unfold ReadSet, mbind, stM_bind. rewrite engine_Get_run by apply He.
  unfold engine_live. rewrite <-Get_live.
  pose proof (Get_opt_ok e key now_us He) as Hok. revert Hok.
  generalize (Get (slot_of e key) key now_us).
  obj_cases; unfold set_read_spec; effect_simpl; try done; by rewrite Hf.
Qed.

Definition spop_spec_rel (key : string) (count : option string)
    (o : option aobj) (eff : effect) (r : Response) : Prop :=
  match count with
  | None => spop_rel key false 1 o eff r
  | Some text =>
      match ParseInt64 text with
      | None => eff = Keep ∧ r = Error kIntegerError
      | Some n =>
          if n <? 0 then eff = Keep ∧ r = Error kIntegerError
          else if n =? 0 then eff = Keep ∧ r = set_read_spec (λ _, Array []) o
          else spop_rel key true n o eff r
      end
  end.

Lemma implements_rel_ret r key now_us (R : option aobj → effect → Response → Prop) :
  (∀ o, R o Keep r) → implements_rel (mret r) key now_us R.
Proof. intros HR e _. by exists r, Keep, e. Qed.

Lemma SPop_implements rnd name key now_us :
  implements_rel (ExecCmd SPopCmd rnd [name; key] now_us) key now_us
    (spop_spec_rel key None).
Proof. by apply spop_run_implements. Qed.

Lemma SPop_count_implements rnd name key text now_us :
  implements_rel (ExecCmd SPopCmd rnd [name; key; text] now_us) key now_us
    (spop_spec_rel key (Some text)).
Proof.
  change (ExecCmd SPopCmd rnd [name; key; text] now_us) with
    (match ParseInt64 text with
      | None => mret (Error kIntegerError)
      | Some parsed_count =>
          if parsed_count <? 0 then mret (Error kIntegerError)
          else if parsed_count =? 0 then ReadSet key now_us (λ _, mret (Array []))
          else spop_run rnd true parsed_count [name; key; text] now_us
      end).
  unfold spop_spec_rel. destruct (ParseInt64 text) as [n|]; [|by apply implements_rel_ret].
  destruct (n <? 0) eqn:E1; [by apply implements_rel_ret|].
  destruct (n =? 0) eqn:E2; bool_prop.
  - intros e He. eexists _, Keep, e.
    rewrite (ReadSet_run key now_us _ (λ _, Array [])) by done. done.
  - apply spop_run_implements. lia.
Qed.

(** *** Reads *)

Ltac read_args := cbn; unfold mbind at 1, stM_bind at 1; unfold arg at 1, liftM at 1; cbn.

Lemma SIsMember_run rnd name key member now_us e :
  engine_ok e →
  ExecCmd SIsMemberCmd rnd [name; key; member] now_us e =
  Some (set_read_spec (λ s, flag_reply (bool_decide (member ∈ s)))
          (engine_live e now_us key), e).
Proof.
  intros He. read_args.
  apply (ReadSet_run key now_us _ (λ s, flag_reply (bool_decide (member ∈ s)))); [done|].
  intros [s|]; [|done]. unfold mbind, stM_bind. cbn. by rewrite to_gset_Contains, ToString_pack.
Qed.

Lemma SCard_run rnd name key now_us e :
  engine_ok e →
  ExecCmd SCardCmd rnd [name; key] now_us e =
  Some (set_read_spec (λ s, Integer (Z.of_nat (size s))) (engine_live e now_us key), e).
Proof.
  intros He. read_args.
  apply (ReadSet_run key now_us _ (λ s, Integer (Z.of_nat (size s)))); [done|].
  intros [s|]; cbn; [by rewrite to_gset_Size|done].
Qed.

Lemma SMIsMember_run rnd name key members now_us e :
  engine_ok e →
  ExecCmd SMIsMemberCmd rnd (name :: key :: members) now_us e =
  Some (set_read_spec (λ s, Array ((λ m, flag_reply (bool_decide (m ∈ s))) <$> members))
          (engine_live e now_us key), e).
Proof.
  intros He. read_args. apply (ReadSet_run key now_us _
    (λ s, Array ((λ m, flag_reply (bool_decide (m ∈ s))) <$> members))); [done|].
  intros set. rewrite skipn_0. cbn. unfold mret, stM_ret. do 3 f_equal.
  apply list_fmap_ext. intros _ m _. destruct set as [s|]; cbn; [|done].
  by rewrite to_gset_Contains, ToString_pack.
Qed.

(** What a set read answers about the concrete set. *)
Lemma ReadSet_rel key now_us reader (R : gset string → Response → Prop) e :
  engine_ok e →
  (∀ set : option SetValue, (∀ s, set = Some s → to_gset s ≠ ∅) →
     ∃ r, reader set e = Some (r, e) ∧ R (from_option to_gset ∅ set) r) →
  ∃ r, ReadSet key now_us reader e = Some (r, e) ∧
    match view_set (engine_live e now_us key) with
    | VWrong => r = Error kWrongTypeError
    | VMissing => R ∅ r
    | VHas s _ => R s r
    end.
Proof.
  intros He Hf. unfold ReadSet, mbind, stM_bind. rewrite engine_Get_run by apply He.
  unfold engine_live. rewrite <-Get_live.
  pose proof (Get_opt_ok e key now_us He) as Hok. revert Hok.
  generalize (Get (slot_of e key) key now_us).
  obj_cases; effect_simpl; eauto.
  apply (Hf (Some v)). by intros s [= <-].
Qed.

Lemma SMembers_run rnd name key now_us e :
  engine_ok e →
  ∃ r, ExecCmd SMembersCmd rnd [name; key] now_us e = Some (r, e) ∧
    match view_set (engine_live e now_us key) with
    | VWrong => r = Error kWrongTypeError
    | VMissing => r = Array []
    | VHas s _ => ∃ l, l ≡ₚ elements s ∧ r = Array (BulkString <$> l)
    end.
Proof.
  intros He. read_args.
  destruct (ReadSet_rel key now_us
    (λ set, mret (Array (from_option (λ s, MembersToResponses (set_ToVector s)) [] set))
            : engineM Response)
    (λ s r, ∃ l : list string, l ≡ₚ elements s ∧ r = Array (BulkString <$> l)) e He) as (r & E & H).
  - intros [s|] _; eexists; (split; [done|]); cbn.
    + exists (ToString <$> set_ToVector s). split; [apply to_gset_ToVector|].
      unfold MembersToResponses. by rewrite <-list_fmap_compose.
    + exists []. by rewrite elements_empty.
  - exists r. split; [exact E|]. destruct (view_set _); [|done|done].
    destruct H as (l & Hl & ->). rewrite elements_empty in Hl.
    by apply Permutation_nil_r in Hl as ->.
Qed.

(** SRANDMEMBER answers members of the set: without repetition, at most all
    of them, for a positive count; exactly [- count] of them for a negative
    one. *)
Definition srandmember_rel (count : option Z) (s : gset string) (r : Response) : Prop :=
  match count with
  | None => if decide (s = ∅) then r = NullBulk
            else ∃ m, m ∈ s ∧ r = BulkString m
  | Some n =>
      ∃ l, r = Array (BulkString <$> l) ∧ (∀ m, m ∈ l → m ∈ s) ∧
        if decide (s = ∅) then l = []
        else if 0 <=? n then NoDup l ∧ Z.of_nat (length l) = Z.min n (Z.of_nat (size s))
        else Z.of_nat (length l) = - n
  end.

Lemma replacement_members rnd s count :
  to_gset s ≠ ∅ → 0 <= count →
  let l := ToString <$> PickMembersWithReplacement rnd (set_ToVector s) count in
  Z.of_nat (length l) = count ∧ ∀ m, m ∈ l → m ∈ to_gset s.
Proof.
  intros Hs Hc. cbn zeta.
  destruct (PickMembersWithReplacement_spec rnd (set_ToVector s) count) as [Hl Hin]; [|done|].
  - intros E. apply set_Empty_ToVector in E. rewrite to_gset_Empty in E. by bool_prop.
  - rewrite length_fmap. split; [done|]. intros m (p & -> & Hp)%list_elem_of_fmap.
    rewrite to_gset_elem, pack_ToString. apply ToVector_Contains. by apply Hin.
Qed.

Lemma srandmember_reader_ok rnd count set e :
  (∀ s, set = Some s → to_gset s ≠ ∅) →
  ∃ r, srandmember_reader rnd count set e = Some (r, e) ∧
       srandmember_rel count (from_option to_gset ∅ set) r.
Proof.
  intros Hs. unfold srandmember_reader, srandmember_rel. destruct set as [s|]; cbn.
  2:{ destruct count as [n|]; cbn; eexists; (split; [done|]); [|done].
      exists []. split; [done|]. split; [set_solver|done]. }
  specialize (Hs s eq_refl). rewrite to_gset_Empty, bool_decide_eq_false_2 by done.
  destruct count as [n|].
  - destruct (n =? 0) eqn:E0; bool_prop; [subst|destruct (n >? 0) eqn:E1; bool_prop];
      eexists; (split; [done|]).
    + exists []. split; [done|]. split; [set_solver|]. rewrite decide_False by done.
      cbn. split; [constructor|lia].
    + destruct (picked_members rnd s n) as (Hnd & Hin & Hl); [lia|].
      eexists. rewrite MembersToResponses_fmap.
      split; [done|]. split; [done|].
      by rewrite decide_False, (proj2 (Z.leb_le 0 n)) by (done || lia).
    + destruct (replacement_members rnd s (- n)) as [Hl Hin]; [done|lia|].
      eexists. rewrite MembersToResponses_fmap.
      split; [done|]. split; [done|].
      by rewrite decide_False, (proj2 (Z.leb_gt 0 n)) by (done || lia).
  - destruct (replacement_members rnd s 1) as [Hl Hin]; [done|lia|].
    destruct (PickMembersWithReplacement rnd (set_ToVector s) 1) as [|p l]; [done|].
    unfold mbind, stM_bind, liftM. cbn. eexists. split; [done|]. rewrite decide_False by done.
    exists (ToString p). split; [|done]. apply Hin. left.
Qed.

Lemma SRandMember_run rnd name key count now_us e :
  engine_ok e →
  ∃ r, ExecCmd SRandMemberCmd rnd (name :: key :: option_list count) now_us e = Some (r, e) ∧
    match count with
    | Some text =>
        match ParseInt64 text with
        | None => r = Error kIntegerError
        | Some n =>
            if n =? INT64_MIN then r = Error kOutOfRangeError
            else match view_set (engine_live e now_us key) with
                 | VWrong => r = Error kWrongTypeError
                 | VMissing => srandmember_rel (Some n) ∅ r
                 | VHas s _ => srandmember_rel (Some n) s r
                 end
        end
    | None => match view_set (engine_live e now_us key) with
              | VWrong => r = Error kWrongTypeError
              | VMissing => srandmember_rel None ∅ r
              | VHas s _ => srandmember_rel None s r
              end
    end.
Proof.
  intros He. destruct count as [text|]; cbn; unfold arg, mbind at 1, stM_bind at 1, liftM at 1; cbn.
  - destruct (ParseInt64 text) as [n|]; [|by eexists].
    destruct (n =? INT64_MIN); [by eexists|]. unfold mbind, stM_bind. cbn.
    apply (ReadSet_rel key now_us _ (srandmember_rel (Some n))); [done|].
    intros set. apply srandmember_reader_ok.
  - apply (ReadSet_rel key now_us _ (srandmember_rel None)); [done|].
    intros set. apply srandmember_reader_ok.
Qed.
End set_cmd.
