(* ===== verification/ZSetCmd.v ===== *)
(** * Sorted-set commands: src/command/zset_cmd

    ZADD with its options, ZINCRBY, ZSCORE, ZREM, ZCARD, ZRANK, ZREVRANK,
    ZCOUNT and ZRANGE. A sorted set is a map from members to finite scores;
    its order (by score, then by bytes of the member) is computed when a
    command needs it. [std::sort] is [std_sort] of the prelude. *)

From S2P Require Import Prelude Text Containers Double RedisObject Binlog HashSlot Engine Response Command KeyCmd StringCmd HashCmd.

Definition kInvalidFloatError : string := "ERR value is not a valid float".
Definition kInvalidIncrementError : string := "ERR increment would produce NaN or Infinity".

(** ** Data *)

Record ZEntry := mkZEntry { ze_member : string; ze_score : double }.

Record ScoreBound := mkScoreBound { sb_value : double; sb_inclusive : bool }.

Inductive LexKind := kNegInf | kPosInf | kValue.
#[export] Instance LexKind_eq_dec : EqDecision LexKind.
Proof. solve_decision. Defined.

Record LexBound := mkLexBound { lb_kind : LexKind; lb_value : string; lb_inclusive : bool }.

Record ZAddOptions := mkZAddOptions {
  za_nx : bool; za_xx : bool; za_gt : bool; za_lt : bool; za_ch : bool; za_incr : bool;
}.
Definition ZAddOptions_default : ZAddOptions :=
  mkZAddOptions false false false false false false.

Record ZAddInput := mkZAddInput { zi_score : double; zi_member : string }.

Inductive ZAddError := kSyntax | kInvalidFloat.

Inductive RangeMode := kRank | kScore | kLex.
#[export] Instance RangeMode_eq_dec : EqDecision RangeMode.
Proof. solve_decision. Defined.

Record ZRangeOptions := mkZRangeOptions {
  zr_mode : RangeMode;
  zr_rev : bool;
  zr_with_scores : bool;
  zr_has_limit : bool;
  zr_offset : Z;
  zr_count : Z;
}.
Definition ZRangeOptions_default : ZRangeOptions := mkZRangeOptions kRank false false false 0 0.

(** ** Scores and their text *)

(** [FormatScore] of zset_cmd.cpp. *)
Definition ZFormatScore (score : double) : string := FormatScore (NormalizeZero score).

Definition ParseFiniteScore (text : string) : option double :=
  NormalizeZero <$> ParseFiniteDouble text.

Definition ParseScoreValue (text : string) (allow_infinity : bool) : option double :=
  let upper := ToUpperAscii text in
  if allow_infinity &&
     (bool_decide (upper = "+INF") || bool_decide (upper = "INF") ||
      bool_decide (upper = "+INFINITY") || bool_decide (upper = "INFINITY"))
  then Some (dinfinity false)
  else if allow_infinity && (bool_decide (upper = "-INF") || bool_decide (upper = "-INFINITY"))
  then Some (dinfinity true)
  else ParseFiniteScore text.

Definition ParseScoreBound (text : string) : option ScoreBound :=
  let '(inclusive, text') :=
    match text with
    | String "("%char rest => (false, rest)
    | _ => (true, text)
    end in
  match text' with
  | EmptyString => None
  | _ => (λ value, mkScoreBound value inclusive) <$> ParseScoreValue text' true
  end.

Definition ScoreInRange (score : double) (lower upper : ScoreBound) : bool :=
  let above_lower :=
    if sb_inclusive lower then dle (sb_value lower) score else dlt (sb_value lower) score in
  let below_upper :=
    if sb_inclusive upper then dle score (sb_value upper) else dlt score (sb_value upper) in
  above_lower && below_upper.

(** ** Byte order of members *)

(** [std::memcmp] on [n] bytes: the first difference decides. *)
Fixpoint memcmp (left right : string) (n : nat) : Z :=
  match n, left, right with
  | S n', String a left', String b right' =>
      if uchar a =? uchar b then memcmp left' right' n' else uchar a - uchar b
  | _, _, _ => 0
  end.

Definition CompareBinaryLex (left right : string) : Z :=
  let shared_size := Nat.min (String.length left) (String.length right) in
  let compared := memcmp left right shared_size in
  if compared <? 0 then -1
  else if compared >? 0 then 1
  else if (String.length left <? String.length right)%nat then -1
  else if (String.length right <? String.length left)%nat then 1
  else 0.

Definition ParseLexBound (text : string) : option LexBound :=
  if decide (text = "-") then Some (mkLexBound kNegInf "" true)
  else if decide (text = "+") then Some (mkLexBound kPosInf "" true)
  else
    match text with
    | String "["%char rest => Some (mkLexBound kValue rest true)
    | String "("%char rest => Some (mkLexBound kValue rest false)
    | _ => None
    end.

Definition LexAboveLower (member : string) (lower : LexBound) : bool :=
  match lb_kind lower with
  | kNegInf => true
  | kPosInf => false
  | kValue =>
      let compared := CompareBinaryLex member (lb_value lower) in
      if lb_inclusive lower then compared >=? 0 else compared >? 0
  end.

Definition LexBelowUpper (member : string) (upper : LexBound) : bool :=
  match lb_kind upper with
  | kPosInf => true
  | kNegInf => false
  | kValue =>
      let compared := CompareBinaryLex member (lb_value upper) in
      if lb_inclusive upper then compared <=? 0 else compared <? 0
  end.

Definition LexInRange (member : string) (lower upper : LexBound) : bool :=
  LexAboveLower member lower && LexBelowUpper member upper.

(** The comparison functions given to [std::sort]. *)
Definition lex_less (left right : ZEntry) : bool :=
  CompareBinaryLex (ze_member left) (ze_member right) <? 0.

Definition score_less (left right : ZEntry) : bool :=
  if negb (deq (ze_score left) (ze_score right))
  then dlt (ze_score left) (ze_score right)
  else CompareBinaryLex (ze_member left) (ze_member right) <? 0.

(** ** Ranges of entries *)

Definition FilterByScore (entries : list ZEntry) (lower upper : ScoreBound) : list ZEntry :=
  List.filter (λ entry, ScoreInRange (ze_score entry) lower upper) entries.

Definition FilterByLex (entries : list ZEntry) (lower upper : LexBound) : list ZEntry :=
  List.filter (λ entry, LexInRange (ze_member entry) lower upper) entries.

(** The elements from position [first] to before position [last]. *)
Definition subrange {A} (l : list A) (first last : Z) : list A :=
  take (Z.to_nat (last - first)) (drop (Z.to_nat first) l).

Definition ApplyRankRange (entries : list ZEntry) (start stop : Z) : list ZEntry :=
  let size := Z.of_nat (length entries) in
  if size =? 0 then []
  else
    let start := if start <? 0 then start + size else start in
    let stop := if stop <? 0 then stop + size else stop in
    let start := if start <? 0 then 0 else start in
    if (stop <? 0) || (start >=? size) then []
    else
      let stop := if stop >=? size then size - 1 else stop in
      if start >? stop then [] else subrange entries start (stop + 1).

Definition ApplyLimit (entries : list ZEntry) (offset count : Z) : list ZEntry :=
  if (offset <? 0) || (count =? 0) then []
  else
    let size := Z.of_nat (length entries) in
    if offset >=? size then []
    else
      let end_ := if (count >? 0) && (count <? size - offset) then offset + count else size in
      if end_ <=? offset then [] else subrange entries offset end_.

Definition AppendRangeResponse (entries : list ZEntry) (with_scores : bool) : Response :=
  Array (entries ≫= λ entry,
    BulkString (ze_member entry) ::
    (if with_scores : bool then [BulkString (ZFormatScore (ze_score entry))] else [])).

(** ** Arguments *)

(** The leading options of ZADD and the arguments after them. *)
Fixpoint parse_zadd_options (rest : list string) (o : ZAddOptions)
    : ZAddError + ZAddOptions * list string :=
  let '(mkZAddOptions nx xx gt lt ch incr) := o in
  match rest with
  | [] => inr (o, rest)
  | arg :: rest' =>
      let option := ToUpperAscii arg in
      if decide (option = "NX") then
        if nx then inl kSyntax else parse_zadd_options rest' (mkZAddOptions true xx gt lt ch incr)
      else if decide (option = "XX") then
        if xx then inl kSyntax else parse_zadd_options rest' (mkZAddOptions nx true gt lt ch incr)
      else if decide (option = "GT") then
        if gt then inl kSyntax else parse_zadd_options rest' (mkZAddOptions nx xx true lt ch incr)
      else if decide (option = "LT") then
        if lt then inl kSyntax else parse_zadd_options rest' (mkZAddOptions nx xx gt true ch incr)
      else if decide (option = "CH") then
        if ch then inl kSyntax else parse_zadd_options rest' (mkZAddOptions nx xx gt lt true incr)
      else if decide (option = "INCR") then
        if incr then inl kSyntax else parse_zadd_options rest' (mkZAddOptions nx xx gt lt ch true)
      else inr (o, rest)
  end.

(** The score-member pairs; their number of arguments is even. *)
Fixpoint zadd_inputs (rest : list string) : option (list ZAddInput) :=
  match rest with
  | [] => Some []
  | text :: member :: rest' =>
      score ← ParseFiniteScore text;
      inputs ← zadd_inputs rest';
      Some (mkZAddInput score member :: inputs)
  | [_] => None
  end.

Definition ParseZAddArgs (args : list string) : ZAddError + ZAddOptions * list ZAddInput :=
  match parse_zadd_options (drop 2 args) ZAddOptions_default with
  | inl error => inl error
  | inr (options, rest) =>
      if (za_nx options && za_xx options) || (za_nx options && za_gt options) ||
         (za_nx options && za_lt options) || (za_gt options && za_lt options)
      then inl kSyntax
      else
        let remaining := length rest in
        if (remaining <? 2)%nat || negb (remaining mod 2 =? 0)%nat then inl kSyntax
        else if za_incr options && negb (remaining =? 2)%nat then inl kSyntax
        else match zadd_inputs rest with
             | None => inl kInvalidFloat
             | Some inputs => inr (options, inputs)
             end
  end.

(** [None] is the error reply, [Error kSyntaxError]. *)
Fixpoint ParseZRangeOptions_loop (rest : list string) (o : ZRangeOptions)
    : option ZRangeOptions :=
  let '(mkZRangeOptions mode rev with_scores has_limit offset count) := o in
  match rest with
  | [] => if has_limit && bool_decide (mode = kRank) then None else Some o
  | arg :: rest1 =>
      let option := ToUpperAscii arg in
      if decide (option = "BYSCORE") then
        if decide (mode ≠ kRank) then None
        else ParseZRangeOptions_loop rest1
               (mkZRangeOptions kScore rev with_scores has_limit offset count)
      else if decide (option = "BYLEX") then
        if decide (mode ≠ kRank) then None
        else ParseZRangeOptions_loop rest1
               (mkZRangeOptions kLex rev with_scores has_limit offset count)
      else if decide (option = "REV") then
        if rev then None
        else ParseZRangeOptions_loop rest1
               (mkZRangeOptions mode true with_scores has_limit offset count)
      else if decide (option = "WITHSCORES") then
        if with_scores then None
        else ParseZRangeOptions_loop rest1
               (mkZRangeOptions mode rev true has_limit offset count)
      else if decide (option = "LIMIT") then
        match has_limit, rest1 with
        | false, offset_text :: count_text :: rest3 =>
            match ParseInt64 offset_text, ParseInt64 count_text with
            | Some offset', Some count' =>
                ParseZRangeOptions_loop rest3
                  (mkZRangeOptions mode rev with_scores true offset' count')
            | _, _ => None
            end
        | _, _ => None
        end
      else None
  end.

Definition ParseZRangeOptions (args : list string) : option ZRangeOptions :=
  ParseZRangeOptions_loop (drop 4 args) ZRangeOptions_default.

(** ** The commands *)

(** The variables the mutator of [IncrementZSetMember] captures. *)
Record zincr_flags := mkZIncrFlags {
  zf_wrong_type : bool;
  zf_prevented : bool;
  zf_invalid_result : bool;
  zf_result_ready : bool;
  zf_result_score : double;
}.

(** Those of ZADD. *)
Record zadd_flags := mkZAddFlags {
  zd_wrong_type : bool;
  zd_added_count : Z;
  zd_changed_count : Z;
}.

Section zset_cmd.
Context {IC : ImmutableContainer}.

(** [MakeRecord(args)] of zset_cmd.cpp. *)
Definition ZMakeRecord (args : list string) : BinlogRecord :=
  match args with
  | [] => record_of_args []
  | name :: rest => record_of_args (ToUpperAscii name :: rest)
  end.

Definition PreserveDeadline (object : RedisObject) (deadline_us : Z) : RedisObject :=
  if deadline_us =? 0 then object else WithDeadline object deadline_us.

Definition EntriesByLex (zset : ZSetValue) : list ZEntry :=
  std_sort lex_less ((λ '(member, score), mkZEntry (ToString member) score)
                       <$> map_ForEach zset).
Definition EntriesByScore (zset : ZSetValue) : list ZEntry :=
  std_sort score_less (EntriesByLex zset).
Definition EntriesByScoreReverse (zset : ZSetValue) : list ZEntry :=
  reverse (EntriesByScore zset).

(** [ReadZSet]: missing, of the wrong type, or the set. *)
Definition ReadZSet (key : string) (now_us : Z) : engineM (view ZSetValue) :=
  obj ← engine_Get key now_us;
  mret match obj with
       | None => VMissing
       | Some o => match type_ o, ZSet o with
                   | kZSet, Some zset => VHas zset (deadline_us_ o)
                   | _, _ => VWrong
                   end
       end.

(** The end of the mutator of [IncrementZSetMember]. *)
Definition zincr_apply (increment : double) (member : string) (options : ZAddOptions)
    (zset : ZSetValue) (deadline_us : Z) : MutationResult * zincr_flags :=
  let packed_member := pack member in
  let found := map_Find zset packed_member in
  let exists_ := has_value found in
  let unchanged (prevented invalid ready : bool) (score : double) :=
    (mkMutationResult false None None, mkZIncrFlags false prevented invalid ready score) in
  if (exists_ && za_nx options) || (negb exists_ && za_xx options) then
    unchanged true false false dzero
  else
    let old_score := default dzero found in
    let next_score := NormalizeZero (dadd old_score increment) in
    if negb (isfinite next_score) then unchanged false true false dzero
    else if exists_ && za_gt options && negb (dlt old_score next_score) then
      unchanged true false false dzero
    else if exists_ && za_lt options && negb (dlt next_score old_score) then
      unchanged true false false dzero
    else if exists_ && deq next_score old_score then unchanged false false true next_score
    else
      let obj := MakeZSet (map_Set zset packed_member next_score) in
      (mkMutationResult true (Some (PreserveDeadline obj deadline_us)) None,
       mkZIncrFlags false false false true next_score).

Definition zincr_mutator (increment : double) (member : string) (options : ZAddOptions)
    (existing : option RedisObject) : MutationResult * zincr_flags :=
  match existing with
  | None => zincr_apply increment member options map_new 0
  | Some o =>
      match type_ o, ZSet o with
      | kZSet, Some zset => zincr_apply increment member options zset (deadline_us_ o)
      | _, _ => (mkMutationResult false None None, mkZIncrFlags true false false false dzero)
      end
  end.

Definition zincr_reply (f : zincr_flags) : Response :=
  if zf_wrong_type f then Error kWrongTypeError
  else if zf_invalid_result f then Error kInvalidIncrementError
  else if zf_prevented f && negb (zf_result_ready f) then NullBulk
  else BulkString (ZFormatScore (zf_result_score f)).

Definition IncrementZSetMember (args : list string) (now_us : Z) (key : string)
    (increment : double) (member : string) (options : ZAddOptions) : engineM Response :=
  '(_, flags) ← engine_Mutate key (zincr_mutator increment member options)
                  (ZMakeRecord args) now_us;
  mret (zincr_reply flags).

(** One input of the loop of ZADD: the counts [added_count] and
    [changed_count], and the set; [changed] says one of them moved. *)
Definition zadd_step (options : ZAddOptions) (acc : Z * Z * ZSetValue * bool)
    (input : ZAddInput) : Z * Z * ZSetValue * bool :=
  let '(added_count, changed_count, zset, changed) := acc in
  let member := pack (zi_member input) in
  match map_Find zset member with
  | None =>
      if za_xx options then acc
      else (added_count + 1, changed_count, map_Set zset member (zi_score input), true)
  | Some found =>
      if za_nx options then acc
      else if za_gt options && negb (dlt found (zi_score input)) then acc
      else if za_lt options && negb (dlt (zi_score input) found) then acc
      else if deq (zi_score input) found then acc
      else (added_count, changed_count + 1, map_Set zset member (zi_score input), true)
  end.

Definition zadd_apply (options : ZAddOptions) (inputs : list ZAddInput) (zset : ZSetValue)
    (deadline_us : Z) : MutationResult * zadd_flags :=
  let '(added_count, changed_count, zset', changed) :=
    foldl (zadd_step options) (0, 0, zset, false) inputs in
  (if changed : bool
   then mkMutationResult true (Some (PreserveDeadline (MakeZSet zset') deadline_us)) None
   else mkMutationResult false None None,
   mkZAddFlags false added_count changed_count).

Definition zadd_mutator (options : ZAddOptions) (inputs : list ZAddInput)
    (existing : option RedisObject) : MutationResult * zadd_flags :=
  match existing with
  | None => zadd_apply options inputs map_new 0
  | Some o =>
      match type_ o, ZSet o with
      | kZSet, Some zset => zadd_apply options inputs zset (deadline_us_ o)
      | _, _ => (mkMutationResult false None None, mkZAddFlags true 0 0)
      end
  end.

Definition zadd_reply (options : ZAddOptions) (f : zadd_flags) : Response :=
  if zd_wrong_type f then Error kWrongTypeError
  else Integer (if za_ch options then zd_added_count f + zd_changed_count f
                else zd_added_count f).

Definition ZAddCmd : RedisCmd := {|
  CheckArity args := CheckMinArity args 4 "zadd";
  ExecCmd _ args now_us :=
    match ParseZAddArgs args with
    | inl kSyntax => mret (Error kSyntaxError)
    | inl kInvalidFloat => mret (Error kInvalidFloatError)
    | inr (options, inputs) =>
        key ← arg args 1;
        if za_incr options then
          input ← liftM (inputs !! 0%nat);
          IncrementZSetMember args now_us key (zi_score input) (zi_member input) options
        else
          '(_, flags) ← engine_Mutate key (zadd_mutator options inputs)
                          (ZMakeRecord args) now_us;
          mret (zadd_reply options flags)
    end;
|}.

Definition ZScoreCmd : RedisCmd := {|
  CheckArity args := CheckExactArity args 3 "zscore";
  ExecCmd _ args now_us :=
    key ← arg args 1;
    obj ← engine_Get key now_us;
    match obj with
    | None => mret NullBulk
    | Some o =>
        match type_ o, ZSet o with
        | kZSet, Some zset =>
            member ← arg args 2;
            mret (bulk_or_null (ZFormatScore <$> map_Find zset (pack member)))
        | _, _ => mret (Error kWrongTypeError)
        end
    end;
|}.

Definition zrem_step (acc : Z * ZSetValue) (member : string) : Z * ZSetValue :=
  let '(removed_count, zset) := acc in
  match map_Erase zset (pack member) with
  | None => acc
  | Some next => (removed_count + 1, next)
  end.

Definition zrem_mutator (members : list string) (existing : option RedisObject)
    : MutationResult * (bool * Z) :=
  match existing with
  | None => (mkMutationResult false None None, (false, 0))
  | Some o =>
      match type_ o, ZSet o with
      | kZSet, Some zset =>
          let '(removed_count, zset') := foldl zrem_step (0, zset) members in
          (if removed_count =? 0 then mkMutationResult false None None
           else if map_Empty zset' then mkMutationResult true None None
           else mkMutationResult true
                  (Some (PreserveDeadline (MakeZSet zset') (deadline_us_ o))) None,
           (false, removed_count))
      | _, _ => (mkMutationResult false None None, (true, 0))
      end
  end.

Definition ZRemCmd : RedisCmd := {|
  CheckArity args := CheckMinArity args 3 "zrem";
  ExecCmd _ args now_us :=
    key ← arg args 1;
    '(_, flags) ← engine_Mutate key (zrem_mutator (drop 2 args)) (ZMakeRecord args) now_us;
    mret (count_reply flags);
|}.

Definition ZCardCmd : RedisCmd := {|
  CheckArity args := CheckExactArity args 2 "zcard";
  ExecCmd _ args now_us :=
    key ← arg args 1;
    read ← ReadZSet key now_us;
    mret match read with
         | VMissing => Integer 0
         | VWrong => Error kWrongTypeError
         | VHas zset _ => Integer (map_Size zset)
         end;
|}.

(** The search loop of [RankResponse]. *)
Definition find_index (member : string) (entries : list ZEntry) : option nat :=
  fst <$> list_find (λ entry, ze_member entry = member) entries.

Definition RankResponse (now_us : Z) (key member : string) (reverse : bool)
    : engineM Response :=
  read ← ReadZSet key now_us;
  mret match read with
       | VMissing => NullBulk
       | VWrong => Error kWrongTypeError
       | VHas zset _ =>
           let entries := if reverse then EntriesByScoreReverse zset else EntriesByScore zset in
           match find_index member entries with
           | Some index => Integer (Z.of_nat index)
           | None => NullBulk
           end
       end.

Definition ZRankCmd : RedisCmd := {|
  CheckArity args := CheckExactArity args 3 "zrank";
  ExecCmd _ args now_us :=
    key ← arg args 1; member ← arg args 2; RankResponse now_us key member false;
|}.

Definition ZRevRankCmd : RedisCmd := {|
  CheckArity args := CheckExactArity args 3 "zrevrank";
  ExecCmd _ args now_us :=
    key ← arg args 1; member ← arg args 2; RankResponse now_us key member true;
|}.

Definition ZCountCmd : RedisCmd := {|
  CheckArity args := CheckExactArity args 4 "zcount";
  ExecCmd _ args now_us :=
    lower_arg ← arg args 2;
    upper_arg ← arg args 3;
    match ParseScoreBound lower_arg, ParseScoreBound upper_arg with
    | Some lower, Some upper =>
        key ← arg args 1;
        read ← ReadZSet key now_us;
        mret match read with
             | VMissing => Integer 0
             | VWrong => Error kWrongTypeError
             | VHas zset _ =>
                 Integer (foldl (λ count '(_, score),
                                   if ScoreInRange score lower upper then count + 1 else count)
                            0 (map_ForEach zset))
             end
    | _, _ => mret (Error kInvalidFloatError)
    end;
|}.

Definition ZIncrByCmd : RedisCmd := {|
  CheckArity args := CheckExactArity args 4 "zincrby";
  ExecCmd _ args now_us :=
    text ← arg args 2;
    match ParseFiniteScore text with
    | None => mret (Error kInvalidFloatError)
    | Some increment =>
        key ← arg args 1;
        member ← arg args 3;
        IncrementZSetMember args now_us key increment member ZAddOptions_default
    end;
|}.

(** The bounds of ZRANGE, by mode; the error is the reply. *)
Inductive zrange_bounds :=
  | ByRank (start stop : Z)
  | ByScore (lower upper : ScoreBound)
  | ByLex (lower upper : LexBound).

Definition ParseZRangeBounds (options : ZRangeOptions) (arg2 arg3 : string)
    : Response + zrange_bounds :=
  let lower_arg := if zr_rev options then arg3 else arg2 in
  let upper_arg := if zr_rev options then arg2 else arg3 in
  match zr_mode options with
  | kRank =>
      match ParseInt64 arg2, ParseInt64 arg3 with
      | Some start, Some stop => inr (ByRank start stop)
      | _, _ => inl (Error kSyntaxError)
      end
  | kScore =>
      match ParseScoreBound lower_arg, ParseScoreBound upper_arg with
      | Some lower, Some upper => inr (ByScore lower upper)
      | _, _ => inl (Error kInvalidFloatError)
      end
  | kLex =>
      match ParseLexBound lower_arg, ParseLexBound upper_arg with
      | Some lower, Some upper => inr (ByLex lower upper)
      | _, _ => inl (Error kSyntaxError)
      end
  end.

(** The entries ZRANGE selects from a set, in reply order. *)
Definition zrange_entries (options : ZRangeOptions) (bounds : zrange_bounds)
    (zset : ZSetValue) : list ZEntry :=
  match bounds with
  | ByRank start stop =>
      ApplyRankRange (if zr_rev options then EntriesByScoreReverse zset
                      else EntriesByScore zset) start stop
  | _ =>
      let entries :=
        match bounds with
        | ByScore lower upper => FilterByScore (EntriesByScore zset) lower upper
        | ByLex lower upper => FilterByLex (EntriesByLex zset) lower upper
        | ByRank _ _ => []
        end in
      let entries := if zr_rev options then reverse entries else entries in
      if zr_has_limit options
      then ApplyLimit entries (zr_offset options) (zr_count options) else entries
  end.

Definition ZRangeCmd : RedisCmd := {|
  CheckArity args := CheckMinArity args 4 "zrange";
  ExecCmd _ args now_us :=
    match ParseZRangeOptions args with
    | None => mret (Error kSyntaxError)
    | Some options =>
        arg2 ← arg args 2;
        arg3 ← arg args 3;
        match ParseZRangeBounds options arg2 arg3 with
        | inl error => mret error
        | inr bounds =>
            key ← arg args 1;
            read ← ReadZSet key now_us;
            mret match read with
                 | VMissing => Array []
                 | VWrong => Error kWrongTypeError
                 | VHas zset _ =>
                     AppendRangeResponse (zrange_entries options bounds zset)
                       (zr_with_scores options)
                 end
        end
    end;
|}.
End zset_cmd.

(** ** Specifications *)

Section zset_spec.
Context {IC : ImmutableContainer}.

Abbreviation zmap := (gmap string double).

(** A conditional update of one member: [Some] when the score is stored. *)
Definition zadd_admits (options : ZAddOptions) (old : option double) (new : double) : bool :=
  match old with
  | None => negb (za_xx options)
  | Some found =>
      negb (za_nx options) && (negb (za_gt options) || dlt found new) &&
      (negb (za_lt options) || dlt new found) && negb (deq new found)
  end.

Definition zadd_member (options : ZAddOptions) (acc : zmap * Z) (input : ZAddInput)
    : zmap * Z :=
  let '(z, changes) := acc in
  if zadd_admits options (z !! zi_member input) (zi_score input)
  then (<[zi_member input := zi_score input]> z, changes + 1) else acc.

Definition zadd_spec (largs : list string) (options : ZAddOptions) (inputs : list ZAddInput)
    (o : option aobj) : effect * Response :=
  let apply (z : zmap) (d : Z) :=
    let '(z', changes) := foldl (zadd_member options) (z, 0) inputs in
    (if changes =? 0 then Keep else store (AZSet z') d largs,
     Integer (if za_ch options then changes
              else Z.of_nat (size z') - Z.of_nat (size z))) in
  match view_zset o with
  | VWrong => (Keep, Error kWrongTypeError)
  | VMissing => apply ∅ 0
  | VHas z d => apply z d
  end.

Definition zincr_apply_spec (largs : list string) (options : ZAddOptions)
    (increment : double) (member : string) (z : zmap) (d : Z) : effect * Response :=
  let old := z !! member in
  let refused := if has_value old then za_nx options else za_xx options in
  let next := NormalizeZero (dadd (default dzero old) increment) in
  let held (x : double) :=
    (za_gt options && negb (dlt x next)) || (za_lt options && negb (dlt next x)) in
  if refused then (Keep, NullBulk)
  else if negb (isfinite next) then (Keep, Error kInvalidIncrementError)
  else if from_option held false old then (Keep, NullBulk)
  else
    (if from_option (deq next) false old then Keep
     else store (AZSet (<[member := next]> z)) d largs,
     BulkString (ZFormatScore next)).

Definition zincr_spec (largs : list string) (options : ZAddOptions) (increment : double)
    (member : string) (o : option aobj) : effect * Response :=
  match view_zset o with
  | VWrong => (Keep, Error kWrongTypeError)
  | VMissing => zincr_apply_spec largs options increment member ∅ 0
  | VHas z d => zincr_apply_spec largs options increment member z d
  end.

(** ZADD with its arguments parsed: [rest] follows the key. *)
Definition zadd_cmd_spec (key : string) (rest : list string) (o : option aobj)
    : effect * Response :=
  let largs := "ZADD" :: key :: rest in
  match ParseZAddArgs largs with
  | inl kSyntax => (Keep, Error kSyntaxError)
  | inl kInvalidFloat => (Keep, Error kInvalidFloatError)
  | inr (options, inputs) =>
      match za_incr options, inputs with
      | true, input :: _ => zincr_spec largs options (zi_score input) (zi_member input) o
      | _, _ => zadd_spec largs options inputs o
      end
  end.

Definition zincrby_spec (key text member : string) (o : option aobj) : effect * Response :=
  match ParseFiniteScore text with
  | None => (Keep, Error kInvalidFloatError)
  | Some increment =>
      zincr_spec ["ZINCRBY"; key; text; member] ZAddOptions_default increment member o
  end.

Definition zrem_spec (largs members : list string) (o : option aobj) : effect * Response :=
  match view_zset o with
  | VWrong => (Keep, Error kWrongTypeError)
  | VMissing => (Keep, Integer 0)
  | VHas z d =>
      let z' := foldl (λ z m, delete m z) z members in
      (if bool_decide (z' = z) then Keep
       else if bool_decide (z' = ∅) then Write None largs
       else store (AZSet z') d largs,
       Integer (Z.of_nat (size z) - Z.of_nat (size z')))
  end.

(** A read of the sorted set of a key, with the reply for a missing one. *)
Definition zset_read_spec (missing : Response) (f : zmap → Response) (o : option aobj)
    : Response :=
  match view_zset o with
  | VWrong => Error kWrongTypeError
  | VMissing => missing
  | VHas z _ => f z
  end.

(** *** Arguments *)

Lemma NormalizeZero_finite x : finite x → finite (NormalizeZero x).
Proof. unfold NormalizeZero. by destruct (deq x dzero). Qed.

Lemma ParseFiniteScore_finite text x : ParseFiniteScore text = Some x → finite x.
Proof.
  unfold ParseFiniteScore. intros (y & Hy & ->)%fmap_Some.
  by eapply NormalizeZero_finite, ParseFiniteDouble_finite.
Qed.

Lemma zadd_inputs_finite n rest inputs :
  (length rest <= n)%nat →
  zadd_inputs rest = Some inputs → Forall (λ i, finite (zi_score i)) inputs ∧
    (2 * length inputs = length rest)%nat.
Proof.
  revert rest inputs. induction n as [|n IH]; intros [|t [|m rest]] inputs Hl; cbn in *;
    try done; try lia; try by intros [= <-].
  intros (x & Hx & (l & Hr & [= <-])%bind_Some)%bind_Some.
  apply IH in Hr as [Hf Hlen]; [|lia]. cbn. split; [|lia].
  constructor; [by eapply ParseFiniteScore_finite|done].
Qed.

(** Parsed inputs are there, and their scores are finite. *)
Lemma ParseZAddArgs_ok args options inputs :
  ParseZAddArgs args = inr (options, inputs) →
  inputs ≠ [] ∧ Forall (λ i, finite (zi_score i)) inputs ∧
  (za_incr options = true → length inputs = 1%nat).
Proof.
  unfold ParseZAddArgs. destruct (parse_zadd_options _ _) as [e|[o rest]]; [done|].
  destruct (_ || _ || _ || _); [done|]. destruct (_ || _) eqn:E; [done|].
  destruct (za_incr o && _) eqn:Ei; [done|].
  destruct (zadd_inputs rest) as [l|] eqn:El; [|done]. intros [= <- <-].
  apply (zadd_inputs_finite (length rest)) in El as [Hf Hl]; [|done].
  apply orb_false_iff in E as [E _]. apply Nat.ltb_ge in E.
  split; [destruct l; [cbn in Hl; lia|done]|]. split; [done|]. intros Hi.
  rewrite Hi in Ei. cbn in Ei. apply negb_false_iff, Nat.eqb_eq in Ei. lia.
Qed.

(** *** Mutators *)

Lemma PreserveDeadline_With z d :
  PreserveDeadline (MakeZSet z) d = WithDeadline (MakeZSet z) d.
Proof.
  unfold PreserveDeadline. destruct (d =? 0) eqn:E; bool_prop; [by subst|done].
Qed.

#[local] Arguments PreserveDeadline _ _ : simpl never.

Lemma zset_object_abs z d :
  abs_object (PreserveDeadline (MakeZSet z) d) = mkAObj d (AZSet (to_gmap z)).
Proof. rewrite PreserveDeadline_With. by autorewrite with cache. Qed.

Lemma zset_object_ok z d :
  to_gmap z ≠ ∅ → map_Forall (λ _ x, finite x) (to_gmap z) → is_u64 d →
  object_ok (PreserveDeadline (MakeZSet z) d).
Proof. intros Hz Hf Hd. rewrite PreserveDeadline_With. by constructor. Qed.

Context {CL : ContainerLaws IC}.

Lemma zset_Set z m x : to_gmap (map_Set z (pack m) x : ZSetValue) = <[m := x]> (to_gmap z).
Proof. by rewrite to_gmap_Set, ToString_pack. Qed.

Lemma zset_Find (z : ZSetValue) m : map_Find z (pack m) = to_gmap z !! m.
Proof. by rewrite to_gmap_Find, ToString_pack. Qed.

Lemma zincr_apply_ok record options increment member z d b :
  is_u64 d → map_Forall (λ _ x, finite x) (to_gmap z) →
  let '(m, x) := zincr_apply increment member options z d in
  (mutation_effect b m record, zincr_reply x) =
    zincr_apply_spec (rec_args record) options increment member (to_gmap z) d ∧
  opt_ok (mr_object m) ∧ mr_record m = None.
Proof.
  intros Hd Hf. unfold zincr_apply, zincr_apply_spec. rewrite zset_Find.
  set (next := NormalizeZero _).
  destruct (to_gmap z !! member) as [old|] eqn:Eo; cbn.
  - rewrite orb_false_r. destruct (za_nx options); cbn; [done|].
    destruct (isfinite next) eqn:En; cbn; [|done].
    destruct (za_gt options && negb (dlt old next)); cbn; [done|].
    destruct (za_lt options && negb (dlt next old)); cbn; [done|].
    destruct (deq next old); cbn; [done|]. effect_simpl. rewrite zset_object_abs, zset_Set.
    split; [done|]. split; [|done]. intros x [= <-]. apply zset_object_ok; [| |done].
    + rewrite zset_Set. apply insert_non_empty.
    + rewrite zset_Set. by apply map_Forall_insert_2.
  - destruct (za_xx options); cbn; [done|].
    destruct (isfinite next) eqn:En; cbn; [|done]. effect_simpl.
    rewrite zset_object_abs, zset_Set.
    split; [done|]. split; [|done]. intros x [= <-]. apply zset_object_ok; [| |done].
    + rewrite zset_Set. apply insert_non_empty.
    + rewrite zset_Set. by apply map_Forall_insert_2.
Qed.

Lemma zincr_mutator_ok key record options increment member :
  rec_args record !! 1%nat = Some key →
  mutator_ok key record (zincr_mutator increment member options) zincr_reply
    (zincr_spec (rec_args record) options increment member).
Proof.
  intros Hkey.
  obj_cases; unfold zincr_spec, zincr_mutator, view_zset, view_with; cbn;
    try (by repeat split).
  - destruct Hne as [_ Hf].
    pose proof (zincr_apply_ok record options increment member v d true Hd Hf) as H.
    destruct (zincr_apply _ _ _ _ _) as [m x]. destruct H as (H & Ho & Hr). cbn.
    rewrite Hr. by split.
  - pose proof (zincr_apply_ok record options increment member map_new 0 false) as H.
    rewrite to_gmap_new in H.
    destruct (zincr_apply _ _ _ _ _) as [m x]. destruct H as (H & Ho & Hr).
    { done. }
    { apply map_Forall_empty. }
    cbn. rewrite Hr. by split.
Qed.

Lemma IncrementZSetMember_implements name key rest options increment member now_us :
  implements (IncrementZSetMember (name :: key :: rest) now_us key increment member options)
    key now_us (zincr_spec (ToUpperAscii name :: key :: rest) options increment member).
Proof.
  apply (implements_Mutate key (ZMakeRecord (name :: key :: rest))
    (zincr_mutator increment member options) zincr_reply).
  by apply zincr_mutator_ok.
Qed.

Lemma zadd_step_spec options a c z ch input :
  finite (zi_score input) → map_Forall (λ _ x, finite x) (to_gmap z) →
  ch = negb (a + c =? 0) → 0 <= a → 0 <= c →
  let '(a', c', z', ch') := zadd_step options (a, c, z, ch) input in
  zadd_member options (to_gmap z, a + c) input = (to_gmap z', a' + c') ∧
  a' = a + Z.of_nat (size (to_gmap z')) - Z.of_nat (size (to_gmap z)) ∧
  map_Forall (λ _ x, finite x) (to_gmap z') ∧
  ch' = negb (a' + c' =? 0) ∧ 0 <= a' ∧ 0 <= c'.
Proof.
  intros Hx Hz Hch Ha Hc. unfold zadd_step, zadd_member, zadd_admits. rewrite zset_Find.
  assert (map_Forall (λ _ x, finite x) (to_gmap (map_Set z (pack (zi_member input)) (zi_score input)))).
  { rewrite zset_Set. by apply map_Forall_insert_2. }
  destruct (to_gmap z !! zi_member input) as [old|] eqn:Eo; cbn.
  - assert (∀ b1 b2 : bool, b1 && negb b2 = negb (negb b1 || b2)) as Hb by (by intros [] []).
    rewrite !Hb.
    destruct (za_nx options); cbn; [repeat split; done || lia|].
    destruct (negb (za_gt options) || _); cbn; [|repeat split; done || lia].
    destruct (negb (za_lt options) || _); cbn; [|repeat split; done || lia].
    destruct (deq _ _); cbn; [repeat split; done || lia|].
    rewrite !zset_Set in *. rewrite map_size_insert, Eo. cbn. repeat split; try done; try lia.
    f_equal. lia.
  - destruct (za_xx options); cbn; [repeat split; done || lia|].
    rewrite !zset_Set in *. rewrite map_size_insert, Eo. cbn. repeat split; try done; try lia.
    f_equal. lia.
Qed.

Lemma zadd_loop_spec options inputs a c z ch :
  Forall (λ i, finite (zi_score i)) inputs → map_Forall (λ _ x, finite x) (to_gmap z) →
  ch = negb (a + c =? 0) → 0 <= a → 0 <= c →
  let '(a', c', z', ch') := foldl (zadd_step options) (a, c, z, ch) inputs in
  foldl (zadd_member options) (to_gmap z, a + c) inputs = (to_gmap z', a' + c') ∧
  a' = a + Z.of_nat (size (to_gmap z')) - Z.of_nat (size (to_gmap z)) ∧
  map_Forall (λ _ x, finite x) (to_gmap z') ∧ ch' = negb (a' + c' =? 0).
Proof.
  intros Hi. revert a c z ch. induction Hi as [|i inputs Hx Hi IH]; intros a c z ch Hz Hch Ha Hc.
  { cbn. repeat split; try done. lia. }
  cbn [foldl]. pose proof (zadd_step_spec options a c z ch i Hx Hz Hch Ha Hc) as H1.
  destruct (zadd_step options (a, c, z, ch) i) as [[[a1 c1] z1] ch1].
  destruct H1 as (-> & E1 & Hz1 & Hch1 & Ha1 & Hc1).
  specialize (IH a1 c1 z1 ch1 Hz1 Hch1 Ha1 Hc1).
  destruct (foldl (zadd_step options) _ inputs) as [[[a' c'] z'] ch'].
  destruct IH as (-> & E & Hz' & Hch'). repeat split; try done. lia.
Qed.

Lemma zadd_changes_nonempty options inputs z n :
  0 <= n → (n ≠ 0 → z ≠ ∅) →
  let '(z', n') := foldl (zadd_member options) (z, n) inputs in
  0 <= n' ∧ (n' ≠ 0 → z' ≠ ∅).
Proof.
  revert z n. induction inputs as [|i inputs IH]; intros z n Hn Hz; cbn [foldl]; [done|].
  unfold zadd_member at 2. destruct (zadd_admits _ _ _); apply IH; [lia| |done|done].
  intros _. apply insert_non_empty.
Qed.

Lemma zadd_apply_ok record options inputs z d b :
  Forall (λ i, finite (zi_score i)) inputs →
  is_u64 d → map_Forall (λ _ x, finite x) (to_gmap z) →
  let '(m, x) := zadd_apply options inputs z d in
  (mutation_effect b m record, zadd_reply options x) =
    (let '(z', changes) := foldl (zadd_member options) (to_gmap z, 0) inputs in
     (if changes =? 0 then Keep else store (AZSet z') d (rec_args record),
      Integer (if za_ch options then changes
               else Z.of_nat (size z') - Z.of_nat (size (to_gmap z))))) ∧
  opt_ok (mr_object m) ∧ mr_record m = None.
Proof.
  intros Hi Hd Hf. unfold zadd_apply.
  pose proof (zadd_loop_spec options inputs 0 0 z false Hi Hf eq_refl) as H.
  destruct (foldl (zadd_step options) _ inputs) as [[[a c] z'] ch].
  destruct H as (E & -> & Hf' & ->); [lia|lia|]. rewrite !Z.add_0_l in *.
  pose proof (zadd_changes_nonempty options inputs (to_gmap z) 0) as Hne. rewrite E in *.
  destruct Hne as [Hc Hne]; [lia|done|].
  set (n := _ + c) in *. destruct (n =? 0) eqn:E0; cbn; bool_prop.
  - split; [|done]. effect_simpl. unfold zadd_reply. by cbn.
  - effect_simpl. rewrite zset_object_abs. split; [by unfold zadd_reply|].
    split; [|done]. intros x [= <-]. apply zset_object_ok; [by apply Hne|done|done].
Qed.

Lemma zadd_mutator_ok key record options inputs :
  Forall (λ i, finite (zi_score i)) inputs → rec_args record !! 1%nat = Some key →
  mutator_ok key record (zadd_mutator options inputs) (zadd_reply options)
    (zadd_spec (rec_args record) options inputs).
Proof.
  intros Hi Hkey.
  obj_cases; unfold zadd_spec, zadd_mutator, view_zset, view_with; cbn;
    try (by repeat split).
  - destruct Hne as [_ Hf].
    pose proof (zadd_apply_ok record options inputs v d true Hi Hd Hf) as H.
    destruct (zadd_apply _ _ _ _) as [m x]. destruct H as (H & Ho & Hr). cbn.
    rewrite Hr. by split.
  - pose proof (zadd_apply_ok record options inputs map_new 0 false Hi) as H.
    rewrite to_gmap_new in H.
    destruct (zadd_apply _ _ _ _) as [m x]. destruct H as (H & Ho & Hr).
    { done. }
    { apply map_Forall_empty. }
    cbn. rewrite Hr. by split.
Qed.

Lemma ZAdd_implements rnd name key rest now_us :
  ToUpperAscii name = "ZADD" →
  implements (ExecCmd ZAddCmd rnd (name :: key :: rest) now_us) key now_us
    (zadd_cmd_spec key rest).
Proof.
  intros Hn. cbn. unfold zadd_cmd_spec.
  change (ParseZAddArgs (name :: key :: rest)) with (ParseZAddArgs ("ZADD" :: key :: rest)).
  destruct (ParseZAddArgs _) as [[]|[options inputs]] eqn:E; [by apply implements_ret..|].
  apply ParseZAddArgs_ok in E as (Hne & Hf & _). apply implements_arg. rewrite <-Hn.
  destruct inputs as [|i inputs]; [done|].
  destruct (za_incr options).
  - apply implements_arg. apply IncrementZSetMember_implements.
  - apply (implements_Mutate key (ZMakeRecord (name :: key :: rest))
      (zadd_mutator options (i :: inputs)) (zadd_reply options)).
    by apply zadd_mutator_ok.
Qed.

Lemma ZIncrBy_implements rnd name key text member now_us :
  ToUpperAscii name = "ZINCRBY" →
  implements (ExecCmd ZIncrByCmd rnd [name; key; text; member] now_us) key now_us
    (zincrby_spec key text member).
Proof.
  intros Hn. apply implements_arg. cbn. unfold zincrby_spec.
  destruct (ParseFiniteScore text) as [x|]; [|by apply implements_ret].
  do 2 apply implements_arg. rewrite <-Hn. apply IncrementZSetMember_implements.
Qed.

Lemma zrem_loop_spec members n z :
  let '(n', z') := foldl zrem_step (n, z) members in
  to_gmap z' = foldl (λ z m, delete m z) (to_gmap z) members ∧
  n' = n + Z.of_nat (size (to_gmap z)) - Z.of_nat (size (to_gmap z')).
Proof.
  revert n z. induction members as [|m members IH]; intros n z; cbn [foldl]; [split; [done|lia]|].
  unfold zrem_step at 2. pose proof (to_gmap_Erase z (pack m)) as He. rewrite ToString_pack in He.
  destruct (map_Erase z (pack m)) as [z1|].
  - destruct He as [Hz1 [x Hx]]. specialize (IH (n + 1) z1).
    destruct (foldl zrem_step _ members) as [n' z']. destruct IH as [Hz' ->].
    rewrite Hz1 in Hz'. split; [done|]. rewrite Hz1, map_size_delete, Hx. cbn.
    assert (size (to_gmap z) ≠ 0%nat); [|lia].
    rewrite map_size_ne_0_lookup. by exists m.
  - specialize (IH n z). destruct (foldl zrem_step _ members) as [n' z'].
    by rewrite (delete_id (to_gmap z)).
Qed.

Lemma foldl_delete_subset members (z : zmap) : foldl (λ z m, delete m z) z members ⊆ z.
Proof.
  revert z. induction members as [|m members IH]; intros z; cbn; [done|].
  transitivity (delete m z); [apply IH|apply delete_subseteq].
Qed.

Lemma ZRem_implements rnd name key members now_us :
  ToUpperAscii name = "ZREM" →
  implements (ExecCmd ZRemCmd rnd (name :: key :: members) now_us) key now_us
    (zrem_spec ("ZREM" :: key :: members) members).
Proof.
  intros Hn. apply implements_arg. cbn. rewrite skipn_0, <-Hn.
  apply (implements_Mutate key (ZMakeRecord (name :: key :: members))
           (zrem_mutator members) count_reply).
  obj_cases; unfold zrem_spec, zrem_mutator; effect_simpl; try (by repeat split).
  destruct Hne as [_ Hf]. pose proof (zrem_loop_spec members 0 v) as H.
  destruct (foldl zrem_step _ _) as [n z']. destruct H as [Hz ->]. rewrite Z.add_0_l. cbn.
  assert (to_gmap z' ⊆ to_gmap v) as Hs by (rewrite Hz; apply foldl_delete_subset).
  rewrite to_gmap_Empty, <-Hz.
  assert ((Z.of_nat (size (to_gmap v)) - Z.of_nat (size (to_gmap z')) =? 0) =
          bool_decide (to_gmap z' = to_gmap v)) as ->.
  { case_bool_decide as E; [rewrite E; lia|]. apply Z.eqb_neq. intros E'. apply E.
    apply map_subseteq_size_eq; [done|lia]. }
  case_bool_decide as E1; cbn; [by repeat split|].
  case_bool_decide as E2; cbn; [rewrite bool_decide_eq_true_2 by done; by repeat split|].
  rewrite zset_object_abs, bool_decide_eq_false_2 by done. split; [done|]. split; [|done]. intros x [= <-].
  apply zset_object_ok; [done| |done]. 
  intros k s Hk. eapply Hf, lookup_weaken; [exact Hk|done].
Qed.
End zset_spec.
