(* ===== verification/ZSetOrder.v ===== *)
(** * The order of sorted sets

    The comparison functions of src/command/zset_cmd.cpp are total orders on
    the entries of a sorted set (byte order on members; IEEE order on finite
    scores, then byte order), so what the commands compute from sorted
    entries is determined by the map: ranks count the entries below, ranges
    are contiguous pieces, counts count. *)

From Stdlib Require Import SpecFloat.
From stdpp Require Import sorting.
From S2P Require Import Prelude Text Containers Double RedisObject Binlog HashSlot Engine Response Command KeyCmd StringCmd ZSetCmd.

(** ** Byte order *)

Lemma ascii_compare_uchar a b : Ascii.compare a b = (uchar a ?= uchar b).
Proof. unfold Ascii.compare, uchar. by rewrite N2Z.inj_compare. Qed.

(** [CompareBinaryLex] is the lexicographic order of unsigned bytes. *)
Lemma memcmp_sign l r :
  let c := memcmp l r (Nat.min (String.length l) (String.length r)) in
  String.compare l r =
  if c <? 0 then Lt else if c >? 0 then Gt
  else Nat.compare (String.length l) (String.length r).
Proof.
  revert r. induction l as [|a l IH]; intros [|b r]; try done. cbn -[Z.ltb Z.gtb].
  rewrite ascii_compare_uchar. destruct (Z.compare_spec (uchar a) (uchar b)) as [E|E|E].
  - rewrite (proj2 (Z.eqb_eq _ _) E). apply IH.
  - rewrite (proj2 (Z.eqb_neq _ _)) by lia. by rewrite (proj2 (Z.ltb_lt _ _)) by lia.
  - rewrite (proj2 (Z.eqb_neq _ _)) by lia. rewrite (proj2 (Z.ltb_ge _ _)) by lia.
    by rewrite Z.gtb_ltb, (proj2 (Z.ltb_lt _ _)) by lia.
Qed.

Lemma CompareBinaryLex_spec l r :
  CompareBinaryLex l r =
  match String.compare l r with Lt => -1 | Eq => 0 | Gt => 1 end.
Proof.
  unfold CompareBinaryLex. rewrite (memcmp_sign l r). cbn zeta.
  destruct (_ <? 0); [done|]. destruct (_ >? 0); [done|].
  destruct (Nat.compare_spec (String.length l) (String.length r)) as [E|E|E].
  - by rewrite E, Nat.ltb_irrefl.
  - by rewrite (proj2 (Nat.ltb_lt _ _) E).
  - rewrite (proj2 (Nat.ltb_ge _ _)) by lia. by rewrite (proj2 (Nat.ltb_lt _ _) E).
Qed.

Lemma string_compare_trans x y z :
  String.compare x y = Lt → String.compare y z = Lt → String.compare x z = Lt.
Proof.
  revert y z. induction x as [|a x IH]; intros [|b y] [|c z]; cbn; try done.
  rewrite !ascii_compare_uchar.
  destruct (Z.compare_spec (uchar a) (uchar b)) as [E1|E1|E1]; try done;
    destruct (Z.compare_spec (uchar b) (uchar c)) as [E2|E2|E2]; try done; intros H1 H2.
  - rewrite E1, E2, Z.compare_refl. by eapply IH.
  - by rewrite (proj2 (Z.compare_lt_iff _ _)) by lia.
  - by rewrite (proj2 (Z.compare_lt_iff _ _)) by lia.
  - by rewrite (proj2 (Z.compare_lt_iff _ _)) by lia.
Qed.

Lemma string_compare_total x y :
  x ≠ y → String.compare x y = Lt ∨ String.compare y x = Lt.
Proof.
  intros Hne. destruct (String.compare x y) eqn:E; auto.
  - by apply String.compare_eq_iff in E.
  - right. rewrite String.compare_antisym, E. done.
Qed.

(** ** IEEE order *)

(** Non-NaN doubles are ordered like triples of integers. *)
Definition dkey (x : double) : option (Z * Z * Z) :=
  match x with
  | S754_zero _ => Some (0, 0, 0)
  | S754_infinity s => Some (if s then -2 else 2, 0, 0)
  | S754_nan => None
  | S754_finite s m e => Some (if s then (-1, - e, Zneg m) else (1, e, Zpos m))
  end.

Definition key_lt (x y : Z * Z * Z) : Prop :=
  let '(a, b, c) := x in let '(a', b', c') := y in
  a < a' ∨ a = a' ∧ (b < b' ∨ b = b' ∧ c < c').

Lemma SFcompare_key x y kx ky :
  dkey x = Some kx → dkey y = Some ky →
  (SFcompare x y = Some Lt ↔ key_lt kx ky) ∧ (SFcompare x y = Some Eq ↔ kx = ky).
Proof.
  intros Hx Hy.
  destruct x as [sx|sx| |sx mx ex], y as [sy|sy| |sy my ey]; try done;
    try (destruct sx); try (destruct sy); injection Hx as <-; injection Hy as <-; cbn;
    try (split; split; try done; intros; simplify_eq; (lia || tauto)).
  - destruct (Z.compare_spec ex ey) as [E|E|E]; cbn.
    + subst. rewrite Pos.compare_cont_spec. cbn.
      destruct (Pos.compare_spec mx my) as [E|E|E]; cbn;
        (split; split; intros; simplify_eq; try done; try lia; try (f_equal; lia)).
    + split; split; intros; simplify_eq; try done; try lia.
    + split; split; intros; simplify_eq; try done; try lia.
  - destruct (Z.compare_spec ex ey) as [E|E|E]; cbn.
    + subst. rewrite Pos.compare_cont_spec. cbn.
      destruct (Pos.compare_spec mx my) as [E|E|E]; cbn;
        (split; split; intros; simplify_eq; try done; try lia; try (f_equal; lia)).
    + split; split; intros; simplify_eq; try done; try lia.
    + split; split; intros; simplify_eq; try done; try lia.
Qed.

Lemma dlt_key x y : dlt x y = true ↔ ∃ kx ky, dkey x = Some kx ∧ dkey y = Some ky ∧ key_lt kx ky.
Proof.
  unfold dlt, SFltb. destruct (dkey x) as [kx|] eqn:Ex.
  - destruct (dkey y) as [ky|] eqn:Ey.
    + destruct (SFcompare_key x y kx ky Ex Ey) as [Hlt _]. split.
      * destruct (SFcompare x y) as [[]|]; try done. intros _. exists kx, ky. tauto.
      * intros (? & ? & [= <-] & [= <-] & H%Hlt). by rewrite H.
    + destruct y; try done. split; [by destruct x|]. by intros (? & ? & _ & ? & _).
  - destruct x; try done. split; [done|]. by intros (? & ? & ? & _).
Qed.

Lemma deq_key x y : deq x y = true ↔ ∃ k, dkey x = Some k ∧ dkey y = Some k.
Proof.
  unfold deq, SFeqb. destruct (dkey x) as [kx|] eqn:Ex.
  - destruct (dkey y) as [ky|] eqn:Ey.
    + destruct (SFcompare_key x y kx ky Ex Ey) as [_ Heq]. split.
      * destruct (SFcompare x y) as [[]|]; try done. intros _.
        exists kx. split; [done|]. f_equal. symmetry. by apply Heq.
      * intros (k & [= ->] & [= ->]). assert (SFcompare x y = Some Eq) as -> by by apply Heq.
        done.
    + destruct y; try done. split; [by destruct x|]. by intros (? & _ & ?).
  - destruct x; try done. split; [done|]. by intros (? & ? & _).
Qed.

Lemma finite_key x : finite x → ∃ k, dkey x = Some k.
Proof. destruct x; try done; by eexists. Qed.

(** ** The order of entries *)

(** By score, then by bytes of the member. *)
Definition entry_lt (x y : ZEntry) : Prop :=
  dlt (ze_score x) (ze_score y) = true ∨
  deq (ze_score x) (ze_score y) = true ∧
  String.compare (ze_member x) (ze_member y) = Lt.

Definition member_lt (x y : ZEntry) : Prop :=
  String.compare (ze_member x) (ze_member y) = Lt.

Lemma entry_lt_trans x y z : entry_lt x y → entry_lt y z → entry_lt x z.
Proof.
  unfold entry_lt. rewrite !dlt_key, !deq_key.
  intros [(kx & ky & Hx & Hy & H1)|[(k & Hx & Hy) H1]] [(ky' & kz & Hy' & Hz & H2)|[(k' & Hy' & Hz) H2]];
    rewrite Hy in Hy'; injection Hy' as <-.
  - left. exists kx, kz. split; [done|]. split; [done|].
    destruct kx as [[? ?] ?], ky as [[? ?] ?], kz as [[? ?] ?]. cbn in *. lia.
  - left. by exists kx, ky.
  - left. by exists k, kz.
  - right. split; [by exists k|]. by eapply string_compare_trans.
Qed.

Lemma entry_lt_irrefl x : ¬ entry_lt x x.
Proof.
  unfold entry_lt. rewrite dlt_key. intros [(k & k' & E & E' & H)|[_ H]].
  - rewrite E in E'. injection E' as <-. destruct k as [[? ?] ?]. cbn in H. lia.
  - pose proof (String.compare_antisym (ze_member x) (ze_member x)) as E. by rewrite H in E.
Qed.

Lemma member_lt_trans x y z : member_lt x y → member_lt y z → member_lt x z.
Proof. apply string_compare_trans. Qed.

Lemma CompareBinaryLex_lt l r : (CompareBinaryLex l r <? 0) = true ↔ String.compare l r = Lt.
Proof. rewrite CompareBinaryLex_spec. by destruct (String.compare l r). Qed.

Lemma lex_less_spec x y : lex_less x y = true ↔ member_lt x y.
Proof. apply CompareBinaryLex_lt. Qed.

Lemma score_less_spec x y :
  finite (ze_score x) → finite (ze_score y) → score_less x y = true ↔ entry_lt x y.
Proof.
  intros (kx & Hx)%finite_key (ky & Hy)%finite_key. unfold score_less, entry_lt.
  destruct (deq (ze_score x) (ze_score y)) eqn:E; cbn.
  - rewrite CompareBinaryLex_lt. split; [tauto|]. intros [H|[_ H]]; [|done].
    apply deq_key in E as (k & E1 & E2). apply dlt_key in H as (k1 & k2 & E1' & E2' & H).
    assert (k1 = k2) as -> by congruence. destruct k2 as [[? ?] ?]. cbn in H. lia.
  - intuition congruence.
Qed.

Lemma entry_lt_total x y :
  finite (ze_score x) → finite (ze_score y) → ze_member x ≠ ze_member y →
  entry_lt x y ∨ entry_lt y x.
Proof.
  intros (kx & Hx)%finite_key (ky & Hy)%finite_key Hne. unfold entry_lt.
  rewrite !dlt_key, !deq_key.
  destruct (decide (kx = ky)) as [->|Hk].
  - destruct (string_compare_total _ _ Hne); [left|right]; right; (split; [by exists ky|done]).
  - assert (key_lt kx ky ∨ key_lt ky kx) as [H|H].
    { destruct kx as [[a b] c], ky as [[a' b'] c']. cbn.
      destruct (decide (a = a')), (decide (b = b')), (decide (c = c')); subst; try lia; done. }
    + left. left. by exists kx, ky.
    + right. left. by exists ky, kx.
Qed.

Section order.
Context {IC : ImmutableContainer} {CL : ContainerLaws IC}.

Definition entry_of (p : string * double) : ZEntry := mkZEntry p.1 p.2.

(** The entries of a set, in no particular order. *)
Definition entries (z : gmap string double) : list ZEntry := entry_of <$> map_to_list z.

Definition entry_in (z : gmap string double) (x : ZEntry) : Prop :=
  z !! ze_member x = Some (ze_score x).

Lemma elem_of_entries z x : x ∈ entries z ↔ entry_in z x.
Proof.
  unfold entries, entry_in. rewrite list_elem_of_fmap. split.
  - intros ([m s] & -> & H). by apply elem_of_map_to_list in H.
  - intros H. exists (ze_member x, ze_score x). split; [by destruct x|].
    by apply elem_of_map_to_list.
Qed.

#[export] Instance entry_of_inj : Inj (=) (=) entry_of.
Proof. intros [m s] [m' s']. by intros [= -> ->]. Qed.

Lemma entries_NoDup z : NoDup (entries z).
Proof. apply NoDup_fmap; [apply _|]. apply NoDup_map_to_list. Qed.

Lemma listed_entries (zset : ZSetValue) :
  ((λ '(member, score), mkZEntry (ToString member) score) <$> map_ForEach zset) ≡ₚ
  entries (to_gmap zset).
Proof.
  unfold entries. rewrite <-to_gmap_ForEach, <-list_fmap_compose.
  apply reflexive_eq, list_fmap_ext. by intros _ [p s] _.
Qed.

Lemma EntriesByLex_Permutation zset : EntriesByLex zset ≡ₚ entries (to_gmap zset).
Proof. unfold EntriesByLex. by rewrite std_sort_Permutation, listed_entries. Qed.

Lemma EntriesByScore_Permutation zset : EntriesByScore zset ≡ₚ entries (to_gmap zset).
Proof. unfold EntriesByScore. by rewrite std_sort_Permutation, EntriesByLex_Permutation. Qed.

Lemma entry_in_eq z x y : entry_in z x → entry_in z y → ze_member x = ze_member y → x = y.
Proof.
  unfold entry_in. destruct x as [m s], y as [m' s']. cbn. intros H1 H2 ->. by simplify_eq.
Qed.

Lemma all_entry_in z l : l ≡ₚ entries z → Forall (entry_in z) l ∧ NoDup l.
Proof.
  intros Hp. split.
  - apply Forall_forall. intros x. by rewrite Hp, elem_of_entries.
  - rewrite Hp. apply entries_NoDup.
Qed.

Lemma EntriesByLex_sorted zset : StronglySorted member_lt (EntriesByLex zset).
Proof.
  pose proof (all_entry_in _ _ (listed_entries zset)) as [Hf Hnd].
  apply (std_sort_sorted lex_less (entry_in (to_gmap zset))); try done.
  - intros x y _ _. apply lex_less_spec.
  - intros x y z. apply member_lt_trans.
  - intros x y Hx Hy Hne. apply string_compare_total. contradict Hne.
    by eapply entry_in_eq.
Qed.

(** A set the cache may hold. *)
Definition zset_ok (z : gmap string double) : Prop := map_Forall (λ _ x, finite x) z.

Lemma EntriesByScore_sorted zset :
  zset_ok (to_gmap zset) → StronglySorted entry_lt (EntriesByScore zset).
Proof.
  intros Hok. pose proof (all_entry_in _ _ (EntriesByLex_Permutation zset)) as [Hf Hnd].
  assert (∀ x, entry_in (to_gmap zset) x → finite (ze_score x)) as Hfin by (intros x; apply Hok).
  apply (std_sort_sorted score_less (entry_in (to_gmap zset))); try done.
  - intros x y Hx Hy. apply score_less_spec; by apply Hfin.
  - intros x y z. apply entry_lt_trans.
  - intros x y Hx Hy Hne. apply entry_lt_total; [by apply Hfin..|]. contradict Hne.
    by eapply entry_in_eq.
Qed.

(** *** The sorted set as a sorted list *)

Definition sorted_entries (z : gmap string double) : list ZEntry :=
  std_sort score_less (entries z).
Definition lex_entries (z : gmap string double) : list ZEntry :=
  std_sort lex_less (entries z).

#[export] Instance entry_lt_antisymm : AntiSymm (=) entry_lt.
Proof. intros x y H1 H2. destruct (entry_lt_irrefl x). by eapply entry_lt_trans. Qed.
#[export] Instance member_lt_antisymm : AntiSymm (=) member_lt.
Proof.
  intros x y H1 H2. unfold member_lt in *.
  by rewrite String.compare_antisym, H2 in H1.
Qed.

Lemma sorted_entries_sorted z : zset_ok z → StronglySorted entry_lt (sorted_entries z).
Proof.
  intros Hok. destruct (all_entry_in z (entries z)) as [Hf Hnd]; [done|].
  assert (∀ x, entry_in z x → finite (ze_score x)) as Hfin by (intros x; apply Hok).
  apply (std_sort_sorted score_less (entry_in z)); try done.
  - intros x y Hx Hy. apply score_less_spec; by apply Hfin.
  - intros x y u. apply entry_lt_trans.
  - intros x y Hx Hy Hne. apply entry_lt_total; [by apply Hfin..|]. contradict Hne.
    by eapply entry_in_eq.
Qed.

Lemma EntriesByScore_abs zset :
  zset_ok (to_gmap zset) → EntriesByScore zset = sorted_entries (to_gmap zset).
Proof.
  intros Hok. apply (StronglySorted_unique entry_lt).
  - by apply EntriesByScore_sorted.
  - by apply sorted_entries_sorted.
  - unfold sorted_entries. by rewrite EntriesByScore_Permutation, std_sort_Permutation.
Qed.

Lemma EntriesByLex_abs zset : EntriesByLex zset = lex_entries (to_gmap zset).
Proof.
  apply (StronglySorted_unique member_lt).
  - apply EntriesByLex_sorted.
  - destruct (all_entry_in (to_gmap zset) (entries (to_gmap zset))) as [Hf Hnd]; [done|].
    apply (std_sort_sorted lex_less (entry_in (to_gmap zset))); try done.
    + intros x y _ _. apply lex_less_spec.
    + intros x y z. apply member_lt_trans.
    + intros x y Hx Hy Hne. apply string_compare_total. contradict Hne.
      by eapply entry_in_eq.
  - unfold lex_entries. by rewrite EntriesByLex_Permutation, std_sort_Permutation.
Qed.

(** *** Ranks *)

(** The entries of [z] below [x]. *)
Definition below (z : gmap string double) (x : ZEntry) : list ZEntry :=
  List.filter (λ y, score_less y x) (entries z).

Lemma filter_none {A} (f : A → bool) l : Forall (λ x, f x = false) l → List.filter f l = [].
Proof. induction 1 as [|x l Hx _ IH]; cbn; [done|]. by rewrite Hx. Qed.
Lemma filter_all {A} (f : A → bool) l : Forall (λ x, f x = true) l → List.filter f l = l.
Proof. induction 1 as [|x l Hx _ IH]; cbn; [done|]. by rewrite Hx, IH. Qed.

Lemma Permutation_List_filter {A} (f : A → bool) l k :
  l ≡ₚ k → List.filter f l ≡ₚ List.filter f k.
Proof.
  induction 1 as [|x l k _ IH|x y l|l1 l2 l3 _ IH1 _ IH2]; cbn.
  - done.
  - destruct (f x); [by constructor|done].
  - destruct (f x), (f y); try done. apply Permutation_swap.
  - by etransitivity.
Qed.

Lemma StronglySorted_middle {A} (R : A → A → Prop) l x k :
  StronglySorted R (l ++ x :: k) → Forall (λ y, R y x) l ∧ Forall (R x) k.
Proof.
  induction l as [|y l IH]; cbn; intros Hs; apply StronglySorted_inv in Hs as [Hs Hf].
  - done.
  - destruct (IH Hs) as [Hl Hk]. split; [|done]. constructor; [|done].
    rewrite Forall_app, Forall_cons in Hf. tauto.
Qed.

Lemma sorted_rank z i x :
  zset_ok z → sorted_entries z !! i = Some x → length (below z x) = i.
Proof.
  intros Hok Hi. pose proof (sorted_entries_sorted z Hok) as Hs.
  pose proof (list_elem_of_lookup_2 _ _ _ Hi) as Hin.
  assert (∀ y, y ∈ sorted_entries z → finite (ze_score y)) as Hfin.
  { intros y. unfold sorted_entries. rewrite std_sort_Permutation, elem_of_entries. apply Hok. }
  unfold below. rewrite (Permutation_length (Permutation_List_filter _ (entries z)
    (sorted_entries z) (symmetry (std_sort_Permutation score_less (entries z))))).
  rewrite <-(take_drop_middle _ _ _ Hi) in Hs |- *.
  apply StronglySorted_middle in Hs as [Hl Hk].
  assert (∀ y, y ∈ sorted_entries z → score_less y x = true ↔ entry_lt y x) as Hless.
  { intros y Hy. apply score_less_spec; by apply Hfin. }
  rewrite List.filter_app, length_app. cbn [List.filter].
  rewrite filter_all, filter_none.
  - destruct (score_less x x) eqn:E; [|cbn; rewrite length_take; apply lookup_lt_Some in Hi; lia].
    apply Hless in E; [|done]. by apply entry_lt_irrefl in E.
  - rewrite Forall_forall in Hk |- *. intros y Hy.
    apply not_true_iff_false. intros E. apply Hless in E.
    + destruct (entry_lt_irrefl x). by eapply entry_lt_trans; [apply Hk|].
    + rewrite <-(take_drop (S i) (sorted_entries z)). set_solver.
  - rewrite Forall_forall in Hl |- *. intros y Hy. apply Hless; [|by apply Hl].
    rewrite <-(take_drop i (sorted_entries z)). set_solver.
Qed.

Lemma find_index_unique m l i x :
  l !! i = Some x → ze_member x = m →
  (∀ j y, l !! j = Some y → ze_member y = m → j = i) → find_index m l = Some i.
Proof.
  intros Hi Hm Hu. unfold find_index.
  assert (list_find (λ e, ze_member e = m) l = Some (i, x)) as ->; [|done].
  apply list_find_Some. split; [done|]. split; [done|]. intros j y Hj Hlt E.
  specialize (Hu j y Hj E). lia.
Qed.

Lemma find_index_None m l : (∀ y, y ∈ l → ze_member y ≠ m) → find_index m l = None.
Proof.
  intros H. unfold find_index.
  assert (list_find (λ e, ze_member e = m) l = None) as ->; [|done].
  apply list_find_None, Forall_forall. done.
Qed.

Lemma sorted_entries_elem z x : x ∈ sorted_entries z ↔ entry_in z x.
Proof. unfold sorted_entries. by rewrite std_sort_Permutation, elem_of_entries. Qed.

Lemma sorted_entries_length z : length (sorted_entries z) = size z.
Proof.
  unfold sorted_entries, entries. rewrite std_sort_Permutation, length_fmap.
  apply length_map_to_list.
Qed.

Lemma sorted_entries_unique z i j x y :
  sorted_entries z !! i = Some x → sorted_entries z !! j = Some y →
  ze_member x = ze_member y → i = j.
Proof.
  intros Hi Hj Hm.
  assert (x = y) as <-.
  { eapply entry_in_eq; [..|done]; apply sorted_entries_elem; by eapply list_elem_of_lookup_2. }
  assert (NoDup (sorted_entries z)) as Hnd.
  { unfold sorted_entries. rewrite std_sort_Permutation. apply entries_NoDup. }
  by eapply NoDup_lookup.
Qed.

(** The rank of a member: how many entries are below it, or above it for
    ZREVRANK. *)
Definition rank_spec (rev : bool) (member : string) (z : gmap string double) : Response :=
  match z !! member with
  | None => NullBulk
  | Some score =>
      let n := length (below z (mkZEntry member score)) in
      Integer (Z.of_nat (if rev then size z - 1 - n else n)%nat)
  end.

Lemma find_index_spec z member rev :
  zset_ok z →
  match find_index member (if rev : bool then reverse (sorted_entries z) else sorted_entries z) with
  | Some index => Integer (Z.of_nat index)
  | None => NullBulk
  end = rank_spec rev member z.
Proof.
  intros Hok. unfold rank_spec. destruct (z !! member) as [s|] eqn:E.
  - assert (mkZEntry member s ∈ sorted_entries z) as [i Hi]%list_elem_of_lookup
      by by apply sorted_entries_elem.
    rewrite (sorted_rank z i _ Hok Hi). pose proof (lookup_lt_Some _ _ _ Hi) as Hlt.
    rewrite <-sorted_entries_length. destruct rev.
    + rewrite (find_index_unique member _ (length (sorted_entries z) - 1 - i) (mkZEntry member s));
        [done| |done|].
      * rewrite reverse_lookup by lia. rewrite <-Hi. f_equal. lia.
      * intros j y Hj Hm. apply reverse_lookup_Some in Hj as [Hj Hl].
        pose proof (sorted_entries_unique z _ _ _ _ Hi Hj (eq_sym Hm)). lia.
    + rewrite (find_index_unique member _ i (mkZEntry member s)); [done|done|done|].
      intros j y Hj Hm. by eapply sorted_entries_unique.
  - rewrite find_index_None; [done|]. intros y Hy Hm.
    assert (y ∈ sorted_entries z) as Hs by (destruct rev; [by rewrite elem_of_reverse in Hy|done]).
    apply sorted_entries_elem in Hs. unfold entry_in in Hs. congruence.
Qed.

(** *** Ranges *)

(** A position counted from the end when negative. *)
Definition from_end (n i : Z) : Z := if i <? 0 then i + n else i.

(** [ApplyRankRange] is the slice between two positions, clipped. *)
Lemma ApplyRankRange_spec l start stop :
  let n := Z.of_nat (length l) in
  let lo := Z.max 0 (from_end n start) in
  let hi := Z.min (n - 1) (from_end n stop) in
  ApplyRankRange l start stop = take (Z.to_nat (hi - lo + 1)) (drop (Z.to_nat lo) l).
Proof.
  cbn zeta. unfold ApplyRankRange, from_end, subrange.
  set (n := Z.of_nat (length l)). assert (0 <= n) by lia.
  destruct (n =? 0) eqn:En; bool_prop.
  { assert (l = []) as -> by (apply length_zero_iff_nil; lia). by rewrite drop_nil, take_nil. }
  set (a := if start <? 0 then _ else _). set (b := if stop <? 0 then _ else _).
  assert ((if a <? 0 then 0 else a) = Z.max 0 a) as -> by (destruct (a <? 0) eqn:E; bool_prop; lia).
  destruct ((b <? 0) || (Z.max 0 a >=? n)) eqn:E.
  - apply orb_true_iff in E as [E|E]; bool_prop.
    + by replace (Z.to_nat _) with 0%nat at 1 by lia.
    + rewrite drop_ge by lia. by rewrite take_nil.
  - bool_prop.
    assert ((if b >=? n then n - 1 else b) = Z.min (n - 1) b) as ->
      by (destruct (b >=? n) eqn:E; bool_prop; lia).
    destruct (_ >? _) eqn:E; bool_prop.
    + replace (Z.to_nat _) with 0%nat by lia. done.
    + f_equal. lia.
Qed.

(** [ApplyLimit]: everything after the first [offset] entries, or the first
    [count] of those. *)
Lemma ApplyLimit_spec l offset count :
  ApplyLimit l offset count =
  if offset <? 0 then []
  else let rest := drop (Z.to_nat offset) l in
       if count <? 0 then rest else take (Z.to_nat count) rest.
Proof.
  unfold ApplyLimit, subrange. destruct (offset <? 0) eqn:Eo; [done|]. bool_prop. cbn.
  destruct (count =? 0) eqn:Ec; bool_prop; [by subst|].
  destruct (offset >=? Z.of_nat (length l)) eqn:E; bool_prop.
  { rewrite drop_ge by lia. rewrite take_nil. by destruct (count <? 0). }
  destruct (count >? 0) eqn:Ep; bool_prop; cbn.
  - rewrite (proj2 (Z.ltb_ge count 0)) by lia.
    destruct (count <? _) eqn:El; bool_prop.
    + rewrite (proj2 (Z.leb_gt _ _)) by lia. f_equal. lia.
    + rewrite (proj2 (Z.leb_gt _ _)) by lia.
      rewrite !take_ge by (rewrite length_drop; lia). done.
  - rewrite (proj2 (Z.ltb_lt count 0)) by lia. rewrite (proj2 (Z.leb_gt _ _)) by lia.
    by rewrite take_ge by (rewrite length_drop; lia).
Qed.

(** *** The read commands *)

Lemma ReadZSet_run key now_us e :
  engine_ok e →
  ∃ read, ReadZSet key now_us e = Some (read, e) ∧
    match read, view_zset (engine_live e now_us key) with
    | VMissing, VMissing | VWrong, VWrong => True
    | VHas zset d, VHas z d' => z = to_gmap zset ∧ d = d' ∧ zset_ok z
    | _, _ => False
    end.
Proof.
  intros He. eexists. unfold ReadZSet, mbind, stM_bind.
  rewrite engine_Get_run by apply He. split; [done|].
  unfold engine_live. rewrite <-Get_live.
  pose proof (Get_opt_ok e key now_us He) as Hok. revert Hok.
  generalize (Get (slot_of e key) key now_us). obj_cases; try done.
  destruct Hne as [_ Hf]. done.
Qed.

Lemma zset_reply_run key now_us missing (f : ZSetValue → Response) (g : gmap string double → Response) e :
  engine_ok e →
  (∀ zset, zset_ok (to_gmap zset) → f zset = g (to_gmap zset)) →
  (read ← ReadZSet key now_us;
   mret match read with
        | VMissing => missing
        | VWrong => Error kWrongTypeError
        | VHas zset _ => f zset
        end) e =
  Some (zset_read_spec missing g (engine_live e now_us key), e).
Proof.
  intros He Hf. destruct (ReadZSet_run key now_us e He) as (read & E & H).
  unfold mbind, stM_bind. rewrite E. unfold zset_read_spec.
  destruct read, (view_zset _); try done. destruct H as (-> & -> & Hok). by rewrite Hf.
Qed.

Ltac read_args := cbn; unfold mbind at 1, stM_bind at 1; unfold arg at 1, liftM at 1; cbn.

Lemma ZScore_run rnd name key member now_us e :
  engine_ok e →
  ExecCmd ZScoreCmd rnd [name; key; member] now_us e =
  Some (zset_read_spec NullBulk (λ z, bulk_or_null (ZFormatScore <$> z !! member))
          (engine_live e now_us key), e).
Proof.
  intros He. read_args. unfold mbind, stM_bind. rewrite engine_Get_run by apply He.
  unfold engine_live. rewrite <-Get_live.
  pose proof (Get_opt_ok e key now_us He) as Hok. revert Hok.
  generalize (Get (slot_of e key) key now_us).
  obj_cases; unfold zset_read_spec; effect_simpl; try done. by rewrite zset_Find.
Qed.

Lemma ZCard_run rnd name key now_us e :
  engine_ok e →
  ExecCmd ZCardCmd rnd [name; key] now_us e =
  Some (zset_read_spec (Integer 0) (λ z, Integer (Z.of_nat (size z)))
          (engine_live e now_us key), e).
Proof.
  intros He. read_args. apply (zset_reply_run key now_us (Integer 0)
    (λ zset, Integer (map_Size zset)) (λ z, Integer (Z.of_nat (size z)))); [done|].
  intros zset _. by rewrite to_gmap_Size.
Qed.

Lemma RankResponse_run key member rev now_us e :
  engine_ok e →
  RankResponse now_us key member rev e =
  Some (zset_read_spec NullBulk (rank_spec rev member) (engine_live e now_us key), e).
Proof.
  intros He. apply (zset_reply_run key now_us NullBulk
    (λ zset, match find_index member (if rev then EntriesByScoreReverse zset
                                      else EntriesByScore zset) with
             | Some index => Integer (Z.of_nat index) | None => NullBulk end)
    (rank_spec rev member)); [done|].
  intros zset Hok. unfold EntriesByScoreReverse.
  rewrite EntriesByScore_abs by done. by apply find_index_spec.
Qed.

(** How many entries have a score in a range. *)
Definition in_range (lower upper : ScoreBound) (z : gmap string double) : list ZEntry :=
  List.filter (λ e, ScoreInRange (ze_score e) lower upper) (entries z).
Definition count_spec (lower upper : ScoreBound) (z : gmap string double) : Response :=
  Integer (Z.of_nat (length (in_range lower upper z))).

Lemma count_fold lower upper (zset : ZSetValue) :
  foldl (λ count '(_, score), if ScoreInRange score lower upper then count + 1 else count)
    0 (map_ForEach zset) =
  Z.of_nat (length (in_range lower upper (to_gmap zset))).
Proof.
  unfold in_range. rewrite <-(Permutation_length (Permutation_List_filter
    (λ e, ScoreInRange (ze_score e) lower upper) _ _ (listed_entries zset))).
  enough (∀ n, foldl (λ count '(_, score),
      if ScoreInRange score lower upper then count + 1 else count) n (map_ForEach zset) =
    n + Z.of_nat (length (List.filter (λ e, ScoreInRange (ze_score e) lower upper)
      ((λ '(member, score), mkZEntry (ToString member) score) <$> map_ForEach zset))))
    as Hn by apply (Hn 0).
  induction (map_ForEach zset) as [|[p s] l IH]; intros n; cbn; [lia|].
  rewrite IH. destruct (ScoreInRange s lower upper); cbn; lia.
Qed.

Lemma ZCount_run rnd name key lower_arg upper_arg now_us e :
  engine_ok e →
  ExecCmd ZCountCmd rnd [name; key; lower_arg; upper_arg] now_us e =
  Some (match ParseScoreBound lower_arg, ParseScoreBound upper_arg with
        | Some lower, Some upper =>
            zset_read_spec (Integer 0) (count_spec lower upper) (engine_live e now_us key)
        | _, _ => Error kInvalidFloatError
        end, e).
Proof.
  intros He. cbn. unfold arg, liftM. cbn. unfold mbind at 1 2, stM_bind at 1 2. cbn.
  destruct (ParseScoreBound lower_arg) as [lower|]; [|done].
  destruct (ParseScoreBound upper_arg) as [upper|]; [|done].
  unfold mbind at 1, stM_bind at 1. cbn.
  apply (zset_reply_run key now_us (Integer 0)
    (λ zset, Integer (foldl (λ count '(_, score),
       if ScoreInRange score lower upper then count + 1 else count) 0 (map_ForEach zset)))
    (count_spec lower upper)); [done|].
  intros zset _. unfold count_spec. by rewrite count_fold.
Qed.

(** The entries ZRANGE selects, from the map. *)
Definition zrange_spec (options : ZRangeOptions) (bounds : zrange_bounds)
    (z : gmap string double) : list ZEntry :=
  let oriented (l : list ZEntry) := if zr_rev options then reverse l else l in
  let limited (l : list ZEntry) :=
    if zr_has_limit options then
      if zr_offset options <? 0 then []
      else let rest := drop (Z.to_nat (zr_offset options)) l in
           if zr_count options <? 0 then rest else take (Z.to_nat (zr_count options)) rest
    else l in
  match bounds with
  | ByRank start stop =>
      let n := Z.of_nat (size z) in
      let lo := Z.max 0 (from_end n start) in
      let hi := Z.min (n - 1) (from_end n stop) in
      take (Z.to_nat (hi - lo + 1)) (drop (Z.to_nat lo) (oriented (sorted_entries z)))
  | ByScore lower upper =>
      limited (oriented (List.filter (λ e, ScoreInRange (ze_score e) lower upper)
                           (sorted_entries z)))
  | ByLex lower upper =>
      limited (oriented (List.filter (λ e, LexInRange (ze_member e) lower upper)
                           (lex_entries z)))
  end.

Lemma zrange_entries_spec options bounds zset :
  zset_ok (to_gmap zset) →
  zrange_entries options bounds zset = zrange_spec options bounds (to_gmap zset).
Proof.
  intros Hok. unfold zrange_entries, zrange_spec, EntriesByScoreReverse, FilterByScore, FilterByLex.
  rewrite EntriesByScore_abs, EntriesByLex_abs by done. destruct bounds; rewrite ?ApplyLimit_spec;
    try done.
  rewrite ApplyRankRange_spec, <-sorted_entries_length.
  by destruct (zr_rev options); rewrite ?length_reverse.
Qed.

Lemma ZRange_run rnd name key arg2 arg3 opts now_us e :
  engine_ok e →
  ExecCmd ZRangeCmd rnd (name :: key :: arg2 :: arg3 :: opts) now_us e =
  Some (match ParseZRangeOptions_loop opts ZRangeOptions_default with
        | None => Error kSyntaxError
        | Some options =>
            match ParseZRangeBounds options arg2 arg3 with
            | inl error => error
            | inr bounds =>
                zset_read_spec (Array [])
                  (λ z, AppendRangeResponse (zrange_spec options bounds z)
                          (zr_with_scores options))
                  (engine_live e now_us key)
            end
        end, e).
Proof.
  intros He. cbn. unfold ParseZRangeOptions. cbn. rewrite skipn_0.
  destruct (ParseZRangeOptions_loop opts _) as [options|]; [|done].
  unfold arg, liftM. cbn. unfold mbind at 1 2, stM_bind at 1 2. cbn.
  destruct (ParseZRangeBounds options arg2 arg3) as [error|bounds]; [done|].
  unfold mbind at 1, stM_bind at 1. cbn.
  apply (zset_reply_run key now_us (Array [])
    (λ zset, AppendRangeResponse (zrange_entries options bounds zset) (zr_with_scores options))
    (λ z, AppendRangeResponse (zrange_spec options bounds z) (zr_with_scores options))); [done|].
  intros zset Hok. by rewrite zrange_entries_spec.
Qed.
End order.
