(* ===== verification/ScanCmd.v ===== *)
(** * SCAN: src/command/scan_cmd

    The cursor is a slot number. A call visits whole slots until it has seen
    [COUNT] live keys or the last slot; the keys that match come back with
    the slot to go on from, 0 at the end. *)

From S2P Require Import Prelude Text Glob Containers Double RedisObject Binlog HashSlot Engine Response Command KeyCmd.

Definition kDefaultCount : Z := 1000.

Record ScanOptions := mkScanOptions {
  sc_cursor : Z;
  sc_count : Z;
  sc_match : option string;
  sc_type : option string;
}.

Definition ObjectTypeName (type : RedisObjectType) : string :=
  match type with
  | kString => "string" | kHash => "hash" | kSet => "set" | kZSet => "zset"
  end.

Definition to_lower (ch : ascii) : ascii :=
  if (65 <=? uchar ch) && (uchar ch <=? 90) then chr (uchar ch - 65 + 97) else ch.
Definition ToLowerAscii (text : string) : string := string_map to_lower text.

Definition ParseNonNegativeSize (text : string) : option Z :=
  match ParseInt64 text with
  | Some parsed => if parsed <? 0 then None else Some (u64 parsed)
  | None => None
  end.

Definition IsSupportedTypeFilter (type : string) : bool :=
  bool_decide (type = "string") || bool_decide (type = "hash") ||
  bool_decide (type = "set") || bool_decide (type = "zset").

(** The loop of [ParseOptions], on what is left of the arguments. *)
Fixpoint ParseOptions_loop (rest : list string) (o : ScanOptions) : string + ScanOptions :=
  let '(mkScanOptions cursor count match_ type) := o in
  match rest with
  | [] => inr o
  | arg :: rest1 =>
      let option := ToUpperAscii arg in
      if decide (option = "MATCH") then
        match rest1 with
        | [] => inl kSyntaxError
        | pattern :: rest2 =>
            ParseOptions_loop rest2 (mkScanOptions cursor count (Some pattern) type)
        end
      else if decide (option = "COUNT") then
        match rest1 with
        | [] => inl kIntegerError
        | text :: rest2 =>
            match ParseNonNegativeSize text with
            | None => inl kIntegerError
            | Some count' => ParseOptions_loop rest2 (mkScanOptions cursor count' match_ type)
            end
        end
      else if decide (option = "TYPE") then
        match rest1 with
        | [] => inl kSyntaxError
        | text :: rest2 =>
            let type' := ToLowerAscii text in
            if negb (IsSupportedTypeFilter type') then inl kSyntaxError
            else ParseOptions_loop rest2 (mkScanOptions cursor count match_ (Some type'))
        end
      else inl kSyntaxError
  end.

Definition ParseOptions (cursor_text : string) (rest : list string) (slot_count : nat)
    : string + ScanOptions :=
  match ParseNonNegativeSize cursor_text with
  | None => inl kIntegerError
  | Some cursor =>
      if cursor >=? Z.of_nat slot_count then inl "ERR invalid cursor"
      else ParseOptions_loop rest (mkScanOptions cursor kDefaultCount None None)
  end.

Definition TypeMatches (filter : option string) (type : RedisObjectType) : bool :=
  match filter with
  | None => true
  | Some f => bool_decide (f = ObjectTypeName type)
  end.

Definition KeyMatches (pattern : option string) (key : string) : bool :=
  match pattern with
  | None => true
  | Some p => Glob.GlobMatch p key
  end.

Section scan_cmd.
Context {IC : ImmutableContainer}.

(** The keys of one slot that match, in visiting order. *)
Definition matching_keys (options : ScanOptions)
    (objects : list (PackedString * RedisObject)) : list string :=
  omap (λ '(key, object),
          if TypeMatches (sc_type options) (type_ object) &&
             KeyMatches (sc_match options) (ToString key)
          then Some (ToString key) else None) objects.

(** The loop: [n] slots from [slot] at most; [inl] is the error reply. *)
Fixpoint scan_loop (n : nat) (options : ScanOptions) (can_read : option (nat → bool))
    (now_us : Z) (slot : nat) (scanned_keys : Z) (keys : list string)
    : engineM (string + list string * nat) :=
  match n with
  | O => mret (inr (keys, slot))
  | S n' =>
      if negb (from_option (λ f, f slot) true can_read)
      then mret (inl "TRYAGAIN slot is syncing")
      else
        objects ← ForEachLiveObjectInSlot slot now_us;
        let scanned_keys' := scanned_keys + Z.of_nat (length objects) in
        let keys' := keys ++ matching_keys options objects in
        if scanned_keys' >=? sc_count options then mret (inr (keys', S slot))
        else scan_loop n' options can_read now_us (S slot) scanned_keys' keys'
  end.

Definition scan_reply (slot_count : nat) (result : string + list string * nat) : Response :=
  match result with
  | inl error => Error error
  | inr (keys, slot) =>
      let next_cursor := if (slot_count <=? slot)%nat then 0%nat else slot in
      Array [BulkString (to_string (Z.of_nat next_cursor)); Array (BulkString <$> keys)]
  end.

Definition ExecuteScan (args : list string) (now_us : Z) (can_read : option (nat → bool))
    : engineM Response :=
  cursor_text ← arg args 1;
  slot_count ← (λ e, Some (SlotCount e, e));
  match ParseOptions cursor_text (drop 2 args) slot_count with
  | inl error => mret (Error error)
  | inr options =>
      let cursor := Z.to_nat (sc_cursor options) in
      result ← scan_loop (slot_count - cursor) options can_read now_us cursor 0 [];
      mret (scan_reply slot_count result)
  end.

Definition ScanCmd : RedisCmd := {|
  CheckArity args := CheckMinArity args 2 "scan";
  ExecCmd _ args now_us := ExecuteScan args now_us None;
|}.

(** ** Specifications *)

(** The keys of a slot a scan answers, in the order of the container. *)
Definition slot_keys (options : ScanOptions) (now_us : Z) (s : HashSlot) : list string :=
  matching_keys options (ForEachLiveObject s now_us).

Definition keys_between (e : CacheEngine) (options : ScanOptions) (now_us : Z)
    (first last : nat) : list string :=
  mjoin (slot_keys options now_us <$> take (last - first) (drop first (slots_ e))).

(** An abstract object of the type a filter asks for. *)
Definition type_filter_ok (filter : option string) (a : aobj) : bool :=
  match filter with
  | None => true
  | Some f => bool_decide (f = type_name_of (a_val a))
  end.

(** The live keys a scan looks for. *)
Definition wanted (e : CacheEngine) (options : ScanOptions) (now_us : Z) (key : string) : Prop :=
  ∃ a, engine_live e now_us key = Some a ∧ type_filter_ok (sc_type options) a = true ∧
       KeyMatches (sc_match options) key = true.

(** ** Theorems *)

Lemma ParseOptions_loop_cursor rest o o' :
  ParseOptions_loop rest o = inr o' → sc_cursor o' = sc_cursor o.
Proof.
  revert o. induction rest as [rest IH] using (induction_ltof1 _ length).
  unfold ltof in IH. intros [c n m t]. destruct rest as [|x rest]; cbn; [by intros [= <-]|].
  repeat case_decide; try done; destruct rest as [|y rest]; try done.
  - intros E. apply IH in E; [done|cbn; lia].
  - case_match; [|done]. intros E. apply IH in E; [done|cbn; lia].
  - case_match; [done|]. intros E. apply IH in E; [done|cbn; lia].
Qed.

Lemma ParseOptions_cursor text rest n o :
  ParseOptions text rest n = inr o → 0 <= sc_cursor o < Z.of_nat n.
Proof.
  unfold ParseOptions, ParseNonNegativeSize. destruct (ParseInt64 text) as [c|]; [|done].
  destruct (c <? 0) eqn:E; [done|]. destruct (_ >=? _) eqn:E2; [done|].
  intros ->%ParseOptions_loop_cursor. cbn. bool_prop. pose proof (u64_range c) as [? _]. lia.
Qed.

Lemma keys_between_cons e options now_us i last s :
  slots_ e !! i = Some s → (i < last)%nat →
  keys_between e options now_us i last =
  slot_keys options now_us s ++ keys_between e options now_us (S i) last.
Proof.
  intros Hi Hlt. unfold keys_between. rewrite (drop_S _ _ _ Hi).
  replace (last - i)%nat with (S (last - S i)) by lia. done.
Qed.

(** The loop stops at some slot further on, and answers what it passed. *)
Lemma scan_loop_spec n options now_us slot scanned keys e :
  length (slots_ e) = (slot + n)%nat →
  ∃ next, scan_loop n options None now_us slot scanned keys e =
    Some (inr (keys ++ keys_between e options now_us slot next, next), e) ∧
    (slot <= next <= slot + n)%nat ∧ (n ≠ 0%nat → (slot < next)%nat).
Proof.
  revert slot scanned keys. induction n as [|n IH]; intros slot scanned keys Hl.
  { exists slot. unfold keys_between. rewrite Nat.sub_diag, take_0. cbn.
    rewrite app_nil_r. split; [done|]. split; [lia|done]. }
  destruct (lookup_lt_is_Some_2 (slots_ e) slot) as [s Hs]; [lia|].
  cbn. unfold mbind at 1, stM_bind at 1, ForEachLiveObjectInSlot, SlotById, read_slot. rewrite Hs.
  rewrite list_insert_id by done. destruct e as [slots]. cbn in *.
  destruct (_ >=? _).
  - exists (S slot). rewrite (keys_between_cons (mkEngine slots) _ _ _ _ s Hs) by lia.
    unfold keys_between at 1. rewrite Nat.sub_diag, take_0. cbn. rewrite app_nil_r.
    split; [done|]. lia.
  - destruct (IH (S slot) (scanned + Z.of_nat (length (ForEachLiveObject s now_us)))
      (keys ++ matching_keys options (ForEachLiveObject s now_us))) as (next & E & Hn & _); [lia|].
    exists next. rewrite E. split; [|lia].
    rewrite (keys_between_cons (mkEngine slots) _ _ _ _ s Hs) by lia. by rewrite <-app_assoc.
Qed.

(** A scan only reads, whatever slots may be read. *)
Lemma scan_loop_reads n options can_read now_us slot scanned keys e :
  length (slots_ e) = (slot + n)%nat →
  ∃ result, scan_loop n options can_read now_us slot scanned keys e = Some (result, e).
Proof.
  revert slot scanned keys. induction n as [|n IH]; intros slot scanned keys Hl;
    [by eexists|].
  destruct (lookup_lt_is_Some_2 (slots_ e) slot) as [s Hs]; [lia|].
  cbn. destruct (negb _); [by eexists|].
  unfold mbind at 1, stM_bind at 1, ForEachLiveObjectInSlot, SlotById, read_slot. rewrite Hs.
  rewrite list_insert_id by done. destruct e as [slots]. cbn in *.
  destruct (_ >=? _); [by eexists|]. apply IH. lia.
Qed.

Lemma ExecuteScan_reads name cursor opts now_us can_read e :
  ∃ r, ExecuteScan (name :: cursor :: opts) now_us can_read e = Some (r, e).
Proof.
  unfold ExecuteScan, arg, liftM, mbind, stM_bind. cbn. unfold SlotCount.
  destruct (ParseOptions _ _ _) as [error|o] eqn:E; [by eexists|].
  apply ParseOptions_cursor in E.
  destruct (scan_loop_reads (length (slots_ e) - Z.to_nat (sc_cursor o)) o can_read now_us
              (Z.to_nat (sc_cursor o)) 0 [] e) as [result ->]; [lia|].
  by eexists.
Qed.

Context {CL : ContainerLaws IC}.

Lemma TypeMatches_abs filter o :
  object_ok o → TypeMatches filter (type_ o) = type_filter_ok filter (abs_object o).
Proof.
  intros [Ht _ _]. destruct filter as [f|]; [|done]. cbn. rewrite Ht. by destruct (value_ o).
Qed.

Lemma live_objects_lookup s now_us k o :
  (k, o) ∈ ForEachLiveObject s now_us ↔ Get s (ToString k) now_us = Some o.
Proof.
  unfold ForEachLiveObject. rewrite Get_Some, <-to_gmap_elem.
  rewrite !list_elem_of_In, List.filter_In, negb_true_iff. tauto.
Qed.

Lemma slot_keys_elem e options now_us i s k :
  engine_ok e → slots_ e !! i = Some s →
  k ∈ slot_keys options now_us s ↔ SlotForKey k = i ∧ wanted e options now_us k.
Proof.
  intros He Hs. pose proof (eo_slots _ He _ _ Hs) as Hok.
  assert (∀ k, SlotForKey k = i → slot_of e k = s) as Hslot.
  { intros k' <-. unfold slot_of. by rewrite Hs. }
  unfold slot_keys, matching_keys, wanted. rewrite list_elem_of_omap. split.
  - intros ([p o] & Hp & Hf). cbn in Hf. destruct (_ && _) eqn:E; [|done].
    injection Hf as <-. apply live_objects_lookup in Hp.
    destruct (Get_ok _ _ _ _ _ Hok Hp) as [Ho Hk]. split; [done|].
    apply andb_true_iff in E as [Et Em]. exists (abs_object o).
    unfold engine_live. rewrite (Hslot _ Hk), <-Get_live, Hp.
    by rewrite <-TypeMatches_abs.
  - intros (Hk & a & Ha & Ht & Hm). unfold engine_live in Ha.
    rewrite (Hslot _ Hk), <-Get_live in Ha. apply fmap_Some in Ha as (o & Ho & ->).
    exists (pack k, o). rewrite live_objects_lookup, ToString_pack. split; [done|]. cbn.
    destruct (Get_ok _ _ _ _ _ Hok Ho) as [Hoo _].
    by rewrite TypeMatches_abs, Ht, Hm.
Qed.

Lemma slot_keys_NoDup options now_us s : NoDup (slot_keys options now_us s).
Proof.
  unfold slot_keys, matching_keys, ForEachLiveObject.
  pose proof (ForEach_NoDup (redis_obj_map_ s)) as Hnd.
  assert (∀ (g : PackedString * RedisObject → bool) l, NoDup l.*1 →
    NoDup (omap (λ '(key, object), if g (key, object) then Some (ToString key) else None) l))
    as Hom.
  { intros g. induction l as [|[p o] l IH]; cbn; [constructor|]. intros [Hp Hl]%NoDup_cons.
    destruct (g _); [|by apply IH]. apply NoDup_cons. split; [|by apply IH].
    intros Hx. apply list_elem_of_omap in Hx as ([q o'] & Hq & Hf). cbn in Hf.
    destruct (g _); [|done]. injection Hf as E. apply ToString_inj in E. subst.
    apply Hp, list_elem_of_fmap. by exists (p, o'). }
  apply (Hom (λ '(key, object), TypeMatches (sc_type options) (type_ object) &&
                                KeyMatches (sc_match options) (ToString key))).
  clear Hom.
induction (map_ForEach _) as [|[p o] l IH]; cbn; [constructor|].
  cbn in Hnd. apply NoDup_cons in Hnd as [Hp Hl]. destruct (negb _); cbn; [|by apply IH].
  apply NoDup_cons. split; [|by apply IH]. intros (x & -> & Hx)%list_elem_of_fmap.
  rewrite list_elem_of_In, List.filter_In, <-list_elem_of_In in Hx. destruct Hx as [Hx _].
  apply Hp, list_elem_of_fmap. by exists x.
Qed.

Lemma keys_between_spec e options now_us first last :
  engine_ok e → (first <= last <= length (slots_ e))%nat →
  NoDup (keys_between e options now_us first last) ∧
  ∀ k, k ∈ keys_between e options now_us first last ↔
       (first <= SlotForKey k < last)%nat ∧ wanted e options now_us k.
Proof.
  intros He Hle. remember (last - first)%nat as n eqn:Hn. revert first Hn Hle.
  induction n as [|n IH]; intros first Hn Hle.
  { unfold keys_between. rewrite <-Hn, take_0. cbn. split; [constructor|].
    intros k. split; [set_solver|lia]. }
  destruct (lookup_lt_is_Some_2 (slots_ e) first) as [s Hs]; [lia|].
  rewrite (keys_between_cons _ _ _ _ _ _ Hs) by lia.
  destruct (IH (S first)) as [Hnd Hin]; [lia|lia|].
  pose proof (λ k, slot_keys_elem e options now_us first s k He Hs) as Hk.
  split.
  - apply NoDup_app. split; [apply slot_keys_NoDup|]. split; [|done].
    intros k [E _]%Hk [Hx _]%Hin. lia.
  - intros k. rewrite elem_of_app, Hk, Hin. split; [|].
    + intros [[E ?]|[? ?]]; split; try done; lia.
    + intros [? ?]. destruct (decide (SlotForKey k = first)); [tauto|].
      right. split; [lia|done].
Qed.

(** One call of SCAN. *)
Lemma ExecuteScan_run rnd name cursor opts options now_us e :
  engine_ok e → (cursor < Z.to_nat kSlotCount)%nat →
  ParseOptions_loop opts (mkScanOptions (Z.of_nat cursor) kDefaultCount None None) = inr options →
  ∃ next keys,
    ExecCmd ScanCmd rnd (name :: to_string (Z.of_nat cursor) :: opts) now_us e =
      Some (Array [BulkString (to_string (Z.of_nat (if (Z.to_nat kSlotCount <=? next)%nat
                                                    then 0%nat else next)));
                   Array (BulkString <$> keys)], e) ∧
    (cursor < next <= Z.to_nat kSlotCount)%nat ∧
    keys = keys_between e options now_us cursor next.
Proof.
  intros He Hc Ho. pose proof (ew_count _ (eo_wf _ He)) as Hl.
  pose proof (ParseOptions_loop_cursor _ _ _ Ho) as Hcur. cbn in Hcur.
  assert (Z.of_nat cursor < kSlotCount) as Hcz by (unfold kSlotCount in *; lia).
  unfold ScanCmd, ExecuteScan. cbn [ExecCmd].
  unfold arg, liftM, mbind, stM_bind, SlotCount. cbn [fmap option_fmap lookup list_lookup].
  cbn [option_map]. rewrite skipn_cons, skipn_cons, skipn_0.
  unfold ParseOptions, ParseNonNegativeSize.
  rewrite ParseInt64_to_string by (unfold is_i64, INT64_MIN, INT64_MAX, kSlotCount in *; lia).
  rewrite (proj2 (Z.ltb_ge _ 0)) by lia.
  rewrite u64_id by (unfold kSlotCount in *; lia).
  assert ((Z.of_nat cursor >=? Z.of_nat (length (slots_ e))) = false) as ->.
  { rewrite Hl, Z2Nat.id by done. rewrite Z.geb_leb. by apply Z.leb_gt. }
  rewrite Ho, Hcur, Nat2Z.id.
  destruct (scan_loop_spec (length (slots_ e) - cursor) options now_us cursor 0 [] e)
    as (next & E & Hn & Hlt); [lia|].
  rewrite E. exists next, (keys_between e options now_us cursor next).
  rewrite <-Hl. split; [done|]. split; [lia|done].
Qed.

(** *** A client that scans to the end *)

Definition text_of (r : Response) : option string :=
  match r with BulkString s => Some s | _ => None end.

(** Calls SCAN until the cursor that comes back is 0, with [fuel] calls at
    most; [None] if that is not enough or a reply is malformed. *)
Fixpoint client_scan (fuel : nat) (rnd : nat → nat) (opts : list string) (now_us : Z)
    (cursor : string) (acc : list string) : engineM (list string) :=
  match fuel return engineM (list string) with
  | O => liftM None
  | S fuel' =>
      r ← ExecCmd ScanCmd rnd ("SCAN" :: cursor :: opts) now_us;
      match r with
      | Array [BulkString next; Array keys] =>
          keys' ← liftM (mapM text_of keys);
          let acc' := acc ++ keys' in
          if decide (next = "0") then mret acc'
          else client_scan fuel' rnd opts now_us next acc'
      | _ => liftM None
      end
  end.

Lemma ParseOptions_loop_from rest c c' n m t o :
  ParseOptions_loop rest (mkScanOptions c n m t) = inr o →
  ParseOptions_loop rest (mkScanOptions c' n m t) =
  inr (mkScanOptions c' (sc_count o) (sc_match o) (sc_type o)).
Proof.
  revert n m t. induction rest as [rest IH] using (induction_ltof1 _ length).
  unfold ltof in IH. intros n m t. destruct rest as [|x rest]; cbn; [by intros [= <-]|].
  repeat case_decide; try done; destruct rest as [|y rest]; try done.
  - apply IH. cbn. lia.
  - case_match; [|done]. apply IH. cbn. lia.
  - case_match; [done|]. apply IH. cbn. lia.
Qed.

Lemma mapM_text_of keys : mapM text_of (BulkString <$> keys) = Some keys.
Proof. apply mapM_Some. induction keys; constructor; done. Qed.

Lemma keys_between_app e options now_us a b c :
  (a <= b <= c)%nat →
  keys_between e options now_us a c =
  keys_between e options now_us a b ++ keys_between e options now_us b c.
Proof.
  intros Hle. unfold keys_between. rewrite <-join_app, <-fmap_app. do 2 f_equal.
  replace (c - a)%nat with ((b - a) + (c - b))%nat by lia.
  rewrite <-take_take_drop, drop_drop. do 3 f_equal. lia.
Qed.

Lemma keys_between_options e o o' now_us a b :
  sc_match o = sc_match o' → sc_type o = sc_type o' →
  keys_between e o now_us a b = keys_between e o' now_us a b.
Proof.
  intros Hm Ht. unfold keys_between, slot_keys, matching_keys. by rewrite Hm, Ht.
Qed.

Lemma client_scan_spec fuel rnd opts options now_us cursor acc e :
  engine_ok e → (cursor < Z.to_nat kSlotCount)%nat →
  (Z.to_nat kSlotCount - cursor <= fuel)%nat →
  ParseOptions_loop opts (mkScanOptions 0 kDefaultCount None None) = inr options →
  client_scan fuel rnd opts now_us (to_string (Z.of_nat cursor)) acc e =
  Some (acc ++ keys_between e options now_us cursor (Z.to_nat kSlotCount), e).
Proof.
  intros He. revert cursor acc. induction fuel as [|fuel IH]; intros cursor acc Hc Hf Ho; [lia|].
  pose proof (ParseOptions_loop_from _ _ (Z.of_nat cursor) _ _ _ _ Ho) as Ho'.
  destruct (ExecuteScan_run rnd "SCAN" cursor opts _ now_us e He Hc Ho')
    as (next & keys & E & Hn & Hk).
  rewrite (keys_between_options _ _ options) in Hk by done.
  cbn [client_scan]. unfold mbind at 1, stM_bind at 1. rewrite E.
  unfold mbind at 1, stM_bind at 1, liftM. rewrite mapM_text_of. cbn [fmap option_fmap option_map].
  rewrite (keys_between_app e options now_us cursor next) by lia.
  rewrite <-Hk, app_assoc. destruct (_ <=? next)%nat eqn:El.
  - apply Nat.leb_le in El. rewrite decide_True by done.
    replace next with (Z.to_nat kSlotCount) by lia. unfold keys_between at 1.
    rewrite Nat.sub_diag, take_0. cbn. by rewrite app_nil_r.
  - apply Nat.leb_gt in El. rewrite decide_False.
    + apply IH; [done|lia|done].
    + intros Hz. assert (ParseInt64 (to_string (Z.of_nat next)) = Some 0) as Hp by by rewrite Hz.
      rewrite ParseInt64_to_string in Hp; [injection Hp as Hp; lia|].
      unfold is_i64, INT64_MIN, INT64_MAX. assert (Z.of_nat next < kSlotCount) by lia.
      unfold kSlotCount in *. lia.
Qed.
End scan_cmd.
