(* ===== verification/Dispatcher.v ===== *)
(** * CommandDispatcher: src/command/command_dispatcher

    The table of the 47 commands, their execution, and the read-only
    execution of a replica. The theorems say that no command line leaves
    defined behaviour or breaks the invariant of the cache, that commands
    not marked as writes never change it, and that every single-key write
    command implements its specification ([write_rel]). *)

From S2P Require Import Prelude Text Containers Double RedisObject Binlog HashSlot Engine Response Command KeyCmd StringCmd HashCmd SetCmd ZSetCmd ZSetOrder ScanCmd.

Section dispatcher.
Context {IC : ImmutableContainer}.

Record CommandEntry := mkEntry { ce_cmd : RedisCmd; write_cmd : bool; multi_key : bool }.

Definition command_list : list (string * CommandEntry) := [
  ("SET", mkEntry SetCmd true false);
  ("GET", mkEntry GetCmd false false);
  ("MGET", mkEntry MGetCmd false true);
  ("SETNX", mkEntry SetNxCmd true false);
  ("GETSET", mkEntry GetSetCmd true false);
  ("STRLEN", mkEntry StrLenCmd false false);
  ("APPEND", mkEntry AppendCmd true false);
  ("INCR", mkEntry IncrCmd true false);
  ("DECR", mkEntry DecrCmd true false);
  ("INCRBY", mkEntry IncrByCmd true false);
  ("DECRBY", mkEntry DecrByCmd true false);
  ("HSET", mkEntry HSetCmd true false);
  ("HGET", mkEntry HGetCmd false false);
  ("HDEL", mkEntry HDelCmd true false);
  ("HEXISTS", mkEntry HExistsCmd false false);
  ("HLEN", mkEntry HLenCmd false false);
  ("HSTRLEN", mkEntry HStrLenCmd false false);
  ("HMGET", mkEntry HMGetCmd false false);
  ("HMSET", mkEntry HMSetCmd true false);
  ("HGETALL", mkEntry HGetAllCmd false false);
  ("HKEYS", mkEntry HKeysCmd false false);
  ("HVALS", mkEntry HValsCmd false false);
  ("HINCRBY", mkEntry HIncrByCmd true false);
  ("SADD", mkEntry SAddCmd true false);
  ("SISMEMBER", mkEntry SIsMemberCmd false false);
  ("SREM", mkEntry SRemCmd true false);
  ("SCARD", mkEntry SCardCmd false false);
  ("SMEMBERS", mkEntry SMembersCmd false false);
  ("SMISMEMBER", mkEntry SMIsMemberCmd false false);
  ("SPOP", mkEntry SPopCmd true false);
  ("SRANDMEMBER", mkEntry SRandMemberCmd false false);
  ("ZADD", mkEntry ZAddCmd true false);
  ("ZSCORE", mkEntry ZScoreCmd false false);
  ("ZREM", mkEntry ZRemCmd true false);
  ("ZCARD", mkEntry ZCardCmd false false);
  ("ZRANK", mkEntry ZRankCmd false false);
  ("ZREVRANK", mkEntry ZRevRankCmd false false);
  ("ZCOUNT", mkEntry ZCountCmd false false);
  ("ZINCRBY", mkEntry ZIncrByCmd true false);
  ("ZRANGE", mkEntry ZRangeCmd false false);
  ("EXISTS", mkEntry ExistsCmd false true);
  ("TYPE", mkEntry TypeCmd false false);
  ("PTTL", mkEntry PTtlCmd false false);
  ("SCAN", mkEntry ScanCmd false false);
  ("DEL", mkEntry DelCmd true false);
  ("EXPIRE", mkEntry ExpireCmd true false);
  ("TTL", mkEntry TtlCmd false false)
].

Definition commands_ : gmap string CommandEntry := list_to_map command_list.

Definition IsWriteCommand (command : string) : bool :=
  match commands_ !! ToUpperAscii command with
  | Some entry => write_cmd entry
  | None => false
  end.

Definition unknown_command (name : string) : string :=
  String.append "ERR unknown command '" (String.append name "'").

Definition Execute (rnd : nat → nat) (args : list string) (now_us : Z) : engineM Response :=
  match args with
  | [] => mret (Error "ERR empty command")
  | arg0 :: _ =>
      let name := ToUpperAscii arg0 in
      match commands_ !! name with
      | None => mret (Error (unknown_command name))
      | Some entry =>
          match CheckArity (ce_cmd entry) args with
          | Some error => mret (Error error)
          | None => ExecCmd (ce_cmd entry) rnd args now_us
          end
      end
  end.

Definition ExecuteReadOnly (rnd : nat → nat) (args : list string) (now_us : Z)
    (can_read : nat → bool) : engineM Response :=
  match args with
  | [] => mret (Error "ERR empty command")
  | arg0 :: _ =>
      let name := ToUpperAscii arg0 in
      match commands_ !! name with
      | None => Execute rnd args now_us
      | Some entry =>
          if write_cmd entry then mret (Error "READONLY replica does not accept writes")
          else
            match CheckArity (ce_cmd entry) args with
            | Some error => mret (Error error)
            | None =>
                if decide (name = "SCAN") then ExecuteScan args now_us (Some can_read)
                else
                  keys ← (if multi_key entry then mret (drop 1 args)
                          else key ← arg args 1; mret [key]);
                  if forallb (λ key, can_read (SlotForKey key)) keys
                  then Execute rnd args now_us
                  else mret (Error "TRYAGAIN slot is syncing")
            end
      end
  end.

(** ** The specification of the single-key write commands *)

Definition write_rel (now_us : Z) (cmd key : string) (rest : list string)
    (o : option aobj) (eff : effect) (r : Response) : Prop :=
  let does spec := (eff, r) = spec o in
  match cmd, rest with
  | "SET", value :: opts => does (set_spec now_us key value opts)
  | "SETNX", [value] => does (setnx_spec key value)
  | "GETSET", [value] => does (getset_spec key value)
  | "APPEND", [value] => does (append_spec key value)
  | "INCR", [] => does (integer_spec ["INCR"; key] (λ n, n + 1))
  | "DECR", [] => does (integer_spec ["DECR"; key] (λ n, n - 1))
  | "INCRBY", [text] => does (by_spec ["INCRBY"; key; text] text Z.add)
  | "DECRBY", [text] => does (by_spec ["DECRBY"; key; text] text Z.sub)
  | "HSET", _ => ∃ pairs, field_value_pairs rest = Some pairs ∧
                   does (hset_spec ("HSET" :: key :: rest) pairs Integer)
  | "HMSET", _ => ∃ pairs, field_value_pairs rest = Some pairs ∧
                   does (hset_spec ("HMSET" :: key :: rest) pairs (λ _, SimpleString "OK"))
  | "HDEL", _ => does (hdel_spec ("HDEL" :: key :: rest) rest)
  | "HINCRBY", [field; text] => does (hincrby_spec key field text)
  | "SADD", _ => does (sadd_spec ("SADD" :: key :: rest) rest)
  | "SREM", _ => does (srem_spec ("SREM" :: key :: rest) rest)
  | "SPOP", [] => spop_spec_rel key None o eff r
  | "SPOP", [text] => spop_spec_rel key (Some text) o eff r
  | "ZADD", _ => does (zadd_cmd_spec key rest)
  | "ZINCRBY", [text; member] => does (zincrby_spec key text member)
  | "ZREM", _ => does (zrem_spec ("ZREM" :: key :: rest) rest)
  | "EXPIRE", [text] => does (expire_spec now_us key text)
  | _, _ => False
  end.

(** ** Theorems *)

Context {CL : ContainerLaws IC}.

Lemma command_list_NoDup : NoDup command_list.*1.
Proof. apply (bool_decide_unpack _). by vm_compute. Qed.

Lemma commands_lookup name entry :
  commands_ !! name = Some entry ↔ (name, entry) ∈ command_list.
Proof. unfold commands_. symmetry. apply elem_of_list_to_map, command_list_NoDup. Qed.

Lemma arity_check_None bad cmd args :
  arity_check bad cmd args = None ↔ bad (length args) = false.
Proof. unfold arity_check. by destruct (bad _). Qed.

(** Case analysis on the entry of a known command. *)
Ltac command_cases H :=
  apply commands_lookup in H; unfold command_list in H;
  repeat (rewrite elem_of_cons in H; destruct H as [H|H]; [injection H as H ->|]);
  [..|by apply not_elem_of_nil in H].

(** What an arity check that passes says about the number of arguments. *)
Ltac arity_cases H :=
  cbn in H; unfold CheckMinArity, CheckExactArity, CheckFieldValueArity in H;
  try (apply arity_check_None in H; cbn in H).

Lemma write_implements rnd name key rest now_us entry :
  is_u64 now_us →
  commands_ !! ToUpperAscii name = Some entry → write_cmd entry = true →
  ToUpperAscii name ≠ "DEL" →
  CheckArity (ce_cmd entry) (name :: key :: rest) = None →
  implements_rel (ExecCmd (ce_cmd entry) rnd (name :: key :: rest) now_us) key now_us
    (write_rel now_us (ToUpperAscii name) key rest).
Proof.
  intros Hn He Hw Hdel Ha. remember (ToUpperAscii name) as cmd eqn:Hcmd.
  command_cases He; try discriminate Hw; rewrite He in Hcmd, Hdel |- *; symmetry in Hcmd;
    arity_cases Ha.
  - destruct rest as [|value opts]; [done|]. apply implements_rel_fun, Set_implements.
  - destruct rest as [|value [|? ?]]; try done. apply implements_rel_fun, SetNx_implements.
  - destruct rest as [|value [|? ?]]; try done. apply implements_rel_fun, GetSet_implements.
  - destruct rest as [|value [|? ?]]; try done. apply implements_rel_fun, Append_implements.
  - destruct rest as [|? ?]; try done.
    pose proof (integer_implements name [] key kAdd 1 now_us) as H. rewrite Hcmd in H.
    apply implements_rel_fun. by apply H.
  - destruct rest as [|? ?]; try done.
    pose proof (integer_implements name [] key kSubtract 1 now_us) as H. rewrite Hcmd in H.
    apply implements_rel_fun. by apply H.
  - destruct rest as [|text [|? ?]]; try done.
    pose proof (exec_by_implements name key text kAdd now_us) as H. rewrite Hcmd in H.
    apply implements_rel_fun. by apply H.
  - destruct rest as [|text [|? ?]]; try done.
    pose proof (exec_by_implements name key text kSubtract now_us) as H. rewrite Hcmd in H.
    apply implements_rel_fun. by apply H.
  - apply orb_false_iff in Ha as [Hl Hev].
    destruct (field_value_pairs_even rest) as [pairs Hp]; [by apply negb_false_iff, Nat.eqb_eq in Hev|].
    eapply implements_rel_mono; [|apply implements_rel_fun, (HSet_implements rnd name key rest pairs);
      [done|by destruct rest]].
    intros o eff r H. by exists pairs.
  - apply implements_rel_fun, HDel_implements.
  - apply orb_false_iff in Ha as [Hl Hev].
    destruct (field_value_pairs_even rest) as [pairs Hp]; [by apply negb_false_iff, Nat.eqb_eq in Hev|].
    eapply implements_rel_mono; [|apply implements_rel_fun, (HMSet_implements rnd name key rest pairs);
      [done|by destruct rest]].
    intros o eff r H. by exists pairs.
  - destruct rest as [|field [|text [|? ?]]]; try done.
    apply implements_rel_fun, HIncrBy_implements.
  - apply implements_rel_fun, SAdd_implements.
  - apply implements_rel_fun, SRem_implements.
  - destruct rest as [|text [|? ?]]; try done; [apply SPop_implements|apply SPop_count_implements].
  - apply implements_rel_fun. by apply ZAdd_implements.
  - apply implements_rel_fun. by apply ZRem_implements.
  - destruct rest as [|text [|member [|? ?]]]; try done.
    apply implements_rel_fun. by apply ZIncrBy_implements.
  - done.
  - destruct rest as [|text [|? ?]]; try done.
    apply implements_rel_fun. by apply Expire_implements.
Qed.

(** Commands that are not writes only read. *)
Lemma read_command_run rnd args now_us name entry e :
  engine_ok e → is_u64 now_us →
  commands_ !! name = Some entry → write_cmd entry = false →
  CheckArity (ce_cmd entry) args = None →
  ∃ r, ExecCmd (ce_cmd entry) rnd args now_us e = Some (r, e).
Proof.
  intros He Hn Hc Hw Ha.
  command_cases Hc; try discriminate Hw; clear Hw; cbn [ce_cmd] in *; arity_cases Ha;
    destruct args as [|a0 args]; try done; destruct args as [|key args]; try done;
    try (destruct args as [|a2 args]; [|by destruct args]);
    try (destruct args as [|a2 args]; [done|]; try (destruct args as [|a3 args]; [|by destruct args]));
    try (destruct args as [|a3 args]; [done|]; try (destruct args as [|a4 args]; [|by destruct args]));
    try done.
  all: try (eexists; first
    [ by apply Get_run | by apply StrLen_run | by apply (MGet_run rnd a0 (key :: args))
    | by apply HGet_run | by apply HExists_run | by apply HLen_run | by apply HStrLen_run
    | by apply HMGet_run | by apply SIsMember_run | by apply SCard_run | by apply SMIsMember_run
    | by apply ZScore_run | by apply ZCard_run | by apply RankResponse_run
    | by apply ZCount_run | by apply ZRange_run | by apply (Exists_run rnd a0 (key :: args))
    | by apply Type_run | by apply PTtl_run | by apply Ttl_run ]).
  - destruct (HGetAll_run rnd a0 key now_us e He) as (l & _ & E). by eexists.
  - destruct (HKeys_run rnd a0 key now_us e He) as (l & _ & E). by eexists.
  - destruct (HVals_run rnd a0 key now_us e He) as (l & _ & E). by eexists.
  - destruct (SMembers_run rnd a0 key now_us e He) as (r & E & _). by eexists.
  - destruct args as [|text [|? ?]]; [| |done].
    + destruct (SRandMember_run rnd a0 key None now_us e He) as (r & E & _). by eexists.
    + destruct (SRandMember_run rnd a0 key (Some text) now_us e He) as (r & E & _). by eexists.
  - apply ExecuteScan_reads.
Qed.

(** Any command line, well-formed or not. *)
Lemma Execute_total rnd args now_us e :
  engine_ok e → is_u64 now_us → engine_room e (Z.of_nat (length args)) →
  ∃ r e', Execute rnd args now_us e = Some (r, e') ∧ engine_ok e' ∧
    (IsWriteCommand (default "" (head args)) = false → e' = e) ∧
    ∀ n, 0 <= n → engine_room e (n + Z.of_nat (length args)) → engine_room e' n.
Proof.
  intros He Hn Hr.
  assert (∀ r : Response, ∃ r' e', Some (r, e) = Some (r', e') ∧ engine_ok e' ∧
    (IsWriteCommand (default "" (head args)) = false → e' = e) ∧
    ∀ n, 0 <= n → engine_room e (n + Z.of_nat (length args)) → engine_room e' n) as Hsame.
  { intros r. exists r, e. do 3 (split; [done|]). intros n Hk. apply engine_room_le. lia. }
  destruct args as [|name args]; [apply Hsame|].
  cbn [Execute]. change (default "" (head (name :: args))) with name in Hsame |- *.
  unfold IsWriteCommand in Hsame |- *.
  destruct (commands_ !! ToUpperAscii name) as [entry|] eqn:Hc; [|apply Hsame].
  destruct (CheckArity (ce_cmd entry) (name :: args)) as [error|] eqn:Ha; [apply Hsame|].
  destruct (write_cmd entry) eqn:Hw.
  - assert (∀ m, (m <= length args)%nat → engine_room e (Z.of_nat m)) as Hroom.
    { intros m Hm. eapply engine_room_le; [|exact Hr]. cbn [length]. lia. }
    destruct (decide (ToUpperAscii name = "DEL")) as [Hd|Hd].
    + rewrite Hd in Hc. assert (entry = mkEntry DelCmd true false) as ->
        by (apply (inj Some); by rewrite <-Hc).
      destruct (Del_run rnd name args now_us e He) as (e' & E & He' & _ & Hr'); [by apply Hroom|].
      eexists _, e'. split; [exact E|]. split; [done|]. split; [done|]. intros n Hk Hrn. apply Hr'; [done|].
      eapply engine_room_le; [|exact Hrn]. cbn [length]. lia.
    + destruct args as [|key rest].
      { exfalso. command_cases Hc; try discriminate Hw; try done; cbn in Ha; done. }
      pose proof (write_implements rnd name key rest now_us entry Hn Hc Hw Hd Ha) as Hi.
      destruct (implements_rel_ok _ _ _ _ e Hi He) as (r & e' & E & He' & Hr');
        [by apply (Hroom 1%nat); cbn; lia|].
      exists r, e'. do 3 (split; [done|]). intros n Hk Hrn. apply Hr'; [done|].
      eapply engine_room_le; [|exact Hrn]. cbn [length]. lia.
  - destruct (read_command_run rnd (name :: args) now_us _ entry e He Hn Hc Hw Ha) as (r & ->).
    apply Hsame.
Qed.

(** What the execution of a command line is: it leaves the cache alone, it is
    a DEL, or it is the effect of a single-key write. *)
Lemma Execute_cases rnd args now_us e r e' :
  engine_ok e → is_u64 now_us → engine_room e (Z.of_nat (length args)) →
  Execute rnd args now_us e = Some (r, e') →
  e' = e ∨
  (∃ name keys, args = name :: keys ∧ ToUpperAscii name = "DEL" ∧
     ExecCmd DelCmd rnd args now_us e = Some (r, e')) ∨
  ∃ name key rest entry eff, args = name :: key :: rest ∧
    commands_ !! ToUpperAscii name = Some entry ∧ write_cmd entry = true ∧
    ToUpperAscii name ≠ "DEL" ∧ CheckArity (ce_cmd entry) args = None ∧
    write_rel now_us (ToUpperAscii name) key rest (engine_live e now_us key) eff r ∧
    engine_writes e key now_us eff e'.
Proof.
  intros He Hn Hr E. destruct args as [|name args]; [left; by injection E as _ ->|].
  destruct (Execute_total rnd (name :: args) now_us e He Hn Hr) as (r1 & e1 & E1 & _ & Hread & _).
  rewrite E1 in E. injection E as -> ->. change (default "" (head (name :: args))) with name in Hread.
  unfold IsWriteCommand in Hread. cbn [Execute] in E1.
  destruct (commands_ !! ToUpperAscii name) as [entry|] eqn:Hc; [|left; by apply Hread].
  destruct (write_cmd entry) eqn:Hw; [clear Hread|left; by apply Hread].
  destruct (CheckArity (ce_cmd entry) (name :: args)) eqn:Ha; [left; by injection E1 as _ ->|].
  right. destruct (decide (ToUpperAscii name = "DEL")) as [Hd|Hd].
  - left. exists name, args. split; [done|]. split; [done|]. rewrite Hd in Hc.
    assert (entry = mkEntry DelCmd true false) as -> by (apply (inj Some); by rewrite <-Hc). exact E1.
  - right. destruct args as [|key rest].
    { exfalso. command_cases Hc; try discriminate Hw; by cbn in Ha. }
    destruct (write_implements rnd name key rest now_us entry Hn Hc Hw Hd Ha e He)
      as (r2 & eff & e2 & E2 & Hrel & Hwr).
    rewrite E1 in E2. injection E2 as -> ->. by exists name, key, rest, entry, eff.
Qed.

(** A replica never runs a write command, and reads a key only when its
    slot may be read. *)
Lemma ExecuteReadOnly_total rnd args now_us can_read e :
  engine_ok e → is_u64 now_us →
  ∃ r, ExecuteReadOnly rnd args now_us can_read e = Some (r, e).
Proof.
  intros He Hn. destruct args as [|name args]; [by eexists|].
  cbn [ExecuteReadOnly Execute].
  destruct (commands_ !! ToUpperAscii name) as [entry|] eqn:Hc; [|by eexists].
  destruct (write_cmd entry) eqn:Hw; [by eexists|].
  destruct (CheckArity (ce_cmd entry) (name :: args)) as [error|] eqn:Ha; [by eexists|].
  assert (∃ key rest, args = key :: rest) as (key & rest & ->).
  { destruct args as [|key rest]; [|by eauto]. exfalso.
    command_cases Hc; try discriminate Hw; cbn in Ha; done. }
  case_decide; [apply ExecuteScan_reads|].
  destruct (read_command_run rnd (name :: key :: rest) now_us _ entry e He Hn Hc Hw Ha) as (r & E).
  assert (Execute rnd (name :: key :: rest) now_us e = Some (r, e)) as HE.
  { cbn [Execute]. by rewrite Hc, Ha. }
  destruct (multi_key entry); unfold mbind, stM_bind, mret, stM_ret, arg, liftM;
    cbn [fmap option_fmap option_map lookup list_lookup];
    (destruct (forallb _ _); [by exists r|by eexists]).
Qed.
End dispatcher.
