(* ===== verification/ReadOnly.v ===== *)
(** * What a replica's reads depend on

    [ExecuteReadOnly] checks the slot of every key before it runs a command.
    The theorem of this file is the reason for the check: the reply depends
    only on slots that may be read, so it never shows a slot that is being
    synchronised. [local S m] says that program [m] only reads, and only
    slots in [S]; it is closed under the constructs the commands are made of. *)

From S2P Require Import Prelude Text Containers Double RedisObject Binlog HashSlot Engine Response Command KeyCmd StringCmd HashCmd SetCmd ZSetCmd ZSetOrder ScanCmd Dispatcher.

Section read_only.
Context {IC : ImmutableContainer}.

(** Engines with the same slots in [S]. *)
Definition agree (S : nat → Prop) (e1 e2 : CacheEngine) : Prop :=
  length (slots_ e1) = length (slots_ e2) ∧
  ∀ i, S i → slots_ e1 !! i = slots_ e2 !! i.

Record local {A} (S : nat → Prop) (m : engineM A) : Prop := {
  local_pure e a e' : m e = Some (a, e') → e' = e;
  local_agree e1 e2 : agree S e1 e2 → fst <$> m e1 = fst <$> m e2;
}.

Lemma local_ret {A} S (a : A) : local S (mret a).
Proof. split; [by intros e a' e' [= <- <-]|done]. Qed.

Lemma local_liftM {A} S (o : option A) : local S (liftM o).
Proof.
  split; [|by destruct o]. intros e a e' H. unfold liftM in H.
  destruct o; cbn in H; [by injection H as _ ->|done].
Qed.

Lemma local_bind {A B} S (m : engineM A) (f : A → engineM B) :
  local S m → (∀ a, local S (f a)) → local S (m ≫= f).
Proof.
  intros [Hp Ha] Hf. split.
  - intros e b e' H. unfold mbind, stM_bind in H. destruct (m e) as [[a e1]|] eqn:E; [|done].
    apply Hp in E as ->. by eapply local_pure; [apply Hf|exact H].
  - intros e1 e2 Hag. unfold mbind, stM_bind. specialize (Ha e1 e2 Hag).
    destruct (m e1) as [[a1 e1']|] eqn:E1, (m e2) as [[a2 e2']|] eqn:E2; try done.
    apply Hp in E1 as ->. apply Hp in E2 as ->. injection Ha as ->. by apply Hf.
Qed.

Lemma local_slot {A} (S : nat → Prop) i (f : HashSlot → A) :
  S i → local S (SlotById i (read_slot f)).
Proof.
  intros Hi. unfold SlotById, read_slot. split.
  - intros e a e' H. destruct (slots_ e !! i) as [s|] eqn:E; [|done].
    injection H as <- <-. rewrite list_insert_id by done. by destruct e.
  - intros e1 e2 [_ Hag]. rewrite (Hag i Hi). by destruct (slots_ e2 !! i).
Qed.

Lemma local_Get (S : nat → Prop) key now_us :
  S (SlotForKey key) → local S (engine_Get key now_us).
Proof. apply local_slot. Qed.

Lemma local_Ttl (S : nat → Prop) key now_us :
  S (SlotForKey key) → local S (engine_Ttl key now_us).
Proof. apply local_slot. Qed.

Lemma local_foldM {A B} (S : nat → Prop) (f : B → A → engineM B) l :
  (∀ b a, a ∈ l → local S (f b a)) → ∀ b, local S (foldM f b l).
Proof.
  induction l as [|a l IH]; intros Hf b; cbn; [apply local_ret|].
  apply local_bind; [apply Hf; left|]. intros b'. apply IH. intros ? ? ?. apply Hf. by right.
Qed.

Lemma local_weaken {A} (S S' : nat → Prop) (m : engineM A) :
  (∀ i, S i → S' i) → local S m → local S' m.
Proof.
  intros HS [Hp Ha]. split; [done|]. intros e1 e2 [Hl Hag]. apply Ha. split; [done|].
  intros i Hi. by apply Hag, HS.
Qed.

(** A program made of reads of one key. *)
Ltac local_tac :=
  repeat first
    [ apply local_ret | apply local_liftM
    | apply local_Get; assumption | apply local_Ttl; assumption
    | apply local_bind; [|intros ?]
    | progress cbn beta iota
    | case_match ].

Lemma local_ReadString (S : nat → Prop) key now_us :
  S (SlotForKey key) → local S (ReadString key now_us).
Proof. intros Hk. unfold ReadString. local_tac. Qed.

Lemma local_with_hash (S : nat → Prop) key now_us reader :
  S (SlotForKey key) → (∀ h, local S (reader h)) → local S (with_hash key now_us reader).
Proof.
  intros Hk Hr. unfold with_hash. apply local_bind; [by apply local_Get|]. intros o.
  destruct (HashOrWrongType o) as [h []]; [apply local_ret|apply Hr].
Qed.

Lemma local_ReadSet (S : nat → Prop) key now_us reader :
  S (SlotForKey key) → (∀ s, local S (reader s)) → local S (ReadSet key now_us reader).
Proof.
  intros Hk Hr. unfold ReadSet. apply local_bind; [by apply local_Get|]. intros [o|]; [|apply Hr].
  destruct (type_ o), (Set_ o); try apply local_ret. apply Hr.
Qed.

Lemma local_ReadZSet (S : nat → Prop) key now_us :
  S (SlotForKey key) → local S (ReadZSet key now_us).
Proof. intros Hk. unfold ReadZSet. local_tac. Qed.

Lemma local_srandmember S rnd count set : local S (srandmember_reader rnd count set).
Proof. unfold srandmember_reader. local_tac. Qed.

Lemma local_scan_loop (can_read : nat → bool) n options now_us slot scanned keys :
  local (λ i, can_read i = true)
    (scan_loop n options (Some can_read) now_us slot scanned keys).
Proof.
  revert slot scanned keys. induction n as [|n IH]; intros slot scanned keys; cbn;
    [apply local_ret|].
  destruct (can_read slot) eqn:E; cbn; [|apply local_ret].
  apply local_bind; [by apply local_slot|]. intros objects.
  destruct (_ >=? _); [apply local_ret|apply IH].
Qed.

Lemma local_ExecuteScan (can_read : nat → bool) args now_us :
  local (λ i, can_read i = true) (ExecuteScan args now_us (Some can_read)).
Proof.
  unfold ExecuteScan. apply local_bind; [apply local_liftM|]. intros text.
  apply local_bind.
  { split; [by intros e a e' [= _ <-]|]. intros e1 e2 [Hl _]. cbn. unfold SlotCount. by rewrite Hl. }
  intros count. destruct (ParseOptions _ _ _); [apply local_ret|].
  apply local_bind; [apply local_scan_loop|]. intros ?. apply local_ret.
Qed.

Lemma local_key {A} S name key rest (f : string → engineM A) :
  local S (f key) → local S (arg (name :: key :: rest) 1 ≫= f).
Proof. exact id. Qed.

Ltac local_cmd :=
  repeat first
    [ apply local_ret | apply local_key | apply local_liftM
    | apply local_srandmember
    | apply local_Get; assumption | apply local_Ttl; assumption
    | apply local_ReadString; assumption | apply local_ReadZSet; assumption
    | apply local_with_hash; [assumption|intros ?]
    | apply local_ReadSet; [assumption|intros ?]
    | apply local_bind; [|intros ?]
    | case_match ].

(** A read command reads the slots of its keys. *)
Lemma read_command_local (S : nat → Prop) rnd name key rest now_us cmd entry :
  commands_ !! cmd = Some entry → write_cmd entry = false → cmd ≠ "SCAN" →
  CheckArity (ce_cmd entry) (name :: key :: rest) = None →
  Forall (λ k, S (SlotForKey k)) (if multi_key entry then key :: rest else [key]) →
  local S (ExecCmd (ce_cmd entry) rnd (name :: key :: rest) now_us).
Proof.
  intros Hc Hw Hscan _ HS. assert (S (SlotForKey key)) as Hk.
  { by destruct (multi_key entry); apply Forall_cons in HS as [? _]. }
  apply commands_lookup in Hc. unfold command_list in Hc.
  repeat (rewrite elem_of_cons in Hc; destruct Hc as [Hc|Hc];
    [injection Hc as Hc ->; try discriminate Hw; cbn [ce_cmd multi_key ExecCmd] in *|]);
    [..|by apply not_elem_of_nil in Hc].
  all: cbn [multi_key] in *.
  all: try (unfold GetCmd, StrLenCmd, HGetCmd, HExistsCmd, HLenCmd, HStrLenCmd, HMGetCmd,
    HGetAllCmd, HKeysCmd, HValsCmd, SIsMemberCmd, SCardCmd, SMembersCmd, SMIsMemberCmd,
    SRandMemberCmd, ZScoreCmd, ZCardCmd, ZRankCmd, ZRevRankCmd, RankResponse, ZCountCmd,
    ZRangeCmd, TypeCmd, PTtlCmd, TtlCmd; cbn [ExecCmd]; local_cmd; done).
  - apply local_bind; [|intros ?; apply local_ret].
    apply local_foldM. intros b k Hkin. rewrite Forall_forall in HS.
    apply local_bind; [by apply local_ReadString, HS|]. intros ?. apply local_ret.
  - apply local_bind; [|intros ?; apply local_ret].
    apply local_foldM. intros b k Hkin. rewrite Forall_forall in HS.
    apply local_bind; [by apply local_Get, HS|]. intros ?. apply local_ret.
Qed.

(** The reply of a replica is a function of the readable slots. *)
Lemma ExecuteReadOnly_local rnd args now_us (can_read : nat → bool) :
  local (λ i, can_read i = true) (ExecuteReadOnly rnd args now_us can_read).
Proof.
  destruct args as [|name args]; [apply local_ret|]. cbn [ExecuteReadOnly].
  destruct (commands_ !! ToUpperAscii name) as [entry|] eqn:Hc.
  2:{ cbn [Execute]. rewrite Hc. apply local_ret. }
  destruct (write_cmd entry) eqn:Hw; [apply local_ret|].
  destruct (CheckArity (ce_cmd entry) (name :: args)) as [error|] eqn:Ha; [apply local_ret|].
  case_decide as Hs; [apply local_ExecuteScan|].
  destruct args as [|key rest].
  { exfalso. apply commands_lookup in Hc. unfold command_list in Hc.
    repeat (rewrite elem_of_cons in Hc; destruct Hc as [Hc|Hc];
      [injection Hc as Hc ->; try discriminate Hw; cbn in Ha; done|]).
    by apply not_elem_of_nil in Hc. }
  assert (Forall (λ k, can_read (SlotForKey k) = true)
            (if multi_key entry then key :: rest else [key]) →
          local (λ i, can_read i = true) (Execute rnd (name :: key :: rest) now_us)) as HE.
  { intros HS. cbn [Execute]. rewrite Hc, Ha. by eapply read_command_local. }
  assert (∀ keys, keys = (if multi_key entry then key :: rest else [key]) →
    local (λ i, can_read i = true)
      (if forallb (λ key, can_read (SlotForKey key)) keys
       then Execute rnd (name :: key :: rest) now_us
       else mret (Error "TRYAGAIN slot is syncing"))) as Hkeys.
  { intros keys Ek. destruct (forallb _ keys) eqn:Ef; [|apply local_ret]. apply HE.
    rewrite <-Ek. apply Forall_forall. intros k Hk%list_elem_of_In.
    by apply (proj1 (forallb_forall _ _) Ef). }
  destruct (multi_key entry); exact (Hkeys _ eq_refl).
Qed.
End read_only.
