(* ===== verification/Replay.v ===== *)
(** * Replaying the log

    What a write command logs, executed on an entry equal to the one the
    command saw, has the same effect and does not fail: commands are logged
    as they were given (with the name in upper case), SPOP is logged as the
    SREM of the members it drew, EXPIRE with the number it parsed or, when it
    deletes, as DEL. This is what makes the log a faithful description of the
    primary's writes. *)

From S2P Require Import Prelude Text Containers Double RedisObject Binlog HashSlot Engine Response Command KeyCmd StringCmd HashCmd SetCmd ZSetCmd ZSetOrder ScanCmd Dispatcher.

Section replay.
Context {IC : ImmutableContainer}.

(** Writes of [spec] log [largs] and answer no error. *)
Definition logs (spec : option aobj → effect * Response) (largs : list string) : Prop :=
  ∀ o entry args r, spec o = (Write entry args, r) → args = largs ∧ is_error r = false.

Ltac logs_tac := intros o entry args r; unfold store; repeat case_match; intros E; by simplify_eq.

Lemma set_logs now_us key value opts :
  logs (set_spec now_us key value opts) ("SET" :: key :: value :: opts).
Proof. unfold logs, set_spec, set_options_spec. logs_tac. Qed.
Lemma setnx_logs key value : logs (setnx_spec key value) ["SETNX"; key; value].
Proof. unfold logs, setnx_spec. logs_tac. Qed.
Lemma getset_logs key value : logs (getset_spec key value) ["GETSET"; key; value].
Proof. unfold logs, getset_spec. logs_tac. Qed.
Lemma append_logs key value : logs (append_spec key value) ["APPEND"; key; value].
Proof. unfold logs, append_spec. logs_tac. Qed.
Lemma integer_logs largs f : logs (integer_spec largs f) largs.
Proof. unfold logs, integer_spec. logs_tac. Qed.
Lemma by_logs largs text f : logs (by_spec largs text f) largs.
Proof.
  unfold logs, by_spec. intros o entry args r. destruct (ParseInt64 text); [|done].
  apply integer_logs.
Qed.
Lemma hset_logs largs pairs reply :
  (∀ n, is_error (reply n) = false) → logs (hset_spec largs pairs reply) largs.
Proof.
  intros Hr. unfold logs, hset_spec, store. intros o entry args r.
  repeat case_match; intros E; simplify_eq; by rewrite Hr.
Qed.
Lemma hdel_logs largs fields : logs (hdel_spec largs fields) largs.
Proof. unfold logs, hdel_spec. logs_tac. Qed.
Lemma hincrby_logs key field text :
  logs (hincrby_spec key field text) ["HINCRBY"; key; field; text].
Proof. unfold logs, hincrby_spec, hincrby_apply_spec. logs_tac. Qed.
Lemma sadd_logs largs members : logs (sadd_spec largs members) largs.
Proof. unfold logs, sadd_spec. logs_tac. Qed.
Lemma srem_logs largs members : logs (srem_spec largs members) largs.
Proof. unfold logs, srem_spec, srem_effect. logs_tac. Qed.
Lemma zadd_logs largs options inputs : logs (zadd_spec largs options inputs) largs.
Proof. unfold logs, zadd_spec. logs_tac. Qed.
Lemma zincr_logs largs options increment member :
  logs (zincr_spec largs options increment member) largs.
Proof. unfold logs, zincr_spec, zincr_apply_spec. logs_tac. Qed.
Lemma zadd_cmd_logs key rest : logs (zadd_cmd_spec key rest) ("ZADD" :: key :: rest).
Proof.
  intros o entry args r. unfold zadd_cmd_spec.
  destruct (ParseZAddArgs _) as [[]|[options inputs]]; [done|done|].
  destruct (za_incr options), inputs; (apply zincr_logs || apply zadd_logs).
Qed.
Lemma zincrby_logs key text member :
  logs (zincrby_spec key text member) ["ZINCRBY"; key; text; member].
Proof.
  intros o entry args r. unfold zincrby_spec. destruct (ParseFiniteScore text); [|done].
  apply zincr_logs.
Qed.
Lemma zrem_logs largs members : logs (zrem_spec largs members) largs.
Proof. unfold logs, zrem_spec. logs_tac. Qed.

(** ** Replaying a record *)

(** [args] is a command line the dispatcher runs as a single-key write. *)
Definition runnable (args : list string) : Prop :=
  ∃ cmd entry, head args = Some cmd ∧ ToUpperAscii cmd = cmd ∧ cmd ≠ "DEL" ∧
    commands_ !! cmd = Some entry ∧ write_cmd entry = true ∧
    CheckArity (ce_cmd entry) args = None.

(** At time [now_us], [args] takes an entry [o] to [entry], without a
    choice and without an error. *)
Definition replays (now_us : Z) (key : string) (o : option aobj)
    (entry : option aobj) (args : list string) : Prop :=
  runnable args ∧
  ∃ cmd rest r, args = cmd :: key :: rest ∧ is_error r = false ∧
    ∀ eff r', write_rel now_us cmd key rest o eff r' → eff = Write entry args ∧ r' = r.

Lemma replays_fun now_us cmd key rest o entry args r spec c :
  args = cmd :: key :: rest → commands_ !! cmd = Some c → write_cmd c = true →
  ToUpperAscii cmd = cmd → cmd ≠ "DEL" →
  CheckArity (ce_cmd c) args = None → is_error r = false →
  (Write entry args, r) = spec o →
  (∀ eff r', write_rel now_us cmd key rest o eff r' → (eff, r') = spec o) →
  replays now_us key o entry args.
Proof.
  intros -> Hc Hw Hu Hd Ha He Hs Hf. split; [by exists cmd, c|].
  exists cmd, rest, r. split; [done|]. split; [done|].
  intros eff r' H%Hf. rewrite <-Hs in H. by simplify_eq.
Qed.

Context {CL : ContainerLaws IC}.

Ltac by_log cmd lem :=
  let E := fresh in
  intros E; right; pose proof (lem _ _ _ _ (eq_sym E)) as [-> ?];
  by eapply (replays_fun _ cmd).

Lemma srem_effect_nonempty largs picked s d entry args :
  srem_effect largs picked s d = Write entry args → args = largs ∧ picked ≠ [].
Proof.
  unfold srem_effect, store. case_bool_decide as E; [done|]. intros H. split.
  - case_bool_decide; by simplify_eq.
  - intros ->. apply E. set_solver.
Qed.

Lemma spop_replays now_us key count o entry args r :
  spop_spec_rel key count o (Write entry args) r → replays now_us key o entry args.
Proof.
  intros H. assert (∃ b n, spop_rel key b n o (Write entry args) r) as (b & n & Hr).
  { unfold spop_spec_rel in H. destruct count as [text|]; [|eauto].
    destruct (ParseInt64 text); [|by destruct H].
    destruct (_ <? 0); [by destruct H|]. destruct (_ =? 0); [by destruct H|]. eauto. }
  unfold spop_rel in Hr. destruct (view_set o) as [| |s d] eqn:Ev; [by destruct Hr..|].
  destruct Hr as (picked & _ & _ & _ & He & _).
  destruct (srem_effect_nonempty _ _ _ _ _ _ (eq_sym He)) as [-> Hne].
  eapply (replays_fun now_us "SREM" key picked o _ _
    (Integer (Z.of_nat (size s) - Z.of_nat (size (s ∖ list_to_set picked : gset string))))
    (srem_spec ("SREM" :: key :: picked) picked)); try done.
  - by destruct picked.
  - unfold srem_spec. by rewrite Ev, <-He.
Qed.

Lemma expire_replays now_us key text o entry args r :
  (Write entry args, r) = expire_spec now_us key text o →
  (args = ["DEL"; key] ∧ entry = None) ∨ replays now_us key o entry args.
Proof.
  unfold expire_spec. destruct (ParseInt64 text) as [n|] eqn:En; [|done].
  destruct o as [a|]; [|done]. destruct (n <=? 0) eqn:E0; intros E; simplify_eq; [by left|right].
  eapply (replays_fun now_us "EXPIRE" key [to_string n] _ _ _ (Integer 1)
    (expire_spec now_us key (to_string n))); try done.
  unfold expire_spec. rewrite ParseInt64_to_string by (by eapply ParseInt64_range).
  by rewrite E0.
Qed.

Lemma write_rel_replays now_us cmd key rest o entry args r c :
  commands_ !! cmd = Some c → write_cmd c = true → cmd ≠ "DEL" →
  CheckArity (ce_cmd c) (cmd :: key :: rest) = None →
  write_rel now_us cmd key rest o (Write entry args) r →
  (args = ["DEL"; key] ∧ entry = None) ∨ replays now_us key o entry args.
Proof.
  intros Hc Hw Hd Ha. pose proof Hc as Hc'.
  apply commands_lookup in Hc'. unfold command_list in Hc'.
  repeat (rewrite elem_of_cons in Hc'; destruct Hc' as [Hc'|Hc'];
    [injection Hc' as -> ->; try discriminate Hw|]);
    [..|by apply not_elem_of_nil in Hc'].
  - destruct rest as [|value opts]; [done|]. by_log "SET" (set_logs now_us key value opts).
  - destruct rest as [|value [|? ?]]; try done. by_log "SETNX" (setnx_logs key value).
  - destruct rest as [|value [|? ?]]; try done. by_log "GETSET" (getset_logs key value).
  - destruct rest as [|value [|? ?]]; try done. by_log "APPEND" (append_logs key value).
  - destruct rest as [|? ?]; try done. by_log "INCR" (integer_logs ["INCR"; key] (λ n, n + 1)).
  - destruct rest as [|? ?]; try done. by_log "DECR" (integer_logs ["DECR"; key] (λ n, n - 1)).
  - destruct rest as [|text [|? ?]]; try done.
    by_log "INCRBY" (by_logs ["INCRBY"; key; text] text Z.add).
  - destruct rest as [|text [|? ?]]; try done.
    by_log "DECRBY" (by_logs ["DECRBY"; key; text] text Z.sub).
  - intros (pairs & Hp & E). right.
    assert (∀ n, is_error (Integer n) = false) as He by done.
    pose proof (hset_logs ("HSET" :: key :: rest) pairs Integer He _ _ _ _ (eq_sym E)) as [-> ?].
    eapply (replays_fun _ "HSET"); try done.
    intros eff r' (pairs' & Hp' & E'). by simplify_eq.
  - by_log "HDEL" (hdel_logs ("HDEL" :: key :: rest) rest).
  - intros (pairs & Hp & E). right.
    assert (∀ n : Z, is_error (SimpleString "OK") = false) as He by done.
    pose proof (hset_logs ("HMSET" :: key :: rest) pairs _ He _ _ _ _ (eq_sym E)) as [-> ?].
    eapply (replays_fun _ "HMSET"); try done.
    intros eff r' (pairs' & Hp' & E'). by simplify_eq.
  - destruct rest as [|field [|text [|? ?]]]; try done.
    by_log "HINCRBY" (hincrby_logs key field text).
  - by_log "SADD" (sadd_logs ("SADD" :: key :: rest) rest).
  - by_log "SREM" (srem_logs ("SREM" :: key :: rest) rest).
  - intros H. right. destruct rest as [|text [|? ?]]; [| |done].
    + exact (spop_replays now_us key None _ _ _ _ H).
    + exact (spop_replays now_us key (Some text) _ _ _ _ H).
  - by_log "ZADD" (zadd_cmd_logs key rest).
  - by_log "ZREM" (zrem_logs ("ZREM" :: key :: rest) rest).
  - destruct rest as [|text [|member [|? ?]]]; try done.
    by_log "ZINCRBY" (zincrby_logs key text member).
  - done.
  - destruct rest as [|text [|? ?]]; try done. apply expire_replays.
Qed.

(** A write never answers with an error. *)
Lemma spop_no_error key count o entry args r :
  spop_spec_rel key count o (Write entry args) r → is_error r = false.
Proof.
  intros H. unfold spop_spec_rel, spop_rel in H.
  destruct count as [text|]; [destruct (ParseInt64 text); [|by destruct H]|];
    repeat case_match; destruct_and?; try done;
    destruct H as (picked & _ & _ & _ & _ & ->); [done|by destruct picked].
Qed.

Lemma write_rel_no_error now_us cmd key rest o entry args r c :
  commands_ !! cmd = Some c → write_cmd c = true →
  write_rel now_us cmd key rest o (Write entry args) r → is_error r = false.
Proof.
  intros Hc Hw H. apply commands_lookup in Hc. unfold command_list in Hc.
  repeat (rewrite elem_of_cons in Hc; destruct Hc as [Hc|Hc];
    [injection Hc as -> ->; try discriminate Hw|]);
    [..|by apply not_elem_of_nil in Hc]; clear Hw; cbn in H.
  - destruct rest as [|value opts]; [done|]. by apply eq_sym, set_logs in H as [_ ?].
  - destruct rest as [|value [|? ?]]; try done. by apply eq_sym, setnx_logs in H as [_ ?].
  - destruct rest as [|value [|? ?]]; try done. by apply eq_sym, getset_logs in H as [_ ?].
  - destruct rest as [|value [|? ?]]; try done. by apply eq_sym, append_logs in H as [_ ?].
  - destruct rest as [|? ?]; try done. by apply eq_sym, integer_logs in H as [_ ?].
  - destruct rest as [|? ?]; try done. by apply eq_sym, integer_logs in H as [_ ?].
  - destruct rest as [|text [|? ?]]; try done. by apply eq_sym, by_logs in H as [_ ?].
  - destruct rest as [|text [|? ?]]; try done. by apply eq_sym, by_logs in H as [_ ?].
  - destruct H as (pairs & _ & H). by apply eq_sym, hset_logs in H as [_ ?].
  - by apply eq_sym, hdel_logs in H as [_ ?].
  - destruct H as (pairs & _ & H). by apply eq_sym, hset_logs in H as [_ ?].
  - destruct rest as [|field [|text [|? ?]]]; try done. by apply eq_sym, hincrby_logs in H as [_ ?].
  - by apply eq_sym, sadd_logs in H as [_ ?].
  - by apply eq_sym, srem_logs in H as [_ ?].
  - destruct rest as [|text [|? ?]]; try done.
    + by apply (spop_no_error key None) in H.
    + by apply (spop_no_error key (Some text)) in H.
  - by apply eq_sym, zadd_cmd_logs in H as [_ ?].
  - by apply eq_sym, zrem_logs in H as [_ ?].
  - destruct rest as [|text [|member [|? ?]]]; try done. by apply eq_sym, zincrby_logs in H as [_ ?].
  - done.
  - destruct rest as [|text [|? ?]]; try done.
    unfold expire_spec in H. repeat case_match; by simplify_eq.
Qed.

(** Executing what [replays] describes, on any cache that holds the entry. *)
Lemma Execute_replays rnd now_us key entry args e :
  engine_ok e → is_u64 now_us →
  replays now_us key (engine_live e now_us key) entry args →
  ∃ r e', Execute rnd args now_us e = Some (r, e') ∧ is_error r = false ∧
    engine_writes e key now_us (Write entry args) e'.
Proof.
  intros He Hn ((cmd & c & Hh & Hu & Hd & Hc & Hw & Ha) & cmd' & rest & r & -> & Hr & Hf).
  cbn in Hh. injection Hh as ->.
  cbn [Execute]. rewrite Hu, Hc, Ha.
  pose proof (write_implements rnd cmd key rest now_us c Hn) as Hi. rewrite Hu in Hi.
  destruct (Hi Hc Hw Hd Ha e He) as (r' & eff & e' & E & Hrel & Hwr).
  apply Hf in Hrel as [-> ->]. by exists r, e'.
Qed.
End replay.
