(* ===== verification/Resp.v ===== *)
(** * RespCodec: src/protocol/resp_codec

    The framing of commands on a byte stream, and the encoding of replies.
    The RESP parser and packers ([redis::UnpackOne], [redis::Pack...]) come
    from the submodule thirdparty/cpp_util: they are the class [RespLib], and
    [RespLaws] states the wire format of arrays of bulk strings and that the
    parser reads it back.

    A scratch array only bounds the number of values; a value unpacked into
    one slot is the value that is returned. *)

From S2P Require Import Prelude Text Response.

(** ** Byte strings *)

Fixpoint str_take (n : nat) (s : string) : string :=
  match n, s with
  | S n', String c s' => String c (str_take n' s')
  | _, _ => EmptyString
  end.

(** [substr(n)] and [erase(0, n)]. *)
Fixpoint str_drop (n : nat) (s : string) : string :=
  match n, s with
  | O, _ => s
  | S n', String _ s' => str_drop n' s'
  | S _, EmptyString => EmptyString
  end.

Definition cr : ascii := chr 13.
Definition lf : ascii := chr 10.
Definition crlf : string := String cr (String lf EmptyString).

(** [find("\r\n")]: the position of the first line end. *)
Fixpoint find_crlf (s : string) : option nat :=
  match s with
  | EmptyString => None
  | String c s' =>
      match s' with
      | String d _ => if Ascii.eqb c cr && Ascii.eqb d lf then Some 0%nat else S <$> find_crlf s'
      | EmptyString => None
      end
  end.

Definition starts_with (c : ascii) (s : string) : bool :=
  match s with String d _ => Ascii.eqb d c | EmptyString => false end.

(** ** The RESP library *)

Record RespLimits := mkRespLimits {
  max_depth : nat;
  max_array_elements : Z;
  max_bulk_bytes : Z;
}.

Inductive RespStatus := RespOk | RespNeedMore | RespError.
#[export] Instance RespStatus_eq_dec : EqDecision RespStatus.
Proof. solve_decision. Defined.

Record RespResult (V : Type) := mkRespResult {
  rr_status : RespStatus;
  rr_consumed : nat;
  rr_value : option V;          (* nullptr is [None] *)
  rr_error : string;            (* empty when there is none *)
}.
Arguments mkRespResult {V}.
Arguments rr_status {V}.
Arguments rr_consumed {V}.
Arguments rr_value {V}.
Arguments rr_error {V}.

Class RespLib := {
  PackArrayHeader : nat → string;
  PackBulkString : string → string;
  PackSimpleString : string → string;
  PackError : string → string;
  PackInteger : Z → string;
  PackNullBulkString : string;
  RespValue : Type;
  rv_is_array : RespValue → bool;      (* type == RespType::kArray *)
  rv_is_bulk : RespValue → bool;       (* type == RespType::kBulkString *)
  rv_text : RespValue → string;
  rv_elements : RespValue → list RespValue;
  UnpackOne : string → nat → RespLimits → RespResult RespValue;
}.

Definition wire_number (marker : ascii) (n : Z) : string :=
  String marker (to_string n +:+ crlf).

(** What an array of bulk strings looks like on the wire. *)
Definition pack_command `{RespLib} (args : list string) : string :=
  PackArrayHeader (length args) +:+
  foldr (λ arg out, PackBulkString arg +:+ out) "" args.

Class RespLaws (RL : RespLib) : Prop := {
  PackArrayHeader_wire n :
    PackArrayHeader n = wire_number "*"%char (Z.of_nat n);
  PackBulkString_wire s :
    PackBulkString s = wire_number "$"%char (size_of s) +:+ s +:+ crlf;
  UnpackOne_bulk s rest scratch limits :
    (1 <= scratch)%nat → size_of s <= max_bulk_bytes limits →
    ∃ v error,
      UnpackOne (PackBulkString s +:+ rest) scratch limits =
        mkRespResult RespOk (String.length (PackBulkString s)) (Some v) error ∧
      rv_is_bulk v = true ∧ rv_text v = s;
  UnpackOne_array args rest scratch limits :
    (length args < scratch)%nat → (1 <= max_depth limits)%nat →
    Z.of_nat (length args) <= max_array_elements limits →
    Forall (λ arg, size_of arg <= max_bulk_bytes limits) args →
    ∃ v error,
      UnpackOne (pack_command args +:+ rest) scratch limits =
        mkRespResult RespOk (String.length (pack_command args)) (Some v) error ∧
      rv_is_array v = true ∧ Forall (λ x, rv_is_bulk x = true) (rv_elements v) ∧
      rv_text <$> rv_elements v = args;
  (** A value takes at least one byte, and no more than there are. *)
  UnpackOne_consumes s scratch limits :
    rr_status (UnpackOne s scratch limits) = RespOk →
    (1 <= rr_consumed (UnpackOne s scratch limits) <= String.length s)%nat;
  (** An array takes its header and at least one byte for each element. *)
  UnpackOne_elements s scratch limits v :
    rr_status (UnpackOne s scratch limits) = RespOk →
    rr_value (UnpackOne s scratch limits) = Some v →
    (length (rv_elements v) < rr_consumed (UnpackOne s scratch limits))%nat;
  (** An encoding that has not arrived in full is not an error. *)
  UnpackOne_bulk_prefix s p q scratch limits :
    (1 <= scratch)%nat → size_of s <= max_bulk_bytes limits →
    p +:+ q = PackBulkString s → q ≠ "" →
    rr_status (UnpackOne p scratch limits) = RespNeedMore;
  UnpackOne_array_prefix args p q scratch limits :
    (length args < scratch)%nat → (1 <= max_depth limits)%nat →
    Z.of_nat (length args) <= max_array_elements limits →
    Forall (λ arg, size_of arg <= max_bulk_bytes limits) args →
    p +:+ q = pack_command args → q ≠ "" →
    rr_status (UnpackOne p scratch limits) = RespNeedMore;
}.

(** ** The codec *)

Module RespCodec.
Record t := mk {
  stream_ : string;
  limits_ : RespLimits;
  max_stream_bytes_ : Z;
  protocol_error_ : bool;
  protocol_error_text_ : string;
}.

Definition new (max_stream_bytes max_bulk_bytes max_array_elements : Z) : t :=
  mk "" (mkRespLimits 1 max_array_elements max_bulk_bytes) max_stream_bytes false "".

Definition fail (c : t) (text : string) : t :=
  mk (stream_ c) (limits_ c) (max_stream_bytes_ c) true text.

Definition with_stream (c : t) (stream : string) : t :=
  mk stream (limits_ c) (max_stream_bytes_ c) (protocol_error_ c) (protocol_error_text_ c).

Definition AppendBytes (c : t) (bytes : string) : bool * t :=
  if protocol_error_ c then (false, c)
  else if (size_of bytes >? max_stream_bytes_ c) ||
          (size_of (stream_ c) >? max_stream_bytes_ c - size_of bytes)
  then (false, fail c "RESP stream size limit exceeded")
  else (true, with_stream c (stream_ c +:+ bytes)).

Section codec.
Context {RL : RespLib}.

Definition ConvertCommand (value : RespValue) : option (list string) :=
  if negb (rv_is_array value) then None
  else if forallb rv_is_bulk (rv_elements value)
       then Some (rv_text <$> rv_elements value) else None.

(** The policy of the caller on the name and the number of arguments,
    asked once the name has arrived. *)
Inductive verdict := Accepted | WaitForName | Rejected.

Definition check_name (c : t) (accept : option (string → Z → bool)) (line_end : nat)
    (count : Z) : verdict :=
  match accept with
  | Some f =>
      if count >? 0 then
        let parsed := UnpackOne (str_drop (line_end + 2) (stream_ c)) 1 (limits_ c) in
        match rr_status parsed, rr_value parsed with
        | RespNeedMore, _ => WaitForName
        | RespOk, Some name =>
            if rv_is_bulk name && f (rv_text name) count then Accepted else Rejected
        | _, _ => Rejected
        end
      else Accepted
  | None => Accepted
  end.

(** The rest of [NextCommand], when the whole array may be there. *)
Definition unpack_command (c : t) (count : Z) : option (list string) * t :=
  let result := UnpackOne (stream_ c) (Z.to_nat count + 1) (limits_ c) in
  match rr_status result, rr_value result with
  | RespNeedMore, _ => (None, c)
  | RespOk, Some value =>
      match ConvertCommand value with
      | None => (None, fail c "expected RESP array of bulk strings")
      | Some args => (Some args, with_stream c (str_drop (rr_consumed result) (stream_ c)))
      end
  | _, _ =>
      (None, fail c (if decide (rr_error result = "") then "RESP protocol error"
                     else rr_error result))
  end.

Definition NextCommand (c : t) (accept : option (string → Z → bool))
    : option (list string) * t :=
  if protocol_error_ c then (None, c)
  else
    match stream_ c, find_crlf (stream_ c) with
    | EmptyString, _ | _, None => (None, c)
    | stream, Some line_end =>
        let invalid := (None, fail c "invalid command array length") in
        if negb (starts_with "*"%char stream) then invalid
        else
          match ParseInt64 (str_take (line_end - 1) (str_drop 1 stream)) with
          | None => invalid
          | Some count =>
              if (count <? 0) || (count >? max_array_elements (limits_ c)) then invalid
              else
                match check_name c accept line_end count with
                | WaitForName => (None, c)
                | Rejected => (None, fail c "command array length or name rejected")
                | Accepted =>
                    if count >? (size_of stream - Z.of_nat line_end - 2) / 6 then (None, c)
                    else unpack_command c count
                end
          end
    end.

Definition HasProtocolError (c : t) : bool := protocol_error_ c.
Definition ProtocolError (c : t) : string := protocol_error_text_ c.
Definition BufferedBytes (c : t) : Z := size_of (stream_ c).
End codec.
End RespCodec.

(** ** Replies *)

Section pack.
Context {RL : RespLib}.

Fixpoint PackResponse (response : Response) : string :=
  match response with
  | SimpleString text => PackSimpleString text
  | Error text => PackError text
  | Integer integer => PackInteger integer
  | BulkString text => PackBulkString text
  | NullBulk => PackNullBulkString
  | Array elements =>
      PackArrayHeader (length elements) +:+
      (fix pack_elements (l : list Response) : string :=
         match l with
         | [] => ""
         | element :: l' => PackResponse element +:+ pack_elements l'
         end) elements
  end.
End pack.

(** ** Theorems *)

Lemma str_take_app a b : str_take (String.length a) (a +:+ b) = a.
Proof. induction a as [|c a IH]; [done|]. str_simpl. by f_equal. Qed.

Lemma str_drop_app a b : str_drop (String.length a) (a +:+ b) = b.
Proof. induction a as [|c a IH]; [done|]. by str_simpl. Qed.

Lemma length_app_string a b : String.length (a +:+ b) = (String.length a + String.length b)%nat.
Proof. induction a as [|c a IH]; [done|]. str_simpl. by f_equal. Qed.

Lemma find_crlf_app a b :
  all_chars (λ c, negb (Ascii.eqb c cr)) a = true →
  find_crlf (a +:+ crlf +:+ b) = Some (String.length a).
Proof.
  induction a as [|c a IH]; intros Ha; [done|]. cbn in Ha. bool_prop.
  rewrite string_app_cons. cbn [find_crlf String.length].
  rewrite IH by done. destruct a as [|d a]; str_simpl.
  - by rewrite H.
  - by rewrite H.
Qed.

Lemma to_string_digits n : 0 <= n → all_chars is_digit (to_string n) = true.
Proof.
  intros Hn. unfold to_string. destruct (n <? 0) eqn:E; bool_prop; [lia|].
  by apply show_nonneg_digits.
Qed.

Lemma to_string_nonempty n : 0 <= n → (1 <= String.length (to_string n))%nat.
Proof.
  intros Hn. unfold to_string. destruct (n <? 0) eqn:E; bool_prop; [lia|].
  destruct (show_nonneg_starts n "" Hn) as (c & s & Hs & _).
  rewrite string_app_nil_r in Hs. rewrite Hs. cbn. lia.
Qed.

Lemma show_digits_length fuel n k :
  0 <= n < 10 ^ Z.of_nat (S k) → (String.length (show_digits fuel n) <= S k)%nat.
Proof.
  revert n k. induction fuel as [|fuel IH]; intros n k Hn; cbn [show_digits]; [cbn; lia|].
  destruct (n <? 10) eqn:E; bool_prop; [cbn; lia|]. rewrite length_app_string.
  cbn [String.length]. destruct k as [|k]; [cbn in Hn; lia|].
  enough (String.length (show_digits fuel (n / 10)) <= S k)%nat by lia. apply IH.
  rewrite Nat2Z.inj_succ, Z.pow_succ_r in Hn by lia. split; [apply Z.div_pos; lia|].
  apply Z.div_lt_upper_bound; lia.
Qed.

(** Twenty digits are enough for 64 bits. *)
Lemma to_string_size n : is_u64 n → size_of (to_string n) <= 20.
Proof.
  intros Hn. unfold to_string. destruct (n <? 0) eqn:E; bool_prop; [destruct Hn; lia|].
  unfold size_of, show_nonneg. enough (String.length (show_digits (Z.to_nat (Z.log2 n + 1)) n) <= 20)%nat by lia.
  apply show_digits_length. destruct Hn as [H0 H1]. split; [done|].
  apply (Z.le_lt_trans _ UINT64_MAX); [done|by vm_compute].
Qed.

(** A digit is not a carriage return, so the first line of a number is the
    number. *)
Lemma digits_no_cr s :
  all_chars is_digit s = true → all_chars (λ c, negb (Ascii.eqb c cr)) s = true.
Proof.
  apply all_chars_impl. intros c Hc%is_digit_spec. apply negb_true_iff.
  apply Ascii.eqb_neq. intros ->. change (uchar cr) with 13 in Hc. lia.
Qed.

Lemma wire_number_app marker n rest :
  wire_number marker n +:+ rest = String marker (to_string n) +:+ crlf +:+ rest.
Proof.
  unfold wire_number. rewrite !string_app_cons. by rewrite string_app_assoc.
Qed.

Lemma find_crlf_number marker n rest :
  marker ≠ cr → 0 <= n →
  find_crlf (wire_number marker n +:+ rest) = Some (S (String.length (to_string n))).
Proof.
  intros Hm Hn. rewrite wire_number_app.
  rewrite (find_crlf_app (String marker (to_string n))); [done|].
  cbn. rewrite digits_no_cr by (by apply to_string_digits).
  rewrite andb_true_r. by apply negb_true_iff, Ascii.eqb_neq.
Qed.

Lemma wire_number_length marker n :
  String.length (wire_number marker n) = (String.length (to_string n) + 3)%nat.
Proof.
  unfold wire_number. cbn [String.length]. rewrite length_app_string.
  change (String.length crlf) with 2%nat. lia.
Qed.

(** Two ways to cut one string. *)
Lemma string_app_split a b c d :
  a +:+ b = c +:+ d →
  (∃ k, a = c +:+ k ∧ d = k +:+ b) ∨ (∃ k, c = a +:+ k ∧ b = k +:+ d ∧ k ≠ "").
Proof.
  revert c. induction a as [|x a IH]; intros c; str_simpl.
  - intros ->. destruct c as [|y c].
    + left. by exists "".
    + right. by exists (String y c).
  - destruct c as [|y c]; str_simpl.
    + intros <-. left. by exists (String x a).
    + intros [= -> H]. destruct (IH c H) as [(k & -> & ->)|(k & -> & -> & Hk)].
      * left. by exists k.
      * right. by exists k.
Qed.

Lemma find_crlf_cut a p k :
  all_chars (λ c, negb (Ascii.eqb c cr)) a = true →
  p +:+ k = a +:+ crlf → k ≠ "" → find_crlf p = None.
Proof.
  revert a. induction p as [|c p IH]; intros a Ha Hpk Hk; [done|].
  destruct a as [|d a]; rewrite ?string_app_cons, ?string_app_nil_l in Hpk.
  - injection Hpk as -> Hpk. destruct p as [|e p]; [done|].
    rewrite string_app_cons in Hpk. injection Hpk as -> Hpk. by destruct p, k.
  - injection Hpk as -> Hpk. cbn in Ha. bool_prop. cbn [find_crlf].
    rewrite (IH a) by done. destruct p; [done|].
    change cr with "013"%char. by rewrite H.
Qed.

(** Of a prefix of a header line and a body, either the line is incomplete or
    it is there with a prefix of the body. *)
Lemma header_prefix marker n body p q :
  marker ≠ cr → 0 <= n → p +:+ q = wire_number marker n +:+ body →
  find_crlf p = None ∨ ∃ p', p = wire_number marker n +:+ p' ∧ p' +:+ q = body.
Proof.
  intros Hm Hn [(k & -> & ->)|(k & Hk & -> & Hne)]%string_app_split.
  - right. by exists k.
  - left. apply (find_crlf_cut (String marker (to_string n)) p k).
    + cbn. rewrite digits_no_cr by (by apply to_string_digits).
      rewrite andb_true_r. by apply negb_true_iff, Ascii.eqb_neq.
    + by rewrite <-Hk.
    + done.
Qed.

Section packed.
Context {RL : RespLib} {RW : RespLaws RL}.

(** The bulk strings of a command: at least six bytes each. *)
Definition pack_bulks (args : list string) : string :=
  foldr (λ arg out, PackBulkString arg +:+ out) "" args.

Lemma pack_command_unfold args :
  pack_command args = wire_number "*"%char (Z.of_nat (length args)) +:+ pack_bulks args.
Proof. unfold pack_command. by rewrite PackArrayHeader_wire. Qed.

Lemma PackBulkString_size s : 6 <= size_of (PackBulkString s).
Proof.
  rewrite PackBulkString_wire. unfold size_of at 1.
  rewrite !length_app_string, wire_number_length.
  pose proof (to_string_nonempty (size_of s) (size_of_nonneg s)).
  change (String.length crlf) with 2%nat. lia.
Qed.

Lemma pack_bulks_size args : 6 * Z.of_nat (length args) <= size_of (pack_bulks args).
Proof.
  induction args as [|arg args IH]; [done|]. cbn [pack_bulks foldr length].
  fold (pack_bulks args). rewrite size_of_app. pose proof (PackBulkString_size arg). lia.
Qed.

(** A length takes at most twenty digits. *)
Lemma PackBulkString_bound arg :
  size_of arg <= UINT64_MAX → size_of (PackBulkString arg) <= size_of arg + 25.
Proof.
  intros Ha. rewrite PackBulkString_wire, !size_of_app.
  pose proof (to_string_size (size_of arg)) as H.
  unfold size_of at 1. rewrite wire_number_length. unfold size_of at 2 in H.
  change (size_of crlf) with 2. specialize (H ltac:(split; [apply size_of_nonneg|done])). lia.
Qed.

Lemma pack_bulks_bound args :
  Forall (λ arg, size_of arg <= UINT64_MAX) args →
  size_of (pack_bulks args) <= sumZ size_of args + 25 * Z.of_nat (length args).
Proof.
  induction 1 as [|arg args Harg _ IH]; [done|]. unfold pack_bulks in *.
  unfold sumZ in *. cbn [foldr length]. rewrite size_of_app.
  pose proof (PackBulkString_bound arg Harg). lia.
Qed.

Lemma str_drop_line marker n rest :
  str_drop (S (String.length (to_string n)) + 2) (wire_number marker n +:+ rest) = rest.
Proof.
  replace (S (String.length (to_string n)) + 2)%nat
    with (String.length (wire_number marker n)) by (rewrite wire_number_length; lia).
  apply str_drop_app.
Qed.

(** What the caller's policy says of a command. *)
Definition accepts (accept : option (string → Z → bool)) (args : list string) : bool :=
  match accept, args with
  | Some f, name :: _ => f name (Z.of_nat (length args))
  | _, _ => true
  end.

(** The command fits the limits of the codec. *)
Definition within_limits (limits : RespLimits) (args : list string) : Prop :=
  (1 <= max_depth limits)%nat ∧
  Z.of_nat (length args) <= max_array_elements limits ∧
  Z.of_nat (length args) <= INT64_MAX ∧
  Forall (λ arg, size_of arg <= max_bulk_bytes limits) args.

Import RespCodec.

Lemma check_name_packed c accept args rest :
  stream_ c = pack_command args +:+ rest → within_limits (limits_ c) args →
  check_name c accept (S (String.length (to_string (Z.of_nat (length args)))))
    (Z.of_nat (length args)) = if accepts accept args then Accepted else Rejected.
Proof.
  intros Hs (_ & _ & _ & Hb). unfold check_name, accepts.
  destruct accept as [f|]; [|done]. destruct args as [|name args]; [done|].
  destruct (_ >? 0) eqn:E; bool_prop; [|cbn in E; lia].
  rewrite Hs, pack_command_unfold, string_app_assoc, str_drop_line.
  unfold pack_bulks. cbn [foldr]. rewrite string_app_assoc.
  apply Forall_cons in Hb as [Hb _].
  destruct (UnpackOne_bulk name (pack_bulks args +:+ rest) 1 (limits_ c)) as (v & e & Hu & Hv & Ht);
    [lia|done|]. unfold pack_bulks in Hu. rewrite Hu. cbn. by rewrite Hv, Ht.
Qed.

Lemma unpack_command_packed c args rest :
  stream_ c = pack_command args +:+ rest → within_limits (limits_ c) args →
  unpack_command c (Z.of_nat (length args)) = (Some args, with_stream c rest).
Proof.
  intros Hs (Hd & Hn & _ & Hb). unfold unpack_command. rewrite Hs.
  destruct (UnpackOne_array args rest (Z.to_nat (Z.of_nat (length args)) + 1) (limits_ c))
    as (v & e & Hu & Ha & Hall & Hargs); [lia|done|done|done|].
  rewrite Hu. cbn. unfold ConvertCommand. rewrite Ha. cbn.
  assert (forallb rv_is_bulk (rv_elements v) = true) as ->.
  { apply Is_true_true, forallb_True. eapply Forall_impl; [exact Hall|].
    intros x Hx. by rewrite Hx. }
  by rewrite Hargs, str_drop_app.
Qed.

(** While the first bulk string is on its way the name is waited for; once
    it is there the policy decides. *)
Lemma check_name_partial c accept args p q :
  stream_ c = wire_number "*"%char (Z.of_nat (length args)) +:+ p →
  p +:+ q = pack_bulks args → within_limits (limits_ c) args →
  let v := check_name c accept (S (String.length (to_string (Z.of_nat (length args)))))
             (Z.of_nat (length args)) in
  v = WaitForName ∨ v = if accepts accept args then Accepted else Rejected.
Proof.
  intros Hs Hpq (_ & _ & _ & Hb). unfold check_name, accepts.
  destruct accept as [f|]; [|by right]. destruct args as [|name args]; [by right|].
  destruct (_ >? 0) eqn:E; bool_prop; [|cbn in E; lia].
  rewrite Hs, str_drop_line. apply Forall_cons in Hb as [Hb _].
  unfold pack_bulks in Hpq. cbn [foldr] in Hpq.
  apply string_app_split in Hpq as [(k & -> & _)|(k & Hk & _ & Hne)].
  - right. destruct (UnpackOne_bulk name k 1 (limits_ c)) as (v & e & Hu & Hv & Ht);
      [lia|done|]. rewrite Hu. cbn. by rewrite Hv, Ht.
  - left. by rewrite (UnpackOne_bulk_prefix name p k) by (done || lia).
Qed.

(** A command at the head of the stream is taken off it, whole and alone;
    what follows stays. *)
Lemma NextCommand_packed c accept args rest :
  protocol_error_ c = false → stream_ c = pack_command args +:+ rest →
  within_limits (limits_ c) args →
  NextCommand c accept =
  if accepts accept args then (Some args, with_stream c rest)
  else (None, fail c "command array length or name rejected").
Proof.
  intros He Hs Hl. pose proof Hl as (_ & Hn & Hi & _).
  assert (stream_ c = wire_number "*"%char (Z.of_nat (length args)) +:+
            (pack_bulks args +:+ rest)) as Hs'.
  { by rewrite Hs, pack_command_unfold, string_app_assoc. }
  unfold NextCommand. rewrite He.
  assert (find_crlf (stream_ c) = Some (S (String.length (to_string (Z.of_nat (length args))))))
    as Hcr by (rewrite Hs'; apply find_crlf_number; [done|lia]).
  rewrite Hcr. destruct (stream_ c) as [|ch s] eqn:Hst; [by rewrite wire_number_app in Hs'|].
  rewrite Hs' at 1. rewrite wire_number_app at 1. cbn [starts_with negb].
  rewrite (Hs' : String ch s = _). rewrite wire_number_app.
  rewrite string_app_cons. cbn [str_drop].
  match goal with |- context [negb ?b] => change (negb b) with false end. cbv beta iota.
  replace (S _ - 1)%nat with (String.length (to_string (Z.of_nat (length args)))) by lia.
  rewrite str_take_app, ParseInt64_to_string
    by (unfold is_i64, INT64_MIN, INT64_MAX in *; lia).
  replace (_ || _) with false
    by (symmetry; apply orb_false_iff; split; [apply Z.ltb_ge|rewrite Z.gtb_ltb; apply Z.ltb_ge]; lia).
  rewrite <-Hst in Hs.
  rewrite (check_name_packed _ _ args rest) by done.
  destruct (accepts accept args); [|done].
  rewrite <-string_app_cons, <-wire_number_app.
  destruct (_ >? _) eqn:E; bool_prop.
  - exfalso. rewrite !size_of_app in E. pose proof (pack_bulks_size args).
    pose proof (size_of_nonneg rest). unfold size_of at 1 in E.
    rewrite wire_number_length in E.
    pose proof (Z.div_le_lower_bound
      (Z.of_nat (String.length (to_string (Z.of_nat (length args))) + 3) +
         (size_of (pack_bulks args) + size_of rest) -
         Z.of_nat (S (String.length (to_string (Z.of_nat (length args))))) - 2)
      6 (Z.of_nat (length args))). lia.
  - by apply unpack_command_packed.
Qed.

(** A command that has not arrived in full is left in the stream: the codec
    waits, or rejects the command by its name. *)
Lemma NextCommand_partial c accept args q :
  protocol_error_ c = false → stream_ c +:+ q = pack_command args → q ≠ "" →
  within_limits (limits_ c) args →
  NextCommand c accept = (None, c) ∨
  accepts accept args = false ∧
  NextCommand c accept = (None, fail c "command array length or name rejected").
Proof.
  intros He Hs Hq Hl. pose proof Hl as (Hd & Hn & Hi & Hb).
  pose proof Hs as Hs'. rewrite pack_command_unfold in Hs'.
  unfold NextCommand. rewrite He.
  apply header_prefix in Hs' as [E|(p' & Hp & Hbody)];
    [left; rewrite E; by destruct (stream_ c)| |done|lia].
  assert (find_crlf (stream_ c) = Some (S (String.length (to_string (Z.of_nat (length args))))))
    as Hcr by (rewrite Hp; apply find_crlf_number; [done|lia]).
  rewrite Hcr. destruct (stream_ c) as [|ch s] eqn:Hst; [by rewrite wire_number_app in Hp|].
  rewrite Hp, wire_number_app, string_app_cons. cbn [str_drop].
  match goal with |- context [negb ?b] => change (negb b) with false end. cbv beta iota.
  replace (S _ - 1)%nat with (String.length (to_string (Z.of_nat (length args)))) by lia.
  rewrite str_take_app, ParseInt64_to_string
    by (unfold is_i64, INT64_MIN, INT64_MAX in *; lia).
  replace (_ || _) with false
    by (symmetry; apply orb_false_iff; split; [apply Z.ltb_ge|rewrite Z.gtb_ltb; apply Z.ltb_ge]; lia).
  destruct (check_name_partial c accept args p' q) as [->| ->];
    [by rewrite Hst, Hp|done|done|by left|].
  destruct (accepts accept args); [|by right].
  left. destruct (_ >? _); [done|]. unfold unpack_command.
  rewrite (UnpackOne_array_prefix args (stream_ c) q) by (done || lia || by rewrite Hst).
  done.
Qed.
Lemma pack_bulks_arg_size args arg : arg ∈ args → size_of arg <= size_of (pack_bulks args).
Proof.
  induction 1 as [arg args|arg other args _ IH]; cbn [pack_bulks foldr];
    rewrite size_of_app; fold (pack_bulks args).
  - rewrite PackBulkString_wire, !size_of_app.
    pose proof (size_of_nonneg (wire_number "$"%char (size_of arg))).
    pose proof (size_of_nonneg crlf). pose proof (size_of_nonneg (pack_bulks args)). lia.
  - pose proof (size_of_nonneg (PackBulkString other)). lia.
Qed.

(** More elements than the limit: the command is refused by its first line. *)
Lemma NextCommand_too_many c accept args rest :
  protocol_error_ c = false → is_i64 (Z.of_nat (length args)) →
  max_array_elements (limits_ c) < Z.of_nat (length args) →
  NextCommand (with_stream c (pack_command args +:+ rest)) accept =
    (None, fail (with_stream c (pack_command args +:+ rest)) "invalid command array length").
Proof.
  intros He Hi Hn. set (c' := with_stream c _).
  assert (protocol_error_ c' = false) as He' by exact He.
  assert (stream_ c' = wire_number "*"%char (Z.of_nat (length args)) +:+ (pack_bulks args +:+ rest))
    as Hs by (cbn; by rewrite pack_command_unfold, string_app_assoc).
  assert (limits_ c' = limits_ c) as Hlim by done.
  unfold NextCommand. rewrite He', Hs, Hlim. rewrite find_crlf_number by (done || lia).
  rewrite wire_number_app, string_app_cons. cbn [str_drop].
  match goal with |- context [negb ?b] => change (negb b) with false end. cbv beta iota.
  replace (S _ - 1)%nat with (String.length (to_string (Z.of_nat (length args)))) by lia.
  rewrite str_take_app, ParseInt64_to_string by done.
  rewrite (Z.gtb_ltb (Z.of_nat _)), (proj2 (Z.ltb_lt (max_array_elements _) _)) by done.
  by rewrite orb_true_r.
Qed.

(** A command packed by one end fits the limits a decoder derives from its
    length. *)
Lemma packed_within_limits args max_elements :
  Z.of_nat (length args) <= max_elements → max_elements <= INT64_MAX →
  within_limits (mkRespLimits 1 max_elements (size_of (pack_command args))) args.
Proof.
  intros Hn Hm. repeat split; cbn [max_depth max_array_elements max_bulk_bytes]; [lia|lia|lia|].
  apply Forall_forall. intros arg Ha. apply pack_bulks_arg_size in Ha.
  rewrite pack_command_unfold, size_of_app.
  pose proof (size_of_nonneg (wire_number "*"%char (Z.of_nat (length args)))). lia.
Qed.

(** The header's element count never exceeds what the bytes can hold. *)
Lemma packed_count_bound args :
  Z.of_nat (length args) <=
  (size_of (pack_command args) - Z.of_nat (S (String.length (to_string (Z.of_nat (length args))))) - 2) / 6.
Proof.
  rewrite pack_command_unfold, size_of_app. pose proof (pack_bulks_size args).
  unfold size_of at 1. rewrite wire_number_length. apply Z.div_le_lower_bound; lia.
Qed.

Lemma forallb_bulk v :
  Forall (λ x, rv_is_bulk x = true) (rv_elements v) → forallb rv_is_bulk (rv_elements v) = true.
Proof.
  intros Hall. apply Is_true_true, forallb_True. eapply Forall_impl; [exact Hall|].
  intros x Hx. by rewrite Hx.
Qed.

(** A command taken off the stream makes it shorter; otherwise the stream
    stays as it is. *)
Lemma str_drop_length n s : String.length (str_drop n s) = (String.length s - n)%nat.
Proof. revert s. induction n as [|n IH]; intros [|c s]; cbn; [done..|]. apply IH. Qed.

(** A command takes more bytes off the stream than it has arguments. *)
Lemma NextCommand_stream c accept :
  match NextCommand c accept with
  | (Some args, c') =>
      (length args + String.length (stream_ c') < String.length (stream_ c))%nat ∧
      protocol_error_ c' = false
  | (None, c') => stream_ c' = stream_ c
  end.
Proof.
  assert (protocol_error_ c = false → ∀ count, match unpack_command c count with
    | (Some args, c') =>
        (length args + String.length (stream_ c') < String.length (stream_ c))%nat ∧
        protocol_error_ c' = false
    | (None, c') => stream_ c' = stream_ c end) as Hu.
  { intros Hp count. unfold unpack_command.
    pose proof (UnpackOne_consumes (stream_ c) (Z.to_nat count + 1) (limits_ c)) as Hc.
    pose proof (UnpackOne_elements (stream_ c) (Z.to_nat count + 1) (limits_ c)) as He.
    destruct (UnpackOne _ _ _) as [[] consumed [value|] error]; cbn in *; try done.
    specialize (He _ eq_refl eq_refl). unfold ConvertCommand.
    destruct (negb (rv_is_array value)); [done|]. destruct (forallb _ _); [|done].
    cbn. rewrite str_drop_length, length_fmap. destruct (Hc eq_refl). split; [lia|done]. }
  unfold NextCommand. destruct (protocol_error_ c) eqn:Ep; [done|].
  destruct (find_crlf (stream_ c)) as [line_end|]; [|by destruct (stream_ c) eqn:Est].
  destruct (stream_ c) as [|ch s] eqn:Est; [done|].
  destruct (negb _); [cbn; congruence|].
  destruct (ParseInt64 _) as [count|]; [|cbn; congruence].
  destruct (_ || _); [cbn; congruence|].
  destruct (check_name _ _ _ _); [|done|cbn; congruence].
  destruct (_ >? _); [done|]. by apply Hu.
Qed.

(** The stream of a codec stays within its limit. *)
Definition within_stream (c : t) : Prop := size_of (stream_ c) <= max_stream_bytes_ c.

Lemma NextCommand_limit c accept : max_stream_bytes_ (NextCommand c accept).2 = max_stream_bytes_ c.
Proof. unfold NextCommand, unpack_command. by repeat case_match. Qed.

Lemma NextCommand_within c accept : within_stream c → within_stream (NextCommand c accept).2.
Proof.
  unfold within_stream. intros Hc. rewrite NextCommand_limit. pose proof (NextCommand_stream c accept) as H.
  destruct (NextCommand c accept) as [[args|] c']; cbn in *; [|by rewrite H].
  unfold size_of in *. lia.
Qed.

Lemma AppendBytes_within c bytes :
  within_stream c →
  within_stream (AppendBytes c bytes).2 ∧ max_stream_bytes_ (AppendBytes c bytes).2 = max_stream_bytes_ c.
Proof.
  unfold within_stream, AppendBytes. intros Hc. destruct (protocol_error_ c); [done|].
  destruct (_ || _) eqn:E; [done|]. split; [|done]. bool_prop. cbn.
  unfold size_of in *. rewrite length_app_string. lia.
Qed.
End packed.
