(* ===== verification/RespInstance.v ===== *)
(** * A RESP library

    A parser and packers that satisfy [RespLaws], so that theorems about code
    over the RESP library can be applied to concrete bytes. *)

From S2P Require Import Prelude Text Resp.

Inductive simple_value :=
  | BulkValue (text : string)
  | ArrayValue (elements : list string).

Inductive parse (A : Type) := PDone (value : A) (rest : string) | PMore | PError.
Arguments PDone {A}.
Arguments PMore {A}.
Arguments PError {A}.

(** An unsigned decimal number. *)
Definition parse_number (text : string) : option Z :=
  if starts_with_digit text then
    match scan_digits text 0 with (value, EmptyString) => Some value | _ => None end
  else None.

(** A header line: the marker and the number it announces. *)
Definition parse_line (marker : ascii) (limit : Z) (s : string) : parse Z :=
  if decide (s = "") then PMore
  else if negb (starts_with marker s) then PError
  else match find_crlf s with
       | None => PMore
       | Some line_end =>
           match parse_number (str_take (line_end - 1) (str_drop 1 s)) with
           | Some n => if n <=? limit then PDone n (str_drop (line_end + 2) s) else PError
           | None => PError
           end
       end.

Definition parse_bulk (limits : RespLimits) (s : string) : parse string :=
  match parse_line "$"%char (max_bulk_bytes limits) s with
  | PDone n body =>
      if size_of body <? n + 2 then PMore
      else
        let tail := str_drop (Z.to_nat n) body in
        if decide (str_take 2 tail = crlf)
        then PDone (str_take (Z.to_nat n) body) (str_drop 2 tail) else PError
  | PMore => PMore
  | PError => PError
  end.

Fixpoint parse_bulks (limits : RespLimits) (n : nat) (s : string) : parse (list string) :=
  match n with
  | O => PDone [] s
  | S n' =>
      match parse_bulk limits s with
      | PDone text rest =>
          match parse_bulks limits n' rest with
          | PDone texts rest' => PDone (text :: texts) rest'
          | PMore => PMore
          | PError => PError
          end
      | PMore => PMore
      | PError => PError
      end
  end.

Definition parse_value (limits : RespLimits) (scratch : nat) (s : string) : parse simple_value :=
  if starts_with "*"%char s then
    match parse_line "*"%char (Z.min (max_array_elements limits) (Z.of_nat scratch - 1)) s with
    | PDone n body =>
        if (max_depth limits =? 0)%nat then PError
        else match parse_bulks limits (Z.to_nat n) body with
             | PDone texts rest => PDone (ArrayValue texts) rest
             | PMore => PMore
             | PError => PError
             end
    | PMore => PMore
    | PError => PError
    end
  else match parse_bulk limits s with
       | PDone text rest => PDone (BulkValue text) rest
       | PMore => PMore
       | PError => PError
       end.

Definition simple_unpack (s : string) (scratch : nat) (limits : RespLimits)
    : RespResult simple_value :=
  match parse_value limits scratch s with
  | PDone v rest => mkRespResult RespOk (String.length s - String.length rest) (Some v) ""
  | PMore => mkRespResult RespNeedMore 0 None ""
  | PError => mkRespResult RespError 0 None "protocol error"
  end.

#[export] Instance simple_resp : RespLib := {|
  PackArrayHeader n := wire_number "*"%char (Z.of_nat n);
  PackBulkString s := wire_number "$"%char (size_of s) +:+ s +:+ crlf;
  PackSimpleString s := String "+"%char (s +:+ crlf);
  PackError s := String "-"%char (s +:+ crlf);
  PackInteger z := String ":"%char (to_string z +:+ crlf);
  PackNullBulkString := "$-1" +:+ crlf;
  RespValue := simple_value;
  rv_is_array v := match v with ArrayValue _ => true | _ => false end;
  rv_is_bulk v := match v with BulkValue _ => true | _ => false end;
  rv_text v := match v with BulkValue s => s | _ => "" end;
  rv_elements v := match v with ArrayValue l => BulkValue <$> l | _ => [] end;
  UnpackOne := simple_unpack;
|}.

Lemma parse_number_to_string n : 0 <= n → parse_number (to_string n) = Some n.
Proof.
  intros Hn. unfold to_string. destruct (n <? 0) eqn:E; bool_prop; [lia|].
  unfold parse_number. rewrite scan_show_end by done.
  destruct (show_nonneg_starts n "") as (c & s & Hs & Hc); [lia|].
  rewrite string_app_nil_r in Hs. rewrite Hs. cbn. by rewrite Hc.
Qed.

Lemma parse_line_wire marker limit n rest :
  marker ≠ cr → 0 <= n → n <= limit →
  parse_line marker limit (wire_number marker n +:+ rest) = PDone n rest.
Proof.
  intros Hm Hu Hl. unfold parse_line.
  rewrite decide_False by (by rewrite wire_number_app).
  rewrite find_crlf_number by done.
  rewrite str_drop_line. rewrite wire_number_app, string_app_cons. cbn [starts_with str_drop].
  rewrite Ascii.eqb_refl. cbn [negb].
  replace (S _ - 1)%nat with (String.length (to_string n)) by lia.
  rewrite str_take_app, parse_number_to_string by done.
  by rewrite (proj2 (Z.leb_le _ _)).
Qed.

Lemma parse_line_prefix marker limit n body p q :
  marker ≠ cr → 0 <= n → n <= limit → p +:+ q = wire_number marker n +:+ body →
  parse_line marker limit p = PMore ∨
  ∃ p', parse_line marker limit p = PDone n p' ∧ p' +:+ q = body.
Proof.
  intros Hm Hu Hl Hpq. pose proof Hpq as Hpq'.
  apply header_prefix in Hpq as [E|(p' & -> & Hb)]; [left|right|done|done].
  - unfold parse_line. rewrite E. case_decide as Hp; [done|].
    destruct p as [|c p]; [done|]. rewrite wire_number_app, !string_app_cons in Hpq'.
    injection Hpq' as -> _. cbn [starts_with]. by rewrite Ascii.eqb_refl.
  - exists p'. by rewrite parse_line_wire.
Qed.

Lemma parse_bulk_wire limits s rest :
  size_of s <= max_bulk_bytes limits →
  parse_bulk limits (PackBulkString s +:+ rest) = PDone s rest.
Proof.
  intros Hs. cbn [PackBulkString simple_resp]. unfold parse_bulk.
  pose proof (size_of_nonneg s).
  rewrite string_app_assoc, parse_line_wire by (done || lia).
  rewrite string_app_assoc, !size_of_app. change (size_of crlf) with 2.
  pose proof (size_of_nonneg rest).
  destruct (_ <? _) eqn:E; bool_prop; [lia|].
  replace (Z.to_nat (size_of s)) with (String.length s) by (unfold size_of; lia).
  rewrite str_drop_app, str_take_app.
  change (str_take 2 (crlf +:+ rest)) with (str_take (String.length crlf) (crlf +:+ rest)).
  rewrite str_take_app, decide_True by done.
  by change 2%nat with (String.length crlf); rewrite str_drop_app.
Qed.

Lemma parse_bulk_prefix limits s p q :
  size_of s <= max_bulk_bytes limits →
  p +:+ q = PackBulkString s → q ≠ "" → parse_bulk limits p = PMore.
Proof.
  intros Hs Hpq Hq. cbn [PackBulkString simple_resp] in Hpq. unfold parse_bulk.
  pose proof (size_of_nonneg s).
  destruct (parse_line_prefix "$"%char (max_bulk_bytes limits) (size_of s) (s +:+ crlf) p q)
    as [->|(p' & -> & Hb)]; try done.
  assert (size_of (p' +:+ q) = size_of s + 2) as Hsz.
  { by rewrite Hb, size_of_app. }
  rewrite size_of_app in Hsz. assert (0 < size_of q).
  { destruct q; [done|]. unfold size_of. cbn. lia. }
  by rewrite (proj2 (Z.ltb_lt _ _)) by lia.
Qed.

Lemma parse_bulks_wire limits args rest :
  Forall (λ arg, size_of arg <= max_bulk_bytes limits) args →
  parse_bulks limits (length args) (pack_bulks args +:+ rest) = PDone args rest.
Proof.
  induction args as [|arg args IH]; intros Hf; [done|].
  apply Forall_cons in Hf as [Ha Hf]. cbn [pack_bulks foldr parse_bulks length].
  fold (pack_bulks args). rewrite string_app_assoc, parse_bulk_wire by done.
  by rewrite IH.
Qed.

Lemma parse_bulks_prefix limits args p q :
  Forall (λ arg, size_of arg <= max_bulk_bytes limits) args →
  p +:+ q = pack_bulks args → q ≠ "" → parse_bulks limits (length args) p = PMore.
Proof.
  revert p. induction args as [|arg args IH]; intros p Hf Hpq Hq.
  { by destruct p, q. }
  apply Forall_cons in Hf as [Ha Hf]. cbn [pack_bulks foldr] in Hpq. cbn [parse_bulks length].
  apply string_app_split in Hpq as [(k & -> & Hk)|(k & Hk & _ & Hne)].
  - rewrite parse_bulk_wire by done. by rewrite IH.
  - by rewrite (parse_bulk_prefix _ arg p k).
Qed.

(** What is left is shorter. *)
Lemma parse_line_rest marker limit s n rest :
  parse_line marker limit s = PDone n rest → (String.length rest < String.length s)%nat.
Proof.
  unfold parse_line. case_decide as Hs; [done|]. destruct (negb _); [done|].
  destruct (find_crlf s) as [le|]; [|done]. destruct (parse_number _) as [m|]; [|done].
  destruct (_ <=? _); [|done]. intros [= _ <-]. rewrite str_drop_length.
  destruct s; [done|]. cbn. lia.
Qed.

Lemma parse_bulk_rest limits s v rest :
  parse_bulk limits s = PDone v rest → (String.length rest < String.length s)%nat.
Proof.
  unfold parse_bulk. destruct (parse_line _ _ s) as [n body| |] eqn:E; try done.
  apply parse_line_rest in E. destruct (_ <? _); [done|]. case_decide; [|done]. intros Hr.
  assert (rest = str_drop 2 (str_drop (Z.to_nat n) body)) as -> by congruence.
  rewrite !str_drop_length. lia.
Qed.

Lemma parse_bulks_rest limits n s v rest :
  parse_bulks limits n s = PDone v rest → (length v + String.length rest <= String.length s)%nat.
Proof.
  revert s v rest. induction n as [|n IH]; intros s v rest; cbn; [by intros [= <- <-]|].
  destruct (parse_bulk limits s) as [t r| |] eqn:E; try done. apply parse_bulk_rest in E.
  destruct (parse_bulks limits n r) as [ts r'| |] eqn:E2; try done. apply IH in E2.
  intros [= <- <-]. cbn. lia.
Qed.

Lemma parse_value_rest limits scratch s v rest :
  parse_value limits scratch s = PDone v rest →
  (length (rv_elements v) + String.length rest < String.length s)%nat.
Proof.
  unfold parse_value. destruct (starts_with _ s).
  - destruct (parse_line _ _ s) as [n body| |] eqn:E; try done. apply parse_line_rest in E.
    destruct (_ =? _)%nat; [done|].
    destruct (parse_bulks _ _ body) as [ts r| |] eqn:E2; try done. apply parse_bulks_rest in E2.
    intros [= <- <-]. cbn. rewrite length_fmap. lia.
  - destruct (parse_bulk limits s) as [t r| |] eqn:E; try done. apply parse_bulk_rest in E.
    by intros [= <- <-].
Qed.

Lemma simple_pack_command args :
  pack_command args = wire_number "*"%char (Z.of_nat (length args)) +:+ pack_bulks args.
Proof. done. Qed.

#[export] Instance simple_resp_laws : RespLaws simple_resp.
Proof.
  split.
  - done.
  - done.
  - intros s rest scratch limits _ Hs. exists (BulkValue s), "".
    cbn [UnpackOne simple_resp]. unfold simple_unpack, parse_value.
    cbn [PackBulkString simple_resp].
    change (starts_with "*"%char ((wire_number "$"%char (size_of s) +:+ s +:+ crlf) +:+ rest))
      with false. cbv beta iota.
    change (wire_number "$"%char (size_of s) +:+ s +:+ crlf) with (PackBulkString s).
    rewrite parse_bulk_wire by done. split; [|done]. f_equal.
    rewrite length_app_string. lia.
  - intros args rest scratch limits Hs Hd Hn Hf. exists (ArrayValue args), "".
    cbn [UnpackOne simple_resp]. unfold simple_unpack, parse_value.
    rewrite simple_pack_command, string_app_assoc.
    replace (starts_with _ _) with true by done.
    rewrite parse_line_wire by (done || lia). rewrite Nat2Z.id.
    rewrite (proj2 (Nat.eqb_neq _ _)) by lia. rewrite parse_bulks_wire by done.
    split; [|split; [done|split]].
    + f_equal. rewrite !length_app_string. lia.
    + cbn. apply Forall_fmap, Forall_true. done.
    + cbn. rewrite <-list_fmap_compose. apply list_fmap_id.
  - intros s scratch limits. cbn [UnpackOne simple_resp]. unfold simple_unpack.
    destruct (parse_value limits scratch s) as [v rest| |] eqn:E; try done.
    apply parse_value_rest in E. cbn. lia.
  - intros s scratch limits v. cbn [UnpackOne simple_resp]. unfold simple_unpack.
    destruct (parse_value limits scratch s) as [v' rest| |] eqn:E; try done.
    apply parse_value_rest in E. cbn [rr_status rr_value rr_consumed]. intros _ [= <-]. lia.
  - intros s p q scratch limits _ Hs Hpq Hq.
    cbn [UnpackOne simple_resp]. unfold simple_unpack, parse_value.
    replace (starts_with _ _) with false.
    { by rewrite (parse_bulk_prefix limits s p q). }
    destruct p as [|c p]; [done|]. cbn [PackBulkString simple_resp] in Hpq.
    unfold wire_number in Hpq. rewrite !string_app_cons in Hpq. by injection Hpq as -> _.
  - intros args p q scratch limits Hs Hd Hn Hf Hpq Hq.
    cbn [UnpackOne simple_resp]. unfold simple_unpack, parse_value.
    rewrite simple_pack_command in Hpq.
    destruct (decide (p = "")) as [->|Hp]; [done|].
    replace (starts_with _ _) with true.
    2:{ destruct p as [|c p]; [done|]. unfold wire_number in Hpq.
        rewrite !string_app_cons in Hpq. by injection Hpq as -> _. }
    destruct (parse_line_prefix "*"%char
      (Z.min (max_array_elements limits) (Z.of_nat scratch - 1)) (Z.of_nat (length args))
      (pack_bulks args) p q) as [->|(p' & -> & Hb)]; try done; [lia|lia|].
    rewrite Nat2Z.id. rewrite (proj2 (Nat.eqb_neq _ _)) by lia.
    by rewrite (parse_bulks_prefix limits args p' q).
Qed.
