(* ===== verification/ReplFrame.v ===== *)
(** * Replication frames: src/repl/repl_frame

    The messages between a primary and a replica, their encoding as RESP
    arrays of bulk strings, and the round trip between the two, on argument
    lists and on the wire. A slot number on the wire is any 64-bit number; it
    is a [Z] here and becomes an index where the replicators check it against
    their slot count. *)

From S2P Require Import Prelude Text Binlog Response Resp.

Definition kProtocolVersion : Z := 2.

Inductive Subcmd := kHello | kSnapshot | kLog | kBegin | kDone.
#[export] Instance Subcmd_eq_dec : EqDecision Subcmd.
Proof. solve_decision. Defined.

Record Frame := mkFrame {
  fr_subcmd : Subcmd;
  fr_replica_id : string;
  fr_session_id : string;
  fr_proto_version : Z;
  fr_reset : bool;
  fr_slot_id : Z;
  fr_base_seq : Z;
  fr_snapshot_payload : string;
  fr_record : BinlogRecord;
  fr_slot_positions : list (Z * Z);
}.

#[export] Instance Frame_eq_dec : EqDecision Frame.
Proof. solve_decision. Defined.

Definition no_record : BinlogRecord := mkBinlogRecord 0 [] 0 0.

(** ** [Frame::Hello] and the other makers *)

Definition Frame_Hello (replica_id : string) (proto_version : Z)
    (previous_session_id : string) (slots : list (Z * Z)) : Frame :=
  mkFrame kHello replica_id previous_session_id proto_version false 0 0 "" no_record slots.

Definition Frame_Snapshot (session : string) (slot seq : Z) (payload : string) : Frame :=
  mkFrame kSnapshot "" session kProtocolVersion false slot seq payload no_record [].

Definition Frame_Log (session : string) (slot : Z) (record : BinlogRecord) : Frame :=
  mkFrame kLog "" session kProtocolVersion false slot 0 "" record [].

Definition Frame_Begin (session : string) (reset : bool) : Frame :=
  mkFrame kBegin "" session kProtocolVersion reset 0 0 "" no_record [].

Definition Frame_Done (session : string) (slots : list (Z * Z)) : Frame :=
  mkFrame kDone "" session kProtocolVersion false 0 0 "" no_record slots.

(** ** Encoding *)

Definition number_of_nat (n : nat) : string := to_string (Z.of_nat n).

(** The [positions] lambda of [EncodeFrame]: a count, then the pairs. *)
Definition encode_pairs (slots : list (Z * Z)) : list string :=
  mbind (λ '(slot, seq), [to_string slot; to_string seq]) slots.
Definition encode_positions (slots : list (Z * Z)) : list string :=
  number_of_nat (length slots) :: encode_pairs slots.

Definition frame_args (f : Frame) : list string :=
  "CACHE.REPL" ::
  match fr_subcmd f with
  | kHello =>
      ["HELLO"; fr_replica_id f; to_string (fr_proto_version f); fr_session_id f] ++
      encode_positions (fr_slot_positions f)
  | kSnapshot =>
      ["SNAPSHOT"; fr_session_id f; to_string (fr_slot_id f); to_string (fr_base_seq f);
       fr_snapshot_payload f]
  | kLog =>
      ["LOG"; fr_session_id f; to_string (fr_slot_id f); to_string (rec_seq (fr_record f));
       to_string (rec_written_at_us (fr_record f)); to_string (rec_deadline_us (fr_record f));
       number_of_nat (length (rec_args (fr_record f)))] ++ rec_args (fr_record f)
  | kBegin => ["BEGIN"; fr_session_id f; if fr_reset f then "1" else "0"]
  | kDone => ["DONE"; fr_session_id f] ++ encode_positions (fr_slot_positions f)
  end.

Definition EncodeFrame `{RespLib} (f : Frame) : string := pack_command (frame_args f).

(** ** Decoding *)

(** The loop of [Positions] over the arguments after the count. *)
Fixpoint decode_pairs (args : list string) : option (list (Z * Z)) :=
  match args with
  | [] => Some []
  | slot_text :: seq_text :: args' =>
      slot ← ParseU64 slot_text;
      seq ← ParseU64 seq_text;
      rest ← decode_pairs args';
      Some ((slot, seq) :: rest)
  | [_] => None
  end.

Definition Positions (args : list string) (start : nat) : option (list (Z * Z)) :=
  if (length args <=? start)%nat then None
  else
    let pairs := drop (start + 1) args in
    count ← ParseU64 (nth start args "");
    if negb (Z.of_nat (length pairs) mod 2 =? 0) ||
       negb (count =? Z.of_nat (length pairs) / 2) then None
    else decode_pairs pairs.

(** [DecodeFrame(const std::vector<std::string>& args)]. *)
Definition DecodeFrame_args (args : list string) : option Frame :=
  let a i := nth i args "" in
  if (length args <? 3)%nat || negb (String.eqb (a 0%nat) "CACHE.REPL") then None
  else if String.eqb (a 1%nat) "HELLO" then
    if (length args <? 6)%nat then None
    else
      version ← ParseU64 (a 3%nat);
      if negb (version =? kProtocolVersion) then None
      else
        slots ← Positions args 5;
        Some (Frame_Hello (a 2%nat) version (a 4%nat) slots)
  else if String.eqb (a 1%nat) "SNAPSHOT" then
    if negb (length args =? 6)%nat then None
    else
      slot ← ParseU64 (a 3%nat);
      base_seq ← ParseU64 (a 4%nat);
      Some (Frame_Snapshot (a 2%nat) slot base_seq (a 5%nat))
  else if String.eqb (a 1%nat) "LOG" then
    if (length args <? 8)%nat then None
    else
      slot ← ParseU64 (a 3%nat);
      seq ← ParseU64 (a 4%nat);
      written_at_us ← ParseU64 (a 5%nat);
      deadline_us ← ParseU64 (a 6%nat);
      count ← ParseU64 (a 7%nat);
      if negb (count =? Z.of_nat (length args) - 8) then None
      else Some (Frame_Log (a 2%nat) slot
                   (mkBinlogRecord seq (drop 8 args) written_at_us deadline_us))
  else if String.eqb (a 1%nat) "BEGIN" then
    if negb (length args =? 4)%nat || (negb (String.eqb (a 3%nat) "0") && negb (String.eqb (a 3%nat) "1")) ||
       String.eqb (a 2%nat) "" then None
    else Some (Frame_Begin (a 2%nat) (String.eqb (a 3%nat) "1"))
  else if String.eqb (a 1%nat) "DONE" then
    slots ← Positions args 3;
    Some (Frame_Done (a 2%nat) slots)
  else None.

Definition kMaxFrameElements : Z := 1000000.

(** [DecodeFrame(std::string_view wire)]. *)
Definition DecodeFrame `{RespLib} (wire : string) : option Frame :=
  let codec := RespCodec.new (size_of wire) (size_of wire) kMaxFrameElements in
  let '(appended, codec) := RespCodec.AppendBytes codec wire in
  if negb appended then None
  else
    let '(args, codec) := RespCodec.NextCommand codec None in
    match args with
    | Some args =>
        if negb (RespCodec.BufferedBytes codec =? 0) then None else DecodeFrame_args args
    | None => None
    end.

(** ** Theorems *)

Definition positions_ok (slots : list (Z * Z)) : Prop :=
  Forall (λ '(slot, seq), is_u64 slot ∧ is_u64 seq) slots ∧
  Z.of_nat (length slots) <= UINT64_MAX.

Definition record_numbers (r : BinlogRecord) : Prop :=
  is_u64 (rec_seq r) ∧ is_u64 (rec_written_at_us r) ∧ is_u64 (rec_deadline_us r).
Definition record_u64 (r : BinlogRecord) : Prop :=
  record_numbers r ∧ Z.of_nat (length (rec_args r)) <= UINT64_MAX.

(** The frames the two ends exchange: 64-bit numbers, a session to begin, and
    the protocol version of this program. *)
Inductive frame_ok : Frame → Prop :=
  | Hello_ok id session slots :
      positions_ok slots → frame_ok (Frame_Hello id kProtocolVersion session slots)
  | Snapshot_ok session slot seq payload :
      is_u64 slot → is_u64 seq → frame_ok (Frame_Snapshot session slot seq payload)
  | Log_ok session slot record :
      is_u64 slot → record_u64 record → frame_ok (Frame_Log session slot record)
  | Begin_ok session reset : session ≠ "" → frame_ok (Frame_Begin session reset)
  | Done_ok session slots : positions_ok slots → frame_ok (Frame_Done session slots).

Lemma encode_pairs_cons slot seq slots :
  encode_pairs ((slot, seq) :: slots) = to_string slot :: to_string seq :: encode_pairs slots.
Proof. reflexivity. Qed.

Lemma encode_pairs_length slots : length (encode_pairs slots) = (2 * length slots)%nat.
Proof.
  induction slots as [|[slot seq] slots IH]; [done|].
  rewrite encode_pairs_cons. cbn [length]. rewrite IH. lia.
Qed.

Lemma decode_encode_pairs slots :
  Forall (λ '(slot, seq), is_u64 slot ∧ is_u64 seq) slots →
  decode_pairs (encode_pairs slots) = Some slots.
Proof.
  induction 1 as [|[slot seq] slots [Hs Hq] _ IH]; [done|].
  rewrite encode_pairs_cons. cbn [decode_pairs].
  rewrite !ParseU64_to_string by done. cbn [mbind option_bind]. by rewrite IH.
Qed.

Lemma ParseU64_number n : Z.of_nat n <= UINT64_MAX → ParseU64 (number_of_nat n) = Some (Z.of_nat n).
Proof. intros Hn. apply ParseU64_to_string. unfold is_u64. lia. Qed.

Lemma Positions_encode front slots :
  positions_ok slots → Positions (front ++ encode_positions slots) (length front) = Some slots.
Proof.
  intros [Hs Hl]. unfold Positions. rewrite length_app. cbn [encode_positions length].
  rewrite (proj2 (Nat.leb_gt _ _)) by lia.
  rewrite app_nth2, Nat.sub_diag by lia. cbn [nth encode_positions].
  rewrite ParseU64_number by done. cbn [mbind option_bind].
  rewrite drop_app_add. cbn [drop encode_positions]. rewrite drop_0, encode_pairs_length.
  replace (Z.of_nat (2 * length slots)) with (Z.of_nat (length slots) * 2) by lia.
  rewrite Z.mod_mul, Z.div_mul by lia. rewrite !Z.eqb_refl. cbn [negb orb].
  by apply decode_encode_pairs.
Qed.

Lemma DecodeFrame_frame_args f : frame_ok f → DecodeFrame_args (frame_args f) = Some f.
Proof.
  intros [id session slots Hp|session slot seq payload Hs Hq|session slot record Hs Hr
         |session reset Hne|session slots Hp]; unfold DecodeFrame_args, frame_args.
  - cbn -[to_string encode_positions Positions ParseU64].
    rewrite ParseU64_to_string by done. cbn -[to_string encode_positions Positions].
    pose proof (Positions_encode ["CACHE.REPL"; "HELLO"; id; to_string kProtocolVersion; session] slots Hp) as E.
    cbn [app length] in E. by rewrite E.
  - cbn -[to_string ParseU64]. by rewrite !ParseU64_to_string.
  - destruct record as [seq args written deadline]. destruct Hr as ((H1 & H2 & H3) & H4).
    cbn -[to_string ParseU64 number_of_nat Z.sub]. cbn in H1, H2, H3, H4.
    rewrite !ParseU64_to_string by done. cbn [mbind option_bind].
    rewrite ParseU64_number by done. cbn -[Z.sub].
    by rewrite (proj2 (Z.eqb_eq _ _)) by lia.
  - cbn. destruct session; [done|]. by destruct reset.
  - cbn -[to_string encode_positions Positions].
    pose proof (Positions_encode ["CACHE.REPL"; "DONE"; session] slots Hp) as E.
    cbn [app length] in E. by rewrite E.
Qed.

(** Decoding accepts only well-formed frames: what it accepts is a frame that
    encodes and decodes to itself. *)
Lemma decode_pairs_ok n args slots :
  (length args <= n)%nat → decode_pairs args = Some slots →
  (length slots <= length args)%nat ∧
  Forall (λ '(slot, seq), is_u64 slot ∧ is_u64 seq) slots.
Proof.
  revert args slots. induction n as [|n IH]; intros args slots Hn.
  { destruct args; cbn in *; [by intros [= <-]|lia]. }
  destruct args as [|x [|y args]]; cbn; [by intros [= <-]|done|].
  intros (slot & Hslot & H)%bind_Some. apply bind_Some in H as (seq & Hseq & H).
  apply bind_Some in H as (rest & Hrest & [= <-]). cbn in Hn.
  destruct (IH args rest) as [Hl Hf]; [lia|done|]. cbn. split; [lia|].
  constructor; [|done]. split; by eapply ParseU64_range.
Qed.

Lemma Positions_ok args start slots :
  Z.of_nat (length args) <= UINT64_MAX → Positions args start = Some slots → positions_ok slots.
Proof.
  intros Hl. unfold Positions. destruct (_ <=? _)%nat; [done|].
  intros (count & _ & H)%bind_Some. destruct (_ || _); [done|].
  apply (decode_pairs_ok _ _ _ (le_n _)) in H as [Hs Hf]. rewrite length_drop in Hs.
  split; [done|]. lia.
Qed.

Lemma DecodeFrame_args_ok args f :
  Z.of_nat (length args) <= UINT64_MAX → DecodeFrame_args args = Some f → frame_ok f.
Proof.
  intros Hl. unfold DecodeFrame_args.
  destruct (_ || _); [done|]. destruct (String.eqb (nth 1 _ _) "HELLO").
  { destruct (_ <? _)%nat; [done|]. intros (v & _ & H)%bind_Some.
    destruct (v =? kProtocolVersion) eqn:E; [|done]. bool_prop. subst v. cbn [negb] in H.
    apply bind_Some in H as (slots & H & [= <-]). constructor. by eapply Positions_ok. }
  destruct (String.eqb (nth 1 _ _) "SNAPSHOT").
  { destruct (negb _); [done|]. intros (slot & Hs & H)%bind_Some.
    apply bind_Some in H as (seq & Hq & [= <-]).
    constructor; by eapply ParseU64_range. }
  destruct (String.eqb (nth 1 _ _) "LOG").
  { destruct (_ <? _)%nat; [done|]. intros (slot & Hs & H)%bind_Some.
    apply bind_Some in H as (seq & Hq & H). apply bind_Some in H as (w & Hw & H).
    apply bind_Some in H as (d & Hd & H). apply bind_Some in H as (c & Hc & H).
    destruct (negb _); [done|]. injection H as <-.
    constructor; [by eapply ParseU64_range|]. split.
    - repeat split; by eapply ParseU64_range.
    - cbn [rec_args]. rewrite length_drop. lia. }
  destruct (String.eqb (nth 1 _ _) "BEGIN").
  { destruct (_ || _) eqn:E; [done|]. intros [= <-]. constructor.
    bool_prop. by apply String.eqb_neq. }
  destruct (String.eqb (nth 1 _ _) "DONE"); [|done].
  intros (slots & H & [= <-])%bind_Some. constructor. by eapply Positions_ok.
Qed.

Section wire.
Context {RL : RespLib} {RW : RespLaws RL}.

(** Bytes that are one packed command decode as the command. *)
Lemma DecodeFrame_packed args :
  Z.of_nat (length args) <= kMaxFrameElements →
  DecodeFrame (pack_command args) = DecodeFrame_args args.
Proof.
  intros Hn. unfold DecodeFrame, RespCodec.AppendBytes, RespCodec.new. cbn [RespCodec.protocol_error_].
  cbn [RespCodec.max_stream_bytes_ RespCodec.stream_].
  replace (_ || _) with false.
  2:{ symmetry. apply orb_false_iff. rewrite !Z.gtb_ltb, !Z.ltb_ge.
      change (size_of "") with 0. lia. }
  cbn [negb RespCodec.with_stream RespCodec.limits_].
  rewrite (NextCommand_packed _ None args "").
  - cbn. by destruct (DecodeFrame_args args).
  - done.
  - cbn. by rewrite string_app_nil_l, string_app_nil_r.
  - cbn. apply packed_within_limits; [done|by unfold kMaxFrameElements].
Qed.

Lemma DecodeFrame_EncodeFrame f :
  frame_ok f → Z.of_nat (length (frame_args f)) <= kMaxFrameElements →
  DecodeFrame (EncodeFrame f) = Some f.
Proof.
  intros Hf Hn. unfold EncodeFrame. rewrite DecodeFrame_packed by done.
  by apply DecodeFrame_frame_args.
Qed.
End wire.
