(* ===== verification/SnapshotCodec.v ===== *)
(** * Snapshots: src/repl/snapshot_codec

    The image of a slot that a primary sends to a replica: one RESP array of
    bulk strings with, per object, the key, the deadline, the type, the number
    of fields and the fields. A null dereference of the encoder is [None]. *)

From S2P Require Import Prelude Text Containers Double RedisObject HashSlot Response Resp.

Definition kMagic : string := "CACHE.SNAPSHOT.V1".
Definition kMaxSnapshotElements : Z := 1000000.

Section snapshot.
Context {IC : ImmutableContainer} {RL : RespLib}.

(** ** Encoding *)

(** What the [elements] loop adds for an object. *)
Definition object_elements (object : RedisObject) : option Z :=
  match type_ object with
  | kString => Some (4 + 1)
  | kHash => h ← Hash object; Some (4 + map_Size h * 2)
  | kSet => s ← Set_ object; Some (4 + set_Size s)
  | kZSet => z ← ZSet object; Some (4 + map_Size z * 2)
  end.

(** The visitors of maps: two bulk strings per entry. *)
Definition pair_fields {V} (f : V → string) (l : list (PackedString * V)) : list string :=
  mbind (λ '(k, v), [ToString k; f v]) l.

(** The bulk strings of an object's value. *)
Definition value_args (object : RedisObject) : option (list string) :=
  match type_ object with
  | kString => v ← StringValue object; Some ["string"; "1"; ToString v]
  | kHash =>
      h ← Hash object;
      Some ("hash" :: to_string (map_Size h * 2) ::
        pair_fields ToString (map_ForEach h))
  | kSet =>
      s ← Set_ object;
      Some ("set" :: to_string (set_Size s) :: (ToString <$> set_ToVector s))
  | kZSet =>
      z ← ZSet object;
      Some ("zset" :: to_string (map_Size z * 2) ::
        pair_fields FormatScore (map_ForEach z))
  end.

Definition object_args (item : PackedString * RedisObject) : option (list string) :=
  let '(key, object) := item in
  args ← value_args object;
  Some (ToString key :: to_string (deadline_us_ object) :: args).

Definition count_elements (objects : list (PackedString * RedisObject)) : option Z :=
  foldl (λ elements item, n ← elements; k ← object_elements item.2; Some (n + k))
    (Some 2) objects.

Definition EncodeSnapshotPayload (map : ObjectMap) : option string :=
  let objects := map_ForEach map in
  elements ← count_elements objects;
  parts ← mapM object_args objects;
  Some (PackArrayHeader (Z.to_nat elements) +:+
        pack_bulks (kMagic :: to_string (Z.of_nat (length objects)) :: concat parts)).

(** ** Decoding *)

(** The field loops: two texts, or one, per step. *)
Fixpoint hash_of_fields (fields : list string) (hash : HashValue) : HashValue :=
  match fields with
  | field :: value :: rest => hash_of_fields rest (map_Set hash (pack field) (pack value))
  | _ => hash
  end.

Definition set_of_fields (fields : list string) : SetValue :=
  foldl (λ set member, set_Add set (pack member)) set_new fields.

Fixpoint zset_of_fields (fields : list string) (zset : ZSetValue) : option ZSetValue :=
  match fields with
  | member :: text :: rest =>
      score ← ParseFiniteDouble text;
      zset_of_fields rest (map_Set zset (pack member) score)
  | _ => Some zset
  end.

Definition decode_value (type : string) (fields : list string) : option RedisObject :=
  let odd := negb (Nat.even (length fields)) in
  if String.eqb type "string" then
    match fields with [value] => Some (MakeString value) | _ => None end
  else if String.eqb type "hash" then
    if odd then None else Some (MakeHash (hash_of_fields fields map_new))
  else if String.eqb type "set" then Some (MakeSet (set_of_fields fields))
  else if String.eqb type "zset" then
    if odd then None else MakeZSet <$> zset_of_fields fields map_new
  else None.

(** The object loop over the texts from [index] on. Every iteration takes at
    least four texts, so as many iterations as there are texts are enough. *)
Fixpoint decode_objects (fuel : nat) (remaining : Z) (texts : list string)
    (map : ObjectMap) : option ObjectMap :=
  if remaining =? 0 then match texts with [] => Some map | _ => None end
  else
    match fuel, texts with
    | S fuel', key :: deadline_text :: type :: count_text :: texts' =>
        deadline ← ParseU64 deadline_text;
        field_count ← ParseU64 count_text;
        if field_count >? Z.of_nat (length texts') then None
        else
          let n := Z.to_nat field_count in
          object ← decode_value type (take n texts');
          let object' :=
            if negb (deadline =? 0) then WithDeadline object deadline else object in
          decode_objects fuel' (remaining - 1) (drop n texts') (map_Set map (pack key) object')
    | _, _ => None
    end.

Definition decode_texts (texts : list string) : option ObjectMap :=
  match texts with
  | magic :: count_text :: rest =>
      if negb (String.eqb magic kMagic) then None
      else
        object_count ← ParseU64 count_text;
        decode_objects (length rest) object_count rest map_new
  | _ => None
  end.

Definition DecodeSnapshotPayload (payload : string) : option ObjectMap :=
  if negb (starts_with "*"%char payload) then None
  else
    line_end ← find_crlf payload;
    count ← ParseU64 (str_take (line_end - 1) (str_drop 1 payload));
    if (count >? kMaxSnapshotElements) ||
       (count >? (size_of payload - Z.of_nat line_end - 2) / 6) then None
    else
      let limits := mkRespLimits 1 kMaxSnapshotElements (size_of payload) in
      let result := UnpackOne payload (Z.to_nat count + 1) limits in
      match rr_status result, rr_value result with
      | RespOk, Some root =>
          if negb (rr_consumed result =? String.length payload)%nat ||
             negb (rv_is_array root) then None
          else if negb (forallb rv_is_bulk (rv_elements root)) then None
          else decode_texts (rv_text <$> rv_elements root)
      | _, _ => None
      end.

(** ** Theorems *)

(** A score whose text reads back as the score. *)
Definition score_faithful (score : double) : Prop :=
  ParseFiniteDouble (FormatScore score) = Some score.

Definition faithful (o : RedisObject) : Prop :=
  match value_ o with
  | VZSet z => map_Forall (λ _ score, score_faithful score) (to_gmap z)
  | _ => True
  end.

Context {CL : ContainerLaws IC}.

(** *** Maps rebuilt by insertion *)

Lemma to_gmap_foldl {V} (l : list (string * V)) (m : ImtMap V) :
  NoDup l.*1 →
  to_gmap (foldl (λ m '(k, v), map_Set m (pack k) v) m l) = list_to_map l ∪ to_gmap m.
Proof.
  revert m. induction l as [|[k v] l IH]; intros m Hnd; [cbn; by rewrite map_empty_union|].
  cbn in Hnd. apply NoDup_cons in Hnd as [Hk Hnd]. cbn [foldl list_to_map foldr].
  rewrite IH by done. rewrite to_gmap_Set, ToString_pack.
  apply not_elem_of_list_to_map_1 in Hk.
  rewrite <-(insert_union_r _ _ k v Hk). by rewrite insert_union_l.
Qed.

Lemma to_gmap_rebuild {V} (m : ImtMap V) :
  to_gmap (foldl (λ m '(k, v), map_Set m (pack k) v) map_new
             (prod_map ToString id <$> map_ForEach m)) = to_gmap m.
Proof.
  rewrite to_gmap_foldl by apply ForEach_keys_NoDup.
  by rewrite to_gmap_new, map_union_empty.
Qed.

Lemma pair_fields_cons {V} (f : V → string) k v l :
  pair_fields f ((k, v) :: l) = ToString k :: f v :: pair_fields f l.
Proof. reflexivity. Qed.

Lemma pair_fields_length {V} (f : V → string) l :
  length (pair_fields f l) = (2 * length l)%nat.
Proof.
  induction l as [|[k v] l IH]; [done|]. rewrite pair_fields_cons. cbn [length]. lia.
Qed.

Lemma hash_of_pair_fields l (h : HashValue) :
  hash_of_fields (pair_fields ToString l) h =
  foldl (λ m '(k, v), map_Set m (pack k) v) h (prod_map ToString id <$> l).
Proof.
  revert h. induction l as [|[k v] l IH]; intros h; [done|].
  rewrite pair_fields_cons. cbn. by rewrite IH, !pack_ToString.
Qed.

Lemma zset_of_pair_fields l (z : ZSetValue) :
  Forall (λ '(_, score), score_faithful score) l →
  zset_of_fields (pair_fields FormatScore l) z =
  Some (foldl (λ m '(k, v), map_Set m (pack k) v) z (prod_map ToString id <$> l)).
Proof.
  intros Hf. revert z. induction Hf as [|[k v] l Hv _ IH]; intros z; [done|].
  rewrite pair_fields_cons. cbn [zset_of_fields]. rewrite Hv. cbn. by rewrite IH.
Qed.

Lemma set_of_members (s : SetValue) :
  to_gset (set_of_fields (ToString <$> set_ToVector s)) = to_gset s.
Proof.
  unfold set_of_fields. unfold to_gset at 2.
  assert (∀ l s0, to_gset (foldl (λ set member, set_Add set (pack member)) s0 l) =
            list_to_set l ∪ to_gset s0) as H.
  { induction l as [|x l IH]; intros s0; cbn; [set_solver|].
    rewrite IH, to_gset_Add, ToString_pack. set_solver. }
  rewrite H, to_gset_new. set_solver.
Qed.

(** *** One object *)

(** The encoder's view of a well-formed object. *)
Lemma value_args_ok (o : RedisObject) :
  object_ok o → faithful o →
  ∃ type count fields, value_args o = Some (type :: to_string count :: fields) ∧
    count = Z.of_nat (length fields) ∧
    ∃ o', decode_value type fields = Some o' ∧ deadline_us_ o' = 0 ∧
          a_val (abs_object o') = a_val (abs_object o).
Proof.
  intros Ho Hf. destruct o as [t d v]. destruct Ho as [Ht _ _]. cbn in Ht. subst t.
  destruct v as [v|h|s|z]; cbn [value_args object_elements type_ type_of_value value_
    StringValue Hash Set_ ZSet mbind option_bind]; unfold faithful in Hf; cbn in Hf.
  - exists "string", 1, [ToString v]. repeat split; try done.
    exists (MakeString (ToString v)). cbn. by rewrite ToString_pack.
  - exists "hash", (map_Size h * 2), (pair_fields ToString (map_ForEach h)).
    rewrite Size_ForEach, pair_fields_length.
    repeat split; [lia|]. unfold decode_value. cbn [String.eqb Ascii.eqb Bool.eqb].
    rewrite pair_fields_length, Nat.even_mul. cbn [Nat.even orb negb].
    eexists. split; [done|]. split; [done|]. cbn. rewrite hash_of_pair_fields.
    by rewrite to_gmap_rebuild.
  - exists "set", (set_Size s), (ToString <$> set_ToVector s).
    rewrite set_Size_ToVector, length_fmap. repeat split.
    eexists. split; [done|]. split; [done|]. cbn. by rewrite set_of_members.
  - exists "zset", (map_Size z * 2), (pair_fields FormatScore (map_ForEach z)).
    rewrite Size_ForEach, pair_fields_length.
    repeat split; [lia|]. unfold decode_value. cbn [String.eqb Ascii.eqb Bool.eqb].
    rewrite pair_fields_length, Nat.even_mul. cbn [Nat.even orb negb].
    eexists. rewrite zset_of_pair_fields.
    + split; [done|]. split; [done|]. cbn. by rewrite to_gmap_rebuild.
    + apply Forall_forall. intros [k score] Hk. apply to_gmap_elem in Hk.
      by apply (Hf (ToString k)).
Qed.

Definition with_deadline_opt (o : RedisObject) (deadline : Z) : RedisObject :=
  if negb (deadline =? 0) then WithDeadline o deadline else o.

Lemma abs_with_deadline_opt o deadline :
  deadline_us_ o = 0 →
  abs_object (with_deadline_opt o deadline) = mkAObj deadline (a_val (abs_object o)).
Proof.
  intros H0. unfold with_deadline_opt. destruct (deadline =? 0) eqn:E; cbn; [|done].
  bool_prop. subst. unfold abs_object. by rewrite H0.
Qed.

(** *** All objects *)

(** The texts of a list of objects decode, into a map of equal objects. *)
Lemma decode_objects_parts l parts fuel m :
  mapM object_args l = Some parts →
  Forall (λ item, object_ok item.2 ∧ faithful item.2) l →
  Z.of_nat (length (concat parts)) <= UINT64_MAX →
  (length l <= fuel)%nat → NoDup l.*1 →
  ∃ m', decode_objects fuel (Z.of_nat (length l)) (concat parts) m = Some m' ∧
    abs_object <$> to_gmap m' =
    list_to_map (prod_map ToString abs_object <$> l) ∪ (abs_object <$> to_gmap m).
Proof.
  revert parts fuel m. induction l as [|[key o] l IH]; intros parts fuel m Hp Hf Hlen Hfuel Hnd.
  { injection Hp as <-. exists m. cbn. rewrite map_empty_union. by destruct fuel. }
  apply Forall_cons in Hf as [[Ho Hfa] Hf]. cbn in Hnd. apply NoDup_cons in Hnd as [Hk Hnd].
  destruct (value_args_ok o Ho Hfa) as (type & count & fields & Hv & -> & o' & Hd & H0 & Ha).
  cbn [mapM] in Hp. apply bind_Some in Hp as (x & Hx & Hp).
  apply bind_Some in Hp as (ps & Hp & [= <-]).
  cbn [object_args] in Hx. rewrite Hv in Hx. injection Hx as <-.
  destruct fuel as [|fuel]; [cbn in Hfuel; lia|].
  cbn [concat app] in Hlen |- *. cbn [length] in Hlen. rewrite length_app in Hlen.
  cbn [decode_objects]. destruct (_ =? 0) eqn:E; bool_prop; [cbn in E; lia|].
  rewrite (ParseU64_to_string (deadline_us_ o)) by apply (ok_deadline _ Ho).
  rewrite (ParseU64_to_string (Z.of_nat (length fields))) by (unfold is_u64; lia). cbn [mbind option_bind].
  rewrite length_app. destruct (_ >? _) eqn:E2; bool_prop; [lia|].
  rewrite Nat2Z.id, take_app_length, drop_app_length, Hd. cbn [mbind option_bind].
  replace (Z.of_nat (length ((key, o) :: l)) - 1) with (Z.of_nat (length l)) by (cbn; lia).
  change (if negb _ then WithDeadline o' _ else o') with (with_deadline_opt o' (deadline_us_ o)).
  destruct (IH ps fuel (map_Set m (pack (ToString key)) (with_deadline_opt o' (deadline_us_ o))))
    as (m' & Hm' & Habs); [done|done|lia|cbn in Hfuel; lia|done|].
  exists m'. split; [done|]. rewrite Habs, to_gmap_Set, ToString_pack, fmap_insert.
  rewrite abs_with_deadline_opt by done. rewrite Ha.
  change (mkAObj (deadline_us_ o) (a_val (abs_object o))) with (abs_object o).
  cbn [fmap list_fmap list_to_map foldr prod_map fst snd].
  assert ((list_to_map (prod_map ToString abs_object <$> l) : gmap string aobj) !! ToString key = None)
    as Hnone.
  { apply not_elem_of_list_to_map_1. rewrite <-list_fmap_compose. intros Hin.
    apply list_elem_of_fmap in Hin as ([k2 o2] & E3 & Hin). cbn in E3. apply ToString_inj in E3 as <-.
    apply Hk, list_elem_of_fmap. by exists (key, o2). }
  rewrite <-(insert_union_r _ _ _ _ Hnone). by rewrite insert_union_l.
Qed.
(** *** The array *)

Lemma value_args_elements (o : RedisObject) :
  object_ok o →
  ∃ args, value_args o = Some args ∧ object_elements o = Some (2 + Z.of_nat (length args)).
Proof.
  intros [Ht _ _]. destruct o as [t d v]. cbn in Ht. subst t.
  destruct v as [v|h|s|z]; cbn [value_args object_elements type_ type_of_value value_
    StringValue Hash Set_ ZSet mbind option_bind]; eexists; (split; [reflexivity|]); f_equal.
  - cbn [length]. rewrite pair_fields_length, Size_ForEach. lia.
  - cbn [length]. rewrite length_fmap, set_Size_ToVector. lia.
  - cbn [length]. rewrite pair_fields_length, Size_ForEach. lia.
Qed.

Lemma encode_parts l n :
  Forall (λ item, object_ok item.2) l →
  ∃ parts, mapM object_args l = Some parts ∧
    foldl (λ elements item, n ← elements; k ← object_elements item.2; Some (n + k)) (Some n) l =
      Some (n + Z.of_nat (length (concat parts))) ∧
    (length l <= length (concat parts))%nat.
Proof.
  revert n. induction l as [|[key o] l IH]; intros n Hf.
  { exists []. cbn. repeat split; [f_equal; lia|lia]. }
  apply Forall_cons in Hf as [Ho Hf]. destruct (value_args_elements o Ho) as (args & Ha & He).
  destruct (IH (n + (2 + Z.of_nat (length args))) Hf) as (parts & Hp & Hn & Hl).
  eexists. cbn [mapM object_args]. rewrite Ha, Hp. cbn [mbind option_bind mret option_ret].
  split; [reflexivity|]. cbn [foldl mbind option_bind snd]. rewrite He.
  cbn [mbind option_bind]. rewrite Hn. cbn [concat app length]. rewrite length_app.
  split; [f_equal; lia|lia].
Qed.

Lemma map_objects_Forall (P : RedisObject → Prop) (map : ObjectMap) :
  map_Forall (λ _ o, P o) (to_gmap map) → Forall (λ item, P item.2) (map_ForEach map).
Proof.
  intros Hm. apply Forall_forall. intros [k o] Hin. apply to_gmap_elem in Hin.
  by apply Hm in Hin.
Qed.

Context {RW : RespLaws RL}.

(** The texts of the array of a snapshot. *)
Definition snapshot_texts (map : ObjectMap) : list string :=
  kMagic :: to_string (Z.of_nat (length (map_ForEach map))) ::
  concat (default [] (mapM object_args (map_ForEach map))).

(** The header announces as many elements as follow it. *)
Lemma EncodeSnapshotPayload_packs map :
  map_Forall (λ _ o, object_ok o) (to_gmap map) →
  EncodeSnapshotPayload map = Some (pack_command (snapshot_texts map)).
Proof.
  intros Hm. apply map_objects_Forall in Hm. unfold EncodeSnapshotPayload, snapshot_texts.
  destruct (encode_parts _ 2 Hm) as (parts & Hp & Hn & _).
  unfold count_elements. rewrite Hn, Hp. cbn [mbind option_bind default].
  by replace (Z.to_nat (2 + _)) with (S (S (length (concat parts)))) by lia.
Qed.

Lemma DecodeSnapshotPayload_packed texts :
  DecodeSnapshotPayload (pack_command texts) =
  if Z.of_nat (length texts) <=? kMaxSnapshotElements
  then decode_texts texts else None.
Proof.
  unfold DecodeSnapshotPayload.
  assert (starts_with "*"%char (pack_command texts) = true) as ->.
  { by rewrite pack_command_unfold, wire_number_app, string_app_cons. }
  assert (find_crlf (pack_command texts) =
            Some (S (String.length (to_string (Z.of_nat (length texts)))))) as ->.
  { rewrite pack_command_unfold. apply find_crlf_number; [done|lia]. }
  assert (str_take (S (String.length (to_string (Z.of_nat (length texts)))) - 1)
            (str_drop 1 (pack_command texts)) = to_string (Z.of_nat (length texts))) as E.
  { rewrite pack_command_unfold, wire_number_app, string_app_cons. cbn [str_drop].
    rewrite Nat.sub_succ, Nat.sub_0_r. apply str_take_app. }
  cbn [negb mbind option_bind]. rewrite E.
  rewrite ParseU64_show by lia.
  destruct (_ <=? kMaxSnapshotElements) eqn:Hle; bool_prop.
  2:{ destruct (_ <=? UINT64_MAX); [|done]. cbn [mbind option_bind].
      rewrite (proj2 (Z.gtb_lt _ _)) by done. done. }
  rewrite (proj2 (Z.leb_le _ _)) by (unfold UINT64_MAX, kMaxSnapshotElements in *; lia).
  cbn [mbind option_bind].
  replace (_ || _) with false.
  2:{ symmetry. apply orb_false_iff. rewrite !Z.gtb_ltb, !Z.ltb_ge. split; [done|].
      apply packed_count_bound. }
  destruct (packed_within_limits texts kMaxSnapshotElements Hle) as (H1 & H2 & _ & H4);
    [done|].
  destruct (UnpackOne_array texts "" (Z.to_nat (Z.of_nat (length texts)) + 1) _ ltac:(lia) H1 H2 H4)
    as (v & e & Hu & Ha & Hall & Ht).
  rewrite string_app_nil_r in Hu. rewrite Hu. cbn [rr_status rr_value rr_consumed].
  rewrite Nat.eqb_refl, Ha. cbn [negb orb].
  rewrite forallb_bulk by done. cbn [negb]. by rewrite Ht.
Qed.

(** A snapshot decodes to a map of equal objects: same keys, deadlines and
    values, provided the texts of its scores read back. *)
Lemma Snapshot_roundtrip map :
  map_Forall (λ _ o, object_ok o ∧ faithful o) (to_gmap map) →
  Z.of_nat (length (snapshot_texts map)) <= kMaxSnapshotElements →
  ∃ payload map',
    EncodeSnapshotPayload map = Some payload ∧
    DecodeSnapshotPayload payload = Some map' ∧
    abs_object <$> to_gmap map' = abs_object <$> to_gmap map.
Proof.
  intros Hm Hn.
  assert (map_Forall (λ _ o, object_ok o) (to_gmap map)) as Hok
    by (intros k o Ho; by apply Hm in Ho as [? _]).
  rewrite EncodeSnapshotPayload_packs by done.
  pose proof (map_objects_Forall _ _ Hok) as Hl.
  apply map_objects_Forall in Hm. destruct (encode_parts _ 2 Hl) as (parts & Hp & _ & Hlen).
  unfold snapshot_texts in *. rewrite Hp in *. cbn [default] in *. cbn [length] in Hn.
  change (id parts) with parts in *.
  destruct (decode_objects_parts (map_ForEach map) parts (length (concat parts)) map_new)
    as (m' & Hd & Habs); [done|done| |done|apply ForEach_NoDup|].
  { unfold UINT64_MAX, kMaxSnapshotElements in *. lia. }
  eexists _, m'. split; [done|]. rewrite DecodeSnapshotPayload_packed. split.
  - rewrite (proj2 (Z.leb_le _ _)) by (cbn [length]; lia). cbn [decode_texts].
    change (String.eqb kMagic kMagic) with true. cbn [negb].
    rewrite ParseU64_to_string; [done|].
    unfold is_u64, UINT64_MAX, kMaxSnapshotElements in *. lia.
  - rewrite Habs, to_gmap_new, fmap_empty, map_union_empty.
    unfold to_gmap. rewrite <-list_to_map_fmap. f_equal.
    rewrite <-list_fmap_compose. by apply list_fmap_ext.
Qed.

(** A slot with more than a million fields encodes to a payload that no
    replica accepts. *)
Lemma Snapshot_oversize map :
  map_Forall (λ _ o, object_ok o) (to_gmap map) →
  kMaxSnapshotElements < Z.of_nat (length (snapshot_texts map)) →
  ∃ payload, EncodeSnapshotPayload map = Some payload ∧ DecodeSnapshotPayload payload = None.
Proof.
  intros Hm Hn. rewrite EncodeSnapshotPayload_packs by done. eexists. split; [done|].
  rewrite DecodeSnapshotPayload_packed. by rewrite (proj2 (Z.leb_gt _ _)).
Qed.

(** Whatever decodes is made of well-formed objects, except that a collection
    may be empty: no primary stores one, but the decoder does not ask. *)
Definition decoded (o : RedisObject) : Prop :=
  aval_full (abs_value (value_ o)) → object_ok o.

Lemma zset_of_fields_finite fields z z' :
  map_Forall (λ _ x, finite x) (to_gmap z) → zset_of_fields fields z = Some z' →
  map_Forall (λ _ x, finite x) (to_gmap z').
Proof.
  revert z. induction fields as [fields IH] using (induction_ltof1 _ (@length string)).
  destruct fields as [|member [|text fields]]; intros z Hz; cbn; [by intros [= <-]|by intros [= <-]|].
  intros (score & Hs%ParseFiniteDouble_finite & H)%bind_Some.
  apply (IH fields ltac:(unfold ltof; cbn; lia) (map_Set z (pack member) score)); [|exact H].
  rewrite to_gmap_Set. by apply map_Forall_insert_2.
Qed.

Lemma decode_value_decoded type fields o : decode_value type fields = Some o → decoded o.
Proof.
  unfold decode_value, decoded. destruct (String.eqb type "string").
  { destruct fields as [|v [|? ?]]; try done. intros [= <-] _. apply MakeString_ok. }
  destruct (String.eqb type "hash"); [destruct (negb _); [done|intros [= <-] Hf; by split]|].
  destruct (String.eqb type "set"); [intros [= <-] Hf; by split|].
  destruct (String.eqb type "zset"); [|done]. destruct (negb _); [done|].
  intros (z & Hz & ->)%fmap_Some Hf. split; [done|done|]. split; [exact Hf|].
  eapply zset_of_fields_finite; [|exact Hz]. rewrite to_gmap_new. apply map_Forall_empty.
Qed.

Lemma decode_objects_decoded fuel remaining texts m m' :
  map_Forall (λ _ o, decoded o) (to_gmap m) →
  decode_objects fuel remaining texts m = Some m' → map_Forall (λ _ o, decoded o) (to_gmap m').
Proof.
  revert remaining texts m. induction fuel as [|fuel IH]; intros remaining texts m Hm; cbn.
  { destruct (_ =? _); [|done]. destruct texts; [|done]. by intros [= <-]. }
  destruct (_ =? _); [destruct texts; [by intros [= <-]|done]|].
  destruct texts as [|key [|dt [|type [|ct texts]]]]; try done.
  intros (d & Hd%ParseU64_range & H)%bind_Some. apply bind_Some in H as (c & _ & H).
  destruct (_ >? _); [done|]. apply bind_Some in H as (o & Ho%decode_value_decoded & H).
  apply IH in H; [done|]. rewrite to_gmap_Set. apply map_Forall_insert_2; [|done].
  destruct (negb _); [|done]. intros Hf. by apply WithDeadline_ok, Hd; apply Ho.
Qed.

Lemma DecodeSnapshotPayload_decoded payload map :
  DecodeSnapshotPayload payload = Some map → map_Forall (λ _ o, decoded o) (to_gmap map).
Proof.
  unfold DecodeSnapshotPayload. destruct (negb _); [done|].
  intros (le & _ & H)%bind_Some. apply bind_Some in H as (count & _ & H).
  destruct (_ || _); [done|]. destruct (rr_status _); try done.
  destruct (rr_value _) as [root|]; [|done]. destruct (_ || _); [done|].
  destruct (negb _); [done|]. unfold decode_texts in H.
  destruct (_ <$> _) as [|magic [|ct texts]]; try done. destruct (negb _); [done|].
  apply bind_Some in H as (n & _ & H). eapply decode_objects_decoded; [|exact H].
  rewrite to_gmap_new. apply map_Forall_empty.
Qed.

(** A payload that brings no empty collection. *)
Definition snapshot_full (payload : string) : Prop :=
  ∀ map, DecodeSnapshotPayload payload = Some map →
    map_Forall (λ _ o, aval_full (abs_value (value_ o))) (to_gmap map).

Lemma snapshot_full_ok payload map :
  snapshot_full payload → DecodeSnapshotPayload payload = Some map →
  map_Forall (λ _ o, object_ok o) (to_gmap map).
Proof.
  intros Hf Hd k o Ho. apply (DecodeSnapshotPayload_decoded payload map Hd k o Ho).
  by eapply Hf.
Qed.
End snapshot.
