(* ===== verification/Slave.v ===== *)
(** * SlaveReplicator: src/repl/slave_replicator

    The replica's side of replication: a state per slot (what has been
    applied, whether a snapshot is needed, whether reads are allowed) next to
    the cache the frames are applied to. The object is built with an engine
    ([main.cpp]); the tests for a null engine are not part of the model. Every
    public operation runs under one mutex and is one step here; the clock
    reading of [EnqueueFrame] is an argument. *)

From S2P Require Import Prelude Text Containers Double RedisObject Binlog HashSlot Engine Response Command Dispatcher ReadOnly Resp ReplFrame SnapshotCodec.

Inductive SlotState := kOffline | kSnapshotting | kCatchingUp | kOnline.
#[export] Instance SlotState_eq_dec : EqDecision SlotState.
Proof. solve_decision. Defined.

Record SlotApplyState := mkSlotApply {
  sa_state : SlotState;
  sa_applied_seq : Z;
  sa_need_snapshot : bool;
}.

Definition SlotApplyState_default : SlotApplyState := mkSlotApply kOffline 0 false.

Section slave.
Context {IC : ImmutableContainer} {RL : RespLib}.

Record SlaveReplicator := mkSlave {
  sl_engine_ : CacheEngine;
  sl_slots_ : list SlotApplyState;
  sl_session_id_ : string;
}.

Definition SlaveReplicator_new (engine : CacheEngine) : SlaveReplicator :=
  mkSlave (DisableBinlog engine) (replicate (SlotCount engine) SlotApplyState_default) "".

Definition slaveM : Type → Type := stM SlaveReplicator.

(** Running an engine operation; writing [slots_[slot]]. *)
Definition on_engine {A} (m : engineM A) : slaveM A := λ s,
  match m (sl_engine_ s) with
  | Some (a, e') => Some (a, mkSlave e' (sl_slots_ s) (sl_session_id_ s))
  | None => None
  end.
Definition set_state (slot : nat) (state : SlotApplyState) : slaveM unit := λ s,
  Some (tt, mkSlave (sl_engine_ s) (<[slot := state]> (sl_slots_ s)) (sl_session_id_ s)).
Definition get_state (slot : nat) : slaveM SlotApplyState := λ s,
  (λ state, (state, s)) <$> (sl_slots_ s !! slot).
Definition set_session (session : string) : slaveM unit := λ s,
  Some (tt, mkSlave (sl_engine_ s) (sl_slots_ s) session).

(** ** Frames *)

Definition ApplyRecord (rnd : nat → nat) (record : BinlogRecord) (now : Z) (slot : nat)
    : engineM bool :=
  match rec_args record with
  | name :: key :: rest =>
      if negb (SlotForKey key =? slot)%nat || negb (IsWriteCommand name) then mret false
      else if String.eqb (ToUpperAscii name) "DEL" then
        match rest with
        | [] => _ ← engine_Del key 0; mret true
        | _ => mret false
        end
      else
        let written := rec_written_at_us record in
        result ← Execute rnd (rec_args record) (if negb (written =? 0) then written else now);
        if is_error result then mret false
        else if negb (written =? 0) then
          _ ← SlotById slot
                (write_slot (λ s, SetReplicaDeadline s key (rec_deadline_us record)));
          mret true
        else mret true
  | _ => mret false
  end.

Definition ApplyLog (rnd : nat → nat) (slot : nat) (record : BinlogRecord) (now : Z)
    : slaveM bool :=
  state ← get_state slot;
  if sa_need_snapshot state then mret false
  else if rec_seq record <=? sa_applied_seq state then mret true
  else
    applied ← (if rec_seq record =? sa_applied_seq state +u 1
               then on_engine (ApplyRecord rnd record now slot) else mret false);
    if negb applied then
      _ ← set_state slot (mkSlotApply kOffline (sa_applied_seq state) true);
      mret false
    else
      _ ← on_engine (MarkSlotReplicaAppliedSeq slot (rec_seq record));
      _ ← set_state slot (mkSlotApply kCatchingUp (rec_seq record) (sa_need_snapshot state));
      mret true.

Definition snapshot_fits (slot : nat) (map : ObjectMap) : bool :=
  forallb (λ '(key, _), (SlotForKey (ToString key) =? slot)%nat) (map_ForEach map).

Definition ApplySnapshot (slot : nat) (payload : string) (base_seq : Z) : slaveM bool :=
  state ← get_state slot;
  match DecodeSnapshotPayload payload with
  | Some map =>
      if snapshot_fits slot map then
        _ ← on_engine (InstallSlotReplicaSnapshot slot map base_seq);
        _ ← set_state slot (mkSlotApply kCatchingUp base_seq false);
        mret true
      else
        _ ← set_state slot (mkSlotApply kOffline (sa_applied_seq state) true);
        mret false
  | None =>
      _ ← set_state slot (mkSlotApply kOffline (sa_applied_seq state) true);
      mret false
  end.

(** The reset of [BEGIN]: every slot, emptied. *)
Definition reset_slot (_ : unit) (slot : nat) : slaveM unit :=
  _ ← set_state slot SlotApplyState_default;
  on_engine (InstallSlotReplicaSnapshot slot map_new 0).
Definition reset_slots : slaveM unit := λ s,
  foldM reset_slot tt (seq 0 (length (sl_slots_ s))) s.

(** The loop of [DONE]: it stops at a slot it does not know. *)
Definition done_state (state : SlotApplyState) (position : Z) : SlotApplyState :=
  if sa_need_snapshot state then state
  else mkSlotApply (if sa_applied_seq state >=? position then kOnline else kCatchingUp)
         (sa_applied_seq state) (sa_need_snapshot state).
Fixpoint done_slots (positions : list (Z * Z)) (slots : list SlotApplyState)
    : bool * list SlotApplyState :=
  match positions with
  | [] => (true, slots)
  | (slot, position) :: rest =>
      if slot >=? Z.of_nat (length slots) then (false, slots)
      else done_slots rest (alter (λ state, done_state state position) (Z.to_nat slot) slots)
  end.

Definition EnqueueFrame (rnd : nat → nat) (frame : Frame) (now : Z) : slaveM bool := λ s,
  let session := fr_session_id frame in
  if decide (fr_subcmd frame = kBegin) then
    if String.eqb session "" || (negb (fr_reset frame) && negb (String.eqb session (sl_session_id_ s)))
    then Some (false, s)
    else
      (_ ← (if fr_reset frame then reset_slots else mret tt);
       _ ← set_session session;
       mret true) s
  else if String.eqb (sl_session_id_ s) "" || negb (String.eqb session (sl_session_id_ s))
  then Some (false, s)
  else if decide (fr_subcmd frame = kDone) then
    let '(ok, slots) := done_slots (fr_slot_positions frame) (sl_slots_ s) in
    Some (ok, mkSlave (sl_engine_ s) slots (sl_session_id_ s))
  else if fr_slot_id frame >=? Z.of_nat (length (sl_slots_ s)) then Some (false, s)
  else
    let slot := Z.to_nat (fr_slot_id frame) in
    match fr_subcmd frame with
    | kSnapshot => ApplySnapshot slot (fr_snapshot_payload frame) (fr_base_seq frame) s
    | kLog => ApplyLog rnd slot (fr_record frame) now s
    | _ => Some (false, s)
    end.

(** ** Reads *)

Definition CanReadSlot (s : SlaveReplicator) (slot : nat) : bool :=
  match sl_slots_ s !! slot with
  | Some state => bool_decide (sa_state state = kOnline)
  | None => false
  end.

Definition ExecuteRead (rnd : nat → nat) (args : list string) (now_us : Z) (enabled : bool)
    : slaveM Response := λ s,
  if match args with name :: _ => IsWriteCommand name | [] => false end
  then Some (Error "READONLY replica does not accept writes", s)
  else if negb enabled then Some (Error "READONLY replica reads are disabled", s)
  else on_engine (ExecuteReadOnly rnd args now_us (CanReadSlot s)) s.

(** [Positions]: what the replica asks for, slot by slot. *)
Definition slave_position (state : SlotApplyState) : Z :=
  if sa_need_snapshot state then UINT64_MAX else sa_applied_seq state.
Definition slave_Positions (s : SlaveReplicator) : list (Z * Z) :=
  imap (λ i state, (Z.of_nat i, slave_position state)) (sl_slots_ s).

(** ** The invariant *)

(** A slot that needs no snapshot has applied exactly what its state says:
    the sequence of the cache's slot is the applied sequence. A slot that
    needs one is offline. *)
Definition apply_state_ok (state : SlotApplyState) (s : HashSlot) : Prop :=
  is_u64 (sa_applied_seq state) ∧ log_writes_ s = false ∧
  if sa_need_snapshot state then sa_state state = kOffline
  else slot_seq_ s = sa_applied_seq state.

Record slave_ok (s : SlaveReplicator) : Prop := {
  sk_engine : engine_ok (sl_engine_ s);
  sk_count : length (sl_slots_ s) = length (slots_ (sl_engine_ s));
  sk_slots : ∀ i state slot, sl_slots_ s !! i = Some state →
    slots_ (sl_engine_ s) !! i = Some slot → apply_state_ok state slot;
}.
(** ** Theorems *)

Context {CL : ContainerLaws IC}.

(** A write command on one key, whatever its arguments. *)
Lemma Execute_single rnd name key rest now_us e :
  engine_ok e → is_u64 now_us →
  IsWriteCommand name = true → ToUpperAscii name ≠ "DEL" →
  ∃ r eff e', Execute rnd (name :: key :: rest) now_us e = Some (r, e') ∧
    engine_writes e key now_us eff e'.
Proof.
  intros He Hn Hw Hd. unfold IsWriteCommand in Hw. cbn [Execute].
  destruct (commands_ !! ToUpperAscii name) as [entry|] eqn:Hc; [|done].
  destruct (CheckArity (ce_cmd entry) (name :: key :: rest)) as [error|] eqn:Ha.
  { by exists (Error error), Keep, e. }
  destruct (write_implements rnd name key rest now_us entry Hn Hc Hw Hd Ha e He)
    as (r & eff & e' & E & _ & Hwr). by exists r, eff, e'.
Qed.

(** One slot of [e] was written, at most once. *)
Record slot_step (i : nat) (e e' : CacheEngine) : Prop := {
  ss_ok : engine_ok e';
  ss_length : length (slots_ e') = length (slots_ e);
  ss_other j : j ≠ i → slots_ e' !! j = slots_ e !! j;
  ss_slot s : slots_ e !! i = Some s → ∃ s', slots_ e' !! i = Some s' ∧
    log_writes_ s' = log_writes_ s ∧ slot_seq_ s <= slot_seq_ s' <= slot_seq_ s + 1;
}.

Lemma slot_step_refl i e : engine_ok e → slot_step i e e.
Proof. intros He. split; try done. intros s Hs. exists s. repeat split; try done; lia. Qed.

Lemma slot_step_set i e s s' :
  engine_ok e → slots_ e !! i = Some s → slot_ok i s' → log_writes_ s' = log_writes_ s →
  slot_seq_ s <= slot_seq_ s' <= slot_seq_ s + 1 → slot_step i e (set_slot e i s').
Proof.
  intros He Hs Hok Hl Hq. pose proof (lookup_lt_Some _ _ _ Hs) as Hi. split.
  - by apply set_slot_ok.
  - apply length_insert.
  - intros j Hj. cbn. by apply list_lookup_insert_ne.
  - intros s0 Hs0. rewrite Hs in Hs0. injection Hs0 as <-. exists s'.
    split; [by apply list_lookup_insert_eq|done].
Qed.

Lemma engine_writes_step e key now_us eff e' :
  engine_ok e → slot_seq_ (slot_of e key) < UINT64_MAX → engine_writes e key now_us eff e' →
  slot_step (SlotForKey key) e e'.
Proof.
  intros He Hr. destruct eff as [|entry args]; [intros ->; by apply slot_step_refl|].
  intros (o & s' & _ & Ho & Ha & Hc & ->).
  pose proof (engine_ok_slot e key He) as Hs.
  apply (slot_step_set _ e (slot_of e key)); [done|by apply slot_of_lookup, He| | |].
  - by eapply committed_ok.
  - apply (co_log_writes _ _ _ _ _ _ Hc).
  - rewrite (co_seq _ _ _ _ _ _ Hc). pose proof (so_seq _ _ Hs). u64_lia.
Qed.

Lemma SetReplicaDeadline_same s key d :
  slot_seq_ (SetReplicaDeadline s key d) = slot_seq_ s ∧
  log_writes_ (SetReplicaDeadline s key d) = log_writes_ s.
Proof. unfold SetReplicaDeadline. by destruct (map_Find _ _). Qed.

Lemma SlotById_run {A} e i s (f : HashSlot → A * HashSlot) :
  slots_ e !! i = Some s → SlotById i f e = Some ((f s).1, set_slot e i (f s).2).
Proof. intros Hs. unfold SlotById. rewrite Hs. by destruct (f s). Qed.

(** Applying a record writes its own slot only, whatever the record. *)
Lemma ApplyRecord_step rnd record now slot e :
  engine_ok e → is_u64 now → record_numbers record →
  (∀ s, slots_ e !! slot = Some s → slot_seq_ s < UINT64_MAX) →
  ∃ b e', ApplyRecord rnd record now slot e = Some (b, e') ∧ slot_step slot e e'.
Proof.
  intros He Hn (_ & Hw & Hd) Hr. unfold ApplyRecord.
  destruct (rec_args record) as [|name [|key rest]];
    [by eexists _, e; split; [done|apply slot_step_refl]..|].
  destruct (_ || _) eqn:Hg; [by eexists _, e; split; [done|apply slot_step_refl]|].
  bool_prop. match goal with H : (_ =? _)%nat = true |- _ => apply Nat.eqb_eq in H as <- end.
  specialize (Hr (slot_of e key) (slot_of_lookup e key (eo_wf _ He))).
  destruct (String.eqb (ToUpperAscii name) "DEL") eqn:Ed.
  { destruct rest; [|by eexists _, e; split; [done|apply slot_step_refl]].
    unfold mbind, stM_bind, engine_Del. rewrite SlotById_key by apply He.
    eexists _, _. split; [done|].
    pose proof (Del_spec (slot_of e key) key 0) as H.
    pose proof (engine_ok_slot e key He) as Hs.
    apply (slot_step_set _ e (slot_of e key)); [done|by apply slot_of_lookup, He| | |].
    - apply Del_ok; [done|lia].
    - destruct (Del (slot_of e key) key 0) as [w s']. cbn.
      destruct (has_value _); destruct H as [H _]; [apply (co_log_writes _ _ _ _ _ _ H)|by rewrite H].
    - destruct (Del (slot_of e key) key 0) as [w s']. cbn.
      destruct (has_value _); destruct H as [H _]; [|rewrite H; lia].
      rewrite (co_seq _ _ _ _ _ _ H). pose proof (so_seq _ _ Hs). u64_lia. }
  apply String.eqb_neq in Ed.
  set (at_ := if negb (rec_written_at_us record =? 0) then rec_written_at_us record else now).
  assert (is_u64 at_) as Hat by (by unfold at_; destruct (negb _)).
  destruct (Execute_single rnd name key rest at_ e He Hat) as (r & eff & e' & E & Hwr); [done..|].
  unfold mbind, stM_bind. rewrite E. pose proof (engine_writes_step _ _ _ _ _ He Hr Hwr) as Hstep.
  destruct (is_error r); [by eexists _, e'|].
  destruct (negb _); [|by eexists _, e'].
  destruct (slots_ e !! SlotForKey key) as [s|] eqn:Es.
  2:{ by rewrite slot_of_lookup in Es by apply He. }
  destruct (ss_slot _ _ _ Hstep s Es) as (s' & Es' & Hl & Hq).
  rewrite (SlotById_run _ _ _ _ Es'). eexists _, _. split; [done|].
  destruct (SetReplicaDeadline_same s' key (rec_deadline_us record)) as [H1 H2].
  pose proof (ss_ok _ _ _ Hstep) as He'. cbn [write_slot snd].
  split.
  - apply set_slot_ok; [done|]. apply SetReplicaDeadline_ok; [|done]. by apply (eo_slots _ He').
  - cbn. rewrite length_insert. apply Hstep.
  - intros j Hj. cbn. rewrite list_lookup_insert_ne by done. by apply Hstep.
  - intros s0 Hs0. rewrite Es in Hs0. injection Hs0 as <-. eexists. split.
    + cbn. apply list_lookup_insert_eq. by eapply lookup_lt_Some.
    + rewrite H1, H2. done.
Qed.

(** Building an invariant state after slot [i] has been written. *)
Lemma slave_ok_update s i state e' :
  slave_ok s → engine_ok e' → length (slots_ e') = length (slots_ (sl_engine_ s)) →
  (∀ j, j ≠ i → slots_ e' !! j = slots_ (sl_engine_ s) !! j) →
  (∀ slot, slots_ e' !! i = Some slot → apply_state_ok state slot) →
  slave_ok (mkSlave e' (<[i := state]> (sl_slots_ s)) (sl_session_id_ s)).
Proof.
  intros [He Hc Hs] He' Hl Hj Hi. split; cbn; [done|by rewrite length_insert, Hl|].
  intros j st slot. rewrite list_lookup_insert. case_decide as Hd.
  - destruct Hd as [<- _]. intros [= <-]. apply Hi.
  - intros Hst Hslot. destruct (decide (j = i)) as [->|Hne].
    + exfalso. apply lookup_lt_Some in Hst. by apply Hd.
    + rewrite Hj in Hslot by done. by eapply Hs.
Qed.

Lemma slave_slot s i state :
  slave_ok s → sl_slots_ s !! i = Some state →
  ∃ slot, slots_ (sl_engine_ s) !! i = Some slot ∧ apply_state_ok state slot.
Proof.
  intros [He Hc Hs] Hst. destruct (lookup_lt_is_Some_2 (slots_ (sl_engine_ s)) i) as [slot Hslot].
  { rewrite <-Hc. by eapply lookup_lt_Some. }
  exists slot. split; [done|]. by eapply Hs.
Qed.

(** [state.need_snapshot = true; state.state = kOffline]. *)
Lemma slave_ok_offline s i state slot e' :
  slave_ok s → sl_slots_ s !! i = Some state →
  slots_ (sl_engine_ s) !! i = Some slot → slot_step i (sl_engine_ s) e' →
  slave_ok (mkSlave e' (<[i := mkSlotApply kOffline (sa_applied_seq state) true]> (sl_slots_ s))
              (sl_session_id_ s)).
Proof.
  intros Hok Hst Hslot Hstep. destruct (sk_slots _ Hok _ _ _ Hst Hslot) as (Hu & Hl & _).
  apply slave_ok_update; [done|apply Hstep|apply Hstep|apply Hstep|].
  intros slot' Hslot'. destruct (ss_slot _ _ _ Hstep _ Hslot) as (s' & Es & Hl' & _).
  rewrite Es in Hslot'. injection Hslot' as <-. split; [done|]. by rewrite Hl'.
Qed.

Lemma MarkReplicaAppliedSeq_ok i s seq :
  slot_ok i s → is_u64 seq → log_writes_ s = false → slot_ok i (MarkReplicaAppliedSeq s seq).
Proof.
  intros [H1 H2 H3 H4 H5 H5' H6 H7] Hu Hl.
  unfold MarkReplicaAppliedSeq. destruct (_ <=? _) eqn:E; [by split|]. bool_prop.
  specialize (H7 Hl). split; cbn; try done.
  - destruct (_ >? _) eqn:E2; bool_prop; [done|]. lia.
  - by rewrite H7.
  - lia.
Qed.

Lemma MarkReplicaAppliedSeq_seq s seq :
  slot_seq_ (MarkReplicaAppliedSeq s seq) = Z.max (slot_seq_ s) seq ∧
  log_writes_ (MarkReplicaAppliedSeq s seq) = log_writes_ s ∧
  redis_obj_map_ (MarkReplicaAppliedSeq s seq) = redis_obj_map_ s.
Proof.
  unfold MarkReplicaAppliedSeq. destruct (_ <=? _) eqn:E; bool_prop; cbn;
    split; [lia|done|lia|done].
Qed.

(** Only slot [i] of a replica has changed. *)
Record only_slot (i : nat) (sl sl' : SlaveReplicator) : Prop := {
  os_session : sl_session_id_ sl' = sl_session_id_ sl;
  os_count : length (sl_slots_ sl') = length (sl_slots_ sl);
  os_state j : j ≠ i → sl_slots_ sl' !! j = sl_slots_ sl !! j;
  os_slot j : j ≠ i → slots_ (sl_engine_ sl') !! j = slots_ (sl_engine_ sl) !! j;
}.

Lemma only_slot_refl i sl : only_slot i sl sl.
Proof. by split. Qed.

Lemma only_slot_trans i sl1 sl2 sl3 :
  only_slot i sl1 sl2 → only_slot i sl2 sl3 → only_slot i sl1 sl3.
Proof.
  intros [A1 A2 A3 A4] [B1 B2 B3 B4]. split; try congruence.
  - intros j Hj. rewrite B3 by done. by apply A3.
  - intros j Hj. rewrite B4 by done. by apply A4.
Qed.

Lemma SlotById_other {A} e i (f : HashSlot → A * HashSlot) a e' j :
  SlotById i f e = Some (a, e') → j ≠ i → slots_ e' !! j = slots_ e !! j.
Proof.
  unfold SlotById. destruct (slots_ e !! i); [|done]. destruct (f _). intros [= _ <-] Hj.
  cbn. by apply list_lookup_insert_ne.
Qed.

Lemma ApplySnapshot_only i payload base_seq s s' :
  ApplySnapshot i payload base_seq s = Some (true, s') → only_slot i s s'.
Proof.
  unfold ApplySnapshot, get_state, set_state, on_engine, mbind, stM_bind, mret, stM_ret.
  destruct (sl_slots_ s !! i) as [state|]; cbn; [|done].
  destruct (DecodeSnapshotPayload payload) as [map|]; cbn; [|done].
  destruct (snapshot_fits i map); cbn; [|done].
  destruct (InstallSlotReplicaSnapshot i map base_seq (sl_engine_ s)) as [[[] e']|] eqn:E; cbn; [|done].
  intros [= <-]. split; cbn; [done|apply length_insert|intros j Hj; by apply list_lookup_insert_ne|].
  intros j Hj. by eapply SlotById_other.
Qed.

(** The record after the applied ones fits the sequence number of its slot. *)
Lemma next_record_room s i state record slot :
  slave_ok s → sl_slots_ s !! i = Some state → sa_need_snapshot state = false →
  record_numbers record → rec_seq record = sa_applied_seq state + 1 →
  slots_ (sl_engine_ s) !! i = Some slot → slot_seq_ slot < UINT64_MAX.
Proof.
  intros Hok Hst Hneed ((_ & Hu) & _) Eq Hslot.
  destruct (sk_slots _ Hok _ _ _ Hst Hslot) as (_ & _ & Hseq). rewrite Hneed in Hseq. lia.
Qed.

(** [ApplyLog], case by case. *)
Lemma ApplyLog_run rnd i record now s state :
  slave_ok s → is_u64 now → record_numbers record → sl_slots_ s !! i = Some state →
  ∃ b s', ApplyLog rnd i record now s = Some (b, s') ∧ slave_ok s' ∧
    sl_session_id_ s' = sl_session_id_ s ∧
    if sa_need_snapshot state then b = false ∧ s' = s
    else if rec_seq record <=? sa_applied_seq state then b = true ∧ s' = s
    else if rec_seq record =? sa_applied_seq state + 1 then
      ∃ applied e', ApplyRecord rnd record now i (sl_engine_ s) = Some (applied, e') ∧
        b = applied ∧
        sl_slots_ s' = <[i := if applied then mkSlotApply kCatchingUp (rec_seq record) false
                              else mkSlotApply kOffline (sa_applied_seq state) true]> (sl_slots_ s) ∧
        (if applied
         then MarkSlotReplicaAppliedSeq i (rec_seq record) e' = Some (tt, sl_engine_ s')
         else sl_engine_ s' = e')
    else b = false ∧ sl_engine_ s' = sl_engine_ s ∧
      sl_slots_ s' = <[i := mkSlotApply kOffline (sa_applied_seq state) true]> (sl_slots_ s).
Proof.
  intros Hok Hn Hr Hst. destruct (slave_slot s i state Hok Hst) as (slot & Hslot & Hap).
  destruct Hap as (Hu & Hlw & Hns). unfold ApplyLog, get_state, mbind, stM_bind. rewrite Hst. cbn.
  destruct (sa_need_snapshot state) eqn:Eneed; [by exists false, s|].
  destruct (rec_seq record <=? sa_applied_seq state) eqn:Ele; [by exists true, s|]. bool_prop.
  assert (sa_applied_seq state +u 1 = sa_applied_seq state + 1) as ->.
  { destruct Hr as (Hrs & _). u64_lia. }
  destruct (_ =? _) eqn:Eq; bool_prop.
  2:{ cbn. eexists _, _. split; [done|]. split; [|done].
      apply (slave_ok_offline s i state slot); try done. by apply slot_step_refl, sk_engine. }
  destruct (ApplyRecord_step rnd record now i (sl_engine_ s)) as (applied & e' & E & Hstep);
    [apply Hok|done|done| |].
  { intros slot'. by apply (next_record_room s i state record). }
  unfold on_engine at 1. rewrite E. destruct applied; cbn [negb].
  2:{ cbn. eexists _, _. split; [done|]. split; [by apply (slave_ok_offline s i state slot)|].
      split; [done|]. by exists false, e'. }
  destruct (ss_slot _ _ _ Hstep _ Hslot) as (s' & Es & Hl' & Hq).
  unfold on_engine, MarkSlotReplicaAppliedSeq. cbn [sl_engine_ sl_slots_ sl_session_id_].
  rewrite (SlotById_run _ _ _ _ Es). cbn.
  eexists _, _. split; [done|]. split.
  2:{ split; [done|]. exists true, e'. rewrite (SlotById_run _ _ _ _ Es). done. }
  destruct (MarkReplicaAppliedSeq_seq s' (rec_seq record)) as (H1 & H2 & _).
  apply slave_ok_update.
  - done.
  - apply set_slot_ok; [apply Hstep|]. apply MarkReplicaAppliedSeq_ok; [|apply Hr|congruence].
    by apply (eo_slots _ (ss_ok _ _ _ Hstep)).
  - cbn. rewrite length_insert. apply Hstep.
  - intros j Hj. cbn. rewrite list_lookup_insert_ne by done. by apply Hstep.
  - intros slot'. cbn. rewrite list_lookup_insert_eq by (by eapply lookup_lt_Some).
    intros [= <-]. split; [apply Hr|]. cbn. rewrite H1, H2. split; [congruence|lia].
Qed.

Lemma ApplyLog_only rnd i record now s b s' :
  slave_ok s → is_u64 now → record_numbers record →
  (i < length (sl_slots_ s))%nat →
  ApplyLog rnd i record now s = Some (b, s') → only_slot i s s'.
Proof.
  intros Hok Hn Hr Hi E. destruct (lookup_lt_is_Some_2 _ _ Hi) as [state Hst].
  destruct (ApplyLog_run rnd i record now s state Hok Hn Hr Hst)
    as (b1 & s1 & E1 & _ & Hse & H). rewrite E in E1. injection E1 as <- <-.
  destruct (sa_need_snapshot state) eqn:Hneed; [destruct H as [_ ->]; apply only_slot_refl|].
  destruct (_ <=? _); [destruct H as [_ ->]; apply only_slot_refl|].
  destruct (_ =? _) eqn:Eq.
  - destruct H as (applied & e' & Ha & _ & Hs & He).
    destruct (ApplyRecord_step rnd record now i (sl_engine_ s) (sk_engine _ Hok) Hn Hr)
      as (b2 & e2 & Ea & Hstep); [bool_prop; intros slot; by eapply next_record_room|].
    rewrite Ha in Ea. injection Ea as <- <-.
    split; [done|by rewrite Hs, length_insert|intros j Hj; rewrite Hs; by apply list_lookup_insert_ne|].
    intros j Hj. rewrite <-(ss_other _ _ _ Hstep j Hj).
    destruct applied; [|by rewrite He]. by eapply SlotById_other.
  - destruct H as (_ & He & Hs). split; [done|by rewrite Hs, length_insert| |by rewrite He].
    intros j Hj. rewrite Hs. by apply list_lookup_insert_ne.
Qed.

Lemma snapshot_fits_spec i map :
  snapshot_fits i map = true ↔ ∀ k, is_Some (to_gmap map !! k) → SlotForKey k = i.
Proof.
  unfold snapshot_fits. rewrite forallb_forall. split.
  - intros H k [o Ho]. rewrite <-(ToString_pack k), <-to_gmap_elem in Ho.
    apply list_elem_of_In in Ho. specialize (H _ Ho). cbn in H.
    apply Nat.eqb_eq in H. by rewrite ToString_pack in H.
  - intros H [k o] Hin. apply list_elem_of_In, to_gmap_elem in Hin. apply Nat.eqb_eq, H.
    by eexists.
Qed.

Lemma install_ok s i slot map seq st :
  slave_ok s → slots_ (sl_engine_ s) !! i = Some slot → log_writes_ slot = false →
  map_Forall (λ key o, object_ok o ∧ SlotForKey key = i) (to_gmap map) → is_u64 seq →
  slave_ok (mkSlave (set_slot (sl_engine_ s) i (InstallReplicaSnapshot slot map seq))
              (<[i := mkSlotApply st seq false]> (sl_slots_ s)) (sl_session_id_ s)).
Proof.
  intros Hok Hslot Hl Hm Hu. apply slave_ok_update.
  - done.
  - apply set_slot_ok; [apply Hok|]. by apply InstallReplicaSnapshot_ok.
  - apply length_insert.
  - intros j Hj. cbn. by apply list_lookup_insert_ne.
  - intros slot'. cbn. rewrite list_lookup_insert_eq by (by eapply lookup_lt_Some).
    by intros [= <-].
Qed.

(** [ApplySnapshot]: the slot becomes the image, or goes offline. *)
Lemma ApplySnapshot_run i payload base_seq s state :
  slave_ok s → snapshot_full payload → is_u64 base_seq → sl_slots_ s !! i = Some state →
  ∃ b s', ApplySnapshot i payload base_seq s = Some (b, s') ∧ slave_ok s' ∧
    sl_session_id_ s' = sl_session_id_ s ∧
    match DecodeSnapshotPayload payload with
    | Some map =>
        if snapshot_fits i map then
          b = true ∧
          InstallSlotReplicaSnapshot i map base_seq (sl_engine_ s) = Some (tt, sl_engine_ s') ∧
          sl_slots_ s' = <[i := mkSlotApply kCatchingUp base_seq false]> (sl_slots_ s)
        else b = false ∧ sl_engine_ s' = sl_engine_ s ∧
          sl_slots_ s' = <[i := mkSlotApply kOffline (sa_applied_seq state) true]> (sl_slots_ s)
    | None => b = false ∧ sl_engine_ s' = sl_engine_ s ∧
        sl_slots_ s' = <[i := mkSlotApply kOffline (sa_applied_seq state) true]> (sl_slots_ s)
    end.
Proof.
  intros Hok Hpay Hu Hst. destruct (slave_slot s i state Hok Hst) as (slot & Hslot & Hap).
  pose proof Hap as (_ & Hl & _).
  unfold ApplySnapshot, get_state, mbind, stM_bind. rewrite Hst. cbn [fmap option_fmap option_map].
  assert (slave_ok (mkSlave (sl_engine_ s)
    (<[i := mkSlotApply kOffline (sa_applied_seq state) true]> (sl_slots_ s)) (sl_session_id_ s)))
    as Hoff by (apply (slave_ok_offline s i state slot); [done..|by apply slot_step_refl, sk_engine]).
  destruct (DecodeSnapshotPayload payload) as [map|] eqn:Ed; [|by eexists _, _].
  destruct (snapshot_fits i map) eqn:Ef; [|by eexists _, _].
  unfold on_engine, InstallSlotReplicaSnapshot. rewrite (SlotById_run _ _ _ _ Hslot). cbn.
  eexists _, _. split; [done|]. split; [|done].
  apply install_ok; try done. apply map_Forall_lookup_2. intros k o Ho.
  split; [by eapply snapshot_full_ok|]. apply snapshot_fits_spec with (k := k) in Ef; [done|by eexists].
Qed.

(** [BEGIN] with a reset empties every slot. *)
Lemma reset_slot_run i s :
  slave_ok s → (i < length (sl_slots_ s))%nat →
  ∃ s' slot, reset_slot tt i s = Some (tt, s') ∧ slave_ok s' ∧
    slots_ (sl_engine_ s) !! i = Some slot ∧
    s' = mkSlave (set_slot (sl_engine_ s) i (InstallReplicaSnapshot slot map_new 0))
           (<[i := SlotApplyState_default]> (sl_slots_ s)) (sl_session_id_ s).
Proof.
  intros Hok Hi. destruct (lookup_lt_is_Some_2 _ _ Hi) as [state Hst].
  destruct (slave_slot s i state Hok Hst) as (slot & Hslot & Hap). pose proof Hap as (_ & Hl & _).
  unfold reset_slot, mbind, stM_bind, set_state, on_engine, InstallSlotReplicaSnapshot.
  cbn [sl_engine_ sl_slots_ sl_session_id_]. rewrite (SlotById_run _ _ _ _ Hslot). cbn.
  eexists _, slot. split; [reflexivity|]. split; [|done].
  apply install_ok; try done. rewrite to_gmap_new. apply map_Forall_empty.
Qed.

Definition emptied (s : HashSlot) : Prop := slot_map s = ∅ ∧ slot_seq_ s = 0.

Lemma reset_loop_run l s :
  slave_ok s → Forall (λ i, (i < length (sl_slots_ s))%nat) l →
  ∃ s', foldM reset_slot tt l s = Some (tt, s') ∧ slave_ok s' ∧
    sl_session_id_ s' = sl_session_id_ s ∧ length (sl_slots_ s') = length (sl_slots_ s) ∧
    (∀ i, i ∈ l → sl_slots_ s' !! i = Some SlotApplyState_default ∧
       ∃ slot, slots_ (sl_engine_ s') !! i = Some slot ∧ emptied slot) ∧
    (∀ i, i ∉ l → sl_slots_ s' !! i = sl_slots_ s !! i ∧
       slots_ (sl_engine_ s') !! i = slots_ (sl_engine_ s) !! i).
Proof.
  revert s. induction l as [|i l IH]; intros s Hok Hl.
  { exists s. split; [done|]. do 3 (split; [done|]).
    split; [intros i Hi; by apply not_elem_of_nil in Hi|done]. }
  apply Forall_cons in Hl as [Hi Hl].
  destruct (reset_slot_run i s Hok Hi) as (s1 & slot & E & Hok1 & Hslot & Es1).
  assert (length (sl_slots_ s1) = length (sl_slots_ s)) as Hlen.
  { rewrite Es1. apply length_insert. }
  destruct (IH s1 Hok1) as (s' & E' & Hok' & Hse & Hlen' & Hin & Hout).
  { eapply Forall_impl; [exact Hl|]. cbn. intros j. by rewrite Hlen. }
  exists s'. cbn [foldM]. unfold mbind, stM_bind. rewrite E. split; [done|].
  split; [done|]. split; [by rewrite Hse, Es1|]. split; [congruence|]. split.
  - intros j Hj. destruct (decide (j ∈ l)) as [Hjl|Hjl]; [by apply Hin|].
    assert (j = i) as -> by set_solver. destruct (Hout i Hjl) as [-> ->]. rewrite Es1. cbn.
    rewrite list_lookup_insert_eq by done. split; [done|].
    rewrite list_lookup_insert_eq by (by eapply lookup_lt_Some).
    eexists. split; [done|]. split; [|done]. unfold slot_map. cbn. by rewrite to_gmap_new, fmap_empty.
  - intros j Hj. destruct (Hout j) as [-> ->]; [set_solver|]. rewrite Es1. cbn.
    rewrite !list_lookup_insert_ne by set_solver. done.
Qed.

Lemma reset_slots_run s :
  slave_ok s →
  ∃ s', reset_slots s = Some (tt, s') ∧ slave_ok s' ∧ sl_session_id_ s' = sl_session_id_ s ∧
    Forall (λ state, state = SlotApplyState_default) (sl_slots_ s') ∧
    Forall emptied (slots_ (sl_engine_ s')).
Proof.
  intros Hok. destruct (reset_loop_run (seq 0 (length (sl_slots_ s))) s Hok)
    as (s' & E & Hok' & Hse & Hlen & Hin & _).
  { apply Forall_forall. intros i Hi%elem_of_seq. lia. }
  exists s'. split; [done|]. split; [done|]. split; [done|]. split.
  - apply Forall_lookup_2. intros i state Hi. destruct (Hin i) as [Hi' _].
    { apply elem_of_seq. apply lookup_lt_Some in Hi. lia. }
    rewrite Hi in Hi'. by injection Hi'.
  - apply Forall_lookup_2. intros i slot Hi. destruct (Hin i) as (_ & slot' & Hi' & He).
    { apply elem_of_seq. apply lookup_lt_Some in Hi. rewrite <-(sk_count _ Hok') in Hi. lia. }
    rewrite Hi in Hi'. by simplify_eq.
Qed.

(** [DONE] only moves slots between catching up and online, and puts online
    only a slot that has applied the position it names. *)
Lemma done_slots_spec positions slots :
  Forall (λ '(slot, _), 0 <= slot) positions →
  let slots' := (done_slots positions slots).2 in
  length slots' = length slots ∧
  ∀ i state', slots' !! i = Some state' → ∃ state, slots !! i = Some state ∧
    sa_applied_seq state' = sa_applied_seq state ∧
    sa_need_snapshot state' = sa_need_snapshot state ∧
    (sa_need_snapshot state = true → state' = state) ∧
    (sa_state state' = kOnline → sa_state state ≠ kOnline →
     ∃ position, (Z.of_nat i, position) ∈ positions ∧ position <= sa_applied_seq state ∧
       sa_need_snapshot state = false).
Proof.
  intros Hpos. revert slots.
  induction Hpos as [|[slot position] positions Hslot Hpos IH]; intros slots; cbn.
  { split; [done|]. intros i state' Hi. by exists state'. }
  destruct (slot >=? Z.of_nat (length slots)) eqn:E; cbn.
  { split; [done|]. intros i state' Hi. by exists state'. }
  destruct (IH (alter (λ state, done_state state position) (Z.to_nat slot) slots)) as [Hl Hs].
  rewrite length_alter in Hl. split; [done|]. intros i state' Hi.
  destruct (Hs i state' Hi) as (mid & Hmid & Ha & Hn & Hsame & Hon).
  destruct (decide (Z.to_nat slot = i)) as [Hx|Hx].
  2:{ rewrite list_lookup_alter_ne in Hmid by done. exists mid. do 4 (split; [done|]).
      intros H1 H2. destruct (Hon H1 H2) as (p & Hp & H3). exists p. split; [by right|done]. }
  rewrite Hx, list_lookup_alter_eq in Hmid.
  destruct (slots !! i) as [state|] eqn:Est; [|done]. injection Hmid as <-.
  exists state. unfold done_state in *. destruct (sa_need_snapshot state) eqn:En.
  - rewrite En in Hn, Hsame. do 4 (split; [done|]). intros H1 H2. destruct (Hon H1 H2) as (p & Hp & H3 & H4).
    congruence.
  - cbn in Ha, Hn, Hon. do 4 (split; [done|]). intros H1 H2.
    destruct (sa_applied_seq state >=? position) eqn:Ep.
    + exists position. split; [|rewrite Z.geb_leb in Ep; apply Z.leb_le in Ep; done].
      assert (Z.of_nat i = slot) as -> by lia. by left.
    + destruct (Hon H1) as (p & Hp & H3); [done|]. exists p. split; [by right|done].
Qed.

Lemma done_slots_ok s positions :
  slave_ok s → Forall (λ '(slot, _), 0 <= slot) positions →
  slave_ok (mkSlave (sl_engine_ s) (done_slots positions (sl_slots_ s)).2 (sl_session_id_ s)).
Proof.
  intros Hok Hpos. destruct (done_slots_spec positions (sl_slots_ s) Hpos) as [Hl Hs].
  split; cbn; [apply Hok|rewrite Hl; apply Hok|].
  intros i state' slot Hi Hslot. destruct (Hs i state' Hi) as (state & Hst & Ha & Hn & Hsame & _).
  destruct (sk_slots _ Hok _ _ _ Hst Hslot) as (Hu & Hlw & Hc). unfold apply_state_ok.
  rewrite Ha, Hn. do 2 (split; [done|]).
  destruct (sa_need_snapshot state) eqn:E; [|done]. by rewrite Hsame.
Qed.

(** Frames as they arrive: decoded, so well-formed; a snapshot frame brings
    no empty collection. *)
Record frame_valid (f : Frame) : Prop := {
  fv_ok : frame_ok f;
  fv_snapshot : fr_subcmd f = kSnapshot → snapshot_full (fr_snapshot_payload f);
}.

Lemma EnqueueFrame_ok rnd f now s :
  slave_ok s → is_u64 now → frame_valid f →
  ∃ b s', EnqueueFrame rnd f now s = Some (b, s') ∧ slave_ok s'.
Proof.
  intros Hok Hn [Hf Hsnap]. unfold EnqueueFrame.
  case_decide as Hb.
  { destruct (_ || _); [by exists false, s|]. unfold mbind, stM_bind.
    destruct (fr_reset f).
    - destruct (reset_slots_run s Hok) as (s' & -> & Hok' & _). cbn.
      eexists _, _. split; [done|]. by destruct Hok'.
    - cbn. eexists _, _. split; [done|]. by destruct Hok. }
  destruct (_ || _); [by exists false, s|].
  case_decide as Hd.
  { pose proof (done_slots_ok s (fr_slot_positions f) Hok) as H.
    destruct (done_slots _ _) as [b slots]. eexists _, _. split; [done|]. apply H.
    destruct Hf as [? ? ? [Hp _]| | | |? ? [Hp _]]; try done;
      (eapply Forall_impl; [exact Hp|]; by intros [? ?] [[? _] _]). }
  destruct (_ >=? _) eqn:Ege; [by exists false, s|]. rewrite Z.geb_leb in Ege. bool_prop.
  destruct (lookup_lt_is_Some_2 (sl_slots_ s) (Z.to_nat (fr_slot_id f))) as [state Hst].
  { destruct Hf as [| | | |]; cbn in *; try done; unfold is_u64 in *; lia. }
  destruct Hf as [id session slots Hp|session slot seq payload Hs Hq|session slot record Hs Hr
       |session reset Hne|session slots Hp]; cbn in *; try (by exists false, s).
  - destruct (ApplySnapshot_run _ payload seq s state Hok (Hsnap eq_refl) Hq Hst)
      as (b & s' & E & Hok' & _). by exists b, s'.
  - destruct (ApplyLog_run rnd _ record now s state Hok Hn (proj1 Hr) Hst)
      as (b & s' & E & Hok' & _). by exists b, s'.
Qed.

(** A frame of another session changes nothing. *)
Lemma EnqueueFrame_foreign rnd f now s :
  fr_subcmd f ≠ kBegin → fr_session_id f ≠ sl_session_id_ s →
  EnqueueFrame rnd f now s = Some (false, s).
Proof.
  intros Hb Hs. unfold EnqueueFrame. rewrite decide_False by done.
  rewrite (proj2 (String.eqb_neq _ (sl_session_id_ s))) by done. by rewrite orb_true_r.
Qed.

(** Reads are served from online slots only, and a slot comes online only by
    a [DONE] that names a position the slot has reached. *)
Lemma EnqueueFrame_online rnd f now s b s' i :
  slave_ok s → is_u64 now → frame_valid f →
  EnqueueFrame rnd f now s = Some (b, s') →
  CanReadSlot s' i = true → CanReadSlot s i = false →
  ∃ state position, sl_slots_ s !! i = Some state ∧ sa_need_snapshot state = false ∧
    fr_subcmd f = kDone ∧ (Z.of_nat i, position) ∈ fr_slot_positions f ∧
    position <= sa_applied_seq state.
Proof.
  intros Hok Hn [Hf Hsnap] E Hon Hoff. unfold CanReadSlot in Hon, Hoff.
  destruct (sl_slots_ s' !! i) as [state'|] eqn:Hi; [|done]. bool_prop.
  assert (∀ j st, sl_slots_ s' = <[j := st]> (sl_slots_ s) → sa_state st ≠ kOnline → False) as Hins.
  { intros j st Es Hst. rewrite Es, list_lookup_insert in Hi. case_decide as Hd.
    - injection Hi as <-. done.
    - rewrite Hi in Hoff. by bool_prop. }
  assert (sl_slots_ s' = sl_slots_ s → False) as Hsame.
  { intros Es. rewrite Es in Hi. rewrite Hi in Hoff. by bool_prop. }
  unfold EnqueueFrame in E. case_decide as Hb.
  { exfalso. destruct (_ || _); [injection E as <- <-; by apply Hsame|].
    unfold mbind, stM_bind in E. destruct (fr_reset f).
    - destruct (reset_slots_run s Hok) as (s1 & E1 & _ & _ & Hall & _). rewrite E1 in E. cbn in E.
      injection E as <- <-. cbn in Hi. rewrite Forall_lookup in Hall. by rewrite (Hall _ _ Hi) in Hon.
    - cbn in E. injection E as <- <-. by apply Hsame. }
  destruct (_ || _); [injection E as <- <-; by destruct Hsame|].
  case_decide as Hd.
  { assert (Forall (λ '(slot, _), 0 <= slot) (fr_slot_positions f)) as Hpos.
    { destruct Hf as [? ? ? [Hp _]| | | |? ? [Hp _]]; try done;
        (eapply Forall_impl; [exact Hp|]; by intros [? ?] [[? _] _]). }
    destruct (done_slots_spec _ (sl_slots_ s) Hpos) as [_ Hs].
    destruct (done_slots _ _) as [b' slots]. injection E as <- <-. cbn in Hi, Hs.
    destruct (Hs i state' Hi) as (state & Hst & _ & _ & _ & Honline).
    rewrite Hst in Hoff. bool_prop. destruct (Honline Hon Hoff) as (p & Hp & Hle & Hneed).
    by exists state, p. }
  exfalso. destruct (_ >=? _) eqn:Ege; [injection E as <- <-; by apply Hsame|].
  rewrite Z.geb_leb in Ege. bool_prop.
  destruct (lookup_lt_is_Some_2 (sl_slots_ s) (Z.to_nat (fr_slot_id f))) as [state Hst].
  { destruct Hf as [| | | |]; cbn in *; try done; unfold is_u64 in *; lia. }
  destruct Hf as [id session slots Hp|session slot seq payload Hs Hq|session slot record Hs Hr
       |session reset Hne|session slots Hp]; cbn in *;
    try (injection E as <- <-; by apply Hsame).
  - destruct (ApplySnapshot_run _ payload seq s state Hok (Hsnap eq_refl) Hq Hst)
      as (b1 & s1 & E1 & _ & _ & H). rewrite E1 in E. injection E as <- <-.
    destruct (DecodeSnapshotPayload payload) as [map|].
    + destruct (snapshot_fits _ map); destruct H as (_ & _ & Es); by eapply Hins.
    + destruct H as (_ & _ & Es). by eapply Hins.
  - destruct (ApplyLog_run rnd _ record now s state Hok Hn (proj1 Hr) Hst)
      as (b1 & s1 & E1 & _ & _ & H). rewrite E1 in E. injection E as <- <-.
    destruct (sa_need_snapshot state); [destruct H as [_ ->]; by apply Hsame|].
    destruct (_ <=? _); [destruct H as [_ ->]; by apply Hsame|].
    destruct (_ =? _).
    + destruct H as (applied & e' & _ & _ & Es & _). eapply Hins; [exact Es|]. by destruct applied.
    + destruct H as (_ & _ & Es). by eapply Hins.
Qed.

(** A read leaves the replica as it is, and its reply depends on the online
    slots only. *)
Lemma ExecuteRead_local rnd args now_us enabled s1 s2 :
  slave_ok s1 → slave_ok s2 → is_u64 now_us →
  sl_slots_ s1 = sl_slots_ s2 →
  agree (λ i, CanReadSlot s1 i = true) (sl_engine_ s1) (sl_engine_ s2) →
  ∃ r, ExecuteRead rnd args now_us enabled s1 = Some (r, s1) ∧
       ExecuteRead rnd args now_us enabled s2 = Some (r, s2).
Proof.
  intros H1 H2 Hn Hsl Hag. unfold ExecuteRead.
  destruct (match args with [] => _ | _ => _ end); [by eexists|].
  destruct (negb enabled); [by eexists|].
  assert (CanReadSlot s2 = CanReadSlot s1) as Hc by (unfold CanReadSlot; by rewrite Hsl).
  destruct (ExecuteReadOnly_total rnd args now_us (CanReadSlot s1) _ (sk_engine _ H1) Hn) as (r1 & E1).
  destruct (ExecuteReadOnly_total rnd args now_us (CanReadSlot s1) _ (sk_engine _ H2) Hn) as (r2 & E2).
  pose proof (local_agree _ _ (ExecuteReadOnly_local rnd args now_us (CanReadSlot s1)) _ _ Hag) as Hr.
  rewrite E1, E2 in Hr. injection Hr as ->.
  exists r2. unfold on_engine. rewrite Hc, E1, E2. by destruct s1, s2.
Qed.

(** *** The first state *)

Lemma new_replica_slot i s :
  slots_ (sl_engine_ (SlaveReplicator_new CacheEngine_new)) !! i = Some s →
  s = SetLogWrites HashSlot_new false.
Proof.
  unfold SlaveReplicator_new, DisableBinlog. cbn [sl_engine_ slots_]. rewrite list_lookup_fmap.
  intros (t & Ht & ->)%fmap_Some. by rewrite (new_engine_slot i t Ht).
Qed.

Lemma new_replica_ok : slave_ok (SlaveReplicator_new CacheEngine_new).
Proof.
  split.
  - split.
    + split. unfold SlaveReplicator_new, DisableBinlog. cbn [sl_engine_ slots_].
      rewrite length_fmap. apply CacheEngine_new_ok.
    + intros i s ->%new_replica_slot. apply SetLogWrites_ok, HashSlot_new_ok.
  - unfold SlaveReplicator_new, DisableBinlog, SlotCount. cbn [sl_engine_ sl_slots_ slots_].
    by rewrite length_fmap, length_replicate.
  - intros i state slot Hst ->%new_replica_slot. unfold SlaveReplicator_new in Hst.
    cbn [sl_slots_] in Hst. apply lookup_replicate_Some in Hst as [-> _]. split; [by vm_compute|done].
Qed.
End slave.
