(* ===== verification/Convergence.v ===== *)
(** * The log brings a replica to the primary's state

    Between hash_slot.cpp (which logs), master_replicator.cpp (which ships)
    and slave_replicator.cpp (which replays) stands one contract: a slot of a
    replica that agrees with a slot of the primary at some sequence number
    agrees with it again after applying the records that follow.

    - [primary_run] is the contract of the primary: a run of committed writes
      whose log entries replay to the same effect. Client commands, deletions
      and the expiry sweeper produce such runs.
    - [in_sync] relates a replica's slot to a primary's slot. Snapshots
      establish it and log records preserve it. *)

From S2P Require Import Prelude Text Containers Double RedisObject Binlog HashSlot Engine Response Command KeyCmd Dispatcher Replay Resp ReplFrame SnapshotCodec Slave.

Section convergence.
Context {IC : ImmutableContainer}.

(** ** The primary *)

(** The log entry of a write, executed on an equal entry, does the same. *)
Record faithful_event (m : gmap string aobj) (ev : write_event) : Prop := {
  fe_time : 0 < we_now ev <= UINT64_MAX;
  fe_replays :
    (we_args ev = ["DEL"; we_key ev] ∧ we_entry ev = None) ∨
    replays (we_now ev) (we_key ev) (live m (we_now ev) (we_key ev))
      (abs_object <$> we_entry ev) (we_args ev);
  fe_entry : opt_ok (we_entry ev);
}.

(** Anything that is known of all the states the slots of a primary go
    through. What is proved of a run holds for whatever is known of its
    states. *)
Class History := genuine : nat → HashSlot → Prop.
Definition any_history : History := λ _ _, True.

(** A run of slot [i]. *)
Inductive primary_run {HI : History} (i : nat) : HashSlot → list write_event → HashSlot → Prop :=
  | run_nil s : genuine i s → primary_run i s [] s
  | run_cons s ev s1 evs s2 :
      genuine i s → SlotForKey (we_key ev) = i →
      faithful_event (slot_map s) ev → commits_event s ev s1 → primary_run i s1 evs s2 →
      primary_run i s (ev :: evs) s2
  | run_ack s seq evs s2 :
      genuine i s → primary_run i (AckLogsThrough s seq) evs s2 → primary_run i s evs s2.

Section runs.
Context {HI : History}.

Lemma run_start i s evs s' : primary_run i s evs s' → genuine i s.
Proof. by destruct 1. Qed.
Lemma run_end i s evs s' : primary_run i s evs s' → genuine i s'.
Proof. by induction 1. Qed.
Lemma run_keys i s evs s' : primary_run i s evs s' → Forall (λ ev, SlotForKey (we_key ev) = i) evs.
Proof. by induction 1; repeat constructor. Qed.
End runs.

(** The records a run appends to the log. *)
Fixpoint run_records (seq : Z) (evs : list write_event) : list BinlogRecord :=
  match evs with
  | [] => []
  | ev :: evs' =>
      mkBinlogRecord (seq + 1) (we_args ev) (we_now ev)
        (match we_entry ev with Some o => deadline_us_ o | None => 0 end) ::
      run_records (seq + 1) evs'
  end.

Lemma run_records_length seq evs : length (run_records seq evs) = length evs.
Proof. revert seq. induction evs as [|ev evs IH]; intros seq; cbn; [done|]. by rewrite IH. Qed.

Lemma primary_run_app {HI : History} i s es1 s1 es2 s2 :
  primary_run i s es1 s1 → primary_run i s1 es2 s2 → primary_run i s (es1 ++ es2) s2.
Proof. induction 1; cbn; [done| |]; intros; econstructor; eauto. Qed.

(** The log of the end is a suffix of the log of the beginning and the
    records of the run: what is missing has been acknowledged. *)
Lemma primary_run_log {HI : History} i s evs s' :
  primary_run i s evs s' → log_writes_ s = true → is_u64 (slot_seq_ s) →
  BinlogBuffer.bytes_ok (binlog_buffer_ s) →
  slot_seq_ s + Z.of_nat (length evs) <= UINT64_MAX →
  slot_seq_ s' = slot_seq_ s + Z.of_nat (length evs) ∧
  ∃ dropped,
    BinlogBuffer.records_ (binlog_buffer_ s) ++ run_records (slot_seq_ s) evs =
    dropped ++ BinlogBuffer.records_ (binlog_buffer_ s').
Proof.
  induction 1 as [s _|s ev s1 evs s2 _ _ Hf Hc Hr IH|s seq evs s2 _ Hr IH]; intros Hl Hu Hb Hroom.
  - cbn. split; [lia|]. exists []. by rewrite app_nil_r.
  - pose proof (co_seq _ _ _ _ _ _ Hc) as Hseq. pose proof (co_log _ _ _ _ _ _ Hc) as Hlog.
    rewrite Hl in Hlog. cbn [length] in Hroom.
    assert (slot_seq_ s1 = slot_seq_ s + 1) as E by (rewrite Hseq; u64_lia).
    destruct IH as [IH1 (d & IH2)]; [by rewrite (co_log_writes _ _ _ _ _ _ Hc)|u64_lia| |u64_lia|].
    { rewrite Hlog. by apply BinlogBuffer.Append_ok. }
    cbn [length]. split; [lia|]. exists d. rewrite <-IH2, Hlog, E.
    cbn. by rewrite <-app_assoc.
  - destruct (BinlogBuffer.AckThrough_spec (binlog_buffer_ s) seq Hb) as (d & Hd & _ & _ & _ & Hb').
    destruct (IH Hl Hu Hb' Hroom) as [IH1 (d' & IH2)]. split; [done|].
    exists (d ++ d'). rewrite Hd, <-!app_assoc. f_equal. exact IH2.
Qed.

Context {CL : ContainerLaws IC}.

Lemma faithful_committed_ok i s ev s1 :
  slot_ok i s → slot_seq_ s + 1 <= UINT64_MAX → SlotForKey (we_key ev) = i →
  faithful_event (slot_map s) ev → commits_event s ev s1 → slot_ok i s1.
Proof.
  intros Hok Hroom Hk Hf Hc. eapply committed_ok; [exact Hok|lia|exact Hc|exact Hk| |apply Hf].
  destruct (fe_replays _ _ Hf) as [[-> _]|(_ & cmd & rest & r & -> & _)]; done.
Qed.

(** ** The replica *)

(** The record of an event, as the primary logs it. *)
Definition event_record (seq : Z) (ev : write_event) : BinlogRecord :=
  mkBinlogRecord seq (we_args ev) (we_now ev)
    (match we_entry ev with Some o => deadline_us_ o | None => 0 end).

Lemma committed_slot_map s ev s1 :
  commits_event s ev s1 →
  slot_map s1 = partial_alter (λ _, abs_object <$> we_entry ev) (we_key ev) (slot_map s).
Proof. apply committed_map. Qed.

Lemma partial_alter_const {V} (m m' : gmap string V) key (o : option V) :
  m = m' → partial_alter (λ _, o) key m = partial_alter (λ _, o) key m'.
Proof. by intros ->. Qed.

(** Deleting at time 0 deletes whatever is stored: no deadline has passed. *)
Lemma Del_zero i s key :
  slot_ok i s → slot_map (Del s key 0).2 = partial_alter (λ _, None) key (slot_map s).
Proof.
  intros Hok. pose proof (Del_spec s key 0) as H. destruct (Del s key 0) as [w s']. cbn.
  destruct (Get s key 0) as [o|] eqn:Eg; cbn in H.
  - destruct H as [H _]. by apply committed_map in H.
  - destruct H as [-> _]. apply map_eq. intros k. rewrite lookup_partial_alter.
    case_decide as Hk; [subst k|done]. unfold slot_map. rewrite lookup_fmap.
    destruct (to_gmap (redis_obj_map_ s) !! key) as [o|] eqn:Eo; [exfalso|done].
    destruct (keys_in_slot _ _ _ _ Hok Eo) as [_ Ho].
    assert (Get s key 0 = Some o) as Hg; [|congruence].
    apply Get_Some. split; [done|]. pose proof (ok_deadline _ Ho). unfold IsExpired, is_u64 in *. lia.
Qed.

(** Writing the deadline an entry already has changes nothing. *)
Lemma SetReplicaDeadline_same_map s key d :
  (∀ a, slot_map s !! key = Some a → a_deadline a = d) →
  slot_map (SetReplicaDeadline s key d) = slot_map s.
Proof.
  intros Hd. unfold SetReplicaDeadline. rewrite slot_map_lookup in Hd.
  destruct (map_Find _ _) as [o|] eqn:Ef; [|done]. specialize (Hd _ eq_refl).
  unfold slot_map. cbn. rewrite to_gmap_Set, ToString_pack, fmap_insert, abs_WithDeadline.
  apply map_eq. intros k. rewrite lookup_insert. case_decide as Hk; [subst k|done].
  rewrite lookup_fmap, to_gmap_lookup, Ef. cbn. by rewrite <-Hd.
Qed.

Lemma ApplyRecord_event rnd ev seq now i e slot p p1 :
  engine_ok e → slots_ e !! i = Some slot → SlotForKey (we_key ev) = i →
  slot_map slot = slot_map p → faithful_event (slot_map p) ev → commits_event p ev p1 →
  ∃ e' slot', ApplyRecord rnd (event_record seq ev) now i e = Some (true, e') ∧
    slots_ e' !! i = Some slot' ∧ slot_map slot' = slot_map p1.
Proof.
  intros He Hslot Hk Hm [Ht Hrep Ho] Hc%committed_slot_map.
  assert (slot_of e (we_key ev) = slot) as Hso.
  { pose proof (slot_of_lookup e (we_key ev) (eo_wf _ He)) as E. rewrite Hk, Hslot in E.
    by injection E. }
  rewrite Hc, <-Hm. unfold ApplyRecord. cbn [event_record rec_args rec_written_at_us rec_deadline_us].
  destruct Hrep as [[Ha He0]|Hrep].
  - rewrite Ha, He0, Hk, Nat.eqb_refl. change (IsWriteCommand "DEL") with true.
    change (String.eqb (ToUpperAscii "DEL") "DEL") with true. cbn [negb orb].
    unfold mbind, stM_bind, engine_Del. rewrite Hk, (SlotById_run _ _ _ _ Hslot).
    eexists _, _. split; [done|]. split.
    + cbn. apply list_lookup_insert_eq. by eapply lookup_lt_Some.
    + eapply Del_zero. by apply (eo_slots _ He).
  - assert (is_u64 (we_now ev)) as Hu by (unfold is_u64; lia).
    pose proof Hrep as ((cmd & c & Hh & Hup & Hd & Hcmd & Hw & _) & cmd' & rest & r0 & Ha & _).
    assert (replays (we_now ev) (we_key ev) (engine_live e (we_now ev) (we_key ev))
              (abs_object <$> we_entry ev) (we_args ev)) as Hrep'.
    { unfold engine_live. by rewrite Hso, Hm. }
    destruct (Execute_replays rnd (we_now ev) (we_key ev) _ _ e He Hu Hrep')
      as (r & e' & E & Hr & Hwr).
    rewrite Ha in Hh. cbn in Hh. injection Hh as ->. rewrite Ha in E |- *.
    rewrite Hk, Nat.eqb_refl. unfold IsWriteCommand. rewrite Hup, Hcmd, Hw. cbn [negb orb].
    rewrite (proj2 (String.eqb_neq _ _)) by done.
    rewrite (proj2 (Z.eqb_neq (we_now ev) 0)) by lia. cbn [negb].
    unfold mbind, stM_bind. rewrite E, Hr.
    destruct Hwr as (o & s' & Hoe & _ & _ & Hcs & ->). rewrite Hso in Hcs. rewrite Hk.
    rewrite (SlotById_run _ i s').
    2:{ cbn. apply list_lookup_insert_eq. by eapply lookup_lt_Some. }
    eexists _, _. split; [done|]. split.
    + cbn. apply list_lookup_insert_eq. rewrite length_insert. by eapply lookup_lt_Some.
    + apply committed_map in Hcs. cbn [write_slot snd].
      rewrite SetReplicaDeadline_same_map; [by rewrite Hcs, Hoe|].
      intros a. rewrite Hcs, lookup_partial_alter_eq, Hoe.
      destruct (we_entry ev) as [o'|]; [|done]. cbn. by intros [= <-].
Qed.

(** ** Synchronised slots *)

Context {RL : RespLib}.

(** Slot [i] of the replica has what slot [p] of the primary has, and says
    so. *)
Definition in_sync (i : nat) (sl : SlaveReplicator) (p : HashSlot) : Prop :=
  ∃ state slot, sl_slots_ sl !! i = Some state ∧ slots_ (sl_engine_ sl) !! i = Some slot ∧
    sa_need_snapshot state = false ∧ sa_applied_seq state = slot_seq_ p ∧
    slot_map slot = slot_map p.

Lemma event_record_numbers seq m ev :
  is_u64 seq → faithful_event m ev → record_numbers (event_record seq ev).
Proof.
  intros Hs [Ht _ Ho]. repeat split; cbn; try apply Hs; unfold is_u64; try lia.
  - destruct (we_entry ev) as [o|]; [|lia]. by destruct (ok_deadline _ (Ho o eq_refl)).
  - destruct (we_entry ev) as [o|]; [|done]. by destruct (ok_deadline _ (Ho o eq_refl)).
Qed.

(** The next record of the log is applied, and keeps the slots in sync. *)
Lemma ApplyLog_sync rnd i now sl ev p p1 :
  slave_ok sl → slot_seq_ p < UINT64_MAX → is_u64 now → in_sync i sl p →
  SlotForKey (we_key ev) = i → faithful_event (slot_map p) ev → commits_event p ev p1 →
  ∃ sl', ApplyLog rnd i (event_record (slot_seq_ p +u 1) ev) now sl = Some (true, sl') ∧
    slave_ok sl' ∧ in_sync i sl' p1 ∧ only_slot i sl sl'.
Proof.
  intros Hok Hp Hn (state & slot & Hst & Hslot & Hneed & Happ & Hmap) Hk Hf Hc.
  destruct (sk_slots _ Hok _ _ _ Hst Hslot) as (Hu & Hlw & Hseq). rewrite Hneed in Hseq.
  assert (slot_seq_ p +u 1 = slot_seq_ p + 1) as Eseq by (rewrite <-Happ in *; u64_lia).
  rewrite Eseq.
  assert (record_numbers (event_record (slot_seq_ p + 1) ev)) as Hr.
  { eapply event_record_numbers; [|exact Hf]. rewrite <-Happ in *. unfold is_u64 in *. lia. }
  destruct (ApplyRecord_event rnd ev (slot_seq_ p + 1) now i (sl_engine_ sl) slot p p1
    (sk_engine _ Hok) Hslot Hk Hmap Hf Hc) as (e' & slot' & E & Hslot' & Hmap').
  destruct (ApplyLog_run rnd i _ now sl state Hok Hn Hr Hst)
    as (b & sl' & El & Hok' & _ & H).
  rewrite Hneed in H. cbn [rec_seq event_record] in H.
  rewrite (proj2 (Z.leb_gt _ _)) in H by lia. rewrite (proj2 (Z.eqb_eq _ _)) in H by lia.
  destruct H as (applied & e1 & E1 & -> & Hsl & Heng).
  rewrite E in E1. injection E1 as <- <-.
  unfold MarkSlotReplicaAppliedSeq in Heng. rewrite (SlotById_run _ _ _ _ Hslot') in Heng.
  cbn in Heng. injection Heng as Heng.
  pose proof (MarkReplicaAppliedSeq_seq slot' (slot_seq_ p + 1)) as (Hm1 & Hm2 & Hm3).
  exists sl'. split; [done|]. split; [done|]. split.
  - eexists _, _. rewrite Hsl, <-Heng. cbn. split.
    { apply list_lookup_insert_eq. by eapply lookup_lt_Some. }
    split; [apply list_lookup_insert_eq; by eapply lookup_lt_Some|].
    split; [done|]. split.
    + cbn. rewrite (co_seq _ _ _ _ _ _ Hc). done.
    + unfold slot_map at 1. rewrite Hm3. exact Hmap'.
  - eapply ApplyLog_only; [exact Hok|exact Hn|exact Hr|by eapply lookup_lt_Some|exact El].
Qed.

(** Applying records one after another. *)
Definition ApplyLogs (rnd : nat → nat) (i : nat) (now : Z) (records : list BinlogRecord)
    : slaveM bool :=
  foldM (λ ok record, b ← ApplyLog rnd i record now; mret (ok && b)) true records.

Lemma run_records_event seq ev evs :
  run_records seq (ev :: evs) = event_record (seq + 1) ev :: run_records (seq + 1) evs.
Proof. reflexivity. Qed.

(** A replica in sync at one point of a primary's run, given the records of
    the rest of the run, is in sync at its end. *)
Lemma ApplyLogs_sync {HI : History} rnd i now sl p evs p' :
  slave_ok sl → slot_seq_ p + Z.of_nat (length evs) <= UINT64_MAX → is_u64 now →
  in_sync i sl p → primary_run i p evs p' →
  ∃ sl', ApplyLogs rnd i now (run_records (slot_seq_ p) evs) sl = Some (true, sl') ∧
    slave_ok sl' ∧ in_sync i sl' p' ∧ only_slot i sl sl'.
Proof.
  intros Hok Hroom Hn Hs Hrun. revert sl Hok Hroom Hs.
  induction Hrun as [p _|p ev p1 evs p2 _ Hk Hf Hc Hrun IH|p seq evs p2 _ Hrun IH];
    intros sl Hok Hroom Hs; [by exists sl; split_and!; [..|apply only_slot_refl]| |by apply (IH sl)].
  cbn [length] in Hroom. rewrite Nat2Z.inj_succ in Hroom.
  destruct (ApplyLog_sync rnd i now sl ev p p1 Hok ltac:(lia) Hn Hs Hk Hf Hc)
    as (sl1 & E & Hok1 & Hs1 & Ho1).
  assert (slot_seq_ p +u 1 = slot_seq_ p + 1) as Eseq.
  { destruct Hs as (state & slot & Hst & Hslot & Hneed & Happ & _).
    destruct (sk_slots _ Hok _ _ _ Hst Hslot) as (Hu & _ & Hseq). rewrite Hneed in Hseq.
    u64_lia. }
  rewrite Eseq in E. rewrite run_records_event.
  destruct (IH sl1 Hok1 ltac:(rewrite (co_seq _ _ _ _ _ _ Hc), Eseq; lia) Hs1)
    as (sl2 & E2 & Hok2 & Hs2 & Ho2).
  rewrite (co_seq _ _ _ _ _ _ Hc), Eseq in E2.
  exists sl2. split; [|by split_and!; [..|eapply only_slot_trans]]. unfold ApplyLogs in *. cbn [foldM].
  unfold mbind, stM_bind in *. rewrite E. exact E2.
Qed.

(** A snapshot of a slot puts the replica in sync with it. *)
Lemma ApplySnapshot_sync {RW : RespLaws RL} i sl p :
  slave_ok sl → slot_ok i p → (i < length (sl_slots_ sl))%nat →
  map_Forall (λ _ o, faithful o) (to_gmap (redis_obj_map_ p)) →
  Z.of_nat (length (snapshot_texts (redis_obj_map_ p))) <= kMaxSnapshotElements →
  ∃ payload sl', EncodeSnapshotPayload (snap_map (Snapshot p)) = Some payload ∧
    ApplySnapshot i payload (snap_published_seq (Snapshot p)) sl = Some (true, sl') ∧
    slave_ok sl' ∧ in_sync i sl' p ∧ only_slot i sl sl'.
Proof.
  intros Hok Hp Hi Hfa Hn. destruct (lookup_lt_is_Some_2 _ _ Hi) as [state Hst].
  destruct (Snapshot_roundtrip (redis_obj_map_ p)) as (payload & map & He & Hd & Habs); [|done|].
  { intros k o Ho. destruct (keys_in_slot _ _ _ _ Hp Ho). split; [done|]. by apply (Hfa k). }
  exists payload.
  assert (map_Forall (λ k o, object_ok o ∧ SlotForKey k = i) (to_gmap map)) as Hok'.
  { intros k o Ho. assert ((abs_object <$> to_gmap map) !! k = Some (abs_object o)) as E
      by (by rewrite lookup_fmap, Ho). rewrite Habs, lookup_fmap in E.
    destruct (to_gmap (redis_obj_map_ p) !! k) as [o2|] eqn:Eo; [|done]. cbn in E.
    destruct (keys_in_slot _ _ _ _ Hp Eo) as [Hks [_ _ Hv2]]. split; [|done].
    injection E as _ Ev. apply (DecodeSnapshotPayload_decoded payload map Hd k o Ho).
    rewrite <-Ev. by apply aval_ok_full. }
  assert (snapshot_full payload) as Hso.
  { intros map' Hd'. rewrite Hd in Hd'. injection Hd' as <-.
    eapply map_Forall_impl; [exact Hok'|]. intros k o [[_ _ Hv] _]. by apply aval_ok_full. }
  assert (is_u64 (published_seq_ p)) as Hu by (rewrite (so_published _ _ Hp); apply Hp).
  destruct (ApplySnapshot_run i payload (published_seq_ p) sl state Hok Hso Hu Hst)
    as (b & sl' & E & Hok2 & _ & H).
  rewrite Hd in H. rewrite (proj2 (snapshot_fits_spec i map)) in H.
  2:{ intros k [o Ho]. by apply (Hok' k) in Ho as [_ ?]. }
  destruct H as (-> & Heng & Hsl). destruct (slave_slot sl i state Hok Hst) as (slot & Hslot & _).
  unfold InstallSlotReplicaSnapshot in Heng. rewrite (SlotById_run _ _ _ _ Hslot) in Heng.
  injection Heng as Heng. exists sl'. split; [done|]. split; [done|]. split; [done|].
  split; [|by eapply ApplySnapshot_only].
  eexists _, _. rewrite Hsl, <-Heng. cbn. split; [by apply list_lookup_insert_eq|].
  split; [apply list_lookup_insert_eq; by eapply lookup_lt_Some|].
  split; [done|]. split; [cbn; apply (so_published _ _ Hp)|]. exact Habs.
Qed.
End convergence.
