(* ===== verification/Interference.v ===== *)
(** * What other threads do to the primary's cache

    Worker threads execute commands and the background thread deletes expired
    keys while the primary answers a poll. The cache takes the lock of one
    slot per operation, so what happens between two reads of a slot is a
    sequence of events, each one operation under such a lock: a write command
    other than DEL, one key of a DEL, or one key of a sweep (the sweep finds
    its keys first and looks at each again under the lock). A command line
    and a sweep are sequences of events. Each event is at most one commit. *)

From S2P Require Import Prelude Text Containers Double RedisObject Binlog HashSlot Engine Sweeper Response Command KeyCmd Dispatcher Replay Resp ReplFrame SnapshotCodec Slave Convergence.

Section interference.
Context {IC : ImmutableContainer}.

Inductive engine_event : CacheEngine → CacheEngine → Prop :=
  | event_command rnd args now_us e r e' :
      ToUpperAscii (default "" (head args)) ≠ "DEL" →
      engine_room e (Z.of_nat (length args)) → 0 < now_us <= UINT64_MAX →
      Execute rnd args now_us e = Some (r, e') → engine_event e e'
  | event_del key now_us e w e' :
      engine_room e 1 → 0 < now_us <= UINT64_MAX →
      engine_Del key now_us e = Some (w, e') → engine_event e e'
  | event_expire i key now_us deleted e deleted' e' :
      engine_room e 1 → 0 < now_us <= UINT64_MAX →
      SlotById i (λ s, DeleteExpired_step now_us (deleted, s) key) e = Some (deleted', e') →
      engine_event e e'.

(** Events, with the states they lead to. *)
Inductive engine_events : CacheEngine → list CacheEngine → CacheEngine → Prop :=
  | events_nil e : engine_events e [] e
  | events_cons e e1 l e' :
      engine_event e e1 → engine_events e1 l e' → engine_events e (e1 :: l) e'.

Lemma events_app e l1 e1 l2 e2 :
  engine_events e l1 e1 → engine_events e1 l2 e2 → engine_events e (l1 ++ l2) e2.
Proof. induction 1; cbn; [done|]. intros. econstructor; eauto. Qed.

Lemma events_one e e' : engine_event e e' → engine_events e [e'] e'.
Proof. intros. econstructor; [done|constructor]. Qed.

(** ** Commits *)

Inductive engine_commit : CacheEngine → CacheEngine → Prop :=
  | commit_none e : engine_commit e e
  | commit_one e i s ev s' :
      slots_ e !! i = Some s → SlotForKey (we_key ev) = i → slot_seq_ s + 1 <= UINT64_MAX →
      faithful_event (slot_map s) ev → commits_event s ev s' → engine_commit e (set_slot e i s').

Context {CL : ContainerLaws IC}.

Lemma engine_commit_ok e e' : engine_ok e → engine_commit e e' → engine_ok e'.
Proof.
  intros He Hc. destruct Hc as [e|e i s ev s' Hs Hk Hroom Hf Hc]; [done|].
  apply set_slot_ok; [done|]. eapply faithful_committed_ok; [by apply He|done..].
Qed.

Lemma engine_commit_length e e' : engine_commit e e' → length (slots_ e') = length (slots_ e).
Proof. destruct 1; [done|]. apply length_insert. Qed.

(** A write command commits at most once. *)
Lemma engine_writes_commit e key now_us eff e' :
  engine_ok e → engine_room e 1 → 0 < now_us <= UINT64_MAX → engine_writes e key now_us eff e' →
  (∀ entry args, eff = Write entry args →
     (args = ["DEL"; key] ∧ entry = None) ∨
     replays now_us key (engine_live e now_us key) entry args) →
  engine_commit e e'.
Proof.
  intros He Hroom Hn Hw Hrep. destruct eff as [|entry args]; [rewrite Hw; apply commit_none|].
  destruct Hw as (o & s' & <- & Ho & _ & Hc & ->). specialize (Hrep _ _ eq_refl).
  pose proof (slot_of_lookup e key (eo_wf _ He)) as Hs.
  apply (commit_one e _ (slot_of e key) (mkWrite key o args now_us)); try done; [by eapply Hroom|].
  split; [done| |done]. cbn. destruct Hrep as [[-> Ho']|Hrep]; [left|by right]. by destruct o.
Qed.

Lemma Del_commit key now_us e w e' :
  engine_ok e → engine_room e 1 → 0 < now_us <= UINT64_MAX →
  engine_Del key now_us e = Some (w, e') → engine_commit e e'.
Proof.
  intros He Hr Hn E. destruct (engine_Del_spec key now_us e He) as (w1 & e1 & E1 & _ & Hw).
  rewrite E in E1. injection E1 as <- <-. eapply engine_writes_commit; [done..|exact Hw|].
  intros entry args. destruct (has_value _); [|done]. intros [= <- <-]. by left.
Qed.

(** Arity checks look at the number of arguments only. *)
Lemma CheckArity_length cmd entry name name' args :
  commands_ !! cmd = Some entry →
  CheckArity (ce_cmd entry) (name :: args) = None → CheckArity (ce_cmd entry) (name' :: args) = None.
Proof.
  intros Hc. apply commands_lookup in Hc. unfold command_list in Hc.
  repeat (rewrite elem_of_cons in Hc; destruct Hc as [Hc|Hc]; [injection Hc as _ ->; exact id|]).
  by apply not_elem_of_nil in Hc.
Qed.

(** A command line other than DEL commits at most once. *)
Lemma Execute_commit rnd args now_us e r e' :
  ToUpperAscii (default "" (head args)) ≠ "DEL" →
  engine_ok e → engine_room e (Z.of_nat (length args)) → 0 < now_us <= UINT64_MAX →
  Execute rnd args now_us e = Some (r, e') → engine_commit e e'.
Proof.
  intros Hd He Hr Hn E. assert (is_u64 now_us) as Hu by (unfold is_u64; lia).
  destruct (Execute_cases rnd args now_us e r e' He Hu Hr E)
    as [->|[(name & keys & -> & Hname & _)|(name & key & rest & c & eff & -> & Hc & Hw & _ & Ha & Hrel & Hwr)]];
    [apply commit_none|by cbn in Hd|]. cbn [head default] in Hd.
  assert (engine_room e 1) as Hr1 by (eapply engine_room_le; [|exact Hr]; cbn [length]; lia).
  eapply engine_writes_commit; [done..|exact Hwr|].
  intros en largs ->. eapply write_rel_replays; [exact Hc|done|done| |exact Hrel].
  by eapply CheckArity_length.
Qed.

Lemma expire_commit i key now_us deleted e deleted' e' :
  engine_ok e → engine_room e 1 → 0 < now_us <= UINT64_MAX →
  SlotById i (λ s, DeleteExpired_step now_us (deleted, s) key) e = Some (deleted', e') →
  engine_commit e e'.
Proof.
  intros He Hr Hn. unfold SlotById. destruct (slots_ e !! i) as [s|] eqn:Hs; [|done].
  assert (mkEngine (<[i := s]> (slots_ e)) = e) as Hsame
    by (destruct e; cbn in *; by rewrite list_insert_id).
  unfold DeleteExpired_step. destruct (map_Find _ _) as [found|] eqn:Ef;
    [|intros [= _ <-]; rewrite Hsame; apply commit_none].
  destruct (IsExpired found now_us); cbn [negb]; [|intros [= _ <-]; rewrite Hsame; apply commit_none].
  destruct (map_Erase _ _) as [m'|] eqn:Em; [|intros [= _ <-]; rewrite Hsame; apply commit_none].
  intros [= _ <-].
  assert (SlotForKey key = i) as Hk.
  { rewrite <-to_gmap_lookup in Ef. by destruct (keys_in_slot _ _ _ _ (eo_slots _ He _ _ Hs) Ef). }
  apply (commit_one e i s (expiry_event now_us key)); [done|done|by eapply Hr| |].
  - split; [done|by left|done].
  - by apply erase_write_committed.
Qed.

Lemma engine_event_commit e e' : engine_ok e → engine_event e e' → engine_commit e e'.
Proof.
  intros He Hev. destruct Hev as [rnd args now_us e r e'|key now_us e w e'|i key now_us d e d' e'].
  - by eapply Execute_commit.
  - by eapply Del_commit.
  - by eapply expire_commit.
Qed.

Lemma engine_events_ok e l e' : engine_ok e → engine_events e l e' → engine_ok e'.
Proof.
  intros He H. induction H as [e|e e1 l e' Hev _ IH]; [done|].
  apply IH. by eapply engine_commit_ok, engine_event_commit.
Qed.

(** ** Command lines and sweeps are sequences of events *)

Lemma engine_Del_room key now_us e w e' n :
  engine_ok e → 0 <= n → engine_room e (n + 1) →
  engine_Del key now_us e = Some (w, e') → engine_room e' n.
Proof.
  intros He Hn Hr E. destruct (engine_Del_spec key now_us e He) as (w1 & e1 & E1 & _ & Hw).
  rewrite E in E1. injection E1 as <- <-. by eapply engine_writes_room.
Qed.

Lemma del_loop_events keys now_us e n n' e' :
  engine_ok e → engine_room e (Z.of_nat (length keys)) → 0 < now_us <= UINT64_MAX →
  foldM (del_loop now_us) n keys e = Some (n', e') → ∃ l, engine_events e l e'.
Proof.
  revert n e. induction keys as [|key keys IH]; intros n e He Hr Hn E.
  { injection E as _ <-. exists []. constructor. }
  cbn [length] in Hr. rewrite Nat2Z.inj_succ, <-Z.add_1_r in Hr.
  assert (engine_room e 1) as Hr1 by (eapply engine_room_le; [|exact Hr]; lia).
  destruct (engine_Del_spec key now_us e He) as (w & e1 & E1 & _ & Hw).
  cbn in E. unfold mbind at 1, stM_bind at 1, del_loop at 1, mbind, stM_bind in E.
  rewrite E1 in E. apply IH in E as [l Hl]; [..|done].
  - exists (e1 :: l). econstructor; [by eapply event_del|done].
  - by eapply engine_commit_ok, Del_commit.
  - eapply engine_Del_room; [done|lia|exact Hr|exact E1].
Qed.

(** Whatever a client sends. *)
Lemma Execute_events rnd args now_us e r e' :
  engine_ok e → engine_room e (Z.of_nat (length args)) → 0 < now_us <= UINT64_MAX →
  Execute rnd args now_us e = Some (r, e') → ∃ l, engine_events e l e'.
Proof.
  intros He Hr Hn E. destruct (decide (ToUpperAscii (default "" (head args)) = "DEL")) as [Hd|Hd].
  2:{ exists [e']. apply events_one. by eapply event_command. }
  destruct args as [|name args]; [done|]. cbn [head default] in Hd. unfold id in Hd.
  cbn [Execute] in E. rewrite Hd in E.
  change (commands_ !! "DEL") with (Some (mkEntry DelCmd true false)) in E. cbn [ce_cmd] in E.
  destruct (CheckArity DelCmd (name :: args)); [injection E as _ <-; exists []; constructor|].
  cbn [ExecCmd DelCmd drop] in E. unfold mbind, stM_bind in E.
  destruct (foldM (del_loop now_us) 0 (drop 0 args) e) as [[n' e1]|] eqn:E1; [|done].
  injection E as _ <-. rewrite drop_0 in E1. eapply del_loop_events; [done| |done|exact E1].
  eapply engine_room_le; [|exact Hr]. cbn [length]. lia.
Qed.

Lemma engine_commit_room e e' n :
  engine_ok e → engine_commit e e' → 0 <= n → engine_room e (n + 1) → engine_room e' n.
Proof.
  intros He Hc Hn Hr. destruct Hc as [e|e i s ev s' Hs Hk Hroom Hf Hc].
  { eapply engine_room_le; [|exact Hr]. lia. }
  intros j t. cbn. rewrite list_lookup_insert. case_decide as Hd; [|intros Hj; specialize (Hr j t Hj); lia].
  destruct Hd as [<- _]. intros [= <-]. pose proof (so_seq _ _ (eo_slots _ He _ _ Hs)).
  specialize (Hr i s Hs). rewrite (co_seq _ _ _ _ _ _ Hc). u64_lia.
Qed.

(** The loop of [DeleteExpired], with the lock taken anew for every key. *)
Lemma expire_events keys i now_us d s e :
  engine_ok e → engine_room e (Z.of_nat (length keys)) → 0 < now_us <= UINT64_MAX →
  slots_ e !! i = Some s →
  let e' := set_slot e i (foldl (DeleteExpired_step now_us) (d, s) keys).2 in
  (∃ l, engine_events e l e') ∧ engine_ok e' ∧
  ∀ n, 0 <= n → engine_room e (n + Z.of_nat (length keys)) → engine_room e' n.
Proof.
  revert d s e. induction keys as [|key keys IH]; intros d s e He Hr Hn Hs.
  { cbn. assert (set_slot e i s = e) as ->.
    { unfold set_slot. destruct e; cbn in *. by rewrite list_insert_id. }
    split; [exists []; constructor|]. split; [done|]. intros n _. by rewrite Z.add_0_r. }
  cbn [foldl]. cbn [length] in Hr |- *. rewrite Nat2Z.inj_succ, <-Z.add_1_r in Hr |- *.
  destruct (DeleteExpired_step now_us (d, s) key) as [d1 s1] eqn:E.
  assert (engine_room e 1) as Hr1 by (eapply engine_room_le; [|exact Hr]; lia).
  assert (SlotById i (λ s, DeleteExpired_step now_us (d, s) key) e = Some (d1, set_slot e i s1)) as Estep.
  { unfold SlotById. by rewrite Hs, E. }
  assert (engine_event e (set_slot e i s1)) as Hev by (by eapply event_expire).
  pose proof (engine_event_commit _ _ He Hev) as Hc.
  destruct (IH d1 s1 (set_slot e i s1)) as ([l Hl] & Hok & Hroom).
  - by eapply engine_commit_ok.
  - by eapply engine_commit_room; [exact He| |lia|].
  - done.
  - cbn. apply list_lookup_insert_eq. by eapply lookup_lt_Some.
  - assert (∀ t, set_slot (set_slot e i s1) i t = set_slot e i t) as Hset.
    { intros t. unfold set_slot. cbn. by rewrite list_insert_insert_eq. }
    rewrite Hset in *. split; [exists (set_slot e i s1 :: l); by econstructor|].
    split; [done|]. intros n Hn0 Hr'. apply Hroom; [done|].
    eapply engine_commit_room; [exact He|done|lia|]. eapply engine_room_le; [|exact Hr']. lia.
Qed.

Lemma DeleteExpired_events i max_keys now_us e d e' :
  engine_ok e → engine_room e (Z.of_nat max_keys) → 0 < now_us <= UINT64_MAX →
  DeleteExpiredInSlot i max_keys now_us e = Some (d, e') →
  (∃ l, engine_events e l e') ∧ engine_ok e' ∧
  ∀ n, 0 <= n → engine_room e (n + Z.of_nat max_keys) → engine_room e' n.
Proof.
  intros He Hr Hn. unfold DeleteExpiredInSlot, SlotById. destruct (slots_ e !! i) as [s|] eqn:Hs; [|done].
  assert (∃ keys, (length keys <= max_keys)%nat ∧
    (DeleteExpired s max_keys now_us).2 = (foldl (DeleteExpired_step now_us) (0%nat, s) keys).2) as (keys & Hl & E).
  { unfold DeleteExpired. destruct (max_keys =? 0)%nat; [exists []; cbn; split; [lia|done]|].
    eexists. split; [|reflexivity]. apply expired_keys_spec. }
  destruct (DeleteExpired s max_keys now_us) as [d1 s1]. cbn [snd] in E. intros [= _ <-]. subst s1.
  destruct (expire_events keys i now_us 0%nat s e) as (H1 & H2 & H3); [done| |done|done|].
  { eapply engine_room_le; [|exact Hr]. lia. }
  split; [done|]. split; [done|]. intros n Hn0 Hr'. apply H3; [done|].
  eapply engine_room_le; [|exact Hr']. lia.
Qed.

Lemma sweep_loop_events n count now_us next d e r e' :
  engine_ok e → engine_room e (Z.of_nat (n * ExpireSweeper.kMaxExpiredKeysPerSlot)) →
  0 < now_us <= UINT64_MAX →
  ExpireSweeper.sweep_loop n count now_us next d e = Some (r, e') → ∃ l, engine_events e l e'.
Proof.
  revert next d e. induction n as [|n IH]; intros next d e He Hr Hn E.
  { injection E as _ <-. exists []. constructor. }
  cbn [ExpireSweeper.sweep_loop] in E. unfold mbind, stM_bind in E.
  destruct (DeleteExpiredInSlot _ _ _ e) as [[d1 e1]|] eqn:E1; [|done].
  set (max := ExpireSweeper.kMaxExpiredKeysPerSlot) in *.
  destruct (DeleteExpired_events next max now_us e d1 e1) as ([l1 H1] & He1 & Hr1); [done| |done|done|].
  { eapply engine_room_le; [|exact Hr]. lia. }
  apply IH in E as [l2 H2]; [|done| |done].
  - exists (l1 ++ l2). by eapply events_app.
  - apply Hr1; [lia|]. eapply engine_room_le; [|exact Hr]. lia.
Qed.

(** A sweep of the background thread. *)
Lemma SweepOnce_events sweeper now_us e r e' :
  engine_ok e → 0 < now_us <= UINT64_MAX →
  engine_room e (Z.of_nat (ExpireSweeper.slots_per_tick_ sweeper * ExpireSweeper.kMaxExpiredKeysPerSlot)) →
  ExpireSweeper.SweepOnce sweeper now_us e = Some (r, e') → ∃ l, engine_events e l e'.
Proof.
  intros He Hn Hr. unfold ExpireSweeper.SweepOnce.
  destruct (_ || _); [intros [= _ <-]; exists []; constructor|].
  destruct (ExpireSweeper.sweep_loop _ _ _ _ _ e) as [[[d next] e1]|] eqn:E; [|done].
  intros [= _ <-]. by eapply sweep_loop_events.
Qed.

(** ** Events are runs *)

Section runs.
Context {HI : History}.

Definition recorded (e : CacheEngine) : Prop := ∀ i s, slots_ e !! i = Some s → genuine i s.

(** Slot by slot, [e'] follows from [e] by a run. *)
Definition engine_run (e e' : CacheEngine) : Prop :=
  length (slots_ e') = length (slots_ e) ∧
  ∀ i s, slots_ e !! i = Some s →
    ∃ s' evs, slots_ e' !! i = Some s' ∧ primary_run i s evs s' ∧
      slot_seq_ s' = slot_seq_ s + Z.of_nat (length evs).

Lemma engine_run_refl e : recorded e → engine_run e e.
Proof.
  intros He. split; [done|]. intros i s Hs. exists s, []. split; [done|].
  split; [by apply run_nil, He|]. cbn. lia.
Qed.

Lemma engine_run_trans e1 e2 e3 : engine_run e1 e2 → engine_run e2 e3 → engine_run e1 e3.
Proof.
  intros [Hl1 H1] [Hl2 H2]. split; [congruence|]. intros i s Hs.
  destruct (H1 i s Hs) as (s1 & es1 & Hs1 & Hr1 & Hq1).
  destruct (H2 i s1 Hs1) as (s2 & es2 & Hs2 & Hr2 & Hq2).
  exists s2, (es1 ++ es2). split; [done|]. split; [by eapply primary_run_app|].
  rewrite length_app. lia.
Qed.

Lemma engine_commit_run e e' :
  engine_ok e → recorded e → recorded e' → engine_commit e e' → engine_run e e'.
Proof.
  intros He Hg Hg' Hc. destruct Hc as [e|e i s ev s' Hs Hk Hroom Hf Hc]; [by apply engine_run_refl|].
  split; [apply length_insert|]. intros j t Ht. destruct (decide (i = j)) as [<-|Hne].
  - assert (t = s) as -> by congruence.
    assert (slots_ (set_slot e i s') !! i = Some s') as Hs'
      by (cbn; apply list_lookup_insert_eq; by eapply lookup_lt_Some).
    exists s', [ev]. split; [done|]. split.
    + eapply run_cons; [by apply Hg|done..|]. by apply run_nil, Hg'.
    + pose proof (so_seq _ _ (eo_slots _ He _ _ Hs)). rewrite (co_seq _ _ _ _ _ _ Hc). cbn. u64_lia.
  - exists t, []. split; [cbn; by rewrite list_lookup_insert_ne|].
    split; [by apply run_nil, Hg|]. cbn. lia.
Qed.

Lemma engine_events_run e l e' :
  engine_ok e → recorded e → Forall recorded l → engine_events e l e' → engine_run e e'.
Proof.
  intros He Hg Hl H. revert He Hg Hl. induction H as [e|e e1 l e' Hev Hevs IH]; intros He Hg Hl.
  { by apply engine_run_refl. }
  apply Forall_cons in Hl as [Hg1 Hl]. pose proof (engine_event_commit _ _ He Hev) as Hc.
  eapply engine_run_trans; [by apply engine_commit_run|].
  apply IH; [by eapply engine_commit_ok|done|done].
Qed.
End runs.

(** Whatever a client sends, the primary's slots move by runs. *)
Lemma Execute_run rnd args now_us e r e' :
  engine_ok e → engine_room e (Z.of_nat (length args)) → 0 < now_us <= UINT64_MAX →
  Execute rnd args now_us e = Some (r, e') → engine_run (HI := any_history) e e'.
Proof.
  intros He Hr Hn E. destruct (Execute_events _ _ _ _ _ _ He Hr Hn E) as [l Hl].
  eapply engine_events_run; [done|done| |exact Hl]. apply Forall_forall. done.
Qed.
End interference.
