(* ===== verification/Master.v ===== *)
(** * MasterReplicator: src/repl/master_replicator

    The primary's side of replication: a session per replica with, per slot,
    what the replica has acknowledged and what has been sent, and the building
    of batches from snapshots and retained log records.

    A poll runs under the replicator's mutex but takes the lock of a slot
    anew for every read, and commands write between the reads. [view slot k]
    is the slot as the [k]-th read of it finds it:
    0 the published sequence taken as target, 1 and 2 the bounds of the log,
    3 the published sequence of [HasBacklog], 4 the image or the records that
    are sent. Maintenance is modelled without such interference.

    The object is built with an engine ([main.cpp]); the tests for a null
    engine are not part of the model. *)

From S2P Require Import Prelude Text Containers Double RedisObject Binlog HashSlot Engine Resp ReplFrame SnapshotCodec.

Definition kMaxBatchPayloadBytes : Z := 16 * 1024 * 1024.
Definition kLogsPerSlot : nat := 128.

Record ReplicaSlotState := mkReplicaSlot {
  rs_acked_seq : Z;
  rs_sent_seq : Z;
  rs_need_snapshot : bool;
}.
Definition ReplicaSlotState_default : ReplicaSlotState := mkReplicaSlot 0 0 false.

Record ReplicaSession := mkReplica {
  rp_replica_id : string;
  rp_session_id : string;
  rp_slots : list ReplicaSlotState;
  rp_next_slot : nat;
  rp_reset : bool;
}.

Record MasterReplicator := mkMaster {
  ms_epoch_ : string;
  ms_replicas_ : list ReplicaSession;
  ms_next_session_seq_ : Z;
  ms_budget_ : Z;
}.

(** The two numbers are drawn from [std::random_device]. *)
Definition MasterReplicator_new (random1 random2 : Z) : MasterReplicator :=
  mkMaster (to_string random1 +:+ "-" +:+ to_string random2) [] 1 UINT64_MAX.

Definition SetGlobalBinlogBudget (m : MasterReplicator) (bytes : Z) : MasterReplicator :=
  mkMaster (ms_epoch_ m) (ms_replicas_ m) (ms_next_session_seq_ m) bytes.

Definition NewSessionId (m : MasterReplicator) (replica_id : string) : string * MasterReplicator :=
  (ms_epoch_ m +:+ "-" +:+ replica_id +:+ "-" +:+ to_string (ms_next_session_seq_ m),
   mkMaster (ms_epoch_ m) (ms_replicas_ m) (ms_next_session_seq_ m +u 1) (ms_budget_ m)).

(** The index of the session of a replica. *)
Definition FindReplica (m : MasterReplicator) (replica_id : string) : option nat :=
  fst <$> list_find (λ r, rp_replica_id r = replica_id) (ms_replicas_ m).

Definition set_replica (m : MasterReplicator) (i : nat) (r : ReplicaSession) : MasterReplicator :=
  mkMaster (ms_epoch_ m) (<[i := r]> (ms_replicas_ m)) (ms_next_session_seq_ m) (ms_budget_ m).

Section master.
Context {IC : ImmutableContainer} {RL : RespLib}.

Definition slot_view : Type := nat → HashSlot.

(** ** Sessions *)

Definition HasBacklog (v : slot_view) (seq : Z) : bool :=
  let min_seq := MinRetainedLogSeq (v 1%nat) in
  let max_seq := MaxRetainedLogSeq (v 2%nat) in
  if seq =? 0 then true
  else if (min_seq =? 0) && (max_seq =? 0) then seq >? snap_published_seq (Snapshot (v 3%nat))
  else (seq >=? min_seq) && (seq <=? max_seq +u 1).

(** What a position in a HELLO makes of the state of its slot. *)
Definition hello_slot (v : slot_view) (reset : bool) (position : Z) : ReplicaSlotState :=
  let acked := if reset then 0 else position in
  let published := snap_published_seq (Snapshot (v 0%nat)) in
  if acked >? published then mkReplicaSlot 0 0 true
  else mkReplicaSlot acked acked (negb (HasBacklog v (acked +u 1))).

Definition hello_positions (view : nat → slot_view) (reset : bool) (positions : list (Z * Z))
    (slots : list ReplicaSlotState) : list ReplicaSlotState :=
  foldl (λ slots '(slot, position),
           if slot >=? Z.of_nat (length slots) then slots
           else <[Z.to_nat slot := hello_slot (view (Z.to_nat slot)) reset position]> slots)
    slots positions.

(** [OnHelloUnlocked]; [None] when the frame is not a HELLO. The result is
    the index of the session. *)
Definition OnHelloUnlocked (view : nat → slot_view) (slot_count : nat) (m : MasterReplicator)
    (hello : Frame) : option (nat * MasterReplicator) :=
  if negb (bool_decide (fr_subcmd hello = kHello)) then None
  else
    let id := fr_replica_id hello in
    let '(i, m1) :=
      match FindReplica m id with
      | Some i => (i, m)
      | None =>
          (length (ms_replicas_ m),
           mkMaster (ms_epoch_ m)
             (ms_replicas_ m ++
                [mkReplica id "" (replicate slot_count ReplicaSlotState_default) 0 false])
             (ms_next_session_seq_ m) (ms_budget_ m))
      end in
    r ← ms_replicas_ m1 !! i;
    let reset := String.eqb (rp_session_id r) "" ||
                 negb (String.eqb (fr_session_id hello) (rp_session_id r)) in
    let '(session, m2) := if reset then NewSessionId m1 id else (rp_session_id r, m1) in
    let slots := hello_positions view reset (fr_slot_positions hello) (rp_slots r) in
    Some (i, set_replica m2 i (mkReplica id session slots (rp_next_slot r) reset)).

(** ** Batches *)

Definition BuildSnapshotFrame (session : string) (v : slot_view) (slot_id : nat)
    : option Frame :=
  let snapshot := Snapshot (v 4%nat) in
  payload ← EncodeSnapshotPayload (snap_map snapshot);
  Some (Frame_Snapshot session (Z.of_nat slot_id) (snap_published_seq snapshot) payload).

(** The variables of the loop of [BuildFrames]. *)
Record build := mkBuild {
  bd_frames : list Frame;
  bd_payload_bytes : Z;
  bd_full : bool;
  bd_next_slot : nat;
}.

Definition fits (b : build) (bytes : Z) : bool :=
  (length (bd_frames b) =? 0)%nat ||
  ((bd_payload_bytes b <? kMaxBatchPayloadBytes) &&
   (bytes <=? kMaxBatchPayloadBytes - bd_payload_bytes b)).

Definition push (b : build) (bytes : Z) (frame : Frame) : build :=
  mkBuild (bd_frames b ++ [frame]) (bd_payload_bytes b + bytes) (bd_full b) (bd_next_slot b).
Definition set_full (b : build) (next_slot : nat) : build :=
  mkBuild (bd_frames b) (bd_payload_bytes b) true next_slot.

(** The loop over the copied log records. *)
Fixpoint send_logs (session : string) (slot_id : nat) (target : Z) (logs : list BinlogRecord)
    (state : ReplicaSlotState) (b : build) : ReplicaSlotState * build :=
  match logs with
  | [] => (state, b)
  | log :: rest =>
      if rec_seq log >? target then (state, b)
      else if negb (rec_seq log =? rs_sent_seq state +u 1) then
        (mkReplicaSlot (rs_acked_seq state) (rs_sent_seq state) true, b)
      else
        let bytes := EstimateBinlogRecordBytes log in
        if negb (fits b bytes) then (state, set_full b slot_id)
        else
          send_logs session slot_id target rest
            (mkReplicaSlot (rs_acked_seq state) (rec_seq log) (rs_need_snapshot state))
            (push b bytes (Frame_Log session (Z.of_nat slot_id) log))
  end.

(** What the loop body does with a slot while the batch is open: the state
    of the slot, the target, and the batch. *)
Definition serve_slot (v : slot_view) (session : string) (max_frames slot_id : nat)
    (state : ReplicaSlotState) (b : build) : option (ReplicaSlotState * Z * build) :=
  let target := snap_published_seq (Snapshot (v 0%nat)) in
  if rs_need_snapshot state || negb (HasBacklog v (rs_sent_seq state +u 1)) then
    frame ← BuildSnapshotFrame session v slot_id;
    let bytes := size_of (fr_snapshot_payload frame) in
    if negb (fits b bytes) then Some (state, target, set_full b slot_id)
    else
      Some (mkReplicaSlot (rs_acked_seq state) (fr_base_seq frame) false,
            fr_base_seq frame, push b bytes frame)
  else
    let logs := CopyLogsAfter (v 4%nat) (rs_sent_seq state)
                  (Nat.min kLogsPerSlot (max_frames - length (bd_frames b)))
                  (kMaxBatchPayloadBytes - bd_payload_bytes b) in
    let '(state', b') := send_logs session slot_id target logs state b in
    Some (state', target, b').

(** One iteration of [BuildFrames]. *)
Definition build_slot (view : nat → slot_view) (session : string) (max_frames : nat)
    (slot_id : nat) (acc : list ReplicaSlotState * build * list (Z * Z))
    : option (list ReplicaSlotState * build * list (Z * Z)) :=
  let '(slots, b, completed) := acc in
  state ← slots !! slot_id;
  '(state', target, b1) ←
    (if negb (bd_full b) && (length (bd_frames b) <? max_frames)%nat
     then serve_slot (view slot_id) session max_frames slot_id state b
     else Some (state, snap_published_seq (Snapshot (view slot_id 0%nat)), b));
  let b2 :=
    if negb (bd_full b1) && ((max_frames <=? length (bd_frames b1))%nat ||
                             (bd_payload_bytes b1 >=? kMaxBatchPayloadBytes))
    then set_full b1 ((slot_id + 1) mod length slots)%nat else b1 in
  Some (<[slot_id := state']> slots, b2,
        if negb (rs_need_snapshot state')
        then completed ++ [(Z.of_nat slot_id, target)] else completed).

Fixpoint build_loop (view : nat → slot_view) (session : string) (max_frames : nat)
    (slot_ids : list nat) (acc : list ReplicaSlotState * build * list (Z * Z))
    : option (list ReplicaSlotState * build * list (Z * Z)) :=
  match slot_ids with
  | [] => Some acc
  | slot_id :: rest =>
      acc' ← build_slot view session max_frames slot_id acc;
      build_loop view session max_frames rest acc'
  end.

Definition BuildFrames (view : nat → slot_view) (r : ReplicaSession) (max_frames : nat)
    : option (list Frame * list (Z * Z) * ReplicaSession) :=
  let count := length (rp_slots r) in
  let slot_ids := (λ i, (rp_next_slot r + i) mod count)%nat <$> seq 0 count in
  '(slots, b, completed) ←
    build_loop view (rp_session_id r) max_frames slot_ids
      (rp_slots r, mkBuild [] 0 false (rp_next_slot r), []);
  Some (bd_frames b, completed,
        mkReplica (rp_replica_id r) (rp_session_id r) slots (bd_next_slot b) (rp_reset r)).

(** [Poll]: [hello_view] are the reads of [OnHelloUnlocked], [view] the later
    ones of [BuildFrames]. *)
Definition Poll (hello_view view : nat → slot_view) (slot_count : nat) (m : MasterReplicator)
    (hello : Frame) (max_frames : nat) : option (list Frame * MasterReplicator) :=
  if negb (bool_decide (fr_subcmd hello = kHello)) ||
     negb (fr_proto_version hello =? kProtocolVersion) || String.eqb (fr_replica_id hello) ""
  then Some ([], m)
  else
    '(i, m1) ← OnHelloUnlocked hello_view slot_count m hello;
    r ← ms_replicas_ m1 !! i;
    '(frames, completed, r') ← BuildFrames view r max_frames;
    Some (Frame_Begin (rp_session_id r) (rp_reset r) :: frames ++
            [Frame_Done (rp_session_id r) completed],
          set_replica m1 i r').

(** ** Maintenance *)

(** [replica.slots[slot_id]] of every session. *)
Definition min_acked (m : MasterReplicator) (slot_id : nat) : option Z :=
  foldl (λ min_ack r,
           a ← min_ack; state ← rp_slots r !! slot_id; Some (Z.min a (rs_acked_seq state)))
    (Some UINT64_MAX) (ms_replicas_ m).

Definition collect_slot (m : MasterReplicator) (_ : unit) (slot_id : nat) : engineM unit :=
  min_ack ← liftM (min_acked m slot_id);
  if negb (min_ack =? UINT64_MAX)
  then SlotById slot_id (write_slot (λ s, AckLogsThrough s min_ack)) else mret tt.

Definition CollectGarbage (m : MasterReplicator) : engineM unit := λ e,
  match ms_replicas_ m with
  | [] => Some (tt, e)
  | _ => foldM (collect_slot m) tt (seq 0 (SlotCount e)) e
  end.

(** [need_snapshot] for a replica behind a log that is dropped. *)
Definition flag_replica (slot_id : nat) (through : Z) (r : ReplicaSession) : ReplicaSession :=
  mkReplica (rp_replica_id r) (rp_session_id r)
    (alter (λ state,
              if rs_acked_seq state <? through
              then mkReplicaSlot (rs_acked_seq state) (rs_acked_seq state) true else state)
       slot_id (rp_slots r))
    (rp_next_slot r) (rp_reset r).

Definition total_log_bytes (e : CacheEngine) : Z := sumZ RetainedLogBytes (slots_ e).

(** The second loop of [EnforceBudget], from slot [slot_id] on. *)
Fixpoint budget_loop (slot_ids : list nat) (total : Z) (m : MasterReplicator)
    : engineM MasterReplicator :=
  match slot_ids with
  | [] => mret m
  | slot_id :: rest =>
      if total >? ms_budget_ m then
        through ← SlotById slot_id (read_slot MaxRetainedLogSeq);
        removed ← SlotById slot_id (λ s, AckLogsThroughAndCountBytes s through);
        budget_loop rest (total - Z.min total removed)
          (mkMaster (ms_epoch_ m) (flag_replica slot_id through <$> ms_replicas_ m)
             (ms_next_session_seq_ m) (ms_budget_ m))
      else mret m
  end.

Definition EnforceBudget (m : MasterReplicator) : engineM MasterReplicator := λ e,
  if total_log_bytes e <=? ms_budget_ m then Some (m, e)
  else budget_loop (seq 0 (SlotCount e)) (total_log_bytes e) m e.

Definition Maintain (m : MasterReplicator) : engineM MasterReplicator :=
  _ ← CollectGarbage m; EnforceBudget m.

(** ** Theorems *)

Context {CL : ContainerLaws IC}.

(** A slot that nobody writes while it is read. *)
Definition quiet (s : HashSlot) : slot_view := λ _, s.

Lemma min_max_retained id s :
  slot_ok id s →
  let n := Z.of_nat (length (BinlogBuffer.records_ (binlog_buffer_ s))) in
  (n = 0 ∧ MinRetainedLogSeq s = 0 ∧ MaxRetainedLogSeq s = 0) ∨
  (0 < n ∧ MinRetainedLogSeq s = slot_seq_ s - n + 1 ∧ MaxRetainedLogSeq s = slot_seq_ s).
Proof.
  intros Hok. unfold MinRetainedLogSeq, MaxRetainedLogSeq.
  pose proof (so_consecutive _ _ Hok) as Hc.
  destruct (BinlogBuffer.records_ (binlog_buffer_ s)) as [|r l] eqn:E.
  - left. unfold BinlogBuffer.MinSeq, BinlogBuffer.MaxSeq. by rewrite E.
  - right. rewrite <-E in *. split; [rewrite E; cbn; lia|]. split.
    + by eapply BinlogBuffer.consecutive_min.
    + eapply BinlogBuffer.consecutive_max; [by rewrite E|done].
Qed.

(** [HasBacklog] holds exactly when no record from [seq] on is missing. *)
Lemma HasBacklog_spec id s seq :
  slot_ok id s → slot_seq_ s < UINT64_MAX → 1 <= seq <= slot_seq_ s + 1 →
  HasBacklog (quiet s) seq = true ↔
  Z.of_nat (length (BinlogBuffer.newer (seq - 1) (BinlogBuffer.records_ (binlog_buffer_ s)))) =
    slot_seq_ s - (seq - 1).
Proof.
  intros Hok Hmax Hseq. unfold HasBacklog, quiet.
  pose proof (so_log_length _ _ Hok) as Hlen. pose proof (so_seq _ _ Hok) as Hu.
  rewrite (BinlogBuffer.consecutive_newer _ (slot_seq_ s)) by apply Hok.
  rewrite length_drop. rewrite (proj2 (Z.eqb_neq seq 0)) by lia.
  destruct (min_max_retained id s Hok) as [(Hn & -> & ->)|(Hn & -> & ->)].
  - cbn [Z.eqb andb]. cbn [snap_published_seq Snapshot].
    rewrite (so_published _ _ Hok). split; [intros H|intros H]; bool_prop; lia.
  - rewrite (proj2 (Z.eqb_neq (slot_seq_ s) 0)) by lia. rewrite andb_false_r.
    assert (slot_seq_ s +u 1 = slot_seq_ s + 1) as -> by u64_lia.
    split; intros H; [apply andb_true_iff in H as [H1 H2]; bool_prop; lia|].
    apply andb_true_iff. rewrite Z.geb_leb. split; apply Z.leb_le; lia.
Qed.

(** *** Batches *)

(** Records that follow one another from [seq] on. *)
Fixpoint follows (seq : Z) (k : list BinlogRecord) : Prop :=
  match k with [] => True | r :: k' => rec_seq r = seq +u 1 ∧ follows (rec_seq r) k' end.
Definition last_seq (seq : Z) (k : list BinlogRecord) : Z := foldl (λ _ r, rec_seq r) seq k.

Definition frame_bytes (f : Frame) : Z :=
  match fr_subcmd f with
  | kLog => EstimateBinlogRecordBytes (fr_record f)
  | _ => size_of (fr_snapshot_payload f)
  end.

(** The limits of a batch: a frame count, and 16 MiB of payload unless one
    frame alone is larger. *)
Record build_ok (max_frames : nat) (b : build) : Prop := {
  bo_frames : (length (bd_frames b) <= max_frames)%nat;
  bo_bytes : bd_payload_bytes b = sumZ frame_bytes (bd_frames b);
  bo_payload : bd_payload_bytes b <= kMaxBatchPayloadBytes ∨ (length (bd_frames b) <= 1)%nat;
}.

Definition log_frames (session : string) (slot_id : nat) (k : list BinlogRecord) : list Frame :=
  Frame_Log session (Z.of_nat slot_id) <$> k.

Lemma push_ok max_frames b bytes frame :
  build_ok max_frames b → fits b bytes = true → (length (bd_frames b) < max_frames)%nat →
  frame_bytes frame = bytes → build_ok max_frames (push b bytes frame).
Proof.
  intros [H1 H2 H3] Hf Hlt Hb. split; cbn [push bd_frames bd_payload_bytes].
  - rewrite length_app. cbn. lia.
  - rewrite sumZ_app, <-H2, <-Hb. unfold sumZ. cbn. lia.
  - unfold fits in Hf. rewrite length_app. cbn. apply orb_true_iff in Hf as [Hf|Hf].
    + apply Nat.eqb_eq in Hf. lia.
    + bool_prop. lia.
Qed.

Lemma set_full_ok max_frames b n : build_ok max_frames b → build_ok max_frames (set_full b n).
Proof. intros [H1 H2 H3]. by split. Qed.

(** What [send_logs] sends: a prefix of the copy, without gaps, up to the
    target. *)
Lemma send_logs_spec session slot_id target logs max_frames state b :
  build_ok max_frames b → (length (bd_frames b) + length logs <= max_frames)%nat →
  let '(state', b') := send_logs session slot_id target logs state b in
  ∃ k rest, logs = k ++ rest ∧
    bd_frames b' = bd_frames b ++ log_frames session slot_id k ∧
    follows (rs_sent_seq state) k ∧ Forall (λ r, rec_seq r <= target) k ∧
    rs_sent_seq state' = last_seq (rs_sent_seq state) k ∧
    rs_acked_seq state' = rs_acked_seq state ∧
    (rs_need_snapshot state' = false → rs_need_snapshot state = false) ∧
    build_ok max_frames b'.
Proof.
  revert state b. induction logs as [|log logs IH]; intros state b Hb Hlen; cbn.
  { exists [], []. cbn. rewrite app_nil_r.
    do 7 (split; [done|]). exact Hb. }
  destruct (rec_seq log >? target) eqn:Et.
  { exists [], (log :: logs). cbn. rewrite app_nil_r.
    do 7 (split; [done|]). exact Hb. }
  destruct (rec_seq log =? rs_sent_seq state +u 1) eqn:Es; cbn [negb].
  2:{ exists [], (log :: logs). cbn. rewrite app_nil_r.
    do 7 (split; [done|]). exact Hb. }
  destruct (fits b _) eqn:Ef; cbn [negb].
  2:{ exists [], (log :: logs). cbn. rewrite app_nil_r.
      do 7 (split; [done|]). by apply set_full_ok. }
  cbn [length] in Hlen.
  specialize (IH (mkReplicaSlot (rs_acked_seq state) (rec_seq log) (rs_need_snapshot state))
    (push b (EstimateBinlogRecordBytes log) (Frame_Log session (Z.of_nat slot_id) log))).
  cbn in IH. destruct (send_logs _ _ _ _ _ _) as [state' b'].
  destruct IH as (k & rest & -> & Hfr & Hk & Ht & Hs & Ha & Hn & Hok).
  - apply push_ok; [done|done|lia|done].
  - rewrite length_app. cbn. lia.
  - bool_prop. exists (log :: k), rest. rewrite Hfr. cbn. rewrite <-app_assoc.
    do 2 (split; [done|]). split; [done|]. split; [by constructor|]. done.
Qed.

(** What one slot contributes to a batch: nothing, its image, or the records
    that follow what has been sent. *)
Lemma serve_slot_spec v session max_frames slot_id state b state' target b' :
  build_ok max_frames b → (length (bd_frames b) < max_frames)%nat →
  serve_slot v session max_frames slot_id state b = Some (state', target, b') →
  build_ok max_frames b' ∧ rs_acked_seq state' = rs_acked_seq state ∧
  ((bd_frames b' = bd_frames b ∧ state' = state) ∨
   (∃ payload,
      rs_need_snapshot state || negb (HasBacklog v (rs_sent_seq state +u 1)) = true ∧
      EncodeSnapshotPayload (snap_map (Snapshot (v 4%nat))) = Some payload ∧
      bd_frames b' = bd_frames b ++
        [Frame_Snapshot session (Z.of_nat slot_id) (published_seq_ (v 4%nat)) payload] ∧
      rs_sent_seq state' = published_seq_ (v 4%nat) ∧ target = published_seq_ (v 4%nat) ∧
      rs_need_snapshot state' = false) ∨
   (rs_need_snapshot state = false ∧ HasBacklog v (rs_sent_seq state +u 1) = true ∧
    target = published_seq_ (v 0%nat) ∧
    ∃ k rest,
      BinlogBuffer.newer (rs_sent_seq state)
        (BinlogBuffer.records_ (binlog_buffer_ (v 4%nat))) = k ++ rest ∧
      bd_frames b' = bd_frames b ++ log_frames session slot_id k ∧
      follows (rs_sent_seq state) k ∧ Forall (λ r, rec_seq r <= target) k ∧
      rs_sent_seq state' = last_seq (rs_sent_seq state) k)).
Proof.
  intros Hb Hlt. unfold serve_slot.
  destruct (rs_need_snapshot state || negb (HasBacklog v (rs_sent_seq state +u 1))) eqn:En.
  - unfold BuildSnapshotFrame. destruct (EncodeSnapshotPayload _) as [payload|]; [|done].
    cbn [mbind option_bind fr_snapshot_payload Frame_Snapshot fr_base_seq].
    destruct (fits b (size_of payload)) eqn:Ef; cbn [negb]; intros E; injection E as <- <- <-.
    + split; [by apply push_ok|]. split; [done|]. right; left. exists payload.
      split; [done|]. split; [done|]. by repeat split.
    + split; [by apply set_full_ok|]. split; [done|]. by left.
  - bool_prop. unfold CopyLogsAfter.
    destruct (BinlogBuffer.CopyAfter_spec (binlog_buffer_ (v 4%nat)) (rs_sent_seq state)
      (Nat.min kLogsPerSlot (max_frames - length (bd_frames b)))
      (kMaxBatchPayloadBytes - bd_payload_bytes b)) as (rest & Hnew & Hl & _).
    pose proof (send_logs_spec session slot_id (snap_published_seq (Snapshot (v 0%nat)))
      (BinlogBuffer.CopyAfter (binlog_buffer_ (v 4%nat)) (rs_sent_seq state)
        (Nat.min kLogsPerSlot (max_frames - length (bd_frames b)))
        (kMaxBatchPayloadBytes - bd_payload_bytes b)) max_frames state b Hb ltac:(lia)) as Hsend.
    destruct (send_logs _ _ _ _ _ _) as [st bb]. intros E. injection E as <- <- <-.
    destruct Hsend as (k & rest' & Hk & Hfr & Hf & Ht & Hs & Ha & _ & Hok).
    split; [done|]. split; [done|]. right; right. split; [done|]. split; [done|]. split; [done|].
    exists k, (rest' ++ rest). rewrite Hnew, Hk, <-app_assoc. done.
Qed.

(** Views of well-formed slots: the encoder never dereferences null. *)
Definition view_ok (view : nat → slot_view) : Prop :=
  ∀ slot_id k, slot_ok slot_id (view slot_id k).

Context {RW : RespLaws RL}.

Lemma Encode_total id s :
  slot_ok id s → ∃ payload, EncodeSnapshotPayload (snap_map (Snapshot s)) = Some payload.
Proof.
  intros Hok. eexists. apply EncodeSnapshotPayload_packs.
  intros k o Ho. by destruct (keys_in_slot _ _ _ _ Hok Ho).
Qed.

Lemma serve_slot_total v session max_frames slot_id state b :
  (∀ k, slot_ok slot_id (v k)) →
  ∃ r, serve_slot v session max_frames slot_id state b = Some r.
Proof.
  intros Hv. unfold serve_slot. destruct (_ || _).
  - unfold BuildSnapshotFrame. destruct (Encode_total _ _ (Hv 4%nat)) as [payload ->].
    cbn [mbind option_bind]. destruct (negb _); by eexists.
  - destruct (send_logs _ _ _ _ _ _). by eexists.
Qed.

Lemma close_batch_ok max_frames b n (c : bool) :
  build_ok max_frames b → build_ok max_frames (if c then set_full b n else b).
Proof. destruct c; [apply set_full_ok|done]. Qed.

Lemma build_slot_ok view session max_frames slot_id slots b completed :
  view_ok view → (slot_id < length slots)%nat → build_ok max_frames b →
  ∃ slots' b' completed',
    build_slot view session max_frames slot_id (slots, b, completed) =
      Some (slots', b', completed') ∧
    length slots' = length slots ∧ build_ok max_frames b' ∧
    (∀ j, j ≠ slot_id → slots' !! j = slots !! j).
Proof.
  intros Hv Hi Hb. unfold build_slot.
  destruct (lookup_lt_is_Some_2 slots slot_id Hi) as [state ->]. cbn [mbind option_bind].
  destruct (negb (bd_full b) && (length (bd_frames b) <? max_frames)%nat) eqn:Eopen.
  - apply andb_true_iff in Eopen as [_ Hlt]. apply Nat.ltb_lt in Hlt.
    destruct (serve_slot_total (view slot_id) session max_frames slot_id state b)
      as ([[state' target] b1] & E); [intros k; apply Hv|].
    destruct (serve_slot_spec _ _ _ _ _ _ _ _ _ Hb Hlt E) as (Hb1 & _ & _).
    rewrite E. cbn [mbind option_bind]. eexists _, _, _. split; [reflexivity|].
    split; [apply length_insert|]. split.
    + by apply close_batch_ok.
    + intros j Hj. by apply list_lookup_insert_ne.
  - cbn [mbind option_bind]. eexists _, _, _. split; [reflexivity|].
    split; [apply length_insert|]. split.
    + by apply close_batch_ok.
    + intros j Hj. by apply list_lookup_insert_ne.
Qed.

Lemma build_loop_ok view session max_frames ids slots b completed :
  view_ok view → Forall (λ i, (i < length slots)%nat) ids → build_ok max_frames b →
  ∃ slots' b' completed',
    build_loop view session max_frames ids (slots, b, completed) =
      Some (slots', b', completed') ∧
    length slots' = length slots ∧ build_ok max_frames b'.
Proof.
  intros Hv Hids. revert slots b completed Hids.
  induction ids as [|i ids IH]; intros slots b completed Hids Hb; [by eexists _, _, _|].
  apply Forall_cons in Hids as [Hi Hids].
  destruct (build_slot_ok view session max_frames i slots b completed Hv Hi Hb)
    as (slots1 & b1 & c1 & E & Hl & Hb1 & _).
  cbn [build_loop]. rewrite E. cbn [mbind option_bind].
  destruct (IH slots1 b1 c1) as (slots2 & b2 & c2 & E2 & Hl2 & Hb2); [by rewrite Hl|done|].
  exists slots2, b2, c2. split; [done|]. split; [congruence|done].
Qed.

(** A batch is always built, and within its limits. *)
Lemma BuildFrames_ok view r max_frames :
  view_ok view →
  ∃ frames completed r', BuildFrames view r max_frames = Some (frames, completed, r') ∧
    (length frames <= max_frames)%nat ∧
    (sumZ frame_bytes frames <= kMaxBatchPayloadBytes ∨ (length frames <= 1)%nat) ∧
    length (rp_slots r') = length (rp_slots r) ∧
    rp_session_id r' = rp_session_id r ∧ rp_replica_id r' = rp_replica_id r.
Proof.
  intros Hv. unfold BuildFrames.
  destruct (build_loop_ok view (rp_session_id r) max_frames
    ((λ i, (rp_next_slot r + i) mod length (rp_slots r))%nat <$> seq 0 (length (rp_slots r)))
    (rp_slots r) (mkBuild [] 0 false (rp_next_slot r)) [] Hv) as (slots & b & c & E & Hl & [H1 H2 H3]).
  - apply Forall_fmap, Forall_forall. intros i Hi%elem_of_seq. cbn.
    apply Nat.mod_upper_bound. lia.
  - split; cbn; [lia|done|left; by vm_compute].
  - rewrite E. cbn [mbind option_bind]. eexists _, _, _. split; [reflexivity|].
    split; [done|]. split; [by rewrite <-H2|done].
Qed.

(** *** Polls *)

(** Every session has a state for every slot. *)
Definition master_ok (slot_count : nat) (m : MasterReplicator) : Prop :=
  Forall (λ r, length (rp_slots r) = slot_count) (ms_replicas_ m).

Lemma set_replica_ok slot_count m i r :
  master_ok slot_count m → length (rp_slots r) = slot_count →
  master_ok slot_count (set_replica m i r).
Proof.
  intros Hm Hr. unfold master_ok, set_replica. cbn. by apply Forall_insert.
Qed.

Lemma hello_positions_length view reset positions slots :
  length (hello_positions view reset positions slots) = length slots.
Proof.
  unfold hello_positions. revert slots.
  induction positions as [|[slot position] positions IH]; intros slots; cbn; [done|].
  rewrite IH. destruct (_ >=? _); [done|]. apply length_insert.
Qed.

Lemma FindReplica_Some m id i :
  FindReplica m id = Some i → ∃ r, ms_replicas_ m !! i = Some r ∧ rp_replica_id r = id.
Proof.
  unfold FindReplica. intros ([j r] & H & ->)%fmap_Some.
  apply list_find_Some in H as (H1 & H2 & _). by exists r.
Qed.

Lemma OnHello_ok view slot_count m hello :
  master_ok slot_count m → fr_subcmd hello = kHello →
  ∃ i m' r, OnHelloUnlocked view slot_count m hello = Some (i, m') ∧
    master_ok slot_count m' ∧ ms_replicas_ m' !! i = Some r ∧
    rp_replica_id r = fr_replica_id hello ∧
    (rp_reset r = false → rp_session_id r = fr_session_id hello).
Proof.
  intros Hm Hh. unfold OnHelloUnlocked. rewrite bool_decide_eq_true_2 by done. cbn [negb].
  assert (∃ i m1 r, (match FindReplica m (fr_replica_id hello) with
      | Some i => (i, m)
      | None => (length (ms_replicas_ m),
           mkMaster (ms_epoch_ m)
             (ms_replicas_ m ++ [mkReplica (fr_replica_id hello) ""
                (replicate slot_count ReplicaSlotState_default) 0 false])
             (ms_next_session_seq_ m) (ms_budget_ m))
      end) = (i, m1) ∧ master_ok slot_count m1 ∧ ms_replicas_ m1 !! i = Some r)
    as (i & m1 & r & -> & Hm1 & Hr).
  { destruct (FindReplica m (fr_replica_id hello)) as [i|] eqn:Ef.
    - destruct (FindReplica_Some _ _ _ Ef) as (r & Hr & _). by exists i, m, r.
    - eexists _, _, _. split; [reflexivity|]. split.
      + apply Forall_app. split; [done|]. constructor; [|done]. cbn. by rewrite length_replicate.
      + cbn. by rewrite list_lookup_middle. }
  rewrite Hr. cbn [mbind option_bind].
  pose proof (lookup_lt_Some _ _ _ Hr) as Hi.
  assert (length (rp_slots r) = slot_count) as Hl.
  { unfold master_ok in Hm1. rewrite Forall_lookup in Hm1. by eapply Hm1. }
  destruct (String.eqb (rp_session_id r) "" ||
            negb (String.eqb (fr_session_id hello) (rp_session_id r))) eqn:Ereset; cbn.
  - eexists _, _, _. split; [reflexivity|]. split; [|split].
    + apply set_replica_ok; [done|]. cbn. by rewrite hello_positions_length.
    + cbn. by apply list_lookup_insert_eq.
    + done.
  - eexists _, _, _. split; [reflexivity|]. split; [|split].
    + apply set_replica_ok; [done|]. cbn. by rewrite hello_positions_length.
    + cbn. by apply list_lookup_insert_eq.
    + cbn. split; [done|]. intros _. bool_prop.
      match goal with H : String.eqb _ _ = true |- _ => by apply String.eqb_eq in H end.
Qed.

(** A valid HELLO is answered by one session's frames between a BEGIN and a
    DONE; the session is continued only when the replica names it. *)
Lemma Poll_ok hello_view view slot_count m hello max_frames :
  master_ok slot_count m → view_ok view →
  ∃ frames m', Poll hello_view view slot_count m hello max_frames = Some (frames, m') ∧
    master_ok slot_count m' ∧
    if bool_decide (fr_subcmd hello = kHello) && (fr_proto_version hello =? kProtocolVersion) &&
       negb (String.eqb (fr_replica_id hello) "")
    then ∃ session reset batch completed,
      frames = Frame_Begin session reset :: batch ++ [Frame_Done session completed] ∧
      (length batch <= max_frames)%nat ∧
      (sumZ frame_bytes batch <= kMaxBatchPayloadBytes ∨ (length batch <= 1)%nat) ∧
      (reset = false → session = fr_session_id hello)
    else frames = [] ∧ m' = m.
Proof.
  intros Hm Hv. unfold Poll.
  destruct (bool_decide (fr_subcmd hello = kHello)) eqn:Eh; [|by exists [], m].
  destruct (fr_proto_version hello =? kProtocolVersion); [|by exists [], m].
  destruct (String.eqb (fr_replica_id hello) ""); [by exists [], m|]. cbn [negb orb andb].
  apply bool_decide_eq_true in Eh.
  destruct (OnHello_ok hello_view slot_count m hello Hm Eh)
    as (i & m1 & r & -> & Hm1 & Hr & _ & Hreset). cbn [mbind option_bind]. rewrite Hr.
  cbn [mbind option_bind].
  destruct (BuildFrames_ok view r max_frames Hv)
    as (batch & completed & r' & -> & Hlen & Hbytes & Hsl & _). cbn [mbind option_bind].
  eexists _, _. split; [reflexivity|]. split.
  - apply set_replica_ok; [done|]. rewrite Hsl. unfold master_ok in Hm1.
    rewrite Forall_lookup in Hm1. by eapply Hm1.
  - by exists (rp_session_id r), (rp_reset r), batch, completed.
Qed.

(** *** Maintenance *)

Lemma AckLogs_dropped id s seq :
  slot_ok id s →
  ∃ dropped,
    BinlogBuffer.records_ (binlog_buffer_ s) =
      dropped ++ BinlogBuffer.records_ (binlog_buffer_ (AckLogsThrough s seq)) ∧
    Forall (λ r, rec_seq r <= seq) dropped ∧
    redis_obj_map_ (AckLogsThrough s seq) = redis_obj_map_ s.
Proof.
  intros Hok. destruct (BinlogBuffer.AckThrough_spec (binlog_buffer_ s) seq (so_bytes _ _ Hok))
    as (d & H1 & H2 & _). by exists d.
Qed.

(** The minimum over the sessions is a lower bound. *)
Lemma min_acked_spec slot_count m slot_id :
  master_ok slot_count m → (slot_id < slot_count)%nat →
  ∃ a, min_acked m slot_id = Some a ∧
    ∀ r state, r ∈ ms_replicas_ m → rp_slots r !! slot_id = Some state → a <= rs_acked_seq state.
Proof.
  unfold master_ok, min_acked. intros Hm Hi.
  assert (∀ a0, ∃ a, foldl (λ min_ack r, a ← min_ack; state ← rp_slots r !! slot_id;
             Some (Z.min a (rs_acked_seq state))) (Some a0) (ms_replicas_ m) = Some a ∧ a <= a0 ∧
    ∀ r state, r ∈ ms_replicas_ m → rp_slots r !! slot_id = Some state → a <= rs_acked_seq state) as H.
  { induction Hm as [|r l Hr Hl IH]; intros a0.
    - exists a0. split; [done|]. split; [lia|]. intros r state Hin. by apply not_elem_of_nil in Hin.
    - destruct (lookup_lt_is_Some_2 (rp_slots r) slot_id) as [st Hst]; [by rewrite Hr|].
      destruct (IH (Z.min a0 (rs_acked_seq st))) as (a & E & Hle & Hall).
      exists a. cbn [foldl mbind option_bind]. rewrite Hst. cbn [mbind option_bind].
      split; [exact E|]. split; [lia|]. intros r' state [->|Hin]%elem_of_cons Hst'; [|by eapply Hall].
      rewrite Hst in Hst'. injection Hst' as <-. lia. }
  destruct (H UINT64_MAX) as (a & E & _ & Hall). by exists a.
Qed.

(** What garbage collection may do to slot [i]. *)
Definition collected (m : MasterReplicator) (i : nat) (s s' : HashSlot) : Prop :=
  slot_map s' = slot_map s ∧ slot_seq_ s' = slot_seq_ s ∧
  ∃ dropped,
    BinlogBuffer.records_ (binlog_buffer_ s) =
      dropped ++ BinlogBuffer.records_ (binlog_buffer_ s') ∧
    ∀ rec r state, rec ∈ dropped → r ∈ ms_replicas_ m → rp_slots r !! i = Some state →
      rec_seq rec <= rs_acked_seq state.

Lemma collected_refl m i s : collected m i s s.
Proof.
  split; [done|]. split; [done|]. exists []. split; [done|].
  intros rec r state Hin. by apply not_elem_of_nil in Hin.
Qed.

Lemma collected_trans m i s1 s2 s3 :
  collected m i s1 s2 → collected m i s2 s3 → collected m i s1 s3.
Proof.
  intros (H1 & H2 & d & H3 & H4) (H5 & H6 & d' & H7 & H8).
  split; [congruence|]. split; [congruence|]. exists (d ++ d').
  split; [by rewrite <-app_assoc, <-H7|].
  intros rec r state [Hin|Hin]%elem_of_app; eauto.
Qed.

Lemma collect_slot_run slot_count m i e :
  engine_ok e → master_ok slot_count m → (i < slot_count)%nat → length (slots_ e) = slot_count →
  ∃ e', collect_slot m tt i e = Some (tt, e') ∧ engine_ok e' ∧
    length (slots_ e') = slot_count ∧
    ∀ j s, slots_ e !! j = Some s → ∃ s', slots_ e' !! j = Some s' ∧ collected m j s s'.
Proof.
  intros He Hm Hi Hl. destruct (min_acked_spec slot_count m i Hm Hi) as (a & Ea & Hall).
  unfold collect_slot, mbind, stM_bind. rewrite Ea. cbn.
  destruct (a =? UINT64_MAX); cbn [negb].
  { exists e. split; [done|]. split; [done|]. split; [done|].
    intros j s Hs. exists s. split; [done|apply collected_refl]. }
  destruct (lookup_lt_is_Some_2 (slots_ e) i) as [s0 Hs0]; [by rewrite Hl|].
  unfold SlotById. rewrite Hs0. cbn. eexists. split; [reflexivity|].
  pose proof (eo_slots _ He _ _ Hs0) as Hok0. split; [|split].
  - apply (set_slot_ok e i); [done|]. by apply AckLogsThrough_ok.
  - cbn. by rewrite length_insert.
  - intros j s Hs. cbn. rewrite list_lookup_insert. case_decide as Hd.
    + destruct Hd as [<- _]. assert (s = s0) as -> by congruence. eexists. split; [done|].
      destruct (AckLogs_dropped i s0 a Hok0) as (d & Hd & Hf & Hmap).
      split; [unfold slot_map; by rewrite Hmap|]. split; [done|]. exists d. split; [done|].
      intros rec r state Hin Hr Hst. rewrite Forall_forall in Hf.
      specialize (Hf rec Hin). specialize (Hall r state Hr Hst). cbn in Hf. lia.
    + exists s. split; [done|apply collected_refl].
Qed.

(** Garbage collection drops no record that some replica has not
    acknowledged, and touches no data. *)
Lemma CollectGarbage_run m e :
  engine_ok e → master_ok (SlotCount e) m →
  ∃ e', CollectGarbage m e = Some (tt, e') ∧ engine_ok e' ∧
    length (slots_ e') = length (slots_ e) ∧
    ∀ i s, slots_ e !! i = Some s → ∃ s', slots_ e' !! i = Some s' ∧ collected m i s s'.
Proof.
  intros He Hm.
  assert (∀ l e0, engine_ok e0 → length (slots_ e0) = SlotCount e →
    Forall (λ i, (i < SlotCount e)%nat) l →
    ∃ e', foldM (collect_slot m) tt l e0 = Some (tt, e') ∧ engine_ok e' ∧
      length (slots_ e') = SlotCount e ∧
      ∀ i s, slots_ e0 !! i = Some s → ∃ s', slots_ e' !! i = Some s' ∧ collected m i s s') as Hloop.
  { induction l as [|i l IH]; intros e0 He0 Hl0 Hf.
    - exists e0. split; [done|]. split; [done|]. split; [done|].
      intros j s Hs. exists s. split; [done|apply collected_refl].
    - apply Forall_cons in Hf as [Hi Hf].
      destruct (collect_slot_run _ m i e0 He0 Hm Hi Hl0) as (e1 & E1 & He1 & Hl1 & Hs1).
      destruct (IH e1 He1 Hl1 Hf) as (e2 & E2 & He2 & Hl2 & Hs2).
      exists e2. cbn [foldM]. unfold mbind, stM_bind. rewrite E1.
      split; [exact E2|]. split; [done|]. split; [done|]. intros j s Hs.
      destruct (Hs1 j s Hs) as (s1 & Hj1 & Hc1). destruct (Hs2 j s1 Hj1) as (s2 & Hj2 & Hc2).
      exists s2. split; [done|by eapply collected_trans]. }
  unfold CollectGarbage. destruct (ms_replicas_ m) as [|r l] eqn:Er.
  - exists e. split; [done|]. split; [done|]. split; [done|].
    intros j s Hs. exists s. split; [done|apply collected_refl].
  - apply Hloop; [done|done|]. apply Forall_forall. intros i Hi%elem_of_seq. lia.
Qed.

(** *** The log budget *)

Lemma AckAll id s :
  slot_ok id s →
  (AckLogsThroughAndCountBytes s (MaxRetainedLogSeq s)).1 = RetainedLogBytes s ∧
  let s' := (AckLogsThroughAndCountBytes s (MaxRetainedLogSeq s)).2 in
  slot_ok id s' ∧ slot_map s' = slot_map s ∧ slot_seq_ s' = slot_seq_ s ∧
  BinlogBuffer.records_ (binlog_buffer_ s') = [] ∧ RetainedLogBytes s' = 0.
Proof.
  intros Hok. set (seq := MaxRetainedLogSeq s).
  destruct (BinlogBuffer.AckThrough_spec (binlog_buffer_ s) seq (so_bytes _ _ Hok))
    as (d & Hd & _ & Hhead & Hb & Hbytes).
  pose proof (AckLogsThrough_ok id s seq Hok) as Hok'.
  unfold AckLogsThroughAndCountBytes, AckLogsThrough, BinlogBuffer.AckThrough in *.
  destruct (BinlogBuffer.AckThroughAndCountBytes (binlog_buffer_ s) seq) as [removed b].
  cbn in Hd, Hhead, Hb, Hbytes, Hok' |- *.
  assert (BinlogBuffer.records_ b = []) as Hnil.
  { destruct (BinlogBuffer.records_ b) as [|r rest] eqn:Eb; [done|exfalso].
    specialize (Hhead r eq_refl). subst seq. unfold MaxRetainedLogSeq in Hhead.
    rewrite (BinlogBuffer.consecutive_max _ (slot_seq_ s)) in Hhead.
    - pose proof (so_consecutive _ _ Hok') as Hc. cbn in Hc. rewrite Eb in Hc. destruct Hc as [Hc _]. lia.
    - rewrite Hd. by destruct d.
    - apply Hok. }
  unfold BinlogBuffer.bytes_ok in Hbytes. rewrite Hnil in Hd, Hbytes. rewrite app_nil_r in Hd.
  split.
  - unfold RetainedLogBytes, BinlogBuffer.RetainedBytes. rewrite (so_bytes _ _ Hok), Hd. done.
  - split; [done|]. split; [done|]. split; [done|]. split; [done|]. exact Hbytes.
Qed.

(** Every replica behind [through] on slot [i] will be sent a snapshot. *)
Definition flagged (i : nat) (through : Z) (m : MasterReplicator) : Prop :=
  ∀ r state, r ∈ ms_replicas_ m → rp_slots r !! i = Some state →
    rs_acked_seq state < through → rs_need_snapshot state = true.

(** A slot keeps its log, or loses all of it and the replicas that lacked
    some of it are flagged. *)
Definition trimmed (m' : MasterReplicator) (i : nat) (s s' : HashSlot) : Prop :=
  s' = s ∨
  (slot_map s' = slot_map s ∧ slot_seq_ s' = slot_seq_ s ∧
   BinlogBuffer.records_ (binlog_buffer_ s') = [] ∧ flagged i (MaxRetainedLogSeq s) m').

Lemma flag_replica_flagged m i through budget seq epoch :
  let m' := mkMaster epoch (flag_replica i through <$> ms_replicas_ m) seq budget in
  flagged i through m' ∧ ∀ j t, flagged j t m → flagged j t m'.
Proof.
  cbn. split.
  - intros r state Hr Hst Hlt. cbn in Hr. apply list_elem_of_fmap in Hr as (r0 & -> & Hr0).
    unfold flag_replica in Hst. cbn in Hst. rewrite list_lookup_alter_eq in Hst.
    apply fmap_Some in Hst as (st0 & Hst0 & ->). destruct (_ <? _) eqn:E; [done|]. bool_prop. lia.
  - intros j t Hf r state Hr Hst Hlt. cbn in Hr. apply list_elem_of_fmap in Hr as (r0 & -> & Hr0).
    unfold flag_replica in Hst. cbn in Hst. destruct (decide (i = j)) as [->|Hne].
    + rewrite list_lookup_alter_eq in Hst. apply fmap_Some in Hst as (st0 & Hst0 & ->).
      destruct (_ <? _); [done|]. by eapply Hf.
    + rewrite list_lookup_alter_ne in Hst by done. by eapply Hf.
Qed.

Lemma sumZ_insert {A} (f : A → Z) l i x y :
  l !! i = Some x → sumZ f (<[i := y]> l) = sumZ f l - f x + f y.
Proof.
  revert i. induction l as [|z l IH]; intros i Hi; [done|]. destruct i as [|i]; cbn in Hi.
  - injection Hi as ->. unfold sumZ. cbn. lia.
  - specialize (IH i Hi). change (<[S i:=y]> (z :: l)) with (z :: <[i:=y]> l).
    unfold sumZ in *. cbn [foldr]. lia.
Qed.

Lemma sumZ_zero {A} (f : A → Z) l : Forall (λ x, f x = 0) l → sumZ f l = 0.
Proof. unfold sumZ. induction 1; cbn; lia. Qed.

Lemma RetainedLogBytes_nonneg id s : slot_ok id s → 0 <= RetainedLogBytes s.
Proof.
  intros Hok. unfold RetainedLogBytes, BinlogBuffer.RetainedBytes. rewrite (so_bytes _ _ Hok).
  apply BinlogBuffer.total_bytes_nonneg.
Qed.

Lemma total_log_bytes_nonneg e : engine_ok e → 0 <= total_log_bytes e.
Proof.
  intros He. unfold total_log_bytes.
  assert (Forall (λ s, 0 <= RetainedLogBytes s) (slots_ e)) as Hf.
  { apply Forall_lookup_2. intros i s Hs. eapply RetainedLogBytes_nonneg, (eo_slots _ He _ _ Hs). }
  induction Hf as [|s l Hs _ IH]; unfold sumZ in *; cbn; lia.
Qed.

Definition with_replicas (m : MasterReplicator) (l : list ReplicaSession) : MasterReplicator :=
  mkMaster (ms_epoch_ m) l (ms_next_session_seq_ m) (ms_budget_ m).

Lemma flag_replica_ok slot_count m i through :
  master_ok slot_count m →
  master_ok slot_count (with_replicas m (flag_replica i through <$> ms_replicas_ m)).
Proof.
  intros Hm. apply Forall_fmap. eapply Forall_impl; [exact Hm|]. intros r Hr. cbn.
  by rewrite length_alter.
Qed.

(** The loop of [EnforceBudget] from slot [k] on, when the slots before it
    have been emptied. *)
Lemma budget_loop_run n k m e :
  engine_ok e → 0 <= ms_budget_ m → (k + n = SlotCount e)%nat → master_ok (SlotCount e) m →
  (∀ j s, (j < k)%nat → slots_ e !! j = Some s → RetainedLogBytes s = 0) →
  ∃ m' e', budget_loop (seq k n) (total_log_bytes e) m e = Some (m', e') ∧
    engine_ok e' ∧ SlotCount e' = SlotCount e ∧ master_ok (SlotCount e) m' ∧
    ms_budget_ m' = ms_budget_ m ∧ total_log_bytes e' <= ms_budget_ m ∧
    (∀ j t, flagged j t m → flagged j t m') ∧
    ∀ i s, slots_ e !! i = Some s → ∃ s', slots_ e' !! i = Some s' ∧
      ((i < k)%nat → s' = s) ∧ trimmed m' i s s'.
Proof.
  revert k m e. induction n as [|n IH]; intros k m e He Hb Hk Hm Hz.
  { exists m, e. cbn. split; [done|]. do 4 (split; [done|]). split; [|split; [done|]].
    - unfold total_log_bytes. rewrite sumZ_zero; [done|].
      apply Forall_lookup_2. intros j s Hs. apply (Hz j s); [|done].
      apply lookup_lt_Some in Hs. unfold SlotCount in Hk. lia.
    - intros i s Hs. exists s. split; [done|]. split; [done|by left]. }
  cbn [seq budget_loop]. destruct (_ >? _) eqn:Ebudget; bool_prop.
  2:{ exists m, e. split; [done|]. do 4 (split; [done|]). split; [lia|]. split; [done|].
      intros i s Hs. exists s. split; [done|]. split; [done|by left]. }
  destruct (lookup_lt_is_Some_2 (slots_ e) k) as [s Hs]; [unfold SlotCount in Hk; lia|].
  pose proof (eo_slots _ He _ _ Hs) as Hok.
  destruct (AckAll k s Hok) as (Hrem & Hok' & Hmap & Hseq & Hnil & Hzero).
  set (s1 := (AckLogsThroughAndCountBytes s (MaxRetainedLogSeq s)).2) in *.
  set (e1 := set_slot e k s1).
  set (m1 := with_replicas m (flag_replica k (MaxRetainedLogSeq s) <$> ms_replicas_ m)).
  assert (total_log_bytes e1 = total_log_bytes e - RetainedLogBytes s) as Ht.
  { unfold total_log_bytes, e1, set_slot. cbn [slots_].
    rewrite (sumZ_insert _ _ _ s) by done. lia. }
  assert (engine_ok e1) as He1 by (by apply set_slot_ok).
  pose proof (total_log_bytes_nonneg e1 He1) as Hnn.
  assert (0 <= RetainedLogBytes s) as Hrn by (by eapply RetainedLogBytes_nonneg).
  assert (SlotCount e1 = SlotCount e) as Hc1 by (unfold SlotCount; cbn; apply length_insert).
  pose proof (lookup_lt_Some _ _ _ Hs) as Hlt.
  destruct (IH (S k) m1 e1) as (m' & e' & E & He' & Hc & Hm' & Hbm & Htot & Hfl & Hall).
  - done.
  - done.
  - rewrite Hc1. lia.
  - rewrite Hc1. by apply flag_replica_ok.
  - intros j s2 Hj. cbn. rewrite list_lookup_insert. case_decide as Hd.
    + intros [= <-]. done.
    + apply Hz. destruct (decide (k = j)); [naive_solver|lia].
  - destruct (flag_replica_flagged m k (MaxRetainedLogSeq s) (ms_budget_ m)
      (ms_next_session_seq_ m) (ms_epoch_ m)) as [Hflag Hkeep].
    exists m', e'. split.
    { unfold mbind, stM_bind, SlotById, read_slot. rewrite Hs. cbn [slots_].
      rewrite list_insert_id by done.
      replace (slots_ (mkEngine (slots_ e))) with (slots_ e) by done.
      rewrite Hs. destruct (AckLogsThroughAndCountBytes s (MaxRetainedLogSeq s)) as [removed s1'] eqn:Ea.
      cbn in Hrem. subst s1. cbn in e1. rewrite Hrem.
      replace (total_log_bytes e - Z.min (total_log_bytes e) (RetainedLogBytes s))
        with (total_log_bytes e1); [exact E|].
      rewrite Ht. lia. }
    split; [done|]. split; [congruence|]. split; [by rewrite Hc1 in Hm'|].
    split; [done|]. split; [done|]. split; [intros j t Hj; by apply Hfl, Hkeep|].
    intros i s2 Hs2. destruct (decide (i = k)) as [->|Hne].
    + assert (s2 = s) as -> by congruence.
      destruct (Hall k s1) as (s' & Hs' & Hsame & _).
      { cbn. by apply list_lookup_insert_eq. }
      rewrite Hsame in Hs' by lia. exists s1. split; [done|]. split; [lia|].
      right. split; [done|]. split; [done|]. split; [done|]. by apply Hfl.
    + destruct (Hall i s2) as (s' & Hs' & Hsame & Htrim).
      { cbn. by rewrite list_lookup_insert_ne. }
      exists s'. split; [done|]. split; [intros Hi; apply Hsame; lia|done].
Qed.

(** Enforcing the budget brings the retained bytes under it, drops whole
    logs only, and marks every replica that still needed one of them. *)
Lemma EnforceBudget_run m e :
  engine_ok e → 0 <= ms_budget_ m → master_ok (SlotCount e) m →
  ∃ m' e', EnforceBudget m e = Some (m', e') ∧ engine_ok e' ∧
    SlotCount e' = SlotCount e ∧ master_ok (SlotCount e) m' ∧ ms_budget_ m' = ms_budget_ m ∧
    total_log_bytes e' <= ms_budget_ m ∧
    ∀ i s, slots_ e !! i = Some s → ∃ s', slots_ e' !! i = Some s' ∧ trimmed m' i s s'.
Proof.
  intros He Hb Hm. unfold EnforceBudget. destruct (_ <=? _) eqn:E; bool_prop.
  - exists m, e. do 6 (split; [done|]).
    intros i s Hs. exists s. split; [done|by left].
  - destruct (budget_loop_run (SlotCount e) 0 m e He Hb eq_refl Hm)
      as (m' & e' & E' & He' & Hc & Hm' & Hb' & Ht & _ & Hall); [lia|].
    exists m', e'. do 6 (split; [done|]).
    intros i s Hs. destruct (Hall i s Hs) as (s' & H1 & _ & H2). by exists s'.
Qed.

(** The maintenance keeps every entry and every sequence number. *)
Lemma Maintain_run m e :
  engine_ok e → 0 <= ms_budget_ m → master_ok (SlotCount e) m →
  ∃ m' e', Maintain m e = Some (m', e') ∧ engine_ok e' ∧ SlotCount e' = SlotCount e ∧
    master_ok (SlotCount e) m' ∧ ms_budget_ m' = ms_budget_ m ∧
    total_log_bytes e' <= ms_budget_ m ∧
    ∀ i s, slots_ e !! i = Some s → ∃ s', slots_ e' !! i = Some s' ∧
      slot_map s' = slot_map s ∧ slot_seq_ s' = slot_seq_ s.
Proof.
  intros He Hb Hm. destruct (CollectGarbage_run m e He Hm) as (e1 & E1 & He1 & Hl1 & H1).
  assert (SlotCount e1 = SlotCount e) as Hc1 by exact Hl1. rewrite <-Hc1 in Hm.
  destruct (EnforceBudget_run m e1 He1 Hb Hm) as (m' & e' & E2 & He' & Hc & Hm' & Hb' & Ht & H2).
  exists m', e'. unfold Maintain, mbind, stM_bind. rewrite E1, E2. rewrite Hc1 in *.
  do 6 (split; [done|]). intros i s Hs. destruct (H1 i s Hs) as (s1 & Hs1 & Hmap & Hseq & _).
  destruct (H2 i s1 Hs1) as (s' & Hs' & Ht'). exists s'. split; [done|].
  destruct Ht' as [->|(Hm2 & Hq2 & _)]; [done|]. by rewrite Hm2, Hq2.
Qed.
End master.
