(* ===== verification/Background.v ===== *)
(** * The background thread of a primary: src/main.cpp

    Every 10 ms it sweeps the next 1000 slots, and every hundredth time it
    runs the maintenance of the replicator. The clock readings are given, one
    for each turn of the loop; other threads are Interference.v's. *)

From S2P Require Import Prelude Text Containers Double RedisObject Binlog HashSlot Engine Sweeper Resp ReplFrame SnapshotCodec Master.

Section background.
Context {IC : ImmutableContainer} {RL : RespLib}.

Record background := mkBackground {
  bg_sweeper : ExpireSweeper.t;
  bg_ticks : nat;
}.

Definition kSlotsPerTick : nat := 1000.
Definition kTicksPerMaintenance : nat := 100.

Definition background_new : background := mkBackground (ExpireSweeper.new kSlotsPerTick) 0.

(** The body of the loop. *)
Definition background_tick (now_us : Z) (b : background) (m : MasterReplicator)
    : engineM (background * MasterReplicator) :=
  '(_, sweeper) ← ExpireSweeper.SweepOnce (bg_sweeper b) now_us;
  let ticks := S (bg_ticks b) in
  if (ticks =? kTicksPerMaintenance)%nat
  then m' ← Maintain m; mret (mkBackground sweeper 0, m')
  else mret (mkBackground sweeper ticks, m).

Fixpoint background_loop (clock : list Z) (b : background) (m : MasterReplicator)
    : engineM (background * MasterReplicator) :=
  match clock with
  | [] => mret (b, m)
  | now_us :: rest =>
      '(b', m') ← background_tick now_us b m;
      background_loop rest b' m'
  end.

(** ** Theorems *)

Context {CL : ContainerLaws IC} {RW : RespLaws RL}.

(** What is left of a slot when only entries expired by [t] have been removed. *)
Definition thinned (t : Z) (s s' : HashSlot) : Prop :=
  slot_map s' ⊆ slot_map s ∧ ∀ k, live (slot_map s') t k = live (slot_map s) t k.

Lemma thinned_trans t s1 s2 s3 : thinned t s1 s2 → thinned t s2 s3 → thinned t s1 s3.
Proof. intros [H1 H2] [H3 H4]. split; [by etrans|]. intros k. by rewrite H4, H2. Qed.

Lemma thinned_same t s s' : slot_map s' = slot_map s → thinned t s s'.
Proof. intros E. split; [by rewrite E|]. intros k. by rewrite E. Qed.

Lemma swept_thinned now_us t s s' : now_us <= t → swept now_us s s' → thinned t s s'.
Proof.
  intros Ht [Hs Hl]. split; [done|]. intros k. specialize (Hl k). unfold live in *.
  destruct (slot_map s !! k) as [a|] eqn:Ha.
  - destruct (slot_map s' !! k) as [a'|] eqn:Ha'.
    + assert (a' = a) as ->; [|done]. assert (slot_map s !! k = Some a') as E by (by eapply lookup_weaken).
      congruence.
    + destruct (a_expired a now_us) eqn:E; [|done]. by rewrite (a_expired_later _ _ _ Ht E).
  - destruct (slot_map s' !! k) as [a'|] eqn:Ha'; [|done].
    assert (slot_map s !! k = Some a') as E by (by eapply lookup_weaken). congruence.
Qed.

(** What the loop needs of its state. *)
Record background_ok (b : background) (m : MasterReplicator) (e : CacheEngine) : Prop := {
  bo_engine : engine_ok e;
  bo_master : master_ok (SlotCount e) m;
  bo_budget : 0 <= ms_budget_ m;
  bo_per_tick : ExpireSweeper.slots_per_tick_ (bg_sweeper b) = kSlotsPerTick;
  bo_next : (ExpireSweeper.next_slot_ (bg_sweeper b) < SlotCount e)%nat;
  bo_ticks : (bg_ticks b < kTicksPerMaintenance)%nat;
}.

Definition tick_writes : Z := Z.of_nat (kSlotsPerTick * ExpireSweeper.kMaxExpiredKeysPerSlot).

(** One turn of the loop. *)
Lemma background_tick_run now_us t b m e :
  background_ok b m e → now_us <= t → engine_room e tick_writes →
  let next := ExpireSweeper.next_slot_ (bg_sweeper b) in
  ∃ b' m' e', background_tick now_us b m e = Some ((b', m'), e') ∧ background_ok b' m' e' ∧
    SlotCount e' = SlotCount e ∧ ms_budget_ m' = ms_budget_ m ∧
    ExpireSweeper.next_slot_ (bg_sweeper b') = visited next (SlotCount e) kSlotsPerTick ∧
    bg_ticks b' = (S (bg_ticks b) mod kTicksPerMaintenance)%nat ∧
    (bg_ticks b' = 0%nat → total_log_bytes e' <= ms_budget_ m) ∧
    (∀ k, 0 <= k → engine_room e (k + tick_writes) → engine_room e' k) ∧
    ∀ i s, slots_ e !! i = Some s → ∃ s', slots_ e' !! i = Some s' ∧ thinned t s s' ∧
      cleaned now_us t (visits next (SlotCount e) kSlotsPerTick i * ExpireSweeper.kMaxExpiredKeysPerSlot) s s'.
Proof.
  intros [He Hm Hb Hper Hnext Hticks] Ht Hroom next.
  destruct (SweepOnce_run (bg_sweeper b) now_us e He Hnext) as
    (d & e1 & E1 & He1 & [Hl1 Hs1] & Hr1 & _ & _ & Hcl); [by rewrite Hper|].
  assert (SlotCount e1 = SlotCount e) as Hc1 by exact Hl1.
  assert (∀ i s, slots_ e !! i = Some s → ∃ s1, slots_ e1 !! i = Some s1 ∧ thinned t s s1 ∧
    cleaned now_us t (visits next (SlotCount e) kSlotsPerTick i * ExpireSweeper.kMaxExpiredKeysPerSlot)
      s s1) as Hslots.
  { intros i s Hs. destruct (Hs1 i s Hs) as (s1 & Hi1 & Hsw). exists s1. split; [done|].
    split; [by eapply swept_thinned|]. pose proof (Hcl t i s s1 Ht Hs Hi1) as H. by rewrite Hper in H. }
  rewrite Hper in E1, Hr1. fold tick_writes in Hr1.
  assert ((visited next (SlotCount e) kSlotsPerTick < SlotCount e)%nat) as Hv
    by (apply Nat.mod_upper_bound; lia).
  unfold background_tick, mbind, stM_bind, mret, stM_ret. rewrite E1.
  destruct (S (bg_ticks b) =? kTicksPerMaintenance)%nat eqn:Eticks.
  - apply Nat.eqb_eq in Eticks. rewrite <-Hc1 in Hm. destruct (Maintain_run m e1 He1 Hb Hm)
      as (m' & e' & E2 & He' & Hc' & Hm' & Hb' & Hfit & Hs2).
    rewrite E2. rewrite Hc1 in *. eexists _, m', e'. split; [reflexivity|].
    split; [split; cbn; rewrite ?Hc', ?Hb'; try done; unfold kTicksPerMaintenance; lia|].
    do 3 (split; [done|]). cbn [bg_ticks].
    split; [by rewrite Eticks|]. split; [done|]. split.
    + intros k Hk Hr i s' Hs'. specialize (Hr1 k Hk Hr).
      destruct (slots_ e1 !! i) as [s1|] eqn:Hi.
      * destruct (Hs2 i s1 Hi) as (s2 & Hi2 & _ & Hq). specialize (Hr1 i s1 Hi).
        rewrite Hs' in Hi2. injection Hi2 as <-. lia.
      * apply lookup_ge_None in Hi. apply lookup_lt_Some in Hs'. unfold SlotCount in *. lia.
    + intros i s Hs. destruct (Hslots i s Hs) as (s1 & Hi1 & Hth & Hc).
      destruct (Hs2 i s1 Hi1) as (s2 & Hi2 & Hmap & _). exists s2. split; [done|].
      split; [by eapply thinned_trans, thinned_same|]. unfold cleaned, no_expired, expired_entries in *.
      by rewrite Hmap.
  - apply Nat.eqb_neq in Eticks. assert (S (bg_ticks b) mod kTicksPerMaintenance = S (bg_ticks b))%nat as Emod
      by (apply Nat.mod_small; lia).
    eexists _, m, e1. split; [reflexivity|].
    split; [split; cbn; rewrite ?Hc1; try done; lia|].
    do 3 (split; [done|]). cbn [bg_ticks]. by rewrite Emod.
Qed.

(** The loop goes around the slots, and cleans those it comes by. *)
Lemma background_loop_run clock t0 t b m e :
  background_ok b m e → Forall (λ now_us, t0 <= now_us <= t) clock →
  engine_room e (Z.of_nat (length clock) * tick_writes) →
  let next := ExpireSweeper.next_slot_ (bg_sweeper b) in
  ∃ b' m' e', background_loop clock b m e = Some ((b', m'), e') ∧ background_ok b' m' e' ∧
    SlotCount e' = SlotCount e ∧ ms_budget_ m' = ms_budget_ m ∧
    bg_ticks b' = ((bg_ticks b + length clock) mod kTicksPerMaintenance)%nat ∧
    (clock ≠ [] → bg_ticks b' = 0%nat → total_log_bytes e' <= ms_budget_ m) ∧
    ∀ i s, slots_ e !! i = Some s → ∃ s', slots_ e' !! i = Some s' ∧ thinned t s s' ∧
      cleaned t0 t (visits next (SlotCount e) (length clock * kSlotsPerTick) i *
                    ExpireSweeper.kMaxExpiredKeysPerSlot) s s'.
Proof.
  revert b m e. induction clock as [|now_us clock IH]; intros b m e Hok Hf Hroom next.
  { exists b, m, e. do 4 (split; [done|]). cbn [length].
    rewrite Nat.add_0_r, Nat.mod_small by apply Hok. do 2 (split; [done|]).
    intros i s Hs. exists s. split; [done|]. split; [by apply thinned_same|]. by apply cleaned_none. }
  apply Forall_cons in Hf as [Hnow Hf]. cbn [length] in Hroom.
  rewrite Nat2Z.inj_succ, Z.mul_succ_l in Hroom.
  assert (0 <= tick_writes) as Htw by (unfold tick_writes; lia).
  destruct (background_tick_run now_us t b m e Hok ltac:(lia)) as
    (b1 & m1 & e1 & E1 & Hok1 & Hc1 & Hb1 & Hnext1 & Ht1 & Hfit1 & Hr1 & Hs1).
  { eapply engine_room_le; [|exact Hroom]. nia. }
  destruct (IH b1 m1 e1 Hok1 Hf) as (b2 & m2 & e2 & E2 & Hok2 & Hc2 & Hb2 & Ht2 & Hfit2 & Hs2).
  { apply Hr1; [nia|done]. }
  exists b2, m2, e2. cbn [background_loop]. unfold mbind, stM_bind. rewrite E1.
  split; [exact E2|]. split; [done|]. split; [congruence|]. split; [congruence|].
  split; [|split].
  - rewrite Ht2, Ht1. cbn [length]. rewrite Nat.Div0.add_mod_idemp_l. f_equal. lia.
  - intros _ Hz. destruct clock as [|now2 clock].
    + injection E2 as <- <- <-. by apply Hfit1.
    + rewrite <-Hb1. by apply Hfit2.
  - intros i s Hs. destruct (Hs1 i s Hs) as (s1 & Hi1 & Hth1 & Hcl1).
    destruct (Hs2 i s1 Hi1) as (s2 & Hi2 & Hth2 & Hcl2). exists s2. split; [done|].
    split; [by eapply thinned_trans|]. cbn [length]. rewrite Nat.mul_succ_l, Nat.add_comm, visits_add,
      Nat.mul_add_distr_r. eapply cleaned_trans; [apply Hth2|eapply (cleaned_earlier _ now_us); [lia|exact Hcl1]|].
    fold next in Hnext1. rewrite <-Hnext1, <-Hc1. exact Hcl2.
Qed.

(** In [rounds] rounds every slot is visited that often. *)
Lemma background_collects_run rounds clock t0 t b m e :
  background_ok b m e → Forall (λ now_us, t0 <= now_us <= t) clock →
  (rounds * SlotCount e <= length clock * kSlotsPerTick)%nat →
  engine_room e (Z.of_nat (length clock) * tick_writes) →
  ∃ b' m' e', background_loop clock b m e = Some ((b', m'), e') ∧ background_ok b' m' e' ∧
    ms_budget_ m' = ms_budget_ m ∧
    bg_ticks b' = ((bg_ticks b + length clock) mod kTicksPerMaintenance)%nat ∧
    (clock ≠ [] → bg_ticks b' = 0%nat → total_log_bytes e' <= ms_budget_ m) ∧
    ∀ i s, slots_ e !! i = Some s → ∃ s', slots_ e' !! i = Some s' ∧ thinned t s s' ∧
      ((size (expired_entries s t) < rounds * ExpireSweeper.kMaxExpiredKeysPerSlot)%nat →
       no_expired s' t0).
Proof.
  intros Hok Hf Hround Hroom.
  destruct (background_loop_run clock t0 t b m e Hok Hf Hroom)
    as (b' & m' & e' & E & Hok' & _ & Hb & Ht & Hfit & Hs).
  exists b', m', e'. do 5 (split; [done|]). intros i s Hi.
  destruct (Hs i s Hi) as (s' & Hi' & Hth & Hcl). exists s'. split; [done|]. split; [done|].
  intros Hsize. eapply cleaned_all; [exact Hcl|]. eapply Nat.lt_le_trans; [exact Hsize|].
  apply Nat.mul_le_mono_r, visits_rounds; [apply Hok|by eapply lookup_lt_Some|done].
Qed.
End background.
