(* ===== verification/Shipping.v ===== *)
(** * From the primary's log to the replica

    What [serve_slot] puts in a batch for a slot, handed to [EnqueueFrame],
    takes a replica that is in sync with an earlier state of the primary's
    slot to a later one, and to the current one when the batch is large
    enough; afterwards the primary's record of what was sent is again what the
    replica has. *)

From S2P Require Import Prelude Text Containers Double RedisObject Binlog HashSlot Engine Response Command Dispatcher Replay Resp ReplFrame SnapshotCodec Slave Convergence Master.

Section shipping.
Context {IC : ImmutableContainer} {RL : RespLib} {HI : History}.

(** Every frame of the list is accepted, one after another. *)
Fixpoint enqueue_all (rnd : nat → nat) (now : Z) (frames : list Frame) (s : SlaveReplicator)
    : option SlaveReplicator :=
  match frames with
  | [] => Some s
  | f :: rest =>
      '(ok, s') ← EnqueueFrame rnd f now s;
      if ok : bool then enqueue_all rnd now rest s' else None
  end.

Lemma enqueue_all_app rnd now f1 f2 s s1 :
  enqueue_all rnd now f1 s = Some s1 →
  enqueue_all rnd now (f1 ++ f2) s = enqueue_all rnd now f2 s1.
Proof.
  revert s. induction f1 as [|f f1 IH]; intros s; cbn [enqueue_all app]; [by intros [= <-]|].
  destruct (EnqueueFrame rnd f now s) as [[[] s']|]; cbn; [apply IH|done|done].
Qed.

(** *** Frames of the current session *)

Lemma ApplyLog_keeps rnd i record now s b s' :
  ApplyLog rnd i record now s = Some (b, s') →
  sl_session_id_ s' = sl_session_id_ s ∧ length (sl_slots_ s') = length (sl_slots_ s).
Proof.
  unfold ApplyLog, get_state, set_state, on_engine, mbind, stM_bind, mret, stM_ret.
  destruct (sl_slots_ s !! i) as [state|]; cbn; [|done].
  destruct (sa_need_snapshot state); [by intros [= <- <-]|].
  destruct (_ <=? _); [by intros [= <- <-]|].
  destruct (_ =? _); cbn.
  - destruct (ApplyRecord rnd record now i (sl_engine_ s)) as [[[] e']|]; cbn; [| |done].
    + destruct (MarkSlotReplicaAppliedSeq i (rec_seq record) e') as [[[] e2]|]; cbn; [|done].
      intros [= <- <-]. cbn. by rewrite length_insert.
    + intros [= <- <-]. cbn. by rewrite length_insert.
  - intros [= <- <-]. cbn. by rewrite length_insert.
Qed.

Lemma EnqueueFrame_Log rnd now i record s :
  sl_session_id_ s ≠ "" → (i < length (sl_slots_ s))%nat →
  EnqueueFrame rnd (Frame_Log (sl_session_id_ s) (Z.of_nat i) record) now s =
  ApplyLog rnd i record now s.
Proof.
  intros Hs Hi. unfold EnqueueFrame. cbn [fr_subcmd Frame_Log fr_session_id fr_slot_id fr_record].
  rewrite !decide_False by done. rewrite (proj2 (String.eqb_neq _ _)) by done.
  rewrite String.eqb_refl. cbn [negb orb]. rewrite Z.geb_leb, (proj2 (Z.leb_gt _ _)) by lia.
  by rewrite Nat2Z.id.
Qed.

Lemma EnqueueFrame_Snapshot rnd now i base_seq payload s :
  sl_session_id_ s ≠ "" → (i < length (sl_slots_ s))%nat →
  EnqueueFrame rnd (Frame_Snapshot (sl_session_id_ s) (Z.of_nat i) base_seq payload) now s =
  ApplySnapshot i payload base_seq s.
Proof.
  intros Hs Hi. unfold EnqueueFrame.
  cbn [fr_subcmd Frame_Snapshot fr_session_id fr_slot_id fr_snapshot_payload fr_base_seq].
  rewrite !decide_False by done. rewrite (proj2 (String.eqb_neq _ _)) by done.
  rewrite String.eqb_refl. cbn [negb orb]. rewrite Z.geb_leb, (proj2 (Z.leb_gt _ _)) by lia.
  by rewrite Nat2Z.id.
Qed.

Lemma enqueue_logs rnd now i records s s' :
  sl_session_id_ s ≠ "" → (i < length (sl_slots_ s))%nat →
  ApplyLogs rnd i now records s = Some (true, s') →
  enqueue_all rnd now (log_frames (sl_session_id_ s) i records) s = Some s'.
Proof.
  intros Hs Hi E. cut (true = true ∧
    enqueue_all rnd now (log_frames (sl_session_id_ s) i records) s = Some s'); [by intros []|].
  remember (sl_session_id_ s) as session eqn:Es. unfold ApplyLogs in E.
  revert E. generalize true at 1 3 as ok. revert s Es Hi.
  induction records as [|r records IH]; intros s Es Hi ok E; [by injection E as -> <-|].
  cbn [foldM log_frames fmap list_fmap enqueue_all] in E |- *.
  unfold mbind, stM_bind, mret, stM_ret in E.
  rewrite Es, EnqueueFrame_Log by (done || congruence).
  destruct (ApplyLog rnd i r now s) as [[b s1]|] eqn:E1; [|done].
  apply ApplyLog_keeps in E1 as [Hse Hl]. rewrite <-Es in *.
  destruct (IH s1 ltac:(congruence) ltac:(lia) _ E) as [Hok Hen].
  apply andb_true_iff in Hok as [-> ->]. by cbn.
Qed.

(** *** Pieces of a run *)

Lemma primary_run_split i s evs s' n :
  primary_run i s evs s' →
  ∃ mid, primary_run i s (take n evs) mid ∧ primary_run i mid (drop n evs) s'.
Proof.
  intros Hr. revert n.
  induction Hr as [s Hg|s ev s1 evs s2 Hg Hk Hf Hc Hr IH|s seq evs s2 Hg Hr IH]; intros n.
  - exists s. rewrite take_nil, drop_nil. by split; apply run_nil.
  - destruct n as [|n].
    + exists s. split; [by apply run_nil|]. by eapply run_cons.
    + destruct (IH n) as (mid & H1 & H2). exists mid. split; [by eapply run_cons|done].
  - destruct (IH n) as (mid & H1 & H2). exists mid. split; [|done]. by eapply run_ack.
Qed.

Lemma run_records_prefix seq evs k rest :
  run_records seq evs = k ++ rest → k = run_records seq (take (length k) evs).
Proof.
  revert seq evs. induction k as [|r k IH]; intros seq evs E; [done|].
  destruct evs as [|ev evs]; [done|]. rewrite run_records_event in E. injection E as <- E.
  cbn [length take]. rewrite run_records_event. f_equal. by apply IH.
Qed.

Lemma follows_app seq k1 k2 :
  follows seq (k1 ++ k2) ↔ follows seq k1 ∧ follows (last_seq seq k1) k2.
Proof.
  unfold last_seq. revert seq. induction k1 as [|r k1 IH]; intros seq; cbn; [tauto|].
  rewrite IH. tauto.
Qed.

Lemma last_seq_run seq evs : last_seq seq (run_records seq evs) = seq + Z.of_nat (length evs).
Proof.
  unfold last_seq. revert seq. induction evs as [|ev evs IH]; intros seq; cbn; [lia|].
  rewrite IH. lia.
Qed.

(** *** What the two sides know of each other *)

(** Sequence numbers far from the end of their range. *)
Definition seqs_below (e : CacheEngine) : Prop :=
  ∀ i s, slots_ e !! i = Some s → slot_seq_ s <= INT64_MAX.

(** The replica's slot is in sync with an earlier point of the run of the
    primary's slot. *)
Record behind (i : nat) (sl : SlaveReplicator) (p0 : HashSlot) (evs : list write_event)
    (p : HashSlot) : Prop := {
  bh_sync : in_sync i sl p0;
  bh_run : primary_run i p0 evs p;
  bh_ok : slot_ok i p0;
  bh_logs : log_writes_ p0 = true;
  bh_room : slot_seq_ p0 + Z.of_nat (length evs) <= INT64_MAX;
}.

(** A slot of the replica that asks for a snapshot, or is behind. *)
Definition tracks (i : nat) (sl : SlaveReplicator) (p : HashSlot) : Prop :=
  (∃ state, sl_slots_ sl !! i = Some state ∧ sa_need_snapshot state = true) ∨
  ∃ p0 evs, behind i sl p0 evs p.

(** The primary knows what the slot of the replica has, or will send an
    image. *)
Definition agreed (i : nat) (sl : SlaveReplicator) (p : HashSlot) (st : ReplicaSlotState) : Prop :=
  rs_need_snapshot st = true ∨ ∃ p0 evs, behind i sl p0 evs p ∧ rs_sent_seq st = slot_seq_ p0.

(** A slot the primary can send an image of. *)
Record sendable (i : nat) (p : HashSlot) : Prop := {
  sd_ok : slot_ok i p;
  sd_logs : log_writes_ p = true;
  sd_seq : slot_seq_ p <= INT64_MAX;
  sd_faithful : map_Forall (λ _ o, faithful o) (to_gmap (redis_obj_map_ p));
  sd_size : Z.of_nat (length (snapshot_texts (redis_obj_map_ p))) <= kMaxSnapshotElements;
}.

Lemma primary_run_writes i p evs p' :
  primary_run i p evs p' → log_writes_ p' = log_writes_ p.
Proof.
  induction 1 as [s _|s ev s1 evs s2 _ _ Hf Hc Hr IH|s seq evs s2 _ Hr IH]; [done| |by rewrite IH].
  by rewrite IH, (co_log_writes _ _ _ _ _ _ Hc).
Qed.

Lemma behind_point i sl p0 evs p :
  behind i sl p0 evs p → ∃ state slot, sl_slots_ sl !! i = Some state ∧
    slots_ (sl_engine_ sl) !! i = Some slot ∧ sa_need_snapshot state = false ∧
    sa_applied_seq state = slot_seq_ p0.
Proof. intros [(state & slot & H1 & H2 & H3 & H4 & _) _ _ _ _]. by exists state, slot. Qed.

Lemma in_sync_same i sl sl' p :
  sl_slots_ sl' !! i = sl_slots_ sl !! i →
  slots_ (sl_engine_ sl') !! i = slots_ (sl_engine_ sl) !! i → in_sync i sl p → in_sync i sl' p.
Proof. intros E1 E2 (state & slot & H). exists state, slot. by rewrite E1, E2. Qed.

Lemma behind_same i sl sl' p0 evs p :
  sl_slots_ sl' !! i = sl_slots_ sl !! i →
  slots_ (sl_engine_ sl') !! i = slots_ (sl_engine_ sl) !! i →
  behind i sl p0 evs p → behind i sl' p0 evs p.
Proof. intros E1 E2 []. split; try done. by eapply in_sync_same. Qed.

Lemma tracks_same i sl sl' p :
  sl_slots_ sl' !! i = sl_slots_ sl !! i →
  slots_ (sl_engine_ sl') !! i = slots_ (sl_engine_ sl) !! i → tracks i sl p → tracks i sl' p.
Proof.
  intros E1 E2 [H|(p0 & evs & H)]; [left; by rewrite E1|].
  right. exists p0, evs. by eapply behind_same.
Qed.

Lemma agreed_same i sl sl' p st :
  sl_slots_ sl' !! i = sl_slots_ sl !! i →
  slots_ (sl_engine_ sl') !! i = slots_ (sl_engine_ sl) !! i → agreed i sl p st → agreed i sl' p st.
Proof.
  intros E1 E2 [H|(p0 & evs & H & Hs)]; [by left|].
  right. exists p0, evs. split; [|done]. by eapply behind_same.
Qed.

Context {CL : ContainerLaws IC} {RW : RespLaws RL}.

(** When the records newer than the beginning of a run start with the next
    one, they are the records of the run: what the log has dropped is older. *)
Lemma newer_run i p0 evs p r k :
  primary_run i p0 evs p → slot_ok i p0 → slot_ok i p → log_writes_ p0 = true →
  slot_seq_ p0 + Z.of_nat (length evs) < UINT64_MAX →
  BinlogBuffer.newer (slot_seq_ p0) (BinlogBuffer.records_ (binlog_buffer_ p)) = r :: k →
  rec_seq r = slot_seq_ p0 + 1 →
  BinlogBuffer.newer (slot_seq_ p0) (BinlogBuffer.records_ (binlog_buffer_ p)) =
    run_records (slot_seq_ p0) evs.
Proof.
  intros Hrun Hok0 Hok Hl Hroom Hnew Hr.
  destruct (primary_run_log i p0 evs p Hrun Hl (so_seq _ _ Hok0) (so_bytes _ _ Hok0) ltac:(lia))
    as (Hseq & d & Hd).
  rewrite (BinlogBuffer.consecutive_newer _ (slot_seq_ p)) in Hnew |- * by apply Hok.
  set (n := Z.to_nat _) in *. set (recs := BinlogBuffer.records_ (binlog_buffer_ p)) in *.
  assert (BinlogBuffer.consecutive (r :: k) (slot_seq_ p)) as [Hc _].
  { rewrite <-Hnew. apply (BinlogBuffer.consecutive_suffix (take n recs)).
    rewrite take_drop. apply Hok. }
  rewrite <-(take_drop n recs), app_assoc in Hd.
  apply app_inj_2 in Hd as [_ Hd]; [done|].
  rewrite run_records_length, Hnew. cbn [length]. lia.
Qed.

(** What a slot sends never skips a record: the records put in a batch are the
    first ones of the run, whatever the other reads of the slot found. *)
Lemma sent_run i p0 evs p k rest :
  primary_run i p0 evs p → slot_ok i p0 → slot_ok i p → log_writes_ p0 = true →
  slot_seq_ p0 + Z.of_nat (length evs) < UINT64_MAX →
  BinlogBuffer.newer (slot_seq_ p0) (BinlogBuffer.records_ (binlog_buffer_ p)) = k ++ rest →
  follows (slot_seq_ p0) k →
  k = run_records (slot_seq_ p0) (take (length k) evs).
Proof.
  intros Hrun Hok0 Hok Hl Hroom Hnew Hf. destruct k as [|r k]; [done|].
  destruct Hf as [Hr _]. pose proof (so_seq _ _ Hok0) as [Hu _].
  assert (rec_seq r = slot_seq_ p0 + 1) as Hr' by (rewrite Hr; u64_lia).
  pose proof (newer_run i p0 evs p r (k ++ rest) Hrun Hok0 Hok Hl Hroom Hnew Hr') as H.
  rewrite Hnew in H. exact (run_records_prefix _ _ (r :: k) rest (eq_sym H)).
Qed.

(** Runs keep the invariant of a slot. *)
Lemma primary_run_ok i p evs p' :
  primary_run i p evs p' → slot_ok i p → slot_seq_ p + Z.of_nat (length evs) <= INT64_MAX →
  slot_ok i p'.
Proof.
  induction 1 as [s _|s ev s1 evs s2 _ Hk Hf Hc Hr IH|s seq evs s2 _ Hr IH]; intros Hok Hroom; [done| |].
  - cbn [length] in Hroom.
    pose proof (so_seq _ _ Hok) as Hu.
    assert (slot_seq_ s + 1 <= INT64_MAX) as Hroom1 by lia.
    apply IH; [|rewrite (co_seq _ _ _ _ _ _ Hc); u64_lia].
    eapply faithful_committed_ok; [done|unfold INT64_MAX, UINT64_MAX in *; lia|done..].
  - apply IH; [by apply AckLogsThrough_ok|done].
Qed.

Lemma behind_seq i sl p0 evs p :
  behind i sl p0 evs p → slot_seq_ p = slot_seq_ p0 + Z.of_nat (length evs).
Proof.
  intros []. eapply primary_run_log; try done; [by apply so_seq with i|by apply so_bytes with i|].
  unfold INT64_MAX, UINT64_MAX in *. lia.
Qed.

Lemma behind_later i sl p0 evs p evs' p' :
  behind i sl p0 evs p → primary_run i p evs' p' →
  slot_seq_ p + Z.of_nat (length evs') <= INT64_MAX → behind i sl p0 (evs ++ evs') p'.
Proof.
  intros H Hr Hroom. rewrite (behind_seq _ _ _ _ _ H) in Hroom. destruct H.
  split; try done; [by eapply primary_run_app|rewrite length_app; lia].
Qed.

Lemma tracks_later i sl p evs p' :
  tracks i sl p → primary_run i p evs p' →
  slot_seq_ p + Z.of_nat (length evs) <= INT64_MAX → tracks i sl p'.
Proof.
  intros [H|(p0 & evs0 & H)] Hr Hroom; [by left|right].
  exists p0, (evs0 ++ evs). by eapply behind_later.
Qed.

(** Records the primary's log begins with, after what the replica has: the
    replica accepts them and is behind the same slot, at a later point. *)
Lemma log_frames_ship rnd now i sl p0 evs p k rest :
  slave_ok sl → sl_session_id_ sl ≠ "" → is_u64 now → behind i sl p0 evs p → slot_ok i p →
  BinlogBuffer.newer (slot_seq_ p0) (BinlogBuffer.records_ (binlog_buffer_ p)) = k ++ rest →
  follows (slot_seq_ p0) k →
  ∃ sl' p' evs',
    enqueue_all rnd now (log_frames (sl_session_id_ sl) i k) sl = Some sl' ∧
    slave_ok sl' ∧ only_slot i sl sl' ∧ behind i sl' p' evs' p ∧
    last_seq (slot_seq_ p0) k = slot_seq_ p' ∧ length evs = (length k + length evs')%nat.
Proof.
  intros Hok Hse Hn [Hs Hrun Hok0 Hl Hroom] Hokp Hnew Hf.
  assert (i < length (sl_slots_ sl))%nat as Hi.
  { destruct Hs as (st & slot & Hst & _). by eapply lookup_lt_Some. }
  pose proof (sent_run i p0 evs p k rest Hrun Hok0 Hokp Hl
    ltac:(unfold INT64_MAX, UINT64_MAX in *; lia) Hnew Hf) as Hkk.
  remember (length k) as n eqn:Ecount. subst k. rewrite run_records_length in Ecount.
  destruct (primary_run_split _ _ _ _ n Hrun) as (mid & Hr1 & Hr2).
  pose proof (take_drop n evs) as Htd.
  assert (length (take n evs) + length (drop n evs) = length evs)%nat as Hsum
    by (by rewrite <-length_app, Htd).
  destruct (primary_run_log i p0 _ mid Hr1 Hl (so_seq _ _ Hok0) (so_bytes _ _ Hok0))
    as [Hmid _]; [unfold INT64_MAX, UINT64_MAX in *; lia|].
  destruct (ApplyLogs_sync rnd i now sl p0 (take n evs) mid Hok) as (sl' & Ea & Hok' & Hs' & Ho);
    [unfold INT64_MAX, UINT64_MAX in *; lia|done..|].
  exists sl', mid, (drop n evs).
  split; [by apply enqueue_logs|].
  do 2 (split; [done|]). split; [|split; [by rewrite last_seq_run, Hmid|lia]].
  split; [done|done| | |lia].
  - eapply primary_run_ok; [exact Hr1|done|lia].
  - by rewrite (primary_run_writes _ _ _ _ Hr1).
Qed.
End shipping.
