(* ===== verification/Socket.v ===== *)
(** * Sockets

    What the system calls on a connection return is not for the program to
    choose: it is given here as a list of results, one for each call, and the
    definitions that read or write a socket take them one after another.
    After the last result of a list a write fails; a read waits. *)

From S2P Require Import Prelude Text Response Resp.

(** [read]: some bytes, [EAGAIN] and whether the wait that follows reports the
    socket ready, [EINTR], the end of the stream or another error. *)
Inductive read_result :=
  | ReadBytes (bytes : string)
  | ReadAgain (ready : bool)
  | ReadInterrupted
  | ReadEnd.

(** [write]: how many bytes were taken, [EAGAIN], [EINTR], another error. *)
Inductive write_result :=
  | Wrote (n : nat)
  | WriteAgain
  | WriteInterrupted
  | WriteFailed.

(** The results still to come, and the bytes the peer has been sent. *)
Record socket := mkSocket {
  so_writes : list write_result;
  so_sent : string;
}.

(** The loop over [write]; [retry] tells which failed calls are repeated. *)
Fixpoint write_loop (retry : write_result → bool) (writes : list write_result)
    (bytes sent : string) : bool * socket :=
  match bytes with
  | EmptyString => (true, mkSocket writes sent)
  | _ =>
      match writes with
      | [] => (false, mkSocket [] sent)
      | Wrote (S n) :: rest =>
          write_loop retry rest (str_drop (S n) bytes) (sent +:+ str_take (S n) bytes)
      | r :: rest => if retry r then write_loop retry rest bytes sent else (false, mkSocket rest sent)
      end
  end.

Definition write_bytes (retry : write_result → bool) (bytes : string) (s : socket) : bool * socket :=
  write_loop retry (so_writes s) bytes (so_sent s).

(** ** Lemmas *)

Lemma str_take_drop n s : str_take n s +:+ str_drop n s = s.
Proof.
  revert s. induction n as [|n IH]; intros [|c s]; try done. cbn. by rewrite string_app_cons, IH.
Qed.

(** A prefix of what was to be sent is sent, and all of it when the loop
    succeeds. *)
Lemma write_loop_spec retry writes bytes sent :
  let '(ok, s') := write_loop retry writes bytes sent in
  ∃ p q, bytes = p +:+ q ∧ so_sent s' = sent +:+ p ∧ (ok = true ↔ q = "").
Proof.
  assert (∀ c b t, ∃ p q, String c b = p +:+ q ∧ t = t +:+ p ∧ (false = true ↔ q = "")) as Hstop.
  { intros c b t. exists "", (String c b). by rewrite string_app_nil_r. }
  assert (∀ t, ∃ p q, "" = p +:+ q ∧ t = t +:+ p ∧ (true = true ↔ q = "")) as Hend.
  { intros t. exists "", "". by rewrite !string_app_nil_r. }
  revert bytes sent. induction writes as [|w writes IH]; intros [|c bytes] sent;
    [apply Hend|apply Hstop|apply Hend|].
  cbn [write_loop].
  destruct w as [[|n]| | |]; try (destruct (retry _); [apply IH|apply Hstop]).
  pose proof (str_take_drop (S n) (String c bytes)) as Hs.
  specialize (IH (str_drop (S n) (String c bytes)) (sent +:+ str_take (S n) (String c bytes))).
  destruct (write_loop _ _ _ _) as [ok s']. destruct IH as (p & q & Hq & -> & Hok).
  exists (str_take (S n) (String c bytes) +:+ p), q.
  rewrite !string_app_assoc, <-Hq, Hs. done.
Qed.

Lemma write_bytes_spec retry bytes s :
  let '(ok, s') := write_bytes retry bytes s in
  ∃ p q, bytes = p +:+ q ∧ so_sent s' = so_sent s +:+ p ∧ (ok = true ↔ q = "").
Proof. apply write_loop_spec. Qed.

(** ** Commands on a stream *)

Section stream.
Context {RL : RespLib}.

Definition packed (cmds : list (list string)) : string :=
  foldr (λ args out, pack_command args +:+ out) "" cmds.

Context {RW : RespLaws RL}.

Lemma pack_command_nonempty args : (1 <= String.length (pack_command args))%nat.
Proof. rewrite pack_command_unfold, length_app_string, wire_number_length. lia. Qed.

Lemma packed_app l1 l2 : packed (l1 ++ l2) = packed l1 +:+ packed l2.
Proof.
  induction l1 as [|args l1 IH]; [by rewrite string_app_nil_l|].
  cbn [app packed foldr]. fold (packed (l1 ++ l2)) (packed l1). by rewrite IH, string_app_assoc.
Qed.

Lemma packed_length l : (length l <= String.length (packed l))%nat.
Proof.
  induction l as [|args l IH]; [done|]. cbn [packed foldr length]. fold (packed l).
  rewrite length_app_string. pose proof (pack_command_nonempty args). lia.
Qed.

Lemma AppendBytes_fits c bytes :
  RespCodec.protocol_error_ c = false →
  size_of (RespCodec.stream_ c) + size_of bytes <= RespCodec.max_stream_bytes_ c →
  RespCodec.AppendBytes c bytes =
    (true, RespCodec.with_stream c (RespCodec.stream_ c +:+ bytes)).
Proof.
  intros Hp Hs. unfold RespCodec.AppendBytes. rewrite Hp.
  replace (_ || _) with false; [done|]. symmetry. apply orb_false_iff.
  rewrite !Z.gtb_ltb, !Z.ltb_ge. unfold size_of in *. lia.
Qed.

(** Two ways to cut a string. *)
Lemma string_app_cut a b c d :
  a +:+ b = c +:+ d →
  (∃ x, c = a +:+ x ∧ b = x +:+ d) ∨ (∃ x, a = c +:+ x ∧ d = x +:+ b ∧ x ≠ "").
Proof.
  revert c. induction a as [|ch a IH]; intros c E.
  { left. exists c. by rewrite !string_app_nil_l in *. }
  destruct c as [|ch' c].
  { right. exists (String ch a). rewrite !string_app_nil_l in *. done. }
  rewrite !string_app_cons in E. injection E as -> E.
  destruct (IH c E) as [(x & -> & ->)|(x & -> & -> & Hx)].
  - left. exists x. by rewrite string_app_cons.
  - right. exists x. by rewrite string_app_cons.
Qed.

(** Wherever the bytes of some commands are cut, the first part holds the
    first commands and a proper part of the next one, or of the rest. *)
Lemma packed_cut cmds tail s rest :
  s +:+ rest = packed cmds +:+ tail →
  ∃ done_ left_ t, cmds = done_ ++ left_ ∧ s = packed done_ +:+ t ∧
    t +:+ rest = packed left_ +:+ tail ∧
    match left_ with
    | args :: _ => ∃ q, t +:+ q = pack_command args ∧ q ≠ ""
    | [] => True
    end.
Proof.
  revert s. induction cmds as [|args cmds IH]; intros s E.
  { exists [], [], s. rewrite string_app_nil_l. done. }
  pose proof E as E0. cbn [packed foldr] in E. fold (packed cmds) in E. rewrite string_app_assoc in E.
  destruct (string_app_cut _ _ _ _ E) as [(x & Hx & Hrest)|(x & -> & Hd & Hne)].
  - destruct (decide (x = "")) as [->|Hne].
    + rewrite string_app_nil_r in Hx. destruct (IH "") as (d & l & t & -> & Ht & Htr & Hm).
      { rewrite string_app_nil_l in *. by rewrite Hrest. }
      exists (args :: d), l, t. split; [done|]. split; [|done].
      cbn [packed foldr]. fold (packed d). by rewrite string_app_assoc, <-Ht, string_app_nil_r.
    + exists [], (args :: cmds), s. split; [done|]. split; [by rewrite string_app_nil_l|].
      split; [done|]. by exists x.
  - destruct (IH x) as (d & l & t & -> & -> & Htr & Hm); [done|].
    exists (args :: d), l, t. split; [done|]. split; [|done].
    cbn [packed foldr]. fold (packed d). by rewrite string_app_assoc.
Qed.
End stream.
