(* ===== verification/Server.v ===== *)
(** * Connections: Worker::ProcessInput and ConnectionRoutine of src/net/server

    What happens to the bytes of a connection: commands become replies. The
    system calls are given by the results they return (Socket.v); the clock
    and the random engine by what each command reads from them. Bytes that
    have been written are kept, in order.

    A node is built as [main.cpp] builds it: a configuration is always there.
    The loop over the commands of a stream takes fuel; every command takes at
    least one byte off the stream, so the length of the stream plus one is
    enough. Polls of the primary are answered from one state of the cache
    here; Polling.v has the answers with commands in between. *)

From S2P Require Import Prelude Text Containers RedisObject Binlog HashSlot Engine Response Command Dispatcher Resp ReplFrame SnapshotCodec Slave Master Socket.

Section server.
Context {IC : ImmutableContainer} {RL : RespLib}.

(** The objects behind a connection, by role. The engine of a replica is
    reached through its replicator. *)
Inductive node :=
  | MasterNode (engine : CacheEngine) (master_replicator : option MasterReplicator)
  | ReplicaNode (slave_replicator : option SlaveReplicator) (replica_reads : bool).

Definition IsCacheReplCommand (args : list string) : bool :=
  match args with name :: _ => String.eqb (ToUpperAscii name) "CACHE.REPL" | [] => false end.

(** The policy passed to [NextCommand]. *)
Definition accept_command (n : node) (name : string) (count : Z) : bool :=
  (count <=? 1024) ||
  match n with
  | MasterNode _ (Some _) => String.eqb (ToUpperAscii name) "CACHE.REPL"
  | _ => false
  end.

(** What the body of the loop does with a command. *)
Inductive action :=
  | Reply (r : Response)
  | SendFrames (frames : list Frame).

Definition process_command (rnd : nat → nat) (now : Z) (args : list string) (n : node)
    : option (action * node) :=
  match n with
  | MasterNode e (Some m) =>
      if IsCacheReplCommand args then
        match DecodeFrame_args args with
        | Some frame =>
            if negb (bool_decide (fr_subcmd frame = kHello))
            then Some (Reply (Error "ERR invalid repl frame or version"), n)
            else
              let view slot_id := quiet (default HashSlot_new (slots_ e !! slot_id)) in
              '(frames, m') ← Poll view view (SlotCount e) m frame 4096;
              Some (SendFrames frames, MasterNode e (Some m'))
        | None => Some (Reply (Error "ERR invalid repl frame or version"), n)
        end
      else
        '(r, e') ← Execute rnd args now e; Some (Reply r, MasterNode e' (Some m))
  | MasterNode e None => '(r, e') ← Execute rnd args now e; Some (Reply r, MasterNode e' None)
  | ReplicaNode (Some s) reads =>
      '(r, s') ← ExecuteRead rnd args now reads s; Some (Reply r, ReplicaNode (Some s') reads)
  | ReplicaNode None reads =>
      Some (Reply (Error "TRYAGAIN replica is unavailable"), n)
  end.

(** ** [ProcessInput] *)

(** What each command reads from the clock and from the random engine. *)
Definition environment : Type := nat → Z * (nat → nat).
Definition next (env : environment) : environment := λ k, env (S k).
Fixpoint later (n : nat) (env : environment) : environment :=
  match n with O => env | S n' => later n' (next env) end.

Record connection := mkConnection {
  cn_codec : RespCodec.t;
  cn_out : string;            (* replies not written yet *)
  cn_socket : socket;
  cn_node : node;
  cn_env : environment;
}.

(** [WriteAll]: only [EAGAIN] is waited for. *)
Definition WriteAll (bytes : string) (s : socket) : bool * socket :=
  write_bytes (λ r, match r with WriteAgain => true | _ => false end) bytes s.

(** The writes of the answer to a poll: the first that fails is the last. *)
Fixpoint write_all (l : list string) (s : socket) : bool * socket :=
  match l with
  | [] => (true, s)
  | bytes :: l' => let '(ok, s') := WriteAll bytes s in if ok then write_all l' s' else (false, s')
  end.

(** The result is [true] when the connection stays open. *)
Fixpoint ProcessInput (fuel : nat) (c : connection) : option (bool * connection) :=
  match fuel with
  | O => None
  | S fuel' =>
      match RespCodec.NextCommand (cn_codec c) (Some (accept_command (cn_node c))) with
      | (Some [], codec) =>
          ProcessInput fuel' (mkConnection codec (cn_out c) (cn_socket c) (cn_node c) (cn_env c))
      | (Some args, codec) =>
          let '(now, rnd) := cn_env c 0%nat in
          '(act, n) ← process_command rnd now args (cn_node c);
          match act with
          | Reply r =>
              ProcessInput fuel'
                (mkConnection codec (cn_out c +:+ PackResponse r) (cn_socket c) n (next (cn_env c)))
          | SendFrames frames =>
              let pending := if String.eqb (cn_out c) "" then [] else [cn_out c] in
              let '(_, s) := write_all (pending ++ (EncodeFrame <$> frames)) (cn_socket c) in
              Some (false, mkConnection codec "" s n (next (cn_env c)))
          end
      | (None, codec) =>
          if negb (RespCodec.HasProtocolError codec)
          then Some (true, mkConnection codec (cn_out c) (cn_socket c) (cn_node c) (cn_env c))
          else
            let out := cn_out c +:+ PackResponse (Error ("ERR " +:+ RespCodec.ProtocolError codec)) in
            let '(_, s) := WriteAll out (cn_socket c) in
            Some (false, mkConnection codec out s (cn_node c) (cn_env c))
      end
  end.

(** ** [ConnectionRoutine], for one connection *)

Definition repl_listener (n : node) : bool :=
  match n with MasterNode _ (Some _) => true | _ => false end.

Definition kReplicationMaxArrayElements : Z := 1000000.

Definition new_codec (n : node) : RespCodec.t :=
  RespCodec.new (64 * 1024 * 1024) (64 * 1024 * 1024)
    (if repl_listener n then kReplicationMaxArrayElements else 1024).

(** The loop over [read]: [true] when it waits for more, [false] when the
    connection has been closed. *)
Fixpoint ConnectionLoop (reads : list read_result) (c : connection)
    : option (bool * connection) :=
  match reads with
  | [] => Some (true, c)
  | ReadBytes bytes :: rest =>
      let '(appended, codec) := RespCodec.AppendBytes (cn_codec c) bytes in
      if negb appended then
        let out := PackResponse (Error ("ERR " +:+ RespCodec.ProtocolError codec)) in
        let '(_, s) := WriteAll out (cn_socket c) in
        Some (false, mkConnection codec "" s (cn_node c) (cn_env c))
      else
        '(open, c1) ← ProcessInput (S (String.length (RespCodec.stream_ codec)))
                        (mkConnection codec "" (cn_socket c) (cn_node c) (cn_env c));
        if negb open then Some (false, c1)
        else if String.eqb (cn_out c1) "" then ConnectionLoop rest c1
        else
          let '(ok, s) := WriteAll (cn_out c1) (cn_socket c1) in
          let c2 := mkConnection (cn_codec c1) "" s (cn_node c1) (cn_env c1) in
          if ok then ConnectionLoop rest c2 else Some (false, c2)
  | ReadAgain true :: rest => ConnectionLoop rest c
  | _ => Some (false, c)
  end.

Definition new_connection (n : node) (env : environment) (writes : list write_result) : connection :=
  mkConnection (new_codec n) "" (mkSocket writes "") n env.

(** ** Theorems *)

Context {CL : ContainerLaws IC} {RW : RespLaws RL}.

(** *** Termination *)

(** What commands need, and what is left of it: [I k] holds of a node that can
    take commands of [k] arguments in all. *)
Definition serving (I : nat → node → Prop) (env : environment) : Prop :=
  ∀ i k n args, I (length args + k)%nat n → args ≠ [] →
    ∃ act n', process_command (env i).2 (env i).1 args n = Some (act, n') ∧ I k n'.

(** The loop ends: every command takes more bytes off the stream than it has
    arguments, so the length of the stream bounds the iterations, and what
    they need. *)
Lemma ProcessInput_ends (I : nat → node → Prop) fuel c k :
  (∀ k k' n, (k' <= k)%nat → I k n → I k' n) → serving I (cn_env c) →
  I (String.length (RespCodec.stream_ (cn_codec c)) + k)%nat (cn_node c) →
  (String.length (RespCodec.stream_ (cn_codec c)) < fuel)%nat →
  ∃ open c', ProcessInput fuel c = Some (open, c') ∧
    I (String.length (RespCodec.stream_ (cn_codec c')) + k)%nat (cn_node c') ∧
    ∃ i, cn_env c' = later i (cn_env c).
Proof.
  intros Hm. revert c. induction fuel as [|fuel IH]; intros c HI Hc Hf; [lia|]. cbn [ProcessInput].
  pose proof (NextCommand_stream (cn_codec c) (Some (accept_command (cn_node c)))) as Hs.
  destruct (RespCodec.NextCommand _ _) as [[args|] codec].
  - destruct Hs as [Hlt _]. destruct args as [|name args].
    { refine (IH (mkConnection codec (cn_out c) (cn_socket c) (cn_node c) (cn_env c)) HI _ _);
        [eapply Hm; [|exact Hc]|]; cbn in *; lia. }
    destruct (HI 0%nat (String.length (RespCodec.stream_ codec) + k)%nat (cn_node c) (name :: args))
      as (act & n' & E & Hn'); [eapply Hm; [|exact Hc]; lia|done|].
    destruct (cn_env c 0%nat) as [now rnd]. cbn [fst snd] in E. rewrite E.
    cbn [mbind option_bind]. destruct act as [r|frames].
    + match goal with |- context [ProcessInput fuel ?x] => destruct (IH x) as (o & c' & H1 & H2 & i & H3) end;
        [intros i; exact (HI (S i))|done|cbn in *; lia|].
      exists o, c'. do 2 (split; [done|]). by exists (S i).
    + destruct (write_all _ _) as [ok s]. eexists _, _. split; [done|]. split; [done|]. by exists 1%nat.
  - rewrite <-Hs in Hc.
    destruct (negb _); [eexists _, _; split; [done|]; split; [done|]; by exists 0%nat|].
    destruct (WriteAll _ _) as [ok s]. eexists _, _. split; [done|]. split; [done|]. by exists 0%nat.
Qed.

Lemma later_add i j env : later j (later i env) = later (i + j) env.
Proof. revert env. induction i as [|i IH]; intros env; [done|]. cbn. by rewrite IH. Qed.

Lemma later_lookup k env i : later k env i = env (k + i)%nat.
Proof. revert env i. induction k as [|k IH]; intros env i; [done|]. cbn. by rewrite IH. Qed.

(** The bytes some reads bring. *)
Definition bytes_of (r : read_result) : nat :=
  match r with ReadBytes bytes => String.length bytes | _ => 0%nat end.
Definition read_bytes (reads : list read_result) : nat := sum_list_with bytes_of reads.

Lemma AppendBytes_stream codec bytes :
  let '(appended, codec') := RespCodec.AppendBytes codec bytes in
  (String.length (RespCodec.stream_ codec') <= String.length (RespCodec.stream_ codec) + String.length bytes)%nat.
Proof.
  unfold RespCodec.AppendBytes. repeat case_match; simplify_eq; cbn; rewrite ?length_app_string; lia.
Qed.

(** The routine serves whatever arrives, until the connection is closed or
    nothing more has arrived. *)
Lemma ConnectionLoop_ends (I : nat → node → Prop) reads c k :
  (∀ k k' n, (k' <= k)%nat → I k n → I k' n) → serving I (cn_env c) →
  I (String.length (RespCodec.stream_ (cn_codec c)) + read_bytes reads + k)%nat (cn_node c) →
  ∃ open c', ConnectionLoop reads c = Some (open, c') ∧
    I (String.length (RespCodec.stream_ (cn_codec c')) + k)%nat (cn_node c') ∧
    ∃ i, cn_env c' = later i (cn_env c).
Proof.
  intros Hm. revert c. induction reads as [|r reads IH]; intros c HI Hc.
  { exists true, c. split; [done|]. split; [eapply Hm; [|exact Hc]; lia|by exists 0%nat]. }
  assert (∀ k', I (String.length (RespCodec.stream_ (cn_codec c)) + read_bytes (r :: reads) + k)%nat
    (cn_node c) → (k' <= String.length (RespCodec.stream_ (cn_codec c)) + read_bytes (r :: reads) + k)%nat →
    I k' (cn_node c)) as Hless by (intros; by eapply Hm).
  cbn [ConnectionLoop]. unfold read_bytes in *. cbn [sum_list_with] in *. fold (read_bytes reads) in *.
  destruct r as [bytes|[]| |]; cbn [bytes_of] in *;
    try (exists false, c; split; [done|]; split; [apply Hless; [done|lia]|by exists 0%nat]).
  2:{ apply IH; [done|]. apply Hless; [done|lia]. }
  pose proof (AppendBytes_stream (cn_codec c) bytes) as Happ.
  destruct (RespCodec.AppendBytes _ _) as [[] codec]; cbn [negb].
  2:{ destruct (WriteAll _ _) as [ok s]. eexists _, _. split; [done|].
      split; [apply Hless; [done|cbn; lia]|by exists 0%nat]. }
  destruct (ProcessInput_ends I (S (String.length (RespCodec.stream_ codec)))
    (mkConnection codec "" (cn_socket c) (cn_node c) (cn_env c)) (read_bytes reads + k)%nat Hm)
    as (open & c1 & E & Hc1 & i & Hi); [done|apply Hless; [done|cbn; lia]|cbn; lia|].
  rewrite E. cbn [mbind option_bind]. cbn [cn_env] in Hi.
  assert (∀ (o : bool) (c' : connection), I (String.length (RespCodec.stream_ (cn_codec c')) + k)%nat (cn_node c') →
    cn_env c' = cn_env c1 →
    ∃ open' c'', Some (o, c') = Some (open', c'') ∧
      I (String.length (RespCodec.stream_ (cn_codec c'')) + k)%nat (cn_node c'') ∧
      ∃ j, cn_env c'' = later j (cn_env c)) as Hend.
  { intros o c' Hc' Henv. exists o, c'. split; [done|]. split; [done|]. exists i. by rewrite Henv. }
  assert (∀ c2 : connection, I (String.length (RespCodec.stream_ (cn_codec c2)) + read_bytes reads + k)%nat (cn_node c2) →
    cn_env c2 = cn_env c1 →
    ∃ open' c'', ConnectionLoop reads c2 = Some (open', c'') ∧
      I (String.length (RespCodec.stream_ (cn_codec c'')) + k)%nat (cn_node c'') ∧
      ∃ j, cn_env c'' = later j (cn_env c)) as Hgo.
  { intros c2 Hc2 Henv. destruct (IH c2) as (o & c3 & E3 & Hc3 & j & Hj); [|done|].
    { intros j. rewrite Henv, Hi, later_lookup. apply HI. }
    exists o, c3. do 2 (split; [done|]). exists (i + j)%nat. by rewrite Hj, Henv, Hi, later_add. }
  assert (I (String.length (RespCodec.stream_ (cn_codec c1)) + k)%nat (cn_node c1)) as Hc1'
    by (eapply Hm; [|exact Hc1]; lia).
  rewrite Nat.add_assoc in Hc1. destruct open; cbn [negb]; [|by apply Hend].
  destruct (String.eqb _ _); [by apply Hgo|].
  destruct (WriteAll _ _) as [[] s]; [by apply Hgo|by apply Hend].
Qed.

(** A replica serves whatever it is sent, and no input changes its data. *)
Lemma ConnectionLoop_replica reads c s enabled :
  slave_ok s → (∀ k, is_u64 (cn_env c k).1) → cn_node c = ReplicaNode (Some s) enabled →
  ∃ open c', ConnectionLoop reads c = Some (open, c') ∧
    cn_node c' = ReplicaNode (Some s) enabled.
Proof.
  intros Hs Hn Hc.
  destruct (ConnectionLoop_ends (λ _ n, n = ReplicaNode (Some s) enabled) reads c 0)
    as (open & c' & E & Hc' & _); [done| |done|by exists open, c'].
  intros i k n args -> _. cbn [process_command].
  destruct (ExecuteRead_local (cn_env c i).2 args (cn_env c i).1 enabled s s Hs Hs (Hn i) eq_refl)
    as (r & -> & _); [done|].
  by eexists _, _.
Qed.

(** *** Pipelining *)

(** Commands executed one after another, with their replies. *)
Fixpoint run_commands (env : environment) (cmds : list (list string)) (n : node)
    : option (list Response * node) :=
  match cmds with
  | [] => Some ([], n)
  | args :: rest =>
      '(act, n1) ← process_command (env 0%nat).2 (env 0%nat).1 args n;
      match act with
      | Reply r => '(rs, n2) ← run_commands (next env) rest n1; Some (r :: rs, n2)
      | SendFrames _ => None
      end
  end.

Definition replies (rs : list Response) : string :=
  foldr (λ r out, PackResponse r +:+ out) "" rs.

Lemma replies_app l1 l2 : replies (l1 ++ l2) = replies l1 +:+ replies l2.
Proof.
  induction l1 as [|r l1 IH]; [by rewrite string_app_nil_l|].
  cbn [app replies foldr]. fold (replies (l1 ++ l2)) (replies l1). by rewrite IH, string_app_assoc.
Qed.

Lemma run_commands_app env l1 l2 n rs n' :
  run_commands env (l1 ++ l2) n = Some (rs, n') →
  ∃ rs1 n1 rs2, run_commands env l1 n = Some (rs1, n1) ∧
    run_commands (later (length l1) env) l2 n1 = Some (rs2, n') ∧ rs = rs1 ++ rs2.
Proof.
  revert env n rs. induction l1 as [|args l1 IH]; intros env n rs E; [by exists [], n, rs|].
  cbn [app run_commands] in E |- *.
  destruct (process_command _ _ _ _) as [[[r|] n1]|]; [|done|done]. cbn [mbind option_bind] in *.
  destruct (run_commands _ (l1 ++ l2) _) as [[rs0 n0]|] eqn:E0; [|done].
  cbn [mbind option_bind] in E. injection E as <- <-.
  destruct (IH _ _ _ E0) as (rs1 & n2 & rs2 & -> & H2 & ->). cbn [mbind option_bind].
  by exists (r :: rs1), n2, rs2.
Qed.

Lemma run_commands_join env l1 l2 n rs1 n1 rs2 n2 :
  run_commands env l1 n = Some (rs1, n1) →
  run_commands (later (length l1) env) l2 n1 = Some (rs2, n2) →
  run_commands env (l1 ++ l2) n = Some (rs1 ++ rs2, n2).
Proof.
  revert env n rs1. induction l1 as [|args l1 IH]; intros env n rs1; cbn [app run_commands].
  { by intros [= <- <-]. }
  destruct (process_command _ _ _ _) as [[[r|] n0]|]; [|done|done]. cbn [mbind option_bind].
  destruct (run_commands _ l1 _) as [[rs0 n0']|] eqn:E0; [|done]. cbn [mbind option_bind].
  intros [= <- <-] E2. rewrite (IH _ _ _ E0 E2). done.
Qed.

Lemma process_command_accept rnd now args n act n' :
  process_command rnd now args n = Some (act, n') → accept_command n' = accept_command n.
Proof.
  unfold process_command. destruct n as [e [m|]|[s|] reads].
  - destruct (IsCacheReplCommand args).
    + destruct (DecodeFrame_args args); [|by intros [= _ <-]].
      destruct (negb _); [by intros [= _ <-]|].
      destruct (Poll _ _ _ _ _ _) as [[frames m']|]; cbn; [by intros [= _ <-]|done].
    + destruct (Execute rnd args now e) as [[r e']|]; cbn; [by intros [= _ <-]|done].
  - destruct (Execute rnd args now e) as [[r e']|]; cbn; [by intros [= _ <-]|done].
  - destruct (ExecuteRead rnd args now reads s) as [[r s']|]; cbn; [by intros [= _ <-]|done].
  - by intros [= _ <-].
Qed.

Lemma run_commands_accept env cmds n rs n' :
  run_commands env cmds n = Some (rs, n') → accept_command n' = accept_command n.
Proof.
  revert env n rs. induction cmds as [|args cmds IH]; intros env n rs; cbn [run_commands].
  { by intros [= _ <-]. }
  destruct (process_command _ _ _ _) as [[act n1]|] eqn:E; [|done]. cbn [mbind option_bind].
  destruct act as [r|]; [|done].
  destruct (run_commands _ cmds _) as [[rs0 n0]|] eqn:E0; [|done]. cbn [mbind option_bind].
  intros [= _ <-]. rewrite (IH _ _ _ E0). by eapply process_command_accept.
Qed.

(** A command the codec lets through. *)
Definition admissible (limits : RespLimits) (n : node) (args : list string) : Prop :=
  args ≠ [] ∧ within_limits limits args ∧ accepts (Some (accept_command n)) args = true.

(** What is left in the stream: part of a command that is still arriving. *)
Definition arriving (limits : RespLimits) (n : node) (tail : string) : Prop :=
  ∃ args q, tail +:+ q = pack_command args ∧ q ≠ "" ∧ within_limits limits args ∧
    accepts (Some (accept_command n)) args = true.

Lemma admissible_same limits n n' args :
  accept_command n' = accept_command n → admissible limits n args → admissible limits n' args.
Proof. intros E. unfold admissible. by rewrite E. Qed.
Lemma arriving_same limits n n' tail :
  accept_command n' = accept_command n → arriving limits n tail → arriving limits n' tail.
Proof. intros E. unfold arriving. by rewrite E. Qed.

(** The commands that are complete are executed in order, their replies are
    queued in that order, and the rest of the stream waits. *)
Lemma ProcessInput_pipelined fuel c cmds tail rs n' :
  RespCodec.protocol_error_ (cn_codec c) = false →
  RespCodec.stream_ (cn_codec c) = packed cmds +:+ tail →
  Forall (admissible (RespCodec.limits_ (cn_codec c)) (cn_node c)) cmds →
  arriving (RespCodec.limits_ (cn_codec c)) (cn_node c) tail →
  run_commands (cn_env c) cmds (cn_node c) = Some (rs, n') →
  (length cmds < fuel)%nat →
  ProcessInput fuel c =
  Some (true, mkConnection (RespCodec.with_stream (cn_codec c) tail)
                (cn_out c +:+ replies rs) (cn_socket c) n' (later (length cmds) (cn_env c))).
Proof.
  revert fuel c rs. induction cmds as [|args cmds IH]; intros fuel c rs Hp Hs Hadm Htail Hrun Hf;
    (destruct fuel as [|fuel]; [cbn in Hf; lia|]); cbn [ProcessInput].
  - injection Hrun as <- <-. destruct Htail as (targs & q & Hq & Hne & Hl & Ha).
    cbn [packed foldr] in Hs. rewrite string_app_nil_l in Hs.
    destruct (NextCommand_partial (cn_codec c) (Some (accept_command (cn_node c))) targs q Hp)
      as [->|[Hr _]]; [by rewrite Hs|done|done| |congruence].
    unfold RespCodec.HasProtocolError. rewrite Hp. cbn [negb replies foldr].
    rewrite string_app_nil_r. f_equal. f_equal. cbn [length later]. f_equal.
    unfold RespCodec.with_stream. rewrite <-Hs. by destruct (cn_codec c).
  - apply Forall_cons in Hadm as [(Hne & Hl & Ha) Hadm].
    cbn [packed foldr] in Hs. fold (packed cmds) in Hs. rewrite string_app_assoc in Hs.
    rewrite (NextCommand_packed _ _ args (packed cmds +:+ tail)) by done. rewrite Ha.
    cbn [run_commands] in Hrun. destruct args as [|name args]; [done|].
    destruct (cn_env c 0%nat) as [now rnd]. cbn [fst snd] in Hrun.
    destruct (process_command rnd now (name :: args) (cn_node c)) as [[act n1]|] eqn:Ep; [|done].
    cbn [mbind option_bind] in Hrun |- *. destruct act as [r|]; [|done].
    destruct (run_commands _ cmds n1) as [[rs1 n2]|] eqn:Er; [|done].
    cbn [mbind option_bind] in Hrun. injection Hrun as <- <-.
    pose proof (process_command_accept _ _ _ _ _ _ Ep) as Hacc.
    rewrite (IH _ _ rs1).
    + cbn [cn_codec cn_out cn_socket cn_env replies foldr length later]. fold (replies rs1).
      by rewrite string_app_assoc.
    + done.
    + done.
    + eapply Forall_impl; [exact Hadm|]. intros a. by apply admissible_same.
    + by eapply arriving_same.
    + done.
    + cbn in Hf. lia.
Qed.

(** The bytes that arrive while the connection stays open. *)
Fixpoint arrived (reads : list read_result) : option string :=
  match reads with
  | [] => Some ""
  | ReadBytes bytes :: rest => (λ s, bytes +:+ s) <$> arrived rest
  | ReadAgain true :: rest => arrived rest
  | _ => None
  end.

(** Where the stream of a connection stands: within the first of the commands
    to come. *)
Definition within (stream : string) (cmds : list (list string)) : Prop :=
  match cmds with
  | args :: _ => ∃ q, stream +:+ q = pack_command args ∧ q ≠ ""
  | [] => True
  end.

Lemma within_arriving limits n t rest cmds tail :
  within t cmds → t +:+ rest = packed cmds +:+ tail → Forall (admissible limits n) cmds →
  arriving limits n tail → arriving limits n t.
Proof.
  intros Hw E Hadm (targs & q & Hq & Hne & Hl & Ha). destruct cmds as [|args cmds].
  - cbn [packed foldr] in E. rewrite string_app_nil_l in E. exists targs, (rest +:+ q).
    split; [by rewrite <-string_app_assoc, E|]. split; [|done].
    intros Hz. apply (f_equal String.length) in Hz. rewrite length_app_string in Hz.
    destruct q; [done|]. cbn in Hz. lia.
  - destruct Hw as (q' & Hq' & Hne'). apply Forall_cons in Hadm as [(_ & Hl' & Ha') _].
    by exists args, q'.
Qed.

(** The reply to a client, however its bytes are cut into reads and whatever
    the writes take: a prefix of the replies to its commands, in order; all
    of them as long as the connection is open. *)
Lemma ConnectionLoop_pipelined reads c cmds tail input rs n' :
  RespCodec.protocol_error_ (cn_codec c) = false →
  arrived reads = Some input →
  RespCodec.stream_ (cn_codec c) +:+ input = packed cmds +:+ tail →
  size_of (packed cmds +:+ tail) <= RespCodec.max_stream_bytes_ (cn_codec c) →
  Forall (admissible (RespCodec.limits_ (cn_codec c)) (cn_node c)) cmds →
  arriving (RespCodec.limits_ (cn_codec c)) (cn_node c) tail →
  run_commands (cn_env c) cmds (cn_node c) = Some (rs, n') →
  within (RespCodec.stream_ (cn_codec c)) cmds →
  ∃ open c' executed rest_cmds rs1 unsent,
    ConnectionLoop reads c = Some (open, c') ∧ cmds = executed ++ rest_cmds ∧
    run_commands (cn_env c) executed (cn_node c) = Some (rs1, cn_node c') ∧
    cn_env c' = later (length executed) (cn_env c) ∧
    so_sent (cn_socket c) +:+ replies rs1 = so_sent (cn_socket c') +:+ unsent ∧
    (open = true → rest_cmds = [] ∧ unsent = "" ∧ cn_codec c' = RespCodec.with_stream (cn_codec c) tail).
Proof.
  revert c cmds input rs. induction reads as [|r reads IH];
    intros c cmds input rs Hp Hin Hs Hsize Hadm Htail Hrun Hw.
  { injection Hin as <-. rewrite string_app_nil_r in Hs. destruct cmds as [|args cmds].
    - exists true, c, [], [], [], "". change (replies []) with "". rewrite string_app_nil_r.
      cbn [packed foldr] in Hs. rewrite string_app_nil_l in Hs. do 5 (split; [done|]). intros _.
      split; [done|]. split; [done|]. rewrite <-Hs. by destruct (cn_codec c).
    - exfalso. destruct Hw as (q & Hq & Hne). rewrite Hs in Hq. cbn [packed foldr] in Hq.
      apply (f_equal String.length) in Hq. rewrite !length_app_string in Hq.
      destruct q; [done|]. cbn in Hq. lia. }
  cbn [ConnectionLoop arrived] in *.
  destruct r as [bytes|[]| |]; [|by apply (IH c cmds input rs)|done..].
  destruct (arrived reads) as [input'|]; [|done]. injection Hin as <-.
  rewrite <-string_app_assoc in Hs.
  destruct (packed_cut cmds tail _ _ Hs) as (executed & rest_cmds & t & -> & Hst & Hrest & Hm).
  apply Forall_app in Hadm as [Hadm1 Hadm2].
  rewrite AppendBytes_fits; [|done|].
  2:{ apply (f_equal size_of) in Hs. unfold size_of in *. rewrite !length_app_string in *. lia. }
  cbn [negb]. destruct (run_commands_app _ _ _ _ _ _ Hrun) as (rs1 & n1 & rs2 & Hrun1 & Hrun2 & ->).
  pose proof (run_commands_accept _ _ _ _ _ Hrun1) as Hacc.
  rewrite (ProcessInput_pipelined _ (mkConnection _ "" _ _ _) executed t rs1 n1); try done.
  2:{ cbn. by eapply within_arriving. }
  2:{ cbn. rewrite Hst, length_app_string. pose proof (packed_length executed). lia. }
  cbn [mbind option_bind negb cn_out cn_codec cn_socket cn_node cn_env].
  rewrite string_app_nil_l.
  assert (∀ sock, ∃ open c' executed' rest_cmds' rs1' unsent,
    ConnectionLoop reads (mkConnection (RespCodec.with_stream (RespCodec.with_stream (cn_codec c)
        (RespCodec.stream_ (cn_codec c) +:+ bytes)) t) "" sock n1 (later (length executed) (cn_env c)))
      = Some (open, c') ∧ rest_cmds = executed' ++ rest_cmds' ∧
    run_commands (later (length executed) (cn_env c)) executed' n1 = Some (rs1', cn_node c') ∧
    cn_env c' = later (length executed') (later (length executed) (cn_env c)) ∧
    so_sent sock +:+ replies rs1' = so_sent (cn_socket c') +:+ unsent ∧
    (open = true → rest_cmds' = [] ∧ unsent = "" ∧
       cn_codec c' = RespCodec.with_stream (RespCodec.with_stream (RespCodec.with_stream (cn_codec c)
         (RespCodec.stream_ (cn_codec c) +:+ bytes)) t) tail)) as Hnext.
  { intros sock. apply (IH (mkConnection _ "" sock n1 _) rest_cmds input' rs2); cbn; try done.
    - apply (f_equal size_of) in Hrest. unfold size_of in *. rewrite packed_app in Hsize.
      rewrite !length_app_string in *. lia.
    - eapply Forall_impl; [exact Hadm2|]. intros args. by apply admissible_same.
    - by eapply arriving_same. }
  destruct (String.eqb (replies rs1) "") eqn:Eempty.
  - apply String.eqb_eq in Eempty.
    destruct (Hnext (cn_socket c)) as (open & c' & ex & re & rs' & unsent & E & -> & Hr & Henv & Hsent & Hopen).
    rewrite Eempty, E. exists open, c', (executed ++ ex), re, (rs1 ++ rs'), unsent.
    rewrite app_assoc, replies_app, Eempty, string_app_nil_l, length_app, <-later_add.
    do 2 (split; [done|]). split; [by eapply run_commands_join|done].
  - pose proof (write_bytes_spec (λ r, match r with WriteAgain => true | _ => false end)
      (replies rs1) (cn_socket c)) as Hwr.
    unfold WriteAll. destruct (write_bytes _ _ _) as [ok sock].
    destruct Hwr as (p & q & Hpq & Hsock & Hok). destruct ok.
    + destruct (Hnext sock) as (open & c' & ex & re & rs' & unsent & E & -> & Hr & Henv & Hsent & Hopen).
      rewrite E. exists open, c', (executed ++ ex), re, (rs1 ++ rs'), unsent.
      rewrite app_assoc, replies_app, length_app, <-later_add. do 2 (split; [done|]).
      split; [by eapply run_commands_join|]. split; [done|]. split; [|done]. rewrite (proj1 Hok eq_refl), string_app_nil_r in Hpq. subst p.
      by rewrite <-string_app_assoc, <-Hsock.
    + eexists false, _, executed, rest_cmds, rs1, q. split; [reflexivity|]. do 3 (split; [done|]).
      split; [|done]. cbn. by rewrite Hsock, Hpq, string_app_assoc.
Qed.
End server.
