(* ===== verification/Worker.v ===== *)
(** * Workers: the connections of src/net/server

    A worker's thread runs a fixed number of tasks (coroutines), each serving
    one connection at a time, and a reaper that hands waiting connections to
    idle tasks. The accepting thread puts connections into the worker's
    queue. The queue and its flag are shared; each use of them is one critical
    section, so [DispatchFd], the two halves of [ReapFds] and what happens
    between them are steps, and other threads act between any two of them.

    What a task does with its connection is Server.v; here it is busy until
    the connection is closed. File descriptors are not negative, and -1 is no
    connection, as in the code. *)

From S2P Require Import Prelude.

Definition kPendingFdLimit : nat := Z.to_nat 4096.

Record Worker := mkWorker {
  wk_pending_fds_ : list Z;
  wk_has_pending_fds_ : bool;
  wk_idle_tasks : list nat;            (* the stack, its top first *)
  wk_tasks : list Z;                   (* [fd] of every task *)
  wk_reaping : option (list Z);        (* [pending_fds] of [ReapFds], inside it *)
  wk_closed : list Z;                  (* descriptors closed, the last first *)
}.

(** [Run]: every task starts without a connection and waits. *)
Definition Worker_new (coroutine_count : Z) : Worker :=
  let pool_size := Z.to_nat (Z.max 1 coroutine_count) in
  mkWorker [] false (rev (seq 0 pool_size)) (replicate pool_size (-1)) None [].

Definition DispatchFd (fd : Z) (w : Worker) : Worker :=
  if (kPendingFdLimit <=? length (wk_pending_fds_ w))%nat
  then mkWorker (wk_pending_fds_ w) (wk_has_pending_fds_ w) (wk_idle_tasks w) (wk_tasks w)
         (wk_reaping w) (fd :: wk_closed w)
  else mkWorker (wk_pending_fds_ w ++ [fd]) true (wk_idle_tasks w) (wk_tasks w)
         (wk_reaping w) (wk_closed w).

(** The first half of [ReapFds]: the queue is taken, unless there is nothing
    to do. *)
Definition ReapFds_take (w : Worker) : Worker :=
  match wk_idle_tasks w with
  | [] => w
  | _ =>
      if negb (wk_has_pending_fds_ w) then w
      else mkWorker [] false (wk_idle_tasks w) (wk_tasks w) (Some (wk_pending_fds_ w)) (wk_closed w)
  end.

(** One iteration of its loop: the task on top gets the first connection. *)
Definition ReapFds_give (w : Worker) : option Worker :=
  match wk_reaping w, wk_idle_tasks w with
  | Some (fd :: rest), task :: idle =>
      Some (mkWorker (wk_pending_fds_ w) (wk_has_pending_fds_ w) idle
              (<[task := fd]> (wk_tasks w)) (Some rest) (wk_closed w))
  | _, _ => None
  end.

(** The second half: what no task could take is put back, up to the limit. *)
Definition ReapFds_return (w : Worker) : option Worker :=
  match wk_reaping w with
  | None => None
  | Some [] =>
      Some (mkWorker (wk_pending_fds_ w) (wk_has_pending_fds_ w) (wk_idle_tasks w) (wk_tasks w)
              None (wk_closed w))
  | Some rest =>
      let room := (kPendingFdLimit - length (wk_pending_fds_ w))%nat in
      let pending := wk_pending_fds_ w ++ take room rest in
      Some (mkWorker pending (negb (bool_decide (pending = []))) (wk_idle_tasks w) (wk_tasks w)
              None (rev (drop room rest) ++ wk_closed w))
  end.

(** [CloseTask], and the way back to the idle tasks. *)
Definition CloseTask (task : nat) (w : Worker) : option Worker :=
  fd ← wk_tasks w !! task;
  if fd <? 0 then None
  else
    Some (mkWorker (wk_pending_fds_ w) (wk_has_pending_fds_ w) (task :: wk_idle_tasks w)
            (<[task := -1]> (wk_tasks w)) (wk_reaping w) (fd :: wk_closed w)).

(** [ReapFds] without another thread in between; [closes] tells which
    connections a task is done with before it first waits. *)
Fixpoint reap_loop (closes : Z → bool) (n : nat) (w : Worker) : Worker :=
  match n with
  | O => w
  | S n' =>
      match ReapFds_give w, wk_idle_tasks w with
      | Some w', task :: _ =>
          let fd := default (-1) (wk_tasks w' !! task) in
          reap_loop closes n' (if closes fd then default w' (CloseTask task w') else w')
      | _, _ => w
      end
  end.

Definition ReapFds (closes : Z → bool) (w : Worker) : Worker :=
  let w1 := ReapFds_take w in
  match wk_reaping w1 with
  | None => w1
  | Some fds => default w1 (ReapFds_return (reap_loop closes (length fds) w1))
  end.

(** What the threads do. *)
Inductive worker_step : Worker → list Z → Worker → Prop :=
  | step_dispatch w fd : 0 <= fd → worker_step w [fd] (DispatchFd fd w)
  | step_take w : wk_reaping w = None → worker_step w [] (ReapFds_take w)
  | step_give w w' : ReapFds_give w = Some w' → worker_step w [] w'
  | step_return w w' :
      wk_reaping w = Some [] ∨ wk_idle_tasks w = [] → ReapFds_return w = Some w' →
      worker_step w [] w'
  | step_close w task w' : CloseTask task w = Some w' → worker_step w [] w'.

(** The states of a worker, with the connections it has been given. *)
Inductive worker_reachable (coroutine_count : Z) : list Z → Worker → Prop :=
  | reach_new : worker_reachable coroutine_count [] (Worker_new coroutine_count)
  | reach_step accepted w fds w' :
      worker_reachable coroutine_count accepted w → worker_step w fds w' →
      worker_reachable coroutine_count (accepted ++ fds) w'.

(** ** The invariant *)

Definition serving_fds (tasks : list Z) : list Z := filter (λ fd, 0 <= fd) tasks.

Record worker_ok (accepted : list Z) (w : Worker) : Prop := {
  wo_fds : accepted ≡ₚ wk_pending_fds_ w ++ default [] (wk_reaping w) ++
                       serving_fds (wk_tasks w) ++ wk_closed w;
  wo_limit : (length (wk_pending_fds_ w) <= kPendingFdLimit)%nat;
  wo_flag : wk_has_pending_fds_ w = negb (bool_decide (wk_pending_fds_ w = []));
  wo_idle : NoDup (wk_idle_tasks w);
  wo_tasks task : task ∈ wk_idle_tasks w ↔ wk_tasks w !! task = Some (-1);
  wo_valid : Forall (λ fd, 0 <= fd) accepted;
  wo_busy : Forall (λ fd, -1 <= fd) (wk_tasks w);
}.

Lemma serving_insert_busy tasks task fd :
  tasks !! task = Some (-1) → 0 <= fd →
  serving_fds (<[task := fd]> tasks) ≡ₚ fd :: serving_fds tasks.
Proof.
  intros Ht Hfd. unfold serving_fds. rewrite insert_take_drop by (by eapply lookup_lt_Some).
  rewrite <-(take_drop_middle _ _ _ Ht) at 3. rewrite !filter_app.
  rewrite !filter_cons. rewrite decide_True by done. rewrite decide_False by lia.
  symmetry. apply Permutation_middle.
Qed.

Lemma serving_insert_idle tasks task fd :
  tasks !! task = Some fd → 0 <= fd →
  serving_fds tasks ≡ₚ fd :: serving_fds (<[task := -1]> tasks).
Proof.
  intros Ht Hfd. unfold serving_fds. rewrite insert_take_drop by (by eapply lookup_lt_Some).
  rewrite <-(take_drop_middle _ _ _ Ht) at 1. rewrite !filter_app.
  rewrite !filter_cons. rewrite decide_True by done. rewrite decide_False by lia.
  symmetry. apply Permutation_middle.
Qed.

Lemma Worker_new_ok n : worker_ok [] (Worker_new n).
Proof.
  unfold Worker_new. set (size := Z.to_nat (Z.max 1 n)).
  split; cbn [wk_pending_fds_ wk_has_pending_fds_ wk_idle_tasks wk_tasks wk_reaping wk_closed].
  - cbn. assert (serving_fds (replicate size (-1)) = []) as ->; [|done].
    unfold serving_fds. induction size as [|k IH]; [done|]. cbn [replicate].
    by rewrite filter_cons, decide_False by lia.
  - cbn. lia.
  - done.
  - rewrite rev_alt. change (NoDup (reverse (seq 0 size))). rewrite reverse_Permutation. apply NoDup_seq.
  - intros task. rewrite rev_alt. change (task ∈ reverse (seq 0 size) ↔ replicate size (-1) !! task = Some (-1)).
    rewrite reverse_Permutation, elem_of_seq, lookup_replicate. intuition lia.
  - done.
  - apply Forall_replicate. lia.
Qed.

Lemma worker_ok_valid accepted w fd :
  worker_ok accepted w →
  fd ∈ wk_pending_fds_ w ++ default [] (wk_reaping w) ++ serving_fds (wk_tasks w) ++ wk_closed w →
  0 <= fd.
Proof.
  intros Hok Hfd. rewrite <-(wo_fds _ _ Hok) in Hfd. pose proof (wo_valid _ _ Hok) as Hv.
  rewrite Forall_forall in Hv. by apply Hv.
Qed.

Lemma DispatchFd_ok accepted w fd :
  worker_ok accepted w → 0 <= fd → worker_ok (accepted ++ [fd]) (DispatchFd fd w).
Proof.
  intros [H1 H2 H3 H4 H5 H6 H7] Hfd. unfold DispatchFd.
  assert (Forall (λ fd, 0 <= fd) (accepted ++ [fd])) as Hv by (by apply Forall_app; repeat constructor).
  destruct (_ <=? _)%nat eqn:E.
  - split; cbn; try done. rewrite (Permutation_app_comm accepted), H1. cbn. by rewrite <-!Permutation_middle.
  - apply Nat.leb_gt in E. split; cbn; try done.
    + rewrite (Permutation_app_comm accepted), H1, <-app_assoc. cbn. by rewrite <-Permutation_middle.
    + rewrite length_app. cbn. lia.
    + by destruct (wk_pending_fds_ w).
Qed.

Lemma ReapFds_take_ok accepted w :
  worker_ok accepted w → wk_reaping w = None → worker_ok accepted (ReapFds_take w).
Proof.
  intros Hok Hr. unfold ReapFds_take. destruct (wk_idle_tasks w) as [|t l] eqn:Ei; [done|].
  destruct (negb _); [done|]. destruct Hok as [H1 H2 H3 H4 H5 H6 H7]. rewrite Hr in H1.
  rewrite <-Ei. split; cbn; try done. lia.
Qed.

Lemma ReapFds_give_ok accepted w w' :
  worker_ok accepted w → ReapFds_give w = Some w' → worker_ok accepted w'.
Proof.
  intros Hok E. unfold ReapFds_give in E.
  destruct (wk_reaping w) as [[|fd rest]|] eqn:Er; [done| |done].
  destruct (wk_idle_tasks w) as [|task idle] eqn:Ei; [done|]. injection E as <-.
  assert (0 <= fd) as Hfd.
  { eapply worker_ok_valid; [exact Hok|]. rewrite Er. cbn. set_solver. }
  destruct Hok as [H1 H2 H3 H4 H5 H6 H7]. rewrite Ei, Er in *.
  apply NoDup_cons in H4 as [Hn H4].
  assert (wk_tasks w !! task = Some (-1)) as Ht by (apply H5; by left).
  split; cbn; try done.
  - rewrite H1. cbn. f_equiv. rewrite serving_insert_busy by done. cbn.
    by rewrite <-Permutation_middle.
  - intros t. rewrite list_lookup_insert. case_decide as Hd.
    + destruct Hd as [<- _]. split; [done|]. intros [= ->]. lia.
    + rewrite <-H5, elem_of_cons. split; [by right|]. intros [->|]; [|done].
      exfalso. apply Hd. split; [done|]. by eapply lookup_lt_Some.
  - apply Forall_insert; [done|lia].
Qed.

Lemma ReapFds_return_ok accepted w w' :
  worker_ok accepted w → ReapFds_return w = Some w' → worker_ok accepted w'.
Proof.
  intros [H1 H2 H3 H4 H5 H6 H7] E. unfold ReapFds_return in E.
  destruct (wk_reaping w) as [rest|] eqn:Er; [|done].
  set (room := (kPendingFdLimit - length (wk_pending_fds_ w))%nat) in E.
  destruct rest as [|fd rest]; injection E as <-; [by split|].
  split; cbn [wk_pending_fds_ wk_has_pending_fds_ wk_idle_tasks wk_tasks wk_reaping wk_closed]; try done.
  - rewrite H1. cbn [default]. unfold id. rewrite <-(Permutation_rev (drop room (fd :: rest))).
    rewrite <-(take_drop room (fd :: rest)) at 1. rewrite <-!app_assoc.
    do 2 apply Permutation_app_head. rewrite app_nil_l, !app_assoc.
    apply Permutation_app_tail, Permutation_app_comm.
  - rewrite length_app, length_take. unfold room. lia.
Qed.

Lemma CloseTask_ok accepted w task w' :
  worker_ok accepted w → CloseTask task w = Some w' → worker_ok accepted w'.
Proof.
  intros [H1 H2 H3 H4 H5 H6 H7] E. unfold CloseTask in E.
  destruct (wk_tasks w !! task) as [fd|] eqn:Ht; [|done]. cbn in E.
  destruct (fd <? 0) eqn:Ef; [done|]. bool_prop. injection E as <-.
  assert (task ∉ wk_idle_tasks w) as Hn.
  { rewrite H5, Ht. intros [= ->]. lia. }
  split; cbn; try done.
  - rewrite H1, (serving_insert_idle _ _ _ Ht Ef). do 2 f_equiv. cbn.
    by rewrite Permutation_middle.
  - by constructor.
  - intros t. rewrite elem_of_cons, list_lookup_insert. case_decide as Hd.
    + destruct Hd as [<- _]. split; [done|]. by left.
    + rewrite <-H5. split; [|by right]. intros [->|]; [|done].
      exfalso. apply Hd. split; [done|]. by eapply lookup_lt_Some.
  - apply Forall_insert; [done|lia].
Qed.

Lemma worker_step_ok accepted w fds w' :
  worker_ok accepted w → worker_step w fds w' → worker_ok (accepted ++ fds) w'.
Proof.
  intros Hok Hs. destruct Hs as [w fd Hfd|w Hr|w w' E|w w' _ E|w task w' E]; rewrite ?app_nil_r.
  - by apply DispatchFd_ok.
  - by apply ReapFds_take_ok.
  - by eapply ReapFds_give_ok.
  - by eapply ReapFds_return_ok.
  - by eapply CloseTask_ok.
Qed.

Lemma worker_reachable_ok n accepted w : worker_reachable n accepted w → worker_ok accepted w.
Proof.
  induction 1 as [|accepted w fds w' _ IH Hs]; [apply Worker_new_ok|by eapply worker_step_ok].
Qed.

(** ** The reaper *)

Lemma CloseTask_keeps task w w' :
  CloseTask task w = Some w' →
  wk_pending_fds_ w' = wk_pending_fds_ w ∧ wk_reaping w' = wk_reaping w ∧
  wk_has_pending_fds_ w' = wk_has_pending_fds_ w.
Proof.
  unfold CloseTask. destruct (wk_tasks w !! task) as [fd|]; [|done]. cbn.
  destruct (fd <? 0); [done|]. by intros [= <-].
Qed.

Lemma reap_loop_ok closes accepted n w l :
  worker_ok accepted w → wk_reaping w = Some l → (length l <= n)%nat →
  let w' := reap_loop closes n w in
  worker_ok accepted w' ∧ wk_pending_fds_ w' = wk_pending_fds_ w ∧
  ∃ l', wk_reaping w' = Some l' ∧ (l' = [] ∨ wk_idle_tasks w' = []).
Proof.
  revert w l. induction n as [|n IH]; intros w l Hok Hl Hn; cbn [reap_loop].
  { destruct l; [|cbn in Hn; lia]. do 2 (split; [done|]). exists []. by split; [|left]. }
  destruct (ReapFds_give w) as [w1|] eqn:E.
  - pose proof (ReapFds_give_ok _ _ _ Hok E) as Hok1. unfold ReapFds_give in E. rewrite Hl in E.
    destruct l as [|fd l]; [done|]. cbn in Hn.
    destruct (wk_idle_tasks w) as [|task idle]; [done|].
    assert (wk_pending_fds_ w1 = wk_pending_fds_ w ∧ wk_reaping w1 = Some l) as [Hp1 Hr1]
      by (by injection E as <-).
    destruct (closes _).
    + destruct (CloseTask task w1) as [w2|] eqn:E2; cbn [default].
      * destruct (CloseTask_keeps _ _ _ E2) as (Hp2 & Hr2 & _). unfold id.
        rewrite <-Hp1, <-Hp2. apply (IH w2 l); [by eapply CloseTask_ok|congruence|lia].
      * rewrite <-Hp1. apply (IH w1 l); [done|done|lia].
    + rewrite <-Hp1. apply (IH w1 l); [done|done|lia].
  - do 2 (split; [done|]). exists l. split; [done|]. unfold ReapFds_give in E. rewrite Hl in E.
    destruct l; [by left|]. right. by destruct (wk_idle_tasks w).
Qed.

(** After a run of the reaper with nobody else in between, no connection waits
    while a task is idle. *)
Lemma ReapFds_ok closes accepted w :
  worker_ok accepted w → wk_reaping w = None →
  let w' := ReapFds closes w in
  worker_ok accepted w' ∧ wk_reaping w' = None ∧
  (wk_pending_fds_ w' = [] ∨ wk_idle_tasks w' = []).
Proof.
  intros Hok Hr. unfold ReapFds. pose proof (ReapFds_take_ok _ _ Hok Hr) as Hok1.
  unfold ReapFds_take in *. destruct (wk_idle_tasks w) as [|t l] eqn:Ei.
  { rewrite Hr. by split_and!; [..|right]. }
  destruct (wk_has_pending_fds_ w) eqn:Ef; cbn [negb] in *.
  2:{ rewrite Hr. split; [done|]. split; [done|]. left. pose proof (wo_flag _ _ Hok) as H.
      rewrite Ef in H. symmetry in H. apply negb_false_iff, bool_decide_eq_true in H. done. }
  cbn [wk_reaping]. set (w1 := mkWorker _ _ _ _ _ _) in *.
  destruct (reap_loop_ok closes accepted (length (wk_pending_fds_ w)) w1 (wk_pending_fds_ w))
    as (Hok2 & Hp2 & l' & Hl' & Hend); [done|done|done|].
  destruct (ReapFds_return (reap_loop closes (length (wk_pending_fds_ w)) w1)) as [w'|] eqn:E.
  2:{ unfold ReapFds_return in E. rewrite Hl' in E. by destruct l'. }
  cbn [default]. unfold id. split; [by eapply ReapFds_return_ok|].
  unfold ReapFds_return in E. rewrite Hl' in E. destruct l' as [|fd l'].
  - injection E as <-. split; [done|]. left. exact Hp2.
  - destruct Hend as [Hend|Hend]; [done|]. injection E as <-. split; [done|]. by right.
Qed.

(** A connection is refused only when the queue is full. *)
Lemma DispatchFd_spec accepted w fd :
  worker_ok accepted w →
  if (kPendingFdLimit <=? length (wk_pending_fds_ w))%nat
  then wk_closed (DispatchFd fd w) = fd :: wk_closed w ∧
       wk_pending_fds_ (DispatchFd fd w) = wk_pending_fds_ w
  else wk_closed (DispatchFd fd w) = wk_closed w ∧
       wk_pending_fds_ (DispatchFd fd w) = wk_pending_fds_ w ++ [fd] ∧
       wk_has_pending_fds_ (DispatchFd fd w) = true.
Proof. intros _. unfold DispatchFd. by destruct (_ <=? _)%nat. Qed.

(** ** [AcceptRoutine] *)

(** A call of [accept]: no connection, one that could not be made
    non-blocking, or a new one. *)
Inductive accept_result :=
  | AcceptNone
  | AcceptBlocking (fd : Z)
  | Accepted (fd : Z).

Record Acceptor := mkAcceptor {
  ac_workers : list Worker;
  ac_next_worker : nat;
  ac_closed : list Z;
}.

Definition accept_one (a : Acceptor) (r : accept_result) : option Acceptor :=
  match r with
  | AcceptNone => Some a
  | AcceptBlocking fd => Some (mkAcceptor (ac_workers a) (ac_next_worker a) (fd :: ac_closed a))
  | Accepted fd =>
      w ← ac_workers a !! ac_next_worker a;
      Some (mkAcceptor (<[ac_next_worker a := DispatchFd fd w]> (ac_workers a))
              ((ac_next_worker a + 1) mod length (ac_workers a))%nat (ac_closed a))
  end.

Fixpoint AcceptRoutine (results : list accept_result) (a : Acceptor) : option Acceptor :=
  match results with
  | [] => Some a
  | r :: rest => a' ← accept_one a r; AcceptRoutine rest a'
  end.

(** [Server::Run]: at least one worker with at least one task each. *)
Definition Server_start (worker_count coroutine_count_per_worker : Z) : Acceptor :=
  mkAcceptor
    (replicate (Z.to_nat (Z.max 1 worker_count)) (Worker_new (Z.max 1 coroutine_count_per_worker)))
    0 [].

Definition accepted_fds (results : list accept_result) : list Z :=
  omap (λ r, match r with Accepted fd => Some fd | _ => None end) results.

(** What worker [i] of [n] gets of a sequence of connections, the first going
    to worker [next]. *)
Fixpoint dealt (n next i : nat) (fds : list Z) : list Z :=
  match fds with
  | [] => []
  | fd :: rest =>
      (if decide (next = i) then [fd] else []) ++ dealt n ((next + 1) mod n)%nat i rest
  end.

(** Connections are dealt to the workers in turn. *)
Lemma AcceptRoutine_deals results a :
  (ac_next_worker a < length (ac_workers a))%nat →
  ∃ a', AcceptRoutine results a = Some a' ∧
    length (ac_workers a') = length (ac_workers a) ∧
    (ac_next_worker a' < length (ac_workers a))%nat ∧
    ∀ i w, ac_workers a !! i = Some w →
      ac_workers a' !! i =
      Some (foldl (λ w fd, DispatchFd fd w) w
              (dealt (length (ac_workers a)) (ac_next_worker a) i (accepted_fds results))).
Proof.
  revert a. induction results as [|r results IH]; intros a Ha; cbn [AcceptRoutine].
  { exists a. do 3 (split; [done|]). done. }
  destruct r as [|fd|fd]; cbn [accept_one mbind option_bind].
  - by apply IH.
  - by apply (IH (mkAcceptor (ac_workers a) (ac_next_worker a) (fd :: ac_closed a))).
  - destruct (lookup_lt_is_Some_2 _ _ Ha) as [w Hw]. rewrite Hw. cbn [mbind option_bind].
    match goal with |- context [AcceptRoutine results ?x] => destruct (IH x) as (a' & E & Hl & Hn & Hd) end.
    { cbn. rewrite length_insert. apply Nat.mod_upper_bound. lia. }
    cbn [ac_workers ac_next_worker] in *. rewrite length_insert in *.
    exists a'. do 3 (split; [done|]). intros i wi Hi. cbn [accepted_fds omap list_omap dealt].
    rewrite (Hd i (if decide (ac_next_worker a = i) then DispatchFd fd w else wi)).
    + rewrite foldl_app. fold (accepted_fds results).
      destruct (decide (ac_next_worker a = i)) as [<-|]; [|done]. cbn. by simplify_eq.
    + rewrite list_lookup_insert. destruct (decide (ac_next_worker a = i)) as [<-|Hne].
      * by rewrite decide_True.
      * rewrite decide_False by naive_solver. done.
Qed.

(** Worker [i] gets every [n]-th connection. *)
Lemma dealt_lookup n next i fds j :
  (next < n)%nat → (i < n)%nat →
  dealt n next i fds !! j =
  fds !! ((if decide (next <= i)%nat then i - next else i + n - next) + j * n)%nat.
Proof.
  intros Hnext Hi. revert next j Hnext.
  induction fds as [|fd fds IH]; intros next j Hnext; [done|]. cbn [dealt].
  assert ((next + 1) mod n = if decide (next + 1 = n) then 0 else next + 1)%nat as Emod.
  { destruct (decide (next + 1 = n)%nat) as [<-|]; [apply Nat.Div0.mod_same|apply Nat.mod_small; lia]. }
  destruct (decide (next = i)) as [<-|Hne].
  - rewrite decide_True by lia. rewrite Nat.sub_diag. destruct j as [|j]; [done|].
    cbn [app]. change ((fd :: dealt n ((next + 1) mod n) next fds) !! S j)
      with (dealt n ((next + 1) mod n) next fds !! j).
    rewrite IH by (apply Nat.mod_upper_bound; lia). rewrite Emod.
    replace (0 + S j * n)%nat with (S ((n - 1) + j * n))%nat by lia. cbn [lookup list_lookup].
    f_equal. destruct (decide (next + 1 = n)%nat); case_decide; lia.
  - cbn [app]. rewrite IH by (apply Nat.mod_upper_bound; lia). rewrite Emod.
    assert (∀ k k', k' = S k → fds !! k = (fd :: fds) !! k') as Hshift by (by intros k k' ->).
    apply Hshift. destruct (decide (next + 1 = n)%nat); repeat case_decide; lia.
Qed.
