(* ===== verification/Link.v ===== *)
(** * The replication link: src/repl/replication_link

    One poll of the primary by a replica: the HELLO is written, then frames
    are read and handed to the replicator until the DONE. The system calls
    are given by their results (Socket.v): those that set up the connection,
    what the writes take, and what the reads bring; after the last result the
    receive timeout strikes. One reading of the clock stands for those of all
    frames of a poll. *)

From S2P Require Import Prelude Text Containers RedisObject Binlog HashSlot Engine Response Command Dispatcher Resp ReplFrame SnapshotCodec Slave Convergence Master Shipping Socket.

Section link.
Context {IC : ImmutableContainer} {RL : RespLib}.

(** ** Frames as they arrive *)

Definition BuildHelloFrame (replica_id previous_session_id : string) (slave : SlaveReplicator)
    (proto_version : Z) : Frame :=
  Frame_Hello replica_id proto_version previous_session_id (slave_Positions slave).

Inductive link_result := LinkOpen | LinkFailed | LinkDone.

Record link := mkLink {
  lk_codec : RespCodec.t;
  lk_started : bool;
  lk_slave : SlaveReplicator;
}.

Definition link_codec : RespCodec.t :=
  RespCodec.new (256 * 1024 * 1024) (256 * 1024 * 1024) 1000000.
Definition new_link (s : SlaveReplicator) : link := mkLink link_codec false s.

Fixpoint drain_frames (fuel : nat) (rnd : nat → nat) (now : Z) (l : link)
    : option (link_result * link) :=
  match fuel with
  | O => None
  | S fuel' =>
      match RespCodec.NextCommand (lk_codec l) None with
      | (None, codec) =>
          Some (if RespCodec.HasProtocolError codec then LinkFailed else LinkOpen,
                mkLink codec (lk_started l) (lk_slave l))
      | (Some args, codec) =>
          match DecodeFrame_args args with
          | None => Some (LinkFailed, mkLink codec (lk_started l) (lk_slave l))
          | Some frame =>
              let begins := bool_decide (fr_subcmd frame = kBegin) in
              if (negb (lk_started l) && negb begins) || (lk_started l && begins)
              then Some (LinkFailed, mkLink codec (lk_started l) (lk_slave l))
              else
                '(ok, s') ← EnqueueFrame rnd frame now (lk_slave l);
                if negb ok then Some (LinkFailed, mkLink codec true s')
                else if bool_decide (fr_subcmd frame = kDone)
                     then Some (LinkDone, mkLink codec true s')
                     else drain_frames fuel' rnd now (mkLink codec true s')
          end
      end
  end.

(** One read: [AppendBytes], then the frames that are complete. *)
Definition receive (rnd : nat → nat) (now : Z) (bytes : string) (l : link)
    : option (link_result * link) :=
  let '(appended, codec) := RespCodec.AppendBytes (lk_codec l) bytes in
  if negb appended then Some (LinkFailed, mkLink codec (lk_started l) (lk_slave l))
  else drain_frames (S (String.length (RespCodec.stream_ codec))) rnd now
         (mkLink codec (lk_started l) (lk_slave l)).

(** A turn of the loop over [read]: only [EINTR] is repeated. *)
Definition read_one (r : read_result) (rnd : nat → nat) (now : Z) (l : link)
    : option (link_result * link) :=
  match r with
  | ReadBytes bytes => receive rnd now bytes l
  | ReadInterrupted => Some (LinkOpen, l)
  | _ => Some (LinkFailed, l)
  end.

Fixpoint read_frames (reads : list read_result) (rnd : nat → nat) (now : Z) (l : link)
    : option (bool * link) :=
  match reads with
  | [] => Some (false, l)
  | r :: rest =>
      '(result, l') ← read_one r rnd now l;
      match result with
      | LinkOpen => read_frames rest rnd now l'
      | LinkFailed => Some (false, l')
      | LinkDone => Some (true, l')
      end
  end.

(** Setting up the socket, by the results of its calls: the address, [socket],
    the two [fcntl]s that make it non-blocking, [connect] and whether its
    errno is EINPROGRESS or EINTR, [poll], [getsockopt] and the error it
    reports, and the [fcntl] that restores the flags. *)
Record setup_calls := mkSetup {
  su_address : bool;
  su_socket : Z;
  su_getfl : Z;
  su_nonblock : Z;
  su_connect : Z;
  su_in_progress : bool;
  su_poll : Z;
  su_getsockopt : Z;
  su_error : Z;
  su_restore : Z;
}.

Definition connect_primary (c : setup_calls) : bool :=
  if negb (su_address c) then false
  else if su_socket c <? 0 then false
  else if (su_getfl c <? 0) || negb (su_nonblock c =? 0) then false
  else if negb (su_connect c =? 0) &&
          (negb (su_in_progress c) ||
           ((su_poll c <=? 0) || negb (su_getsockopt c =? 0) || negb (su_error c =? 0))) then false
  else su_restore c =? 0.

(** The HELLO, if the socket is [connected]: whether it went out, and the
    bytes sent. *)
Definition send_hello (connected : bool) (writes : list write_result) (master_port : Z)
    (replica_id : string) (slave : SlaveReplicator) : bool * string :=
  if (master_port =? 0) || negb connected then (false, "")
  else
    let hello := EncodeFrame
      (BuildHelloFrame replica_id (sl_session_id_ slave) slave kProtocolVersion) in
    let '(ok, s) := write_bytes (λ r, match r with WriteInterrupted => true | _ => false end)
                      hello (mkSocket writes "") in
    (ok, so_sent s).

(** [PollReplicaOnce]: the result, the bytes sent, and the replica. *)
Definition PollReplicaOnce (connected : bool) (writes : list write_result)
    (reads : list read_result) (rnd : nat → nat) (now : Z) (master_port : Z) (replica_id : string)
    (slave : SlaveReplicator) : option (bool * string * SlaveReplicator) :=
  let '(ok, sent) := send_hello connected writes master_port replica_id slave in
  if negb ok then Some (false, sent, slave)
  else
    '(done_, l) ← read_frames reads rnd now (new_link slave);
    Some (done_, sent, lk_slave l).

(** ** Theorems *)

Context {CL : ContainerLaws IC} {RW : RespLaws RL}.

(** A frame the link's codec lets through. *)
Definition transmissible (limits : RespLimits) (f : Frame) : Prop :=
  frame_ok f ∧ within_limits limits (frame_args f).

Definition wire (frames : list Frame) : string := packed (frame_args <$> frames).

Lemma drain_step fuel rnd now l f rest s' :
  RespCodec.protocol_error_ (lk_codec l) = false →
  RespCodec.stream_ (lk_codec l) = EncodeFrame f +:+ rest →
  transmissible (RespCodec.limits_ (lk_codec l)) f →
  (lk_started l = negb (bool_decide (fr_subcmd f = kBegin))) →
  EnqueueFrame rnd f now (lk_slave l) = Some (true, s') →
  drain_frames (S fuel) rnd now l =
  let codec := RespCodec.with_stream (lk_codec l) rest in
  if bool_decide (fr_subcmd f = kDone) then Some (LinkDone, mkLink codec true s')
  else drain_frames fuel rnd now (mkLink codec true s').
Proof.
  intros Hp Hs [Hok Hl] Hst He. cbn [drain_frames].
  rewrite (NextCommand_packed _ None (frame_args f) rest) by done. cbn [accepts].
  rewrite DecodeFrame_frame_args by done. rewrite Hst.
  destruct (bool_decide (fr_subcmd f = kBegin)); cbn [negb andb orb];
    rewrite He; cbn [mbind option_bind negb]; done.
Qed.

(** *** Any answer

    Whatever a primary sends, a poll ends and leaves a well-formed replica,
    as long as no snapshot among the frames brings an empty collection. *)

(** The frames a stream begins with. *)
Fixpoint stream_frames (fuel : nat) (codec : RespCodec.t) : list Frame * RespCodec.t :=
  match fuel with
  | O => ([], codec)
  | S fuel' =>
      match RespCodec.NextCommand codec None with
      | (Some args, codec') =>
          match DecodeFrame_args args with
          | Some f => let '(fs, c) := stream_frames fuel' codec' in (f :: fs, c)
          | None => ([], codec')
          end
      | (None, codec') => ([], codec')
      end
  end.

Definition frame_full (f : Frame) : Prop :=
  fr_subcmd f = kSnapshot → snapshot_full (fr_snapshot_payload f).
Lemma drain_frames_ends fuel rnd now l :
  is_u64 now → slave_ok (lk_slave l) → within_stream (lk_codec l) →
  RespCodec.max_stream_bytes_ (lk_codec l) <= UINT64_MAX →
  (String.length (RespCodec.stream_ (lk_codec l)) < fuel)%nat →
  Forall frame_full (stream_frames fuel (lk_codec l)).1 →
  ∃ r l', drain_frames fuel rnd now l = Some (r, l') ∧ slave_ok (lk_slave l') ∧
    (r = LinkOpen → lk_codec l' = (stream_frames fuel (lk_codec l)).2 ∧
       within_stream (lk_codec l') ∧
       RespCodec.max_stream_bytes_ (lk_codec l') <= UINT64_MAX).
Proof.
  intros Hn. revert l. induction fuel as [|fuel IH]; intros l Hl Hw Hmax Hfuel Hfull; [lia|].
  cbn [drain_frames stream_frames] in *.
  pose proof (NextCommand_stream (lk_codec l) None) as Hs.
  pose proof (NextCommand_within (lk_codec l) None Hw) as Hw'.
  pose proof (NextCommand_limit (lk_codec l) None) as Hmax'.
  destruct (RespCodec.NextCommand (lk_codec l) None) as [[args|] codec]; cbn [snd] in *.
  2:{ eexists _, _. split; [done|]. split; [done|]. cbn. intros _. split; [done|]. split; [done|lia]. }
  destruct Hs as [Hlen _].
  destruct (DecodeFrame_args args) as [f|] eqn:Ef; [|by eexists _, _].
  apply DecodeFrame_args_ok in Ef.
  2:{ unfold within_stream, size_of in Hw. lia. }
  destruct (stream_frames fuel codec) as [fs c] eqn:Efs. cbn [fst snd] in *.
  apply Forall_cons in Hfull as [Hf Hfs].
  destruct (_ || _); [by eexists _, _|].
  destruct (EnqueueFrame_ok rnd f now (lk_slave l) Hl Hn (Build_frame_valid _ Ef Hf)) as (ok & s' & -> & Hs').
  cbn [mbind option_bind]. destruct ok; cbn [negb]; [|by eexists _, _].
  destruct (bool_decide (fr_subcmd f = kDone)); [by eexists _, _|].
  destruct (IH (mkLink codec true s')) as (r & l' & E & Hl' & Hopen); cbn [lk_codec lk_slave];
    [done|done|lia|lia|by rewrite Efs|].
  exists r, l'. split; [done|]. split; [done|]. intros Hr. cbn [lk_codec] in Hopen. rewrite Efs in Hopen. by apply Hopen.
Qed.

(** The frames of a read, and what is left to the reads after it. *)
Definition read_full (r : read_result) (codec : RespCodec.t) : Prop :=
  match r with
  | ReadBytes bytes =>
      let codec' := (RespCodec.AppendBytes codec bytes).2 in
      Forall frame_full (stream_frames (S (String.length (RespCodec.stream_ codec'))) codec').1
  | _ => True
  end.
Definition codec_after (r : read_result) (codec : RespCodec.t) : RespCodec.t :=
  match r with
  | ReadBytes bytes =>
      let codec' := (RespCodec.AppendBytes codec bytes).2 in
      (stream_frames (S (String.length (RespCodec.stream_ codec'))) codec').2
  | _ => codec
  end.
Fixpoint reads_full (reads : list read_result) (codec : RespCodec.t) : Prop :=
  match reads with
  | [] => True
  | r :: rest => read_full r codec ∧ reads_full rest (codec_after r codec)
  end.

(** A link that can go on. *)
Definition codec_ok (codec : RespCodec.t) : Prop :=
  within_stream codec ∧ RespCodec.max_stream_bytes_ codec <= UINT64_MAX.

Lemma link_codec_ok : codec_ok link_codec.
Proof. split; by vm_compute. Qed.

Lemma read_one_ends r rnd now l :
  is_u64 now → slave_ok (lk_slave l) → codec_ok (lk_codec l) → read_full r (lk_codec l) →
  ∃ res l', read_one r rnd now l = Some (res, l') ∧ slave_ok (lk_slave l') ∧
    (res = LinkOpen → lk_codec l' = codec_after r (lk_codec l) ∧ codec_ok (lk_codec l')).
Proof.
  intros Hn Hl [Hw Hmax] Hfull. destruct r as [bytes|again| |]; cbn [read_one]; try (by eexists _, _).
  unfold receive. cbn [read_full codec_after] in *.
  destruct (AppendBytes_within (lk_codec l) bytes Hw) as [Hw' Hmax'].
  destruct (RespCodec.AppendBytes (lk_codec l) bytes) as [[] codec]; cbn [negb snd] in *;
    [|by eexists _, _].
  destruct (drain_frames_ends (S (String.length (RespCodec.stream_ codec))) rnd now
    (mkLink codec (lk_started l) (lk_slave l)) Hn) as (res & l' & E & Hl' & Hopen); cbn [lk_codec lk_slave];
    [done|done|lia|lia|done|].
  exists res, l'. split; [done|]. split; [done|]. intros Hr. by destruct (Hopen Hr) as (? & ? & ?).
Qed.

Lemma read_frames_ends reads rnd now l :
  is_u64 now → slave_ok (lk_slave l) → codec_ok (lk_codec l) → reads_full reads (lk_codec l) →
  ∃ b l', read_frames reads rnd now l = Some (b, l') ∧ slave_ok (lk_slave l').
Proof.
  intros Hn. revert l. induction reads as [|r reads IH]; intros l Hl Hc Hfull; [by eexists _, _|].
  destruct Hfull as [Hr Hfull]. cbn [read_frames].
  destruct (read_one_ends r rnd now l Hn Hl Hc Hr) as (res & l' & -> & Hl' & Hopen).
  cbn [mbind option_bind]. destruct res; [|by eexists _, _..].
  destruct (Hopen eq_refl) as [Hcodec Hc']. apply IH; [done|done|]. by rewrite Hcodec.
Qed.

Lemma PollReplicaOnce_ends connected writes reads rnd now port id s :
  slave_ok s → is_u64 now → reads_full reads link_codec →
  ∃ b sent s', PollReplicaOnce connected writes reads rnd now port id s = Some (b, sent, s') ∧
    slave_ok s'.
Proof.
  intros Hs Hn Hfull. unfold PollReplicaOnce. destruct (send_hello _ _ _ _ _) as [[] sent]; cbn [negb];
    [|by eexists _, _, _].
  destruct (read_frames_ends reads rnd now (new_link s) Hn Hs link_codec_ok Hfull) as (b & l & -> & Hl).
  cbn [mbind option_bind]. by eexists _, _, _.
Qed.

(** *** The answer of a primary *)

(** The frames still to come: an answer is a BEGIN, other frames, a DONE. *)
Definition answer_rest (started : bool) (fs : list Frame) : Prop :=
  ∃ mid d, fs = mid ++ [d] ∧ fr_subcmd d = kDone ∧
    Forall (λ f, fr_subcmd f ≠ kDone) mid ∧
    match started, mid with
    | true, _ => Forall (λ f, fr_subcmd f ≠ kBegin) mid
    | false, [] => False
    | false, b :: mid' => fr_subcmd b = kBegin ∧ Forall (λ f, fr_subcmd f ≠ kBegin) mid'
    end.

Lemma answer_rest_cons started f fs :
  answer_rest started (f :: fs) →
  started = negb (bool_decide (fr_subcmd f = kBegin)) ∧
  ((fr_subcmd f = kDone ∧ fs = []) ∨ (fr_subcmd f ≠ kDone ∧ answer_rest true fs)).
Proof.
  intros (mid & d & E & Hd & Hmid & Hs). destruct mid as [|g mid].
  - injection E as -> ->. destruct started; [|done]. rewrite Hd. split; [done|by left].
  - injection E as -> ->. apply Forall_cons in Hmid as [Hg Hmid]. split.
    + destruct started; [|by rewrite (proj1 Hs)]. apply Forall_cons in Hs as [Hb _].
      by rewrite bool_decide_eq_false_2.
    + right. split; [done|]. exists mid, d. do 3 (split; [done|]).
      destruct started; [by apply Forall_cons in Hs as [_ ?]|apply Hs].
Qed.

(** The frames that are complete are handed over in order; the rest of the
    stream waits, unless the answer is complete. *)
Lemma drain_answer fuel rnd now l f1 f2 t s' :
  RespCodec.protocol_error_ (lk_codec l) = false →
  RespCodec.stream_ (lk_codec l) = wire f1 +:+ t →
  answer_rest (lk_started l) (f1 ++ f2) →
  Forall (transmissible (RespCodec.limits_ (lk_codec l))) (f1 ++ f2) →
  match f2 with
  | [] => t = ""
  | f :: _ => ∃ q, t +:+ q = EncodeFrame f ∧ q ≠ ""
  end →
  enqueue_all rnd now (f1 ++ f2) (lk_slave l) = Some s' →
  (length f1 < fuel)%nat →
  ∃ s1, enqueue_all rnd now f1 (lk_slave l) = Some s1 ∧
    drain_frames fuel rnd now l =
    Some (match f2 with [] => LinkDone | _ => LinkOpen end,
          mkLink (RespCodec.with_stream (lk_codec l) t)
            (match f1 with [] => lk_started l | _ => true end) s1).
Proof.
  revert fuel l. induction f1 as [|f f1 IH]; intros fuel l Hp Hs Hans Htr Hpart Hen Hf;
    (destruct fuel as [|fuel]; [cbn in Hf; lia|]).
  - exists (lk_slave l). split; [done|]. cbn [app] in *. destruct f2 as [|f f2].
    { by destruct Hans as ([|] & d & E & _). }
    apply Forall_cons in Htr as [[_ Hl] _]. destruct Hpart as (q & Hq & Hne).
    unfold wire in Hs. cbn [packed fmap list_fmap foldr] in Hs. rewrite string_app_nil_l in Hs.
    cbn [drain_frames].
    destruct (NextCommand_partial (lk_codec l) None (frame_args f) q Hp) as [->|[Hr _]];
      [by rewrite Hs|done|done| |done].
    unfold RespCodec.HasProtocolError. rewrite Hp.
    replace (RespCodec.with_stream (lk_codec l) t) with (lk_codec l); [done|].
    rewrite <-Hs. by destruct (lk_codec l).
  - cbn [app enqueue_all] in *.
    destruct (EnqueueFrame rnd f now (lk_slave l)) as [[[] s1]|] eqn:E; cbn in Hen; [|done|done].
    apply answer_rest_cons in Hans as [Hst Hans]. apply Forall_cons in Htr as [Htr Htrs].
    unfold wire in Hs. cbn [packed fmap list_fmap foldr] in Hs. rewrite string_app_assoc in Hs.
    rewrite (drain_step fuel rnd now l f (wire f1 +:+ t) s1) by done. cbn zeta.
    destruct Hans as [[Hd Hnil]|[Hd Hans]].
    + apply app_eq_nil in Hnil as [-> ->]. subst t. rewrite bool_decide_eq_true_2 by done.
      exists s1. cbn [mbind option_bind enqueue_all]. split; [done|].
      unfold wire. cbn [packed fmap list_fmap foldr]. by rewrite string_app_nil_l.
    + rewrite bool_decide_eq_false_2 by done.
      destruct (IH fuel (mkLink (RespCodec.with_stream (lk_codec l) (wire f1 +:+ t)) true s1))
        as (s2 & Hen2 & ->); [done|done|done|done|done|done|cbn in Hf; lia|].
      exists s2. cbn [mbind option_bind]. split; [done|]. f_equal. f_equal. f_equal. by destruct f1.
Qed.

(** The bytes that arrive before the link is given up. *)
Fixpoint received (reads : list read_result) : string :=
  match reads with
  | ReadBytes bytes :: rest => bytes +:+ received rest
  | ReadInterrupted :: rest => received rest
  | _ => ""
  end.

Definition within_frame (stream : string) (fs : list Frame) : Prop :=
  match fs with
  | [] => True
  | f :: _ => ∃ q, stream +:+ q = EncodeFrame f ∧ q ≠ ""
  end.

(** Part of an answer is not all of it. *)
Lemma answer_unfinished started stream missing fs :
  answer_rest started fs → within_frame stream fs → stream +:+ missing = wire fs → missing ≠ "".
Proof.
  intros (mid & d & -> & _) Hw Hs ->. rewrite string_app_nil_r in Hs. subst stream.
  destruct mid as [|f mid]; destruct Hw as (q & Hq & Hne); unfold wire in Hq;
    cbn [app packed fmap list_fmap foldr] in Hq; apply (f_equal String.length) in Hq;
    rewrite !length_app_string in Hq; unfold EncodeFrame in Hq; destruct q; try done; cbn in Hq; lia.
Qed.

Lemma answer_rest_later started f1 f2 :
  answer_rest started (f1 ++ f2) → f2 ≠ [] →
  answer_rest (match f1 with [] => started | _ => true end) f2.
Proof.
  revert started. induction f1 as [|f f1 IH]; intros started Ha Hne; [done|].
  cbn [app] in Ha. apply answer_rest_cons in Ha as [_ [[_ Hnil]|[_ Ha]]].
  - by apply app_eq_nil in Hnil as [_ ->].
  - specialize (IH true Ha Hne). by destruct f1.
Qed.

Lemma enqueue_all_split rnd now f1 f2 s s' :
  enqueue_all rnd now (f1 ++ f2) s = Some s' →
  ∃ s1, enqueue_all rnd now f1 s = Some s1 ∧ enqueue_all rnd now f2 s1 = Some s'.
Proof.
  revert s. induction f1 as [|f f1 IH]; intros s; cbn [app enqueue_all]; [by exists s|].
  destruct (EnqueueFrame rnd f now s) as [[[] s0]|]; cbn; [apply IH|done|done].
Qed.

(** The replica's part of a poll, wherever the answer is cut into reads and
    wherever it breaks off: the frames that have arrived whole are handed over
    in order, and the poll succeeds when all have. *)
Lemma read_answer reads rnd now l fs s' missing :
  RespCodec.protocol_error_ (lk_codec l) = false →
  RespCodec.stream_ (lk_codec l) +:+ (received reads +:+ missing) = wire fs →
  size_of (wire fs) <= RespCodec.max_stream_bytes_ (lk_codec l) →
  answer_rest (lk_started l) fs → Forall (transmissible (RespCodec.limits_ (lk_codec l))) fs →
  within_frame (RespCodec.stream_ (lk_codec l)) fs →
  enqueue_all rnd now fs (lk_slave l) = Some s' →
  ∃ b l' f1 f2, read_frames reads rnd now l = Some (b, l') ∧ fs = f1 ++ f2 ∧
    enqueue_all rnd now f1 (lk_slave l) = Some (lk_slave l') ∧
    (b = true → f2 = []) ∧ (missing = "" → b = true).
Proof.
  revert l fs. induction reads as [|r reads IH]; intros l fs Hp Hs Hsize Hans Htr Hpart Hen.
  { cbn [received] in Hs. rewrite string_app_nil_l in Hs.
    exists false, l, [], fs. do 4 (split; [done|]).
    intros Hm. by destruct (answer_unfinished _ _ _ _ Hans Hpart Hs). }
  cbn [read_frames received] in *.
  destruct r as [bytes|ready| |]; [|rewrite string_app_nil_l in Hs| |rewrite string_app_nil_l in Hs].
  2, 4: exists false, l, [], fs; do 4 (split; [done|]); intros Hm;
        by destruct (answer_unfinished _ _ _ _ Hans Hpart Hs).
  2: by apply (IH l fs).
  rewrite string_app_assoc, <-string_app_assoc in Hs.
  destruct (packed_cut (frame_args <$> fs) "" (RespCodec.stream_ (lk_codec l) +:+ bytes)
    (received reads +:+ missing)) as (a1 & a2 & t & Hfs & Hst & Hrest & Hm).
  { rewrite string_app_nil_r. exact Hs. }
  apply fmap_app_inv in Hfs as (f1 & f2 & -> & -> & ->). fold (wire f1) in Hst.
  rewrite string_app_nil_r in Hrest. fold (wire f2) in Hrest.
  cbn [read_one]. unfold receive. rewrite AppendBytes_fits; [|done|].
  2:{ apply (f_equal size_of) in Hs. unfold size_of in *. rewrite !length_app_string in *. lia. }
  cbn beta iota delta [negb]. rewrite Hst.
  set (l0 := mkLink (RespCodec.with_stream (lk_codec l) (wire f1 +:+ t)) (lk_started l) (lk_slave l)).
  change (RespCodec.stream_ (RespCodec.with_stream (lk_codec l) (wire f1 +:+ t)))
    with (RespCodec.stream_ (lk_codec l0)).
  assert (match f2 with [] => t = "" | f :: _ => ∃ q, t +:+ q = EncodeFrame f ∧ q ≠ "" end) as Hm'.
  { destruct f2 as [|f f2]; [|exact Hm]. apply (f_equal String.length) in Hrest.
    rewrite length_app_string in Hrest. cbn in Hrest. destruct t; [done|cbn in Hrest; lia]. }
  destruct (drain_answer (S (String.length (RespCodec.stream_ (lk_codec l0)))) rnd now l0 f1 f2 t s')
    as (s1 & Hen1 & Edrain); try done.
  { cbn. rewrite length_app_string. pose proof (packed_length (frame_args <$> f1)) as H.
    rewrite length_fmap in H. unfold wire. lia. }
  rewrite Edrain. cbn [mbind option_bind].
  destruct (enqueue_all_split _ _ _ _ _ _ Hen) as (s1' & Hen1' & Hen2).
  cbn in Hen1. rewrite Hen1 in Hen1'. injection Hen1' as <-.
  destruct f2 as [|f f2].
  { eexists true, _, f1, []. split; [reflexivity|]. done. }
  destruct (IH (mkLink (RespCodec.with_stream (lk_codec l0) t)
    (match f1 with [] => lk_started l0 | _ => true end) s1) (f :: f2))
    as (b & l' & g1 & g2 & E & Hg & Heng & Hb & Hmiss);
    [exact Hp|exact Hrest| | | |exact Hm'|exact Hen2|].
  { change (size_of (wire (f :: f2)) <= RespCodec.max_stream_bytes_ (lk_codec l)).
    unfold wire in Hsize |- *. rewrite fmap_app, packed_app in Hsize.
    unfold size_of in *. rewrite length_app_string in Hsize. lia. }
  { by apply (answer_rest_later (lk_started l)). }
  { by apply Forall_app in Htr as [_ Htr]. }
  rewrite E. exists b, l', (f1 ++ g1), g2. split; [done|].
  split; [by rewrite Hg, app_assoc|]. split; [|done].
  by rewrite (enqueue_all_app _ _ _ _ _ _ Hen1).
Qed.

(** A poll of a primary that answers [frames]. *)
Lemma PollReplicaOnce_answer writes reads rnd now port id s frames s' missing :
  port ≠ 0 → received reads +:+ missing = wire frames →
  size_of (wire frames) <= 256 * 1024 * 1024 → answer_rest false frames →
  Forall (transmissible (RespCodec.limits_ (lk_codec (new_link s)))) frames →
  enqueue_all rnd now frames s = Some s' →
  ∃ b sent n sln, PollReplicaOnce true writes reads rnd now port id s = Some (b, sent, sln) ∧
    enqueue_all rnd now (take n frames) s = Some sln ∧
    (∃ rest, EncodeFrame (BuildHelloFrame id (sl_session_id_ s) s kProtocolVersion) = sent +:+ rest ∧
       (missing = "" → rest = "" → b = true)) ∧
    (b = true → (length frames <= n)%nat).
Proof.
  intros Hport Hs Hsize Hans Htr Hen. unfold PollReplicaOnce, send_hello.
  rewrite (proj2 (Z.eqb_neq port 0)) by done. cbn [orb negb].
  set (hello := EncodeFrame _).
  pose proof (write_bytes_spec (λ r, match r with WriteInterrupted => true | _ => false end) hello
    (mkSocket writes "")) as Hw.
  destruct (write_bytes _ _ _) as [ok sock]. destruct Hw as (p & q & Hpq & Hsent & Hok).
  cbn [so_sent] in Hsent. rewrite string_app_nil_l in Hsent. destruct ok; cbn [negb].
  - destruct (read_answer reads rnd now (new_link s) frames s' missing)
      as (b & l' & f1 & f2 & E & -> & Hen1 & Hb & Hm); try done.
    { destruct Hans as ([|f mid] & d & -> & _ & _ & Ha); [done|].
      exists (EncodeFrame f). cbn. rewrite string_app_nil_l. split; [done|].
      intros Hz. pose proof (pack_command_nonempty (frame_args f)) as H. unfold EncodeFrame in Hz.
      rewrite Hz in H. cbn in H. lia. }
    rewrite E. cbn [mbind option_bind]. exists b, (so_sent sock), (length f1), (lk_slave l').
    split; [done|]. rewrite take_app_length. split; [done|]. split.
    + exists q. rewrite Hsent. split; [done|]. intros Hmiss _. by apply Hm.
    + intros Hbt. rewrite (Hb Hbt), app_nil_r. done.
  - exists false, (so_sent sock), 0%nat, s. split; [done|]. split; [done|]. split; [|done].
    exists q. rewrite Hsent. split; [done|]. intros _ Hq. by apply Hok in Hq.
Qed.
End link.
