(* ===== verification/Startup.v ===== *)
(** * The start of the program: src/main.cpp and src/net/server.h

    [main] reads its options into a [ServerConfig], exits with 2 when the log
    budget is not a number of bytes, creates the cache and the objects of its
    role, starts the background thread of that role and the server's workers.
    The endpoints of the conn_util library are a parameter. [argv] is a list of
    strings, the name of the program first. *)

From S2P Require Import Prelude Text Containers RedisObject Binlog HashSlot Engine Sweeper Resp ReplFrame SnapshotCodec Slave Master Background Socket Server Worker Link.

(** ** The configuration *)

Inductive ServerRole := kMaster | kReplica.
#[export] Instance ServerRole_eq_dec : EqDecision ServerRole.
Proof. solve_decision. Defined.

Record ServerConfig := mkServerConfig {
  cf_host : string;
  cf_port : Z;
  cf_worker_count : Z;
  cf_coroutine_count_per_worker : Z;
  cf_role : ServerRole;
  cf_replica_reads : bool;
  cf_master_host : string;
  cf_master_port : Z;
  cf_replica_id : string;
  cf_binlog_budget_bytes : Z;
}.

Definition ServerConfig_default : ServerConfig :=
  mkServerConfig "127.0.0.1" 6399 2 1024 kMaster false "127.0.0.1" 0 "" (64 * 1024 * 1024).

Definition with_role (c : ServerConfig) (role : ServerRole) : ServerConfig :=
  mkServerConfig (cf_host c) (cf_port c) (cf_worker_count c) (cf_coroutine_count_per_worker c) role
    (cf_replica_reads c) (cf_master_host c) (cf_master_port c) (cf_replica_id c) (cf_binlog_budget_bytes c).
Definition with_replica_reads (c : ServerConfig) (reads : bool) : ServerConfig :=
  mkServerConfig (cf_host c) (cf_port c) (cf_worker_count c) (cf_coroutine_count_per_worker c) (cf_role c)
    reads (cf_master_host c) (cf_master_port c) (cf_replica_id c) (cf_binlog_budget_bytes c).
Definition with_master (c : ServerConfig) (host : string) (port : Z) : ServerConfig :=
  mkServerConfig (cf_host c) (cf_port c) (cf_worker_count c) (cf_coroutine_count_per_worker c) (cf_role c)
    (cf_replica_reads c) host port (cf_replica_id c) (cf_binlog_budget_bytes c).
Definition with_replica_id (c : ServerConfig) (id : string) : ServerConfig :=
  mkServerConfig (cf_host c) (cf_port c) (cf_worker_count c) (cf_coroutine_count_per_worker c) (cf_role c)
    (cf_replica_reads c) (cf_master_host c) (cf_master_port c) id (cf_binlog_budget_bytes c).
Definition with_budget (c : ServerConfig) (bytes : Z) : ServerConfig :=
  mkServerConfig (cf_host c) (cf_port c) (cf_worker_count c) (cf_coroutine_count_per_worker c) (cf_role c)
    (cf_replica_reads c) (cf_master_host c) (cf_master_port c) (cf_replica_id c) bytes.

(** The endpoints of conn_util. *)
Class EndpointLib := {
  Endpoint : Type;
  Endpoint_parse : string → option Endpoint;
  Endpoint_host : Endpoint → string;
  Endpoint_port : Endpoint → Z;
}.

(** [std::atoi]: without a number it is 0, and a number that is no [int] is
    undefined behaviour ([None]). *)
Definition atoi (text : string) : option Z :=
  match strtoll10 (c_str text) with
  | NoConversion => Some 0
  | OutOfRange => None
  | Converted value _ => if bool_decide (-2147483648 <= value <= 2147483647) then Some value else None
  end.

(** Conversion to [std::uint16_t]. *)
Definition u16 (z : Z) : Z := z mod 65536.

(** [arg.rfind(prefix, 0) == 0], and [arg.substr(prefix.size())]. *)
Definition option_value (prefix arg : string) : option string :=
  let n := String.length prefix in
  if String.eqb (str_take n arg) prefix then Some (str_drop n arg) else None.

Section startup.
Context {EL : EndpointLib}.

(** An option: [inl] is the exit code. *)
Definition parse_option (arg : string) (c : ServerConfig) : Z + ServerConfig :=
  if String.eqb arg "--replica" then inr (with_role c kReplica)
  else if String.eqb arg "--replica-reads" then inr (with_replica_reads c true)
  else
    match option_value "--master=" arg with
    | Some value =>
        match Endpoint_parse value with
        | Some endpoint => inr (with_master c (Endpoint_host endpoint) (u16 (Endpoint_port endpoint)))
        | None => inr c
        end
    | None =>
        match option_value "--binlog-budget=" arg with
        | Some value =>
            match ParseInt64 value with
            | None => inl 2
            | Some bytes => if bytes <? 0 then inl 2 else inr (with_budget c bytes)
            end
        | None =>
            match option_value "--replica-id=" arg with
            | Some id => inr (with_replica_id c id)
            | None => inr c
            end
        end
    end.

Fixpoint parse_options (args : list string) (c : ServerConfig) : Z + ServerConfig :=
  match args with
  | [] => inr c
  | arg :: rest =>
      match parse_option arg c with
      | inl code => inl code
      | inr c' => parse_options rest c'
      end
  end.

(** An argument that is a number. *)
Definition int_arg (argv : list string) (i : nat) (absent : Z) : option Z :=
  match argv !! i with Some text => atoi text | None => Some absent end.

(** [main], up to the configuration. *)
Definition parse_args (argv : list string) : option (Z + ServerConfig) :=
  let d := ServerConfig_default in
  port ← int_arg argv 1 (cf_port d);
  workers ← int_arg argv 2 (cf_worker_count d);
  coroutines ← int_arg argv 3 (cf_coroutine_count_per_worker d);
  let c := mkServerConfig (cf_host d) (u16 port) workers coroutines (cf_role d) (cf_replica_reads d)
             (cf_master_host d) (cf_master_port d) (cf_replica_id d) (cf_binlog_budget_bytes d) in
  Some (match parse_options (drop 4 argv) c with
        | inl code => inl code
        | inr c' =>
            inr (if String.eqb (cf_replica_id c') ""
                 then with_replica_id c' (cf_host c' +:+ ":" +:+ to_string (cf_port c'))
                 else c')
        end).

(** ** The objects and the threads *)

Context {IC : ImmutableContainer} {RL : RespLib}.

(** The objects of a role: a primary has its replicator with the budget set,
    a replica its own. *)
Definition create_node (r1 r2 : Z) (c : ServerConfig) : node :=
  match cf_role c with
  | kMaster =>
      MasterNode CacheEngine_new
        (Some (SetGlobalBinlogBudget (MasterReplicator_new r1 r2) (cf_binlog_budget_bytes c)))
  | kReplica => ReplicaNode (Some (SlaveReplicator_new CacheEngine_new)) (cf_replica_reads c)
  end.

(** The background thread of a replica: a poll every second, whatever came of
    the last one. *)
Record poll_calls := mkPollCalls {
  pc_setup : setup_calls;
  pc_writes : list write_result;
  pc_reads : list read_result;
  pc_rnd : nat → nat;
  pc_now : Z;
}.

Fixpoint replica_loop (c : ServerConfig) (calls : list poll_calls) (s : SlaveReplicator)
    : option SlaveReplicator :=
  match calls with
  | [] => Some s
  | p :: rest =>
      '(_, _, s') ← PollReplicaOnce (connect_primary (pc_setup p)) (pc_writes p) (pc_reads p) (pc_rnd p) (pc_now p)
                      (cf_master_port c) (cf_replica_id c) s;
      replica_loop c rest s'
  end.

Definition start_workers (c : ServerConfig) : Acceptor :=
  Server_start (cf_worker_count c) (cf_coroutine_count_per_worker c).
End startup.

(** ** What the options say

    Each option is read on its own: the last one that sets a value wins, and
    a budget that is not a number of bytes anywhere ends the program. *)

Definition last_of {A} (f : string → option A) (args : list string) (d : A) : A :=
  default d (last (omap f args)).

Definition budget_of (arg : string) : option Z :=
  option_value "--binlog-budget=" arg ≫= ParseInt64.
Definition bad_budget (arg : string) : bool :=
  match option_value "--binlog-budget=" arg with
  | Some value => match ParseInt64 value with Some bytes => bytes <? 0 | None => true end
  | None => false
  end.

Section options.
Context {EL : EndpointLib}.

Definition master_of (arg : string) : option (string * Z) :=
  endpoint ← option_value "--master=" arg ≫= Endpoint_parse;
  Some (Endpoint_host endpoint, u16 (Endpoint_port endpoint)).

Definition given (name : string) (args : list string) : bool :=
  existsb (λ arg, String.eqb arg name) args.

Definition with_options (args : list string) (c : ServerConfig) : ServerConfig :=
  let master := last_of master_of args (cf_master_host c, cf_master_port c) in
  mkServerConfig (cf_host c) (cf_port c) (cf_worker_count c) (cf_coroutine_count_per_worker c)
    (if given "--replica" args then kReplica else cf_role c)
    (if given "--replica-reads" args then true else cf_replica_reads c)
    master.1 master.2
    (last_of (option_value "--replica-id=") args (cf_replica_id c))
    (last_of budget_of args (cf_binlog_budget_bytes c)).

Lemma last_of_cons {A} (f : string → option A) a l d :
  last_of f (a :: l) d = last_of f l (default d (f a)).
Proof.
  unfold last_of. cbn [omap list_omap]. destruct (f a) as [x|]; cbn [default]; [|done].
  rewrite last_cons. by destruct (last _).
Qed.

Lemma option_value_Some prefix arg value :
  option_value prefix arg = Some value → arg = prefix +:+ value.
Proof.
  unfold option_value. destruct (String.eqb _ _) eqn:E; [|done]. apply String.eqb_eq in E.
  intros [= <-]. rewrite <-E at 1. symmetry. apply str_take_drop.
Qed.

Lemma parse_option_spec arg rest c :
  match parse_option arg c with
  | inl code => code = 2 ∧ bad_budget arg = true
  | inr c' => bad_budget arg = false ∧ with_options rest c' = with_options (arg :: rest) c
  end.
Proof.
  unfold parse_option, with_options, given. rewrite !last_of_cons. cbn [existsb].
  unfold master_of, budget_of, bad_budget.
  destruct (String.eqb arg "--replica") eqn:E1.
  { apply String.eqb_eq in E1. subst arg. split; [done|]. cbn. by repeat destruct (existsb _ _). }
  destruct (String.eqb arg "--replica-reads") eqn:E2.
  { apply String.eqb_eq in E2. subst arg. split; [done|]. cbn. by repeat destruct (existsb _ _). }
  destruct (option_value "--master=" arg) as [v|] eqn:Em.
  { apply option_value_Some in Em. subst arg. cbn. by destruct (Endpoint_parse v). }
  destruct (option_value "--binlog-budget=" arg) as [v|] eqn:Eb.
  { apply option_value_Some in Eb. subst arg. cbn. destruct (ParseInt64 v) as [n|]; [|done].
    by destruct (n <? 0). }
  by destruct (option_value "--replica-id=" arg).
Qed.

(** The loop over the options. *)
Lemma parse_options_spec args c :
  parse_options args c = if existsb bad_budget args then inl 2 else inr (with_options args c).
Proof.
  revert c. induction args as [|arg args IH]; intros c; [by destruct c|].
  cbn [parse_options existsb]. pose proof (parse_option_spec arg args c) as H.
  destruct (parse_option arg c) as [code|c'].
  - by destruct H as [-> ->].
  - destruct H as [-> <-]. apply IH.
Qed.

(** The budget that is left is a number of bytes. *)
Lemma budget_range args c :
  existsb bad_budget args = false → 0 <= cf_binlog_budget_bytes c <= INT64_MAX →
  0 <= cf_binlog_budget_bytes (with_options args c) <= INT64_MAX.
Proof.
  unfold with_options. cbn [cf_binlog_budget_bytes]. generalize (cf_binlog_budget_bytes c).
  induction args as [|arg args IH]; intros d Hb Hd; [done|].
  cbn [existsb] in Hb. apply orb_false_iff in Hb as [Ha Hb]. rewrite last_of_cons. apply IH; [done|].
  unfold budget_of, bad_budget in *. destruct (option_value _ arg) as [v|]; [|done]. cbn.
  destruct (ParseInt64 v) as [n|] eqn:E; [|done]. cbn. apply Z.ltb_ge in Ha.
  apply ParseInt64_range in E. unfold is_i64 in E. lia.
Qed.

(** The configuration of a command line that is good. *)
Definition configured (port workers coroutines : Z) (options : list string) : ServerConfig :=
  let d := ServerConfig_default in
  let c := with_options options
    (mkServerConfig (cf_host d) (u16 port) workers coroutines (cf_role d) (cf_replica_reads d)
       (cf_master_host d) (cf_master_port d) (cf_replica_id d) (cf_binlog_budget_bytes d)) in
  if String.eqb (cf_replica_id c) "" then with_replica_id c (cf_host c +:+ ":" +:+ to_string (cf_port c))
  else c.

Lemma parse_args_spec argv port workers coroutines :
  int_arg argv 1 6399 = Some port → int_arg argv 2 2 = Some workers →
  int_arg argv 3 1024 = Some coroutines →
  parse_args argv =
  Some (if existsb bad_budget (drop 4 argv) then inl 2
        else inr (configured port workers coroutines (drop 4 argv))).
Proof.
  intros Hp Hw Hc. unfold parse_args. cbn [cf_port cf_worker_count cf_coroutine_count_per_worker
    ServerConfig_default]. rewrite Hp. cbn [mbind option_bind]. rewrite Hw. cbn [mbind option_bind].
  rewrite Hc. cbn [mbind option_bind]. rewrite parse_options_spec.
  by destruct (existsb _ _).
Qed.

Lemma configured_ok port workers coroutines options :
  existsb bad_budget options = false →
  let c := configured port workers coroutines options in
  0 <= cf_port c < 65536 ∧ 0 <= cf_binlog_budget_bytes c <= INT64_MAX ∧ cf_replica_id c ≠ "" ∧
  cf_host c = "127.0.0.1".
Proof.
  intros Hb. unfold configured.
  match goal with |- context [with_options options ?d] => set (c0 := d) end. cbn zeta.
  assert (0 <= cf_binlog_budget_bytes (with_options options c0) <= INT64_MAX) as Hbud
    by (apply budget_range; [done|cbn; unfold INT64_MAX; lia]).
  assert (0 <= cf_port (with_options options c0) < 65536) as Hport
    by (cbn; unfold u16; apply Z.mod_pos_bound; lia).
  destruct (String.eqb _ "") eqn:E.
  - do 2 (split; [done|]). split; [done|done].
  - do 2 (split; [done|]). split; [|done]. by apply String.eqb_neq.
Qed.

(** A configuration has a budget that is a number of bytes. *)
Lemma parse_args_budget argv c :
  parse_args argv = Some (inr c) → 0 <= cf_binlog_budget_bytes c.
Proof.
  intros E. pose proof E as E0. unfold parse_args in E0.
  destruct (int_arg argv 1 _) as [port|] eqn:Hp; [|done]. cbn [mbind option_bind] in E0.
  destruct (int_arg argv 2 _) as [workers|] eqn:Hw; [|done]. cbn [mbind option_bind] in E0.
  destruct (int_arg argv 3 _) as [coroutines|] eqn:Hc; [|done]. clear E0.
  rewrite (parse_args_spec argv port workers coroutines Hp Hw Hc) in E.
  destruct (existsb _ _) eqn:Hb; [done|]. injection E as <-.
  by destruct (configured_ok port workers coroutines _ Hb) as (_ & [H _] & _).
Qed.

Lemma given_spec name args : given name args = true ↔ name ∈ args.
Proof.
  unfold given. rewrite existsb_exists. setoid_rewrite String.eqb_eq. split.
  - intros (x & Hx & ->). by apply list_elem_of_In.
  - intros H. exists name. by apply list_elem_of_In in H.
Qed.

Lemma configured_flags port workers coroutines options :
  let c := configured port workers coroutines options in
  (cf_role c = kReplica ↔ "--replica" ∈ options) ∧
  (cf_replica_reads c = true ↔ "--replica-reads" ∈ options).
Proof.
  assert (∀ b : bool, (if b then kReplica else kMaster) = kReplica ↔ b = true) as Hrole by (by intros []).
  assert (∀ b : bool, (if b then true else false) = true ↔ b = true) as Hreads by (by intros []).
  unfold configured. destruct (String.eqb _ "");
    cbn [cf_role cf_replica_reads with_replica_id with_options ServerConfig_default];
    by rewrite Hrole, Hreads, !given_spec.
Qed.
End options.
