(* ===== verification/Process.v ===== *)
(** * The process: what src/main.cpp sets going

    The node of a process, its background thread and its client connections,
    run one after another: a connection is accepted, bytes arrive on one, the
    background thread takes a turn. A step of a connection goes from a read to
    the write of the replies: the coroutines of a worker change only where one
    waits for its socket, and what they share, the node, is not touched between
    the commands of a read. A turn of the background thread is one sweep of a
    primary; the poll of a replica takes one turn for its HELLO and one for
    each of its reads, so that clients are served in the middle of a poll.
    Connections of several workers interleave within a command as well
    (Interference.v). The number of a connection is its file descriptor. *)

From S2P Require Import Prelude Text Containers RedisObject Binlog HashSlot Engine Sweeper Response Command Dispatcher Resp ReplFrame SnapshotCodec Slave Master Background Socket Server Worker Link Startup.

Section process.
Context {IC : ImmutableContainer} {RL : RespLib}.

(** ** The background thread *)

(** A primary's loop, or the codec and the progress of a replica's open poll. *)
Record thread := mkThread {
  th_background : background;
  th_link : option (RespCodec.t * bool);
}.
Definition thread_new : thread := mkThread background_new None.

Inductive turn :=
  | Tick (now_us : Z)
  | PollStart (setup : setup_calls) (writes : list write_result)
  | PollRead (rnd : nat → nat) (now_us : Z) (r : read_result).

(** A poll that starts follows the end of the one before. *)
Definition take_turn (c : ServerConfig) (t : turn) (n : node) (th : thread)
    : option (node * thread) :=
  match t with
  | Tick now_us =>
      match n with
      | MasterNode e (Some m) =>
          '((b, m'), e') ← background_tick now_us (th_background th) m e;
          Some (MasterNode e' (Some m'), mkThread b (th_link th))
      | _ => Some (n, th)
      end
  | PollStart setup writes =>
      match n with
      | ReplicaNode (Some s) _ =>
          let '(ok, _) := send_hello (connect_primary setup) writes (cf_master_port c) (cf_replica_id c) s in
          Some (n, mkThread (th_background th) (if ok then Some (link_codec, false) else None))
      | _ => Some (n, mkThread (th_background th) None)
      end
  | PollRead rnd now_us r =>
      match n, th_link th with
      | ReplicaNode (Some s) reads, Some (codec, started) =>
          '(result, l) ← read_one r rnd now_us (mkLink codec started s);
          Some (ReplicaNode (Some (lk_slave l)) reads,
                mkThread (th_background th)
                  (match result with
                   | LinkOpen => Some (lk_codec l, lk_started l)
                   | LinkFailed | LinkDone => None
                   end))
      | _, _ => Some (n, mkThread (th_background th) None)
      end
  end.

Fixpoint take_turns (c : ServerConfig) (ts : list turn) (n : node) (th : thread)
    : option (node * thread) :=
  match ts with
  | [] => Some (n, th)
  | t :: rest => '(n', th') ← take_turn c t n th; take_turns c rest n' th'
  end.

(** ** The process *)

Record client := mkClient {
  cl_open : bool;
  cl_codec : RespCodec.t;
  cl_socket : socket;
}.

Record process := mkProcess {
  pr_config : ServerConfig;
  pr_node : node;
  pr_thread : thread;
  pr_env : environment;        (* the clock and the random engine, command by command *)
  pr_clients : gmap nat client;
}.

Inductive event :=
  | Connect (fd : nat) (writes : list write_result)
  | Receive (fd : nat) (r : read_result)
  | Background (t : turn).

(** A turn of [ConnectionRoutine], unless its connection has been closed. *)
Definition receive_on (fd : nat) (r : read_result) (p : process) : option process :=
  match pr_clients p !! fd with
  | Some (mkClient true codec s) =>
      '(open, c) ← ConnectionLoop [r] (mkConnection codec "" s (pr_node p) (pr_env p));
      Some (mkProcess (pr_config p) (cn_node c) (pr_thread p) (cn_env c)
              (<[fd := mkClient open (cn_codec c) (cn_socket c)]> (pr_clients p)))
  | _ => Some p
  end.

(** A turn of the background thread. *)
Definition background_turn (t : turn) (p : process) : option process :=
  '(n, th) ← take_turn (pr_config p) t (pr_node p) (pr_thread p);
  Some (mkProcess (pr_config p) n th (pr_env p) (pr_clients p)).

Definition handle (ev : event) (p : process) : option process :=
  match ev with
  | Connect fd writes =>
      Some (mkProcess (pr_config p) (pr_node p) (pr_thread p) (pr_env p)
              (<[fd := mkClient true (new_codec (pr_node p)) (mkSocket writes "")]> (pr_clients p)))
  | Receive fd r => receive_on fd r p
  | Background t => background_turn t p
  end.

Fixpoint run_events (evs : list event) (p : process) : option process :=
  match evs with
  | [] => Some p
  | ev :: rest => p' ← handle ev p; run_events rest p'
  end.

(** The process [main] starts. *)
Definition process_start (r1 r2 : Z) (env : environment) (c : ServerConfig) : process :=
  mkProcess c (create_node r1 r2 c) thread_new env ∅.

(** ** Theorems *)

Context {CL : ContainerLaws IC} {RW : RespLaws RL}.

(** *** Any input *)

(** A poll leaves the budget of the logs as it was. *)
Lemma Poll_budget hello_view view slot_count m hello max_frames frames m' :
  Poll hello_view view slot_count m hello max_frames = Some (frames, m') →
  ms_budget_ m' = ms_budget_ m.
Proof.
  unfold Poll. destruct (_ || _); [by intros [= _ <-]|].
  intros ([i m1] & E1 & (r & _ & ([[fs completed] r'] & _ & [= _ <-])%bind_Some)%bind_Some)%bind_Some.
  unfold OnHelloUnlocked in E1. destruct (negb _); [done|].
  destruct (FindReplica m _) as [j|]; cbn -[set_replica] in E1.
  - destruct (ms_replicas_ m !! j) as [r0|]; [|done]. cbn -[set_replica] in E1.
    destruct (_ || _); by injection E1 as _ <-.
  - destruct (_ !! _) as [r0|]; [|done]. cbn -[set_replica] in E1.
    destruct (_ || _); by injection E1 as _ <-.
Qed.

(** A node that can take commands of [k] arguments in all. *)
Definition node_serves (k : nat) (n : node) : Prop :=
  match n with
  | MasterNode e m =>
      engine_ok e ∧ engine_room e (Z.of_nat k) ∧
      from_option (λ m, master_ok (SlotCount e) m ∧ 0 <= ms_budget_ m) True m
  | ReplicaNode s _ => from_option slave_ok True s
  end.

Lemma node_serves_le k k' n : (k' <= k)%nat → node_serves k n → node_serves k' n.
Proof.
  destruct n as [e m|s]; [|done]. intros Hk (He & Hr & Hm). split; [done|]. split; [|done].
  eapply engine_room_le; [|exact Hr]. lia.
Qed.

Lemma engine_view_ok e : engine_ok e →
  view_ok (λ slot_id, quiet (default HashSlot_new (slots_ e !! slot_id))).
Proof.
  intros He slot_id k. unfold quiet. destruct (slots_ e !! slot_id) as [s|] eqn:Hs; [by apply He|].
  apply HashSlot_new_ok.
Qed.

Lemma slot_count_same e e' : engine_ok e → engine_ok e' → SlotCount e' = SlotCount e.
Proof.
  intros He He'. unfold SlotCount. by rewrite (ew_count _ (eo_wf _ He)), (ew_count _ (eo_wf _ He')).
Qed.

Lemma Execute_serves rnd now args e m k :
  is_u64 now → node_serves (length args + k) (MasterNode e m) →
  ∃ r e', Execute rnd args now e = Some (r, e') ∧ node_serves k (MasterNode e' m).
Proof.
  intros Hn (He & Hr & Hm). rewrite Nat2Z.inj_add in Hr.
  destruct (Execute_total rnd args now e He Hn) as (r & e' & E & He' & _ & Hr').
  { eapply engine_room_le; [|exact Hr]. lia. }
  exists r, e'. split; [done|]. split; [done|]. split; [apply Hr'; [lia|by rewrite Z.add_comm]|].
  by rewrite (slot_count_same e e').
Qed.

Lemma serving_node env : (∀ i, is_u64 (env i).1) → serving node_serves env.
Proof.
  intros Hn i k n args Hs _. specialize (Hn i). destruct n as [e [m|]|[s|] reads]; cbn [process_command].
  - destruct (IsCacheReplCommand args).
    + assert (node_serves k (MasterNode e (Some m))) as Hk by (eapply node_serves_le; [|exact Hs]; lia).
      destruct (DecodeFrame_args args) as [frame|]; [|by eexists _, _].
      destruct (negb _); [by eexists _, _|].
      destruct Hk as (He & Hr & Hm & Hb).
      match goal with |- context [Poll ?h ?v] =>
        destruct (Poll_ok h v (SlotCount e) m frame 4096 Hm (engine_view_ok e He))
          as (frames & m' & E & Hm' & _) end.
      rewrite E. cbn [mbind option_bind]. eexists _, _. split; [done|]. split; [done|]. split; [done|].
      split; [done|]. by rewrite (Poll_budget _ _ _ _ _ _ _ _ E).
    + destruct (Execute_serves (env i).2 (env i).1 args e (Some m) k Hn Hs) as (r & e' & -> & Hk).
      cbn [mbind option_bind]. by eexists _, _.
  - destruct (Execute_serves (env i).2 (env i).1 args e None k Hn Hs) as (r & e' & -> & Hk).
    cbn [mbind option_bind]. by eexists _, _.
  - destruct (ExecuteRead_local (env i).2 args (env i).1 reads s s Hs Hs Hn eq_refl)
      as (r & -> & _); [done|].
    cbn [mbind option_bind]. by eexists _, _.
  - by eexists _, _.
Qed.

(** The bytes that wait in the streams of the connections. *)
Definition backlog (clients : gmap nat client) : nat :=
  map_fold (λ _ c n, (String.length (RespCodec.stream_ (cl_codec c)) + n)%nat) 0%nat clients.

Lemma backlog_insert fd c clients :
  backlog (<[fd := c]> clients) =
  (String.length (RespCodec.stream_ (cl_codec c)) + backlog (delete fd clients))%nat.
Proof.
  unfold backlog. rewrite <-insert_delete_eq. rewrite map_fold_insert_L; [done| |by rewrite lookup_delete_eq].
  intros. lia.
Qed.

Lemma backlog_lookup fd c clients :
  clients !! fd = Some c →
  backlog clients = (String.length (RespCodec.stream_ (cl_codec c)) + backlog (delete fd clients))%nat.
Proof. intros H. rewrite <-backlog_insert. by rewrite insert_id. Qed.

(** What an event costs: a byte at most one argument, a sweep what it removes. *)
Definition turn_cost (t : turn) : nat :=
  match t with
  | Tick _ => kSlotsPerTick * ExpireSweeper.kMaxExpiredKeysPerSlot
  | _ => 0
  end.
Definition event_cost (ev : event) : nat :=
  match ev with
  | Connect _ _ => 0
  | Receive _ r => bytes_of r
  | Background t => turn_cost t
  end.
Definition events_cost (evs : list event) : nat := sum_list_with event_cost evs.

(** What a replica may be sent: the clock is read in 64 bits, and no snapshot
    brings an empty collection. [codec] is that of the open poll. *)
Definition turn_ok (t : turn) (codec : RespCodec.t) : Prop :=
  match t with PollRead _ now_us r => is_u64 now_us ∧ read_full r codec | _ => True end.
Definition turn_codec (t : turn) (codec : RespCodec.t) : RespCodec.t :=
  match t with
  | Tick _ => codec
  | PollStart _ _ => link_codec
  | PollRead _ _ r => codec_after r codec
  end.
Definition turns_of (evs : list event) : list turn :=
  omap (λ ev, match ev with Background t => Some t | _ => None end) evs.
Fixpoint turns_ok (ts : list turn) (codec : RespCodec.t) : Prop :=
  match ts with
  | [] => True
  | t :: rest => turn_ok t codec ∧ turns_ok rest (turn_codec t codec)
  end.

(** The background thread between two turns. *)
Definition background_idle (b : background) : Prop :=
  ExpireSweeper.slots_per_tick_ (bg_sweeper b) = kSlotsPerTick ∧
  (ExpireSweeper.next_slot_ (bg_sweeper b) < Z.to_nat kSlotCount)%nat ∧
  (bg_ticks b < kTicksPerMaintenance)%nat.

Record thread_ok (codec : RespCodec.t) (th : thread) : Prop := {
  to_background : background_idle (th_background th);
  to_link c started : th_link th = Some (c, started) → c = codec ∧ codec_ok codec;
}.

Record process_ok (k : nat) (codec : RespCodec.t) (p : process) : Prop := {
  po_node : node_serves (backlog (pr_clients p) + k) (pr_node p);
  po_env i : is_u64 (pr_env p i).1;
  po_thread : thread_ok codec (pr_thread p);
}.

Lemma idle_background_ok k b e m :
  node_serves k (MasterNode e (Some m)) → background_idle b → background_ok b m e.
Proof.
  intros (He & _ & Hm & Hb) (H1 & H2 & H3). split; try done. unfold SlotCount.
  by rewrite (ew_count _ (eo_wf _ He)).
Qed.

Lemma process_background_ok k codec p e m :
  process_ok k codec p → pr_node p = MasterNode e (Some m) →
  background_ok (th_background (pr_thread p)) m e.
Proof. intros [Hnode _ [Hbg _]] Hn. rewrite Hn in Hnode. by eapply idle_background_ok. Qed.

(** *** Turns of the background thread *)

Lemma take_turn_ok c t n th k codec :
  node_serves (turn_cost t + k) n → thread_ok codec th → turn_ok t codec →
  ∃ n' th', take_turn c t n th = Some (n', th') ∧ node_serves k n' ∧
    thread_ok (turn_codec t codec) th'.
Proof.
  intros Hs [Hbg Hl] Ht.
  assert (node_serves k n) as Hk by (eapply node_serves_le; [|exact Hs]; lia).
  destruct t as [now_us|connected writes|rnd now_us r]; cbn [take_turn turn_codec].
  - destruct n as [e [m|]|]; [|by eexists _, _; split; [done|]..].
    destruct (background_tick_run now_us now_us (th_background th) m e) as
      (b' & m' & e' & E & Hok & Hc & Hb & _ & _ & _ & Hr' & _);
      [by eapply idle_background_ok|lia| |].
    { destruct Hs as (_ & Hr & _). eapply engine_room_le; [|exact Hr]. unfold turn_cost, tick_writes. lia. }
    rewrite E. cbn [mbind option_bind]. eexists _, _. split; [done|].
    destruct Hok as [He' Hm' Hbud Hper Hnext Hticks]. split.
    + split; [done|]. split; [|done]. destruct Hs as (_ & Hr & _). apply Hr'; [lia|].
      eapply engine_room_le; [|exact Hr]. unfold turn_cost, tick_writes. lia.
    + split; [|exact Hl]. split; [done|]. split; [|done]. unfold SlotCount in Hnext.
      by rewrite (ew_count _ (eo_wf _ He')) in Hnext.
  - destruct n as [e m|[s|] reads]; try (by eexists _, _; split; [done|]; split; [done|]; split).
    destruct (send_hello _ _ _ _ _) as [ok sent]. eexists _, _. split; [done|]. split; [done|].
    split; [done|]. destruct ok; [|done]. cbn. intros c0 st [= <- <-]. split; [done|apply link_codec_ok].
  - destruct n as [e m|[s|] reads]; try (by eexists _, _; split; [done|]; split; [done|]; split).
    destruct (th_link th) as [[c0 started]|]; [|by eexists _, _; split; [done|]; split; [done|]; split].
    destruct (Hl c0 started eq_refl) as [-> Hcodec]. destruct Ht as [Hn Hfull].
    destruct (read_one_ends r rnd now_us (mkLink codec started s) Hn Hs Hcodec Hfull)
      as (res & l & -> & Hl' & Hopen).
    cbn [mbind option_bind]. eexists _, _. split; [done|]. split; [done|]. split; [done|].
    destruct res; [|done..]. cbn. intros c1 st [= <- <-]. destruct (Hopen eq_refl) as [-> ?]. done.
Qed.

(** *** Every event *)

Lemma receive_ok fd r k codec p :
  process_ok (bytes_of r + k) codec p →
  ∃ p', receive_on fd r p = Some p' ∧ process_ok k codec p'.
Proof.
  intros Hp. assert (process_ok k codec p) as Hsame.
  { destruct Hp. split; [|done..]. eapply node_serves_le; [|done]. lia. }
  unfold receive_on. destruct (pr_clients p !! fd) as [[[] cd s]|] eqn:Hc; [|by eexists..].
  destruct Hp as [Hnode Henv Hbg]. rewrite (backlog_lookup _ _ _ Hc) in Hnode. cbn [cl_codec] in Hnode.
  set (c0 := mkConnection cd "" s (pr_node p) (pr_env p)).
  destruct (ConnectionLoop_ends node_serves [r] c0 (backlog (delete fd (pr_clients p)) + k))
    as (open & c & E & Hc' & i & Hi); [intros; by eapply node_serves_le|by apply serving_node| |].
  { eapply node_serves_le; [|exact Hnode]. unfold read_bytes. cbn. lia. }
  rewrite E. cbn [mbind option_bind]. eexists. split; [done|].
  split; cbn [pr_node pr_clients pr_env pr_thread]; [|intros j; rewrite Hi, later_lookup; apply Henv|done].
  rewrite backlog_insert. cbn [cl_codec]. by rewrite <-Nat.add_assoc.
Qed.

Definition event_codec (ev : event) (codec : RespCodec.t) : RespCodec.t :=
  match ev with Background t => turn_codec t codec | _ => codec end.

Lemma handle_ok ev k codec p :
  process_ok (event_cost ev + k) codec p → turns_ok (turns_of [ev]) codec →
  ∃ p', handle ev p = Some p' ∧ process_ok k (event_codec ev codec) p'.
Proof.
  intros Hp Ht. destruct ev as [fd writes|fd r|t]; cbn [handle event_cost event_codec];
    [|by apply receive_ok|].
  - destruct Hp as [Hnode Henv Hbg]. eexists. split; [done|]. split; [|done..]. cbn [pr_node pr_clients].
    eapply node_serves_le; [|exact Hnode]. rewrite backlog_insert. cbn.
    destruct (pr_clients p !! fd) as [c|] eqn:Hc; [rewrite (backlog_lookup _ _ _ Hc); lia|].
    rewrite delete_id by done. lia.
  - destruct Hp as [Hnode Henv Hth]. destruct Ht as [Ht _]. cbn [event_cost] in Hnode.
    unfold background_turn.
    destruct (take_turn_ok (pr_config p) t (pr_node p) (pr_thread p)
      (backlog (pr_clients p) + k) codec) as (n' & th' & -> & Hn' & Hth'); [|done|done|].
    { eapply node_serves_le; [|exact Hnode]. lia. }
    cbn [mbind option_bind]. eexists. by split; [done|].
Qed.

Lemma turns_of_cons ev evs codec :
  turns_ok (turns_of (ev :: evs)) codec ↔
  turns_ok (turns_of [ev]) codec ∧ turns_ok (turns_of evs) (event_codec ev codec).
Proof. destruct ev; cbn; tauto. Qed.

(** Whatever happens, the process goes on. *)
Lemma run_events_ok evs k codec p :
  process_ok (events_cost evs + k) codec p → turns_ok (turns_of evs) codec →
  ∃ p' codec', run_events evs p = Some p' ∧ process_ok k codec' p'.
Proof.
  revert codec p. induction evs as [|ev evs IH]; intros codec p Hp Ht; [by exists p, codec|].
  apply turns_of_cons in Ht as [Hev Ht].
  unfold events_cost in *. cbn [sum_list_with run_events] in *.
  destruct (handle_ok ev (sum_list_with event_cost evs + k) codec p) as (p1 & E & Hp1);
    [by rewrite Nat.add_assoc|done|].
  rewrite E. cbn [mbind option_bind]. by eapply IH.
Qed.

(** A replica has the data its polls bring, whatever its clients do. *)
Lemma take_turn_replica c t s reads th n' th' :
  take_turn c t (ReplicaNode (Some s) reads) th = Some (n', th') →
  ∃ s', n' = ReplicaNode (Some s') reads.
Proof.
  destruct t as [now_us|connected writes|rnd now_us r]; cbn [take_turn].
  - intros [= <- <-]. by eexists.
  - destruct (send_hello _ _ _ _ _). intros [= <- <-]. by eexists.
  - destruct (th_link th) as [[codec started]|]; [|intros [= <- <-]; by eexists].
    destruct (read_one _ _ _ _) as [[res l]|]; [|done]. cbn [mbind option_bind].
    intros [= <- <-]. by eexists.
Qed.

Lemma run_events_replica evs k codec p p' s reads :
  process_ok (events_cost evs + k) codec p → turns_ok (turns_of evs) codec →
  pr_node p = ReplicaNode (Some s) reads → run_events evs p = Some p' →
  take_turns (pr_config p) (turns_of evs) (pr_node p) (pr_thread p) =
    Some (pr_node p', pr_thread p') ∧
  ∃ s', pr_node p' = ReplicaNode (Some s') reads.
Proof.
  revert codec p s. induction evs as [|ev evs IH]; intros codec p s Hp Ht Hn E.
  { injection E as <-. split; [done|by eexists]. }
  apply turns_of_cons in Ht as [Hev Ht].
  unfold events_cost in *. cbn [sum_list_with run_events] in *.
  destruct (handle_ok ev (sum_list_with event_cost evs + k) codec p) as (p1 & E1 & Hp1);
    [by rewrite Nat.add_assoc|done|].
  rewrite E1 in E. cbn [mbind option_bind] in E.
  destruct ev as [fd writes|fd r|t]; cbn [handle event_codec] in *.
  - injection E1 as <-. exact (IH codec _ s Hp1 Ht Hn E).
  - change (turns_of (Receive fd r :: evs)) with (turns_of evs).
    unfold receive_on in E1. destruct (pr_clients p !! fd) as [[[] cd so]|];
      [|injection E1 as <-; by eapply (IH codec)..].
    destruct Hp as [Hnode Henv _]. rewrite Hn in Hnode.
    destruct (ConnectionLoop_replica [r] (mkConnection cd "" so (pr_node p) (pr_env p)) s reads)
      as (open & c & Ec & Hc); [done..|].
    rewrite Ec in E1. cbn [mbind option_bind] in E1. injection E1 as <-. cbn [cn_node] in Hc.
    assert (cn_node c = pr_node p) as Hsame by congruence.
    destruct (IH codec _ s Hp1 Ht) as [H1 H2]; [cbn; congruence|done|].
    cbn [pr_config pr_node pr_thread] in H1. by rewrite Hsame in H1.
  - unfold background_turn in E1.
    destruct (take_turn _ _ _ _) as [[n' th']|] eqn:Et; [|done]. cbn [mbind option_bind] in E1.
    injection E1 as <-. pose proof Et as Et'. rewrite Hn in Et'.
    destruct (take_turn_replica _ _ _ _ _ _ _ Et') as [s1 ->].
    destruct (IH (turn_codec t codec) _ s1 Hp1 Ht eq_refl E) as [H1 H2].
    split; [|exact H2]. change (turns_of (Background t :: evs)) with (t :: turns_of evs).
    cbn [take_turns]. rewrite Et. exact H1.
Qed.

(** *** The polls of a replica *)

(** A poll, turn by turn. *)
Definition poll_turns (p : poll_calls) : list turn :=
  PollStart (pc_setup p) (pc_writes p) :: (PollRead (pc_rnd p) (pc_now p) <$> pc_reads p).

Lemma take_turns_app c l1 l2 n th :
  take_turns c (l1 ++ l2) n th =
  ('(n1, th1) ← take_turns c l1 n th; take_turns c l2 n1 th1).
Proof.
  revert n th. induction l1 as [|t l1 IH]; intros n th; cbn [app take_turns]; [done|].
  destruct (take_turn c t n th) as [[n' th']|]; [|done]. cbn [mbind option_bind]. apply IH.
Qed.

Lemma closed_reads c reads rnd now s on b :
  take_turns c (PollRead rnd now <$> reads) (ReplicaNode (Some s) on) (mkThread b None) =
  Some (ReplicaNode (Some s) on, mkThread b None).
Proof. by induction reads. Qed.

Lemma read_turns c reads rnd now codec started s on b :
  fst <$> take_turns c (PollRead rnd now <$> reads) (ReplicaNode (Some s) on)
            (mkThread b (Some (codec, started))) =
  (λ '(_, l), ReplicaNode (Some (lk_slave l)) on) <$> read_frames reads rnd now (mkLink codec started s).
Proof.
  revert codec started s. induction reads as [|r reads IH]; intros codec started s;
    cbn [read_frames fmap list_fmap take_turns]; [done|].
  cbn [take_turn th_link]. destruct (read_one r rnd now _) as [[res l1]|]; [|done].
  cbn [mbind option_bind th_background]. destruct res.
  - destruct l1 as [codec1 started1 s1]. apply IH.
  - by rewrite closed_reads.
  - by rewrite closed_reads.
Qed.

Lemma poll_turns_run c p s on th :
  fst <$> take_turns c (poll_turns p) (ReplicaNode (Some s) on) th =
  (λ '(_, _, s'), ReplicaNode (Some s') on) <$>
    PollReplicaOnce (connect_primary (pc_setup p)) (pc_writes p) (pc_reads p) (pc_rnd p) (pc_now p)
      (cf_master_port c) (cf_replica_id c) s.
Proof.
  unfold PollReplicaOnce, poll_turns. cbn [take_turns take_turn].
  destruct (send_hello _ _ _ _ _) as [[] sent]; cbn [negb mbind option_bind].
  - unfold new_link. rewrite read_turns. by destruct (read_frames _ _ _ _) as [[ok l]|].
  - by rewrite closed_reads.
Qed.

(** The loop of [main] is the turns of its polls, one poll after another. *)
Lemma replica_loop_turns c calls s on th :
  fst <$> take_turns c (concat (poll_turns <$> calls)) (ReplicaNode (Some s) on) th =
  (λ s', ReplicaNode (Some s') on) <$> replica_loop c calls s.
Proof.
  revert s th. induction calls as [|p calls IH]; intros s th; cbn [replica_loop fmap list_fmap concat]; [done|].
  rewrite take_turns_app. pose proof (poll_turns_run c p s on th) as H.
  destruct (take_turns c (poll_turns p) _ th) as [[n1 th1]|];
    destruct (PollReplicaOnce _ _ _ _ _ _ _ s) as [[[ok sent] s']|]; cbn in H; try done.
  injection H as ->. apply IH.
Qed.

Context {EL : EndpointLib}.

(** What [main] starts is well-formed. *)
Lemma process_start_ok k codec r1 r2 env c :
  Z.of_nat k <= UINT64_MAX → 0 <= cf_binlog_budget_bytes c → (∀ i, is_u64 (env i).1) →
  process_ok k codec (process_start r1 r2 env c).
Proof.
  intros Hk Hb Hn. split; [|done|].
  - unfold process_start. cbn [pr_node pr_clients]. change (backlog ∅ + k)%nat with k.
    unfold create_node. destruct (cf_role c); cbn [node_serves from_option].
    + split; [apply CacheEngine_new_ok|]. split; [by apply new_room|]. split; [|done]. apply Forall_nil_2.
    + apply new_replica_ok.
  - split; [|done]. split; [done|]. split; [|unfold kTicksPerMaintenance; cbn; lia].
    change (0 < Z.to_nat kSlotCount)%nat. unfold kSlotCount. lia.
Qed.
End process.
