(* ===== verification/Clients.v ===== *)
(** * What the clients of a process see

    Connections share one node. The theorem of this file says that serving
    them is serial: there is one sequence of jobs - commands and turns of the
    background thread, each event contributing the commands it completes -
    that explains the state of the process, and every client gets the replies
    to its own commands in that sequence, in its order, until its connection
    is closed. The polls of replicas are not among the clients here
    (Polling.v). *)

From stdpp Require Import functions.
From S2P Require Import Prelude Text Containers RedisObject Binlog HashSlot Engine Sweeper Response Command Dispatcher Resp ReplFrame SnapshotCodec Slave Master Background Socket Server Worker Link Startup Process.

Section clients.
Context {IC : ImmutableContainer} {RL : RespLib}.

(** ** One after another *)

Inductive job :=
  | Command (fd : nat) (args : list string)
  | Turn (t : turn).

(** The jobs of a sequence, and the replies to its commands. *)
Fixpoint run_jobs (c : ServerConfig) (jobs : list job) (n : node) (th : thread) (env : environment)
    : option (list (nat * Response) * (node * thread * environment)) :=
  match jobs with
  | [] => Some ([], (n, th, env))
  | Command fd args :: rest =>
      '(act, n1) ← process_command (env 0%nat).2 (env 0%nat).1 args n;
      match act with
      | Reply r => '(rs, st) ← run_jobs c rest n1 th (next env); Some ((fd, r) :: rs, st)
      | SendFrames _ => None
      end
  | Turn t :: rest => '(n', th') ← take_turn c t n th; run_jobs c rest n' th' env
  end.

Definition commands_of (fd : nat) (jobs : list job) : list (list string) :=
  omap (λ j, match j with Command f args => if decide (f = fd) then Some args else None
                        | Turn _ => None end) jobs.
Definition replies_to (fd : nat) (rs : list (nat * Response)) : list Response :=
  omap (λ x, if decide (x.1 = fd) then Some x.2 else None) rs.

(** The jobs of an event. *)
Definition jobs_of (ev : event) (jobs : list job) : Prop :=
  match ev with
  | Connect _ _ => jobs = []
  | Receive fd _ => ∃ cmds, jobs = Command fd <$> cmds
  | Background t => jobs = [Turn t]
  end.

(** ** What a client sends *)

(** The bytes of the reads of a connection, up to the one that closes it. *)
Fixpoint until_close (reads : list read_result) : string :=
  match reads with
  | ReadBytes bytes :: rest => bytes +:+ until_close rest
  | ReadAgain true :: rest => until_close rest
  | _ => ""
  end.

(** The reads of a connection still to come. *)
Fixpoint reads_on (fd : nat) (connected : bool) (evs : list event) : list read_result :=
  match evs with
  | [] => []
  | Connect f _ :: rest => reads_on fd (connected || bool_decide (f = fd)) rest
  | Receive f r :: rest =>
      (if connected && bool_decide (f = fd) then [r] else []) ++ reads_on fd connected rest
  | Background _ :: rest => reads_on fd connected rest
  end.

Definition connects (evs : list event) : list nat :=
  omap (λ ev, match ev with Connect fd _ => Some fd | _ => None end) evs.

(** ** Theorems *)

Context {CL : ContainerLaws IC} {RW : RespLaws RL}.

Lemma run_jobs_app c l1 l2 n th env rs1 n1 th1 env1 rs2 st :
  run_jobs c l1 n th env = Some (rs1, (n1, th1, env1)) → run_jobs c l2 n1 th1 env1 = Some (rs2, st) →
  run_jobs c (l1 ++ l2) n th env = Some (rs1 ++ rs2, st).
Proof.
  revert n th env rs1. induction l1 as [|j l1 IH]; intros n th env rs1; cbn [app run_jobs].
  { by intros [= <- <- <- <-]. }
  destruct j as [fd args|t].
  - destruct (process_command _ _ _ _) as [[act n0]|]; [|done]. cbn [mbind option_bind].
    destruct act as [r|]; [|done]. destruct (run_jobs c l1 _ _ _) as [[rs0 [[n0' th0] env0]]|] eqn:E; [|done].
    cbn [mbind option_bind]. intros [= <- <- <- <-] H2. by rewrite (IH _ _ _ _ E H2).
  - destruct (take_turn _ _ _ _) as [[n' th']|]; [|done]. cbn [mbind option_bind]. by apply IH.
Qed.

Lemma run_jobs_commands c fd cmds n th env rs n1 :
  run_commands env cmds n = Some (rs, n1) →
  run_jobs c (Command fd <$> cmds) n th env = Some (pair fd <$> rs, (n1, th, later (length cmds) env)).
Proof.
  revert n env rs. induction cmds as [|args cmds IH]; intros n env rs; cbn [run_commands fmap list_fmap run_jobs].
  { by intros [= <- <-]. }
  destruct (process_command _ _ _ _) as [[act n0]|]; [|done]. cbn [mbind option_bind].
  destruct act as [r|]; [|done]. destruct (run_commands _ cmds n0) as [[rs0 n0']|] eqn:E; [|done].
  cbn [mbind option_bind]. intros [= <- <-]. by rewrite (IH _ _ _ E).
Qed.

(** Commands of clients are answered. *)
Definition total_args (cmds : list (list string)) : nat := sum_list_with length cmds.

Lemma run_commands_total env cmds k n :
  (∀ i, is_u64 (env i).1) → Forall (λ args, args ≠ [] ∧ IsCacheReplCommand args = false) cmds →
  node_serves (total_args cmds + k) n →
  ∃ rs n', run_commands env cmds n = Some (rs, n') ∧ node_serves k n'.
Proof.
  revert env n. induction cmds as [|args cmds IH]; intros env n Hn Hf Hs; [by exists [], n|].
  apply Forall_cons in Hf as [[Hne Hrepl] Hf]. unfold total_args in *. cbn [sum_list_with] in Hs.
  rewrite <-Nat.add_assoc in Hs.
  destruct (serving_node env Hn 0%nat (sum_list_with length cmds + k)%nat n args Hs Hne) as (act & n1 & E & Hn1).
  cbn [run_commands]. rewrite E. cbn [mbind option_bind].
  destruct (IH (next env) n1) as (rs & n2 & E2 & Hn2); [intros i; apply Hn|done|done|].
  assert (∃ r, act = Reply r) as [r ->].
  { unfold process_command in E. rewrite Hrepl in E. destruct n as [e [m|]|[s|] reads].
    - destruct (Execute _ _ _ _) as [[r e']|]; cbn in E; [|done]. injection E as <- _. by eexists.
    - destruct (Execute _ _ _ _) as [[r e']|]; cbn in E; [|done]. injection E as <- _. by eexists.
    - destruct (ExecuteRead _ _ _ _ _) as [[r s']|]; cbn in E; [|done]. injection E as <- _. by eexists.
    - injection E as <- _. by eexists. }
  rewrite E2. by exists (r :: rs), n2.
Qed.

Lemma packed_args cmds : (total_args cmds <= String.length (packed cmds))%nat.
Proof.
  unfold total_args. induction cmds as [|args cmds IH]; [done|]. cbn [sum_list_with packed foldr].
  fold (packed cmds). rewrite length_app_string. pose proof (pack_bulks_size args) as H.
  rewrite pack_command_unfold, length_app_string. unfold size_of in H. lia.
Qed.

Lemma commands_of_app fd l1 l2 : commands_of fd (l1 ++ l2) = commands_of fd l1 ++ commands_of fd l2.
Proof. apply omap_app. Qed.
Lemma replies_to_app fd l1 l2 : replies_to fd (l1 ++ l2) = replies_to fd l1 ++ replies_to fd l2.
Proof. apply omap_app. Qed.

Lemma commands_of_same fd cmds : commands_of fd (Command fd <$> cmds) = cmds.
Proof.
  unfold commands_of. induction cmds as [|args cmds IH]; [done|]. cbn.
  by rewrite decide_True, IH.
Qed.
Lemma commands_of_other fd f cmds : f ≠ fd → commands_of fd (Command f <$> cmds) = [].
Proof.
  intros Hf. unfold commands_of. induction cmds as [|args cmds IH]; [done|]. cbn.
  by rewrite decide_False, IH.
Qed.
Lemma replies_to_same fd rs : replies_to fd (pair fd <$> rs) = rs.
Proof.
  unfold replies_to. induction rs as [|r rs IH]; [done|]. cbn. by rewrite decide_True, IH.
Qed.
Lemma replies_to_other fd f rs : f ≠ fd → replies_to fd (pair f <$> rs) = [].
Proof.
  intros Hf. unfold replies_to. induction rs as [|r rs IH]; [done|]. cbn. by rewrite decide_False, IH.
Qed.

(** *** One read *)

(** What a client will send: whole commands for clients, then part of one. *)
Record script (n : node) (cmds : list (list string)) (tail : string) : Prop := {
  sc_size : size_of (packed cmds +:+ tail) <= 64 * 1024 * 1024;
  sc_admissible : Forall (admissible (RespCodec.limits_ (new_codec n)) n) cmds;
  sc_local : Forall (λ args, IsCacheReplCommand args = false) cmds;
  sc_tail : arriving (RespCodec.limits_ (new_codec n)) n tail;
}.

(** Where a connection stands in it: [stream] is what waits. *)
Definition stands (n : node) (codec : RespCodec.t) (future : list read_result)
    (cmds : list (list string)) (tail : string) : Prop :=
  ∃ stream, codec = RespCodec.with_stream (new_codec n) stream ∧
    stream +:+ until_close future = packed cmds +:+ tail ∧ within stream cmds.

Lemma within_all stream cmds tail :
  stream = packed cmds +:+ tail → within stream cmds → cmds = [].
Proof.
  intros -> Hw. destruct cmds as [|args cmds]; [done|]. exfalso. destruct Hw as (q & Hq & Hne).
  cbn [packed foldr] in Hq. apply (f_equal String.length) in Hq. rewrite !length_app_string in Hq.
  destruct q; [done|]. cbn in Hq. lia.
Qed.

Lemma script_rest n cmds rest tail : script n (cmds ++ rest) tail → script n rest tail.
Proof.
  intros [H1 H2%Forall_app H3%Forall_app H4]. split; [|apply H2|apply H3|done].
  rewrite packed_app in H1. unfold size_of in *. rewrite !length_app_string in *. lia.
Qed.

Lemma admissible_ok n cmds :
  Forall (admissible (RespCodec.limits_ (new_codec n)) n) cmds →
  Forall (λ args, IsCacheReplCommand args = false) cmds →
  Forall (λ args, args ≠ [] ∧ IsCacheReplCommand args = false) cmds.
Proof. intros H1 H2. apply Forall_and. split; [|done]. eapply Forall_impl; [exact H1|]. by intros a []. Qed.

Lemma receive_step fd r codec s p n0 cmds tail future k lc :
  process_ok (bytes_of r + k) lc p → pr_clients p !! fd = Some (mkClient true codec s) →
  accept_command (pr_node p) = accept_command n0 →
  script n0 cmds tail → stands n0 codec (r :: future) cmds tail →
  ∃ open codec' s' executed rest rs unsent n',
    receive_on fd r p =
      Some (mkProcess (pr_config p) n' (pr_thread p) (later (length executed) (pr_env p))
              (<[fd := mkClient open codec' s']> (pr_clients p))) ∧
    cmds = executed ++ rest ∧ run_commands (pr_env p) executed (pr_node p) = Some (rs, n') ∧
    so_sent s +:+ replies rs = so_sent s' +:+ unsent ∧
    (open = true → unsent = "" ∧ stands n0 codec' future rest tail).
Proof.
  intros [Hnode Henv _] Hc Hacc [Hsize Hadm Hloc Htail] (stream & -> & Hs & Hw).
  unfold receive_on. rewrite Hc.
  destruct r as [bytes|[]| |]; cbn [until_close] in Hs;
    try (eexists false, _, s, [], cmds, [], "", (pr_node p); split; [reflexivity|];
         split; [done|]; split; [done|]; split; [done|done]).
  2:{ eexists true, _, s, [], cmds, [], "", (pr_node p). split; [reflexivity|].
      do 3 (split; [done|]). intros _. split; [done|]. by exists stream. }
  rewrite <-string_app_assoc in Hs.
  destruct (packed_cut cmds tail _ _ Hs) as (executed & rest & t & -> & Hst & Hrest & Hm).
  apply Forall_app in Hadm as [Hadm1 Hadm2]. apply Forall_app in Hloc as [Hloc1 _].
  set (c0 := mkConnection (RespCodec.with_stream (new_codec n0) stream) "" s (pr_node p) (pr_env p)).
  destruct (run_commands_total (pr_env p) executed k (pr_node p) Henv) as (rs & n1 & Hrun & _).
  { by eapply admissible_ok. }
  { eapply node_serves_le; [|exact Hnode]. rewrite (backlog_lookup _ _ _ Hc). cbn [cl_codec bytes_of].
    pose proof (packed_args executed). apply (f_equal String.length) in Hst.
    rewrite !length_app_string in Hst. cbn [RespCodec.with_stream RespCodec.stream_]. lia. }
  destruct (ConnectionLoop_pipelined [ReadBytes bytes] c0 executed t bytes rs n1)
    as (open & c & ex & re & rs1 & unsent & E & -> & Hr & He & Hsent & Hopen);
    [done|cbn; by rewrite string_app_nil_r|done| | | |done| |].
  - cbn [cn_codec c0]. change (RespCodec.max_stream_bytes_ _) with (64 * 1024 * 1024).
    rewrite <-Hst. apply (f_equal size_of) in Hs. unfold size_of in *. rewrite !length_app_string in *. lia.
  - eapply Forall_impl; [exact Hadm1|]. intros a. by apply admissible_same.
  - apply (arriving_same _ n0); [done|]. by eapply within_arriving.
  - destruct executed as [|args executed]; [done|exact Hw].
  - rewrite E. cbn [mbind option_bind]. rewrite He.
    exists open, (cn_codec c), (cn_socket c), ex, (re ++ rest), rs1, unsent, (cn_node c).
    split; [done|]. split; [by rewrite app_assoc|]. split; [done|]. split; [done|].
    intros Ho. destruct (Hopen Ho) as (-> & -> & ->). split; [done|]. by exists t.
Qed.

(** *** Any schedule *)

(** The connections of a process whose clients have these commands left. *)
Record scheduled (n0 : node) (cmds : nat → list (list string)) (tail : nat → string)
    (evs : list event) (p : process) : Prop := {
  sd_accept : accept_command (pr_node p) = accept_command n0;
  sd_codec : new_codec (pr_node p) = new_codec n0;
  sd_connects : NoDup (connects evs);
  sd_known fd c : pr_clients p !! fd = Some c → fd ∉ connects evs;
  sd_open fd c : pr_clients p !! fd = Some c → cl_open c = true →
    script n0 (cmds fd) (tail fd) ∧ stands n0 (cl_codec c) (reads_on fd true evs) (cmds fd) (tail fd);
  sd_new fd : fd ∈ connects evs →
    script n0 (cmds fd) (tail fd) ∧ until_close (reads_on fd false evs) = packed (cmds fd) +:+ tail fd;
}.

(** What a client has seen of its commands, from [p] to the end, where its
    connection is [c']. *)
Definition served (cmds : nat → list (list string)) (tail : nat → string)
    (p : process) (jobs : list job) (rs : list (nat * Response)) (fd : nat) (c' : client) : Prop :=
  match pr_clients p !! fd with
  | Some (mkClient false codec s) =>
      c' = mkClient false codec s ∧ commands_of fd jobs = [] ∧ replies_to fd rs = []
  | o =>
      ∃ rest unsent, cmds fd = commands_of fd jobs ++ rest ∧
        from_option (λ c, so_sent (cl_socket c)) "" o +:+ replies (replies_to fd rs) =
          so_sent (cl_socket c') +:+ unsent ∧
        (cl_open c' = true → rest = [] ∧ unsent = "" ∧ RespCodec.stream_ (cl_codec c') = tail fd)
  end.

(** One event as jobs, and what is left to do. *)
Definition explained (n0 : node) (cmds : nat → list (list string)) (tail : nat → string)
    (ev : event) (evs : list event) (p p1 : process) : Prop :=
  ∃ cmds' jobs rs, jobs_of ev jobs ∧
    run_jobs (pr_config p) jobs (pr_node p) (pr_thread p) (pr_env p) =
      Some (rs, (pr_node p1, pr_thread p1, pr_env p1)) ∧ pr_config p1 = pr_config p ∧
    scheduled n0 cmds' tail evs p1 ∧
    ∀ fd c' jobs' rs', served cmds' tail p1 jobs' rs' fd c' →
      served cmds tail p (jobs ++ jobs') (rs ++ rs') fd c'.

Lemma accept_codec n n' : accept_command n' = accept_command n → new_codec n' = new_codec n.
Proof.
  intros H. assert (∀ n, repl_listener n = accept_command n "CACHE.REPL" 2000) as Hl by (by intros [? []|]).
  unfold new_codec. by rewrite !Hl, H.
Qed.

(** Nothing has happened to the connections. *)
Lemma explained_same n0 cmds tail ev evs p p1 jobs :
  scheduled n0 cmds tail (ev :: evs) p →
  (∀ fd connected, reads_on fd connected (ev :: evs) = reads_on fd connected evs) →
  connects (ev :: evs) = connects evs → pr_clients p1 = pr_clients p →
  jobs_of ev jobs → (∀ fd, commands_of fd jobs = []) →
  run_jobs (pr_config p) jobs (pr_node p) (pr_thread p) (pr_env p) =
    Some ([], (pr_node p1, pr_thread p1, pr_env p1)) → pr_config p1 = pr_config p →
  accept_command (pr_node p1) = accept_command (pr_node p) →
  explained n0 cmds tail ev evs p p1.
Proof.
  intros [H1 H2 H3 H4 H5 H6] Hr Hco Hcl Hj Hcmd E Hcf Hacc. exists cmds, jobs, [].
  do 3 (split; [done|]). split.
  - split; [congruence| |by rewrite <-Hco|..].
    + by rewrite (accept_codec (pr_node p)).
    + intros fd c Hc. rewrite <-Hco. apply (H4 fd c). by rewrite <-Hcl.
    + intros fd c Hc. rewrite <-Hr. apply H5. by rewrite <-Hcl.
    + intros fd. rewrite <-Hco, <-Hr. apply H6.
  - intros fd c' jobs' rs'. unfold served. rewrite Hcl, commands_of_app, Hcmd. done.
Qed.

(** A turn changes no connection, nor what commands are accepted. *)
Lemma take_turn_accept c t n th n' th' :
  take_turn c t n th = Some (n', th') → accept_command n' = accept_command n.
Proof.
  destruct t as [now_us|connected writes|rnd now_us r]; destruct n as [e [m|]|[s|] reads];
    cbn [take_turn]; try (by intros [= <- _]).
  - destruct (background_tick _ _ _ _) as [[[b m'] e']|]; [|done]. cbn [mbind option_bind]. by intros [= <- _].
  - destruct (send_hello _ _ _ _ _). by intros [= <- _].
  - destruct (th_link th) as [[codec started]|]; [|by intros [= <- _]].
    destruct (read_one _ _ _ _) as [[res l]|]; [|done]. cbn [mbind option_bind]. by intros [= <- _].
Qed.

Lemma turn_explained n0 cmds tail t evs p p1 :
  scheduled n0 cmds tail (Background t :: evs) p → background_turn t p = Some p1 →
  explained n0 cmds tail (Background t) evs p p1.
Proof.
  intros Hsd E. unfold background_turn in E. destruct (take_turn _ _ _ _) as [[n' th']|] eqn:Et; [|done].
  cbn [mbind option_bind] in E. injection E as <-.
  apply (explained_same _ _ _ _ _ _ _ [Turn t]); try done.
  - cbn [run_jobs]. by rewrite Et.
  - by apply take_turn_accept in Et.
Qed.

Lemma connect_explained n0 cmds tail fd writes evs p p1 :
  scheduled n0 cmds tail (Connect fd writes :: evs) p → handle (Connect fd writes) p = Some p1 →
  explained n0 cmds tail (Connect fd writes) evs p p1.
Proof.
  intros [H1 H2 H3 H4 H5 H6] [= <-]. exists cmds, [], []. do 3 (split; [done|]).
  apply NoDup_cons in H3 as [Hnew H3].
  assert (pr_clients p !! fd = None) as Hnone.
  { apply eq_None_not_Some. intros [c Hc]. apply (H4 fd c Hc). apply elem_of_cons. by left. }
  destruct (H6 fd) as [Hscript Hreads]; [apply elem_of_cons; by left|].
  cbn [reads_on] in Hreads. rewrite bool_decide_eq_true_2 in Hreads by done. cbn [orb] in Hreads.
  split.
  - split; cbn [pr_node pr_clients]; try done.
    + intros f c. destruct (decide (f = fd)) as [->|Hne]; [done|]. rewrite lookup_insert_ne by done.
      intros Hc Hin. apply (H4 f c Hc), elem_of_cons. by right.
    + intros f c. destruct (decide (f = fd)) as [->|Hne].
      * rewrite lookup_insert_eq. intros [= <-] _. split; [done|]. exists "". cbn [cl_codec].
        rewrite H2. split; [done|]. split; [by rewrite string_app_nil_l|].
        destruct (cmds fd) as [|args l]; [done|]. exists (pack_command args). rewrite string_app_nil_l.
        split; [done|]. intros E. pose proof (pack_command_nonempty args) as Hp. rewrite E in Hp. cbn in Hp. lia.
      * rewrite lookup_insert_ne by done. apply H5.
    + intros f Hf. assert (f ≠ fd) as Hne by (by intros ->).
      destruct (H6 f) as [Hs Hr]; [apply elem_of_cons; by right|]. split; [done|].
      cbn [reads_on] in Hr. by rewrite bool_decide_eq_false_2 in Hr.
  - intros f c' jobs' rs'. unfold served. cbn [pr_clients].
    destruct (decide (f = fd)) as [->|Hne]; [|by rewrite lookup_insert_ne].
    rewrite lookup_insert_eq, Hnone. done.
Qed.

Lemma reads_on_other f fd connected r evs :
  f ≠ fd → reads_on f connected (Receive fd r :: evs) = reads_on f connected evs.
Proof. intros Hf. cbn [reads_on]. by rewrite bool_decide_eq_false_2, andb_false_r. Qed.

Lemma receive_explained n0 cmds tail fd r evs p p1 k lc :
  process_ok (bytes_of r + k) lc p → scheduled n0 cmds tail (Receive fd r :: evs) p →
  receive_on fd r p = Some p1 → explained n0 cmds tail (Receive fd r) evs p p1.
Proof.
  intros Hp [H1 H2 H3 H4 H5 H6] E.
  assert (∀ f, reads_on f false (Receive fd r :: evs) = reads_on f false evs) as Hfalse by done.
  destruct (pr_clients p !! fd) as [[[] codec s]|] eqn:Hc.
  2,3: unfold receive_on in E; rewrite Hc in E; injection E as <-; exists cmds, [], [];
    (split; [by exists []|]); do 2 (split; [done|]); split; [|done]; split; try done;
    intros f c Hf Ho; destruct (decide (f = fd)) as [->|Hne];
    [by simplify_eq|rewrite <-(reads_on_other f fd true r evs Hne); by apply H5].
  - destruct (H5 fd _ Hc eq_refl) as [Hscript Hst]. cbn [reads_on cl_codec] in Hst.
    rewrite bool_decide_eq_true_2 in Hst by done. cbn [andb app] in Hst.
    destruct (receive_step fd r codec s p n0 (cmds fd) (tail fd) _ k lc Hp Hc H1 Hscript Hst)
      as (open & codec' & s' & executed & rest & rs & unsent & n' & E1 & Hcm & Hrun & Hsent & Hopen).
    rewrite E in E1. injection E1 as ->. pose proof (run_commands_accept _ _ _ _ _ Hrun) as Hacc.
    exists (<[fd := rest]> cmds), (Command fd <$> executed), (pair fd <$> rs).
    split; [by eexists|]. split; [by apply run_jobs_commands|]. split; [done|]. split.
    + split; cbn [pr_node pr_clients]; [congruence| |done|..].
      * by rewrite (accept_codec (pr_node p)).
      * intros f c. destruct (decide (f = fd)) as [->|Hne]; [intros _; by apply (H4 fd _ Hc)|].
        rewrite lookup_insert_ne by done. apply H4.
      * intros f c. destruct (decide (f = fd)) as [->|Hne].
        -- rewrite lookup_insert_eq, fn_lookup_insert. intros [= <-] Ho. cbn [cl_open] in Ho.
           split; [|by apply Hopen]. rewrite Hcm in Hscript. by eapply script_rest.
        -- rewrite lookup_insert_ne, fn_lookup_insert_ne by done. intros Hf Ho.
           rewrite <-(reads_on_other f fd true r evs Hne). by apply H5.
      * intros f Hf. assert (f ≠ fd) as Hne by (intros ->; by apply (H4 fd _ Hc)).
        rewrite fn_lookup_insert_ne by done. by apply H6.
    + intros f c' jobs' rs'. unfold served. cbn [pr_clients]. rewrite commands_of_app, replies_to_app.
      destruct (decide (f = fd)) as [->|Hne].
      * rewrite lookup_insert_eq, fn_lookup_insert, Hc, commands_of_same, replies_to_same, replies_app.
        cbn [from_option cl_socket]. rewrite <-string_app_assoc, Hsent. destruct open.
        -- destruct (Hopen eq_refl) as [-> _]. rewrite string_app_nil_r.
           intros (rest' & unsent' & -> & Hs' & Ho). exists rest', unsent'. by rewrite Hcm, app_assoc.
        -- intros (-> & -> & ->). exists rest, unsent. rewrite app_nil_r, string_app_nil_r. done.
      * rewrite lookup_insert_ne, fn_lookup_insert_ne, commands_of_other, replies_to_other by done. done.
Qed.

Lemma run_events_serial n0 cmds tail evs p k lc :
  process_ok (events_cost evs + k) lc p → turns_ok (turns_of evs) lc → scheduled n0 cmds tail evs p →
  ∃ p' js rs, run_events evs p = Some p' ∧ Forall2 jobs_of evs js ∧
    run_jobs (pr_config p) (concat js) (pr_node p) (pr_thread p) (pr_env p) =
      Some (rs, (pr_node p', pr_thread p', pr_env p')) ∧
    ∀ fd c', pr_clients p' !! fd = Some c' → served cmds tail p (concat js) rs fd c'.
Proof.
  revert cmds p lc. induction evs as [|ev evs IH]; intros cmds p lc Hp Ht Hsd.
  { exists p, [], []. split; [done|]. split; [constructor|]. split; [done|].
    intros fd c' Hc. unfold served. rewrite Hc. destruct c' as [[] codec s]; [|done].
    destruct (sd_open _ _ _ _ _ Hsd fd _ Hc eq_refl) as [Hscript (st & E & Hst & Hw)].
    cbn [reads_on until_close] in Hst. rewrite string_app_nil_r in Hst. cbn [cl_codec] in E.
    pose proof (within_all _ _ _ Hst Hw) as Hnil. rewrite Hnil in Hst. exists [], "".
    cbn [concat commands_of omap list_omap app]. split; [done|]. split; [done|].
    intros _. split; [done|]. split; [done|]. by rewrite E. }
  unfold events_cost in *. cbn [sum_list_with run_events] in *. rewrite <-Nat.add_assoc in Hp.
  apply turns_of_cons in Ht as [Hev Ht].
  destruct (handle_ok ev (sum_list_with event_cost evs + k) lc p Hp Hev) as (p1 & E1 & Hp1).
  assert (explained n0 cmds tail ev evs p p1) as (cmds' & jobs & rs1 & Hj & Hrun & Hcf & Hsd1 & Hserved).
  { destruct ev as [fd writes|fd r|t]; cbn [handle event_cost] in *;
      [by apply connect_explained with (writes := writes)|by eapply receive_explained|by apply turn_explained]. }
  destruct (IH cmds' p1 _ Hp1 Ht Hsd1) as (p' & js & rs & E & Hjs & Hrun' & Hall).
  rewrite E1. cbn [mbind option_bind]. exists p', (jobs :: js), (rs1 ++ rs). split; [done|].
  split; [by constructor|]. split; [rewrite Hcf in Hrun'; by eapply run_jobs_app|].
  intros fd c' Hc. by apply Hserved, Hall.
Qed.
End clients.
