(* ===== verification/Round.v ===== *)
(** * A round of replication

    One round is a poll of a replica ([BuildHelloFrame], [Poll]) and the
    frames of the answer, enqueued one after another. The primary goes on
    serving commands while the batch is built: every read of a slot finds a
    later state of the slot's run.

    [behind] relates a slot of the replica to the run of the primary's slot,
    [agreed] relates it to what the primary remembers of the replica. A round
    restores both, for every slot, whatever the two sides were before when the
    session is a new one. *)

From S2P Require Import Prelude Text Containers Double RedisObject Binlog HashSlot Engine Response Command Dispatcher Replay Resp ReplFrame SnapshotCodec Slave Convergence Master Shipping.

Section round.
Context {IC : ImmutableContainer} {RL : RespLib} {CL : ContainerLaws IC} {RW : RespLaws RL}.
Context {HI : History}.

(** ** The primary's slots go on *)

(** What writers may do to slot [i] between two reads. *)
Definition moves (i : nat) (p p' : HashSlot) : Prop :=
  ∃ evs, primary_run i p evs p' ∧ slot_seq_ p + Z.of_nat (length evs) <= INT64_MAX.

Lemma moves_refl i p : genuine i p → slot_seq_ p <= INT64_MAX → moves i p p.
Proof. intros Hg Hp. exists []. split; [by apply run_nil|]. cbn. lia. Qed.

Lemma moves_end i p p' : moves i p p' → genuine i p'.
Proof. intros (evs & Hr & _). by eapply run_end. Qed.

Lemma tracks_moves i sl p p' : tracks i sl p → moves i p p' → tracks i sl p'.
Proof. intros Ht (evs & Hr & Hroom). by eapply tracks_later. Qed.

Lemma agreed_moves i sl p p' st : agreed i sl p st → moves i p p' → agreed i sl p' st.
Proof.
  intros [H|(p0 & evs0 & H & Hs)] (evs & Hr & Hroom); [by left|right].
  exists p0, (evs0 ++ evs). split; [|done]. by eapply behind_later.
Qed.

Lemma in_sync_behind i sl p : genuine i p → sendable i p → in_sync i sl p → behind i sl p [] p.
Proof. intros Hg [] Hs. split; try done; [by apply run_nil|cbn; lia]. Qed.

(** What slot [i] of the replica lacks of [p]: records, or everything. *)
Definition lag (i : nat) (sl : SlaveReplicator) (p : HashSlot) : nat :=
  match sl_slots_ sl !! i with
  | Some state =>
      if sa_need_snapshot state then S (Z.to_nat (slot_seq_ p))
      else Z.to_nat (slot_seq_ p - sa_applied_seq state)
  | None => 0
  end.

Lemma lag_behind i sl p0 evs p : behind i sl p0 evs p → lag i sl p = length evs.
Proof.
  intros H. pose proof (behind_seq _ _ _ _ _ H) as E.
  destruct (behind_point _ _ _ _ _ H) as (state & slot & Hst & _ & Hneed & Happ).
  unfold lag. rewrite Hst, Hneed, Happ, E. lia.
Qed.

Lemma lag_same i sl sl' p : sl_slots_ sl' !! i = sl_slots_ sl !! i → lag i sl' p = lag i sl p.
Proof. intros E. unfold lag. by rewrite E. Qed.

(** ** Frames of one slot *)

(** A replica in the session [session]. *)
Record serving (session : string) (sl : SlaveReplicator) : Prop := {
  sv_ok : slave_ok sl;
  sv_session : sl_session_id_ sl = session;
  sv_named : session ≠ "";
}.

Lemma serving_after session i sl sl' :
  serving session sl → slave_ok sl' → only_slot i sl sl' → serving session sl'.
Proof. intros [H1 H2 H3] Hok Ho. split; [done|by rewrite (os_session _ _ _ Ho)|done]. Qed.

(** The link breaks after any number of frames of slot [i]. *)
Definition broken (session : string) (rnd : nat → nat) (now : Z) (i : nat)
    (sl : SlaveReplicator) (q : HashSlot) (frames : list Frame) : Prop :=
  ∀ n, ∃ sln, enqueue_all rnd now (take n frames) sl = Some sln ∧ serving session sln ∧
    only_slot i sl sln ∧ tracks i sln q.

Lemma broken_nil session rnd now i sl q :
  serving session sl → tracks i sl q → broken session rnd now i sl q [].
Proof. intros H1 H2 n. exists sl. rewrite take_nil. by split_and!; [..|apply only_slot_refl|]. Qed.

(** What a slot contributes to a batch is accepted, touches this slot only,
    and leaves both sides with the same idea of it. *)
Lemma serve_slot_agreed session rnd now i sl p v max_frames st b st' target b' :
  serving session sl → is_u64 now → (i < length (sl_slots_ sl))%nat →
  tracks i sl p → agreed i sl p st → moves i p (v 4%nat) → sendable i (v 4%nat) →
  build_ok max_frames b → (length (bd_frames b) < max_frames)%nat →
  serve_slot v session max_frames i st b = Some (st', target, b') →
  ∃ frames sl', bd_frames b' = bd_frames b ++ frames ∧
    enqueue_all rnd now frames sl = Some sl' ∧ serving session sl' ∧
    only_slot i sl sl' ∧ tracks i sl' (v 4%nat) ∧ agreed i sl' (v 4%nat) st' ∧
    broken session rnd now i sl (v 4%nat) frames ∧
    ((lag i sl' (v 4%nat) + length frames <= lag i sl (v 4%nat))%nat ∨
     lag i sl' (v 4%nat) = 0%nat ∧ length frames = 1%nat ∧
     rs_need_snapshot st || negb (HasBacklog v (rs_sent_seq st +u 1)) = true).
Proof.
  intros Hsv Hn Hi Ht Ha Hm Hsend Hb Hlt E. pose proof Hsv as [Hok Hses Hne].
  apply (tracks_moves _ _ _ _ Ht) in Hm as Ht'. apply (agreed_moves _ _ _ _ _ Ha) in Hm as Ha'.
  pose proof Hsend as [Hp Hl Hseq Hfa Hel].
  destruct (serve_slot_spec _ _ _ _ _ _ _ _ _ Hb Hlt E) as (_ & _ & [[Hfr ->]|[H|H]]).
  - exists [], sl. rewrite app_nil_r. do 3 (split; [done|]). split; [apply only_slot_refl|].
    do 2 (split; [done|]). split; [by apply broken_nil|]. left. cbn. lia.
  - destruct H as (payload & Hwhy & He & Hfr & Hsq & _ & _).
    destruct (ApplySnapshot_sync i sl _ Hok Hp Hi Hfa Hel)
      as (payload' & sl' & He' & Hap & Hok' & Hs' & Ho').
    rewrite He in He'. injection He' as <-.
    pose proof (in_sync_behind _ _ _ (moves_end _ _ _ Hm) Hsend Hs') as Hbh.
    assert (serving session sl') as Hsv' by (by eapply serving_after).
    assert (tracks i sl' (v 4%nat)) as Htr by (right; by eexists _, _).
    assert (enqueue_all rnd now [Frame_Snapshot session (Z.of_nat i) (published_seq_ (v 4%nat)) payload]
      sl = Some sl') as Hen.
    { cbn [enqueue_all]. rewrite <-Hses. rewrite EnqueueFrame_Snapshot by congruence.
      cbn [Snapshot snap_published_seq] in Hap. by rewrite Hap. }
    eexists _, sl'. split; [exact Hfr|]. do 4 (split; [done|]). split; [|split].
    + right. exists (v 4%nat), []. split; [done|]. by rewrite Hsq, (so_published _ _ Hp).
    + intros [|n]; [exists sl; by split_and!; [..|apply only_slot_refl|]|].
      exists sl'. by rewrite firstn_all2 by (cbn; lia).
    + right. by rewrite (lag_behind _ _ _ _ _ Hbh).
  - destruct H as (Hneed & _ & _ & k & rest & Hnew & Hfr & Hf & _ & Hsq).
    destruct Ha' as [Ha'|(p0 & evs & Hbh & Hsent)]; [congruence|]. rewrite Hsent in *.
    assert (∀ k1 k2, k = k1 ++ k2 → ∃ sl' p' evs',
      enqueue_all rnd now (log_frames session i k1) sl = Some sl' ∧ serving session sl' ∧
      only_slot i sl sl' ∧ behind i sl' p' evs' (v 4%nat) ∧ last_seq (slot_seq_ p0) k1 = slot_seq_ p' ∧
      length evs = (length k1 + length evs')%nat) as Hship.
    { intros k1 k2 ->. apply follows_app in Hf as [Hf _]. rewrite <-app_assoc in Hnew.
      destruct (log_frames_ship rnd now i sl p0 evs (v 4%nat) k1 (k2 ++ rest) Hok
        ltac:(congruence)) as (sl' & p' & evs' & Hen & Hok' & Ho' & Hbh' & Hrest); try done.
      rewrite Hses in Hen. exists sl', p', evs'. split; [done|]. split; [|done].
      by eapply serving_after. }
    destruct (Hship k [] ltac:(by rewrite app_nil_r))
      as (sl' & p' & evs' & Hen & Hsv' & Ho' & Hbh' & Hlast & Hcount).
    eexists _, sl'. split; [exact Hfr|]. do 3 (split; [done|]). split; [|split; [|split]].
    + right. by eexists _, _.
    + right. exists p', evs'. split; [done|]. congruence.
    + intros n. unfold log_frames. rewrite <-fmap_take.
      destruct (Hship (take n k) (drop n k)) as (sln & pn & evn & H1 & H2 & H3 & H4 & _);
        [by rewrite take_drop|].
      exists sln. split; [exact H1|]. do 2 (split; [done|]). right. by eexists _, _.
    + left. unfold log_frames. rewrite length_fmap, (lag_behind _ _ _ _ _ Hbh).
      rewrite (lag_behind _ _ _ _ _ Hbh'). lia.
Qed.

(** ** The loop over the slots *)

(** The state both sides have of slot [i], whose primary is at [p]. *)
Record stands (i : nat) (sl : SlaveReplicator) (p : HashSlot) (st : ReplicaSlotState) : Prop := {
  sn_tracks : tracks i sl p;
  sn_agreed : agreed i sl p st;
}.

Lemma stands_same i sl sl' p st :
  sl_slots_ sl' !! i = sl_slots_ sl !! i →
  slots_ (sl_engine_ sl') !! i = slots_ (sl_engine_ sl) !! i → stands i sl p st → stands i sl' p st.
Proof. intros E1 E2 [H1 H2]. split; [by eapply tracks_same|by eapply agreed_same]. Qed.

Lemma stands_moves i sl p p' st : stands i sl p st → moves i p p' → stands i sl p' st.
Proof. intros [H1 H2] Hm. split; [by eapply tracks_moves|by eapply agreed_moves]. Qed.

(** The loop takes the image of a slot. *)
Definition wants_image (v : slot_view) (st : ReplicaSlotState) : bool :=
  rs_need_snapshot st || negb (HasBacklog v (rs_sent_seq st +u 1)).

Lemma build_slot_round session rnd now i sl p view max_frames slots b fin slots' b' fin' st :
  serving session sl → is_u64 now → length slots = length (sl_slots_ sl) →
  slots !! i = Some st → stands i sl p st →
  moves i p (view i 4%nat) → sendable i (view i 4%nat) → build_ok max_frames b →
  build_slot view session max_frames i (slots, b, fin) = Some (slots', b', fin') →
  ∃ frames sl' st', bd_frames b' = bd_frames b ++ frames ∧ build_ok max_frames b' ∧
    slots' = <[i := st']> slots ∧ enqueue_all rnd now frames sl = Some sl' ∧
    serving session sl' ∧ only_slot i sl sl' ∧ stands i sl' (view i 4%nat) st' ∧
    broken session rnd now i sl (view i 4%nat) frames ∧
    ((wants_image (view i) st = true → 0 < lag i sl (view i 4%nat))%nat →
     (lag i sl' (view i 4%nat) + length frames <= lag i sl (view i 4%nat))%nat) ∧
    ∃ target, fin' = fin ++ (if rs_need_snapshot st' then [] else [(Z.of_nat i, target)]).
Proof.
  intros Hsv Hn Hlen Hst [Ht Ha] Hm Hsend Hb E. unfold build_slot in E.
  rewrite Hst in E. cbn [mbind option_bind] in E.
  pose proof (lookup_lt_Some _ _ _ Hst) as Hi. rewrite Hlen in Hi.
  destruct (negb (bd_full b) && (length (bd_frames b) <? max_frames)%nat) eqn:Eopen.
  - apply andb_true_iff in Eopen as [_ Hlt]. apply Nat.ltb_lt in Hlt.
    destruct (serve_slot (view i) session max_frames i st b) as [[[st' target] b1]|] eqn:Es; [|done].
    cbn [mbind option_bind] in E. injection E as <- <- <-.
    destruct (serve_slot_spec _ _ _ _ _ _ _ _ _ Hb Hlt Es) as (Hb1 & _ & _).
    destruct (serve_slot_agreed session rnd now i sl p (view i) max_frames st b st' target b1)
      as (frames & sl' & Hfr & Hen & Hsv' & Ho & Ht' & Ha' & Hbr & Hlag); try done.
    exists frames, sl', st'. split; [by destruct (_ && _)|].
    split; [by apply close_batch_ok|]. do 4 (split; [done|]). split; [by split|].
    split; [done|]. split.
    + intros Hw. destruct Hlag as [Hlag|(Hl0 & Hf1 & Hwhy)]; [done|]. specialize (Hw Hwhy). lia.
    + exists target. destruct (rs_need_snapshot st'); [by rewrite app_nil_r|done].
  - clear Eopen. cbn [mbind option_bind] in E. injection E as <- <- <-.
    exists [], sl, st. rewrite app_nil_r. split; [by destruct (_ && _)|].
    split; [by apply close_batch_ok|]. do 3 (split; [done|]). split; [apply only_slot_refl|].
    split; [by split; [eapply tracks_moves|eapply agreed_moves]|].
    split; [by apply broken_nil; [|eapply tracks_moves]|]. split; [cbn; lia|].
    eexists. destruct (rs_need_snapshot st); [by rewrite app_nil_r|done].
Qed.

(** What the replica lacks of the slots [ids], all together. *)
Definition total_lag (q : nat → HashSlot) (ids : list nat) (sl : SlaveReplicator) : nat :=
  sum_list_with (λ i, lag i sl (q i)) ids.

Lemma total_lag_same q ids sl sl' :
  (∀ i, i ∈ ids → sl_slots_ sl' !! i = sl_slots_ sl !! i) →
  total_lag q ids sl' = total_lag q ids sl.
Proof.
  unfold total_lag. induction ids as [|i ids IH]; intros H; [done|]. cbn.
  rewrite (lag_same i sl sl') by (apply H; by left). f_equal. apply IH.
  intros j Hj. apply H. by right.
Qed.

Lemma build_loop_round session rnd now sl before view max_frames ids slots b fin slots' b' fin' :
  NoDup ids → serving session sl → is_u64 now → length slots = length (sl_slots_ sl) →
  (∀ i, i ∈ ids → ∃ st, slots !! i = Some st ∧ stands i sl (before i) st ∧
     moves i (before i) (view i 4%nat) ∧ sendable i (view i 4%nat)) →
  build_ok max_frames b →
  build_loop view session max_frames ids (slots, b, fin) = Some (slots', b', fin') →
  ∃ frames sl' more, bd_frames b' = bd_frames b ++ frames ∧
    enqueue_all rnd now frames sl = Some sl' ∧ serving session sl' ∧
    length slots' = length slots ∧ length (sl_slots_ sl') = length (sl_slots_ sl) ∧
    (∀ j, j ∉ ids → sl_slots_ sl' !! j = sl_slots_ sl !! j ∧
       slots_ (sl_engine_ sl') !! j = slots_ (sl_engine_ sl) !! j ∧ slots' !! j = slots !! j) ∧
    (∀ i, i ∈ ids → ∃ st', slots' !! i = Some st' ∧ stands i sl' (view i 4%nat) st') ∧
    ((∀ i st, i ∈ ids → slots !! i = Some st → wants_image (view i) st = true →
        (0 < lag i sl (view i 4%nat))%nat) →
     (total_lag (λ i, view i 4%nat) ids sl' + length frames
        <= total_lag (λ i, view i 4%nat) ids sl)%nat) ∧
    (∀ n, ∃ sln, enqueue_all rnd now (take n frames) sl = Some sln ∧ serving session sln ∧
       length (sl_slots_ sln) = length (sl_slots_ sl) ∧
       (∀ j, j ∉ ids → sl_slots_ sln !! j = sl_slots_ sl !! j ∧
          slots_ (sl_engine_ sln) !! j = slots_ (sl_engine_ sl) !! j) ∧
       (∀ i, i ∈ ids → tracks i sln (view i 4%nat))) ∧
    fin' = fin ++ more ∧ Forall (λ '(i, _), 0 <= i < Z.of_nat (length slots)) more.
Proof.
  intros Hnd. revert sl slots b fin.
  induction Hnd as [|i ids Hi Hnd IH]; intros sl slots b fin Hsv Hn Hlen Hids Hb E.
  { injection E as <- <- <-. exists [], sl, []. rewrite !app_nil_r. do 5 (split; [done|]).
    split; [done|]. split; [intros i Hi; by apply not_elem_of_nil in Hi|]. split; [cbn; lia|]. split; [|done].
    intros n. exists sl. rewrite take_nil. do 4 (split; [done|]).
    intros i Hi. by apply not_elem_of_nil in Hi. }
  cbn [build_loop] in E. destruct (build_slot _ _ _ _ _) as [[[slots1 b1] fin1]|] eqn:E1; [|done].
  cbn [mbind option_bind] in E.
  destruct (Hids i ltac:(by left)) as (st & Hst & Hstands & Hm & Hsend).
  destruct (build_slot_round session rnd now i sl (before i) view max_frames slots b fin slots1 b1
    fin1 st) as (f1 & sl1 & st1 & Hf1 & Hb1 & -> & Hen1 & Hsv1 & Ho1 & Hst1 & Hbr1 & Hlag1 & target & ->);
    try done.
  pose proof (lookup_lt_Some _ _ _ Hst) as Hlt.
  assert (length (<[i := st1]> slots) = length (sl_slots_ sl1)) as Hlen1
    by (rewrite length_insert, (os_count _ _ _ Ho1); exact Hlen).
  edestruct (IH sl1 (<[i := st1]> slots) b1) as (f2 & sl2 & more & Hf2 & Hen2 & Hsv2 & Hl2 & Hl2' &
    Hout & Hin & Hlag2 & Hbr2 & -> & Hmore); [done|done|done| |done|exact E|].
  { intros j Hj. assert (j ≠ i) as Hne by (by intros ->).
    destruct (Hids j ltac:(by right)) as (stj & Hstj & Hsj & Hrest). exists stj.
    split; [by rewrite list_lookup_insert_ne|]. split; [|done].
    eapply stands_same; [by apply (os_state _ _ _ Ho1)|by apply (os_slot _ _ _ Ho1)|done]. }
  rewrite length_insert in Hl2, Hmore.
  eexists (f1 ++ f2), sl2, _. split; [by rewrite Hf2, Hf1, app_assoc|].
  split; [by rewrite (enqueue_all_app _ _ _ _ _ _ Hen1)|]. split; [done|]. split; [done|].
  split; [by rewrite Hl2', (os_count _ _ _ Ho1)|]. split; [|split; [|split; [|split; [|split]]]].
  - intros j Hj. apply not_elem_of_cons in Hj as [Hne Hj]. destruct (Hout j Hj) as (-> & -> & ->).
    rewrite list_lookup_insert_ne by done. split; [by apply (os_state _ _ _ Ho1)|].
    split; [by apply (os_slot _ _ _ Ho1)|done].
  - intros j [->|Hj]%elem_of_cons; [|by apply Hin]. destruct (Hout i Hi) as (E2 & E3 & E4).
    exists st1. rewrite E4, list_lookup_insert_eq by done. split; [done|].
    by eapply stands_same.
  - intros Hw. rewrite length_app. unfold total_lag in *. cbn [sum_list_with].
    assert (lag i sl2 (view i 4%nat) = lag i sl1 (view i 4%nat)) as -> by (apply lag_same, Hout, Hi).
    specialize (Hlag1 ltac:(intros Hwi; apply (Hw i st); [by left|done|done])).
    assert (total_lag (λ j, view j 4%nat) ids sl1 = total_lag (λ j, view j 4%nat) ids sl) as Esame.
    { apply total_lag_same. intros j Hj. apply (os_state _ _ _ Ho1). by intros ->. }
    unfold total_lag in Esame. rewrite <-Esame.
    enough (sum_list_with (λ j, lag j sl2 (view j 4%nat)) ids + length f2 <=
            sum_list_with (λ j, lag j sl1 (view j 4%nat)) ids)%nat by lia.
    apply Hlag2. intros j stj Hj Hstj Hwj. assert (j ≠ i) as Hne by (by intros ->).
    rewrite list_lookup_insert_ne in Hstj by done.
    rewrite (lag_same j sl sl1) by (by apply (os_state _ _ _ Ho1)).
    apply (Hw j stj); [by right|done|done].
  - intros n. rewrite take_app. destruct (decide (n <= length f1)%nat) as [Hle|Hgt].
    + replace (n - length f1)%nat with 0%nat by lia. rewrite take_0, app_nil_r.
      destruct (Hbr1 n) as (sln & H1 & H2 & H3 & H4). exists sln.
      do 2 (split; [done|]). split; [apply H3|]. split.
      * intros j Hj. apply not_elem_of_cons in Hj as [Hne _].
        split; [by apply (os_state _ _ _ H3)|by apply (os_slot _ _ _ H3)].
      * intros j [->|Hj]%elem_of_cons; [done|]. assert (j ≠ i) as Hne by (by intros ->).
        destruct (Hids j ltac:(by right)) as (stj & _ & [Htj _] & Hmj & _).
        eapply tracks_same; [by apply (os_state _ _ _ H3)|by apply (os_slot _ _ _ H3)|].
        by eapply tracks_moves.
    + rewrite firstn_all2 by lia. destruct (Hbr2 (n - length f1)%nat) as (sln & H1 & H2 & H3 & H4 & H5).
      exists sln. rewrite (enqueue_all_app _ _ _ _ _ _ Hen1). do 2 (split; [done|]).
      split; [by rewrite H3, (os_count _ _ _ Ho1)|]. split.
      * intros j Hj. apply not_elem_of_cons in Hj as [Hne Hj]. destruct (H4 j Hj) as [-> ->].
        split; [by apply (os_state _ _ _ Ho1)|by apply (os_slot _ _ _ Ho1)].
      * intros j [->|Hj]%elem_of_cons; [|by apply H5]. destruct (H4 i Hi) as [E2 E3].
        eapply tracks_same; [done|done|apply Hst1].
  - by rewrite <-app_assoc.
  - apply Forall_app. split; [|done]. destruct (rs_need_snapshot st1); [done|].
    constructor; [lia|done].
Qed.

End round.
