(* ===== verification/Polling.v ===== *)
(** * Polls of a replica

    A whole round of replication: the HELLO a replica builds
    (replication_link.cpp), the primary's answer (master_replicator.cpp), and
    its frames, handed to the replica one after another (slave_replicator.cpp).
    The primary goes on serving commands while it answers.

    [linked] is the invariant between the rounds. A primary that has never
    heard of the replica is linked to it whatever the replica holds; a round
    keeps the two linked even when the connection breaks after any number of
    frames. *)

From S2P Require Import Prelude Text Containers Double RedisObject Binlog HashSlot Engine Response Command Dispatcher Replay Resp ReplFrame SnapshotCodec Slave Convergence Master Shipping Socket Link Round.

Section polling.
Context {IC : ImmutableContainer} {RL : RespLib} {CL : ContainerLaws IC} {RW : RespLaws RL}.
Context {HI : History}.

(** ** Sessions *)

Definition SessionOf (m : MasterReplicator) (id : string) : option ReplicaSession :=
  k ← FindReplica m id; ms_replicas_ m !! k.

(** A session name the primary has not given yet. *)
Definition unissued (m : MasterReplicator) (id session : string) : Prop :=
  ∃ k, ms_next_session_seq_ m <= k <= UINT64_MAX ∧
    session = ms_epoch_ m +:+ "-" +:+ id +:+ "-" +:+ to_string k.

(** When the primary has a session with the replica [id], which holds [sl],
    every slot of the replica has an earlier state of the primary's slot, or
    asks for a snapshot. *)
Record linked (m : MasterReplicator) (id : string) (sl : SlaveReplicator) (p : nat → HashSlot)
    : Prop := {
  ld_session r : SessionOf m id = Some r → rp_session_id r ≠ "" →
    rp_session_id r = sl_session_id_ sl →
    ∀ i, (i < length (sl_slots_ sl))%nat → tracks i sl (p i);
  ld_issued : ¬ unissued m id (sl_session_id_ sl);
}.

(** A primary that does not know the replica. *)
Lemma linked_new m id sl p :
  FindReplica m id = None → ¬ unissued m id (sl_session_id_ sl) → linked m id sl p.
Proof. intros E H. split; [|done]. intros r. unfold SessionOf. by rewrite E. Qed.

Lemma string_app_inv_head a b c : a +:+ b = a +:+ c → b = c.
Proof.
  induction a as [|x a IH]; [by rewrite !string_app_nil_l|].
  rewrite !string_app_cons. intros E. injection E as E. by apply IH.
Qed.

(** A name that has just been given is not given again. *)
Lemma issued_once m id k :
  0 <= k < ms_next_session_seq_ m → k <= UINT64_MAX →
  ¬ unissued m id (ms_epoch_ m +:+ "-" +:+ id +:+ "-" +:+ to_string k).
Proof.
  intros Hk Hu (k' & Hk' & E). do 4 apply string_app_inv_head in E.
  apply (f_equal ParseU64) in E. rewrite !ParseU64_to_string in E by (unfold is_u64; lia).
  injection E. lia.
Qed.

Lemma FindReplica_set m k r :
  FindReplica m (rp_replica_id r) = Some k →
  FindReplica (set_replica m k r) (rp_replica_id r) = Some k ∧
  SessionOf (set_replica m k r) (rp_replica_id r) = Some r.
Proof.
  intros E. assert (FindReplica (set_replica m k r) (rp_replica_id r) = Some k) as E2.
  { unfold FindReplica in *. apply fmap_Some in E as ([k' r0] & E & ->). cbn.
    apply list_find_Some in E as (H1 & H2 & H3). apply fmap_Some. exists (k', r).
    split; [|done]. apply list_find_Some. split; [|split; [done|]].
    - apply list_lookup_insert_eq. by eapply lookup_lt_Some.
    - intros j y Hj Hlt. rewrite list_lookup_insert_ne in Hj by lia. by apply (H3 j). }
  split; [done|]. unfold SessionOf. rewrite E2. cbn. apply list_lookup_insert_eq.
  destruct (FindReplica_Some _ _ _ E) as (r0 & Hr0 & _). by eapply lookup_lt_Some.
Qed.

Lemma FindReplica_fresh m id slots :
  FindReplica m id = None →
  FindReplica (mkMaster (ms_epoch_ m) (ms_replicas_ m ++ [mkReplica id "" slots 0 false])
                 (ms_next_session_seq_ m) (ms_budget_ m)) id = Some (length (ms_replicas_ m)).
Proof.
  unfold FindReplica. intros E%fmap_None. cbn. rewrite list_find_app_r by done. cbn.
  rewrite decide_True by done. done.
Qed.

(** ** HELLO *)

Lemma hello_loop view reset states k pre suf :
  length pre = k → length suf = length states →
  foldl (λ slots '(slot, position),
           if slot >=? Z.of_nat (length slots) then slots
           else <[Z.to_nat slot := hello_slot (view (Z.to_nat slot)) reset position]> slots)
    (pre ++ suf) (imap (λ i state, (Z.of_nat (k + i), slave_position state)) states) =
  pre ++ imap (λ i state, hello_slot (view (k + i)%nat) reset (slave_position state)) states.
Proof.
  revert k pre suf. induction states as [|state states IH]; intros k pre suf Hk Hsuf.
  { apply nil_length_inv in Hsuf as ->. done. }
  destruct suf as [|x suf]; [done|]. injection Hsuf as Hsuf.
  cbn [imap foldl]. rewrite Nat.add_0_r. rewrite Z.geb_leb, (proj2 (Z.leb_gt _ _)).
  2:{ rewrite length_app. cbn. lia. }
  rewrite Nat2Z.id. rewrite insert_app_r_alt by lia. rewrite Hk, Nat.sub_diag. cbn [insert list_insert].
  set (h := hello_slot _ _ _).
  replace (pre ++ h :: suf) with ((pre ++ [h]) ++ suf) by (by rewrite <-app_assoc).
  rewrite (imap_ext _ (λ i state, (Z.of_nat (S k + i), slave_position state)))
    by (intros j st _; unfold compose; f_equal; lia).
  rewrite IH by (try done; rewrite length_app; cbn; lia).
  rewrite <-app_assoc. cbn. f_equal. f_equal. apply imap_ext. intros j st _.
  unfold compose. by rewrite Nat.add_succ_r.
Qed.

(** Every slot of the session is set from the position of the replica. *)
Lemma hello_positions_all view reset (sl : SlaveReplicator) slots :
  length slots = length (sl_slots_ sl) →
  hello_positions view reset (slave_Positions sl) slots =
  imap (λ i state, hello_slot (view i) reset (slave_position state)) (sl_slots_ sl).
Proof.
  intros Hl. unfold hello_positions, slave_Positions.
  exact (hello_loop view reset (sl_slots_ sl) 0 [] slots eq_refl Hl).
Qed.

(** How the session [r] came by its name. *)
Definition issues (m : MasterReplicator) (id : string) (r : ReplicaSession) (m' : MasterReplicator)
    : Prop :=
  ms_epoch_ m' = ms_epoch_ m ∧
  if rp_reset r
  then rp_session_id r =
         ms_epoch_ m +:+ "-" +:+ id +:+ "-" +:+ to_string (ms_next_session_seq_ m) ∧
       ms_next_session_seq_ m' = ms_next_session_seq_ m +u 1
  else ms_next_session_seq_ m' = ms_next_session_seq_ m.

(** The session a HELLO ends in: the old one when the replica names it,
    otherwise a new one, which the replica is told to start over with. *)
Lemma OnHello_hello view slot_count m id sl :
  master_ok slot_count m → length (sl_slots_ sl) = slot_count →
  ∃ i m1 r, OnHelloUnlocked view slot_count m
      (BuildHelloFrame id (sl_session_id_ sl) sl kProtocolVersion) = Some (i, m1) ∧
    master_ok slot_count m1 ∧ ms_replicas_ m1 !! i = Some r ∧ rp_replica_id r = id ∧
    FindReplica m1 id = Some i ∧ rp_session_id r ≠ "" ∧
    rp_slots r = imap (λ i state, hello_slot (view i) (rp_reset r) (slave_position state))
                   (sl_slots_ sl) ∧
    (rp_reset r = false → rp_session_id r = sl_session_id_ sl ∧
       ∃ r0, SessionOf m id = Some r0 ∧ rp_session_id r0 = rp_session_id r) ∧
    (∀ r0, SessionOf m id = Some r0 → rp_session_id r0 ≠ "" →
       rp_session_id r0 = sl_session_id_ sl → rp_reset r = false) ∧
    issues m id r m1.
Proof.
  intros Hm Hl. unfold OnHelloUnlocked.
  cbn [fr_subcmd BuildHelloFrame Frame_Hello fr_replica_id fr_session_id fr_slot_positions].
  rewrite bool_decide_eq_true_2 by done. cbn [negb].
  assert (∃ i m1 r, (match FindReplica m id with
      | Some i => (i, m)
      | None => (length (ms_replicas_ m),
           mkMaster (ms_epoch_ m)
             (ms_replicas_ m ++ [mkReplica id "" (replicate slot_count ReplicaSlotState_default) 0 false])
             (ms_next_session_seq_ m) (ms_budget_ m))
      end) = (i, m1) ∧ master_ok slot_count m1 ∧ ms_replicas_ m1 !! i = Some r ∧
      FindReplica m1 id = Some i ∧
      (ms_epoch_ m1 = ms_epoch_ m ∧ ms_next_session_seq_ m1 = ms_next_session_seq_ m) ∧
      ((rp_session_id r ≠ "" → SessionOf m id = Some r) ∧ ∀ r0, SessionOf m id = Some r0 → r0 = r))
    as (i & m1 & r & -> & Hm1 & Hr & Hf & [Hep Hnx] & Hold & Hsame).
  { unfold SessionOf. destruct (FindReplica m id) as [i|] eqn:Ef.
    - destruct (FindReplica_Some _ _ _ Ef) as (r & Hr & _). exists i, m, r.
      do 5 (split; [done|]). cbn. split; [done|]. intros r0 Hr0. congruence.
    - eexists _, _, _. split; [reflexivity|]. split; [|split; [|split; [|split]]].
      + apply Forall_app. split; [done|]. constructor; [|done]. cbn. by rewrite length_replicate.
      + cbn. by rewrite list_lookup_middle.
      + by apply FindReplica_fresh.
      + done.
      + done. }
  rewrite Hr. cbn [mbind option_bind].
  assert (length (rp_slots r) = length (sl_slots_ sl)) as Hlr.
  { unfold master_ok in Hm1. rewrite Forall_lookup in Hm1. rewrite (Hm1 _ _ Hr). done. }
  set (reset := String.eqb (rp_session_id r) "" ||
    negb (String.eqb (sl_session_id_ sl) (rp_session_id r))).
  destruct (if reset then NewSessionId m1 id else (rp_session_id r, m1)) as [session m2] eqn:Es.
  assert (ms_replicas_ m2 = ms_replicas_ m1) as Erep
    by (destruct reset; injection Es as <- <-; done).
  assert (FindReplica m2 id = Some i) as Hf2 by (unfold FindReplica in *; by rewrite Erep).
  rewrite hello_positions_all by done. eexists _, _, _. split; [reflexivity|].
  set (r' := mkReplica _ _ _ _ _).
  assert (ms_replicas_ (set_replica m2 i r') !! i = Some r') as Hr'.
  { cbn. rewrite Erep. apply list_lookup_insert_eq. by eapply lookup_lt_Some. }
  split; [apply set_replica_ok; [unfold master_ok; by rewrite Erep|]; cbn; by rewrite length_imap|].
  split; [exact Hr'|]. split; [done|]. split; [by apply (FindReplica_set m2 i r')|].
  cbn [r' rp_session_id rp_slots rp_reset]. split; [|split; [done|split; [|split]]].
  - destruct reset eqn:Er; injection Es as <- <-.
    + intros E. apply (f_equal String.length) in E. rewrite !length_app_string in E. cbn in E. lia.
    + unfold reset in Er. apply orb_false_iff in Er as [Er _]. by apply String.eqb_neq in Er.
  - intros Er. rewrite Er in Es. injection Es as <- <-. unfold reset in Er.
    apply orb_false_iff in Er as [Er1 Er2]. apply String.eqb_neq in Er1.
    apply negb_false_iff, String.eqb_eq in Er2. split; [done|]. exists r. split; [by apply Hold|done].
  - intros r0 Hr0 H1 H2. rewrite (Hsame r0 Hr0) in *. unfold reset.
    by rewrite (proj2 (String.eqb_neq _ _) H1), H2, String.eqb_refl.
  - unfold issues. cbn [rp_reset rp_session_id]. unfold set_replica. cbn [ms_epoch_ ms_next_session_seq_].
    destruct reset; injection Es as <- <-; cbn; by rewrite Hep, Hnx.
Qed.

(** ** BEGIN *)

(** A slot of a primary. *)
Record written (i : nat) (p : HashSlot) : Prop := {
  wr_ok : slot_ok i p;
  wr_logs : log_writes_ p = true;
  wr_seq : 0 <= slot_seq_ p <= INT64_MAX;
}.

Lemma written_moves i p p' : written i p → moves i p p' → written i p' ∧ slot_seq_ p <= slot_seq_ p'.
Proof.
  intros [Hok Hl Hs] (evs & Hr & Hroom).
  assert (slot_ok i p') as Hok' by (by eapply primary_run_ok).
  assert (log_writes_ p' = true) as Hl' by (by rewrite (primary_run_writes _ _ _ _ Hr)).
  destruct (primary_run_log i p evs p' Hr Hl (so_seq _ _ Hok) (so_bytes _ _ Hok)) as [Hseq _].
  { unfold INT64_MAX, UINT64_MAX in *. lia. }
  split; [split; [done|done|lia]|lia].
Qed.

Lemma written_new i : written i HashSlot_new.
Proof. split; [apply HashSlot_new_ok|done|by vm_compute]. Qed.

(** An emptied slot is behind any slot of a primary, from its beginning. *)
Lemma emptied_behind i sl slot p :
  sl_slots_ sl !! i = Some SlotApplyState_default →
  slots_ (sl_engine_ sl) !! i = Some slot → emptied slot → moves i HashSlot_new p →
  ∃ evs, behind i sl HashSlot_new evs p.
Proof.
  intros Hst Hslot [Hm _] (evs & Hr & Hroom). exists evs.
  split; try done; [|apply HashSlot_new_ok].
  exists SlotApplyState_default, slot. do 4 (split; [done|]).
  rewrite Hm. unfold slot_map. cbn. by rewrite to_gmap_new, fmap_empty.
Qed.

(** What a HELLO makes of a position the replica reports. *)
Lemma hello_agreed i sl state p v :
  written i p → sl_slots_ sl !! i = Some state → tracks i sl p → moves i p (v 0%nat) →
  agreed i sl p (hello_slot v false (slave_position state)).
Proof.
  intros Hp Hst Ht Hm. destruct (written_moves _ _ _ Hp Hm) as [[Hok _ Hmax] Hle].
  unfold hello_slot, slave_position. cbn [Snapshot snap_published_seq].
  rewrite (so_published _ _ Hok). destruct Ht as [(state' & Hst' & Hneed)|(p0 & evs & Hb)].
  - rewrite Hst in Hst'. injection Hst' as <-. rewrite Hneed. left.
    rewrite Z.gtb_ltb, (proj2 (Z.ltb_lt _ _)); [done|]. unfold INT64_MAX, UINT64_MAX in *. lia.
  - destruct (behind_point _ _ _ _ _ Hb) as (state' & slot & Hst' & _ & Hneed & Happ).
    rewrite Hst in Hst'. injection Hst' as <-. rewrite Hneed, Happ.
    pose proof (behind_seq _ _ _ _ _ Hb). right. exists p0, evs. split; [done|].
    rewrite Z.gtb_ltb, (proj2 (Z.ltb_ge _ _)) by lia. done.
Qed.

Lemma hello_reset i v position :
  written i (v 0%nat) →
  hello_slot v true position = mkReplicaSlot 0 0 (negb (HasBacklog v 1)).
Proof.
  intros [Hok _ Hmax]. unfold hello_slot. cbn [Snapshot snap_published_seq].
  rewrite (so_published _ _ Hok), Z.gtb_ltb, (proj2 (Z.ltb_ge _ _)) by lia. done.
Qed.

(** The BEGIN of the answer: the replica starts over, or goes on with what it
    has; either way the session knows every slot. *)
Lemma begin_round rnd now session reset sl (p : nat → HashSlot) view :
  slave_ok sl → session ≠ "" →
  (∀ i, (i < length (sl_slots_ sl))%nat → moves i HashSlot_new (p i) ∧ moves i (p i) (view i 0%nat)) →
  (reset = false → session = sl_session_id_ sl ∧
     ∀ i, (i < length (sl_slots_ sl))%nat → tracks i sl (p i)) →
  ∃ slb, EnqueueFrame rnd (Frame_Begin session reset) now sl = Some (true, slb) ∧
    serving session slb ∧ length (sl_slots_ slb) = length (sl_slots_ sl) ∧
    (reset = false → slb = sl) ∧
    ∀ i state, sl_slots_ sl !! i = Some state →
      stands i slb (p i) (hello_slot (view i) reset (slave_position state)) ∧
      ∃ stateb, sl_slots_ slb !! i = Some stateb ∧
        hello_slot (view i) reset (slave_position state) =
        hello_slot (view i) false (slave_position stateb).
Proof.
  intros Hok Hne Hp Hcont. unfold EnqueueFrame.
  cbn [fr_subcmd Frame_Begin fr_session_id fr_reset]. rewrite decide_True by done.
  rewrite (proj2 (String.eqb_neq session "")) by done. cbn [orb].
  assert (∀ i, (i < length (sl_slots_ sl))%nat → written i (p i)) as Hw.
  { intros i Hi. destruct (Hp i Hi) as [Hb _]. by eapply written_moves; [apply written_new|]. }
  destruct reset; cbn [negb andb].
  - destruct (reset_slots_run sl Hok) as (sl1 & E & Hok1 & Hse & Hst & Hem).
    unfold mbind, stM_bind. rewrite E. cbn. eexists. split; [reflexivity|].
    assert (length (sl_slots_ sl1) = length (sl_slots_ sl)) as Hlen.
    { unfold reset_slots in E. destruct (reset_loop_run (seq 0 (length (sl_slots_ sl))) sl Hok)
        as (s' & E' & _ & _ & Hl' & _); [apply Forall_forall; intros i Hi%elem_of_seq; lia|].
      rewrite E in E'. by injection E' as <-. }
    split; [|split; [done|split; [done|]]].
    + split; cbn; [by destruct Hok1|done|done].
    + intros i state Hi. pose proof (lookup_lt_Some _ _ _ Hi) as Hlt.
      destruct (Hp i Hlt) as [Hb Hm]. split.
      2:{ destruct (lookup_lt_is_Some_2 (sl_slots_ sl1) i) as [st1 Hst1]; [lia|].
          rewrite Forall_lookup in Hst. rewrite (Hst _ _ Hst1) in Hst1. by exists SlotApplyState_default. }
      rewrite (hello_reset i) by (by apply (written_moves _ _ _ (Hw i Hlt))).
      destruct (lookup_lt_is_Some_2 (sl_slots_ sl1) i) as [st1 Hst1]; [lia|].
      destruct (slave_slot sl1 i st1 Hok1 Hst1) as (slot & Hslot & _).
      rewrite Forall_lookup in Hst. rewrite Forall_lookup in Hem. rewrite (Hst _ _ Hst1) in Hst1.
      destruct (emptied_behind i (mkSlave (sl_engine_ sl1) (sl_slots_ sl1) session) slot (p i)
        Hst1 Hslot (Hem _ _ Hslot) Hb) as [evs Hbh].
      split; [right; by eexists _, _|]. right. exists HashSlot_new, evs. done.
  - destruct (Hcont eq_refl) as (-> & Ht). rewrite String.eqb_refl. cbn [negb].
    exists sl. split; [cbn; by destruct sl|]. split; [by split|]. do 2 (split; [done|]).
    intros i state Hi. pose proof (lookup_lt_Some _ _ _ Hi) as Hlt.
    split; [|by exists state].
    split; [by apply Ht|]. by apply hello_agreed; [apply Hw| |apply Ht|apply Hp].
Qed.

(** ** DONE *)

Lemma done_slots_total positions slots :
  Forall (λ '(i, _), 0 <= i < Z.of_nat (length slots)) positions →
  (done_slots positions slots).1 = true.
Proof.
  revert slots. induction positions as [|[i position] positions IH]; intros slots H; cbn; [done|].
  apply Forall_cons in H as [Hi H]. rewrite Z.geb_leb, (proj2 (Z.leb_gt _ _)) by lia.
  apply IH. by rewrite length_alter.
Qed.

(** DONE changes the readability of slots only. *)
Lemma done_round rnd now session positions sl :
  serving session sl → Forall (λ '(i, _), 0 <= i < Z.of_nat (length (sl_slots_ sl))) positions →
  ∃ sl', EnqueueFrame rnd (Frame_Done session positions) now sl = Some (true, sl') ∧
    sl' = mkSlave (sl_engine_ sl) (done_slots positions (sl_slots_ sl)).2 (sl_session_id_ sl) ∧
    serving session sl' ∧ length (sl_slots_ sl') = length (sl_slots_ sl) ∧
    ∀ i state', sl_slots_ sl' !! i = Some state' → ∃ state, sl_slots_ sl !! i = Some state ∧
      sa_applied_seq state' = sa_applied_seq state ∧ sa_need_snapshot state' = sa_need_snapshot state.
Proof.
  intros [Hok Hse Hne] Hpos. unfold EnqueueFrame.
  cbn [fr_subcmd Frame_Done fr_session_id fr_slot_positions]. rewrite decide_False by done.
  rewrite Hse, (proj2 (String.eqb_neq session "")), String.eqb_refl by done. cbn [orb negb].
  rewrite decide_True by done.
  pose proof (done_slots_total _ _ Hpos) as Htot.
  assert (Forall (λ '(i, _), 0 <= i) positions) as Hpos'.
  { eapply Forall_impl; [exact Hpos|]. intros [i position]. lia. }
  pose proof (done_slots_ok sl positions Hok Hpos') as Hok'. rewrite Hse in Hok'.
  destruct (done_slots_spec positions (sl_slots_ sl) Hpos') as [Hl Hs].
  destruct (done_slots positions (sl_slots_ sl)) as [ok slots]. cbn in *. subst ok.
  eexists. split; [reflexivity|]. split; [done|]. split; [by split|]. split; [done|].
  cbn. intros i state' Hi. destruct (Hs i state' Hi) as (state & H1 & H2 & H3 & _).
  by exists state.
Qed.

Lemma tracks_done i sl sl' p :
  sl_engine_ sl' = sl_engine_ sl → length (sl_slots_ sl') = length (sl_slots_ sl) →
  (∀ i state', sl_slots_ sl' !! i = Some state' → ∃ state, sl_slots_ sl !! i = Some state ∧
    sa_applied_seq state' = sa_applied_seq state ∧ sa_need_snapshot state' = sa_need_snapshot state) →
  tracks i sl p → tracks i sl' p.
Proof.
  intros He Hl H Ht.
  assert (∀ state, sl_slots_ sl !! i = Some state → ∃ state', sl_slots_ sl' !! i = Some state' ∧
    sa_applied_seq state' = sa_applied_seq state ∧ sa_need_snapshot state' = sa_need_snapshot state) as H'.
  { intros state Hst. destruct (lookup_lt_is_Some_2 (sl_slots_ sl') i) as [state' Hst'].
    { rewrite Hl. by eapply lookup_lt_Some. }
    exists state'. destruct (H i state' Hst') as (st & E & Ha & Hn). split; [done|].
    rewrite Hst in E. by injection E as <-. }
  destruct Ht as [(state & Hst & Hneed)|(p0 & evs & [(state & slot & Hst & Hslot & Hneed & Happ & Hm) ? ? ? ?])].
  - left. destruct (H' state Hst) as (state' & Hst' & _ & Hn). exists state'. by rewrite Hn.
  - right. exists p0, evs. split; try done. destruct (H' state Hst) as (state' & Hst' & Ha & Hn).
    exists state', slot. rewrite He, Ha, Hn. done.
Qed.

(** ** What a batch holds *)

Definition payload_frame (f : Frame) : Prop := fr_subcmd f = kLog ∨ fr_subcmd f = kSnapshot.

(** Batches grow by frames of the slots; what all of these have, the batch
    has. *)
Section grows.
Context (Φ : Frame → Prop).

Definition grows (b b' : build) : Prop := ∃ f, bd_frames b' = bd_frames b ++ f ∧ Forall Φ f.

Lemma grows_refl b : grows b b.
Proof. exists []. by rewrite app_nil_r. Qed.

Lemma grows_trans b1 b2 b3 : grows b1 b2 → grows b2 b3 → grows b1 b3.
Proof.
  intros (f1 & H1 & F1) (f2 & H2 & F2). exists (f1 ++ f2).
  by rewrite H2, H1, app_assoc, Forall_app.
Qed.

Lemma grows_push b bytes frame : Φ frame → grows b (push b bytes frame).
Proof. intros H. exists [frame]. split; [done|by constructor]. Qed.

Lemma grows_set_full b n : grows b (set_full b n).
Proof. exists []. by rewrite app_nil_r. Qed.

(** The frames of a slot. *)
Record slot_frames (session : string) (i : nat) (p : HashSlot) : Prop := {
  sf_log log : log ∈ BinlogBuffer.records_ (binlog_buffer_ p) →
    Φ (Frame_Log session (Z.of_nat i) log);
  sf_snapshot payload : EncodeSnapshotPayload (redis_obj_map_ p) = Some payload →
    Φ (Frame_Snapshot session (Z.of_nat i) (published_seq_ p) payload);
}.

Lemma send_logs_grows session slot_id target logs state b :
  (∀ log, log ∈ logs → Φ (Frame_Log session (Z.of_nat slot_id) log)) →
  grows b (send_logs session slot_id target logs state b).2.
Proof.
  revert state b. induction logs as [|log logs IH]; intros state b Hlogs; cbn; [apply grows_refl|].
  destruct (_ >? _); [apply grows_refl|]. destruct (negb _); [apply grows_refl|].
  destruct (negb _); [apply grows_set_full|].
  eapply grows_trans; [|apply IH; intros; apply Hlogs; by right]. apply grows_push, Hlogs. by left.
Qed.

Lemma serve_slot_grows v session max_frames i st b st' target b' :
  slot_frames session i (v 4%nat) →
  serve_slot v session max_frames i st b = Some (st', target, b') → grows b b'.
Proof.
  intros [Hlog Hsnap]. unfold serve_slot. destruct (_ || _).
  - unfold BuildSnapshotFrame. cbn [Snapshot snap_map snap_published_seq].
    destruct (EncodeSnapshotPayload _) as [payload|] eqn:E; [|done]. cbn [mbind option_bind].
    destruct (negb _); intros [= _ _ <-]; [apply grows_set_full|by apply grows_push, Hsnap].
  - match goal with |- context [send_logs ?a ?b ?c ?d ?e ?f] =>
      pose proof (send_logs_grows a b c d e f) as Hg; destruct (send_logs a b c d e f) end.
    intros [= _ _ <-]. apply Hg. intros log Hin. apply Hlog.
    unfold CopyLogsAfter in Hin. by eapply BinlogBuffer.CopyAfter_elem.
Qed.

Lemma build_slot_grows view session max_frames i acc acc' :
  slot_frames session i (view i 4%nat) →
  build_slot view session max_frames i acc = Some acc' → grows acc.1.2 acc'.1.2.
Proof.
  intros Hi. destruct acc as [[slots b] fin]. unfold build_slot. cbn [fst snd].
  destruct (slots !! i) as [st|]; [|done]. cbn [mbind option_bind].
  assert (∀ (c : bool) b1 n, grows b b1 → grows b (if c then set_full b1 n else b1)) as Hclose.
  { intros c b1 n H. destruct c; [|done]. eapply grows_trans; [exact H|apply grows_set_full]. }
  destruct (_ && _).
  - destruct (serve_slot _ _ _ _ _ _) as [[[st' target] b1]|] eqn:E; [|done].
    cbn [mbind option_bind]. intros [= <-]. apply Hclose. by eapply serve_slot_grows.
  - cbn [mbind option_bind]. intros [= <-]. apply Hclose, grows_refl.
Qed.

Lemma build_loop_grows view session max_frames ids acc acc' :
  (∀ i, i ∈ ids → slot_frames session i (view i 4%nat)) →
  build_loop view session max_frames ids acc = Some acc' → grows acc.1.2 acc'.1.2.
Proof.
  revert acc. induction ids as [|i ids IH]; intros acc Hids; cbn [build_loop].
  { intros [= <-]. apply grows_refl. }
  destruct (build_slot _ _ _ _ _) as [acc1|] eqn:E; [|done]. cbn [mbind option_bind]. intros E2.
  eapply grows_trans; [eapply build_slot_grows; [apply Hids; by left|done]|].
  apply IH; [intros j Hj; apply Hids; by right|done].
Qed.
End grows.

Lemma slot_payload_frames session i p : slot_frames payload_frame session i p.
Proof. split; intros; [by left|by right]. Qed.

(** The positions the DONE names: at most one per slot, each read from it. *)
Definition position_read (view : nat → slot_view) (ids : list nat) (position : Z * Z) : Prop :=
  ∃ i k, i ∈ ids ∧ position = (Z.of_nat i, published_seq_ (view i k)).

Lemma build_slot_completed view session max_frames i acc acc' :
  build_slot view session max_frames i acc = Some acc' →
  acc'.2 = acc.2 ∨ ∃ k, acc'.2 = acc.2 ++ [(Z.of_nat i, published_seq_ (view i k))].
Proof.
  destruct acc as [[slots b] fin]. unfold build_slot. cbn [fst snd].
  destruct (slots !! i) as [st|]; [|done]. cbn [mbind option_bind].
  set (served := if negb (bd_full b) && _ then _ else _).
  assert (∀ st' target b1, served = Some (st', target, b1) → ∃ k, target = published_seq_ (view i k)) as H.
  { subst served. intros st' target b1. destruct (_ && _); [|intros [= _ <- _]; by exists 0%nat].
    unfold serve_slot. destruct (_ || _).
    - unfold BuildSnapshotFrame. destruct (EncodeSnapshotPayload _) as [payload|]; [|done].
      cbn [mbind option_bind]. destruct (negb _); intros [= _ <- _]; [by exists 0%nat|by exists 4%nat].
    - destruct (send_logs _ _ _ _ _ _). intros [= _ <- _]. by exists 0%nat. }
  destruct served as [[[st' target] b1]|]; [|done]. destruct (H _ _ _ eq_refl) as [k ->].
  cbn [mbind option_bind]. intros [= <-]. cbn [snd]. destruct (negb _); [right; by exists k|by left].
Qed.

Lemma build_loop_completed view session max_frames ids acc acc' :
  build_loop view session max_frames ids acc = Some acc' →
  ∃ fin, acc'.2 = acc.2 ++ fin ∧ (length fin <= length ids)%nat ∧
    Forall (position_read view ids) fin.
Proof.
  revert acc. induction ids as [|i ids IH]; intros acc; cbn [build_loop].
  { intros [= <-]. exists []. by rewrite app_nil_r. }
  destruct (build_slot _ _ _ _ _) as [acc1|] eqn:E; [|done]. cbn [mbind option_bind]. intros E2.
  destruct (IH acc1 E2) as (fin & Hfin & Hlen & Hall).
  assert (Forall (position_read view (i :: ids)) fin) as Hall'.
  { eapply Forall_impl; [exact Hall|]. intros p (j & k & Hj & ->). exists j, k. split; [by right|done]. }
  rewrite Hfin. destruct (build_slot_completed _ _ _ _ _ _ E) as [->|[k ->]].
  - exists fin. split; [done|]. split; [cbn; lia|done].
  - eexists. rewrite <-app_assoc. split; [reflexivity|]. split; [cbn; lia|].
    constructor; [|done]. exists i, k. split; [by left|done].
Qed.

(** ** The whole answer *)

(** The loop of [BuildFrames] visits every slot once. *)
Lemma rotation_inj n start i j :
  (i < n)%nat → (j < n)%nat → ((start + i) mod n = (start + j) mod n)%nat → i = j.
Proof.
  intros Hi Hj E.
  pose proof (Nat.div_mod_eq (start + i) n) as H1. pose proof (Nat.div_mod_eq (start + j) n) as H2.
  rewrite E in H1. set (q1 := ((start + i) / n)%nat) in *. set (q2 := ((start + j) / n)%nat) in *.
  destruct (decide (q1 = q2)) as [Hq|Hq]; [rewrite Hq in H1; lia|exfalso].
  destruct (decide (q1 < q2)%nat); nia.
Qed.

Lemma rotation_perm n start : (λ i, (start + i) mod n)%nat <$> seq 0 n ≡ₚ seq 0 n.
Proof.
  apply submseteq_length_Permutation; [|by rewrite length_fmap].
  apply NoDup_submseteq.
  - apply NoDup_fmap_2_strong; [|apply NoDup_seq].
    intros i j Hi%elem_of_seq Hj%elem_of_seq E. eapply rotation_inj; [..|exact E]; lia.
  - intros j (i & -> & Hi%elem_of_seq)%list_elem_of_fmap. apply elem_of_seq.
    pose proof (Nat.mod_upper_bound (start + i) n). lia.
Qed.

(** What the two reading phases of an answer find, with commands in between:
    [p] and [after] are the slots at its beginning and at its end. *)
Record answering (count : nat) (hello_view view : nat → slot_view) (p after : nat → HashSlot)
    : Prop := {
  an_views : view_ok view;
  an_born i : (i < count)%nat → moves i HashSlot_new (p i);
  an_hello i : (i < count)%nat → moves i (p i) (hello_view i 0%nat);
  an_read i : (i < count)%nat → moves i (p i) (view i 4%nat);
  an_sent i : (i < count)%nat → sendable i (view i 4%nat);
  an_after i : (i < count)%nat → moves i (view i 4%nat) (after i);
}.

(** The answer to a HELLO, from its BEGIN to its DONE. *)
Lemma Poll_answer hello_view view count m id sl max_frames :
  master_ok count m → length (sl_slots_ sl) = count → view_ok view → id ≠ "" →
  ∃ r slots b completed m',
    build_loop view (rp_session_id r) max_frames
      ((λ i, (rp_next_slot r + i) mod length (rp_slots r))%nat <$> seq 0 (length (rp_slots r)))
      (rp_slots r, mkBuild [] 0 false (rp_next_slot r), []) = Some (slots, b, completed) ∧
    Poll hello_view view count m (BuildHelloFrame id (sl_session_id_ sl) sl kProtocolVersion)
      max_frames =
      Some (Frame_Begin (rp_session_id r) (rp_reset r) ::
              bd_frames b ++ [Frame_Done (rp_session_id r) completed], m') ∧
    master_ok count m' ∧
    SessionOf m' id = Some (mkReplica id (rp_session_id r) slots (bd_next_slot b) (rp_reset r)) ∧
    rp_session_id r ≠ "" ∧ length (rp_slots r) = count ∧
    rp_slots r = imap (λ i state, hello_slot (hello_view i) (rp_reset r) (slave_position state))
                   (sl_slots_ sl) ∧
    (rp_reset r = false → rp_session_id r = sl_session_id_ sl ∧
       ∃ r0, SessionOf m id = Some r0 ∧ rp_session_id r0 = rp_session_id r) ∧
    (∀ r0, SessionOf m id = Some r0 → rp_session_id r0 ≠ "" →
       rp_session_id r0 = sl_session_id_ sl → rp_reset r = false) ∧
    issues m id r m'.
Proof.
  intros Hm Hl Hv Hid. unfold Poll.
  replace (negb _ || _ || _) with false by (symmetry; cbn; by apply String.eqb_neq).
  destruct (OnHello_hello hello_view count m id sl Hm Hl)
    as (i & m1 & r & E1 & Hm1 & Hr & Hrid & Hf & Hse & Hslots & Hcont & Hkeep & Hiss).
  rewrite E1. cbn [mbind option_bind]. rewrite Hr. cbn [mbind option_bind]. unfold BuildFrames.
  assert (length (rp_slots r) = count) as Hlr by (by rewrite Hslots, length_imap).
  destruct (build_loop_ok view (rp_session_id r) max_frames
    ((λ i, (rp_next_slot r + i) mod length (rp_slots r))%nat <$> seq 0 (length (rp_slots r)))
    (rp_slots r) (mkBuild [] 0 false (rp_next_slot r)) [] Hv) as (slots & b & c & E & Hls & _).
  { apply Forall_fmap, Forall_forall. intros j Hj%elem_of_seq. cbn.
    apply Nat.mod_upper_bound. lia. }
  { split; cbn; [lia|done|left; by vm_compute]. }
  rewrite E. cbn [mbind option_bind]. eexists r, slots, b, c, _. split; [done|].
  split; [reflexivity|]. rewrite Hrid. split; [|split].
  - apply set_replica_ok; [done|]. cbn. by rewrite Hls.
  - apply (FindReplica_set m1 i (mkReplica id _ _ _ _)). exact Hf.
  - done.
Qed.

(** A round, step by step: the answer, the replica after its BEGIN, after its
    batch and after its DONE. *)
Record round (rnd : nat → nat) (now : Z) (count : nat) (hello_view view : nat → slot_view)
    (m : MasterReplicator) (id : string) (sl : SlaveReplicator) (max_frames : nat)
    (r : ReplicaSession) (slots : list ReplicaSlotState) (b : build) (completed : list (Z * Z))
    (m' : MasterReplicator) (slb slm sl' : SlaveReplicator) : Prop := {
  rd_poll : Poll hello_view view count m
      (BuildHelloFrame id (sl_session_id_ sl) sl kProtocolVersion) max_frames =
    Some (Frame_Begin (rp_session_id r) (rp_reset r) ::
            bd_frames b ++ [Frame_Done (rp_session_id r) completed], m');
  rd_loop : build_loop view (rp_session_id r) max_frames
      ((λ i, (rp_next_slot r + i) mod count)%nat <$> seq 0 count)
      (rp_slots r, mkBuild [] 0 false (rp_next_slot r), []) = Some (slots, b, completed);
  rd_hello : rp_slots r =
    imap (λ i state, hello_slot (hello_view i) (rp_reset r) (slave_position state)) (sl_slots_ sl);
  rd_master : master_ok count m';
  rd_issues : issues m id r m';
  rd_session : ∃ r', SessionOf m' id = Some r' ∧ rp_session_id r' = rp_session_id r;
  rd_cont : rp_reset r = false → rp_session_id r = sl_session_id_ sl ∧
    (∃ r0, SessionOf m id = Some r0 ∧ rp_session_id r0 = rp_session_id r) ∧ slb = sl;
  rd_keep : ∀ r0, SessionOf m id = Some r0 → rp_session_id r0 ≠ "" →
    rp_session_id r0 = sl_session_id_ sl → rp_reset r = false;
  rd_stands : ∀ i, (i < count)%nat → ∃ stateb st, sl_slots_ slb !! i = Some stateb ∧
    rp_slots r !! i = Some st ∧ st = hello_slot (hello_view i) false (slave_position stateb) ∧
    agreed i slb (view i 4%nat) st ∧ tracks i slb (view i 4%nat);
  rd_begin : EnqueueFrame rnd (Frame_Begin (rp_session_id r) (rp_reset r)) now sl = Some (true, slb);
  rd_batch : enqueue_all rnd now (bd_frames b) slb = Some slm;
  rd_done : EnqueueFrame rnd (Frame_Done (rp_session_id r) completed) now slm = Some (true, sl');
  rd_done_slots : sl' = mkSlave (sl_engine_ slm) (done_slots completed (sl_slots_ slm)).2
                          (sl_session_id_ slm);
  rd_done_same : ∀ i state', sl_slots_ sl' !! i = Some state' → ∃ state,
    sl_slots_ slm !! i = Some state ∧ sa_applied_seq state' = sa_applied_seq state ∧
    sa_need_snapshot state' = sa_need_snapshot state;
  rd_serving : serving (rp_session_id r) slb ∧ serving (rp_session_id r) slm ∧
               serving (rp_session_id r) sl';
  rd_count : length (sl_slots_ slb) = count ∧ length (sl_slots_ slm) = count ∧
             length (sl_slots_ sl') = count;
  rd_broken : ∀ n, ∃ sln, enqueue_all rnd now (take n (bd_frames b)) slb = Some sln ∧
    serving (rp_session_id r) sln ∧ length (sl_slots_ sln) = count ∧
    ∀ i, (i < count)%nat → tracks i sln (view i 4%nat);
  rd_tracks : ∀ i, (i < count)%nat → tracks i sl' (view i 4%nat);
  rd_lag : (∀ i st, rp_slots r !! i = Some st → wants_image (view i) st = true →
      (0 < lag i slb (view i 4%nat))%nat) →
    (total_lag (λ i, view i 4%nat) (seq 0 count) slm + length (bd_frames b)
       <= total_lag (λ i, view i 4%nat) (seq 0 count) slb)%nat;
}.

#[global] Arguments rd_poll {rnd now count hello_view view m id sl max_frames r slots b completed m' slb slm sl'} _.
#[global] Arguments rd_loop {rnd now count hello_view view m id sl max_frames r slots b completed m' slb slm sl'} _.
#[global] Arguments rd_hello {rnd now count hello_view view m id sl max_frames r slots b completed m' slb slm sl'} _.
#[global] Arguments rd_master {rnd now count hello_view view m id sl max_frames r slots b completed m' slb slm sl'} _.
#[global] Arguments rd_session {rnd now count hello_view view m id sl max_frames r slots b completed m' slb slm sl'} _.
#[global] Arguments rd_keep {rnd now count hello_view view m id sl max_frames r slots b completed m' slb slm sl'} _.
#[global] Arguments rd_stands {rnd now count hello_view view m id sl max_frames r slots b completed m' slb slm sl'} _.
#[global] Arguments rd_done_same {rnd now count hello_view view m id sl max_frames r slots b completed m' slb slm sl'} _.
#[global] Arguments rd_issues {rnd now count hello_view view m id sl max_frames r slots b completed m' slb slm sl'} _.
#[global] Arguments rd_cont {rnd now count hello_view view m id sl max_frames r slots b completed m' slb slm sl'} _.
#[global] Arguments rd_begin {rnd now count hello_view view m id sl max_frames r slots b completed m' slb slm sl'} _.
#[global] Arguments rd_batch {rnd now count hello_view view m id sl max_frames r slots b completed m' slb slm sl'} _.
#[global] Arguments rd_done {rnd now count hello_view view m id sl max_frames r slots b completed m' slb slm sl'} _.
#[global] Arguments rd_done_slots {rnd now count hello_view view m id sl max_frames r slots b completed m' slb slm sl'} _.
#[global] Arguments rd_serving {rnd now count hello_view view m id sl max_frames r slots b completed m' slb slm sl'} _.
#[global] Arguments rd_count {rnd now count hello_view view m id sl max_frames r slots b completed m' slb slm sl'} _.
#[global] Arguments rd_broken {rnd now count hello_view view m id sl max_frames r slots b completed m' slb slm sl'} _.
#[global] Arguments rd_tracks {rnd now count hello_view view m id sl max_frames r slots b completed m' slb slm sl'} _.
#[global] Arguments rd_lag {rnd now count hello_view view m id sl max_frames r slots b completed m' slb slm sl'} _.

Lemma total_lag_perm q ids ids' sl : ids ≡ₚ ids' → total_lag q ids sl = total_lag q ids' sl.
Proof. unfold total_lag. induction 1; cbn; lia. Qed.

Lemma Poll_round rnd now count hello_view view p after m id sl max_frames :
  master_ok count m → slave_ok sl → length (sl_slots_ sl) = count → is_u64 now → id ≠ "" →
  answering count hello_view view p after → linked m id sl p →
  ∃ r slots b completed m' slb slm sl',
    round rnd now count hello_view view m id sl max_frames r slots b completed m' slb slm sl'.
Proof.
  intros Hm Hok Hl Hn Hid [Hv Hborn Hhello Hread Hsent Hafter] Hlink.
  destruct (Poll_answer hello_view view count m id sl max_frames Hm Hl Hv Hid)
    as (r & slots & b & completed & m' & Eloop & Epoll & Hm' & Hsess & Hne & Hlr & Hslots & Hcont & Hkeep & Hiss).
  rewrite Hlr in Eloop.
  destruct (begin_round rnd now (rp_session_id r) (rp_reset r) sl p hello_view Hok Hne)
    as (slb & Ebegin & Hsvb & Hlb & Hsame & Hst).
  { intros i Hi. rewrite Hl in Hi. auto. }
  { intros Hr. destruct (Hcont Hr) as (E & r0 & Hr0 & Es). split; [done|].
    apply (ld_session _ _ _ _ Hlink r0); congruence. }
  set (ids := (λ i, (rp_next_slot r + i) mod count)%nat <$> seq 0 count) in *.
  pose proof (rotation_perm count (rp_next_slot r)) as Hperm. fold ids in Hperm.
  assert (∀ i, i ∈ ids ↔ (i < count)%nat) as Hids.
  { intros i. rewrite Hperm, elem_of_seq. lia. }
  assert (length (rp_slots r) = length (sl_slots_ slb)) as Hlrb by congruence.
  edestruct (build_loop_round (rp_session_id r) rnd now slb p view max_frames ids (rp_slots r))
    as (frames & slm & more & Hfr & Hen & Hsvm & Hls & Hlm & _ & Hin & Hlag & Hbr & Hfin & Hmore);
    [by rewrite Hperm; apply NoDup_seq|done|done|done| | |exact Eloop|].
  { intros i Hi%Hids. destruct (lookup_lt_is_Some_2 (sl_slots_ sl) i) as [state Hstate]; [lia|].
    eexists. split; [by rewrite Hslots, list_lookup_imap, Hstate|].
    split; [by apply (Hst i state)|]. auto. }
  { split; cbn; [lia|done|left; by vm_compute]. }
  cbn [bd_frames] in Hfr, Hfin. rewrite app_nil_l in Hfr, Hfin. subst frames more.
  destruct (done_round rnd now (rp_session_id r) completed slm Hsvm) as
    (sl' & Edone & Esl & Hsv' & Hl' & Hsame').
  { by rewrite Hlm, <-Hlrb. }
  exists r, slots, b, completed, m', slb, slm, sl'. split; try done.
  - eexists. split; [exact Hsess|done].
  - intros Hr. destruct (Hcont Hr) as (E & Hr0). split; [done|]. split; [done|by apply Hsame].
  - intros i Hi. destruct (lookup_lt_is_Some_2 (sl_slots_ sl) i) as [state Hstate]; [lia|].
    destruct (Hst i state Hstate) as [Hs (stateb & Hb & Eb)].
    eexists stateb, _. split; [done|]. split; [by rewrite Hslots, list_lookup_imap, Hstate|].
    split; [done|]. destruct (stands_moves _ _ _ _ _ Hs (Hread i Hi)) as [H1 H2]. done.
  - split; [congruence|]. split; congruence.
  - intros n. destruct (Hbr n) as (sln & H1 & H2 & H3 & _ & H5). exists sln.
    do 2 (split; [done|]). split; [congruence|]. intros i Hi. apply H5. by apply Hids.
  - intros i Hi. apply (tracks_done i slm sl'); [by rewrite Esl|done|done|].
    destruct (Hin i) as (st' & _ & Hs'); [by apply Hids|]. apply Hs'.
  - intros Hw. rewrite <-!(total_lag_perm _ _ _ _ Hperm). apply Hlag.
    intros i st _. apply Hw.
Qed.

(** The name of the session is not given again. *)
Lemma round_issued rnd now count hello_view view p m id sl max_frames
    r slots b completed m' slb slm sl' session :
  round rnd now count hello_view view m id sl max_frames r slots b completed m' slb slm sl' →
  linked m id sl p → (rp_reset r = true → 0 <= ms_next_session_seq_ m < UINT64_MAX) →
  session = sl_session_id_ sl ∨ session = rp_session_id r → ¬ unissued m' id session.
Proof.
  intros R [_ Hiss] Hnext Hsession. destruct (rd_issues R) as [Hep Hr].
  assert (rp_reset r = true → ms_next_session_seq_ m +u 1 = ms_next_session_seq_ m + 1) as Eu
    by (intros E; specialize (Hnext E); u64_lia).
  assert (¬ unissued m' id (sl_session_id_ sl)) as Hold.
  { intros (k & Hk & E). apply Hiss. exists k. rewrite <-Hep. split; [|done].
    destruct (rp_reset r); [destruct Hr as [_ Hr]; rewrite Hr, Eu in Hk by done|rewrite Hr in Hk]; lia. }
  destruct Hsession as [->| ->]; [done|].
  destruct (rp_reset r) eqn:Er.
  - destruct Hr as [-> Hn]. specialize (Hnext eq_refl). specialize (Eu eq_refl).
    rewrite <-Hep. apply issued_once; lia.
  - by destruct (rd_cont R Er) as (-> & _).
Qed.

(** Whatever moment the connection breaks at, the primary and the replica are
    linked again. *)
Lemma round_linked rnd now count hello_view view p after m id sl max_frames
    r slots b completed m' slb slm sl' n :
  round rnd now count hello_view view m id sl max_frames r slots b completed m' slb slm sl' →
  answering count hello_view view p after → slave_ok sl → length (sl_slots_ sl) = count →
  linked m id sl p → 0 <= ms_next_session_seq_ m < UINT64_MAX →
  ∃ sln, enqueue_all rnd now
      (take n (Frame_Begin (rp_session_id r) (rp_reset r) ::
                 bd_frames b ++ [Frame_Done (rp_session_id r) completed])) sl = Some sln ∧
    slave_ok sln ∧ length (sl_slots_ sln) = count ∧ linked m' id sln after ∧
    (n ≠ 0%nat → ∀ i, (i < count)%nat → tracks i sln (after i)).
Proof.
  intros R A Hok Hl Hlink Hnext. destruct n as [|n]; cbn [take enqueue_all].
  - exists sl. do 3 (split; [done|]). split; [|done].
    split; [|by eapply round_issued; [exact R|done| |left]].
    intros r1 Hr1 Hne Es. destruct (rd_session R) as (r2 & Hr2 & Es2).
    assert (rp_session_id r = sl_session_id_ sl) as Er by congruence.
    destruct (rp_reset r) eqn:Ereset.
    + exfalso. apply (ld_issued _ _ _ _ Hlink). pose proof (rd_issues R) as [_ Hi].
      rewrite Ereset in Hi. destruct Hi as [Hi _]. exists (ms_next_session_seq_ m).
      split; [lia|congruence].
    + destruct (rd_cont R Ereset) as (_ & (r0 & Hr0 & Es0) & _).
      pose proof (ld_session _ _ _ _ Hlink r0 Hr0 ltac:(congruence) ltac:(congruence)) as Ht.
      intros i Hi. rewrite Hl in *. eapply tracks_moves; [|by apply (an_after _ _ _ _ _ A)].
      eapply tracks_moves; [by apply Ht|by apply (an_read _ _ _ _ _ A)].
  - rewrite (rd_begin R). cbn [mbind option_bind].
    assert (∀ sln, serving (rp_session_id r) sln → length (sl_slots_ sln) = count →
      (∀ i, (i < count)%nat → tracks i sln (view i 4%nat)) →
      slave_ok sln ∧ length (sl_slots_ sln) = count ∧ linked m' id sln after ∧
      (S n ≠ 0%nat → ∀ i, (i < count)%nat → tracks i sln (after i))) as Hfinal.
    { intros sln Hsv Hc Ht.
      assert (∀ i, (i < count)%nat → tracks i sln (after i)) as Ht'.
      { intros i Hi. eapply tracks_moves; [by apply Ht|]. by apply (an_after _ _ _ _ _ A). }
      split; [apply Hsv|]. split; [done|]. split; [|done]. split.
      - intros r' _ _ _. by rewrite Hc.
      - rewrite (sv_session _ _ Hsv). by eapply round_issued; [exact R|done| |right]. }
    rewrite take_app. destruct (decide (n <= length (bd_frames b))%nat) as [Hle|Hgt].
    + replace (n - length (bd_frames b))%nat with 0%nat by lia. rewrite take_0, app_nil_r.
      destruct (rd_broken R n) as (sln & H1 & H2 & H3 & H4).
      exists sln. split; [done|]. by apply Hfinal.
    + rewrite firstn_all2 by lia.
      rewrite (firstn_all2 [_]) by (cbn; lia).
      rewrite (enqueue_all_app _ _ _ _ _ _ (rd_batch R)). cbn [enqueue_all]. rewrite (rd_done R).
      exists sl'. split; [done|]. apply Hfinal; [apply R..|]. exact (rd_tracks R).
Qed.

(** ** A round over the link *)

(** The answer to a poll is one BEGIN, frames with data, and one DONE. *)
Lemma round_answer rnd now count hello_view view m id sl max_frames
    r slots b completed m' slb slm sl' :
  round rnd now count hello_view view m id sl max_frames r slots b completed m' slb slm sl' →
  answer_rest false (Frame_Begin (rp_session_id r) (rp_reset r) ::
                       bd_frames b ++ [Frame_Done (rp_session_id r) completed]).
Proof.
  intros R. destruct (build_loop_grows payload_frame _ _ _ _ _ _ (λ i _, slot_payload_frames _ i _) (rd_loop R))
    as (f & Hf & Hp).
  cbn [fst snd bd_frames] in Hf. rewrite app_nil_l in Hf. subst f.
  exists (Frame_Begin (rp_session_id r) (rp_reset r) :: bd_frames b),
    (Frame_Done (rp_session_id r) completed).
  split; [done|]. split; [done|]. split.
  - constructor; [done|]. eapply Forall_impl; [exact Hp|]. intros g [Hg|Hg]; by rewrite Hg.
  - split; [done|]. eapply Forall_impl; [exact Hp|]. intros g [Hg|Hg]; by rewrite Hg.
Qed.

Lemma round_enqueued rnd now count hello_view view m id sl max_frames
    r slots b completed m' slb slm sl' :
  round rnd now count hello_view view m id sl max_frames r slots b completed m' slb slm sl' →
  enqueue_all rnd now (Frame_Begin (rp_session_id r) (rp_reset r) ::
                         bd_frames b ++ [Frame_Done (rp_session_id r) completed]) sl = Some sl'.
Proof.
  intros R. cbn [enqueue_all]. rewrite (rd_begin R). cbn [mbind option_bind].
  rewrite (enqueue_all_app _ _ _ _ _ _ (rd_batch R)). cbn [enqueue_all]. by rewrite (rd_done R).
Qed.
#[global] Arguments round_enqueued {rnd now count hello_view view m id sl max_frames r slots b completed m' slb slm sl'} _.

(** The primary answers the HELLO that [PollReplicaOnce] sends; any part of
    the answer arrives, cut in any way. *)
Lemma Poll_over_link rnd now count hello_view view p after m id sl max_frames :
  master_ok count m → slave_ok sl → length (sl_slots_ sl) = count → is_u64 now → id ≠ "" →
  answering count hello_view view p after → linked m id sl p →
  0 <= ms_next_session_seq_ m < UINT64_MAX →
  ∃ frames m', Poll hello_view view count m
      (BuildHelloFrame id (sl_session_id_ sl) sl kProtocolVersion) max_frames = Some (frames, m') ∧
    master_ok count m' ∧
    (size_of (wire frames) <= 256 * 1024 * 1024 →
     Forall (transmissible (RespCodec.limits_ (lk_codec (new_link sl)))) frames →
     ∀ port writes reads missing, port ≠ 0 → received reads +:+ missing = wire frames →
     ∃ b sent sln, PollReplicaOnce true writes reads rnd now port id sl = Some (b, sent, sln) ∧
       slave_ok sln ∧ length (sl_slots_ sln) = count ∧ linked m' id sln after ∧
       (b = true → ∀ i, (i < count)%nat → tracks i sln (after i)) ∧
       (∃ rest, EncodeFrame (BuildHelloFrame id (sl_session_id_ sl) sl kProtocolVersion) =
          sent +:+ rest ∧ (missing = "" → rest = "" → b = true))).
Proof.
  intros Hm Hok Hl Hn Hid Ha Hlink Hnext.
  destruct (Poll_round rnd now count hello_view view p after m id sl max_frames)
    as (r & slots & b & completed & m' & slb & slm & sl' & R); try done.
  eexists _, m'. split; [apply (rd_poll R)|]. split; [apply (rd_master R)|].
  intros Hsize Htr port writes reads missing Hport Hrec.
  pose proof (round_enqueued R) as Hen. set (frames := Frame_Begin _ _ :: _) in *.
  destruct (PollReplicaOnce_answer writes reads rnd now port id sl frames sl' missing)
    as (ok & sent & n & sln & E & Hpre & Hsent & Hall); try done; [by eapply round_answer|].
  destruct (round_linked rnd now count hello_view view p after m id sl max_frames
    r slots b completed m' slb slm sl' n R Ha Hok Hl Hlink Hnext)
    as (sln' & Hpre' & Hok' & Hl' & Hlink' & Ht).
  fold frames in Hpre'. rewrite Hpre in Hpre'. injection Hpre' as <-.
  exists ok, sent, sln. do 4 (split; [done|]). split; [|done].
  intros Hb. apply Ht. specialize (Hall Hb). unfold frames in Hall. cbn in Hall. lia.
Qed.

End polling.
