(* ===== verification/Sessions.v ===== *)
(** * The names of sessions

    A primary names its sessions after its epoch, two random numbers drawn
    when it starts, the replica, and a counter: [NewSessionId] of
    master_replicator.cpp. Every session it holds has such a name, so a name
    of another epoch, which a replica keeps from the life of the primary
    before a restart, is one it does not know. *)

From S2P Require Import Prelude Text Containers RedisObject Binlog HashSlot Engine Response Command Dispatcher Resp ReplFrame SnapshotCodec Slave Convergence Master Shipping Socket Link Round Polling.

Section sessions.
Context {IC : ImmutableContainer} {RL : RespLib}.

Definition session_name (epoch id : string) (k : Z) : string :=
  epoch +:+ "-" +:+ id +:+ "-" +:+ to_string k.

(** A name of the primary's epoch, given or still to be given. *)
Definition named_by (m : MasterReplicator) (id session : string) : Prop :=
  ∃ k, is_u64 k ∧ session = session_name (ms_epoch_ m) id k.

Definition session_named (m : MasterReplicator) (r : ReplicaSession) : Prop :=
  rp_session_id r = "" ∨ named_by m (rp_replica_id r) (rp_session_id r).
Definition names_ok (m : MasterReplicator) : Prop := Forall (session_named m) (ms_replicas_ m).

Lemma unissued_named m id session :
  0 <= ms_next_session_seq_ m → unissued m id session → named_by m id session.
Proof. intros Hn (k & Hk & ->). exists k. unfold is_u64. split; [lia|done]. Qed.

Lemma named_epoch m m' id session :
  ms_epoch_ m' = ms_epoch_ m → named_by m' id session ↔ named_by m id session.
Proof. intros E. unfold named_by. by rewrite E. Qed.

Lemma names_ok_new r1 r2 : names_ok (MasterReplicator_new r1 r2).
Proof. constructor. Qed.

Lemma names_ok_set m i r : names_ok m → session_named m r → names_ok (set_replica m i r).
Proof. intros Hm Hr. by apply Forall_insert. Qed.

Lemma names_ok_fmap m f :
  names_ok m → (∀ r, rp_replica_id (f r) = rp_replica_id r ∧ rp_session_id (f r) = rp_session_id r) →
  names_ok (with_replicas m (f <$> ms_replicas_ m)).
Proof.
  intros Hm Hf. apply Forall_fmap. eapply Forall_impl; [exact Hm|]. intros r Hr. unfold compose.
  unfold session_named in *. destruct (Hf r) as [-> ->]. exact Hr.
Qed.

(** A HELLO gives a name of the epoch, or keeps the name of a session. *)
Lemma OnHello_names view count m hello i m' :
  names_ok m → is_u64 (ms_next_session_seq_ m) →
  OnHelloUnlocked view count m hello = Some (i, m') →
  names_ok m' ∧ ms_epoch_ m' = ms_epoch_ m.
Proof.
  intros Hm Hn. unfold OnHelloUnlocked. destruct (negb _); [done|].
  set (id := fr_replica_id hello).
  destruct (FindReplica m id) as [j|] eqn:Ej.
  - destruct (FindReplica_Some _ _ _ Ej) as (r & Hr & Hid). rewrite Hr. cbn [mbind option_bind].
    destruct (_ || _); intros [= <- <-]; (split; [|done]); apply names_ok_set; try done.
    + right. rewrite <-Hid. by eexists.
    + unfold names_ok in Hm. rewrite Forall_lookup in Hm. specialize (Hm j r Hr).
      unfold session_named in *. cbn [rp_session_id rp_replica_id]. by rewrite <-Hid.
  - cbn [mbind option_bind ms_replicas_]. rewrite list_lookup_middle by done. cbn [mbind option_bind].
    cbn [rp_session_id]. cbn [String.eqb orb NewSessionId]. intros [= <- <-]. split; [|done].
    apply names_ok_set.
    + apply Forall_app. split; [done|]. constructor; [by left|done].
    + right. by eexists.
Qed.

Lemma Poll_names hello_view view count m hello max_frames frames m' :
  names_ok m → is_u64 (ms_next_session_seq_ m) →
  Poll hello_view view count m hello max_frames = Some (frames, m') →
  names_ok m' ∧ ms_epoch_ m' = ms_epoch_ m.
Proof.
  intros Hm Hn. unfold Poll. destruct (_ || _ || _); [by intros [= _ <-]|].
  destruct (OnHelloUnlocked _ _ _ _) as [[i m1]|] eqn:E; [|done]. cbn [mbind option_bind].
  destruct (OnHello_names _ _ _ _ _ _ Hm Hn E) as [Hm1 He].
  destruct (ms_replicas_ m1 !! i) as [r|] eqn:Hr; [|done]. cbn [mbind option_bind].
  unfold BuildFrames. destruct (build_loop _ _ _ _ _) as [[[slots b] completed]|]; [|done].
  cbn [mbind option_bind]. intros [= _ <-]. split; [|done]. apply names_ok_set; [done|].
  unfold names_ok in Hm1. rewrite Forall_lookup in Hm1. exact (Hm1 i r Hr).
Qed.

(** A replica whose session is of another epoch is linked to the primary: it
    will be told to start over. *)
Lemma foreign_linked {HI : History} m id sl p :
  names_ok m → 0 <= ms_next_session_seq_ m → ¬ named_by m id (sl_session_id_ sl) → linked m id sl p.
Proof.
  intros Hm Hn Hf. split; [|intros H; by apply Hf, unissued_named].
  intros r Hr Hne Hs. exfalso. apply Hf. unfold SessionOf in Hr.
  destruct (FindReplica m id) as [k|] eqn:Ek; [|done]. cbn in Hr.
  destruct (FindReplica_Some _ _ _ Ek) as (r' & Hr' & Hid).
  rewrite Hr in Hr'. injection Hr' as <-.
  unfold names_ok in Hm. rewrite Forall_lookup in Hm. rewrite <-Hs, <-Hid.
  by destruct (Hm k r Hr).
Qed.
End sessions.
