(* ===== verification/CatchUp.v ===== *)
(** * A replica catches up

    Once the primary's slots are left alone, every poll that finds the
    replica behind carries at least one frame, and every frame takes the
    replica forward: after finitely many polls all slots have the primary's
    data and serve reads. *)

From S2P Require Import Prelude Text Containers Double RedisObject Binlog HashSlot Engine Response Command Dispatcher Replay Resp ReplFrame SnapshotCodec Slave Convergence Master Shipping Socket Link Round Polling.

Section catch_up.
Context {IC : ImmutableContainer} {RL : RespLib} {CL : ContainerLaws IC} {RW : RespLaws RL}.
Context {HI : History}.

(** ** Slots left alone *)

Lemma primary_run_acks i p p' :
  primary_run i p [] p' → slot_map p' = slot_map p ∧ slot_seq_ p' = slot_seq_ p.
Proof.
  remember [] as evs eqn:E. induction 1 as [s _|s ev s1 evs s2|s seq evs s2 _ Hr IH]; [done|done|].
  by apply IH.
Qed.

(** A slot that lacks nothing is in sync. *)
Lemma lag_zero i sl p :
  (i < length (sl_slots_ sl))%nat → tracks i sl p → lag i sl p = 0%nat →
  in_sync i sl p ∧ ∃ state, sl_slots_ sl !! i = Some state ∧ sa_need_snapshot state = false ∧
    sa_applied_seq state = slot_seq_ p.
Proof.
  intros Hi [(state & Hst & Hneed)|(p0 & evs & Hb)] Hlag.
  { unfold lag in Hlag. by rewrite Hst, Hneed in Hlag. }
  rewrite (lag_behind _ _ _ _ _ Hb) in Hlag. apply length_zero_iff_nil in Hlag as ->.
  destruct Hb as [(state & slot & H1 & H2 & H3 & H4 & H5) Hr _ _ _].
  apply primary_run_acks in Hr as [Em Es].
  split; [exists state, slot; by rewrite Em, Es|]. exists state. by rewrite Es.
Qed.

(** The backlog of a slot reaches back to its own end. *)
Lemma HasBacklog_end i p : written i p → HasBacklog (quiet p) (slot_seq_ p +u 1) = true.
Proof.
  intros [Hok _ [H0 Hmax]]. unfold INT64_MAX in Hmax.
  assert (slot_seq_ p +u 1 = slot_seq_ p + 1) as -> by u64_lia.
  apply (HasBacklog_spec i); [done|unfold UINT64_MAX; lia|lia|].
  rewrite (BinlogBuffer.consecutive_newer _ (slot_seq_ p)) by apply Hok.
  rewrite length_drop. pose proof (so_log_length _ _ Hok). lia.
Qed.

Lemma hello_end i p :
  written i p →
  hello_slot (quiet p) false (slot_seq_ p) = mkReplicaSlot (slot_seq_ p) (slot_seq_ p) false.
Proof.
  intros Hw. unfold hello_slot. cbv zeta iota. rewrite (HasBacklog_end i p Hw).
  change (snap_published_seq (Snapshot (quiet p 0%nat))) with (published_seq_ p).
  by rewrite (so_published _ _ (wr_ok _ _ Hw)), Z.gtb_ltb, Z.ltb_irrefl.
Qed.

(** The image of a slot left alone is sent only to a replica that lacks
    something. *)
Lemma wants_image_lags i sl stateb p st :
  written i p → (i < length (sl_slots_ sl))%nat → sl_slots_ sl !! i = Some stateb →
  st = hello_slot (quiet p) false (slave_position stateb) → tracks i sl p →
  wants_image (quiet p) st = true → (0 < lag i sl p)%nat.
Proof.
  intros Hw Hi Hst -> Ht Hwant. destruct (lag i sl p) eqn:Hlag; [exfalso|lia].
  destruct (lag_zero i sl p Hi Ht Hlag) as (_ & state & Hst' & Hneed & Happ).
  rewrite Hst in Hst'. injection Hst' as <-.
  unfold slave_position in Hwant. rewrite Hneed, Happ, (hello_end i p Hw) in Hwant.
  unfold wants_image in Hwant. cbn [rs_need_snapshot rs_sent_seq orb] in Hwant.
  by rewrite (HasBacklog_end i p Hw) in Hwant.
Qed.

(** ** A batch without frames *)

(** A slot that puts nothing into an empty batch lacks nothing. *)
Lemma serve_slot_idle session max_frames i sl p st b st' target b' :
  written i p → (0 < max_frames)%nat → agreed i sl p st →
  bd_frames b = [] → bd_full b = false → bd_payload_bytes b = 0 →
  serve_slot (quiet p) session max_frames i st b = Some (st', target, b') → bd_frames b' = [] →
  lag i sl p = 0%nat ∧ st' = st ∧ rs_need_snapshot st' = false ∧ target = slot_seq_ p ∧ b' = b.
Proof.
  intros Hw Hmax Ha Hb Hfull Hbytes E Hb'. unfold serve_slot in E.
  assert (∀ n, fits b n = true) as Hfits by (intros n; unfold fits; by rewrite Hb).
  destruct (rs_need_snapshot st || negb (HasBacklog (quiet p) (rs_sent_seq st +u 1))) eqn:Ewant.
  { destruct (BuildSnapshotFrame _ _ _) as [frame|]; [|done]. cbn [mbind option_bind] in E.
    rewrite Hfits in E. cbn [negb] in E. injection E as <- <- <-. cbn in Hb'.
    by destruct (bd_frames b). }
  apply orb_false_iff in Ewant as [Hneed Hback]. apply negb_false_iff in Hback.
  destruct Ha as [Ha|(p0 & evs & Hbh & Hsent)]; [congruence|].
  pose proof (behind_seq _ _ _ _ _ Hbh) as Hseq. pose proof (wr_ok _ _ Hw) as Hok.
  pose proof (so_seq _ _ (bh_ok _ _ _ _ _ Hbh)) as [Hp0 _]. destruct (wr_seq _ _ Hw) as [_ Hp].
  unfold INT64_MAX in Hp. assert (rs_sent_seq st +u 1 = slot_seq_ p0 + 1) as Eu
    by (rewrite Hsent; u64_lia).
  rewrite Eu in Hback. apply (HasBacklog_spec i) in Hback; [|done|unfold UINT64_MAX; lia|lia].
  rewrite Z.add_simpl_r, <-Hsent in Hback.
  rewrite (lag_behind _ _ _ _ _ Hbh).
  unfold CopyLogsAfter in E. rewrite Hb, Hbytes in E. cbn [length] in E.
  set (limit := Nat.min kLogsPerSlot (max_frames - 0)) in *.
  assert (limit ≠ 0%nat) as Hlimit by (unfold limit, kLogsPerSlot; lia).
  unfold quiet in E at 2.
  destruct (BinlogBuffer.CopyAfter_spec (binlog_buffer_ p) (rs_sent_seq st) limit
    (kMaxBatchPayloadBytes - 0)) as (rest & Hnew & _ & _ & Hsome & _).
  destruct (BinlogBuffer.CopyAfter _ _ _ _) as [|log logs].
  - cbn [send_logs] in E. injection E as <- <- <-.
    destruct (BinlogBuffer.newer _ _) as [|r l]; [|by destruct (Hsome Hlimit)].
    cbn in Hback. split; [lia|]. do 2 (split; [done|]). split; [|done].
    apply (so_published _ _ Hok).
  - exfalso. clear Hsome.
    assert (rec_seq log = rs_sent_seq st + 1) as Hlog.
    { pose proof (BinlogBuffer.newer_consecutive _ _ (rs_sent_seq st) (so_consecutive _ _ Hok)) as Hc.
      rewrite Hnew in Hc, Hback. cbn in Hc, Hback. destruct Hc as [Hc _]. lia. }
    assert (rec_seq log <= slot_seq_ p) as Hle.
    { pose proof (BinlogBuffer.newer_consecutive _ _ (rs_sent_seq st) (so_consecutive _ _ Hok)) as Hc.
      rewrite Hnew in Hc. cbn in Hc. destruct Hc as [Hc _]. lia. }
    cbn [send_logs] in E. change (snap_published_seq (Snapshot (quiet p 0%nat))) with (published_seq_ p) in E.
    rewrite (so_published _ _ Hok), Z.gtb_ltb, (proj2 (Z.ltb_ge _ _)) in E by done.
    assert (rs_sent_seq st +u 1 = rec_seq log) as Eu' by (rewrite Eu; lia).
    rewrite Eu', Z.eqb_refl, Hfits in E. cbn [negb] in E.
    match type of E with context [send_logs ?a ?b ?c ?d ?e ?f] =>
      destruct (send_logs_grows (λ _, True) a b c d e f (λ _ _, I)) as (fs & Hfs & _); destruct (send_logs a b c d e f) end.
    injection E as <- <- <-. cbn in Hfs. rewrite Hfs in Hb'. by destruct (bd_frames b).
Qed.

(** A batch that stays empty: every slot lacks nothing and is reported. *)
Lemma build_loop_idle p session max_frames sl ids slots b fin slots' b' fin' :
  NoDup ids → (0 < max_frames)%nat →
  (∀ i, i ∈ ids → written i (p i) ∧ ∃ st, slots !! i = Some st ∧ agreed i sl (p i) st) →
  bd_frames b = [] → bd_full b = false → bd_payload_bytes b = 0 →
  build_loop (λ i, quiet (p i)) session max_frames ids (slots, b, fin) = Some (slots', b', fin') →
  bd_frames b' = [] →
  (∀ i, i ∈ ids → lag i sl (p i) = 0%nat) ∧
  fin' = fin ++ ((λ i, (Z.of_nat i, slot_seq_ (p i))) <$> ids).
Proof.
  intros Hnd Hmax. revert slots b fin.
  induction Hnd as [|i ids Hi Hnd IH]; intros slots b fin Hids Hb Hfull Hbytes E Hb'.
  { injection E as <- <- <-. split; [intros i Hi; by apply not_elem_of_nil in Hi|by rewrite app_nil_r]. }
  cbn [build_loop] in E. destruct (build_slot _ _ _ _ _) as [[[slots1 b1] fin1]|] eqn:E1; [|done].
  cbn [mbind option_bind] in E. pose proof (build_loop_grows payload_frame _ _ _ _ _ _ (λ i _, slot_payload_frames _ i _) E)
    as (f & Hf & _).
  cbn [fst snd] in Hf. rewrite Hb' in Hf. symmetry in Hf. apply app_eq_nil in Hf as [Hb1 _].
  destruct (Hids i ltac:(by left)) as (Hw & st & Hst & Ha).
  unfold build_slot in E1. rewrite Hst in E1. cbn [mbind option_bind] in E1.
  rewrite Hfull, Hb in E1. cbn [length negb andb] in E1.
  rewrite (proj2 (Nat.ltb_lt _ _)) in E1 by done.
  destruct (serve_slot _ _ _ _ _ _) as [[[st' target] b2]|] eqn:Es; [|done].
  cbn [mbind option_bind] in E1. injection E1 as <- <- <-.
  assert (bd_frames b2 = []) as Hb2 by (by destruct (_ && _) in Hb1).
  destruct (serve_slot_idle session max_frames i sl (p i) st b st' target b2 Hw Hmax Ha Hb Hfull
    Hbytes Es Hb2) as (Hlag & -> & Hneed & -> & ->).
  rewrite Hfull, Hb, Hbytes, Hneed in E. cbn [length negb andb orb] in E.
  rewrite (proj2 (Nat.leb_gt _ _)) in E by done.
  change (0 >=? kMaxBatchPayloadBytes) with false in E. cbn [orb] in E.
  apply IH in E as [Hl ->]; [| |done|done|done|done].
  - split; [by intros j [->|Hj]%elem_of_cons; [|apply Hl]|]. cbn. by rewrite <-app_assoc.
  - intros j Hj. destruct (Hids j ltac:(by right)) as (Hwj & stj & Hstj & Haj). split; [done|].
    exists stj. split; [|done]. rewrite list_lookup_insert_ne; [done|]. by intros ->.
Qed.

(** ** Coming online *)

Lemma done_state_keeps state position :
  sa_applied_seq (done_state state position) = sa_applied_seq state ∧
  sa_need_snapshot (done_state state position) = sa_need_snapshot state.
Proof. unfold done_state. by destruct (sa_need_snapshot state) eqn:E. Qed.

(** DONE puts the slots it names online that have applied its position. *)
Lemma done_slots_online positions slots i :
  Forall (λ '(slot, position), 0 <= slot ∧ ∃ state, slots !! Z.to_nat slot = Some state ∧
    sa_need_snapshot state = false ∧ position <= sa_applied_seq state) positions →
  (Z.of_nat i ∈ positions.*1 ∨ ∃ state, slots !! i = Some state ∧ sa_state state = kOnline) →
  ∃ state, (done_slots positions slots).2 !! i = Some state ∧ sa_state state = kOnline.
Proof.
  revert slots. induction positions as [|[slot position] positions IH]; intros slots Hall Hi; cbn.
  { destruct Hi as [Hi|Hi]; [by apply not_elem_of_nil in Hi|done]. }
  apply Forall_cons in Hall as [(H0 & state & Hst & Hneed & Hle) Hall].
  pose proof (lookup_lt_Some _ _ _ Hst) as Hlt.
  rewrite Z.geb_leb, (proj2 (Z.leb_gt _ _)) by lia. apply IH.
  - eapply Forall_impl; [exact Hall|]. intros [slot2 position2] (H2 & st2 & Hst2 & Hn2 & Hle2).
    split; [done|]. destruct (decide (Z.to_nat slot = Z.to_nat slot2)) as [Hs|Hs].
    + eexists. rewrite Hs, list_lookup_alter_eq, Hst2. split; [reflexivity|].
      destruct (done_state_keeps st2 position) as [-> ->]. done.
    + exists st2. by rewrite list_lookup_alter_ne.
  - destruct (decide (Z.to_nat slot = i)) as [<-|Hne].
    + right. eexists. rewrite list_lookup_alter_eq, Hst. split; [reflexivity|].
      unfold done_state. rewrite Hneed. rewrite Z.geb_leb, (proj2 (Z.leb_le _ _)) by done. done.
    + destruct Hi as [Hi|(st2 & Hst2 & Hon)].
      * cbn in Hi. apply elem_of_cons in Hi as [Hi|Hi]; [lia|by left].
      * right. exists st2. by rewrite list_lookup_alter_ne.
Qed.

(** ** Polls, one after another *)

(** One successful poll of a primary whose slots are left alone. *)
Definition poll_once (rnd : nat → nat) (now : Z) (count : nat) (p : nat → HashSlot) (id : string)
    (max_frames : nat) (st : MasterReplicator * SlaveReplicator)
    : option (MasterReplicator * SlaveReplicator) :=
  let view i := quiet (p i) in
  let sl := st.2 in
  '(frames, m') ← Poll view view count st.1
    (BuildHelloFrame id (sl_session_id_ sl) sl kProtocolVersion) max_frames;
  sl' ← enqueue_all rnd now frames sl;
  Some (m', sl').

Fixpoint polls (rnd : nat → nat) (clock : nat → Z) (count : nat) (p : nat → HashSlot) (id : string)
    (max_frames n : nat) (st : MasterReplicator * SlaveReplicator)
    : option (MasterReplicator * SlaveReplicator) :=
  match n with
  | O => Some st
  | S n' =>
      st' ← poll_once rnd (clock 0%nat) count p id max_frames st;
      polls rnd (λ k, clock (S k)) count p id max_frames n' st'
  end.

(** The slots of a primary, left alone. *)
Record settled (count : nat) (p : nat → HashSlot) : Prop := {
  se_ok i : slot_ok i (p i);
  se_born i : (i < count)%nat → moves i HashSlot_new (p i);
  se_sendable i : (i < count)%nat → sendable i (p i);
}.

Lemma settled_answering count p :
  settled count p → answering count (λ i, quiet (p i)) (λ i, quiet (p i)) p p.
Proof.
  intros [H1 H2 H3].
  assert (∀ i, (i < count)%nat → moves i (p i) (p i)) as Hr by (intros i Hi; by apply moves_refl; [eapply moves_end, H2|apply H3]).
  split; auto. intros i k. apply H1.
Qed.

Lemma settled_written count p i : settled count p → (i < count)%nat → written i (p i).
Proof.
  intros [H1 H2 H3] Hi. destruct (H3 i Hi) as [Hok Hl Hs _ _]. split; [done|done|].
  split; [apply Hok|done].
Qed.

(** A primary and a replica in a session of theirs. *)
Record attached (count : nat) (m : MasterReplicator) (id : string) (sl : SlaveReplicator)
    (p : nat → HashSlot) : Prop := {
  at_master : master_ok count m;
  at_slave : slave_ok sl;
  at_count : length (sl_slots_ sl) = count;
  at_session : ∃ r, SessionOf m id = Some r ∧ rp_session_id r ≠ "" ∧
                    rp_session_id r = sl_session_id_ sl;
  at_tracks i : (i < count)%nat → tracks i sl (p i);
  at_issued : ¬ unissued m id (sl_session_id_ sl);
}.

Lemma attached_linked count m id sl p : attached count m id sl p → linked m id sl p.
Proof. intros [H1 H2 H3 H4 H5 H6]. split; [|done]. intros r _ _ _. by rewrite H3. Qed.

(** No replica lacks more than everything. *)
Definition lag_bound (count : nat) (p : nat → HashSlot) : nat :=
  sum_list_with (λ i, S (Z.to_nat (slot_seq_ (p i)))) (seq 0 count).

Lemma total_lag_bound count p sl :
  slave_ok sl → (total_lag p (seq 0 count) sl <= lag_bound count p)%nat.
Proof.
  intros Hok. unfold total_lag, lag_bound. induction (seq 0 count) as [|i l IH]; [done|].
  cbn. enough (lag i sl (p i) <= S (Z.to_nat (slot_seq_ (p i))))%nat by lia.
  unfold lag. destruct (sl_slots_ sl !! i) as [state|] eqn:Hst; [|lia].
  destruct (sa_need_snapshot state); [lia|].
  destruct (slave_slot sl i state Hok Hst) as (slot & _ & [Hu _] & _). lia.
Qed.

Lemma total_lag_zero q ids sl :
  (∀ i, i ∈ ids → lag i sl (q i) = 0%nat) ↔ total_lag q ids sl = 0%nat.
Proof.
  unfold total_lag. induction ids as [|i ids IH]; cbn.
  - split; [done|]. intros _ i Hi. by apply not_elem_of_nil in Hi.
  - split.
    + intros H. rewrite (H i) by (by left). cbn. apply IH. intros j Hj. apply H. by right.
    + intros H j [->|Hj]%elem_of_cons; [lia|]. apply IH; [lia|done].
Qed.

(** A poll takes the replica forward, or finds it up to date and puts every
    slot online. *)
Lemma quiet_poll rnd now count p m id sl max_frames :
  settled count p → (0 < max_frames)%nat → is_u64 now → id ≠ "" →
  master_ok count m → slave_ok sl → length (sl_slots_ sl) = count → linked m id sl p →
  attached count m id sl p ∨ 0 <= ms_next_session_seq_ m < UINT64_MAX →
  ∃ m' sl' before, poll_once rnd now count p id max_frames (m, sl) = Some (m', sl') ∧
    attached count m' id sl' p ∧ (before <= lag_bound count p)%nat ∧
    (attached count m id sl p → before = total_lag p (seq 0 count) sl) ∧
    ((total_lag p (seq 0 count) sl' < before)%nat ∨
     before = 0%nat ∧ total_lag p (seq 0 count) sl' = 0%nat ∧
     ∀ i, (i < count)%nat → CanReadSlot sl' i = true).
Proof.
  intros Hset Hmax Hn Hid Hm Hok Hl Hlink Hnext.
  destruct (Poll_round rnd now count _ _ p p m id sl max_frames Hm Hok Hl Hn Hid
    (settled_answering _ _ Hset) Hlink) as (r & slots & b & completed & m' & slb & slm & sl' & R).
  destruct (rd_serving R) as (Hsvb & Hsvm & Hsv'). destruct (rd_count R) as (Hcb & Hcm & Hc').
  assert (total_lag p (seq 0 count) sl' = total_lag p (seq 0 count) slm) as Edone.
  { unfold total_lag. induction (seq 0 count) as [|i l IH]; [done|]. cbn. f_equal; [|done].
    unfold lag. destruct (sl_slots_ sl' !! i) as [state'|] eqn:E'.
    - by destruct (rd_done_same R i state' E') as (state & -> & -> & ->).
    - apply lookup_ge_None in E'. by rewrite (proj2 (lookup_ge_None _ _)) by lia. }
  exists m', sl', (total_lag p (seq 0 count) slb). split; [|split; [|split; [|split]]].
  - unfold poll_once. cbn [fst snd]. rewrite (rd_poll R). cbn [mbind option_bind].
    by rewrite (round_enqueued R).
  - split; [apply (rd_master R)|apply Hsv'|done| |apply (rd_tracks R)|].
    + destruct (rd_session R) as (r' & Hr' & Es). exists r'. rewrite Es.
      split; [done|]. split; [apply Hsv'|]. symmetry. apply Hsv'.
    + rewrite (sv_session _ _ Hsv'). eapply round_issued; [exact R|done| |by right].
      intros Hreset. destruct Hnext as [[_ _ _ (r0 & Hr0 & Hne & Es) _ _]|Hnext]; [|done].
      by rewrite (rd_keep R r0 Hr0 Hne Es) in Hreset.
  - apply total_lag_bound, Hsvb.
  - intros [_ _ _ (r0 & Hr0 & Hne & Es) _ _].
    destruct (rd_cont R (rd_keep R r0 Hr0 Hne Es)) as (_ & _ & ->). done.
  - rewrite Edone. destruct (bd_frames b) as [|f fs] eqn:Ebatch.
    + right. pose proof (rd_batch R) as Eb. rewrite Ebatch in Eb. injection Eb as <-.
      edestruct (build_loop_idle p (rp_session_id r) max_frames slb) as [Hzero Ecomp];
        [|exact Hmax| |..|exact (rd_loop R)|exact Ebatch|]; try done.
      { rewrite rotation_perm. apply NoDup_seq. }
      { intros i Hi. rewrite rotation_perm, elem_of_seq in Hi.
        split; [by apply (settled_written count); [|lia]|].
        destruct (rd_stands R i) as (stateb & st & _ & Hst & _ & Ha & _); [lia|]. by exists st. }
      assert (∀ i, i ∈ seq 0 count → lag i slb (p i) = 0%nat) as Hz.
      { intros i Hi. apply Hzero. by rewrite rotation_perm. }
      assert (total_lag p (seq 0 count) slb = 0%nat) as Ez by (by apply total_lag_zero).
      split; [done|]. split; [done|]. intros i Hi. unfold CanReadSlot.
      rewrite (rd_done_slots R). cbn.
      destruct (done_slots_online completed (sl_slots_ slb) i) as (state & -> & Hon);
        [| |by apply bool_decide_eq_true].
      * rewrite Ecomp. apply Forall_fmap, Forall_forall. intros j Hj. rewrite rotation_perm in Hj.
        pose proof (Hz j Hj) as Hzj. apply elem_of_seq in Hj. cbn. split; [lia|].
        destruct (rd_stands R j) as (_ & _ & _ & _ & _ & _ & Htj); [lia|].
        destruct (lag_zero j slb (p j) ltac:(lia) Htj Hzj) as (_ & st & Hst & Hneed & Happ).
        exists st. rewrite Nat2Z.id. split; [done|]. split; [done|lia].
      * left. rewrite Ecomp. cbn [app]. rewrite <-list_fmap_compose. apply list_elem_of_fmap.
        exists i. split; [done|]. rewrite rotation_perm, elem_of_seq. lia.
    + left. pose proof (rd_lag R) as Hlag. rewrite Ebatch in Hlag. cbn [length] in Hlag.
      enough (total_lag p (seq 0 count) slm + S (length fs) <= total_lag p (seq 0 count) slb)%nat by lia.
      apply Hlag. intros i st Hst Hw. assert (i < count)%nat as Hi.
      { apply lookup_lt_Some in Hst. rewrite (rd_hello R), length_imap in Hst. lia. }
      destruct (rd_stands R i Hi) as (stateb & st' & Hb & Hst' & Est & _ & Ht).
      rewrite Hst in Hst'. injection Hst' as <-.
      apply (wants_image_lags i slb stateb (p i) st); try done; [by apply (settled_written count)|lia].
Qed.

Lemma attached_polls rnd count p id max_frames n clock m sl :
  settled count p → (0 < max_frames)%nat → (∀ k, is_u64 (clock k)) → id ≠ "" →
  attached count m id sl p → (total_lag p (seq 0 count) sl < n)%nat →
  ∃ m' sl', polls rnd clock count p id max_frames n (m, sl) = Some (m', sl') ∧
    attached count m' id sl' p ∧ total_lag p (seq 0 count) sl' = 0%nat ∧
    ∀ i, (i < count)%nat → CanReadSlot sl' i = true.
Proof.
  intros Hset Hmax Hn Hid. revert clock Hn m sl.
  induction n as [|n IH]; intros clock Hn m sl Ha Hlt; [lia|].
  destruct (quiet_poll rnd (clock 0%nat) count p m id sl max_frames Hset Hmax (Hn _) Hid
    (at_master _ _ _ _ _ Ha) (at_slave _ _ _ _ _ Ha) (at_count _ _ _ _ _ Ha)
    (attached_linked _ _ _ _ _ Ha) (or_introl Ha)) as (m1 & sl1 & before & E & Ha1 & _ & Hbefore & Hstep).
  rewrite (Hbefore Ha) in Hstep. cbn [polls]. rewrite E. cbn [mbind option_bind].
  destruct (decide (n = 0%nat)) as [->|Hn0].
  - exists m1, sl1. destruct Hstep as [Hstep|(_ & Hz & Hon)]; [lia|done].
  - apply IH; [by intros k|done|]. destruct Hstep as [Hstep|(_ & Hz & _)]; lia.
Qed.

(** However the two begin, enough polls leave every slot of the replica with
    the primary's data and readable. *)
Lemma polls_catch_up rnd count p id max_frames n clock m sl :
  settled count p → (0 < max_frames)%nat → (∀ k, is_u64 (clock k)) → id ≠ "" →
  master_ok count m → slave_ok sl → length (sl_slots_ sl) = count → linked m id sl p →
  0 <= ms_next_session_seq_ m < UINT64_MAX → (S (lag_bound count p) < n)%nat →
  ∃ m' sl', polls rnd clock count p id max_frames n (m, sl) = Some (m', sl') ∧ slave_ok sl' ∧
    ∀ i, (i < count)%nat → in_sync i sl' (p i) ∧ CanReadSlot sl' i = true.
Proof.
  intros Hset Hmax Hn Hid Hm Hok Hl Hlink Hnext Hlt. destruct n as [|n]; [lia|]. cbn [polls].
  destruct (quiet_poll rnd (clock 0%nat) count p m id sl max_frames Hset Hmax (Hn _) Hid Hm Hok Hl
    Hlink (or_intror Hnext)) as (m1 & sl1 & before & -> & Ha1 & Hb & _ & Hstep). cbn [mbind option_bind].
  destruct (attached_polls rnd count p id max_frames n (λ k, clock (S k)) m1 sl1) as
    (m2 & sl2 & -> & Ha2 & Hz & Hon); try done; [destruct Hstep as [?|(? & ? & _)]; lia|].
  exists m2, sl2. split; [done|]. split; [apply Ha2|]. intros i Hi. split; [|by apply Hon].
  apply lag_zero; [by rewrite (at_count _ _ _ _ _ Ha2)|by apply (at_tracks _ _ _ _ _ Ha2)|].
  apply (proj2 (total_lag_zero p (seq 0 count) sl2) Hz). apply elem_of_seq. lia.
Qed.
End catch_up.
