(* ===== verification/System.v ===== *)
(** * The primary and its replicas as one system

    The states of the whole program and what changes them: events of the
    primary's cache (Interference.v), the two loops of the maintenance, slot
    by slot, replicas that start, and polls. A poll may be answered while
    events happen; any number of the frames of its answer arrive. A HELLO that
    reaches the primary late, after its replica has given up waiting, is
    answered too, to nobody. Replicas restart, and so does the primary: it
    loses everything and draws a new epoch, which is new to the replicas.

    [sy_past] and [sy_before] are not part of the program: they record every
    state the primary's cache has gone through since the primary started, and
    before. The invariant says that what a replica holds of a slot is what the
    slot was in one of them: in one of the first, unless the session it
    remembers is not one the primary names. *)

From S2P Require Import Prelude Text Containers Double RedisObject Binlog HashSlot Engine Sweeper Response Command Dispatcher Replay Resp ReplFrame SnapshotCodec Slave Convergence Interference Master Shipping Socket Link Round Polling Sessions CatchUp.

Section system.
Context {IC : ImmutableContainer} {RL : RespLib}.

Record system := mkSystem {
  sy_engine : CacheEngine;
  sy_master : MasterReplicator;
  sy_replicas : gmap string SlaveReplicator;
  sy_past : list CacheEngine;
  sy_before : list CacheEngine;
}.

Definition system_new (random1 random2 : Z) : system :=
  mkSystem CacheEngine_new (MasterReplicator_new random1 random2) ∅ [CacheEngine_new] [].

Definition slots_at (e : CacheEngine) (i : nat) : HashSlot := default HashSlot_new (slots_ e !! i).

(** Every read of a slot finds one of the states between [e] and [e']. *)
Definition seen (e : CacheEngine) (l : list CacheEngine) (e' : CacheEngine)
    (view : nat → slot_view) : Prop :=
  ∀ i k, ∃ l1 l2 e1, l = l1 ++ l2 ∧ engine_events e l1 e1 ∧ engine_events e1 l2 e' ∧
    view i k = slots_at e1 i.

(** The primary answers a HELLO of [sl] while the events [l] happen. *)
Record answers (S : system) (l : list CacheEngine) (e' : CacheEngine)
    (hello_view view : nat → slot_view) (id : string) (sl : SlaveReplicator) (max_frames : nat)
    (frames : list Frame) (m' : MasterReplicator) : Prop := {
  as_named : id ≠ "";
  as_next : ms_next_session_seq_ (sy_master S) < UINT64_MAX;
  as_events : engine_events (sy_engine S) l e';
  as_below : seqs_below e';
  as_hello : seen (sy_engine S) l e' hello_view;
  as_view : seen (sy_engine S) l e' view;
  as_poll : Poll hello_view view (SlotCount (sy_engine S)) (sy_master S)
      (BuildHelloFrame id (sl_session_id_ sl) sl kProtocolVersion) max_frames = Some (frames, m');
}.

#[global] Arguments as_next {S l e' hello_view view id sl max_frames frames m'} _.
#[global] Arguments as_events {S l e' hello_view view id sl max_frames frames m'} _.
#[global] Arguments as_below {S l e' hello_view view id sl max_frames frames m'} _.
#[global] Arguments as_poll {S l e' hello_view view id sl max_frames frames m'} _.

Inductive sys_step (S : system) : system → Prop :=
  | sys_event e' :
      engine_event (sy_engine S) e' → seqs_below e' →
      sys_step S (mkSystem e' (sy_master S) (sy_replicas S) (e' :: sy_past S) (sy_before S))
  | sys_collect i e' :
      collect_slot (sy_master S) tt i (sy_engine S) = Some (tt, e') →
      sys_step S (mkSystem e' (sy_master S) (sy_replicas S) (e' :: sy_past S) (sy_before S))
  | sys_trim i total m' e' :
      budget_loop [i] total (sy_master S) (sy_engine S) = Some (m', e') →
      sys_step S (mkSystem e' m' (sy_replicas S) (e' :: sy_past S) (sy_before S))
  | sys_budget bytes :
      sys_step S (mkSystem (sy_engine S) (SetGlobalBinlogBudget (sy_master S) bytes)
                    (sy_replicas S) (sy_past S) (sy_before S))
  | sys_start id :
      id ≠ "" →
      sys_step S (mkSystem (sy_engine S) (sy_master S)
                    (<[id := SlaveReplicator_new CacheEngine_new]> (sy_replicas S)) (sy_past S)
                    (sy_before S))
  | sys_restart random1 random2 :
      (∀ id sl, sy_replicas S !! id = Some sl →
         ¬ named_by (MasterReplicator_new random1 random2) id (sl_session_id_ sl)) →
      sys_step S (mkSystem CacheEngine_new (MasterReplicator_new random1 random2) (sy_replicas S)
                    [CacheEngine_new] (sy_past S ++ sy_before S))
  | sys_late l e' hello_view view id sl max_frames frames m' :
      length (sl_slots_ sl) = SlotCount (sy_engine S) →
      answers S l e' hello_view view id sl max_frames frames m' →
      sys_step S (mkSystem e' m' (sy_replicas S) (l ++ sy_past S) (sy_before S))
  | sys_poll l e' hello_view view id sl max_frames frames m' rnd now n sl' :
      sy_replicas S !! id = Some sl → is_u64 now →
      answers S l e' hello_view view id sl max_frames frames m' →
      (∀ i, (i < SlotCount (sy_engine S))%nat → sendable i (view i 4%nat)) →
      enqueue_all rnd now (take n frames) sl = Some sl' →
      sys_step S (mkSystem e' m' (<[id := sl']> (sy_replicas S)) (l ++ sy_past S) (sy_before S)).

Definition sys_reachable (S : system) : Prop := ∃ r1 r2, rtc sys_step (system_new r1 r2) S.

(** ** What the past knows *)

Definition past_of (past : list CacheEngine) : History := λ i s,
  ∃ e s0, e ∈ past ∧ slots_ e !! i = Some s0 ∧
    slot_map s0 = slot_map s ∧ slot_seq_ s0 = slot_seq_ s.

Lemma past_recorded past e : e ∈ past → recorded (HI := past_of past) e.
Proof. intros He i s Hs. by exists e, s. Qed.

Lemma past_mono past past' i s : past ⊆ past' → past_of past i s → past_of past' i s.
Proof. intros Hp (e & s0 & He & H). exists e, s0. split; [by apply Hp|done]. Qed.

Lemma run_mono (HI HI' : History) i s evs s' :
  (∀ t, @genuine _ HI i t → @genuine _ HI' i t) →
  primary_run (HI := HI) i s evs s' → primary_run (HI := HI') i s evs s'.
Proof.
  intros Hsub. induction 1 as [s Hg|s ev s1 evs s2 Hg Hk Hf Hc Hr IH|s seq evs s2 Hg Hr IH].
  - apply run_nil. by apply Hsub.
  - eapply run_cons; [by apply Hsub|exact Hk|exact Hf|exact Hc|exact IH].
  - eapply run_ack; [by apply Hsub|done].
Qed.

Lemma moves_mono (HI HI' : History) i p p' :
  (∀ t, @genuine _ HI i t → @genuine _ HI' i t) → moves (HI := HI) i p p' → moves (HI := HI') i p p'.
Proof. intros Hsub (evs & Hr & H). exists evs. split; [|done]. by apply (run_mono HI). Qed.

Lemma tracks_mono (HI HI' : History) i sl p :
  (∀ t, @genuine _ HI i t → @genuine _ HI' i t) →
  tracks (HI := HI) i sl p → tracks (HI := HI') i sl p.
Proof.
  intros Hsub [H|(p0 & evs & [H1 H2 H3 H4 H5])]; [by left|]. right. exists p0, evs.
  split; try done. by apply (run_mono HI).
Qed.

(** ** Runs of the primary's cache *)

Context {CL : ContainerLaws IC} {RW : RespLaws RL}.

Lemma engine_run_below {HI : History} e e' : engine_run e e' → seqs_below e' → seqs_below e.
Proof.
  intros [_ Hr] Hb i s Hs. destruct (Hr i s Hs) as (s' & evs & Hs' & _ & Hq).
  specialize (Hb i s' Hs'). lia.
Qed.

Lemma engine_run_moves {HI : History} e e' i :
  engine_run e e' → seqs_below e' → (i < SlotCount e)%nat → moves i (slots_at e i) (slots_at e' i).
Proof.
  intros [_ Hr] Hb Hi. destruct (lookup_lt_is_Some_2 (slots_ e) i Hi) as [s Hs].
  destruct (Hr i s Hs) as (s' & evs & Hs' & Hrun & Hq). unfold slots_at. rewrite Hs, Hs'. cbn.
  unfold id. exists evs. split; [done|]. rewrite <-Hq. by apply (Hb i).
Qed.

(** What the maintenance does to a slot: records are dropped. *)
Definition engine_acks (e e' : CacheEngine) : Prop :=
  e' = e ∨ ∃ i s seq, slots_ e !! i = Some s ∧ e' = set_slot e i (AckLogsThrough s seq).

Lemma collect_slot_acks m i e e' : collect_slot m tt i e = Some (tt, e') → engine_acks e e'.
Proof.
  unfold collect_slot, mbind, stM_bind, liftM. destruct (min_acked m i) as [a|]; [|done]. cbn.
  destruct (negb _); [|intros [= <-]; by left]. unfold SlotById.
  destruct (slots_ e !! i) as [s|] eqn:Hs; [|done]. cbn. intros [= <-]. right. by exists i, s, a.
Qed.

Lemma budget_loop_acks i total m e m' e' :
  budget_loop [i] total m e = Some (m', e') →
  engine_acks e e' ∧
  (m' = m ∨ ∃ through, m' = with_replicas m (flag_replica i through <$> ms_replicas_ m)).
Proof.
  cbn [budget_loop]. unfold mbind, stM_bind, mret, stM_ret, SlotById. destruct (_ >? _).
  2:{ intros [= <- <-]. split; by left. }
  destruct (slots_ e !! i) as [s|] eqn:Hs; [|done].
  cbn. rewrite list_lookup_insert_eq by (by eapply lookup_lt_Some). cbn.
  set (through := MaxRetainedLogSeq s).
  assert (AckLogsThroughAndCountBytes s through =
    ((AckLogsThroughAndCountBytes s through).1, AckLogsThrough s through)) as ->.
  { unfold AckLogsThroughAndCountBytes, AckLogsThrough, BinlogBuffer.AckThrough.
    by destruct (BinlogBuffer.AckThroughAndCountBytes _ _). }
  intros E. injection E as <- <-. split; [|right; by eexists]. right. exists i, s, through.
  split; [done|]. unfold set_slot. by rewrite list_insert_insert_eq.
Qed.

Lemma engine_acks_ok e e' : engine_ok e → engine_acks e e' → engine_ok e'.
Proof.
  intros He [->|(i & s & seq & Hs & ->)]; [done|]. apply set_slot_ok; [done|].
  apply AckLogsThrough_ok. by apply He.
Qed.

Lemma engine_acks_run {HI : History} e e' :
  recorded e → recorded e' → engine_acks e e' → engine_run e e'.
Proof.
  intros Hg Hg' [->|(i & s & seq & Hs & ->)]; [by apply engine_run_refl|].
  split; [apply length_insert|]. intros j t Ht. destruct (decide (i = j)) as [<-|Hne].
  - assert (t = s) as -> by congruence.
    assert (slots_ (set_slot e i (AckLogsThrough s seq)) !! i = Some (AckLogsThrough s seq)) as Hs'
      by (cbn; apply list_lookup_insert_eq; by eapply lookup_lt_Some).
    exists (AckLogsThrough s seq), []. split; [done|]. split; [|cbn; lia].
    eapply run_ack; [by apply Hg|]. by apply run_nil, Hg'.
  - exists t, []. split; [cbn; by rewrite list_lookup_insert_ne|].
    split; [by apply run_nil, Hg|]. cbn. lia.
Qed.

(** ** The invariant *)

(** What a slot that can be read holds was in the slot of one of the states. *)
Definition held (past : list CacheEngine) (i : nat) (sl : SlaveReplicator) : Prop :=
  CanReadSlot sl i = true →
  ∃ slot e s, slots_ (sl_engine_ sl) !! i = Some slot ∧ e ∈ past ∧ slots_ e !! i = Some s ∧
    slot_map slot = slot_map s ∧ slot_seq_ slot = slot_seq_ s.

(** A replica follows the primary, or has not heard of its last restart. *)
Definition keeps_up (e : CacheEngine) (past : list CacheEngine) (sl : SlaveReplicator) : Prop :=
  ∀ i, (i < SlotCount e)%nat → tracks (HI := past_of past) i sl (slots_at e i).
Definition stale (m : MasterReplicator) (before : list CacheEngine) (id : string)
    (sl : SlaveReplicator) : Prop :=
  ¬ named_by m id (sl_session_id_ sl) ∧ ∀ i, held before i sl.

Record replica_ok (e : CacheEngine) (m : MasterReplicator) (past before : list CacheEngine)
    (id : string) (sl : SlaveReplicator) : Prop := {
  rk_named : id ≠ "";
  rk_slave : slave_ok sl;
  rk_count : length (sl_slots_ sl) = SlotCount e;
  rk_issued : ¬ unissued m id (sl_session_id_ sl);
  rk_state : keeps_up e past sl ∨ stale m before id sl;
}.

Record system_ok (S : system) : Prop := {
  so_engine : engine_ok (sy_engine S);
  so_below : seqs_below (sy_engine S);
  so_now : sy_engine S ∈ sy_past S;
  so_born i : (i < SlotCount (sy_engine S))%nat →
    moves (HI := past_of (sy_past S)) i HashSlot_new (slots_at (sy_engine S) i);
  so_master : master_ok (SlotCount (sy_engine S)) (sy_master S);
  so_names : names_ok (sy_master S);
  so_next : 0 <= ms_next_session_seq_ (sy_master S);
  so_replicas id sl : sy_replicas S !! id = Some sl →
    replica_ok (sy_engine S) (sy_master S) (sy_past S) (sy_before S) id sl;
}.

Lemma moves_trans {HI : History} i p q r : moves i p q → moves i q r → slot_ok i p → log_writes_ p = true → moves i p r.
Proof.
  intros (es1 & Hr1 & Hq1) (es2 & Hr2 & Hq2) Hok Hl. exists (es1 ++ es2).
  split; [by eapply primary_run_app|]. rewrite length_app.
  destruct (primary_run_log i p es1 q Hr1 Hl (so_seq _ _ Hok) (so_bytes _ _ Hok)) as [Hs _];
    [unfold INT64_MAX, UINT64_MAX in *; lia|]. lia.
Qed.

(** The primary's cache goes on, and its replicator gives no name twice. *)
Lemma system_ok_moves S l e' m' :
  system_ok S → engine_ok e' → seqs_below e' → e' ∈ l ++ sy_past S →
  engine_run (HI := past_of (l ++ sy_past S)) (sy_engine S) e' →
  master_ok (SlotCount (sy_engine S)) m' → names_ok m' → 0 <= ms_next_session_seq_ m' →
  ms_epoch_ m' = ms_epoch_ (sy_master S) →
  (∀ id session, unissued m' id session → unissued (sy_master S) id session) →
  system_ok (mkSystem e' m' (sy_replicas S) (l ++ sy_past S) (sy_before S)).
Proof.
  intros HS He' Hb' Hin Hrun Hm' Hnm' Hn' Hep Hu.
  assert (SlotCount e' = SlotCount (sy_engine S)) as Hc by apply Hrun.
  assert (sy_past S ⊆ l ++ sy_past S) as Hpast by set_solver.
  assert (∀ i, (i < SlotCount (sy_engine S))%nat → moves (HI := past_of (l ++ sy_past S)) i
    (slots_at (sy_engine S) i) (slots_at e' i)) as Hmoves by (intros i Hi; by apply engine_run_moves).
  split; cbn [sy_engine sy_master sy_replicas sy_past sy_before]; rewrite ?Hc; try done.
  - intros i Hi. eapply moves_trans; [| |apply HashSlot_new_ok|done]; [|by apply Hmoves].
    eapply (moves_mono (past_of (sy_past S))); [|by apply HS]. intros t. by apply past_mono.
  - intros id sl Hsl. destruct (so_replicas _ HS id sl Hsl) as [K1 K2 K3 K4 K5].
    split; rewrite ?Hc; try done; [intros K; by apply K4, Hu|].
    destruct K5 as [K5|[K5 K6]]; [left|right; split; [|done]; by rewrite (named_epoch _ _ _ _ Hep)].
    intros i Hi. rewrite Hc in Hi.
    eapply (tracks_moves (HI := past_of (l ++ sy_past S))); [|by apply Hmoves].
    eapply (tracks_mono (past_of (sy_past S))); [|by apply K5]. intros t. by apply past_mono.
Qed.

Lemma system_ok_insert S id sl :
  system_ok S → replica_ok (sy_engine S) (sy_master S) (sy_past S) (sy_before S) id sl →
  system_ok (mkSystem (sy_engine S) (sy_master S) (<[id := sl]> (sy_replicas S)) (sy_past S)
               (sy_before S)).
Proof.
  intros HS Hsl. split; cbn [sy_engine sy_master sy_replicas sy_past sy_before]; try apply HS.
  intros id' sl'. rewrite lookup_insert_Some. intros [[<- <-]|[_ H]]; [done|by apply HS].
Qed.

(** Either way a poll finds the two linked. *)
Lemma replica_linked e m past before id sl :
  names_ok m → 0 <= ms_next_session_seq_ m → replica_ok e m past before id sl →
  linked (HI := past_of past) m id sl (slots_at e).
Proof.
  intros Hm Hn [K1 K2 K3 K4 [K5|[K5 _]]]; [|by apply foreign_linked].
  split; [|done]. intros r _ _ _ i. rewrite K3. apply K5.
Qed.

(** ** Polls *)

Lemma slots_at_ok e i : engine_ok e → slot_ok i (slots_at e i).
Proof.
  intros He. unfold slots_at. destruct (slots_ e !! i) as [s|] eqn:Hs; [by apply He|apply HashSlot_new_ok].
Qed.

Lemma seen_ok e l e' view : engine_ok e → seen e l e' view → view_ok view.
Proof.
  intros He Hs i k. destruct (Hs i k) as (l1 & l2 & e1 & _ & H1 & _ & ->).
  apply slots_at_ok. by eapply engine_events_ok.
Qed.

Lemma events_recorded {HI : History} e l e' :
  engine_events e l e' → recorded e → Forall recorded l → recorded e'.
Proof.
  intros H. induction H as [e|e e1 l e' _ _ IH]; [done|]. intros _ [Hg Hl]%Forall_cons. by apply IH.
Qed.

(** A slot seen in between. *)
Lemma seen_moves {HI : History} e l e' view i k :
  engine_ok e → recorded e → Forall recorded l → seqs_below e' → seen e l e' view →
  (i < SlotCount e)%nat → moves i (slots_at e i) (view i k) ∧ moves i (view i k) (slots_at e' i).
Proof.
  intros He Hg Hl Hb Hs Hi. destruct (Hs i k) as (l1 & l2 & e1 & -> & H1 & H2 & ->).
  apply Forall_app in Hl as [Hl1 Hl2].
  pose proof (engine_events_run _ _ _ He Hg Hl1 H1) as Hr1.
  pose proof (events_recorded _ _ _ H1 Hg Hl1) as Hg1.
  pose proof (engine_events_run _ _ _ (engine_events_ok _ _ _ He H1) Hg1 Hl2 H2) as Hr2.
  pose proof (engine_run_below _ _ Hr2 Hb) as Hb1.
  split; [by apply engine_run_moves|]. apply engine_run_moves; [done|done|].
  destruct Hr1 as [Hlen _]. unfold SlotCount in *. lia.
Qed.

Lemma issues_unissued m id r m' :
  issues m id r m' → 0 <= ms_next_session_seq_ m < UINT64_MAX →
  0 <= ms_next_session_seq_ m' ∧
  ∀ id' session, unissued m' id' session → unissued m id' session.
Proof.
  intros [Hep Hr] Hn. assert (ms_next_session_seq_ m <= ms_next_session_seq_ m') as Hle.
  { destruct (rp_reset r); [destruct Hr as [_ ->]|rewrite Hr]; u64_lia. }
  split; [lia|]. intros id' session (k & Hk & ->). exists k. rewrite Hep. split; [lia|done].
Qed.

Section answers.
Context (S : system) (l : list CacheEngine) (e' : CacheEngine) (hello_view view : nat → slot_view).
Context (id : string) (sl : SlaveReplicator) (max_frames : nat) (frames : list Frame).
Context (m' : MasterReplicator).
Context (HS : system_ok S) (HA : answers S l e' hello_view view id sl max_frames frames m').

#[local] Instance answers_past : History := past_of (l ++ sy_past S).

Lemma answers_recorded : recorded (sy_engine S) ∧ Forall recorded l.
Proof.
  split.
  - apply past_recorded. apply elem_of_app. right. apply HS.
  - apply Forall_forall. intros e He. apply past_recorded. apply elem_of_app. by left.
Qed.

Lemma answers_run : engine_run (sy_engine S) e' ∧ e' ∈ l ++ sy_past S.
Proof.
  destruct answers_recorded as [Hg Hl]. pose proof (as_events HA) as Hev.
  split; [by eapply engine_events_run; [apply HS|..]|].
  assert (e' = sy_engine S ∨ e' ∈ l) as [->|Hin]; [|apply elem_of_app; right; apply HS|by apply elem_of_app; left].
  clear -Hev. induction Hev as [e|e e1 l e' _ _ IH]; [by left|].
  right. destruct IH as [->|IH]; [by left|by right].
Qed.

Lemma answers_answering :
  (∀ i, (i < SlotCount (sy_engine S))%nat → sendable i (view i 4%nat)) →
  answering (SlotCount (sy_engine S)) hello_view view (slots_at (sy_engine S)) (slots_at e').
Proof.
  intros Hsend. destruct answers_recorded as [Hg Hl]. destruct HA as [_ _ Hev Hb Hh Hv _].
  assert (∀ v i k, seen (sy_engine S) l e' v → (i < SlotCount (sy_engine S))%nat →
    moves i (slots_at (sy_engine S) i) (v i k) ∧ moves i (v i k) (slots_at e' i)) as Hm.
  { intros v i k Hs Hi. apply (seen_moves (sy_engine S) l); try done. apply HS. }
  split; try done.
  - by eapply seen_ok; [apply HS|].
  - intros i Hi. eapply (moves_mono (past_of (sy_past S))); [|by apply HS].
    intros t. apply past_mono. set_solver.
  - intros i Hi. by apply Hm.
  - intros i Hi. by apply Hm.
  - intros i Hi. by apply Hm.
Qed.

Lemma answers_linked :
  replica_ok (sy_engine S) (sy_master S) (sy_past S) (sy_before S) id sl →
  linked (sy_master S) id sl (slots_at (sy_engine S)).
Proof.
  intros Hr. destruct (replica_linked _ _ _ _ _ _ (so_names _ HS) (so_next _ HS) Hr) as [H1 H2].
  split; [|done]. intros r Hs Hne Hid i Hi. eapply (tracks_mono (past_of (sy_past S))); [|by eapply H1].
  intros t. apply past_mono. set_solver.
Qed.

Lemma answers_names : names_ok m' ∧ ms_epoch_ m' = ms_epoch_ (sy_master S).
Proof.
  eapply Poll_names; [apply HS| |exact (as_poll HA)]. pose proof (as_next HA). split; [apply HS|lia].
Qed.

(** The frames that arrive leave the replica with past states; the first of
    them tells it of a restart. *)
Lemma answers_replica rnd now n sl' :
  replica_ok (sy_engine S) (sy_master S) (sy_past S) (sy_before S) id sl → is_u64 now →
  (∀ i, (i < SlotCount (sy_engine S))%nat → sendable i (view i 4%nat)) →
  enqueue_all rnd now (take n frames) sl = Some sl' →
  replica_ok e' m' (l ++ sy_past S) (sy_before S) id sl'.
Proof.
  intros Hr Hn Hsend Hen. pose proof (answers_linked Hr) as Hlink. destruct Hr as [K1 K2 K3 K4 K5].
  destruct answers_run as [Hrun _]. destruct answers_names as [_ Hep].
  assert (SlotCount e' = SlotCount (sy_engine S)) as Hc by apply Hrun.
  pose proof (answers_answering Hsend) as Hans.
  assert (0 <= ms_next_session_seq_ (sy_master S) < UINT64_MAX) as Hnext
    by (split; [apply HS|apply (as_next HA)]).
  destruct (Poll_round rnd now _ _ _ _ _ (sy_master S) id sl max_frames (so_master _ HS) K2 K3 Hn K1 Hans Hlink)
    as (r & slots & b & completed & m1 & slb & slm & sl1 & R).
  pose proof (as_poll HA) as Epoll. rewrite (rd_poll R) in Epoll.
  injection Epoll as <- ->.
  destruct (round_linked _ _ _ _ _ _ _ _ _ _ _ _ _ _ _ _ _ _ _ n R Hans K2 K3 Hlink Hnext)
    as (sln & E & Hok & Hcount & [_ Hiss] & Hnz).
  rewrite Hen in E. injection E as <-. split; rewrite ?Hc; try done. destruct n as [|n].
  - injection Hen as <-. destruct K5 as [K5|[K5 K6]].
    + left. intros i Hi. rewrite Hc in Hi.
      eapply tracks_moves; [|exact (engine_run_moves _ _ i Hrun (as_below HA) Hi)].
      apply (tracks_mono (past_of (sy_past S))); [|by apply K5].
      intros t. apply past_mono. set_solver.
    + right. split; [|done]. by rewrite (named_epoch _ _ _ _ Hep).
  - left. intros i Hi. rewrite Hc in Hi. by apply Hnz.
Qed.
End answers.

(** A replica that starts. *)
Lemma new_replica_in_sync i :
  (i < SlotCount CacheEngine_new)%nat → in_sync i (SlaveReplicator_new CacheEngine_new) HashSlot_new.
Proof.
  intros Hi. exists SlotApplyState_default, (SetLogWrites HashSlot_new false).
  split; [exact (lookup_replicate_2 _ SlotApplyState_default _ Hi)|].
  split; [|split; [reflexivity|split; reflexivity]].
  unfold SlaveReplicator_new, DisableBinlog. cbn [sl_engine_ slots_]. rewrite list_lookup_fmap.
  rewrite (new_engine_lookup i Hi). reflexivity.
Qed.

Lemma new_replica_replica_ok S id :
  system_ok S → id ≠ "" →
  replica_ok (sy_engine S) (sy_master S) (sy_past S) (sy_before S) id
    (SlaveReplicator_new CacheEngine_new).
Proof.
  intros HS Hid.
  assert (SlotCount CacheEngine_new = SlotCount (sy_engine S)) as Hc.
  { unfold SlotCount. rewrite (ew_count _ (eo_wf _ CacheEngine_new_ok)).
    by rewrite (ew_count _ (eo_wf _ (so_engine _ HS))). }
  split; [done|apply new_replica_ok| | |].
  - rewrite <-Hc. unfold SlaveReplicator_new. cbn [sl_slots_]. apply length_replicate.
  - intros (k & _ & E). cbn in E. destruct (ms_epoch_ (sy_master S)); discriminate E.
  - left. intros i Hi. destruct (so_born _ HS i Hi) as (evs & Hr & Hq). right. exists HashSlot_new, evs.
    split; [|done|apply HashSlot_new_ok|done|done]. apply new_replica_in_sync. by rewrite Hc.
Qed.

(** ** What a replica serves *)

Lemma tracks_holds S i sl :
  system_ok S → slave_ok sl → (i < SlotCount (sy_engine S))%nat → CanReadSlot sl i = true →
  tracks (HI := past_of (sy_past S)) i sl (slots_at (sy_engine S) i) →
  ∃ slot e s, slots_ (sl_engine_ sl) !! i = Some slot ∧ e ∈ sy_past S ∧ slots_ e !! i = Some s ∧
    slot_map slot = slot_map s ∧ slot_seq_ slot = slot_seq_ s ∧
    slot_seq_ s <= slot_seq_ (slots_at (sy_engine S) i).
Proof.
  intros HS Hok Hi Hread Ht. unfold CanReadSlot in Hread.
  destruct (sl_slots_ sl !! i) as [state|] eqn:Hst; [|done]. apply bool_decide_eq_true in Hread.
  destruct (slave_slot sl i state Hok Hst) as (slot & Hslot & _ & _ & Hseq).
  destruct Ht as [(state' & Hst' & Hneed)|(p0 & evs & Hb)].
  { rewrite Hst in Hst'. injection Hst' as <-. rewrite Hneed in Hseq. congruence. }
  pose proof (behind_seq _ _ _ _ _ Hb) as Hq. destruct Hb as [Hsync Hrun _ _ _].
  destruct Hsync as (state' & slot' & Hst' & Hslot' & Hneed & Happ & Hmap).
  rewrite Hst in Hst'. injection Hst' as <-. rewrite Hslot in Hslot'. injection Hslot' as <-.
  rewrite Hneed in Hseq. destruct (run_start _ _ _ _ Hrun) as (e & s & He & Hs & Hm & Hsq).
  exists slot, e, s. do 3 (split; [done|]). split; [congruence|]. split; [congruence|]. lia.
Qed.

(** A state of the slot since the primary started, and then not one ahead of
    it, or before, and then the replica's session is not one of the primary. *)
Lemma replica_holds S id sl i :
  system_ok S → sy_replicas S !! id = Some sl → CanReadSlot sl i = true →
  ∃ slot e s, slots_ (sl_engine_ sl) !! i = Some slot ∧ e ∈ sy_past S ++ sy_before S ∧
    slots_ e !! i = Some s ∧ slot_map slot = slot_map s ∧ slot_seq_ slot = slot_seq_ s ∧
    ((e ∈ sy_past S ∧ ∃ p, slots_ (sy_engine S) !! i = Some p ∧ slot_seq_ s <= slot_seq_ p) ∨
     (e ∈ sy_before S ∧ ¬ named_by (sy_master S) id (sl_session_id_ sl))).
Proof.
  intros HS Hsl Hread. destruct (so_replicas _ HS id sl Hsl) as [_ Hok Hcount _ [Ht|[Hf Ht]]].
  - assert (i < SlotCount (sy_engine S))%nat as Hi.
    { rewrite <-Hcount. unfold CanReadSlot in Hread.
      destruct (sl_slots_ sl !! i) eqn:E; [by eapply lookup_lt_Some|done]. }
    destruct (tracks_holds S i sl HS Hok Hi Hread (Ht i Hi)) as (slot & e & s & H1 & H2 & H3 & H4 & H5 & H6).
    exists slot, e, s. split; [done|]. split; [apply elem_of_app; by left|]. do 3 (split; [done|]).
    left. split; [done|]. destruct (lookup_lt_is_Some_2 (slots_ (sy_engine S)) i Hi) as [p Hp].
    exists p. split; [done|]. unfold slots_at in H6. by rewrite Hp in H6.
  - destruct (Ht i Hread) as (slot & e & s & H1 & H2 & H3 & H4 & H5).
    exists slot, e, s. split; [done|]. split; [apply elem_of_app; by right|]. do 3 (split; [done|]).
    by right.
Qed.

(** ** Every step *)

Lemma system_new_ok r1 r2 : system_ok (system_new r1 r2).
Proof.
  split; cbn [system_new sy_engine sy_master sy_replicas sy_past].
  - apply CacheEngine_new_ok.
  - intros i s ->%new_engine_slot. by vm_compute.
  - by apply list_elem_of_singleton.
  - intros i Hi. pose proof (new_engine_lookup i Hi) as Hs. unfold slots_at. rewrite Hs.
    apply moves_refl; [|by vm_compute]. exists CacheEngine_new, HashSlot_new.
    split; [by apply list_elem_of_singleton|]. split; [exact Hs|]. by split.
  - by apply Forall_nil.
  - apply names_ok_new.
  - by vm_compute.
  - intros id sl. by rewrite lookup_empty.
Qed.

(** A step of the cache alone. *)
Lemma system_ok_engine S e' m' :
  system_ok S → engine_ok e' → seqs_below e' →
  (recorded (HI := past_of ([e'] ++ sy_past S)) (sy_engine S) →
   recorded (HI := past_of ([e'] ++ sy_past S)) e' →
   engine_run (HI := past_of ([e'] ++ sy_past S)) (sy_engine S) e') →
  master_ok (SlotCount (sy_engine S)) m' → names_ok m' →
  ms_epoch_ m' = ms_epoch_ (sy_master S) →
  ms_next_session_seq_ m' = ms_next_session_seq_ (sy_master S) →
  system_ok (mkSystem e' m' (sy_replicas S) (e' :: sy_past S) (sy_before S)).
Proof.
  intros HS He' Hb Hrun Hm' Hnm Hep Hnext. apply (system_ok_moves S [e'] e' m'); try done.
  - by left.
  - apply Hrun; apply past_recorded; [right; apply HS|by left].
  - rewrite Hnext. apply HS.
  - intros id session (k & Hk & E). exists k. rewrite <-Hep, <-Hnext. done.
Qed.

Lemma engine_acks_below e e' : seqs_below e → engine_acks e e' → seqs_below e'.
Proof.
  intros Hb [->|(i & s & seq & Hs & ->)]; [done|]. intros j t. cbn. rewrite list_lookup_insert.
  case_decide as Hd; [|by apply Hb]. intros [= <-]. by apply (Hb i s).
Qed.

Lemma answers_ok S l e' hello_view view id sl max_frames frames m' :
  system_ok S → length (sl_slots_ sl) = SlotCount (sy_engine S) →
  answers S l e' hello_view view id sl max_frames frames m' →
  system_ok (mkSystem e' m' (sy_replicas S) (l ++ sy_past S) (sy_before S)).
Proof.
  intros HS Hl HA. destruct (answers_run S l e' hello_view view id sl max_frames frames m' HS HA) as [Hrun Hin].
  assert (view_ok view) as Hv by (eapply seen_ok; [apply HS|apply HA]).
  destruct (Poll_answer hello_view view _ (sy_master S) id sl max_frames (so_master _ HS) Hl Hv
    (as_named _ _ _ _ _ _ _ _ _ _ HA)) as (r & slots & b & completed & m1 & _ & E & Hm1 & _ & _ & _ & _ & _ & _ & Hiss).
  pose proof (as_poll HA) as E1. rewrite E in E1. injection E1 as _ <-.
  destruct (issues_unissued _ _ _ _ Hiss) as [Hn Hu]; [split; [apply HS|apply (as_next HA)]|].
  destruct (answers_names S l e' hello_view view id sl max_frames frames m1 HS HA) as [Hnm Hep].
  apply system_ok_moves; try done; [|apply (as_below HA)].
  eapply engine_events_ok; [apply HS|apply (as_events HA)].
Qed.

(** Nothing of the primary is left after a restart; what a replica holds is
    of the lives before. *)
Lemma restart_ok S r1 r2 :
  system_ok S →
  (∀ id sl, sy_replicas S !! id = Some sl →
     ¬ named_by (MasterReplicator_new r1 r2) id (sl_session_id_ sl)) →
  system_ok (mkSystem CacheEngine_new (MasterReplicator_new r1 r2) (sy_replicas S)
               [CacheEngine_new] (sy_past S ++ sy_before S)).
Proof.
  intros HS Hnew. pose proof (system_new_ok r1 r2) as H0.
  split; cbn [sy_engine sy_master sy_replicas sy_past sy_before]; try apply H0.
  intros id sl Hsl. pose proof (so_replicas _ HS id sl Hsl) as HK. pose proof HK as [K1 K2 K3 _ _].
  specialize (Hnew id sl Hsl). split; [done|done| | |].
  - rewrite K3. symmetry. unfold SlotCount. rewrite (ew_count _ (eo_wf _ CacheEngine_new_ok)).
    by rewrite (ew_count _ (eo_wf _ (so_engine _ HS))).
  - intros H. by apply Hnew, unissued_named; [by vm_compute|].
  - right. split; [done|]. intros i Hread.
    destruct (replica_holds S id sl i HS Hsl Hread) as (slot & e & s & H1 & H2 & H3 & H4 & H5 & _).
    by exists slot, e, s.
Qed.

Lemma sys_step_ok S S' : system_ok S → sys_step S S' → system_ok S'.
Proof.
  intros HS Hs. destruct Hs as [e' Hev Hb|i e' E|i total m' e' E|bytes|id Hid
    |r1 r2 Hnew|l e' hv v id sl mf frames m' Hl HA|l e' hv v id sl mf frames m' rnd now n sl' Hsl Hn HA Hsend Hen].
  - pose proof (engine_event_commit _ _ (so_engine _ HS) Hev) as Hc.
    apply system_ok_engine; try done; [eapply engine_commit_ok; [apply HS|done]| |apply HS..].
    intros Hg Hg'. apply engine_commit_run; [apply HS|done..].
  - pose proof (collect_slot_acks _ _ _ _ E) as Ha.
    apply system_ok_engine; try done; [eapply engine_acks_ok; [apply HS|done]| | |apply HS..].
    + eapply engine_acks_below; [apply HS|done].
    + intros Hg Hg'. by apply engine_acks_run.
  - destruct (budget_loop_acks _ _ _ _ _ _ E) as [Ha Hm].
    apply system_ok_engine; try done; [eapply engine_acks_ok; [apply HS|done]| | | | | |].
    + eapply engine_acks_below; [apply HS|done].
    + intros Hg Hg'. by apply engine_acks_run.
    + destruct Hm as [->|[through ->]]; [apply HS|]. apply flag_replica_ok, HS.
    + destruct Hm as [->|[through ->]]; [apply HS|]. by apply names_ok_fmap; [apply HS|].
    + by destruct Hm as [->|[through ->]].
    + by destruct Hm as [->|[through ->]].
  - split; try apply HS. intros id sl Hsl. by destruct (so_replicas _ HS id sl Hsl).
  - apply system_ok_insert; [done|]. by apply new_replica_replica_ok.
  - by apply restart_ok.
  - by eapply answers_ok.
  - pose proof (so_replicas _ HS id sl Hsl) as Hr.
    apply (system_ok_insert (mkSystem e' m' (sy_replicas S) (l ++ sy_past S) (sy_before S))).
    + eapply answers_ok; [done|apply Hr|done].
    + by eapply (answers_replica S).
Qed.

Theorem sys_reachable_ok S : sys_reachable S → system_ok S.
Proof.
  intros (r1 & r2 & Hs). pose proof (system_new_ok r1 r2) as H0.
  induction Hs as [S|S S1 S2 H1 H2 IH]; [done|]. apply IH. by eapply sys_step_ok.
Qed.

(** ** What the code does is made of steps *)

Lemma events_steps S l e' :
  engine_ok (sy_engine S) → engine_events (sy_engine S) l e' → seqs_below e' →
  ∃ past, rtc sys_step S (mkSystem e' (sy_master S) (sy_replicas S) past (sy_before S)).
Proof.
  destruct S as [e m R past before]. cbn. intros He Hev. revert past.
  induction Hev as [e|e e1 l e' Hev Hevs IH]; intros past Hb; [by exists past|].
  assert (engine_ok e1) as He1 by (by eapply engine_commit_ok, engine_event_commit).
  assert (seqs_below e1) as Hb1.
  { eapply (engine_run_below (HI := any_history)); [|exact Hb].
    eapply (engine_events_run (HI := any_history)); [done|done| |exact Hevs].
    apply Forall_forall. done. }
  destruct (IH He1 (e1 :: past) Hb) as [past' Hr]. exists past'.
  eapply rtc_l; [|exact Hr]. by apply (sys_event (mkSystem e m R past before)).
Qed.

Lemma collect_steps ids m e e' R past before :
  foldM (collect_slot m) tt ids e = Some (tt, e') →
  ∃ past', rtc sys_step (mkSystem e m R past before) (mkSystem e' m R past' before).
Proof.
  revert e past. induction ids as [|i ids IH]; intros e past E; [injection E as <-; by exists past|].
  cbn [foldM] in E. unfold mbind, stM_bind in E.
  destruct (collect_slot m tt i e) as [[[] e1]|] eqn:E1; [|done].
  destruct (IH e1 (e1 :: past) E) as [past' Hr]. exists past'.
  eapply rtc_l; [|exact Hr]. by apply (sys_collect (mkSystem e m R past before) i).
Qed.

Lemma budget_loop_cons i ids total m e m' e' :
  budget_loop (i :: ids) total m e = Some (m', e') →
  (m' = m ∧ e' = e) ∨
  ∃ total1 m1 e1, budget_loop [i] total m e = Some (m1, e1) ∧
    budget_loop ids total1 m1 e1 = Some (m', e').
Proof.
  cbn [budget_loop]. unfold mbind, stM_bind, mret, stM_ret. destruct (_ >? _).
  2:{ intros [= <- <-]. by left. }
  destruct (SlotById i (read_slot MaxRetainedLogSeq) e) as [[through e0]|]; [|done].
  destruct (SlotById i _ e0) as [[removed e1]|]; [|done]. intros E. right.
  by eexists _, _, _.
Qed.

Lemma budget_steps ids total m e m' e' R past before :
  budget_loop ids total m e = Some (m', e') →
  ∃ past', rtc sys_step (mkSystem e m R past before) (mkSystem e' m' R past' before).
Proof.
  revert total m e past. induction ids as [|i ids IH]; intros total m e past E.
  { injection E as <- <-. by exists past. }
  apply budget_loop_cons in E as [[-> ->]|(total1 & m1 & e1 & E1 & E)]; [by exists past|].
  destruct (IH total1 m1 e1 (e1 :: past) E) as [past' Hr]. exists past'.
  eapply rtc_l; [|exact Hr]. by apply (sys_trim (mkSystem e m R past before) i total).
Qed.

Lemma Maintain_steps S m' e' :
  Maintain (sy_master S) (sy_engine S) = Some (m', e') →
  ∃ past, rtc sys_step S (mkSystem e' m' (sy_replicas S) past (sy_before S)).
Proof.
  destruct S as [e m R past before]. cbn. unfold Maintain, mbind, stM_bind.
  destruct (CollectGarbage m e) as [[[] e1]|] eqn:E1; [|done]. intros E2.
  assert (∃ past1, rtc sys_step (mkSystem e m R past before) (mkSystem e1 m R past1 before)) as [past1 H1].
  { unfold CollectGarbage in E1. destruct (ms_replicas_ m); [injection E1 as <-; by exists past|].
    by eapply collect_steps. }
  assert (∃ past2, rtc sys_step (mkSystem e1 m R past1 before) (mkSystem e' m' R past2 before)) as [past2 H2].
  { unfold EnforceBudget in E2. destruct (_ <=? _); [injection E2 as <- <-; by exists past1|].
    by eapply budget_steps. }
  exists past2. by etrans.
Qed.

(** ** Catching up *)

Lemma seen_quiet e : seen e [] e (λ i, quiet (slots_at e i)).
Proof. intros i k. exists [], [], e. by repeat split; constructor. Qed.

Lemma poll_once_step S rnd now id sl max_frames m' sl' :
  system_ok S → sy_replicas S !! id = Some sl → is_u64 now →
  (∀ i, (i < SlotCount (sy_engine S))%nat → sendable i (slots_at (sy_engine S) i)) →
  ms_next_session_seq_ (sy_master S) < UINT64_MAX →
  poll_once rnd now (SlotCount (sy_engine S)) (slots_at (sy_engine S)) id max_frames
    (sy_master S, sl) = Some (m', sl') →
  sys_step S (mkSystem (sy_engine S) m' (<[id := sl']> (sy_replicas S)) (sy_past S)
    (sy_before S)) ∧
  ms_next_session_seq_ m' <= ms_next_session_seq_ (sy_master S) + 1.
Proof.
  intros HS Hsl Hn Hsend Hnext E. unfold poll_once in E. cbn [fst snd] in E.
  destruct (Poll _ _ _ _ _ _) as [[frames m1]|] eqn:Ep; [|done]. cbn [mbind option_bind] in E.
  destruct (enqueue_all rnd now frames sl) as [sl1|] eqn:Een; [|done].
  injection E as <- <-. pose proof (so_replicas _ HS id sl Hsl) as [K1 K2 K3 K4 K5].
  assert (answers S [] (sy_engine S) (λ i, quiet (slots_at (sy_engine S) i))
    (λ i, quiet (slots_at (sy_engine S) i)) id sl max_frames frames m1) as HA.
  { split; try done; [constructor|apply HS|apply seen_quiet..]. }
  split.
  - apply (sys_poll S [] (sy_engine S) _ _ id sl max_frames frames m1 rnd now (length frames) sl1
      Hsl Hn HA); [done|]. by rewrite firstn_all.
  - destruct (Poll_answer (λ i, quiet (slots_at (sy_engine S) i)) (λ i, quiet (slots_at (sy_engine S) i))
      _ (sy_master S) id sl max_frames (so_master _ HS) K3) as
      (r & slots & b & completed & m2 & _ & E & _ & _ & _ & _ & _ & _ & _ & [_ Hiss]);
      [eapply seen_ok; [apply HS|apply seen_quiet]|done|].
    rewrite Ep in E. injection E as _ ->. pose proof (so_next _ HS).
    destruct (rp_reset r); [destruct Hiss as [_ ->]|rewrite Hiss]; u64_lia.
Qed.

Lemma polls_steps n S rnd clock id sl max_frames m' sl' :
  system_ok S → sy_replicas S !! id = Some sl → (∀ k, is_u64 (clock k)) →
  (∀ i, (i < SlotCount (sy_engine S))%nat → sendable i (slots_at (sy_engine S) i)) →
  ms_next_session_seq_ (sy_master S) + Z.of_nat n <= UINT64_MAX →
  polls rnd clock (SlotCount (sy_engine S)) (slots_at (sy_engine S)) id max_frames n
    (sy_master S, sl) = Some (m', sl') →
  rtc sys_step S (mkSystem (sy_engine S) m' (<[id := sl']> (sy_replicas S)) (sy_past S)
    (sy_before S)).
Proof.
  revert S clock sl. induction n as [|n IH]; intros S clock sl HS Hsl Hn Hsend Hnext E.
  { injection E as <- <-. rewrite insert_id by done. by destruct S. }
  cbn [polls] in E. destruct (poll_once _ _ _ _ _ _ _) as [[m1 sl1]|] eqn:E1; [|done].
  cbn [mbind option_bind] in E.
  destruct (poll_once_step S rnd (clock 0%nat) id sl max_frames m1 sl1) as [Hstep Hle];
    [done|done|done|done|lia|done|].
  eapply rtc_l; [exact Hstep|].
  assert (system_ok (mkSystem (sy_engine S) m1 (<[id := sl1]> (sy_replicas S)) (sy_past S)
    (sy_before S))) as HS1
    by (by eapply sys_step_ok).
  specialize (IH _ (λ k, clock (Datatypes.S k)) sl1 HS1).
  cbn [sy_engine sy_master sy_replicas sy_past sy_before] in IH. rewrite insert_insert_eq in IH.
  apply IH; [apply lookup_insert_eq|done|done|lia|exact E].
Qed.

Lemma system_settled S :
  system_ok S → (∀ i, (i < SlotCount (sy_engine S))%nat → sendable i (slots_at (sy_engine S) i)) →
  settled (HI := past_of (sy_past S)) (SlotCount (sy_engine S)) (slots_at (sy_engine S)).
Proof. intros HS Hsend. split; [intros i; by apply slots_at_ok, HS|apply HS|done]. Qed.

(** From the invariant: enough polls bring any replica to the primary. *)
Lemma system_catches_up S id sl rnd clock max_frames n :
  system_ok S → sy_replicas S !! id = Some sl → (0 < max_frames)%nat →
  (∀ k, is_u64 (clock k)) →
  (∀ i, (i < SlotCount (sy_engine S))%nat → sendable i (slots_at (sy_engine S) i)) →
  ms_next_session_seq_ (sy_master S) + Z.of_nat n <= UINT64_MAX →
  (Datatypes.S (lag_bound (SlotCount (sy_engine S)) (slots_at (sy_engine S))) < n)%nat →
  ∃ m' sl', polls rnd clock (SlotCount (sy_engine S)) (slots_at (sy_engine S)) id max_frames n
      (sy_master S, sl) = Some (m', sl') ∧
    rtc sys_step S (mkSystem (sy_engine S) m' (<[id := sl']> (sy_replicas S)) (sy_past S)
    (sy_before S)) ∧
    ∀ i p, slots_ (sy_engine S) !! i = Some p → in_sync i sl' p ∧ CanReadSlot sl' i = true.
Proof.
  intros HS Hsl Hmax Hclock Hsend Hnext Hn.
  pose proof (so_replicas _ HS id sl Hsl) as HK. pose proof HK as [K1 K2 K3 K4 K5].
  destruct (polls_catch_up (HI := past_of (sy_past S)) rnd (SlotCount (sy_engine S))
    (slots_at (sy_engine S)) id max_frames n clock (sy_master S) sl) as (m' & sl' & E & _ & Hall);
    [by apply system_settled|done..|apply HS|done|done|by apply (replica_linked _ _ _ _ _ _ (so_names _ HS) (so_next _ HS) HK)| |done|].
  - pose proof (so_next _ HS). lia.
  - exists m', sl'. split; [done|]. split; [by eapply polls_steps|].
    intros i p Hp. pose proof (lookup_lt_Some _ _ _ Hp) as Hi. specialize (Hall i Hi).
    unfold slots_at in Hall. by rewrite Hp in Hall.
Qed.
End system.
