(* ===== verification/Limits.v ===== *)
(** * Answers within the limits of the link

    The codec of the replica's end takes arrays of up to a million elements
    and streams of up to 256 MiB. An answer of the primary stays below both
    when no slot has a record or an image larger than half of that: a batch
    ends at 16 MiB unless it is a single frame, and every frame is only a
    little longer on the wire than the primary counts for it. *)

From S2P Require Import Prelude Text Containers Double RedisObject Binlog HashSlot Engine Response Command Dispatcher Replay Resp ReplFrame SnapshotCodec Slave Convergence Interference Master Shipping Socket Link Round Polling CatchUp System.

Section limits.
Context {IC : ImmutableContainer} {RL : RespLib}.
Context {CL : ContainerLaws IC} {RW : RespLaws RL}.

(** The answer fits the link. *)
Definition link_fits (frames : list Frame) : Prop :=
  size_of (wire frames) <= 256 * 1024 * 1024 ∧
  Forall (transmissible (RespCodec.limits_ link_codec)) frames.

(** What a slot must not exceed. *)
Definition kMiB : Z := 1024 * 1024.
Definition record_fits (r : BinlogRecord) : Prop :=
  Z.of_nat (length (rec_args r)) <= 999992 ∧ EstimateBinlogRecordBytes r <= 128 * kMiB.

Record slot_fits (p : HashSlot) : Prop := {
  fi_records : Forall record_fits (BinlogBuffer.records_ (binlog_buffer_ p));
  fi_image payload : EncodeSnapshotPayload (redis_obj_map_ p) = Some payload →
    size_of payload <= 128 * kMiB;
}.

(** ** Frames on the wire *)

Lemma pack_command_bound args :
  Forall (λ arg, size_of arg <= UINT64_MAX) args → Z.of_nat (length args) <= UINT64_MAX →
  size_of (pack_command args) <= sumZ size_of args + 25 * Z.of_nat (length args) + 23.
Proof.
  intros Ha Hl. rewrite pack_command_unfold, size_of_app. pose proof (pack_bulks_bound args Ha).
  pose proof (to_string_size (Z.of_nat (length args)) ltac:(split; lia)) as Hd.
  unfold size_of at 1. rewrite wire_number_length. unfold size_of at 1 in Hd. lia.
Qed.

Lemma transmissible_bound f :
  frame_ok f → Z.of_nat (length (frame_args f)) <= 1000000 →
  size_of (EncodeFrame f) <= 256 * kMiB → transmissible (RespCodec.limits_ link_codec) f.
Proof.
  intros Hf Hl Hs. split; [done|]. split; [cbn; lia|].
  split; [change (max_array_elements _) with 1000000; done|]. split; [unfold INT64_MAX; lia|].
  apply Forall_forall. intros arg Harg%pack_bulks_arg_size.
  unfold EncodeFrame in Hs. rewrite pack_command_unfold, size_of_app in Hs.
  change (max_bulk_bytes _) with (256 * kMiB).
  pose proof (size_of_nonneg (wire_number "*"%char (Z.of_nat (length (frame_args f))))). lia.
Qed.

Lemma encode_pairs_bound slots :
  Forall (λ '(slot, seq), is_u64 slot ∧ is_u64 seq) slots →
  Forall (λ arg, size_of arg <= 20) (encode_pairs slots).
Proof.
  induction 1 as [|[slot seq] slots [H1 H2] _ IH]; [done|]. rewrite encode_pairs_cons.
  constructor; [by apply to_string_size|]. constructor; [by apply to_string_size|done].
Qed.


(** A longer array is refused at its first line, so a record beyond the limit
    never gets through the link: the poll fails there, and so does the next. *)
Lemma long_record_refused fuel rnd now started sl session i r rest :
  999992 < Z.of_nat (length (rec_args r)) < INT64_MAX - 8 →
  ∃ l, drain_frames (S fuel) rnd now
      (mkLink (RespCodec.with_stream link_codec (EncodeFrame (Frame_Log session i r) +:+ rest)) started sl) =
      Some (LinkFailed, l) ∧ lk_slave l = sl.
Proof.
  intros Hl. cbn [drain_frames lk_codec]. unfold EncodeFrame.
  rewrite NextCommand_too_many.
  - by eexists.
  - done.
  - cbn [frame_args Frame_Log fr_subcmd fr_record app length]. unfold is_i64, INT64_MIN, INT64_MAX in *. lia.
  - cbn [frame_args Frame_Log fr_subcmd fr_record app length].
    change (max_array_elements _) with 1000000. lia.
Qed.

(** A frame of a batch, and how long it is. *)
Record frame_fits (session : string) (f : Frame) : Prop := {
  ff_ok : frame_ok f;
  ff_length : Z.of_nat (length (frame_args f)) <= 1000000;
  ff_bytes : frame_bytes f <= 128 * kMiB;
  ff_wire : size_of (EncodeFrame f) <= frame_bytes f + size_of session + 400;
}.

Lemma sumZ_le {A} (f g : A → Z) l : (∀ x, x ∈ l → f x <= g x) → sumZ f l <= sumZ g l.
Proof.
  unfold sumZ. induction l as [|x l IH]; intros H; cbn [foldr]; [lia|].
  assert (f x <= g x) by (apply H; by left).
  enough (foldr (λ x a, f x + a) 0 l <= foldr (λ x a, g x + a) 0 l) by lia.
  apply IH. intros y Hy. apply H. by right.
Qed.

Lemma elem_sum {A} (f : A → Z) l x : (∀ y, 0 <= f y) → x ∈ l → f x <= sumZ f l.
Proof.
  intros Hf. unfold sumZ. induction 1 as [x l|x y l _ IH]; cbn [foldr].
  - pose proof (sumZ_nonneg f l Hf) as H. unfold sumZ in H. lia.
  - specialize (Hf y). lia.
Qed.

Lemma log_fits session i r :
  is_u64 i → record_numbers r → record_fits r → size_of session <= UINT64_MAX →
  frame_fits session (Frame_Log session i r).
Proof.
  intros Hi (Hq & Hw & Hd) [Hl Hb] Hs.
  pose proof (BinlogBuffer.Estimate_args r) as He.
  assert (Forall (λ arg, size_of arg <= UINT64_MAX) (rec_args r)) as Hargs.
  { apply Forall_forall. intros arg Harg%(elem_sum size_of); [|apply size_of_nonneg].
    unfold kMiB, UINT64_MAX in *. lia. }
  assert (is_u64 (Z.of_nat (length (rec_args r)))) as Hn by (unfold is_u64, UINT64_MAX; lia).
  split.
  - apply Log_ok; [done|]. split; [done|]. unfold UINT64_MAX. lia.
  - cbn [frame_args Frame_Log fr_subcmd fr_record app length]. lia.
  - exact Hb.
  - unfold EncodeFrame, frame_bytes. cbn [Frame_Log fr_subcmd fr_record].
    assert (frame_args (Frame_Log session i r) = ["CACHE.REPL"; "LOG"; session; to_string i;
      to_string (rec_seq r); to_string (rec_written_at_us r); to_string (rec_deadline_us r);
      number_of_nat (length (rec_args r))] ++ rec_args r) as -> by reflexivity.
    etrans; [apply pack_command_bound|].
    + apply Forall_app. split; [|done]. assert (20 <= UINT64_MAX) by (by vm_compute).
      repeat constructor; try done; (etrans; [by apply to_string_size|done]).
    + rewrite length_app. cbn [length]. unfold UINT64_MAX. lia.
    + rewrite sumZ_app, length_app. unfold sumZ at 1. cbn [foldr length].
      change (size_of "CACHE.REPL") with 10. change (size_of "LOG") with 3.
      pose proof (to_string_size i Hi). pose proof (to_string_size _ Hq).
      pose proof (to_string_size _ Hw). pose proof (to_string_size _ Hd).
      pose proof (to_string_size _ Hn). unfold number_of_nat. lia.
Qed.

Lemma snapshot_fits session i seq payload :
  is_u64 i → is_u64 seq → size_of payload <= 128 * kMiB → size_of session <= UINT64_MAX →
  frame_fits session (Frame_Snapshot session i seq payload).
Proof.
  intros Hi Hq Hp Hs. split; [by apply Snapshot_ok|by vm_compute|exact Hp|].
  unfold EncodeFrame, frame_bytes. cbn [Frame_Snapshot fr_subcmd fr_snapshot_payload].
  assert (frame_args (Frame_Snapshot session i seq payload) = ["CACHE.REPL"; "SNAPSHOT"; session;
    to_string i; to_string seq; payload]) as -> by reflexivity.
  assert (20 <= UINT64_MAX ∧ 128 * kMiB <= UINT64_MAX) as [H20 Hmax] by (by vm_compute).
  etrans; [apply pack_command_bound; [|by vm_compute]|].
  - repeat constructor; try done; [by etrans; [apply to_string_size|]..|by etrans].
  - unfold sumZ. cbn [foldr length].
    change (size_of "CACHE.REPL") with 10. change (size_of "SNAPSHOT") with 8.
    pose proof (to_string_size i Hi). pose proof (to_string_size _ Hq). lia.
Qed.

Lemma begin_fits session reset :
  session ≠ "" → size_of session <= UINT64_MAX →
  frame_ok (Frame_Begin session reset) ∧
  size_of (EncodeFrame (Frame_Begin session reset)) <= size_of session + 400.
Proof.
  intros Hne Hs. split; [by apply Begin_ok|]. unfold EncodeFrame.
  assert (frame_args (Frame_Begin session reset) =
    ["CACHE.REPL"; "BEGIN"; session; if reset then "1" else "0"]) as -> by reflexivity.
  etrans; [apply pack_command_bound; [|by vm_compute]|].
  - repeat constructor; try done; by destruct reset.
  - unfold sumZ. cbn [foldr length]. change (size_of "CACHE.REPL") with 10.
    change (size_of "BEGIN") with 5. destruct reset; change (size_of (String _ "")) with 1; lia.
Qed.

Lemma done_fits session slots :
  positions_ok slots → Z.of_nat (length slots) <= 100003 → size_of session <= UINT64_MAX →
  frame_ok (Frame_Done session slots) ∧
  Z.of_nat (length (frame_args (Frame_Done session slots))) <= 1000000 ∧
  size_of (EncodeFrame (Frame_Done session slots)) <= size_of session + 10 * kMiB.
Proof.
  intros Hp Hl Hs. split; [by apply Done_ok|].
  destruct Hp as [Hp%encode_pairs_bound Hu]. pose proof (sumZ_bound _ _ _ Hp) as Hsum.
  pose proof (encode_pairs_length slots) as Hle.
  assert (frame_args (Frame_Done session slots) = ["CACHE.REPL"; "DONE"; session;
    number_of_nat (length slots)] ++ encode_pairs slots) as Hargs by reflexivity.
  assert (size_of (number_of_nat (length slots)) <= 20) as Hn
    by (apply to_string_size; unfold is_u64; lia).
  unfold EncodeFrame. rewrite Hargs. split; [rewrite length_app, Hle; cbn [length]; lia|].
  etrans; [apply pack_command_bound|].
  - assert (20 <= UINT64_MAX) by (by vm_compute). apply Forall_app. split.
    + repeat constructor; try done; by etrans.
    + eapply Forall_impl; [exact Hp|]. cbn. intros arg Harg. by etrans.
  - rewrite length_app, Hle. cbn [length]. unfold UINT64_MAX. lia.
  - rewrite sumZ_app, length_app, Hle. unfold sumZ at 1. cbn [foldr length].
    change (size_of "CACHE.REPL") with 10. change (size_of "DONE") with 4. unfold kMiB. lia.
Qed.

(** ** The batch of an answer *)

Lemma wire_cons f fs : wire (f :: fs) = EncodeFrame f +:+ wire fs.
Proof. reflexivity. Qed.

Lemma wire_app fs gs : wire (fs ++ gs) = wire fs +:+ wire gs.
Proof. unfold wire. by rewrite fmap_app, packed_app. Qed.

(** A batch of frames that fit, between its BEGIN and its DONE. *)
Lemma batch_fits session reset batch completed :
  session ≠ "" → size_of session <= 8192 → Forall (frame_fits session) batch →
  (length batch <= 4096)%nat →
  (sumZ frame_bytes batch <= kMaxBatchPayloadBytes ∨ (length batch <= 1)%nat) →
  positions_ok completed → Z.of_nat (length completed) <= 100003 →
  link_fits (Frame_Begin session reset :: batch ++ [Frame_Done session completed]).
Proof.
  intros Hne Hs Hb Hl Hbytes Hpos Hc.
  assert (size_of session <= UINT64_MAX) as Hsu by (unfold UINT64_MAX; lia).
  destruct (begin_fits session reset Hne Hsu) as [Hbok Hbs].
  destruct (done_fits session completed Hpos Hc Hsu) as (Hdok & Hdl & Hds).
  assert (sumZ frame_bytes batch <= 128 * kMiB) as Htotal.
  { destruct Hbytes as [H|H]; [unfold kMaxBatchPayloadBytes, kMiB in *; lia|].
    destruct batch as [|f [|]]; [by vm_compute| |cbn in H; lia]. unfold sumZ. cbn [foldr].
    apply Forall_cons in Hb as [Hf _]. pose proof (ff_bytes _ _ Hf). lia. }
  assert (size_of (wire batch) <= sumZ frame_bytes batch + 8592 * Z.of_nat (length batch)) as Hwire.
  { clear -Hb Hs RW. unfold sumZ. induction Hb as [|f l Hf _ IH]; [done|].
    rewrite wire_cons, size_of_app. cbn [foldr length]. pose proof (ff_wire _ _ Hf). lia. }
  split.
  - rewrite wire_cons, wire_app, wire_cons, !size_of_app. change (size_of (wire [])) with 0.
    unfold kMiB in *. lia.
  - constructor; [|apply Forall_app; split; [|constructor; [|done]]].
    + apply transmissible_bound; [done|by vm_compute|unfold kMiB; lia].
    + eapply Forall_impl; [exact Hb|]. intros f [H1 H2 H3 H4].
      apply transmissible_bound; [done|done|unfold kMiB in *; lia].
    + apply transmissible_bound; [done|done|unfold kMiB in *; lia].
Qed.

Context {HI : History}.

(** The numbers of the records of a slot fit 64 bits. *)
Lemma run_records_numbers i s evs s' :
  primary_run i s evs s' → is_u64 (slot_seq_ s) →
  slot_seq_ s + Z.of_nat (length evs) <= UINT64_MAX →
  Forall record_numbers (run_records (slot_seq_ s) evs).
Proof.
  induction 1 as [s _|s ev s1 evs s2 _ _ Hf Hc Hr IH|s seq evs s2 _ Hr IH]; intros Hu Hroom.
  - constructor.
  - rewrite run_records_event. cbn [length] in Hroom.
    assert (slot_seq_ s1 = slot_seq_ s + 1) as E by (rewrite (co_seq _ _ _ _ _ _ Hc); u64_lia).
    constructor; [eapply event_record_numbers; [|exact Hf]; unfold is_u64 in *; lia|].
    rewrite <-E. apply IH; unfold is_u64 in *; lia.
  - by apply IH.
Qed.

Lemma moves_records i p :
  moves i HashSlot_new p → Forall record_numbers (BinlogBuffer.records_ (binlog_buffer_ p)).
Proof.
  intros (evs & Hr & Hroom). pose proof (HashSlot_new_ok i) as Hok.
  assert (slot_seq_ HashSlot_new + Z.of_nat (length evs) <= UINT64_MAX) as Hroom'
    by (unfold INT64_MAX, UINT64_MAX in *; lia).
  destruct (primary_run_log i _ evs p Hr eq_refl (so_seq _ _ Hok) (so_bytes _ _ Hok) Hroom')
    as (_ & dropped & E).
  pose proof (run_records_numbers i _ evs p Hr (so_seq _ _ Hok) Hroom') as Hn.
  change (BinlogBuffer.records_ (binlog_buffer_ HashSlot_new)) with (@nil BinlogRecord) in E.
  rewrite app_nil_l in E. rewrite E in Hn. by apply Forall_app in Hn as [_ Hn].
Qed.

(** ** Whole answers *)

Lemma slot_frames_fit session i p :
  moves i HashSlot_new p → slot_ok i p → slot_fits p → Z.of_nat i <= UINT64_MAX →
  size_of session <= UINT64_MAX → slot_frames (frame_fits session) session i p.
Proof.
  intros Hm Hok [Hr Hp] Hi Hs. pose proof (moves_records i p Hm) as Hn.
  rewrite Forall_forall in Hr, Hn. split.
  - intros log Hlog. apply log_fits; [unfold is_u64; lia|by apply Hn|by apply Hr|done].
  - intros payload E. apply snapshot_fits; [unfold is_u64; lia| |by apply Hp|done].
    rewrite (so_published _ _ Hok). apply Hok.
Qed.

Lemma round_session_size rnd now count hello_view view m id sl max_frames
    r slots b completed m' slb slm sl' :
  round rnd now count hello_view view m id sl max_frames r slots b completed m' slb slm sl' →
  0 <= ms_next_session_seq_ m <= UINT64_MAX →
  size_of (rp_session_id r) <=
    Z.max (size_of (sl_session_id_ sl)) (size_of (ms_epoch_ m) + size_of id + 22).
Proof.
  intros R Hnext. pose proof (rd_issues R) as [_ Hi]. pose proof (rd_cont R) as Hc.
  destruct (rp_reset r).
  - destruct Hi as [-> _]. rewrite !size_of_app. change (size_of "-") with 1.
    pose proof (to_string_size (ms_next_session_seq_ m) Hnext). lia.
  - destruct (Hc eq_refl) as [-> _]. lia.
Qed.

Lemma answer_fits rnd now count hello_view view p after m id sl
    r slots b completed m' slb slm sl' :
  round rnd now count hello_view view m id sl 4096 r slots b completed m' slb slm sl' →
  master_ok count m → answering count hello_view view p after → id ≠ "" →
  (∀ i, (i < count)%nat → slot_fits (view i 4%nat)) → Z.of_nat count <= 100003 →
  0 <= ms_next_session_seq_ m <= UINT64_MAX →
  size_of (sl_session_id_ sl) <= 8192 → size_of (ms_epoch_ m) + size_of id <= 8170 →
  link_fits (Frame_Begin (rp_session_id r) (rp_reset r) ::
               bd_frames b ++ [Frame_Done (rp_session_id r) completed]).
Proof.
  intros R Hm [Hv Hborn _ Hread Hsent _] Hid Hfits Hcount Hnext Hsl He.
  pose proof (round_session_size _ _ _ _ _ _ _ _ _ _ _ _ _ _ _ _ _ R Hnext) as Hsession.
  assert (size_of (rp_session_id r) <= 8192) as Hs by lia.
  destruct (Poll_ok hello_view view count m (BuildHelloFrame id (sl_session_id_ sl) sl kProtocolVersion)
    4096 Hm Hv) as (frames & m1 & Ep & _ & Hbatch).
  rewrite (rd_poll R) in Ep. injection Ep as <- _.
  cbn [BuildHelloFrame Frame_Hello fr_subcmd fr_proto_version fr_replica_id] in Hbatch.
  rewrite bool_decide_eq_true_2, Z.eqb_refl in Hbatch by done.
  rewrite (proj2 (String.eqb_neq id "")) in Hbatch by done. cbn [negb andb] in Hbatch.
  destruct Hbatch as (session & reset & batch & compl & Eb & Hlen & Hbytes & _).
  injection Eb as <- <- Eb. apply app_inj_tail in Eb as [<- Eb].
  destruct (build_loop_completed _ _ _ _ _ _ (rd_loop R)) as (fin & Hfin & Hfl & Hall).
  unshelve epose proof (build_loop_grows (frame_fits (rp_session_id r)) _ _ _ _ _ _ _ (rd_loop R))
    as (f & Hf & Hfr).
  - intros i (k & -> & Hk%elem_of_seq)%list_elem_of_fmap.
    assert ((rp_next_slot r + k) mod count < count)%nat as Hi by (apply Nat.mod_upper_bound; lia).
    apply slot_frames_fit; [|apply Hsent; done|by apply Hfits|unfold UINT64_MAX; lia|unfold UINT64_MAX; lia].
    eapply moves_trans; [by apply Hborn|by apply Hread|apply HashSlot_new_ok|done].
  - cbn [fst snd bd_frames] in Hf, Hfin. rewrite app_nil_l in Hf, Hfin. subst f fin.
    rewrite length_fmap, length_seq in Hfl.
    apply batch_fits; [apply (rd_serving R)|exact Hs|exact Hfr|exact Hlen|exact Hbytes| |lia].
    split; [|unfold UINT64_MAX; lia]. eapply Forall_impl; [exact Hall|].
    intros [slot pos] (i & k & (j & -> & Hj%elem_of_seq)%list_elem_of_fmap & [= -> ->]).
    assert ((rp_next_slot r + j) mod count < count)%nat as Hi by (apply Nat.mod_upper_bound; lia).
    split; [unfold is_u64, UINT64_MAX; lia|]. rewrite (so_published _ _ (Hv _ k)). apply (Hv _ k).
Qed.
End limits.
