(* ===== verification/EndToEnd.v ===== *)
(** * A poll, from the replica's socket to the primary's and back

    The two ends of a poll, composed: the bytes [PollReplicaOnce] of a replica
    writes (Link.v) are what [ConnectionRoutine] of the primary reads
    (Server.v), and what the primary writes is what the replica reads. Either
    side may write and read in pieces, and the connection may break in both
    directions, anywhere. *)

From S2P Require Import Prelude Text Containers RedisObject Binlog HashSlot Engine Response Command Dispatcher Resp ReplFrame SnapshotCodec Slave Convergence Interference Master Shipping Socket Server Worker Link Startup Process Clients Round Polling Sessions CatchUp System Limits.

Section end_to_end.
Context {IC : ImmutableContainer} {RL : RespLib}.
Context {CL : ContainerLaws IC} {RW : RespLaws RL}.

(** ** The primary's side *)

Lemma WriteAll_spec bytes s :
  let '(ok, s') := WriteAll bytes s in
  ∃ p q, bytes = p +:+ q ∧ so_sent s' = so_sent s +:+ p ∧ (ok = true ↔ q = "").
Proof. apply write_bytes_spec. Qed.

Lemma write_all_spec l s :
  ∃ p q, foldr String.append "" l = p +:+ q ∧ so_sent (write_all l s).2 = so_sent s +:+ p.
Proof.
  revert s. induction l as [|bytes l IH]; intros s; cbn [write_all foldr].
  { exists "", "". split; [done|]. symmetry. apply string_app_nil_r. }
  pose proof (WriteAll_spec bytes s) as H. destruct (WriteAll bytes s) as [ok s'].
  destruct H as (p & q & Hpq & Hs' & Hok). destruct ok.
  - destruct (IH s') as (p' & q' & E & Hs2). exists (bytes +:+ p'), q'.
    rewrite E, string_app_assoc. split; [done|].
    rewrite Hs2, Hs'. rewrite (proj1 Hok eq_refl), string_app_nil_r in Hpq. subst p.
    by rewrite string_app_assoc.
  - exists p, (q +:+ foldr String.append "" l). split; [|done].
    by rewrite Hpq, string_app_assoc.
Qed.

Lemma wire_concat frames : foldr String.append "" (EncodeFrame <$> frames) = wire frames.
Proof. unfold wire. induction frames as [|f fs IH]; [done|]. cbn. by rewrite IH. Qed.

(** A new connection on which one command is arriving. *)
Section request.
Context (n : node) (args : list string) (Hl : within_limits (RespCodec.limits_ (new_codec n)) args).
Context (Ha : accepts (Some (accept_command n)) args = true).
Context (Hsize : size_of (pack_command args) <= 64 * 1024 * 1024).

Definition arriving_at (stream : string) (env : environment) (s : socket) : connection :=
  mkConnection (RespCodec.with_stream (new_codec n) stream) "" s n env.

(** A read that does not complete it. *)
Lemma request_read bytes reads stream rest env s :
  stream +:+ (bytes +:+ rest) = pack_command args → rest ≠ "" →
  ConnectionLoop (ReadBytes bytes :: reads) (arriving_at stream env s) =
  ConnectionLoop reads (arriving_at (stream +:+ bytes) env s).
Proof.
  intros Hs Hrest. unfold arriving_at. cbn [ConnectionLoop].
  rewrite AppendBytes_fits; [|done|].
  2:{ cbn [RespCodec.with_stream RespCodec.stream_ RespCodec.max_stream_bytes_ new_codec RespCodec.new
        cn_codec].
      rewrite <-Hs in Hsize. unfold size_of in *. rewrite !length_app_string in Hsize. lia. }
  cbn [negb cn_codec cn_socket cn_node cn_env].
  change (RespCodec.with_stream (RespCodec.with_stream (new_codec n) stream) ?x)
    with (RespCodec.with_stream (new_codec n) x).
  cbn [RespCodec.with_stream RespCodec.stream_ ProcessInput cn_codec cn_node cn_socket cn_env cn_out].
  destruct (NextCommand_partial (RespCodec.with_stream (new_codec n) (stream +:+ bytes))
    (Some (accept_command n)) args rest) as [E|[E _]];
    [done|cbn; by rewrite string_app_assoc|done|done| |congruence].
  unfold RespCodec.with_stream in E |- *. cbn [new_codec RespCodec.new RespCodec.stream_ RespCodec.limits_
    RespCodec.max_stream_bytes_ RespCodec.protocol_error_ RespCodec.protocol_error_text_] in E |- *.
  by rewrite E.
Qed.

Lemma request_partial reads stream lost env s :
  stream +:+ (until_close reads +:+ lost) = pack_command args → lost ≠ "" →
  ∃ open c', ConnectionLoop reads (arriving_at stream env s) = Some (open, c') ∧
    cn_node c' = n ∧ cn_socket c' = s.
Proof.
  revert stream. induction reads as [|r reads IH]; intros stream Hs Hlost; [by eexists _, _|].
  destruct r as [bytes|[]| |]; cbn [until_close] in *; [|by apply IH|by eexists _, _..].
  rewrite string_app_assoc in Hs. rewrite (request_read bytes reads stream (until_close reads +:+ lost));
    [|done|].
  - apply IH; [by rewrite string_app_assoc|done].
  - intros Hz. apply (f_equal String.length) in Hz. rewrite length_app_string in Hz.
    destruct lost; [done|]. cbn in Hz. lia.
Qed.

Lemma request_whole reads stream frames n' env s :
  stream +:+ until_close reads = pack_command args → until_close reads ≠ "" → args ≠ [] →
  process_command (env 0%nat).2 (env 0%nat).1 args n = Some (SendFrames frames, n') →
  ∃ c', ConnectionLoop reads (arriving_at stream env s) = Some (false, c') ∧ cn_node c' = n' ∧
    cn_socket c' = (write_all (EncodeFrame <$> frames) s).2.
Proof.
  revert stream. induction reads as [|r reads IH]; intros stream Hs Hne Hargs Hp; [done|].
  destruct r as [bytes|[]| |]; cbn [until_close] in *; [|by apply IH|done..].
  destruct (decide (until_close reads = "")) as [Hend|Hrest].
  2:{ rewrite (request_read bytes reads stream (until_close reads)) by done.
      apply IH; [by rewrite string_app_assoc|done..]. }
  rewrite Hend, string_app_nil_r in *. unfold arriving_at. cbn [ConnectionLoop].
  rewrite AppendBytes_fits; [|done|].
  2:{ cbn [RespCodec.with_stream RespCodec.stream_ RespCodec.max_stream_bytes_ new_codec RespCodec.new
        cn_codec].
      rewrite <-Hs in Hsize. unfold size_of in *. rewrite !length_app_string in Hsize. lia. }
  cbn [negb cn_codec cn_socket cn_node cn_env].
  change (RespCodec.with_stream (RespCodec.with_stream (new_codec n) stream) ?x)
    with (RespCodec.with_stream (new_codec n) x).
  change (RespCodec.stream_ (RespCodec.with_stream (new_codec n) ?x)) with x.
  change (RespCodec.stream_ (RespCodec.with_stream (new_codec n) ?x)) with x.
  cbn [ProcessInput cn_codec cn_node cn_socket cn_env cn_out].
  rewrite (NextCommand_packed _ _ args ""); [|done|cbn; by rewrite Hs, string_app_nil_r|done].
  rewrite Ha. destruct args as [|name rest]; [done|].
  destruct (env 0%nat) as [now rnd]. cbn [fst snd] in Hp. rewrite Hp.
  cbn [mbind option_bind String.eqb app]. destruct (write_all _ s) as [ok s'].
  cbn [negb mbind option_bind]. by eexists.
Qed.
End request.

(** ** The HELLO *)

Lemma slave_positions_ok sl :
  slave_ok sl → Z.of_nat (length (sl_slots_ sl)) <= UINT64_MAX → positions_ok (slave_Positions sl).
Proof.
  intros Hok Hc. unfold slave_Positions. split; [|by rewrite length_imap].
  apply Forall_lookup_2. intros i [slot seq]. rewrite list_lookup_imap.
  destruct (sl_slots_ sl !! i) as [state|] eqn:Hi; [|done]. cbn. intros [= <- <-].
  pose proof (lookup_lt_Some _ _ _ Hi). split; [unfold is_u64; lia|].
  destruct (slave_slot sl i state Hok Hi) as (slot & _ & Hu & _). unfold slave_position.
  destruct (sa_need_snapshot state); [by vm_compute|done].
Qed.

Lemma hello_frame_ok id sl :
  slave_ok sl → Z.of_nat (length (sl_slots_ sl)) <= UINT64_MAX →
  frame_ok (BuildHelloFrame id (sl_session_id_ sl) sl kProtocolVersion).
Proof. intros Hok Hc. by apply Hello_ok, slave_positions_ok. Qed.

Lemma hello_within id sl e m :
  engine_ok e → length (sl_slots_ sl) = SlotCount e →
  let hello := BuildHelloFrame id (sl_session_id_ sl) sl kProtocolVersion in
  size_of (EncodeFrame hello) <= 64 * 1024 * 1024 →
  within_limits (RespCodec.limits_ (new_codec (MasterNode e (Some m)))) (frame_args hello) ∧
  accepts (Some (accept_command (MasterNode e (Some m)))) (frame_args hello) = true.
Proof.
  intros He Hc hello Hsize. unfold SlotCount in Hc. rewrite (ew_count _ (eo_wf _ He)) in Hc.
  assert (Z.of_nat (length (frame_args hello)) = 200012) as Hlen.
  { unfold hello, frame_args, encode_positions. cbn -[slave_Positions encode_pairs Z.of_nat].
    rewrite encode_pairs_length. unfold slave_Positions. rewrite length_imap, Hc. unfold kSlotCount. lia. }
  split; [|unfold accepts, hello; cbn [frame_args accept_command]; apply orb_true_r].
  split; [cbn; lia|]. split.
  { change (max_array_elements _) with kReplicationMaxArrayElements.
    unfold kReplicationMaxArrayElements. lia. }
  split; [unfold INT64_MAX; lia|]. apply Forall_forall. intros arg Harg%pack_bulks_arg_size.
  unfold EncodeFrame in Hsize. rewrite pack_command_unfold, size_of_app in Hsize.
  change (max_bulk_bytes _) with (64 * 1024 * 1024). unfold size_of in *. lia.
Qed.

(** How long a HELLO is. *)
Lemma hello_size id sl :
  slave_ok sl → length (sl_slots_ sl) = Z.to_nat kSlotCount →
  size_of id + size_of (sl_session_id_ sl) <= 32 * 1024 * 1024 →
  size_of (EncodeFrame (BuildHelloFrame id (sl_session_id_ sl) sl kProtocolVersion)) <= 64 * 1024 * 1024.
Proof.
  intros Hok Hc Hs. destruct (slave_positions_ok sl Hok) as [Hp Hu]; [rewrite Hc; by vm_compute|].
  assert (Z.of_nat (length (slave_Positions sl)) = 100003) as Hl
    by (unfold slave_Positions; rewrite length_imap, Hc; reflexivity).
  apply encode_pairs_bound in Hp. pose proof (sumZ_bound _ _ _ Hp) as Hsum.
  pose proof (encode_pairs_length (slave_Positions sl)) as Hle.
  unfold EncodeFrame. rewrite pack_command_unfold, size_of_app. unfold BuildHelloFrame.
  set (slots := slave_Positions sl) in *. set (args := frame_args _).
  assert (args = ["CACHE.REPL"; "HELLO"; id; to_string kProtocolVersion; sl_session_id_ sl;
    number_of_nat (length slots)] ++ encode_pairs slots) as -> by reflexivity.
  pose proof (size_of_nonneg id). pose proof (size_of_nonneg (sl_session_id_ sl)).
  assert (size_of (number_of_nat (length slots)) <= 20) as Hcount
    by (apply to_string_size; unfold is_u64, UINT64_MAX; lia).
  match goal with |- context [pack_bulks ?l] => pose proof (pack_bulks_bound l) as Hb;
    assert (Z.of_nat (length l) = 200012) as Hn by (rewrite length_app, Hle; cbn [length]; lia) end.
  rewrite Hn in *. rewrite sumZ_app in Hb. unfold sumZ at 1 in Hb. cbn [foldr] in Hb.
  change (size_of "CACHE.REPL") with 10 in Hb. change (size_of "HELLO") with 5 in Hb.
  change (size_of (to_string kProtocolVersion)) with 1 in Hb.
  change (size_of (wire_number "*"%char 200012)) with 9.
  match type of Hb with ?P → _ => assert P as Hall end.
  { apply Forall_app. split.
    - repeat constructor; unfold UINT64_MAX; try lia; by vm_compute.
    - eapply Forall_impl; [exact Hp|]. cbn. unfold UINT64_MAX. lia. }
  specialize (Hb Hall). lia.
Qed.

(** What the primary makes of the HELLO it has read. *)
Lemma process_hello rnd now id sl e m frames m' :
  slave_ok sl → Z.of_nat (length (sl_slots_ sl)) <= UINT64_MAX →
  let hello := BuildHelloFrame id (sl_session_id_ sl) sl kProtocolVersion in
  Poll (λ i, quiet (slots_at e i)) (λ i, quiet (slots_at e i)) (SlotCount e) m hello 4096 =
    Some (frames, m') →
  process_command rnd now (frame_args hello) (MasterNode e (Some m)) =
    Some (SendFrames frames, MasterNode e (Some m')).
Proof.
  intros Hok Hc hello Hp. unfold process_command.
  change (IsCacheReplCommand (frame_args hello)) with true. cbn iota.
  rewrite DecodeFrame_frame_args by (by apply hello_frame_ok).
  change (bool_decide (fr_subcmd hello = kHello)) with true. cbn [negb].
  unfold slots_at in Hp. rewrite Hp. done.
Qed.

Lemma string_app_rest a b : a +:+ b = a → b = "".
Proof.
  intros H. apply (f_equal String.length) in H. rewrite length_app_string in H.
  destruct b; [done|cbn in H; lia].
Qed.

(** ** The replica's side *)

Lemma read_nothing reads rnd now l :
  RespCodec.protocol_error_ (lk_codec l) = false → RespCodec.stream_ (lk_codec l) = "" →
  0 <= RespCodec.max_stream_bytes_ (lk_codec l) →
  received reads = "" → read_frames reads rnd now l = Some (false, l).
Proof.
  intros Hp Hs Hmax. induction reads as [|r reads IH]; intros Hr; [done|].
  destruct r as [bytes|again| |]; cbn [received read_frames read_one] in *; [|done|by apply IH|done].
  assert (bytes = "" ∧ received reads = "") as [-> Hr'].
  { apply (f_equal String.length) in Hr. rewrite length_app_string in Hr. cbn in Hr.
    split; (destruct bytes, (received reads); cbn in Hr; [done|lia..]). }
  unfold receive. rewrite AppendBytes_fits by (first [done | by rewrite Hs]). rewrite Hs. cbn [negb].
  replace (RespCodec.with_stream (lk_codec l) ("" +:+ "")) with (lk_codec l)
    by (destruct l as [[] ? ?]; cbn in *; by rewrite Hs).
  rewrite Hs. cbn [String.length drain_frames lk_codec].
  unfold RespCodec.NextCommand. rewrite Hp, Hs. cbn.
  unfold RespCodec.HasProtocolError. rewrite Hp. cbn [mbind option_bind].
  replace (mkLink (lk_codec l) (lk_started l) (lk_slave l)) with l by (by destruct l).
  by apply IH.
Qed.

(** ** A poll *)

(** The bytes of the HELLO that arrive before the connection is closed, if not
    all of it, change nothing; all of it is answered. *)
Definition hello_of (id : string) (sl : SlaveReplicator) : Frame :=
  BuildHelloFrame id (sl_session_id_ sl) sl kProtocolVersion.

Lemma hello_served env writes reads missing id sl e m frames m' :
  engine_ok e → slave_ok sl → length (sl_slots_ sl) = SlotCount e →
  size_of (EncodeFrame (hello_of id sl)) <= 64 * 1024 * 1024 →
  Poll (λ i, quiet (slots_at e i)) (λ i, quiet (slots_at e i)) (SlotCount e) m (hello_of id sl) 4096 =
    Some (frames, m') →
  until_close reads +:+ missing = EncodeFrame (hello_of id sl) →
  ∃ open c', ConnectionLoop reads (new_connection (MasterNode e (Some m)) env writes) =
      Some (open, c') ∧
    (missing ≠ "" ∧ cn_node c' = MasterNode e (Some m) ∧ so_sent (cn_socket c') = "" ∨
     missing = "" ∧ cn_node c' = MasterNode e (Some m') ∧
     ∃ rest, so_sent (cn_socket c') +:+ rest = wire frames).
Proof.
  intros He Hok Hc Hsize Hp Hr.
  destruct (hello_within id sl e m He Hc Hsize) as [Hl Ha].
  unfold new_connection. destruct (decide (missing = "")) as [->|Hne].
  - rewrite string_app_nil_r in Hr.
    destruct (request_whole (MasterNode e (Some m)) (frame_args (hello_of id sl)) Hl Ha Hsize reads ""
      frames (MasterNode e (Some m')) env (mkSocket writes "")) as (c' & E & Hn & Hs).
    + by rewrite string_app_nil_l.
    + rewrite Hr. intros Hz. pose proof (pack_command_nonempty (frame_args (hello_of id sl))) as H.
      unfold EncodeFrame in Hz. rewrite Hz in H. cbn in H. lia.
    + done.
    + apply process_hello; [done| |done]. rewrite Hc. unfold SlotCount. rewrite (ew_count _ (eo_wf _ He)).
      by vm_compute.
    + exists false, c'. split; [exact E|]. right. split; [done|]. split; [done|].
      destruct (write_all_spec (EncodeFrame <$> frames) (mkSocket writes "")) as (p & q & Hpq & Hsent).
      rewrite wire_concat in Hpq. exists q. rewrite Hs, Hsent. by rewrite string_app_nil_l.
  - destruct (request_partial (MasterNode e (Some m)) (frame_args (hello_of id sl)) Hl Ha Hsize reads ""
      missing env (mkSocket writes "")) as (open & c' & E & Hn & Hs); [by rewrite string_app_nil_l|done|].
    exists open, c'. split; [exact E|]. left. rewrite Hs. done.
Qed.

(** What the replica makes of an answer none of which arrives. *)
Lemma poll_unanswered writes reads rnd now port id sl :
  port ≠ 0 → received reads = "" →
  PollReplicaOnce true writes reads rnd now port id sl =
    Some (false, (send_hello true writes port id sl).2, sl).
Proof.
  intros Hport Hr. unfold PollReplicaOnce. destruct (send_hello _ _ _ _ _) as [[] sent]; [|done].
  cbn [negb]. by rewrite read_nothing.
Qed.

Lemma PollReplicaOnce_sent writes reads rnd now port id sl b sent sln :
  PollReplicaOnce true writes reads rnd now port id sl = Some (b, sent, sln) →
  sent = (send_hello true writes port id sl).2.
Proof.
  unfold PollReplicaOnce. destruct (send_hello _ _ _ _ _) as [[] sent0]; cbn [negb snd].
  - destruct (read_frames _ _ _ _) as [[]|]; [|done]. by intros [= _ <- _].
  - by intros [= _ <- _].
Qed.

(** What of the HELLO is sent. *)
Lemma send_hello_spec writes port id sl :
  port ≠ 0 →
  ∃ rest, (send_hello true writes port id sl).2 +:+ rest = EncodeFrame (hello_of id sl) ∧
    ((send_hello true writes port id sl).1 = true ↔ rest = "").
Proof.
  intros Hport. unfold send_hello. rewrite (proj2 (Z.eqb_neq port 0)) by done. cbn [orb negb].
  fold (hello_of id sl).
  pose proof (write_bytes_spec (λ r, match r with WriteInterrupted => true | _ => false end)
    (EncodeFrame (hello_of id sl)) (mkSocket writes "")) as Hw.
  destruct (write_bytes _ _ _) as [ok sock]. destruct Hw as (p & q & Hpq & Hsent & Hok).
  exists q. cbn [fst snd]. rewrite Hsent. cbn [so_sent]. by rewrite string_app_nil_l.
Qed.

(** Both ends of a poll: what arrives at the primary of what the replica sent
    decides whether it answers, what arrives at the replica of what the
    primary sent how many frames of the answer are applied. *)
Lemma poll_both_ends rnd now env pwrites preads lost1 rwrites port id sl e m frames m1 sl' :
  engine_ok e → slave_ok sl → length (sl_slots_ sl) = SlotCount e → port ≠ 0 →
  size_of (EncodeFrame (hello_of id sl)) <= 64 * 1024 * 1024 →
  Poll (λ i, quiet (slots_at e i)) (λ i, quiet (slots_at e i)) (SlotCount e) m (hello_of id sl) 4096 =
    Some (frames, m1) →
  answer_rest false frames → link_fits frames → enqueue_all rnd now frames sl = Some sl' →
  until_close preads +:+ lost1 = (send_hello true rwrites port id sl).2 →
  ∃ open c' m',
    ConnectionLoop preads (new_connection (MasterNode e (Some m)) env pwrites) = Some (open, c') ∧
    cn_node c' = MasterNode e (Some m') ∧
    ∀ rreads lost2, received rreads +:+ lost2 = so_sent (cn_socket c') →
    ∃ b sln n,
      PollReplicaOnce true rwrites rreads rnd now port id sl =
        Some (b, (send_hello true rwrites port id sl).2, sln) ∧
      (m' = m ∧ sln = sl ∨ m' = m1 ∧ enqueue_all rnd now (take n frames) sl = Some sln) ∧
      (b = true → m' = m1 ∧ sln = sl') ∧
      ((send_hello true rwrites port id sl).1 = true → lost1 = "" →
       received rreads = wire frames → b = true).
Proof.
  intros He Hok Hc Hport Hsize Hp Hans [Hfit Htr] Hen Hpre.
  destruct (send_hello_spec rwrites port id sl Hport) as (unsent & Hsent & Hwhole).
  pose proof Hsent as Hsent1. rewrite <-Hpre, string_app_assoc in Hsent.
  destruct (hello_served env pwrites preads (lost1 +:+ unsent) id sl e m frames m1 He Hok Hc Hsize Hp Hsent)
    as (open & c' & E & [(Hlost & Hnode & Hso)|(Hlost & Hnode & rest & Hso)]).
  - exists open, c', m. do 2 (split; [done|]). intros rreads lost2 Hr. rewrite Hso in Hr.
    assert (received rreads = "") as Hnone by (by destruct (received rreads)).
    exists false, sl, 0%nat. split; [by apply poll_unanswered|]. split; [by left|]. split; [done|].
    intros H1 -> _. rewrite (proj1 Hwhole H1) in Hlost. done.
  - exists open, c', m1. do 2 (split; [done|]). intros rreads lost2 Hr.
    destruct (PollReplicaOnce_answer rwrites rreads rnd now port id sl frames sl' (lost2 +:+ rest))
      as (b & sent & n & sln & Ep & Hn & (unsent' & Hu & Hb) & Hall); try done.
    { by rewrite <-Hso, <-Hr, string_app_assoc. }
    assert (sent = (send_hello true rwrites port id sl).2) as -> by (by apply PollReplicaOnce_sent in Ep).
    exists b, sln, n. split; [done|]. split; [by right|]. split; [|intros Hw -> Hrec; apply Hb].
    + intros Hbt. rewrite take_ge in Hn by auto. split; [done|]. congruence.
    + apply (string_app_rest (received rreads)). by rewrite <-string_app_assoc, Hr, Hso, Hrec.
    + fold (hello_of id sl) in Hu. rewrite (proj1 Hwhole Hw), string_app_nil_r in Hsent1.
      rewrite <-Hsent1 in Hu. by apply eq_sym, string_app_rest in Hu.
Qed.

(** ** Polls as steps of the system *)

(** Strings and slots no larger than the limits of the link allow. *)
Record system_fits (S : system) (id : string) (sl : SlaveReplicator) : Prop := {
  yf_slots i : (i < SlotCount (sy_engine S))%nat →
    sendable i (slots_at (sy_engine S) i) ∧ slot_fits (slots_at (sy_engine S) i);
  yf_session : size_of (sl_session_id_ sl) <= 8192;
  yf_name : size_of (ms_epoch_ (sy_master S)) + size_of id <= 8170;
}.

Lemma poll_is_step S rnd now env pwrites preads lost1 rwrites port id sl :
  system_ok S → sy_replicas S !! id = Some sl → is_u64 now → port ≠ 0 →
  system_fits S id sl → ms_next_session_seq_ (sy_master S) < UINT64_MAX →
  until_close preads +:+ lost1 = (send_hello true rwrites port id sl).2 →
  let view i := quiet (slots_at (sy_engine S) i) in
  ∃ frames m1 open c' m',
    Poll view view (SlotCount (sy_engine S)) (sy_master S) (hello_of id sl) 4096 = Some (frames, m1) ∧
    ConnectionLoop preads (new_connection (MasterNode (sy_engine S) (Some (sy_master S))) env pwrites) =
      Some (open, c') ∧
    cn_node c' = MasterNode (sy_engine S) (Some m') ∧
    ∀ rreads lost2, received rreads +:+ lost2 = so_sent (cn_socket c') →
    ∃ b sln,
      PollReplicaOnce true rwrites rreads rnd now port id sl =
        Some (b, (send_hello true rwrites port id sl).2, sln) ∧
      rtc sys_step S (mkSystem (sy_engine S) m' (<[id := sln]> (sy_replicas S)) (sy_past S) (sy_before S)) ∧
      (b = true → poll_once rnd now (SlotCount (sy_engine S)) (slots_at (sy_engine S)) id 4096
         (sy_master S, sl) = Some (m', sln)) ∧
      ((send_hello true rwrites port id sl).1 = true → lost1 = "" →
       received rreads = wire frames → b = true).
Proof.
  intros HS Hsl Hn Hport [Hslots Hses Hname] Hnext Hpre view.
  pose proof (so_replicas _ HS id sl Hsl) as HK. pose proof HK as [K1 K2 K3 _ _].
  assert (∀ i, (i < SlotCount (sy_engine S))%nat → sendable i (slots_at (sy_engine S) i)) as Hsend
    by (intros; by apply Hslots).
  pose proof (ew_count _ (eo_wf _ (so_engine _ HS))) as Hcount.
  pose proof (settled_answering (HI := past_of (sy_past S)) _ _ (system_settled S HS Hsend)) as Hans.
  destruct (Poll_round (HI := past_of (sy_past S)) rnd now _ _ _ _ _ (sy_master S) id sl 4096
    (so_master _ HS) K2 K3 Hn K1 Hans (replica_linked _ _ _ _ _ _ (so_names _ HS) (so_next _ HS) HK))
    as (r & slots & b & completed & m1 & slb & slm & sl' & R).
  pose proof (rd_poll R) as Hp.
  pose proof (round_answer _ _ _ _ _ _ _ _ _ _ _ _ _ _ _ _ _ R) as Hrest.
  pose proof (round_enqueued R) as Hen.
  assert (link_fits (Frame_Begin (rp_session_id r) (rp_reset r) ::
    bd_frames b ++ [Frame_Done (rp_session_id r) completed])) as Hfits.
  { eapply (answer_fits (HI := past_of (sy_past S))); [exact R|apply HS|exact Hans|done| | |
      pose proof (so_next _ HS); lia|done|done].
    - intros i Hi. by apply Hslots.
    - unfold SlotCount. rewrite Hcount. by vm_compute. }
  set (frames := Frame_Begin _ _ :: _) in *.
  destruct (poll_both_ends rnd now env pwrites preads lost1 rwrites port id sl (sy_engine S) (sy_master S)
    frames m1 sl') as (open & c' & m' & E & Hnode & Hread); try done; [apply HS| |].
  { apply hello_size; [done|by rewrite K3|]. pose proof (size_of_nonneg (ms_epoch_ (sy_master S))). lia. }
  exists frames, m1, open, c', m'. split; [exact Hp|]. do 2 (split; [done|]). intros rreads lost2 Hr.
  destruct (Hread rreads lost2 Hr) as (ok & sln & n & Ep & Hstep & Hok & Hall).
  exists ok, sln. split; [exact Ep|]. split; [|split; [|exact Hall]].
  - destruct Hstep as [[-> ->]|[-> Hn']].
    + rewrite insert_id by done. by destruct S.
    + apply rtc_once. refine (sys_poll S [] (sy_engine S) (λ i, quiet (slots_at (sy_engine S) i))
        (λ i, quiet (slots_at (sy_engine S) i)) id sl 4096 frames m1 rnd now n sln Hsl Hn _ Hsend Hn').
      split; try done; [constructor|apply HS|apply seen_quiet..].
  - intros Hb. destruct (Hok Hb) as [-> ->]. unfold poll_once. cbn [fst snd].
    rewrite Hp. cbn [mbind option_bind]. by rewrite Hen.
Qed.
End end_to_end.
