(* ===== verification/Demo.v ===== *)
(** * A small concrete cache

    One engine with a key of every type, over the concrete container, for the
    instances of the theorems at concrete inputs. It is built by the writes
    of the code, so it satisfies the invariant. *)

From S2P Require Import Prelude Text Containers ContainerInstance Double RedisObject Binlog HashSlot Engine Response Command StringCmd Dispatcher Replay Resp RespInstance ReplFrame SnapshotCodec Slave Convergence Master Shipping Socket Server Link Round Polling CatchUp.

(** An object stored under a key, as the SET of an engine stores it. *)
Definition put `{ImmutableContainer} (key : string) (o : RedisObject) (e : CacheEngine)
    : CacheEngine :=
  set_slot e (SlotForKey key) (Set' (slot_of e key) key o (record_of_args ["PUT"; key]) 1).2.

Section put.
Context {IC : ImmutableContainer} {CL : ContainerLaws IC}.

Lemma put_writes key o e :
  engine_ok e → object_ok o →
  engine_writes e key 1 (Write (Some (abs_object o)) ["PUT"; key]) (put key o e).
Proof.
  intros He Ho. pose proof (Set_spec (slot_of e key) key o (record_of_args ["PUT"; key]) 1) as H.
  unfold put. destruct (Set' _ _ _ _ _) as [w s']. destruct H as [Hc _].
  exists (Some o), s'. split; [done|]. split; [by intros x [= <-]|]. done.
Qed.

Lemma put_ok key o e :
  engine_ok e → engine_room e 1 → object_ok o → engine_ok (put key o e).
Proof. intros He Hr Ho. eapply engine_writes_ok; [done|done|by apply put_writes]. Qed.

Lemma put_room key o e n :
  engine_ok e → 0 <= n → engine_room e (n + 1) → object_ok o → engine_room (put key o e) n.
Proof. intros He Hn Hr Ho. eapply engine_writes_room; [done|done|done|by apply put_writes]. Qed.
End put.

#[local] Existing Instance gmap_container.
#[local] Existing Instance gmap_container_laws.

Definition the_double (text : string) : double := default dzero (ParseFiniteDouble text).

Definition demo_objects : list (string * RedisObject) :=
  [("n", MakeString "5");
   ("h", MakeHash (map_Set map_new (pack "f") (pack "7")));
   ("s", MakeSet (set_Add (set_Add set_new (pack "a")) (pack "b")));
   ("z", MakeZSet (map_Set (map_Set map_new (pack "x") (the_double "2")) (pack "y") (the_double "1.5")));
   ("t", WithDeadline (MakeString "soon") 2000)].

(** The engine: an empty cache with the objects put one after another. *)
Definition demo : CacheEngine :=
  foldl (λ e '(key, o), put key o e) CacheEngine_new demo_objects.

Lemma demo_objects_ok : Forall (λ '(_, o), object_ok o) demo_objects.
Proof. apply (bool_decide_unpack _). by vm_compute. Qed.

Lemma puts_ok (l : list (string * RedisObject)) e n :
  engine_ok e → 0 <= n → engine_room e (n + Z.of_nat (length l)) →
  Forall (λ '(_, o), object_ok o) l →
  engine_ok (foldl (λ e '(key, o), put key o e) e l) ∧
  engine_room (foldl (λ e '(key, o), put key o e) e l) n.
Proof.
  intros He Hn Hr Hl. revert e He Hr. induction Hl as [|[key o] l Ho _ IH]; intros e He Hr.
  { split; [done|]. cbn in Hr. by rewrite Z.add_0_r in Hr. }
  cbn [foldl]. cbn [length] in Hr. apply IH.
  - apply put_ok; [done|eapply engine_room_le; [|exact Hr]; lia|done].
  - apply put_room; [done|lia| |done]. eapply engine_room_le; [|exact Hr]. lia.
Qed.

Lemma demo_ok : engine_ok demo ∧ engine_room demo 1000000000.
Proof.
  apply puts_ok; [apply CacheEngine_new_ok|lia|apply new_room; by vm_compute|apply demo_objects_ok].
Qed.

Lemma demo_room n : n <= 1000000000 → engine_room demo n.
Proof. intros Hn. eapply engine_room_le; [exact Hn|apply demo_ok]. Qed.

(** What the engine holds. *)
Lemma demo_live :
  engine_live demo 1000 "n" = Some (mkAObj 0 (AString "5")) ∧
  engine_live demo 1000 "h" = Some (mkAObj 0 (AHash {["f" := "7"]})) ∧
  engine_live demo 1000 "s" = Some (mkAObj 0 (ASet {["a"; "b"]})) ∧
  engine_live demo 1000 "missing" = None ∧
  engine_live demo 1999 "t" = Some (mkAObj 2000 (AString "soon")) ∧
  engine_live demo 2000 "t" = None.
Proof. vm_compute. repeat split. Qed.

(** ** A primary's slot and a replica *)

(** One write, logged as the primary logs it. *)
Definition demo_event : write_event :=
  mkWrite "k" (Some (MakeString "v")) ["SET"; "k"; "v"] 1000.
Definition demo_slot : HashSlot :=
  (Set' HashSlot_new "k" (MakeString "v") (record_of_args ["SET"; "k"; "v"]) 1000).2.

Lemma demo_commits : commits_event HashSlot_new demo_event demo_slot.
Proof.
  pose proof (Set_spec HashSlot_new "k" (MakeString "v") (record_of_args ["SET"; "k"; "v"]) 1000) as H.
  unfold demo_slot. destruct (Set' _ _ _ _ _) as [w s']. apply H.
Qed.

Lemma demo_faithful : faithful_event (slot_map HashSlot_new) demo_event.
Proof.
  split; [by vm_compute| |intros o [= <-]; apply MakeString_ok].
  destruct (write_rel_replays 1000 "SET" "k" ["v"]
    (live (slot_map HashSlot_new) 1000 "k") (Some (mkAObj 0 (AString "v"))) ["SET"; "k"; "v"]
    (SimpleString "OK") (mkEntry SetCmd true false)) as [[H _]|H]; try reflexivity; try done.
  by right.
Qed.

#[global] Existing Instance any_history.

Lemma demo_run : primary_run (SlotForKey "k") HashSlot_new [demo_event] demo_slot.
Proof. by eapply run_cons; [|reflexivity|apply demo_faithful|apply demo_commits|apply run_nil]. Qed.

Lemma demo_slot_ok : slot_ok (SlotForKey "k") demo_slot.
Proof.
  eapply committed_ok; [apply HashSlot_new_ok|by vm_compute|apply demo_commits|done|done|].
  intros o [= <-]. apply MakeString_ok.
Qed.

Lemma demo_slot_objects (P : RedisObject → Prop) :
  P (MakeString "v") → map_Forall (λ _ o, P o) (to_gmap (redis_obj_map_ demo_slot)).
Proof.
  intros HP. rewrite (co_objects _ _ _ _ _ _ demo_commits). cbn [we_key we_entry demo_event].
  apply map_Forall_lookup. intros k o. rewrite lookup_partial_alter.
  case_decide; [by intros [= <-]|].
  change (redis_obj_map_ HashSlot_new) with (map_new : ObjectMap).
  by rewrite to_gmap_new, lookup_empty.
Qed.

(** A replica that has just begun a session with an empty primary. *)
Definition demo_replica : SlaveReplicator :=
  mkSlave (DisableBinlog CacheEngine_new)
    (replicate (SlotCount CacheEngine_new) SlotApplyState_default) "session".

Lemma demo_replica_slots i slot :
  slots_ (sl_engine_ demo_replica) !! i = Some slot → slot = SetLogWrites HashSlot_new false.
Proof.
  unfold demo_replica, DisableBinlog, CacheEngine_new. cbn [sl_engine_ slots_].
  rewrite list_lookup_fmap. intros (s & Hs & ->)%fmap_Some.
  by apply lookup_replicate in Hs as [-> _].
Qed.

Lemma demo_replica_ok : slave_ok demo_replica.
Proof.
  assert (∀ i s, slots_ CacheEngine_new !! i = Some s → s = HashSlot_new) as Hnew.
  { intros i s. unfold CacheEngine_new. cbn [slots_]. by intros [-> _]%lookup_replicate_Some. }
  split.
  - split.
    + split. unfold demo_replica, DisableBinlog. cbn [sl_engine_ slots_].
      rewrite length_fmap. apply CacheEngine_new_ok.
    + intros i s ->%demo_replica_slots. apply SetLogWrites_ok, HashSlot_new_ok.
  - unfold demo_replica, DisableBinlog, SlotCount. cbn [sl_engine_ sl_slots_ slots_].
    by rewrite length_fmap, length_replicate.
  - intros i state slot Hst ->%demo_replica_slots. unfold demo_replica in Hst. cbn [sl_slots_] in Hst.
    apply lookup_replicate_Some in Hst as [-> _]. split; [by vm_compute|done].
Qed.

Lemma demo_in_sync i : (i < SlotCount CacheEngine_new)%nat → in_sync i demo_replica HashSlot_new.
Proof.
  intros Hi. exists SlotApplyState_default, (SetLogWrites HashSlot_new false).
  split; [exact (lookup_replicate_2 _ SlotApplyState_default _ Hi)|].
  split; [|split; [reflexivity|split; reflexivity]].
  unfold demo_replica, DisableBinlog, CacheEngine_new. cbn [sl_engine_ slots_].
  rewrite list_lookup_fmap, lookup_replicate_2; [reflexivity|].
  unfold SlotCount, CacheEngine_new in Hi. cbn [slots_] in Hi. by rewrite length_replicate in Hi.
Qed.

Lemma demo_key_slot key : (SlotForKey key < SlotCount CacheEngine_new)%nat.
Proof.
  unfold SlotCount. rewrite (ew_count _ (eo_wf _ CacheEngine_new_ok)). apply SlotForKey_lt.
Qed.

Definition demo_count : nat := SlotCount CacheEngine_new.

Lemma demo_replica_count : length (sl_slots_ demo_replica) = demo_count.
Proof. exact (length_replicate _ SlotApplyState_default). Qed.

(** A primary that has served one command. *)
Definition demo_primary (i : nat) : HashSlot :=
  if decide (i = SlotForKey "k") then demo_slot else HashSlot_new.

Lemma new_sendable i : sendable i HashSlot_new.
Proof.
  split; [apply HashSlot_new_ok|done|by vm_compute| |by vm_compute].
  change (redis_obj_map_ HashSlot_new) with (map_new : ObjectMap).
  rewrite to_gmap_new. apply map_Forall_empty.
Qed.

Lemma demo_settled : settled demo_count demo_primary.
Proof.
  split; unfold demo_primary; intros i; (destruct (decide (i = SlotForKey "k")) as [->|Hi]).
  - apply demo_slot_ok.
  - apply HashSlot_new_ok.
  - intros _. exists [demo_event]. split; [apply demo_run|by vm_compute].
  - intros _. by apply moves_refl.
  - intros _. split; [apply demo_slot_ok|reflexivity|by vm_compute|by apply demo_slot_objects|by vm_compute].
  - intros _. apply new_sendable.
Qed.

(** ** Maps built from lists of objects *)

Definition map_of (l : list (string * RedisObject)) : ObjectMap :=
  foldl (λ m '(k, o), map_Set m (pack k) o) map_new l.

Lemma map_of_spec l : NoDup l.*1 → to_gmap (map_of l) = list_to_map l.
Proof.
  intros Hl. unfold map_of. rewrite (to_gmap_foldl l map_new Hl).
  rewrite to_gmap_new. apply map_union_empty.
Qed.

Lemma map_of_Forall (P : RedisObject → Prop) l :
  NoDup l.*1 → Forall (λ item, P item.2) l → map_Forall (λ _ o, P o) (to_gmap (map_of l)).
Proof.
  intros Hl Hf k o. rewrite map_of_spec by done. intros Ho%elem_of_list_to_map_2.
  rewrite Forall_forall in Hf. by apply (Hf (k, o)).
Qed.

#[export] Instance double_eq_dec : EqDecision double.
Proof. solve_decision. Defined.

#[export] Instance faithful_dec o : Decision (faithful o).
Proof. unfold faithful, score_faithful. destruct (value_ o); apply _. Defined.

Lemma demo_objects_faithful :
  map_Forall (λ _ o, object_ok o ∧ faithful o) (to_gmap (map_of demo_objects)).
Proof.
  apply (map_of_Forall (λ o, object_ok o ∧ faithful o)); apply (bool_decide_unpack _); by vm_compute.
Qed.

(** A slot of [n] strings, too many for a snapshot when [n] is large. *)
Definition many_objects (n : nat) : list (string * RedisObject) :=
  (λ i, (to_string (Z.of_nat i), MakeString "")) <$> seq 0 n.

Lemma many_objects_NoDup n : Z.of_nat n <= INT64_MAX → NoDup (many_objects n).*1.
Proof.
  intros Hn. unfold many_objects. rewrite <-list_fmap_compose.
  apply NoDup_fmap_2_strong; [|apply NoDup_seq].
  intros i j Hi%elem_of_seq Hj%elem_of_seq Heq. cbn in Heq.
  apply (f_equal ParseInt64) in Heq. rewrite !ParseInt64_to_string in Heq by u64_lia.
  injection Heq as Heq. lia.
Qed.

Lemma many_objects_ok n :
  Z.of_nat n <= INT64_MAX →
  map_Forall (λ _ o, object_ok o) (to_gmap (map_of (many_objects n))).
Proof.
  intros Hn. apply map_of_Forall; [by apply many_objects_NoDup|].
  unfold many_objects. apply Forall_fmap, Forall_true. intros i. apply MakeString_ok.
Qed.

Lemma many_objects_texts n :
  Z.of_nat n <= INT64_MAX → (n <= length (snapshot_texts (map_of (many_objects n))))%nat.
Proof.
  intros Hn. pose proof (map_objects_Forall _ _ (many_objects_ok n Hn)) as Hok.
  destruct (encode_parts _ 2 Hok) as (parts & Hp & _ & Hl).
  unfold snapshot_texts. rewrite Hp. cbn [default length]. change (id parts) with parts.
  assert (Z.of_nat (length (map_ForEach (map_of (many_objects n)))) = Z.of_nat n) as Hlen; [|lia].
  rewrite <-Size_ForEach, to_gmap_Size, map_of_spec by (by apply many_objects_NoDup).
  rewrite map_size_list_to_map by (by apply many_objects_NoDup).
  unfold many_objects. by rewrite length_fmap, length_seq.
Qed.
