(* ===== verification/CommandTheorems.v ===== *)
(** * What the commands promise

    The theorems about command lines, stated for [Execute], the dispatcher of
    the primary: safety of every command line, refinement of the abstract
    keyspace by every write command, and what a client observes of each
    family of commands. Each theorem that has hypotheses comes with an
    instance at the cache of Demo.v. *)

From S2P Require Import Prelude Text Containers ContainerInstance Double RedisObject Binlog HashSlot Engine Response Command Sweeper KeyCmd StringCmd HashCmd SetCmd ZSetCmd ZSetOrder ScanCmd Dispatcher ReadOnly Replay Demo.

(** ** From the dispatcher to a command *)

(** The keyspace after an effect on [key]. *)
Definition keyspace_after (eff : effect) (key k : string) (old : option aobj) : option aobj :=
  match eff with
  | Keep => old
  | Write entry _ => if decide (k = key) then entry else old
  end.

(** The value of a key of one type, an empty one where the key is missing. *)
Definition live_hash `{ImmutableContainer} (e : CacheEngine) (now_us : Z) (key : string)
    : option (gmap string string) :=
  match view_hash (engine_live e now_us key) with
  | VMissing => Some ∅ | VHas h _ => Some h | VWrong => None
  end.

Definition live_zset `{ImmutableContainer} (e : CacheEngine) (now_us : Z) (key : string)
    : option (gmap string double) :=
  match view_zset (engine_live e now_us key) with
  | VMissing => Some ∅ | VHas z _ => Some z | VWrong => None
  end.

(** The score of a member after a ZADD: the old one or the new one. *)
Definition selected_score (options : ZAddOptions) (old : option double) (new : double)
    : option double :=
  match old with
  | None => if za_xx options then None else Some new
  | Some found =>
      Some (if za_nx options then found
            else if za_gt options && negb (dlt found new) then found
            else if za_lt options && negb (dlt new found) then found
            else if deq new found then found else new)
  end.

Lemma selected_score_admits options old new :
  selected_score options old new = if zadd_admits options old new then Some new else old.
Proof.
  destruct old as [found|]; cbn; [|by destruct (za_xx options)].
  destruct (za_nx options), (za_gt options), (za_lt options), (dlt found new), (dlt new found),
    (deq new found); done.
Qed.

Section running.
Context {IC : ImmutableContainer} {CL : ContainerLaws IC}.

Lemma Execute_known rnd name args now_us cmd entry e :
  ToUpperAscii name = cmd → commands_ !! cmd = Some entry →
  CheckArity (ce_cmd entry) (name :: args) = None →
  Execute rnd (name :: args) now_us e = ExecCmd (ce_cmd entry) rnd (name :: args) now_us e.
Proof. intros Hc He Ha. cbn [Execute]. by rewrite Hc, He, Ha. Qed.

(** A command that implements a specification, run. *)
Lemma implements_run m key now_us spec e :
  implements m key now_us spec → engine_ok e → engine_room e 1 →
  ∃ e', m e = Some ((spec (engine_live e now_us key)).2, e') ∧ engine_ok e' ∧
    (∀ k, engine_lookup e' k =
          keyspace_after (spec (engine_live e now_us key)).1 key k (engine_lookup e k)) ∧
    ((spec (engine_live e now_us key)).1 = Keep → e' = e) ∧
    (∀ n, 0 <= n → engine_room e (n + 1) → engine_room e' n).
Proof.
  intros Hm He Hr. destruct (Hm e He) as (e' & E & Hw). exists e'.
  split; [done|]. split; [by eapply engine_writes_ok|].
  split; [intros k; by eapply engine_writes_lookup|].
  split; [intros Hk; by rewrite Hk in Hw|].
  intros n Hn Hroom. by eapply engine_writes_room.
Qed.

(** What is read at [key] once it holds [entry]. *)
Lemma live_entry e now_us key a :
  engine_lookup e key = Some a →
  engine_live e now_us key = if a_expired a now_us then None else Some a.
Proof. intros H. by rewrite engine_live_lookup, H. Qed.

Lemma live_no_deadline e now_us key v :
  engine_lookup e key = Some (mkAObj 0 v) → engine_live e now_us key = Some (mkAObj 0 v).
Proof. intros H. by rewrite (live_entry _ _ _ _ H). Qed.

Lemma live_None_lookup e now_us key :
  engine_lookup e key = None → engine_live e now_us key = None.
Proof. intros H. by rewrite engine_live_lookup, H. Qed.

Lemma live_other e e' now_us k :
  engine_lookup e' k = engine_lookup e k → engine_live e' now_us k = engine_live e now_us k.
Proof. intros H. by rewrite !engine_live_lookup, H. Qed.

Lemma keyspace_after_same entry args key old : keyspace_after (Write entry args) key key old = entry.
Proof. cbn. by rewrite decide_True. Qed.

(** An entry stored with the deadline of a live one is live at that time. *)
Lemma live_kept e e' now_us key a v :
  engine_ok e → engine_live e now_us key = Some a →
  engine_lookup e' key = Some (mkAObj (a_deadline a) v) →
  engine_live e' now_us key = Some (mkAObj (a_deadline a) v).
Proof.
  intros He (_ & Hx & _)%engine_live_ok H; [|done].
  rewrite (live_entry _ _ _ _ H). unfold a_expired in *. cbn in *. by rewrite Hx.
Qed.

Lemma put_agree (S : nat → Prop) key o e :
  (∀ i, S i → i ≠ SlotForKey key) → agree S e (put key o e).
Proof.
  intros HS. unfold put, set_slot. split; [cbn; by rewrite length_insert|].
  intros i Hi. cbn [slots_]. rewrite list_lookup_insert_ne; [done|].
  intros Heq. by apply (HS _ Hi).
Qed.

(** What a live entry of one type is. *)
Lemma view_string_live o s d :
  view_string o = VHas s d → ∃ a, o = Some a ∧ a_deadline a = d ∧ a_val a = AString s.
Proof. destruct o as [[d' []]|]; try done. intros [= <- <-]. by eexists. Qed.

Lemma view_hash_live o h d :
  view_hash o = VHas h d → ∃ a, o = Some a ∧ a_deadline a = d ∧ a_val a = AHash h.
Proof. destruct o as [[d' []]|]; try done. intros [= <- <-]. by eexists. Qed.

Lemma view_set_live e now_us key s d :
  engine_ok e → view_set (engine_live e now_us key) = VHas s d →
  ∃ a, engine_live e now_us key = Some a ∧ a_deadline a = d ∧ a_val a = ASet s ∧ s ≠ ∅.
Proof.
  intros He Hv. destruct (engine_live e now_us key) as [a|] eqn:Ha; [|done].
  destruct (engine_live_ok _ _ _ _ He Ha) as (_ & _ & Hok).
  destruct a as [d' []]; try done. injection Hv as <- <-. by eexists.
Qed.

Lemma view_zset_live o z d :
  view_zset o = VHas z d → ∃ a, o = Some a ∧ a_deadline a = d ∧ a_val a = AZSet z.
Proof. destruct o as [[d' []]|]; try done. intros [= <- <-]. by eexists. Qed.

Lemma view_zset_ok e now_us key z d :
  engine_ok e → view_zset (engine_live e now_us key) = VHas z d → zset_ok z ∧ z ≠ ∅.
Proof.
  intros He Hv. destruct (view_zset_live _ _ _ Hv) as (a & Ha & _ & Hval).
  destruct (engine_live_ok _ _ _ _ He Ha) as (_ & _ & Hok). by rewrite Hval in Hok; destruct Hok.
Qed.

Lemma sorted_entries_Permutation z : sorted_entries z ≡ₚ entries z.
Proof. apply std_sort_Permutation. Qed.

Lemma bind_members l :
  (l ≫= λ entry, [BulkString (ze_member entry)]) = BulkString <$> (ze_member <$> l).
Proof. induction l as [|x l IH]; [done|]. cbn. by f_equal. Qed.

Definition view_deadline {A} (v : view A) : Z := match v with VHas _ d => d | _ => 0 end.

Lemma hset_arity name key rest pairs :
  field_value_pairs rest = Some pairs → rest ≠ [] →
  CheckArity HSetCmd (name :: key :: rest) = None.
Proof.
  intros Hp Hne. apply arity_check_None. cbn [length].
  assert (∀ n l ps, (length l <= n)%nat → field_value_pairs l = Some ps →
    (length l mod 2 = 0)%nat) as Heven.
  { induction n as [|n IH]; intros [|f [|v l]] ps Hl Hf; cbn in Hl; try done; [lia|].
    cbn in Hf. apply fmap_Some in Hf as (ps' & Hf & _).
    replace (length (f :: v :: l)) with (length l + 1 * 2)%nat by (cbn; lia).
    rewrite Nat.Div0.mod_add. apply (IH l ps'); [lia|done]. }
  specialize (Heven _ _ _ (le_n _) Hp).
  replace (S (S (length rest))) with (length rest + 1 * 2)%nat by lia.
  rewrite Nat.Div0.mod_add, Heven. destruct rest as [|f [|v rest]]; [done|done|].
  cbn [length]. by destruct (_ <? 4)%nat eqn:E; [apply Nat.ltb_lt in E; lia|].
Qed.

Lemma a_expired_mono a t t' : a_expired a t = true → t <= t' → a_expired a t' = true.
Proof. unfold a_expired. intros H Hle. bool_prop. apply andb_true_iff. rewrite Z.geb_leb. split; [by apply negb_true_iff, Z.eqb_neq|apply Z.leb_le; lia]. Qed.

Lemma ParsePositiveExpiration_show n :
  1 <= n <= INT64_MAX → ParsePositiveExpiration (to_string n) = Some n.
Proof.
  intros Hn. unfold ParsePositiveExpiration. rewrite ParseInt64_to_string by u64_lia.
  destruct (n <=? 0) eqn:E; [bool_prop; lia|]. by u64_lia.
Qed.

Lemma a_expired_before d v t : 0 < d → a_expired (mkAObj d v) t = negb (t <? d).
Proof.
  intros Hd. unfold a_expired. cbn. rewrite Z.geb_leb, (Z.leb_antisym t d).
  by destruct (d =? 0) eqn:E; [bool_prop; lia|].
Qed.

(** The options of a SET with a deadline. *)
Lemma deadline_options option amount now_us :
  option ∈ ["EX"; "PX"; "EXAT"; "PXAT"] → 1 <= amount <= INT64_MAX → is_u64 now_us →
  ParseSetOptions_loop [option; to_string amount] now_us SetOptions_default false =
  if decide (is_u64 (deadline_of option amount now_us))
  then inr (mkSetOptions false false false false (deadline_of option amount now_us))
  else inl kInvalidExpireError.
Proof.
  intros Ho Ha Hn. assert (is_u64 amount) as Hu by u64_lia.
  pose proof (ComputeDeadline_exact option amount now_us Hu Hn) as H.
  repeat (rewrite elem_of_cons in Ho; destruct Ho as [->|Ho]; [
    cbn [ParseSetOptions_loop SetOptions_default];
    rewrite (ParsePositiveExpiration_show amount Ha);
    match goal with |- context [ToUpperAscii ?o] => change (ToUpperAscii o) with o end;
    cbn -[ComputeDeadline deadline_of]; rewrite H; by case_decide|]).
  by apply not_elem_of_nil in Ho.
Qed.
End running.

(** A command line whose name is spelt in any case: the command it runs. *)
Ltac known name cmd entry :=
  rewrite (Execute_known _ name _ _ cmd entry) by (done || reflexivity); cbn [ce_cmd].
Tactic Notation "reads" ident(name) constr(cmd) constr(c) := known name cmd (mkEntry c false false).
Tactic Notation "writes" ident(name) constr(cmd) constr(c) := known name cmd (mkEntry c true false).

Section commands.
Context {IC : ImmutableContainer} {CL : ContainerLaws IC}.

(** ** Every command line *)


(** C2: Every single-key write command refines its specification on the
    abstract keyspace: the reply and the effect are the ones the
    specification allows for the live entry of the key, the entry of the key
    becomes what the effect says, and no other key changes. *)
Theorem write_commands_refine rnd name key rest now_us entry e :
  engine_ok e → engine_room e 1 → is_u64 now_us →
  commands_ !! ToUpperAscii name = Some entry → write_cmd entry = true →
  ToUpperAscii name ≠ "DEL" → CheckArity (ce_cmd entry) (name :: key :: rest) = None →
  ∃ r eff e', Execute rnd (name :: key :: rest) now_us e = Some (r, e') ∧
    write_rel now_us (ToUpperAscii name) key rest (engine_live e now_us key) eff r ∧
    engine_ok e' ∧
    ∀ k, engine_lookup e' k = keyspace_after eff key k (engine_lookup e k).
Proof.
  intros He Hr Hn Hc Hw Hd Ha.
  destruct (write_implements rnd name key rest now_us entry Hn Hc Hw Hd Ha e He)
    as (r & eff & e' & E & Hrel & Hwr).
  exists r, eff, e'. rewrite (Execute_known _ _ _ _ _ entry) by done.
  split; [done|]. split; [done|]. split; [by eapply engine_writes_ok|].
  intros k. by eapply engine_writes_lookup.
Qed.

(** C14: A command line answered with an error has changed nothing: no entry,
    no sequence number, no log record. *)
Theorem errors_change_nothing rnd args now_us e r e' :
  engine_ok e → is_u64 now_us → engine_room e (Z.of_nat (length args)) →
  Execute rnd args now_us e = Some (r, e') → is_error r = true → e' = e.
Proof.
  intros He Hn Hr E Herr.
  destruct (Execute_cases rnd args now_us e r e' He Hn Hr E)
    as [?|[(name & keys & -> & _ & Ed)|(name & key & rest & entry & eff & -> & Hc & Hw & _ & _ & Hrel & Hwr)]];
    [done| |].
  - destruct (Del_run rnd name keys now_us e He) as (e2 & E2 & _).
    { eapply engine_room_le; [|exact Hr]. cbn [length]. lia. }
    rewrite Ed in E2. by injection E2 as -> _.
  - destruct eff as [|entry' args']; [exact Hwr|].
    by rewrite (write_rel_no_error _ _ _ _ _ _ _ _ _ Hc Hw Hrel) in Herr.
Qed.

(** ** Strings *)

(** A value SET under a key is what GET answers from then on, at any
    time; TTL answers that it never expires; every other key is untouched. *)
Theorem set_then_get rnd set get ttl key value now_us later e :
  ToUpperAscii set = "SET" → ToUpperAscii get = "GET" → ToUpperAscii ttl = "TTL" →
  is_u64 later → engine_ok e → engine_room e 1 →
  ∃ e', Execute rnd [set; key; value] now_us e = Some (SimpleString "OK", e') ∧
    Execute rnd [get; key] later e' = Some (BulkString value, e') ∧
    Execute rnd [ttl; key] later e' = Some (Integer (-1), e') ∧
    ∀ k, k ≠ key → engine_lookup e' k = engine_lookup e k.
Proof.
  intros Hs Hg Ht Hl He Hr. writes set "SET" SetCmd.
  destruct (implements_run _ _ _ _ e (Set_implements rnd set key value [] now_us) He Hr)
    as (e' & E & He' & Hk & _ & _).
  exists e'. split; [exact E|].
  assert (engine_live e' later key = Some (mkAObj 0 (AString value))) as Hlive.
  { apply live_no_deadline. rewrite Hk; apply keyspace_after_same. }
  reads get "GET" GetCmd. reads ttl "TTL" TtlCmd. rewrite Get_run, Ttl_run by done. rewrite Hlive. repeat split.
  intros k Hne. rewrite Hk. cbn. by rewrite decide_False.
Qed.

(** C28: SET with EX, PX, EXAT or PXAT: where the deadline fits in 64 bits the
    value is there at every time before it and gone from it on; where it does
    not, the command fails and changes nothing. *)
Theorem set_with_deadline rnd set get option amount key value now_us e :
  ToUpperAscii set = "SET" → ToUpperAscii get = "GET" →
  option ∈ ["EX"; "PX"; "EXAT"; "PXAT"] → 1 <= amount <= INT64_MAX → is_u64 now_us →
  engine_ok e → engine_room e 1 →
  let deadline := deadline_of option amount now_us in
  ∃ e', if decide (is_u64 deadline)
    then Execute rnd [set; key; value; option; to_string amount] now_us e =
           Some (SimpleString "OK", e') ∧
         ∀ t, Execute rnd [get; key] t e' =
              Some (if t <? deadline then BulkString value else NullBulk, e')
    else Execute rnd [set; key; value; option; to_string amount] now_us e =
           Some (Error kInvalidExpireError, e') ∧ e' = e.
Proof.
  intros Hs Hg Ho Ha Hn He Hr deadline. writes set "SET" SetCmd.
  assert (0 < deadline) as Hpos.
  { unfold deadline, deadline_of. u64_simpl. repeat case_decide; lia. }
  destruct (implements_run _ _ _ _ e
    (Set_implements rnd set key value [option; to_string amount] now_us) He Hr)
    as (e' & E & He' & Hk & Hkeep & _).
  exists e'. unfold set_spec in E, Hk, Hkeep.
  rewrite (deadline_options option amount now_us Ho Ha Hn) in E, Hk, Hkeep.
  fold deadline in E, Hk, Hkeep. case_decide as Hd; [|split; [exact E|by apply Hkeep]].
  unfold set_options_spec in E, Hk. cbn [opt_deadline_us opt_nx opt_xx opt_get] in E, Hk.
  destruct (deadline =? 0) eqn:E0; [bool_prop; lia|]. cbn in E, Hk.
  split; [exact E|]. intros t. reads get "GET" GetCmd. rewrite Get_run by done.
  specialize (Hk key). rewrite decide_True in Hk by done.
  rewrite (live_entry _ _ _ _ Hk), a_expired_before by done. by destruct (t <? deadline).
Qed.

(** C30: INCRBY adds exactly, or reports the overflow of a signed 64-bit
    integer and changes nothing; it keeps the deadline of the key, and DECRBY
    by the same amount takes the number back. *)
Theorem incrby_decrby rnd incrby decrby key text now_us e s deadline n k :
  ToUpperAscii incrby = "INCRBY" → ToUpperAscii decrby = "DECRBY" →
  engine_ok e → engine_room e 2 →
  view_string (engine_live e now_us key) = VHas s deadline →
  ParseInt64 s = Some n → ParseInt64 text = Some k →
  ∃ e1, if decide (is_i64 (n + k))
    then Execute rnd [incrby; key; text] now_us e = Some (Integer (n + k), e1) ∧
         engine_lookup e1 key = Some (mkAObj deadline (AString (to_string (n + k)))) ∧
         ∃ e2, Execute rnd [decrby; key; text] now_us e1 = Some (Integer n, e2) ∧
               engine_lookup e2 key = Some (mkAObj deadline (AString (to_string n)))
    else Execute rnd [incrby; key; text] now_us e = Some (Error kOverflowError, e1) ∧ e1 = e.
Proof.
  intros Hi Hd He Hr Hv Hs Ht. writes incrby "INCRBY" IncrByCmd.
  assert (engine_room e 1) as Hr1 by (eapply engine_room_le; [|exact Hr]; lia).
  destruct (implements_run _ _ _ _ e (exec_by_implements incrby key text kAdd now_us) He Hr1)
    as (e1 & E & He1 & Hk & Hkeep & Hroom).
  exists e1. rewrite Hi in E, Hk, Hkeep.
  unfold by_spec, integer_spec in E, Hk, Hkeep. rewrite Ht, Hv, Hs in E, Hk, Hkeep.
  cbn [mode_fun] in E, Hk, Hkeep. case_decide as Hfit; [|split; [exact E|by apply Hkeep]].
  split; [exact E|]. specialize (Hk key). unfold store in Hk. cbn [fst] in Hk. rewrite keyspace_after_same in Hk.
  split; [exact Hk|].
  destruct (view_string_live _ _ _ Hv) as (a & Ha & <- & _).
  pose proof (live_kept e e1 now_us key a _ He Ha Hk) as Hlive.
  writes decrby "DECRBY" DecrByCmd.
  destruct (implements_run _ _ _ _ e1 (exec_by_implements decrby key text kSubtract now_us) He1)
    as (e2 & E2 & _ & Hk2 & _); [apply Hroom; [lia|exact Hr]|].
  exists e2. rewrite Hd, Hlive in E2, Hk2. unfold by_spec, integer_spec in E2, Hk2.
  rewrite Ht in E2, Hk2. cbn in E2, Hk2.
  rewrite ParseInt64_to_string in E2, Hk2 by done. cbn in E2, Hk2.
  replace (n + k - k) with n in E2, Hk2 by lia.
  rewrite decide_True in E2, Hk2 by (by eapply ParseInt64_range).
  split; [exact E2|]. rewrite Hk2. apply keyspace_after_same.
Qed.

(** ** Hashes *)

(** C32: After HSET the hash of the key is the old one with the pairs set in
    order: the reply counts the new fields, HGET answers the last value set
    for a field, or the old one, and HGETALL lists exactly these fields. *)
Theorem hset_then_read rnd hset hget hgetall key rest pairs now_us e h :
  ToUpperAscii hset = "HSET" → ToUpperAscii hget = "HGET" → ToUpperAscii hgetall = "HGETALL" →
  field_value_pairs rest = Some pairs → rest ≠ [] →
  engine_ok e → engine_room e 1 → live_hash e now_us key = Some h →
  let h' := set_pairs pairs h in
  ∃ e', Execute rnd (hset :: key :: rest) now_us e =
      Some (Integer (Z.of_nat (size h') - Z.of_nat (size h)), e') ∧
    (∀ f, Execute rnd [hget; key; f] now_us e' = Some (bulk_or_null (h' !! f), e')) ∧
    ∃ l, l ≡ₚ map_to_list h' ∧
      Execute rnd [hgetall; key] now_us e' =
      Some (Array (l ≫= λ '(f, v), [BulkString f; BulkString v]), e').
Proof.
  intros Hs Hg Hga Hp Hne He Hr Hh h'.
  rewrite (Execute_known _ hset _ _ "HSET" (mkEntry HSetCmd true false));
    [|done|done|by apply hset_arity with pairs].
  destruct (implements_run _ _ _ _ e (HSet_implements rnd hset key rest pairs now_us Hp Hne) He Hr)
    as (e' & E & He' & Hk & _).
  assert (view_hash (engine_live e' now_us key) = VHas h' (view_deadline (view_hash (engine_live e now_us key))) ∧
    (hset_spec ("HSET" :: key :: rest) pairs Integer (engine_live e now_us key)).2 =
    Integer (Z.of_nat (size h') - Z.of_nat (size h))) as [Hv Hreply].
  { specialize (Hk key). unfold live_hash in Hh. unfold hset_spec in *.
    destruct (view_hash (engine_live e now_us key)) as [| |h0 d] eqn:Hview; [|done|];
      injection Hh as <-; unfold store in Hk; cbn [fst] in Hk; rewrite keyspace_after_same in Hk; (split; [|done]).
    - by rewrite (live_no_deadline _ _ _ _ Hk).
    - destruct (view_hash_live _ _ _ Hview) as (a & Ha & <- & _).
      by rewrite (live_kept e e' now_us key a _ He Ha Hk). }
  rewrite Hreply in E. exists e'. split; [exact E|]. split.
  - intros f. reads hget "HGET" HGetCmd. rewrite HGet_run by done.
    unfold hash_read_spec. by rewrite Hv.
  - destruct (HGetAll_run rnd hgetall key now_us e' He') as (l & Hl & El).
    exists l. reads hgetall "HGETALL" HGetAllCmd. rewrite El.
    unfold hash_read_spec, hash_entries in *. by rewrite Hv in Hl |- *.
Qed.

(** ** Sets *)

(** C33: SPOP with a count removes and answers that many distinct members of
    the set, all of them when there are fewer, whatever the random engine
    returns; the rest stays, with its deadline, and a set left empty is
    removed with its key. *)
Theorem spop_takes_sample rnd spop key n now_us e s deadline :
  ToUpperAscii spop = "SPOP" → 0 < n <= INT64_MAX → engine_ok e → engine_room e 1 →
  view_set (engine_live e now_us key) = VHas s deadline →
  ∃ picked e', Execute rnd [spop; key; to_string n] now_us e =
      Some (Array (BulkString <$> picked), e') ∧
    NoDup picked ∧ (∀ m, m ∈ picked → m ∈ s) ∧
    Z.of_nat (length picked) = Z.min n (Z.of_nat (size s)) ∧
    engine_lookup e' key =
      (if decide (s ⊆ list_to_set picked) then None
       else Some (mkAObj deadline (ASet (s ∖ list_to_set picked)))).
Proof.
  intros Hname Hn He Hr Hv. writes spop "SPOP" SPopCmd.
  destruct (SPop_count_implements rnd spop key (to_string n) now_us e He)
    as (r & eff & e' & E & Hrel & Hw).
  unfold spop_spec_rel in Hrel. rewrite ParseInt64_to_string in Hrel by u64_lia.
  destruct (n <? 0) eqn:E1; [bool_prop; lia|]. destruct (n =? 0) eqn:E2; [bool_prop; lia|].
  unfold spop_rel in Hrel. rewrite Hv in Hrel.
  destruct Hrel as (picked & Hnd & Hin & Hlen & Heff & ->).
  exists picked, e'. do 4 (split; [done|]).
  rewrite (engine_writes_lookup _ _ _ _ _ key He Hw), Heff. unfold srem_effect.
  destruct (view_set_live _ _ _ _ _ He Hv) as (a & Ha & <- & Hval & Hne).
  assert (picked ≠ []) as Hpicked.
  { intros ->. cbn in Hlen. assert (size s = 0%nat) as Hz by lia. apply Hne, leibniz_equiv, size_empty_inv, Hz. }
  rewrite bool_decide_eq_false_2.
  2:{ intros Heq. destruct picked as [|m picked]; [done|]. specialize (Hin m). set_solver. }
  case_bool_decide as Hempty.
  - rewrite decide_True by done. rewrite decide_True; [done|set_solver].
  - cbn. rewrite decide_True by done. rewrite decide_False; [done|set_solver].
Qed.

(** ** Sorted sets *)

(** ZADD of one member, with any of its options: ZSCORE answers afterwards
    the score the options select between the old and the new one. *)
Theorem zadd_then_zscore rnd zadd zscore key rest options input now_us e z :
  ToUpperAscii zadd = "ZADD" → ToUpperAscii zscore = "ZSCORE" →
  ParseZAddArgs (zadd :: key :: rest) = inr (options, [input]) → za_incr options = false →
  (2 <= length rest)%nat → engine_ok e → engine_room e 1 → live_zset e now_us key = Some z →
  ∃ n e', Execute rnd (zadd :: key :: rest) now_us e = Some (Integer n, e') ∧
    Execute rnd [zscore; key; zi_member input] now_us e' =
    Some (bulk_or_null (ZFormatScore <$>
            selected_score options (z !! zi_member input) (zi_score input)), e').
Proof.
  intros Hname Hz Hp Hincr Hl He Hr Hv.
  rewrite (Execute_known _ zadd _ _ "ZADD" (mkEntry ZAddCmd true false));
    [|done|done|by destruct rest as [|? [|? ?]]; cbn in Hl; [lia|lia|]].
  destruct (implements_run _ _ _ _ e (ZAdd_implements rnd zadd key rest now_us Hname) He Hr)
    as (e' & E & He' & Hk & Hkeep & _).
  specialize (Hk key). unfold zadd_cmd_spec in E, Hk, Hkeep.
  change (ParseZAddArgs ("ZADD" :: key :: rest)) with (ParseZAddArgs (zadd :: key :: rest)) in *.
  rewrite Hp, Hincr in E, Hk, Hkeep.
  assert (live_zset e' now_us key =
    Some (if zadd_admits options (z !! zi_member input) (zi_score input)
          then <[zi_member input := zi_score input]> z else z) ∧
    ∃ n, (zadd_spec ("ZADD" :: key :: rest) options [input] (engine_live e now_us key)).2 = Integer n)
    as [Hlive [n Hn]].
  { unfold live_zset in Hv |- *. unfold zadd_spec in *. cbn [foldl] in *. unfold zadd_member in *.
    destruct (view_zset (engine_live e now_us key)) as [| |z0 d] eqn:Hview; [|done|];
      injection Hv as <-;
      match goal with |- context [zadd_admits ?o ?old ?x] => destruct (zadd_admits o old x) end; cbn in Hk, Hkeep;
      (split; [|by eexists]); try (by rewrite Hkeep, Hview); change (0 + 1 =? 0) with false in Hk; unfold store in Hk; rewrite keyspace_after_same in Hk.
    - by rewrite (live_no_deadline _ _ _ _ Hk).
    - destruct (view_zset_live _ _ _ Hview) as (a & Ha & <- & _).
      by rewrite (live_kept e e' now_us key a _ He Ha Hk). }
  rewrite Hn in E. exists n, e'. split; [exact E|].
  reads zscore "ZSCORE" ZScoreCmd. rewrite ZScore_run by done. do 2 f_equal.
  rewrite selected_score_admits. unfold zset_read_spec, live_zset in *.
  set (admits := zadd_admits _ _ _) in *.
  assert (∀ z', z' = (if admits then <[zi_member input := zi_score input]> z else z) →
    z' !! zi_member input = if admits then Some (zi_score input) else z !! zi_member input) as Hsel.
  { intros z' ->. destruct admits; [by rewrite lookup_insert_eq|done]. }
  destruct (view_zset (engine_live e' now_us key)) as [| |z1 d1]; [|done|];
    injection Hlive as Hlive; rewrite <-(Hsel _ Hlive); [by rewrite lookup_empty|done].
Qed.

(** C26: ZRANGE by rank answers a slice of the members in ascending order of
    score, members of equal score in byte order: every entry of the set is in
    that order exactly once, and the slice runs from the start to the stop
    rank, negative ranks counted from the end, clamped to the set. *)
Theorem zrange_sorted rnd zrange key start stop now_us e z deadline :
  ToUpperAscii zrange = "ZRANGE" → engine_ok e → is_i64 start → is_i64 stop →
  view_zset (engine_live e now_us key) = VHas z deadline →
  let n := Z.of_nat (size z) in
  let lo := Z.max 0 (from_end n start) in
  let hi := Z.min (n - 1) (from_end n stop) in
  ∃ l, l ≡ₚ entries z ∧ StronglySorted entry_lt l ∧
    Execute rnd [zrange; key; to_string start; to_string stop] now_us e =
    Some (Array (BulkString <$> (ze_member <$>
            take (Z.to_nat (hi - lo + 1)) (drop (Z.to_nat lo) l))), e).
Proof.
  intros Hname He Hs Ht Hv n lo hi. exists (sorted_entries z).
  destruct (view_zset_ok _ _ _ _ _ He Hv) as [Hok _].
  split; [apply sorted_entries_Permutation|].
  split; [by apply sorted_entries_sorted|].
  reads zrange "ZRANGE" ZRangeCmd. rewrite ZRange_run by done. cbn [ParseZRangeOptions_loop].
  unfold ParseZRangeBounds. cbn. rewrite !ParseInt64_to_string by done.
  unfold zset_read_spec. rewrite Hv. do 2 f_equal. unfold AppendRangeResponse, zrange_spec.
  cbn. by rewrite bind_members.
Qed.

(** C34: Ranks and ranges agree: the rank ZRANK answers for a member is the
    number of entries below it, and ZRANGE of that single rank answers the
    member back. *)
Theorem zrank_then_zrange rnd zrank zrange key member now_us e z deadline score :
  ToUpperAscii zrank = "ZRANK" → ToUpperAscii zrange = "ZRANGE" → engine_ok e →
  view_zset (engine_live e now_us key) = VHas z deadline → z !! member = Some score →
  Z.of_nat (size z) <= INT64_MAX →
  ∃ i, i = Z.of_nat (length (below z (mkZEntry member score))) ∧
    Execute rnd [zrank; key; member] now_us e = Some (Integer i, e) ∧
    Execute rnd [zrange; key; to_string i; to_string i] now_us e =
    Some (Array [BulkString member], e).
Proof.
  intros Hk Hg He Hv Hm Hsize. destruct (view_zset_ok _ _ _ _ _ He Hv) as [Hok _].
  assert (mkZEntry member score ∈ sorted_entries z) as (i & Hi)%list_elem_of_lookup
    by (apply sorted_entries_elem; exact Hm).
  pose proof (sorted_rank z i _ Hok Hi) as Hrank.
  pose proof (lookup_lt_Some _ _ _ Hi) as Hlt. rewrite sorted_entries_length in Hlt.
  exists (Z.of_nat i). split; [by rewrite Hrank|]. split.
  - reads zrank "ZRANK" ZRankCmd. cbn [ExecCmd ZRankCmd]. unfold arg.
    change (liftM ([zrank; key; member] !! 1%nat)) with (liftM (Some key) : engineM string).
    change (liftM ([zrank; key; member] !! 2%nat)) with (liftM (Some member) : engineM string).
    unfold mbind, stM_bind, liftM. cbn. rewrite RankResponse_run by done.
    unfold zset_read_spec, rank_spec. by rewrite Hv, Hm, Hrank.
  - reads zrange "ZRANGE" ZRangeCmd. rewrite ZRange_run by done. cbn [ParseZRangeOptions_loop].
    unfold ParseZRangeBounds. cbn. rewrite !ParseInt64_to_string by u64_lia.
    unfold zset_read_spec. rewrite Hv. do 2 f_equal. unfold AppendRangeResponse, zrange_spec.
    cbn. unfold from_end. destruct (Z.of_nat i <? 0) eqn:E0; [bool_prop; lia|].
    replace (Z.to_nat (_ - _ + 1)) with 1%nat by lia.
    replace (Z.to_nat (Z.max 0 _)) with i by lia.
    rewrite (drop_S _ _ _ Hi). done.
Qed.

(** ZCOUNT answers the number of members ZRANGE BYSCORE lists for the
    same bounds, inclusive, exclusive or infinite. *)
Theorem zcount_zrange rnd zcount zrange key min max lower upper now_us e z deadline :
  ToUpperAscii zcount = "ZCOUNT" → ToUpperAscii zrange = "ZRANGE" → engine_ok e →
  ParseScoreBound min = Some lower → ParseScoreBound max = Some upper →
  view_zset (engine_live e now_us key) = VHas z deadline →
  ∃ l, Execute rnd [zrange; key; min; max; "BYSCORE"] now_us e = Some (Array l, e) ∧
    Execute rnd [zcount; key; min; max] now_us e = Some (Integer (Z.of_nat (length l)), e).
Proof.
  intros Hc Hg He Hmin Hmax Hv. destruct (view_zset_ok _ _ _ _ _ He Hv) as [Hok _].
  reads zcount "ZCOUNT" ZCountCmd. reads zrange "ZRANGE" ZRangeCmd.
  rewrite ZCount_run, ZRange_run by done. rewrite Hmin, Hmax.
  change (ParseZRangeOptions_loop ["BYSCORE"] ZRangeOptions_default) with
    (Some (mkZRangeOptions kScore false false false 0 0)).
  unfold ParseZRangeBounds. cbn [zr_mode zr_rev]. rewrite Hmin, Hmax.
  unfold zset_read_spec. rewrite Hv.
  eexists. split; [reflexivity|]. unfold count_spec. cbn. do 4 f_equal.
  rewrite bind_members, !length_fmap. unfold in_range.
  apply Permutation_length, Permutation_List_filter.
  symmetry. apply sorted_entries_Permutation.
Qed.


(** ** Keys *)

(** DEL answers the number of distinct live keys among its arguments and
    removes them all: afterwards EXISTS counts none of them, and no other
    key has changed. *)
Theorem del_then_exists rnd del exists_ keys now_us later e :
  ToUpperAscii del = "DEL" → ToUpperAscii exists_ = "EXISTS" → keys ≠ [] →
  now_us <= later → engine_ok e → engine_room e (Z.of_nat (length keys)) →
  ∃ e', Execute rnd (del :: keys) now_us e =
      Some (Integer (Z.of_nat (size (live_keys e now_us keys))), e') ∧ engine_ok e' ∧
    Execute rnd (exists_ :: keys) later e' = Some (Integer 0, e') ∧
    ∀ k, k ∉ keys → engine_lookup e' k = engine_lookup e k.
Proof.
  intros Hd Hx Hne Hl He Hr. destruct keys as [|key keys]; [done|].
  writes del "DEL" DelCmd.
  destruct (Del_run rnd del (key :: keys) now_us e He Hr) as (e' & E & He' & Hk & _).
  exists e'. split; [exact E|]. split; [done|]. split.
  - rewrite (Execute_known _ exists_ _ _ "EXISTS" (mkEntry ExistsCmd false true)) by done.
    cbn [ce_cmd]. rewrite Exists_run by done. do 3 f_equal.
    assert (∀ l, (∀ k, k ∈ l → k ∈ key :: keys) →
      sumZ (λ k, if has_value (engine_live e' later k) then 1 else 0) l = 0) as Hsum.
    { induction l as [|k l IH]; intros Hin; [done|].
      match goal with |- sumZ ?f _ = _ => change (f k + sumZ f l = 0); cbn beta end.
      rewrite IH by set_solver. rewrite (engine_live_lookup e'), Hk.
      specialize (Hin k (list_elem_of_here _ _)). case_decide as Hlive; [done|].
      rewrite elem_of_live_keys, engine_live_lookup in Hlive.
      destruct (engine_lookup e k) as [a|]; [|done].
      destruct (a_expired a now_us) eqn:Ha; [|naive_solver].
      by rewrite (a_expired_mono _ _ _ Ha Hl). }
    by apply Hsum.
  - intros k Hnin. rewrite Hk, decide_False; [done|]. rewrite elem_of_live_keys. tauto.
Qed.

(** C31: EXPIRE of a live key with a positive number of seconds gives it the
    deadline now plus that time, saturated at 64 bits, and keeps its value:
    until then TTL counts the remaining seconds down, and from then on
    the key is missing. With zero or less it removes the key. *)
Theorem expire_then_ttl rnd expire ttl key seconds now_us later e a :
  ToUpperAscii expire = "EXPIRE" → ToUpperAscii ttl = "TTL" → is_i64 seconds →
  is_u64 now_us → is_u64 later → engine_ok e → engine_room e 1 →
  engine_live e now_us key = Some a →
  let deadline := deadline_after now_us seconds in
  ∃ e', Execute rnd [expire; key; to_string seconds] now_us e = Some (Integer 1, e') ∧
    engine_lookup e' key = (if seconds <=? 0 then None else Some (mkAObj deadline (a_val a))) ∧
    Execute rnd [ttl; key] later e' =
    Some (Integer (if (seconds <=? 0) || (deadline <=? later) then -2
                   else (deadline - later) / 1000000), e').
Proof.
  intros Hx Ht Hs Hn Hl He Hr Ha deadline. writes expire "EXPIRE" ExpireCmd.
  destruct (implements_run _ _ _ _ e (Expire_implements rnd expire key (to_string seconds) now_us Hn)
    He Hr) as (e' & E & He' & Hk & _).
  specialize (Hk key). unfold expire_spec in E, Hk. rewrite ParseInt64_to_string, Ha in E, Hk by done.
  assert (engine_lookup e' key =
    if seconds <=? 0 then None else Some (mkAObj deadline (a_val a))) as Hlook.
  { rewrite Hk. destruct (seconds <=? 0); apply keyspace_after_same. }
  exists e'. split; [by destruct (seconds <=? 0)|]. split; [done|].
  reads ttl "TTL" TtlCmd. rewrite Ttl_run, engine_live_lookup, Hlook by done.
  destruct (seconds <=? 0) eqn:E0; [done|]. cbn [orb]. bool_prop.
  assert (0 < deadline) by (unfold deadline, deadline_after, kMicrosPerSecond; u64_lia).
  rewrite a_expired_before by done. rewrite (Z.ltb_antisym deadline later), negb_involutive.
  destruct (deadline <=? later); [done|]. unfold ttl_spec. cbn [a_deadline].
  by destruct (deadline =? 0) eqn:E1; [bool_prop; lia|].
Qed.

(** C27: A client that calls SCAN until the cursor is 0 ends, after at most
    one call per slot, and has collected every live key that matches the
    pattern and the type it asked for, and each of them once. *)
Theorem scan_enumerates rnd opts options now_us e :
  engine_ok e → ParseOptions_loop opts (mkScanOptions 0 kDefaultCount None None) = inr options →
  ∃ keys, client_scan (Z.to_nat kSlotCount) rnd opts now_us (to_string 0) [] e = Some (keys, e) ∧
    NoDup keys ∧ ∀ k, k ∈ keys ↔ wanted e options now_us k.
Proof.
  intros He Hp. exists (keys_between e options now_us 0 (Z.to_nat kSlotCount)).
  split.
  - apply (client_scan_spec (Z.to_nat kSlotCount) rnd opts options now_us 0 [] e); try done.
    unfold kSlotCount. lia.
  - destruct (keys_between_spec e options now_us 0 (Z.to_nat kSlotCount) He) as [Hnd Hin].
    { split; [lia|]. by rewrite (ew_count _ (eo_wf _ He)). }
    split; [done|]. intros k. rewrite Hin.
    pose proof (SlotForKey_lt k). split; [by intros [_ H']|]. intros H'. split; [lia|done].
Qed.

(** C19: A sweep of expired keys ends, keeps the invariant of the cache, and
    is invisible: at its time every key reads as before, it brings no entry
    back, and it leaves a slot clean unless the slot had at least as many
    expired entries as its visits to the slot remove. *)
Theorem sweep_invisible (sweeper : ExpireSweeper.t) now_us e :
  engine_ok e → (ExpireSweeper.next_slot_ sweeper < SlotCount e)%nat →
  engine_room e (Z.of_nat (ExpireSweeper.slots_per_tick_ sweeper * ExpireSweeper.kMaxExpiredKeysPerSlot)) →
  ∃ deleted sweeper' e', ExpireSweeper.SweepOnce sweeper now_us e = Some ((deleted, sweeper'), e') ∧
    engine_ok e' ∧ (ExpireSweeper.next_slot_ sweeper' < SlotCount e)%nat ∧
    (∀ key, engine_live e' now_us key = engine_live e now_us key) ∧
    (∀ key a, engine_lookup e' key = Some a → engine_lookup e key = Some a) ∧
    ∀ i s s', slots_ e !! i = Some s → slots_ e' !! i = Some s' →
      (size (expired_entries s now_us) <
         visits (ExpireSweeper.next_slot_ sweeper) (SlotCount e) (ExpireSweeper.slots_per_tick_ sweeper) i *
         ExpireSweeper.kMaxExpiredKeysPerSlot)%nat →
      no_expired s' now_us.
Proof.
  intros He Hn Hr. destruct (SweepOnce_run sweeper now_us e He Hn Hr) as (deleted & e' & E & H).
  eexists deleted, _, e'. split; [exact E|]. destruct H as (He' & _ & _ & H1 & H2 & H3).
  split; [done|]. split; [cbn; unfold visited; apply Nat.mod_upper_bound; lia|].
  split; [done|]. split; [done|]. intros i s s' Hs Hs'.
  apply (cleaned_all now_us now_us). apply H3; [lia|done..].
Qed.

(** C20: The read-only execution of a replica never changes the cache, refuses
    write commands, and its reply depends only on the slots that may be read:
    two caches that agree on those give the same reply. *)
Theorem read_only_isolated rnd args now_us can_read e1 e2 :
  engine_ok e1 → engine_ok e2 → is_u64 now_us →
  agree (λ i, can_read i = true) e1 e2 →
  ∃ r, ExecuteReadOnly rnd args now_us can_read e1 = Some (r, e1) ∧
       ExecuteReadOnly rnd args now_us can_read e2 = Some (r, e2) ∧
       (IsWriteCommand (default "" (head args)) = true → is_error r = true).
Proof.
  intros H1 H2 Hn Hag.
  destruct (ExecuteReadOnly_total rnd args now_us can_read e1 H1 Hn) as (r & E1).
  exists r. split; [done|].
  split.
  { pose proof (ExecuteReadOnly_total rnd args now_us can_read e2 H2 Hn) as (r2 & E2).
    pose proof (local_agree _ _ (ExecuteReadOnly_local rnd args now_us can_read) e1 e2 Hag) as H.
    rewrite E1, E2 in H. by injection H as ->. }
  destruct args as [|name args]; [done|].
  change (default "" (head (name :: args))) with name. unfold IsWriteCommand.
  cbn [ExecuteReadOnly] in E1. destruct (commands_ !! ToUpperAscii name) as [entry|]; [|done].
  intros Hw. rewrite Hw in E1. by injection E1 as <-.
Qed.

End commands.

#[local] Existing Instance gmap_container.
#[local] Existing Instance gmap_container_laws.

Definition now0 : Z := 1000.


Lemma write_commands_refine_witness :
  ∃ r eff e', Execute id ["incrBy"; "n"; "3"] now0 demo = Some (r, e') ∧
    write_rel now0 "INCRBY" "n" ["3"] (engine_live demo now0 "n") eff r ∧ engine_ok e' ∧
    ∀ k, engine_lookup e' k = keyspace_after eff "n" k (engine_lookup demo k).
Proof.
  apply (write_commands_refine id "incrBy" "n" ["3"] now0 (mkEntry IncrByCmd true false));
    [apply demo_ok|by apply demo_room|by vm_compute|reflexivity|reflexivity|by vm_compute|reflexivity].
Defined.

Lemma demo_wrong_type :
  fst <$> Execute id ["HSET"; "s"; "f"; "v"] now0 demo = Some (Error kWrongTypeError).
Proof. by vm_compute. Qed.

Lemma errors_change_nothing_witness :
  ∃ e', Execute id ["HSET"; "s"; "f"; "v"] now0 demo = Some (Error kWrongTypeError, e') ∧
    e' = demo.
Proof.
  assert (∀ e', Execute id ["HSET"; "s"; "f"; "v"] now0 demo = Some (Error kWrongTypeError, e') →
    e' = demo) as Hsame.
  { intros e' E. refine (errors_change_nothing id ["HSET"; "s"; "f"; "v"] now0 demo
      (Error kWrongTypeError) e' (proj1 demo_ok) _ (demo_room _ _) E eq_refl);
      clear E; by vm_compute. }
  pose proof demo_wrong_type as H. apply fmap_Some in H as ([r e'] & E & Hr). cbn in Hr. subst r.
  exists e'. split; [exact E|exact (Hsame e' E)].
Defined.

Lemma set_then_get_witness :
  ∃ e', Execute id ["set"; "h"; "new"] now0 demo = Some (SimpleString "OK", e') ∧
    Execute id ["Get"; "h"] 5000 e' = Some (BulkString "new", e') ∧
    Execute id ["TTL"; "h"] 5000 e' = Some (Integer (-1), e') ∧
    ∀ k, k ≠ "h" → engine_lookup e' k = engine_lookup demo k.
Proof.
  apply (set_then_get id "set" "Get" "TTL");
    [reflexivity..|by vm_compute|apply demo_ok|by apply demo_room].
Defined.

Lemma set_with_deadline_witness :
  ∃ e', if decide (is_u64 (now0 + 7 * 1000))
    then Execute id ["SET"; "k"; "v"; "PX"; to_string 7] now0 demo = Some (SimpleString "OK", e') ∧
         ∀ t, Execute id ["GET"; "k"] t e' =
              Some (if t <? now0 + 7 * 1000 then BulkString "v" else NullBulk, e')
    else Execute id ["SET"; "k"; "v"; "PX"; to_string 7] now0 demo =
           Some (Error kInvalidExpireError, e') ∧ e' = demo.
Proof.
  apply (set_with_deadline id "SET" "GET" "PX" 7 "k" "v" now0 demo);
    [reflexivity|reflexivity|set_solver|by vm_compute|by vm_compute|apply demo_ok|by apply demo_room].
Defined.

Lemma incrby_decrby_witness :
  ∃ e1, if decide (is_i64 (5 + 10))
    then Execute id ["INCRBY"; "n"; "10"] now0 demo = Some (Integer (5 + 10), e1) ∧
         engine_lookup e1 "n" = Some (mkAObj 0 (AString (to_string (5 + 10)))) ∧
         ∃ e2, Execute id ["decrby"; "n"; "10"] now0 e1 = Some (Integer 5, e2) ∧
               engine_lookup e2 "n" = Some (mkAObj 0 (AString (to_string 5)))
    else Execute id ["INCRBY"; "n"; "10"] now0 demo = Some (Error kOverflowError, e1) ∧ e1 = demo.
Proof.
  apply (incrby_decrby id "INCRBY" "decrby" "n" "10" now0 demo "5" 0 5 10);
    [reflexivity..|apply demo_ok|by apply demo_room|by vm_compute|reflexivity|reflexivity].
Defined.

Lemma hset_then_read_witness :
  ∃ e', Execute id ["HSET"; "h"; "f"; "1"; "g"; "2"; "g"; "3"] now0 demo =
      Some (Integer (Z.of_nat (size (set_pairs [("f", "1"); ("g", "2"); ("g", "3")]
                                       ({["f" := "7"]} : gmap string string))) -
                     Z.of_nat (size ({["f" := "7"]} : gmap string string))), e') ∧
    (∀ f, Execute id ["HGET"; "h"; f] now0 e' =
          Some (bulk_or_null (set_pairs [("f", "1"); ("g", "2"); ("g", "3")] {["f" := "7"]} !! f), e')) ∧
    ∃ l, l ≡ₚ map_to_list (set_pairs [("f", "1"); ("g", "2"); ("g", "3")] {["f" := "7"]}) ∧
      Execute id ["HGETALL"; "h"] now0 e' =
      Some (Array (l ≫= λ '(f, v), [BulkString f; BulkString v]), e').
Proof.
  apply (hset_then_read id "HSET" "HGET" "HGETALL" "h" ["f"; "1"; "g"; "2"; "g"; "3"]
    [("f", "1"); ("g", "2"); ("g", "3")] now0 demo {["f" := "7"]});
    [reflexivity..|done|apply demo_ok|by apply demo_room|by vm_compute].
Defined.

Lemma spop_takes_sample_witness :
  ∃ picked e', Execute id ["SPOP"; "s"; to_string 1] now0 demo =
      Some (Array (BulkString <$> picked), e') ∧
    NoDup picked ∧ (∀ m, m ∈ picked → m ∈ ({["a"; "b"]} : gset string)) ∧
    Z.of_nat (length picked) = Z.min 1 (Z.of_nat (size ({["a"; "b"]} : gset string))) ∧
    engine_lookup e' "s" =
      (if decide (({["a"; "b"]} : gset string) ⊆ list_to_set picked) then None
       else Some (mkAObj 0 (ASet ({["a"; "b"]} ∖ list_to_set picked)))).
Proof.
  apply (spop_takes_sample id "SPOP" "s" 1 now0 demo {["a"; "b"]} 0);
    [reflexivity|by vm_compute|apply demo_ok|by apply demo_room|by vm_compute].
Defined.

Definition demo_zset : gmap string double := {["x" := the_double "2"; "y" := the_double "1.5"]}.

Lemma demo_zset_view : view_zset (engine_live demo now0 "z") = VHas demo_zset 0.
Proof. by vm_compute. Qed.

Definition gt_options : ZAddOptions := mkZAddOptions false false true false false false.

Lemma zadd_then_zscore_witness :
  ∃ n e', Execute id ["ZADD"; "z"; "GT"; "1"; "x"] now0 demo = Some (Integer n, e') ∧
    Execute id ["ZSCORE"; "z"; "x"] now0 e' =
    Some (bulk_or_null (ZFormatScore <$>
            selected_score gt_options (demo_zset !! "x") (the_double "1")), e').
Proof.
  apply (zadd_then_zscore id "ZADD" "ZSCORE" "z" ["GT"; "1"; "x"] gt_options
    (mkZAddInput (the_double "1") "x") now0 demo demo_zset);
    [reflexivity|reflexivity|by vm_compute|reflexivity|cbn; lia|apply demo_ok|by apply demo_room|].
  unfold live_zset. by rewrite demo_zset_view.
Defined.

Lemma zrange_sorted_witness :
  ∃ l, l ≡ₚ entries demo_zset ∧ StronglySorted entry_lt l ∧
    Execute id ["ZRANGE"; "z"; to_string 0; to_string (-1)] now0 demo =
    Some (Array (BulkString <$> (ze_member <$>
            take (Z.to_nat (Z.min (Z.of_nat (size demo_zset) - 1)
                              (from_end (Z.of_nat (size demo_zset)) (-1)) -
                            Z.max 0 (from_end (Z.of_nat (size demo_zset)) 0) + 1))
              (drop (Z.to_nat (Z.max 0 (from_end (Z.of_nat (size demo_zset)) 0))) l))), demo).
Proof.
  apply (zrange_sorted id "ZRANGE" "z" 0 (-1) now0 demo demo_zset 0);
    [reflexivity|apply demo_ok|by vm_compute|by vm_compute|apply demo_zset_view].
Defined.

Lemma zrank_then_zrange_witness :
  ∃ i, i = Z.of_nat (length (below demo_zset (mkZEntry "x" (the_double "2")))) ∧
    Execute id ["ZRANK"; "z"; "x"] now0 demo = Some (Integer i, demo) ∧
    Execute id ["ZRANGE"; "z"; to_string i; to_string i] now0 demo =
    Some (Array [BulkString "x"], demo).
Proof.
  apply (zrank_then_zrange id "ZRANK" "ZRANGE" "z" "x" now0 demo demo_zset 0 (the_double "2"));
    [reflexivity|reflexivity|apply demo_ok|apply demo_zset_view|by vm_compute|by vm_compute].
Defined.

Lemma zcount_zrange_witness :
  ∃ l, Execute id ["ZRANGE"; "z"; "(1.5"; "+inf"; "BYSCORE"] now0 demo = Some (Array l, demo) ∧
    Execute id ["ZCOUNT"; "z"; "(1.5"; "+inf"] now0 demo =
    Some (Integer (Z.of_nat (length l)), demo).
Proof.
  apply (zcount_zrange id "ZCOUNT" "ZRANGE" "z" "(1.5" "+inf"
    (mkScoreBound (the_double "1.5") false) (mkScoreBound (dinfinity false) true)
    now0 demo demo_zset 0);
    [reflexivity|reflexivity|apply demo_ok|by vm_compute|by vm_compute|apply demo_zset_view].
Defined.

Lemma del_then_exists_witness :
  ∃ e', Execute id ["DEL"; "n"; "missing"; "n"] now0 demo =
      Some (Integer (Z.of_nat (size (live_keys demo now0 ["n"; "missing"; "n"]))), e') ∧
    engine_ok e' ∧
    Execute id ["EXISTS"; "n"; "missing"; "n"] 2000 e' = Some (Integer 0, e') ∧
    ∀ k, k ∉ ["n"; "missing"; "n"] → engine_lookup e' k = engine_lookup demo k.
Proof.
  apply (del_then_exists id "DEL" "EXISTS" ["n"; "missing"; "n"] now0 2000 demo);
    [reflexivity|reflexivity|done|by vm_compute|apply demo_ok|by apply demo_room].
Defined.

Lemma expire_then_ttl_witness :
  ∃ e', Execute id ["EXPIRE"; "n"; to_string 10] now0 demo = Some (Integer 1, e') ∧
    engine_lookup e' "n" = Some (mkAObj (deadline_after now0 10) (AString "5")) ∧
    Execute id ["TTL"; "n"] 3000 e' =
    Some (Integer (if (10 <=? 0) || (deadline_after now0 10 <=? 3000) then -2
                   else (deadline_after now0 10 - 3000) / 1000000), e').
Proof.
  apply (expire_then_ttl id "EXPIRE" "TTL" "n" 10 now0 3000 demo (mkAObj 0 (AString "5")));
    [reflexivity|reflexivity|by vm_compute|by vm_compute|by vm_compute|apply demo_ok|
     by apply demo_room|apply demo_live].
Defined.

Definition scan_strings : ScanOptions := mkScanOptions 0 7 (Some "*") (Some "string").

Lemma scan_enumerates_witness :
  ∃ keys, client_scan (Z.to_nat kSlotCount) id ["MATCH"; "*"; "COUNT"; "7"; "TYPE"; "String"] now0
      (to_string 0) [] demo = Some (keys, demo) ∧
    NoDup keys ∧ ∀ k, k ∈ keys ↔ wanted demo scan_strings now0 k.
Proof.
  apply (scan_enumerates id ["MATCH"; "*"; "COUNT"; "7"; "TYPE"; "String"] scan_strings now0 demo);
    [apply demo_ok|by vm_compute].
Defined.

Definition demo_sweeper : ExpireSweeper.t := ExpireSweeper.mk 3 (SlotForKey "t").

Lemma sweep_invisible_witness :
  ∃ deleted sweeper' e', ExpireSweeper.SweepOnce demo_sweeper 2000 demo =
      Some ((deleted, sweeper'), e') ∧
    engine_ok e' ∧ (ExpireSweeper.next_slot_ sweeper' < SlotCount demo)%nat ∧
    (∀ key, engine_live e' 2000 key = engine_live demo 2000 key) ∧
    (∀ key a, engine_lookup e' key = Some a → engine_lookup demo key = Some a) ∧
    ∀ i s s', slots_ demo !! i = Some s → slots_ e' !! i = Some s' →
      (size (expired_entries s 2000) <
         visits (SlotForKey "t") (SlotCount demo) 3 i * ExpireSweeper.kMaxExpiredKeysPerSlot)%nat →
      no_expired s' 2000.
Proof.
  apply (sweep_invisible demo_sweeper 2000 demo); [apply demo_ok| |apply demo_room].
  - unfold SlotCount. rewrite (ew_count _ (eo_wf _ (proj1 demo_ok))). apply SlotForKey_lt.
  - by vm_compute.
Defined.

Lemma read_only_isolated_witness :
  ∃ r, ExecuteReadOnly id ["get"; "n"] now0 (λ i, negb (i =? SlotForKey "h")%nat) demo =
         Some (r, demo) ∧
       ExecuteReadOnly id ["get"; "n"] now0 (λ i, negb (i =? SlotForKey "h")%nat)
         (put "h" (MakeString "other") demo) = Some (r, put "h" (MakeString "other") demo) ∧
       (IsWriteCommand "get" = true → is_error r = true).
Proof.
  apply (read_only_isolated id ["get"; "n"] now0 (λ i, negb (i =? SlotForKey "h")%nat) demo
    (put "h" (MakeString "other") demo));
    [apply demo_ok| |by vm_compute|].
  - exact (put_ok "h" (MakeString "other") demo (proj1 demo_ok)
      (demo_room 1 ltac:(lia)) (MakeString_ok "other")).
  - apply put_agree. intros i Hi. by apply negb_true_iff, Nat.eqb_neq in Hi.
Defined.
