(* ===== verification/TypeTheorems.v ===== *)
(** * What type a key holds

    Every command is for values of one type, or for values of any type. The
    first theorem says that no command changes the type of a live key, except
    SET, which replaces the value; the second that a command for another type
    is refused and changes nothing. *)

From S2P Require Import Prelude Text Containers ContainerInstance Double RedisObject Binlog HashSlot Engine Response Command KeyCmd StringCmd HashCmd SetCmd ZSetCmd ZSetOrder ScanCmd Dispatcher Demo.

(** The type a command is for, where it is for one. *)
Definition string_commands : list string :=
  ["GET"; "STRLEN"; "GETSET"; "APPEND"; "INCR"; "DECR"; "INCRBY"; "DECRBY"].
Definition hash_commands : list string :=
  ["HSET"; "HGET"; "HDEL"; "HEXISTS"; "HLEN"; "HSTRLEN"; "HMGET"; "HMSET"; "HGETALL"; "HKEYS";
   "HVALS"; "HINCRBY"].
Definition set_commands : list string :=
  ["SADD"; "SISMEMBER"; "SREM"; "SCARD"; "SMEMBERS"; "SMISMEMBER"; "SPOP"; "SRANDMEMBER"].
Definition zset_commands : list string :=
  ["ZADD"; "ZSCORE"; "ZREM"; "ZCARD"; "ZRANK"; "ZREVRANK"; "ZCOUNT"; "ZINCRBY"; "ZRANGE"].

Definition command_type (cmd : string) : option string :=
  if decide (cmd ∈ string_commands) then Some "string"
  else if decide (cmd ∈ hash_commands) then Some "hash"
  else if decide (cmd ∈ set_commands) then Some "set"
  else if decide (cmd ∈ zset_commands) then Some "zset"
  else None.

(** ** A view of another type *)

Lemma view_string_wrong a : type_name_of (a_val a) ≠ "string" → view_string (Some a) = VWrong.
Proof. by destruct a as [d []]. Qed.
Lemma view_hash_wrong a : type_name_of (a_val a) ≠ "hash" → view_hash (Some a) = VWrong.
Proof. by destruct a as [d []]. Qed.
Lemma view_set_wrong a : type_name_of (a_val a) ≠ "set" → view_set (Some a) = VWrong.
Proof. by destruct a as [d []]. Qed.
Lemma view_zset_wrong a : type_name_of (a_val a) ≠ "zset" → view_zset (Some a) = VWrong.
Proof. by destruct a as [d []]. Qed.

Ltac wrong_view :=
  rewrite ?view_string_wrong, ?view_hash_wrong, ?view_set_wrong, ?view_zset_wrong by done.

Section types.
Context {IC : ImmutableContainer} {CL : ContainerLaws IC}.

Ltac write_cases H :=
  apply commands_lookup in H; unfold command_list in H;
  repeat (rewrite elem_of_cons in H; destruct H as [H|H];
    [injection H as -> ->|]); [..|by apply not_elem_of_nil in H].

(** A write command for another type. *)
Lemma write_rel_wrong_type now_us cmd key rest a eff r ty c :
  commands_ !! cmd = Some c → write_cmd c = true →
  command_type cmd = Some ty → type_name_of (a_val a) ≠ ty →
  write_rel now_us cmd key rest (Some a) eff r → eff = Keep ∧ is_error r = true.
Proof.
  intros Hc Hw Ht Ha H. write_cases Hc; try discriminate Hw; try discriminate Ht; clear Hw;
    injection Ht as <-; cbn [write_rel] in H;
    try (destruct H as (pairs & _ & H));
    repeat match type of H with
    | context [match rest with _ => _ end] => destruct rest as [|? rest]; try done
    end;
    unfold getset_spec, append_spec, by_spec, integer_spec, hset_spec, hdel_spec, hincrby_spec,
      sadd_spec, srem_spec, zadd_cmd_spec, zincrby_spec, zadd_spec, zincr_spec, zrem_spec,
      spop_spec_rel, spop_rel, set_read_spec in H; revert H; wrong_view.
  all: repeat case_match; try (intros [= -> ->]; done); by intros [-> ->].
Qed.

(** What a write command stores. *)
Lemma write_rel_stores now_us cmd key rest o a' args r c :
  commands_ !! cmd = Some c → write_cmd c = true →
  write_rel now_us cmd key rest o (Write (Some a') args) r →
  match command_type cmd with
  | Some ty => type_name_of (a_val a') = ty
  | None => cmd = "SET" ∧ type_name_of (a_val a') = "string" ∨
            cmd = "SETNX" ∧ o = None ∨ a_val <$> o = Some (a_val a')
  end.
Proof.
  intros Hc Hw H. write_cases Hc; try discriminate Hw; clear Hw;
    match goal with |- context [command_type ?x] =>
      let v := eval vm_compute in (command_type x) in change (command_type x) with v end;
    cbv iota beta; cbn [write_rel] in H;
    try (destruct H as (pairs & _ & H));
    repeat match type of H with
    | context [match rest with _ => _ end] => destruct rest as [|? rest]; try done
    end;
    unfold set_spec, set_options_spec, setnx_spec, expire_spec, getset_spec, append_spec, by_spec,
      integer_spec, hset_spec, hdel_spec, hincrby_spec, hincrby_apply_spec,
      sadd_spec, srem_spec, srem_effect, zadd_cmd_spec, zincrby_spec, zadd_spec, zincr_spec,
      zincr_apply_spec, zrem_spec, spop_spec_rel, spop_rel, srem_effect, store in H; revert H.
  all: repeat case_match; try (by intros [= -> _ _]); try done; try (by intros [? _]).
  all: try (intros [= -> _ _]; by auto).
  all: intros (picked & _ & _ & _ & Heff & _); revert Heff; repeat case_match; try done; by intros [= -> _].
Qed.

(** A write to a live key. *)
Lemma write_rel_type now_us cmd key rest a a' args r c :
  commands_ !! cmd = Some c → write_cmd c = true →
  write_rel now_us cmd key rest (Some a) (Write (Some a') args) r →
  type_name_of (a_val a') = type_name_of (a_val a) ∨
  cmd = "SET" ∧ type_name_of (a_val a') = "string".
Proof.
  intros Hc Hw H. pose proof (write_rel_stores _ _ _ _ _ _ _ _ _ Hc Hw H) as Hs.
  destruct (command_type cmd) as [ty|] eqn:Ht.
  - left. destruct (decide (type_name_of (a_val a) = ty)) as [->|Hne]; [done|].
    by destruct (write_rel_wrong_type _ _ _ _ _ _ _ _ _ Hc Hw Ht Hne H).
  - destruct Hs as [Hs|[[_ Hs]|[= ->]]]; [by right|done|by left].
Qed.

Lemma ParseZRangeBounds_error options arg2 arg3 error :
  ParseZRangeBounds options arg2 arg3 = inl error → is_error error = true.
Proof. unfold ParseZRangeBounds. repeat case_match; intros; by simplify_eq. Qed.

(** A read command for another type. *)
Lemma read_wrong_type rnd name key rest now_us e a ty c r :
  engine_ok e → is_u64 now_us →
  commands_ !! ToUpperAscii name = Some c → write_cmd c = false →
  command_type (ToUpperAscii name) = Some ty →
  engine_live e now_us key = Some a → type_name_of (a_val a) ≠ ty →
  CheckArity (ce_cmd c) (name :: key :: rest) = None →
  ExecCmd (ce_cmd c) rnd (name :: key :: rest) now_us e = Some (r, e) → is_error r = true.
Proof.
  intros He Hn Hc Hw Ht Ha Hne Har E. remember (ToUpperAscii name) as cmd eqn:Hcmd. clear Hcmd.
  write_cases Hc; try discriminate Hw; try discriminate Ht; clear Hw; cbn [ce_cmd] in *;
    injection Ht as <-; cbn in Har; unfold CheckMinArity, CheckExactArity in Har;
    try (apply arity_check_None in Har; cbn in Har);
    repeat match type of Har with
    | context [length rest] => destruct rest as [|? rest]; try done; cbn in Har
    end.
  all: revert E; rewrite ?Get_run, ?StrLen_run, ?HGet_run, ?HExists_run, ?HLen_run, ?HStrLen_run,
    ?HMGet_run, ?SIsMember_run, ?SCard_run, ?SMIsMember_run, ?ZScore_run, ?ZCard_run, ?ZCount_run,
    ?ZRange_run by done.
  all: rewrite ?Ha; unfold get_spec, strlen_spec, hash_read_spec, set_read_spec, zset_read_spec;
    wrong_view; try (by intros [= <-]).
  - destruct (HGetAll_run rnd name key now_us e He) as (l & _ & ->). rewrite Ha.
    unfold hash_read_spec. wrong_view. by intros [= <-].
  - destruct (HKeys_run rnd name key now_us e He) as (l & _ & ->). rewrite Ha.
    unfold hash_read_spec. wrong_view. by intros [= <-].
  - destruct (HVals_run rnd name key now_us e He) as (l & _ & ->). rewrite Ha.
    unfold hash_read_spec. wrong_view. by intros [= <-].
  - destruct (SMembers_run rnd name key now_us e He) as (r1 & -> & Hr1). rewrite Ha in Hr1. revert Hr1.
    wrong_view. by intros -> [= <-].
  - destruct (SRandMember_run rnd name key None now_us e He) as (r1 & E & Hr1). unfold option_list, from_option in E. rewrite E.
    rewrite Ha in Hr1. revert Hr1. wrong_view. by intros -> [= <-].
  - match goal with |- context [[name; key; ?text]] =>
      destruct (SRandMember_run rnd name key (Some text) now_us e He) as (r1 & E & Hr1) end.
    unfold option_list, from_option in E. rewrite E. rewrite Ha in Hr1. revert Hr1. wrong_view.
    repeat case_match; by intros -> [= <-].
  - cbn. change (RankResponse now_us key s false e = Some (r, e) → is_error r = true).
    rewrite (RankResponse_run key _ false now_us e He), Ha. unfold zset_read_spec. wrong_view.
    by intros [= <-].
  - cbn. change (RankResponse now_us key s true e = Some (r, e) → is_error r = true).
    rewrite (RankResponse_run key _ true now_us e He), Ha. unfold zset_read_spec. wrong_view.
    by intros [= <-].
  - repeat case_match; by intros [= <-].
  - destruct (ParseZRangeOptions_loop _ _) as [options|]; [|by intros [= <-]].
    destruct (ParseZRangeBounds _ _ _) as [error|bounds] eqn:Eb; [|by intros [= <-]].
    intros [= <-]. by eapply ParseZRangeBounds_error.
Qed.

(** C10: No command changes the type of a key: whatever the command line, a
    key that is live when it runs and still holds an entry afterwards holds
    one of the same type; only SET, on its own key, may replace it by a
    string. *)
Theorem key_types_kept rnd args now_us e :
  engine_ok e → is_u64 now_us → engine_room e (Z.of_nat (length args)) →
  ∃ r e', Execute rnd args now_us e = Some (r, e') ∧
    ∀ k a a', engine_live e now_us k = Some a → engine_lookup e' k = Some a' →
      type_name_of (a_val a') = type_name_of (a_val a) ∨
      ToUpperAscii (default "" (head args)) = "SET" ∧ args !! 1%nat = Some k ∧
      type_name_of (a_val a') = "string".
Proof.
  intros He Hn Hr. destruct (Execute_total rnd args now_us e He Hn Hr) as (r & e' & E & _ & _).
  exists r, e'. split; [done|]. intros k a a' Hlive Hk.
  assert (engine_lookup e k = Some a' → type_name_of (a_val a') = type_name_of (a_val a)) as Hsame.
  { intros Hl. rewrite engine_live_lookup, Hl in Hlive. case_match; by simplify_eq. }
  destruct (Execute_cases rnd args now_us e r e' He Hn Hr E)
    as [->|[(name & keys & -> & _ & Ed)|(name & key & rest & c & eff & -> & Hc & Hw & _ & _ & Hrel & Hwr)]].
  - left. by apply Hsame.
  - left. destruct (Del_run rnd name keys now_us e He) as (e2 & E2 & _ & Hl & _).
    { eapply engine_room_le; [|exact Hr]. cbn [length]. lia. }
    rewrite Ed in E2. injection E2 as _ ->. rewrite Hl in Hk. case_decide; [done|]. by apply Hsame.
  - rewrite (engine_writes_lookup e key now_us eff e' k He Hwr) in Hk.
    destruct eff as [|entry largs]; [left; by apply Hsame|]. case_decide as Hkey; [|left; by apply Hsame].
    subst k entry. rewrite Hlive in Hrel.
    destruct (write_rel_type _ _ _ _ _ _ _ _ _ Hc Hw Hrel) as [?|[? ?]]; [by left|by right].
Qed.

(** C15: A command for one type, given a live key of another, answers an error
    and leaves the cache as it was, whatever its other arguments are. *)
Theorem wrong_type_rejected rnd name key rest now_us e a ty :
  engine_ok e → is_u64 now_us → command_type (ToUpperAscii name) = Some ty →
  engine_live e now_us key = Some a → type_name_of (a_val a) ≠ ty →
  ∃ r, Execute rnd (name :: key :: rest) now_us e = Some (r, e) ∧ is_error r = true.
Proof.
  intros He Hn Ht Ha Hne.
  cbn [Execute]. destruct (commands_ !! ToUpperAscii name) as [c|] eqn:Hc; [|by eexists].
  destruct (CheckArity (ce_cmd c) (name :: key :: rest)) as [error|] eqn:Har; [by eexists|].
  destruct (write_cmd c) eqn:Hw.
  - assert (ToUpperAscii name ≠ "DEL") as Hd by (intros Hd; by rewrite Hd in Ht).
    destruct (write_implements rnd name key rest now_us c Hn Hc Hw Hd Har e He)
      as (r & eff & e' & E & Hrel & Hwr).
    rewrite Ha in Hrel. destruct (write_rel_wrong_type _ _ _ _ _ _ _ _ _ Hc Hw Ht Hne Hrel) as [-> Herr].
    exists r. by rewrite E, Hwr.
  - destruct (read_command_run rnd _ now_us _ c e He Hn Hc Hw Har) as (r & E). exists r.
    split; [done|]. by eapply read_wrong_type.
Qed.
End types.

#[local] Existing Instance gmap_container.
#[local] Existing Instance gmap_container_laws.

(** *** Witnesses *)

Lemma key_types_kept_witness :
  ∃ r e', Execute id ["append"; "n"; "0"] 1000 demo = Some (r, e') ∧
    ∀ k a a', engine_live demo 1000 k = Some a → engine_lookup e' k = Some a' →
      type_name_of (a_val a') = type_name_of (a_val a) ∨
      ToUpperAscii (default "" (head ["append"; "n"; "0"])) = "SET" ∧
      ["append"; "n"; "0"] !! 1%nat = Some k ∧ type_name_of (a_val a') = "string".
Proof.
  apply (key_types_kept id ["append"; "n"; "0"] 1000 demo);
    [apply demo_ok|by vm_compute|by apply demo_room].
Defined.

Lemma wrong_type_rejected_witness :
  ∃ r, Execute id ["zadd"; "h"; "1"; "m"] 1000 demo = Some (r, demo) ∧ is_error r = true.
Proof.
  apply (wrong_type_rejected id "zadd" "h" ["1"; "m"] 1000 demo (mkAObj 0 (AHash {["f" := "7"]})) "zset");
    [apply demo_ok|by vm_compute|by vm_compute|apply demo_live|done].
Defined.
