(* ===== verification/ReplicationTheorems.v ===== *)
(** * What replication promises

    The theorems about the binlog, the primary's batches and the replica:
    what the log says of the writes, that replaying it or loading a snapshot
    brings a replica's slot to the primary's state, that frames keep the
    replica's invariant, when a slot goes online, and what garbage collection
    and the budget may drop. *)

From S2P Require Import Prelude Text Containers ContainerInstance Double RedisObject Binlog HashSlot Engine Response Command Dispatcher Replay Resp RespInstance ReplFrame SnapshotCodec Slave Convergence Interference Master Shipping Socket Server Link Round Polling CatchUp Demo.

Section replication.
Context {IC : ImmutableContainer} {CL : ContainerLaws IC}.
Context {RL : RespLib} {RW : RespLaws RL}.
Context {HI : History}.

Lemma EnqueueFrame_Done rnd now s positions :
  sl_session_id_ s ≠ "" →
  EnqueueFrame rnd (Frame_Done (sl_session_id_ s) positions) now s =
  Some ((done_slots positions (sl_slots_ s)).1,
        mkSlave (sl_engine_ s) (done_slots positions (sl_slots_ s)).2 (sl_session_id_ s)).
Proof.
  intros Hs. unfold EnqueueFrame. cbn [fr_subcmd Frame_Done fr_session_id fr_slot_positions].
  rewrite decide_False by done. rewrite (proj2 (String.eqb_neq _ _)) by done.
  rewrite String.eqb_refl. cbn [negb orb]. rewrite decide_True by done.
  by destruct (done_slots positions (sl_slots_ s)).
Qed.

(** ** The log *)

(** C3: What any command line does is what the log says. Slot by slot the
    execution is a sequence of writes to keys of that slot, each of which,
    executed again from its logged arguments on the same entry, has the same
    effect; the slot's sequence number grows by one per write, and the log
    is extended by exactly the records of these writes. *)
Theorem commands_are_logged rnd args now_us e :
  engine_ok e → engine_room e (Z.of_nat (length args)) → 0 < now_us <= UINT64_MAX →
  ∃ r e', Execute rnd args now_us e = Some (r, e') ∧
    ∀ i s, slots_ e !! i = Some s → log_writes_ s = true →
      ∃ s' evs dropped, slots_ e' !! i = Some s' ∧
        primary_run (HI := any_history) i s evs s' ∧
        slot_seq_ s' = slot_seq_ s + Z.of_nat (length evs) ∧
        BinlogBuffer.records_ (binlog_buffer_ s) ++ run_records (slot_seq_ s) evs =
          dropped ++ BinlogBuffer.records_ (binlog_buffer_ s').
Proof.
  intros He Hr Hn.
  destruct (Execute_total rnd args now_us e He) as (r & e' & E & He' & _); [u64_lia|done|].
  exists r, e'. split; [done|]. intros i s Hs Hlog.
  destruct (Execute_run rnd args now_us e r e' He Hr Hn E) as [_ Hrun].
  destruct (Hrun i s Hs) as (s' & evs & Hs' & Hp & Hseq). pose proof (eo_slots _ He _ _ Hs) as Hok.
  destruct (primary_run_log i s evs s' Hp Hlog (so_seq _ _ Hok) (so_bytes _ _ Hok)) as [_ [dropped Hd]].
  { rewrite <-Hseq. apply (so_seq _ _ (eo_slots _ He' _ _ Hs')). }
  by exists s', evs, dropped.
Qed.

(** C12: A replica in sync with a slot of the primary at one point of its run,
    given the log records of the rest of the run, accepts them all, keeps
    its invariant, is in sync at the end of the run, and has changed in
    this slot only. *)
Theorem log_replay_converges rnd i now sl p evs p' :
  slave_ok sl → slot_seq_ p + Z.of_nat (length evs) <= UINT64_MAX → is_u64 now →
  in_sync i sl p → primary_run i p evs p' →
  ∃ sl', ApplyLogs rnd i now (run_records (slot_seq_ p) evs) sl = Some (true, sl') ∧
    slave_ok sl' ∧ in_sync i sl' p' ∧ only_slot i sl sl'.
Proof. apply ApplyLogs_sync. Qed.

(** C13: The snapshot the primary encodes of a slot, applied by a replica in
    any state, brings the replica in sync with that slot and touches no other
    (scores whose text does not read back, and slots beyond the decoder's
    element limit, excepted). *)
Theorem snapshot_brings_in_sync i sl p :
  slave_ok sl → slot_ok i p → (i < length (sl_slots_ sl))%nat →
  map_Forall (λ _ o, faithful o) (to_gmap (redis_obj_map_ p)) →
  Z.of_nat (length (snapshot_texts (redis_obj_map_ p))) <= kMaxSnapshotElements →
  ∃ payload sl', EncodeSnapshotPayload (snap_map (Snapshot p)) = Some payload ∧
    ApplySnapshot i payload (snap_published_seq (Snapshot p)) sl = Some (true, sl') ∧
    slave_ok sl' ∧ in_sync i sl' p ∧ only_slot i sl sl'.
Proof. apply ApplySnapshot_sync. Qed.


(** ** Frames *)

(** C17: Every decoded frame (one that brings no empty collection), in any state
    of the replica, is handled within defined behaviour and keeps the replica's invariant: the cache is well
    formed and writes no log of its own, a slot's sequence number is the one
    it has applied, and a slot that needs a snapshot is offline. *)
Theorem replica_frames_invariant rnd f now s :
  slave_ok s → is_u64 now → frame_valid f →
  ∃ b s', EnqueueFrame rnd f now s = Some (b, s') ∧ slave_ok s'.
Proof. apply EnqueueFrame_ok. Qed.

(** ** The primary *)


(** C21: A poll always answers within defined behaviour. A request that is not
    a HELLO of this protocol from a named replica gets no frames and changes
    nothing; any other gets one batch between a BEGIN and a DONE of its
    session, within the frame limit and within 16 MiB of payload unless it
    is a single frame, and keeps its session unless told to reset. *)
Theorem poll_batch_limits hello_view view slot_count m hello max_frames :
  master_ok slot_count m → view_ok view →
  ∃ frames m', Poll hello_view view slot_count m hello max_frames = Some (frames, m') ∧
    master_ok slot_count m' ∧
    if bool_decide (fr_subcmd hello = kHello) && (fr_proto_version hello =? kProtocolVersion) &&
       negb (String.eqb (fr_replica_id hello) "")
    then ∃ session reset batch completed,
      frames = Frame_Begin session reset :: batch ++ [Frame_Done session completed] ∧
      (length batch <= max_frames)%nat ∧
      (sumZ frame_bytes batch <= kMaxBatchPayloadBytes ∨ (length batch <= 1)%nat) ∧
      (reset = false → session = fr_session_id hello)
    else frames = [] ∧ m' = m.
Proof. apply Poll_ok. Qed.

(** The backlog test is exact: below the last sequence number, the log
    is said to reach back to [seq] just when it holds every record from
    [seq] on. *)
Theorem has_backlog_exact id s seq :
  slot_ok id s → slot_seq_ s < UINT64_MAX → 1 <= seq <= slot_seq_ s + 1 →
  HasBacklog (quiet s) seq = true ↔
  Z.of_nat (length (BinlogBuffer.newer (seq - 1) (BinlogBuffer.records_ (binlog_buffer_ s)))) =
    slot_seq_ s - (seq - 1).
Proof. apply HasBacklog_spec. Qed.

(** C23: Garbage collection ends, keeps every entry and sequence number, and
    drops only a prefix of a slot's log, all of whose records every replica
    has acknowledged. *)
Theorem gc_keeps_unacked m e :
  engine_ok e → master_ok (SlotCount e) m →
  ∃ e', CollectGarbage m e = Some (tt, e') ∧ engine_ok e' ∧
    length (slots_ e') = length (slots_ e) ∧
    ∀ i s, slots_ e !! i = Some s → ∃ s', slots_ e' !! i = Some s' ∧
      slot_map s' = slot_map s ∧ slot_seq_ s' = slot_seq_ s ∧
      ∃ dropped,
        BinlogBuffer.records_ (binlog_buffer_ s) =
          dropped ++ BinlogBuffer.records_ (binlog_buffer_ s') ∧
        ∀ rec r state, rec ∈ dropped → r ∈ ms_replicas_ m → rp_slots r !! i = Some state →
          rec_seq rec <= rs_acked_seq state.
Proof. apply CollectGarbage_run. Qed.

(** C22: After enforcing the budget the logs fit in it, whatever they held,
    no entry changed, and every replica that lacked a dropped record is
    marked for a snapshot. *)
Theorem budget_enforced m e :
  engine_ok e → 0 <= ms_budget_ m → master_ok (SlotCount e) m →
  ∃ m' e', EnforceBudget m e = Some (m', e') ∧ engine_ok e' ∧
    total_log_bytes e' <= ms_budget_ m ∧
    ∀ i s, slots_ e !! i = Some s → ∃ s', slots_ e' !! i = Some s' ∧
      (s' = s ∨
       slot_map s' = slot_map s ∧ slot_seq_ s' = slot_seq_ s ∧
       BinlogBuffer.records_ (binlog_buffer_ s') = [] ∧
       ∀ r state, r ∈ ms_replicas_ m' → rp_slots r !! i = Some state →
         rs_acked_seq state < MaxRetainedLogSeq s → rs_need_snapshot state = true).
Proof.
  intros He Hb Hm. destruct (EnforceBudget_run m e He Hb Hm) as (m' & e' & E & He' & _ & _ & _ & H).
  by exists m', e'.
Qed.

(** A read of the log answers, in order and without a gap, the first
    records newer than the given sequence: no more than the count and, beyond
    the first record, the bytes allow, and as many as both allow. *)
Theorem copied_logs_prefix s seq limit max_bytes :
  let copied := CopyLogsAfter s seq limit max_bytes in
  ∃ rest, BinlogBuffer.newer seq (BinlogBuffer.records_ (binlog_buffer_ s)) = copied ++ rest ∧
    (length copied <= limit)%nat ∧
    (BinlogBuffer.total_bytes copied <= max_bytes ∨ (length copied <= 1)%nat) ∧
    (rest = [] ∨ length copied = limit ∨
     ∃ r, head rest = Some r ∧
       max_bytes < BinlogBuffer.total_bytes copied + EstimateBinlogRecordBytes r).
Proof.
  destruct (BinlogBuffer.CopyAfter_spec (binlog_buffer_ s) seq limit max_bytes)
    as (rest & H1 & H2 & H3 & _ & H4). by exists rest.
Qed.

(** ** Wire formats *)


(** Whatever arguments arrive, a frame that decodes from them is
    well-formed: its numbers fit in 64 bits and it is one the encoder could
    have sent, so that encoding it again and decoding gives the same frame. *)
Theorem decoded_frames_ok args f :
  Z.of_nat (length args) <= UINT64_MAX → DecodeFrame_args args = Some f →
  frame_ok f ∧ DecodeFrame_args (frame_args f) = Some f.
Proof.
  intros Hl Hd. pose proof (DecodeFrame_args_ok args f Hl Hd) as Hok.
  split; [done|]. by apply DecodeFrame_frame_args.
Qed.


(** C39: A slot with more elements than the decoder's limit still encodes,
    into a payload every replica rejects. *)
Theorem oversized_snapshot_rejected map :
  map_Forall (λ _ o, object_ok o) (to_gmap map) →
  kMaxSnapshotElements < Z.of_nat (length (snapshot_texts map)) →
  ∃ payload, EncodeSnapshotPayload map = Some payload ∧ DecodeSnapshotPayload payload = None.
Proof. apply Snapshot_oversize. Qed.


End replication.

#[local] Existing Instance gmap_container.
#[local] Existing Instance gmap_container_laws.

Definition k_slot : nat := SlotForKey "k".

Lemma commands_are_logged_witness :
  ∃ r e', Execute id ["SADD"; "s"; "c"] 1000 demo = Some (r, e') ∧
    ∀ i s, slots_ demo !! i = Some s → log_writes_ s = true →
      ∃ s' evs dropped, slots_ e' !! i = Some s' ∧
        primary_run (HI := any_history) i s evs s' ∧
        slot_seq_ s' = slot_seq_ s + Z.of_nat (length evs) ∧
        BinlogBuffer.records_ (binlog_buffer_ s) ++ run_records (slot_seq_ s) evs =
          dropped ++ BinlogBuffer.records_ (binlog_buffer_ s').
Proof.
  apply (commands_are_logged id ["SADD"; "s"; "c"] 1000 demo);
    [apply demo_ok|by apply demo_room|by vm_compute].
Defined.

Lemma log_replay_converges_witness :
  ∃ sl', ApplyLogs id k_slot 5000 (run_records 0 [demo_event]) demo_replica = Some (true, sl') ∧
    slave_ok sl' ∧ in_sync k_slot sl' demo_slot ∧ only_slot k_slot demo_replica sl'.
Proof.
  apply (log_replay_converges id k_slot 5000 demo_replica HashSlot_new [demo_event] demo_slot);
    [apply demo_replica_ok|by vm_compute|by vm_compute| |apply demo_run].
  apply demo_in_sync, demo_key_slot.
Defined.

Lemma snapshot_brings_in_sync_witness :
  ∃ payload sl', EncodeSnapshotPayload (snap_map (Snapshot demo_slot)) = Some payload ∧
    ApplySnapshot k_slot payload (snap_published_seq (Snapshot demo_slot)) demo_replica =
      Some (true, sl') ∧
    slave_ok sl' ∧ in_sync k_slot sl' demo_slot ∧ only_slot k_slot demo_replica sl'.
Proof.
  apply (snapshot_brings_in_sync k_slot demo_replica demo_slot);
    [apply demo_replica_ok|apply demo_slot_ok| |by apply demo_slot_objects|by vm_compute].
  unfold demo_replica. cbn [sl_slots_]. rewrite length_replicate. apply demo_key_slot.
Defined.



Lemma replica_frames_invariant_witness :
  ∃ b s', EnqueueFrame id (Frame_Log "session" (Z.of_nat k_slot) (event_record 1 demo_event)) 5000
      demo_replica = Some (b, s') ∧ slave_ok s'.
Proof.
  apply (replica_frames_invariant id
    (Frame_Log "session" (Z.of_nat k_slot) (event_record 1 demo_event)) 5000 demo_replica);
    [apply demo_replica_ok|by vm_compute|].
  split; [|done]. apply Log_ok; [by vm_compute|]. by vm_compute.
Defined.

Definition demo_online : SlaveReplicator :=
  mkSlave (sl_engine_ demo_replica)
    (done_slots [(Z.of_nat k_slot, 0)] (sl_slots_ demo_replica)).2 "session".



Definition demo_hello : Frame := Frame_Hello "r1" kProtocolVersion "" [(0, 0); (1, 7)].

Lemma poll_batch_limits_witness :
  ∃ frames m', Poll (λ _, quiet HashSlot_new) (λ _, quiet HashSlot_new) 5
      (MasterReplicator_new 1 2) demo_hello 10 = Some (frames, m') ∧
    master_ok 5 m' ∧
    ∃ session reset batch completed,
      frames = Frame_Begin session reset :: batch ++ [Frame_Done session completed] ∧
      (length batch <= 10)%nat ∧
      (sumZ frame_bytes batch <= kMaxBatchPayloadBytes ∨ (length batch <= 1)%nat) ∧
      (reset = false → session = "").
Proof.
  apply (poll_batch_limits (λ _, quiet HashSlot_new) (λ _, quiet HashSlot_new) 5
    (MasterReplicator_new 1 2) demo_hello 10); [apply Forall_nil; exact I|].
  intros slot_id k. apply HashSlot_new_ok.
Defined.

Lemma has_backlog_exact_witness :
  HasBacklog (quiet demo_slot) 1 = true ↔
  Z.of_nat (length (BinlogBuffer.newer (1 - 1) (BinlogBuffer.records_ (binlog_buffer_ demo_slot)))) =
    slot_seq_ demo_slot - (1 - 1).
Proof.
  apply (has_backlog_exact k_slot demo_slot 1); [apply demo_slot_ok|by vm_compute|by vm_compute].
Defined.

(** A primary with one replica that has acknowledged nothing, and no budget. *)
Definition demo_master : MasterReplicator :=
  mkMaster "epoch" [mkReplica "r1" "s1" (replicate (SlotCount demo) ReplicaSlotState_default) 0 false]
    2 0.

Lemma demo_master_ok : master_ok (SlotCount demo) demo_master.
Proof. apply Forall_singleton. cbn [rp_slots]. apply length_replicate. Qed.

Lemma gc_keeps_unacked_witness :
  ∃ e', CollectGarbage demo_master demo = Some (tt, e') ∧ engine_ok e' ∧
    length (slots_ e') = length (slots_ demo) ∧
    ∀ i s, slots_ demo !! i = Some s → ∃ s', slots_ e' !! i = Some s' ∧
      slot_map s' = slot_map s ∧ slot_seq_ s' = slot_seq_ s ∧
      ∃ dropped,
        BinlogBuffer.records_ (binlog_buffer_ s) =
          dropped ++ BinlogBuffer.records_ (binlog_buffer_ s') ∧
        ∀ rec r state, rec ∈ dropped → r ∈ ms_replicas_ demo_master →
          rp_slots r !! i = Some state → rec_seq rec <= rs_acked_seq state.
Proof. apply (gc_keeps_unacked demo_master demo); [apply demo_ok|apply demo_master_ok]. Defined.

Lemma budget_enforced_witness :
  ∃ m' e', EnforceBudget demo_master demo = Some (m', e') ∧ engine_ok e' ∧
    total_log_bytes e' <= 0 ∧
    ∀ i s, slots_ demo !! i = Some s → ∃ s', slots_ e' !! i = Some s' ∧
      (s' = s ∨
       slot_map s' = slot_map s ∧ slot_seq_ s' = slot_seq_ s ∧
       BinlogBuffer.records_ (binlog_buffer_ s') = [] ∧
       ∀ r state, r ∈ ms_replicas_ m' → rp_slots r !! i = Some state →
         rs_acked_seq state < MaxRetainedLogSeq s → rs_need_snapshot state = true).
Proof.
  apply (budget_enforced demo_master demo);
    [apply demo_ok|by vm_compute|apply demo_master_ok].
Defined.


Lemma decoded_frames_ok_witness :
  frame_ok demo_hello ∧ DecodeFrame_args (frame_args demo_hello) = Some demo_hello.
Proof.
  apply (decoded_frames_ok ["CACHE.REPL"; "HELLO"; "r1"; "2"; ""; "2"; "0"; "0"; "1"; "7"]);
    by vm_compute.
Defined.


Lemma oversized_snapshot_rejected_witness :
  ∃ payload, EncodeSnapshotPayload (map_of (many_objects (Z.to_nat 1000001))) = Some payload ∧
    DecodeSnapshotPayload payload = None.
Proof.
  apply (oversized_snapshot_rejected (map_of (many_objects (Z.to_nat 1000001)))).
  - apply many_objects_ok. unfold INT64_MAX. lia.
  - assert (Z.of_nat (Z.to_nat 1000001) <= INT64_MAX) as H by (unfold INT64_MAX; lia).
    apply many_objects_texts in H. unfold kMaxSnapshotElements. lia.
Defined.
