(* ===== verification/TextTheorems.v ===== *)
(** * What the text codecs promise

    Glob patterns against their reference semantics, and numbers as text. *)

From S2P Require Import Prelude Text Glob.

(** C35: The backtracking matcher of patterns decides the reference semantics
    of globs: the tokens of the pattern, matched against the bytes of the
    value one by one, a star against any bytes. *)
Theorem glob_match_reference pattern value :
  Glob.GlobMatch pattern value = true ↔ Glob.GlobSpec pattern value.
Proof. apply Glob.GlobMatch_spec. Qed.

(** Numbers read back from the text they are written as: signed ones in
    64 bits; unsigned ones up to the largest, and larger ones are refused. *)
Theorem number_text_roundtrip z :
  (is_i64 z → ParseInt64 (to_string z) = Some z) ∧
  (0 <= z → ParseU64 (to_string z) = if z <=? UINT64_MAX then Some z else None).
Proof. split; [apply ParseInt64_to_string|apply ParseU64_show]. Qed.

Lemma c_str_nul text rest : c_str (text +:+ String (chr 0) rest) = c_str text.
Proof.
  induction text as [|c text IH]; [done|]. rewrite string_app_cons. cbn [c_str]. by rewrite IH.
Qed.

(** An integer argument is read only up to its first NUL byte: whatever
    follows it is ignored, where any other trailing byte is refused. *)
Theorem integer_stops_at_nul text rest :
  text ≠ "" →
  ParseInt64 (text +:+ String (chr 0) rest) = ParseInt64 text ∧ ParseInt64 "5x" = None.
Proof.
  intros Hne. destruct text as [|c text]; [done|]. split; [|reflexivity].
  pose proof (c_str_nul (String c text) rest) as H. unfold ParseInt64.
  rewrite string_app_cons in H |- *. by rewrite H.
Qed.

Lemma integer_stops_at_nul_witness :
  ParseInt64 ("5" +:+ String (chr 0) "junk") = Some 5 ∧ ParseInt64 "5x" = None.
Proof. by apply (integer_stops_at_nul "5" "junk"). Defined.
