(* ===== verification/WorkerTheorems.v ===== *)
(** * Theorems about the threads that accept and hold connections

    No connection is lost or served twice whatever the threads do, the reaper
    leaves no connection waiting beside an idle task, and connections are
    dealt to the workers in turn. *)

From S2P Require Import Prelude Worker.

(** C36: Whatever the accepting thread, the reaper and the tasks of a worker do,
    and in whatever order: every connection the worker was given is in exactly
    one place (waiting in its queue, being handed over by the reaper, served
    by a task, or closed), the queue holds at most 4096, its flag says whether
    it is empty, and a task is on the idle stack, once, exactly when it serves
    no connection. *)
Theorem worker_conserves coroutine_count accepted w :
  worker_reachable coroutine_count accepted w →
  accepted ≡ₚ wk_pending_fds_ w ++ default [] (wk_reaping w) ++
              serving_fds (wk_tasks w) ++ wk_closed w ∧
  (length (wk_pending_fds_ w) <= kPendingFdLimit)%nat ∧
  wk_has_pending_fds_ w = negb (bool_decide (wk_pending_fds_ w = [])) ∧
  NoDup (wk_idle_tasks w) ∧
  ∀ task, task ∈ wk_idle_tasks w ↔ wk_tasks w !! task = Some (-1).
Proof. intros [H1 H2 H3 H4 H5 _ _]%worker_reachable_ok. done. Qed.

(** Two tasks, three connections: one task takes the first and is done with
    it. *)
Definition demo_worker : Worker :=
  mkWorker [9] true [1%nat] [8; -1] None [7].

Ltac worker_moves H step :=
  eapply (reach_step 2) in H; [|step]; vm_compute in H.

Lemma demo_worker_reachable : worker_reachable 2 [7; 8; 9] demo_worker.
Proof.
  pose proof (reach_new 2) as H.
  worker_moves H ltac:(by apply (step_dispatch _ 7)).
  worker_moves H ltac:(by apply (step_dispatch _ 8)).
  worker_moves H ltac:(by apply step_take).
  worker_moves H ltac:(by apply step_give).
  worker_moves H ltac:(by apply step_give).
  worker_moves H ltac:(by apply step_return; [left|]).
  worker_moves H ltac:(by apply (step_dispatch _ 9)).
  worker_moves H ltac:(by apply (step_close _ 1)).
  exact H.
Qed.

Lemma worker_conserves_witness :
  worker_reachable 2 [7; 8; 9] demo_worker ∧
  [7; 8; 9] ≡ₚ wk_pending_fds_ demo_worker ++ default [] (wk_reaping demo_worker) ++
               serving_fds (wk_tasks demo_worker) ++ wk_closed demo_worker.
Proof.
  split; [exact demo_worker_reachable|].
  exact (proj1 (worker_conserves 2 [7; 8; 9] demo_worker demo_worker_reachable)).
Defined.

(** C37: When the reaper runs with no other thread in between, no connection is
    left waiting while a task is idle, whichever of the connections it hands
    over are closed at once. *)
Theorem reaper_leaves_none_waiting coroutine_count accepted w closes :
  worker_reachable coroutine_count accepted w → wk_reaping w = None →
  let w' := ReapFds closes w in
  wk_reaping w' = None ∧
  (wk_pending_fds_ w' = [] ∨ wk_idle_tasks w' = []) ∧
  accepted ≡ₚ wk_pending_fds_ w' ++ serving_fds (wk_tasks w') ++ wk_closed w'.
Proof.
  intros Hok%worker_reachable_ok Hr. destruct (ReapFds_ok closes accepted w Hok Hr) as (Hok' & Hr' & H).
  do 2 (split; [done|]). by rewrite (wo_fds _ _ Hok'), Hr'.
Qed.

Lemma reaper_leaves_none_waiting_witness :
  wk_reaping demo_worker = None ∧
  wk_tasks (ReapFds (λ _, false) demo_worker) = [8; 9] ∧
  (wk_pending_fds_ (ReapFds (λ _, false) demo_worker) = [] ∨
   wk_idle_tasks (ReapFds (λ _, false) demo_worker) = []).
Proof.
  split; [reflexivity|]. split; [reflexivity|].
  exact (proj1 (proj2 (reaper_leaves_none_waiting 2 [7; 8; 9] demo_worker (λ _, false)
    demo_worker_reachable eq_refl))).
Defined.

(** C38: The server starts with at least one worker; the accepted connections
    are dealt to the workers in turn, so worker [i] of [n] is given those
    numbered [i], [i + n], [i + 2 n] and so on, in the order they came, and
    nothing else happens to it. *)
Theorem accept_round_robin worker_count coroutine_count results i :
  let n := Z.to_nat (Z.max 1 worker_count) in
  (i < n)%nat →
  ∃ a fds, AcceptRoutine results (Server_start worker_count coroutine_count) = Some a ∧
    length (ac_workers a) = n ∧
    ac_workers a !! i =
      Some (foldl (λ w fd, DispatchFd fd w) (Worker_new (Z.max 1 coroutine_count)) fds) ∧
    ∀ j, fds !! j = accepted_fds results !! (i + j * n)%nat.
Proof.
  intros n Hi. pose proof (AcceptRoutine_deals results (Server_start worker_count coroutine_count)) as Hd.
  cbn [Server_start ac_workers ac_next_worker] in Hd. fold n in Hd. rewrite !length_replicate in Hd.
  destruct Hd as (a & E & Hl & _ & Hw); [unfold n; lia|].
  eexists a, _. do 2 (split; [done|]). split.
  - apply Hw. by apply lookup_replicate.
  - intros j. rewrite dealt_lookup by lia. f_equal. rewrite decide_True by lia. lia.
Qed.

Lemma accept_round_robin_witness :
  (1 < 2)%nat ∧ ∃ a fds,
    AcceptRoutine [Accepted 7; AcceptNone; Accepted 8; AcceptBlocking 9; Accepted 10; Accepted 11]
      (Server_start 2 4) = Some a ∧
    length (ac_workers a) = 2%nat ∧
    ac_workers a !! 1%nat =
      Some (foldl (λ w fd, DispatchFd fd w) (Worker_new 4) fds) ∧
    ∀ j, fds !! j = [7; 8; 10; 11] !! (1 + j * 2)%nat.
Proof.
  split; [lia|].
  exact (accept_round_robin 2 4
    [Accepted 7; AcceptNone; Accepted 8; AcceptBlocking 9; Accepted 10; Accepted 11] 1 ltac:(lia)).
Defined.
