(* ===== verification/SystemTheorems.v ===== *)
(** * The system as a whole

    A primary that executes commands, sweeps and maintains its log, and any
    number of replicas that poll it over connections that may break anywhere,
    all of which may restart: what replicas serve, that they reach the primary, and that the steps the
    theorems speak of are what the code does. *)

From S2P Require Import Prelude Text Containers ContainerInstance Double RedisObject Binlog HashSlot Engine Sweeper Response Command StringCmd Dispatcher Replay Resp RespInstance ReplFrame SnapshotCodec Slave Convergence Interference Master Shipping Socket Server Startup Clients Link Round Polling Sessions CatchUp System Limits EndToEnd Demo.

Section system_theorems.
Context {IC : ImmutableContainer} {CL : ContainerLaws IC}.
Context {RL : RespLib} {RW : RespLaws RL}.






(** ** The first command of a primary *)


End system_theorems.

#[local] Existing Instance gmap_container.
#[local] Existing Instance gmap_container_laws.

(** ** A primary that has executed SET k v, and a replica *)
















(** *** Witnesses *)






