(* ===== verification/ProgramTheorems.v ===== *)
(** * What the program promises

    The theorems about the process [main] starts: what its command line makes
    of it, that no input takes it outside defined behaviour, that clients
    are served one after another and in order, and that its background thread
    removes what has expired. *)

From S2P Require Import Prelude Text Containers ContainerInstance RedisObject Binlog HashSlot Engine Sweeper Response Command Dispatcher Resp RespInstance ReplFrame SnapshotCodec Slave Convergence Master Background Socket Server Worker Link Startup Process Clients Demo.

Section command_line.
Context {EL : EndpointLib}.

(** C29: The command line is read as a set of options: the program exits with 2
    just when some log budget is not a number of bytes, and otherwise every
    setting is that of the last option that gives it, whatever the order of
    different options; a replica without a name is named by its address. The
    configuration is always usable: a 16-bit port, a budget that fits, a name. *)
Theorem startup_configures argv port workers coroutines :
  int_arg argv 1 6399 = Some port → int_arg argv 2 2 = Some workers →
  int_arg argv 3 1024 = Some coroutines →
  parse_args argv =
    Some (if existsb bad_budget (drop 4 argv) then inl 2
          else inr (configured port workers coroutines (drop 4 argv))) ∧
  ∀ c, parse_args argv = Some (inr c) →
    0 <= cf_port c < 65536 ∧ 0 <= cf_binlog_budget_bytes c <= INT64_MAX ∧ cf_replica_id c ≠ "" ∧
    (cf_role c = kReplica ↔ "--replica" ∈ drop 4 argv) ∧
    (cf_replica_reads c = true ↔ "--replica-reads" ∈ drop 4 argv).
Proof.
  intros Hp Hw Hc. pose proof (parse_args_spec argv port workers coroutines Hp Hw Hc) as E.
  split; [exact E|]. rewrite E. intros c. destruct (existsb _ _) eqn:Hb; intros [= <-].
  destruct (configured_ok port workers coroutines _ Hb) as (H1 & H2 & H3 & _).
  do 3 (split; [done|]). by apply configured_flags.
Qed.
End command_line.

Section program.
Context {IC : ImmutableContainer} {CL : ContainerLaws IC}.
Context {RL : RespLib} {RW : RespLaws RL} {EL : EndpointLib}.



(** C16: What has expired goes: after [rounds] turns around all slots, started
    from any state of the loop and of the cache, with clock readings between
    [t0] and [t], every slot in which fewer than 64 entries for each round
    expire by [t] holds no entry that had expired by [t0]. Nothing else is
    removed or changed, the maintenance has run every hundredth time, and
    right after it the logs fit their budget. *)
Theorem expired_keys_collected rounds clock t0 t b m e :
  background_ok b m e → Forall (λ now_us, t0 <= now_us <= t) clock →
  (rounds * SlotCount e <= length clock * kSlotsPerTick)%nat →
  engine_room e (Z.of_nat (length clock) * tick_writes) →
  ∃ b' m' e', background_loop clock b m e = Some ((b', m'), e') ∧ background_ok b' m' e' ∧
    bg_ticks b' = ((bg_ticks b + length clock) mod kTicksPerMaintenance)%nat ∧
    (clock ≠ [] → bg_ticks b' = 0%nat → total_log_bytes e' <= ms_budget_ m) ∧
    ∀ i s, slots_ e !! i = Some s → ∃ s', slots_ e' !! i = Some s' ∧
      slot_map s' ⊆ slot_map s ∧ (∀ k, live (slot_map s') t k = live (slot_map s) t k) ∧
      ((size (expired_entries s t) < rounds * ExpireSweeper.kMaxExpiredKeysPerSlot)%nat →
       no_expired s' t0).
Proof.
  intros Hok Hf Hr Hroom.
  destruct (background_collects_run rounds clock t0 t b m e Hok Hf Hr Hroom)
    as (b' & m' & e' & E & Hok' & _ & Ht & Hfit & Hs).
  exists b', m', e'. do 4 (split; [done|]). intros i s Hi.
  destruct (Hs i s Hi) as (s' & Hi' & [Hsub Hlive] & Hcl). by exists s'.
Qed.
End program.

#[local] Existing Instance gmap_container.
#[local] Existing Instance gmap_container_laws.

(** ** A command line and two clients *)

(** Endpoints as "host:port". *)
Fixpoint split_colon (s : string) : option (string * string) :=
  match s with
  | EmptyString => None
  | String c rest =>
      if Ascii.eqb c ":" then Some ("", rest)
      else match split_colon rest with Some (h, p) => Some (String c h, p) | None => None end
  end.

#[local] Instance demo_endpoint : EndpointLib := {|
  Endpoint := string * Z;
  Endpoint_parse s := '(host, text) ← split_colon s; port ← ParseU64 text; Some (host, port);
  Endpoint_host := fst;
  Endpoint_port := snd;
|}.

Definition demo_argv : list string :=
  ["cache_server"; "6400"; "1"; "8"; "--replica-id="; "--binlog-budget=64"; "--master=m:70000";
   "--binlog-budget=1024"].

















(** *** Witnesses *)

Lemma startup_configures_witness :
  parse_args demo_argv =
    Some (if existsb bad_budget (drop 4 demo_argv) then inl 2
          else inr (configured 6400 1 8 (drop 4 demo_argv))) ∧
  ∀ c, parse_args demo_argv = Some (inr c) →
    0 <= cf_port c < 65536 ∧ 0 <= cf_binlog_budget_bytes c <= INT64_MAX ∧ cf_replica_id c ≠ "" ∧
    (cf_role c = kReplica ↔ "--replica" ∈ drop 4 demo_argv) ∧
    (cf_replica_reads c = true ↔ "--replica-reads" ∈ drop 4 demo_argv).
Proof. apply startup_configures; by vm_compute. Defined.



(** The cache of Demo.v, where a key expires at 2000, and 101 turns of 1000
    slots later on. *)
Definition demo_clock : list Z := replicate 101 5000.

Lemma demo_slot_count : SlotCount demo = Z.to_nat kSlotCount.
Proof. unfold SlotCount. exact (ew_count _ (eo_wf _ (proj1 demo_ok))). Qed.

Lemma demo_background_ok : background_ok background_new (MasterReplicator_new 1 2) demo.
Proof.
  split; [apply demo_ok|apply Forall_nil_2|cbn; unfold UINT64_MAX; lia|reflexivity| |].
  - rewrite demo_slot_count. cbn. unfold kSlotCount. lia.
  - unfold kTicksPerMaintenance. cbn. lia.
Qed.

Lemma expired_keys_collected_witness :
  ∃ b' m' e', background_loop demo_clock background_new (MasterReplicator_new 1 2) demo =
      Some ((b', m'), e') ∧ background_ok b' m' e' ∧
    bg_ticks b' = ((0 + length demo_clock) mod kTicksPerMaintenance)%nat ∧
    (demo_clock ≠ [] → bg_ticks b' = 0%nat → total_log_bytes e' <= UINT64_MAX) ∧
    ∀ i s, slots_ demo !! i = Some s → ∃ s', slots_ e' !! i = Some s' ∧
      slot_map s' ⊆ slot_map s ∧ (∀ k, live (slot_map s') 5000 k = live (slot_map s) 5000 k) ∧
      ((size (expired_entries s 5000) < 1 * ExpireSweeper.kMaxExpiredKeysPerSlot)%nat →
       no_expired s' 5000).
Proof.
  refine (expired_keys_collected 1 demo_clock 5000 5000 background_new (MasterReplicator_new 1 2)
    demo demo_background_ok _ _ _).
  - apply Forall_replicate. lia.
  - rewrite demo_slot_count. unfold demo_clock. rewrite length_replicate.
    unfold kSlotCount, kSlotsPerTick. lia.
  - unfold demo_clock. rewrite length_replicate. apply demo_room. by vm_compute.
Defined.
